(* ===== verification/_CoqProject ===== *)
-Q . S2P
Prelude.v
Cbor.v
CborNode.v
CborNodeFacts.v
CborNodeSafe.v
CborRoundTrip.v
Writer.v
Text.v
Document.v
DocumentLaws.v
Catalog.v
Joins.v
JoinsFacts.v
KeysFacts.v
MaskSlots.v
MaskFacts.v
TempTable.v
TempTableFacts.v
Regexp.v
EncodeBase.v
EncodeNumeric.v
EncodeNumericFacts.v
EncodeTime.v
EncodeTimeFacts.v
EncodeValue.v
EncodeText.v
RowBatch.v
EncodeFacts.v
RowBatchFacts.v
Expression.v
ParseExpr.v
ParseExprFacts.v
ParseExprSpec.v
ParseQuery.v
ParseQueryFacts.v
Nodes.v
ScopeFacts.v
ResolveQuery.v
ResolveQueryFacts.v
ResolveExpr.v
ResolveExprFacts.v
Shape.v
ShapeFacts.v
Compile.v
Denormalize.v
DenormalizeFacts.v
WriteColumns.v
Erase.v
CompileText.v
CompileFrame.v
CompileFlaws.v
