(* ===== verification/Prelude.v ===== *)
(** * rel: a verification development

    rel is a Go server that answers queries over a Postgres database: a request,
    in JSON or CBOR, describes a tree of relations and functions to read or to
    write, and rel compiles it to one SQL statement.  This library models the
    part of the program that decides what a request means, and proves what makes
    it correct.

    The data flow of a request, and where each step is modelled:

    - [src/query/node_cbor.go] reads the bytes of a CBOR request into a flat
      arena ([CborNode]); [src/cborenc/encode.go] writes CBOR ([Cbor]).
    - [src/query/node_iface.go] is the interface the parsers read documents
      through, JSON or CBOR ([Document], with [Text] for the texts of numbers).
    - [src/query/expression_parse.go] parses an expression ([Expression] is the
      syntax, [ParseExpr] the parser), [src/query/node_parse.go] and
      [src/query/wellknown_parse.go] a query ([ParseQuery]).
    - [src/pg] holds the introspected catalog: its data and lookups ([Catalog]),
      its constraints, indexes, computed fields and join resolution ([Joins]).
    - [src/query/node_resolve.go] and [src/query/scope.go] resolve the parsed
      query against the catalog into a tree of nodes ([Nodes], [ResolveQuery]),
      and [src/query/expression_resolve.go] its expressions ([ResolveExpr]).
    - [src/query/shape.go] derives from a resolved select what a write can read
      back from a payload of its form ([Shape]).
    - [src/query/sql.go] and [src/query/sql_expr.go] compile the resolved tree
      to one statement ([Compile], with the regular expressions the compiler
      tests its words with in [Regexp]) on the buffer of [src/writer], with its
      placeholders and its quoting of identifiers ([Writer]).
    - [src/pg/info_mask.go] gives every column and composite field of a relation
      its presence slot ([MaskSlots]), and [src/query/write_temp.go] plans the
      temp tables a write stages its rows in ([TempTable]).
    - [src/query/write_encode.go], [write_encode_numeric.go],
      [write_encode_time.go] and [write_encode_complex.go] write the values of a
      request in the binary or the text form Postgres reads ([EncodeBase],
      [EncodeNumeric], [EncodeTime], [EncodeValue], [EncodeText]), and
      [write_temp.go] puts them in the rows of a batch ([RowBatch]).
    - [src/query/write_denormalize.go] walks a payload alongside the tree and
      adds a row to a batch for each object of it ([Denormalize]).

    ** Conventions

    A Go call is an [outcome]: a value, an error (its code and message), a panic
    or, for recursion bounded by fuel, exhausted fuel; code with state is in the
    state and outcome monad [M], both below in this file.  Only the code of an
    error is compared: the messages keep the source's text without the values
    formatted into it, and the wrapping that adds context keeps the code.  An
    integer of the source's is a [Z], its width written out where it wraps; a
    [float64] is its 64 bits; a [string] is its bytes.  A Go map that is ranged
    over is an association list with distinct keys, in the order of one
    iteration, and one that is only looked up is a [gmap].  A pointer is the
    position of its target in a store.

    What is not under [src/] is a parameter: the parser of RFC 3339 dates
    ([time.Parse]), the JSON library, behind the [Node] laws, and pgx's quoting
    of identifiers ([Sanitize]).  A time zone is a function from an instant to an
    offset, of less than a day where a theorem needs a bound ([sane_zone]).  The order a Go map is ranged over, which the
    compiler's output depends on, is a parameter too ([order]).  The rows of
    the catalog queries are the input of the filling functions.

    ** Fuel

    [NewCBORNode] nests at most [cborMaxDepth] items, and its loops read a byte
    of the input at every turn.  The parsers descend in a document, whose arena
    refers only to what was read before, so its number of nodes bounds their
    recursion.  Resolution is bounded by the configured depth, which it checks.
    In each case the theorems show that the fuel given does not run out, for
    any input.  The compiler's recursion is not bounded by its input: a function
    whose arguments mention the child it is joined to is compiled without end
    ([CompileFlaws.self_argument_diverges]), and so is a node that selects its own
    alias ([CompileFlaws.self_select_diverges]), so the fuel of [compile] is an
    argument and its theorems hold for every fuel.  The encoders of arrays
    descend in a value, whose [nesting] bounds them; those of types are bounded
    by the number of types, as their tree is.  A payload is walked no deeper than
    it is nested, whatever the tree ([DenormalizeFacts.denormalize_depth]).

    ** What the theorems show

    - [CborNodeSafe], [CborRoundTrip]: on any bytes the CBOR reader returns a
      well-formed document or an error, and it reads back what the encoder
      writes, integers and decimals of any size included.
    - [ParseExprFacts], [ParseQueryFacts]: over every implementation of the
      [Node] interface the parsers return what they return on the abstract
      document, so a JSON and a CBOR request with the same document mean the
      same; decoding a request from its bytes never panics.
    - [ParseExprSpec]: what the parser returns is well formed, which is what
      makes number literals and operators safe to write to SQL; operator words
      are synonyms; chained comparisons mean what they say.
    - [Writer]: the text does not depend on how writes are cut, an escaped
      identifier is lexed back by SQL as the name's parts, and every placeholder
      gets its argument.
    - [JoinsFacts], [KeysFacts]: what the key of a column set identifies, what
      the filled catalog guarantees, and that an accepted join is backed by a
      foreign key or a unique constraint and is indexed.
    - [ResolveQueryFacts]: a resolved tree reads only what the blacklist admits,
      joins only on indexed columns and writes only where its modes may stand.
    - [ScopeFacts], [ResolveExprFacts]: a name resolves exactly when it has one
      meaning in its scope; resolved expressions name only columns, relations
      and functions that exist in the catalog and the node tree.
    - [ShapeFacts]: a column is extracted from where the select shows it, once and
      untransformed, and a writable tree can be written everywhere a write goes.
    - [CompileText], [CompileFrame]: the text of a statement does not depend on
      the values of the request, which are all bound as arguments ([Erase] says
      what a request is without its values); the compiler only appends, and
      gives indentation and scope back.  [CompileFlaws] runs the whole chain
      from a request on small catalogs, where the compiled statement is wrong.
    - [MaskFacts], [TempTableFacts]: the presence slots of a relation are
      distinct, dense and found by their path; a temp table's metadata columns
      never collide with its data columns, as long as Postgres does not
      truncate them.
    - [EncodeNumericFacts], [EncodeTimeFacts]: a written number is the number its
      text denotes, digits and scale; days are counted one by one over the whole
      calendar, a reading around a clock change takes the offset Postgres gives
      it, and no timestamp wraps around.
    - [EncodeFacts], [RowBatchFacts]: every encoder only appends, and the
      parameter of a batch is read back as the rows that were added to it.
    - [DenormalizeFacts]: a payload is loaded as one row per object, numbered in
      the order of the walk, each under the row of the object it is in.

    ** Not modelled yet

    In the order planned: the statements of a write ([src/query/write.go],
    [write_dml.go], [write_fast.go]) and the transcoding of JSON results
    ([src/cborenc/json.go]).  Not planned: the HTTP server and its
    authentication, configuration files, the introspection queries and the
    TypeScript generator, which are I/O around the query engine. *)
From Stdlib Require Import ZArith Lia Ascii.
From Stdlib Require Import Strings.Byte.
From stdpp Require Export base list strings gmap fin_maps.

#[global] Open Scope Z_scope.
#[global] Set Default Proof Using "Type".
#[global] Arguments String.append : simpl nomatch.

(** * Outcomes of Go calls

    A Go call returns a value, returns a non-nil [error], panics, or does not
    return.  The errors this program builds are [oops] or [fmt] errors whose
    identity, for a caller, is their machine code (an [errcode.Code] or a
    SQLSTATE) and their message; the message is kept as its format string. *)

Record error := Error { err_code : string; err_msg : string }.

Inductive outcome (A : Type) :=
  | Ok (a : A)
  | Err (e : error)
  | Panic
  | OutOfFuel.
Arguments Ok {A} _.
Arguments Err {A} _.
Arguments Panic {A}.
Arguments OutOfFuel {A}.

#[global] Instance error_eq_dec : EqDecision error.
Proof. solve_decision. Defined.

#[global] Instance outcome_ret : MRet outcome := @Ok.
#[global] Instance outcome_bind : MBind outcome := λ A B f m,
  match m with
  | Ok a => f a
  | Err e => Err e
  | Panic => Panic
  | OutOfFuel => OutOfFuel
  end.
#[global] Instance outcome_fmap : FMap outcome := λ A B f m,
  match m with
  | Ok a => Ok (f a)
  | Err e => Err e
  | Panic => Panic
  | OutOfFuel => OutOfFuel
  end.

(** [fmt.Errorf] and [oops.Errorf] without, and with, a code. *)
Definition errorf {A} (msg : string) : outcome A := Err (Error "" msg).
Definition errorc {A} (code msg : string) : outcome A := Err (Error code msg).

(** [oops.Wrapf(err, msg)] and [fmt.Errorf(msg + ": %w", err)]: the message of
    the wrapper, the code of the cause. *)
Definition wrapf {A} (msg : string) (m : outcome A) : outcome A :=
  match m with
  | Err e => Err (Error (err_code e) msg)
  | _ => m
  end.

Definition of_option {A} (e : outcome A) (o : option A) : outcome A :=
  match o with Some a => Ok a | None => e end.

(** [l[i]], which panics out of range. *)
Definition at_index {A} (l : list A) (i : nat) : outcome A := of_option Panic (l !! i).

(** [if !b { return err }] *)
Definition guard_err (b : bool) (e : outcome unit) : outcome unit :=
  if b then Ok tt else e.

Definition is_ok {A} (m : outcome A) : bool :=
  match m with Ok _ => true | _ => false end.

(** A call that returns, a value or an error: no panic, no endless run. *)
Definition returns {A} (m : outcome A) : Prop :=
  match m with Ok _ | Err _ => True | _ => False end.

Lemma returns_bind {A B} (m : outcome A) (f : A → outcome B) :
  returns m → (∀ a, m = Ok a → returns (f a)) → returns (m ≫= f).
Proof. destruct m; cbn; auto. Qed.

(** Stateful calls: explicit state passing, the state lost with an error. *)
Definition M (S A : Type) : Type := S → outcome (A * S).

#[global] Instance M_ret {S} : MRet (M S) := λ A a s, Ok (a, s).
#[global] Instance M_bind {S} : MBind (M S) := λ A B f m s,
  match m s with
  | Ok (a, s') => f a s'
  | Err e => Err e
  | Panic => Panic
  | OutOfFuel => OutOfFuel
  end.

Definition lift {S A} (m : outcome A) : M S A := λ s,
  match m with
  | Ok a => Ok (a, s)
  | Err e => Err e
  | Panic => Panic
  | OutOfFuel => OutOfFuel
  end.
Definition wrap {S A} (msg : string) (m : M S A) : M S A := λ s, wrapf msg (m s).
Definition fail {S A} (code msg : string) : M S A := λ _, errorc code msg.
Definition get {S} : M S S := λ s, Ok (s, s).
Definition put {S} (s : S) : M S unit := λ _, Ok (tt, s).
Definition modify {S} (f : S → S) : M S unit := λ s, Ok (tt, f s).

(** The loops [for i, x := range xs { ... }]. *)
Definition for_each {S A} (f : nat → A → M S unit) : nat → list A → M S unit :=
  fix go i xs :=
    match xs with
    | [] => mret tt
    | x :: xs => f i x ≫= λ _, go (i + 1)%nat xs
    end.

(** The results of [f] on each element. *)
Definition map_m {S A B} (f : A → M S B) : list A → M S (list B) :=
  fix go l :=
    match l with
    | [] => mret []
    | a :: l => b ← f a; bs ← go l; mret (b :: bs)
    end.

(** The accumulation of a loop. *)
Definition fold_m {S A B} (f : B → A → M S B) : B → list A → M S B :=
  fix go b l :=
    match l with
    | [] => mret b
    | a :: l => b ← f b a; go b l
    end.

Lemma list_max_in {A} (f : A → nat) l a : a ∈ l → (f a ≤ list_max (map f l))%nat.
Proof.
  intros Ha. pose proof (proj1 (list_max_le (map f l) _) (le_n _)) as H.
  rewrite Forall_map in H. rewrite Forall_forall in H. by apply H.
Qed.

Section outcome_laws.
Context {S A B : Type}.

Lemma outcome_bind_ok (m : outcome A) (f : A → outcome B) b :
  m ≫= f = Ok b ↔ ∃ a, m = Ok a ∧ f a = Ok b.
Proof.
  destruct m; cbn; split; [eauto | | | | | | |];
    try (by intros (a' & [=] & ?)); try done.
  by intros (a' & [= ->] & ?).
Qed.

Lemma M_bind_ok (m : M S A) (f : A → M S B) s b s'' :
  (m ≫= f) s = Ok (b, s'') ↔ ∃ a s', m s = Ok (a, s') ∧ f a s' = Ok (b, s'').
Proof.
  unfold mbind, M_bind. destruct (m s) as [[a s']|e| |]; split; try done; eauto;
    intros (a' & s1 & Hm & Hf); simplify_eq; done.
Qed.

Lemma M_bind_run (m : M S A) (f : A → M S B) s a s' :
  m s = Ok (a, s') → (m ≫= f) s = f a s'.
Proof. unfold mbind, M_bind. by intros ->. Qed.

Lemma lift_ok (m : outcome A) (s : S) a s' : lift m s = Ok (a, s') → m = Ok a ∧ s' = s.
Proof. unfold lift. destruct m; [by intros [= <- <-]|done..]. Qed.
Lemma wrap_ok msg (m : M S A) s r : wrap msg m s = Ok r → m s = Ok r.
Proof. unfold wrap, wrapf. by destruct (m s). Qed.

(** Two computations that do the same after the states they reach. *)
Lemma M_bind_ext (m : M S A) (f g : A → M S B) s :
  (∀ a s', m s = Ok (a, s') → f a s' = g a s') → (m ≫= f) s = (m ≫= g) s.
Proof. intros Hfg. unfold mbind, M_bind. destruct (m s) as [[a s']| | |]; [by apply Hfg|done..]. Qed.
Lemma for_each_ext (f g : nat → A → M S unit) l : ∀ i s,
  (∀ i a s, a ∈ l → f i a s = g i a s) → for_each f i l s = for_each g i l s.
Proof.
  induction l as [|a l IH]; intros i s Hfg; [done|]. cbn [for_each]. unfold mbind, M_bind.
  rewrite Hfg by by left. destruct (g i a s) as [[[] s']| | |]; [|done..]. apply IH. intros. apply Hfg. by right.
Qed.
End outcome_laws.

(** [run_ok H] turns a hypothesis that a chain of binds returned into the
    equations of its parts. *)
Ltac run_ok_step :=
  match goal with
  | H : mbind _ _ _ = Ok _ |- _ => apply M_bind_ok in H as (? & ? & ? & ?)
  | H : mbind _ _ = Ok _ |- _ => apply outcome_bind_ok in H as (? & ? & ?)
  | H : mret _ _ = Ok _ |- _ => unfold mret, M_ret in H; simplify_eq
  | H : mret _ = Ok _ |- _ => unfold mret, outcome_ret in H; simplify_eq
  | H : Ok _ = Ok _ |- _ => injection H as; subst
  | H : lift ?m _ = Ok _ |- _ => unfold lift in H; destruct m eqn:?; try discriminate H
  | H : modify _ _ = Ok _ |- _ => unfold modify in H
  | H : get _ = Ok _ |- _ => unfold get in H
  | H : put _ _ = Ok _ |- _ => unfold put in H
  | H : Err _ = Ok _ |- _ => discriminate H
  | H : errorf _ = Ok _ |- _ => discriminate H
  | H : errorc _ _ = Ok _ |- _ => discriminate H
  | H : Panic = Ok _ |- _ => discriminate H
  | H : OutOfFuel = Ok _ |- _ => discriminate H
  end.
Ltac run_ok := repeat (run_ok_step; simplify_eq/=).

(** * Bytes

    A Go [byte] is [Byte.byte]; [byte(x)] truncates, which is [zb]. *)

Definition bz (b : Byte.byte) : Z := Z.of_N (Byte.to_N b).
Definition zb (z : Z) : Byte.byte := default Byte.x00 (Byte.of_N (Z.to_N (z `mod` 256))).

Lemma bz_range b : 0 ≤ bz b < 256.
Proof. unfold bz. pose proof (Byte.to_N_bounded b). lia. Qed.

Lemma bz_zb z : bz (zb z) = z `mod` 256.
Proof.
  unfold bz, zb. pose proof (Z.mod_pos_bound z 256 ltac:(lia)).
  destruct (Byte.of_N _) as [b|] eqn:E.
  - apply Byte.to_of_N in E. cbn. lia.
  - apply Byte.of_N_None_iff in E. lia.
Qed.

Lemma bz_inj a b : bz a = bz b → a = b.
Proof.
  unfold bz. intros H%N2Z.inj.
  pose proof (Byte.of_to_N a) as Ha. pose proof (Byte.of_to_N b) as Hb.
  rewrite H in Ha. congruence.
Qed.

Lemma zb_bz b : zb (bz b) = b.
Proof. apply bz_inj. rewrite bz_zb. apply Z.mod_small, bz_range. Qed.

#[global] Instance byte_eq_dec : EqDecision Byte.byte.
Proof.
  intros a b. destruct (decide (bz a = bz b)) as [H|H].
  - left. by apply bz_inj.
  - right. intros ->. done.
Defined.

Abbreviation bytes := (list Byte.byte).

(** Big-endian words: [be_bytes n v] is the [n] low bytes of [v], the most
    significant first, which is what [byte(v>>8*(n-1)), ..., byte(v)] and
    [binary.BigEndian.AppendUint] write. *)
Fixpoint be_bytes (n : nat) (v : Z) : bytes :=
  match n with
  | O => []
  | S n' => zb (v ≫ (8 * Z.of_nat n')) :: be_bytes n' v
  end.

(** The unsigned value of big-endian bytes ([binary.BigEndian.Uint], [SetBytes]). *)
Definition be_value (l : bytes) : Z := foldl (λ acc b, acc * 256 + bz b) 0 l.

Lemma be_value_acc l acc :
  foldl (λ acc b, acc * 256 + bz b) acc l = acc * 256 ^ Z.of_nat (length l) + be_value l.
Proof.
  unfold be_value. revert acc. induction l as [|b l IH]; intros acc; cbn [foldl length].
  - rewrite Z.pow_0_r. lia.
  - rewrite IH, (IH (0 * 256 + bz b)). rewrite Nat2Z.inj_succ, Z.pow_succ_r by lia. ring.
Qed.

Lemma be_value_cons b l : be_value (b :: l) = bz b * 256 ^ Z.of_nat (length l) + be_value l.
Proof. unfold be_value at 1. cbn [foldl]. rewrite be_value_acc. ring. Qed.

Lemma be_value_app l k : be_value (l ++ k) = be_value l * 256 ^ Z.of_nat (length k) + be_value k.
Proof. unfold be_value at 1. rewrite foldl_app, be_value_acc. done. Qed.

Lemma be_value_nonneg l : 0 ≤ be_value l.
Proof.
  induction l as [|b l IH]; [done|]. rewrite be_value_cons.
  pose proof (bz_range b). nia.
Qed.

Lemma length_be_bytes n v : length (be_bytes n v) = n.
Proof. induction n; cbn; congruence. Qed.

Lemma pow2_256 n : 2 ^ (8 * Z.of_nat n) = 256 ^ Z.of_nat n.
Proof. rewrite Z.pow_mul_r by lia. done. Qed.

Lemma be_value_be_bytes n v : be_value (be_bytes n v) = v `mod` 256 ^ Z.of_nat n.
Proof.
  induction n as [|n IH]; cbn [be_bytes].
  - rewrite Z.mod_1_r. done.
  - rewrite be_value_cons, bz_zb, length_be_bytes, IH, Z.shiftr_div_pow2 by lia.
    rewrite pow2_256, Nat2Z.inj_succ, Z.pow_succ_r by lia.
    rewrite (Z.mul_comm 256), Z.rem_mul_r by lia. ring.
Qed.

Lemma be_value_be_bytes_small n v :
  0 ≤ v < 256 ^ Z.of_nat n → be_value (be_bytes n v) = v.
Proof. intros. rewrite be_value_be_bytes. by apply Z.mod_small. Qed.

Lemma be_value_bound l : be_value l < 256 ^ Z.of_nat (length l).
Proof.
  induction l as [|b l IH]; [done|]. rewrite be_value_cons. cbn [length].
  rewrite Nat2Z.inj_succ, Z.pow_succ_r by lia. pose proof (bz_range b). nia.
Qed.

Create HintDb bytes.
Create Rewrite HintDb bytes_rw.
#[export] Hint Rewrite bz_zb zb_bz length_be_bytes be_value_be_bytes : bytes_rw.
#[export] Hint Resolve bz_range be_value_nonneg be_value_bound : bytes.

(** * Strings

    A Go string is a byte sequence, as is [string]. *)

Abbreviation bytes_of_string := String.list_byte_of_string.
Abbreviation string_of_bytes := String.string_of_list_byte.

Lemma string_of_bytes_of_string s : string_of_bytes (bytes_of_string s) = s.
Proof. apply String.string_of_list_byte_of_string. Qed.
Lemma bytes_of_string_of_bytes l : bytes_of_string (string_of_bytes l) = l.
Proof. apply String.list_byte_of_string_of_list_byte. Qed.

(** The characters the code writes as literals and Rocq strings cannot hold. *)
Definition quote_char : Ascii.ascii := "034"%char.
Definition newline_char : Ascii.ascii := "010"%char.
Definition quote : string := String quote_char "".
Definition newline : string := String newline_char "".

Fixpoint string_forallb (p : Ascii.ascii → bool) (s : string) : bool :=
  match s with
  | EmptyString => true
  | String c s => p c && string_forallb p s
  end.

(** [strings.Join] *)
Fixpoint join (sep : string) (l : list string) : string :=
  match l with
  | [] => ""
  | [s] => s
  | s :: l => s +:+ sep +:+ join sep l
  end.

(** [strings.Split(s, sep)] for a one-byte separator: at least one piece. *)
Fixpoint split_on (sep : Ascii.ascii) (s : string) : list string :=
  match s with
  | EmptyString => [""]
  | String c s =>
      if decide (c = sep) then "" :: split_on sep s
      else match split_on sep s with
           | [] => [String c ""]
           | p :: ps => String c p :: ps
           end
  end.

Lemma split_on_nonempty sep s : split_on sep s ≠ [].
Proof. destruct s; cbn; [done|]. case_decide; [done|]. by destruct (split_on sep s). Qed.

Lemma join_cons sep s l : l ≠ [] → join sep (s :: l) = s +:+ sep +:+ join sep l.
Proof. by destruct l. Qed.

Lemma append_assoc (a b c : string) : (a +:+ b) +:+ c = a +:+ (b +:+ c).
Proof. induction a as [|x a IH]; cbn; [done|]. by rewrite IH. Qed.
Lemma append_empty_r (a : string) : a +:+ "" = a.
Proof. induction a as [|x a IH]; cbn; [done|]. by rewrite IH. Qed.

Lemma join_split sep s : join (String sep "") (split_on sep s) = s.
Proof.
  induction s as [|c s IH]; [done|]. cbn [split_on].
  pose proof (split_on_nonempty sep s) as Hne.
  case_decide as Hc.
  - subst. rewrite join_cons by done. cbn. by rewrite IH.
  - revert IH Hne. destruct (split_on sep s) as [|p ps]; [done|]. intros IH _.
    destruct ps; cbn in *; by rewrite IH.
Qed.

Definition digit_char (d : Z) : Ascii.ascii := ascii_of_nat (Z.to_nat (48 + d)).
Definition char_code (c : Ascii.ascii) : Z := Z.of_nat (nat_of_ascii c).
Definition is_digit (c : Ascii.ascii) : bool := (48 <=? char_code c) && (char_code c <=? 57).
Definition digit_val (c : Ascii.ascii) : Z := char_code c - 48.

Lemma char_code_digit d : 0 ≤ d < 10 → char_code (digit_char d) = 48 + d.
Proof.
  intros. unfold char_code, digit_char. rewrite nat_ascii_embedding by lia. lia.
Qed.
Lemma is_digit_digit_char d : 0 ≤ d < 10 → is_digit (digit_char d) = true.
Proof. intros. unfold is_digit. rewrite char_code_digit by done. lia. Qed.
Lemma digit_val_digit_char d : 0 ≤ d < 10 → digit_val (digit_char d) = d.
Proof. intros. unfold digit_val. rewrite char_code_digit by done. lia. Qed.
Lemma is_digit_range c : is_digit c = true → 0 ≤ digit_val c < 10.
Proof. unfold is_digit, digit_val. lia. Qed.

(** Decimal text of a non-negative integer ([strconv.FormatUint], [%d]), and of
    an integer ([strconv.FormatInt], [big.Int.String]). *)
Fixpoint dec_go (fuel : nat) (n : Z) (acc : string) : string :=
  match fuel with
  | O => acc
  | S fuel =>
      let acc := String (digit_char (n `mod` 10)) acc in
      if n <? 10 then acc else dec_go fuel (n `div` 10) acc
  end.
Definition dec_nat (n : Z) : string := dec_go (S (Z.to_nat (Z.log2 n))) n "".
Definition dec_int (z : Z) : string :=
  if z <? 0 then String "-" (dec_nat (- z)) else dec_nat z.

(** The value of a run of digits. *)
Fixpoint dec_value_acc (acc : Z) (s : string) : Z :=
  match s with
  | EmptyString => acc
  | String c s => dec_value_acc (acc * 10 + digit_val c) s
  end.
Definition dec_value (s : string) : Z := dec_value_acc 0 s.

Definition all_digits (s : string) : bool := string_forallb is_digit s.

Lemma dec_value_acc_split acc s :
  dec_value_acc acc s = acc * 10 ^ Z.of_nat (String.length s) + dec_value s.
Proof.
  unfold dec_value. revert acc. induction s as [|c s IH]; intros acc;
    cbn [dec_value_acc String.length].
  - rewrite Z.pow_0_r. lia.
  - rewrite IH, (IH (0 * 10 + digit_val c)), Nat2Z.inj_succ, Z.pow_succ_r by lia. ring.
Qed.

Lemma dec_value_cons c s :
  dec_value (String c s) = digit_val c * 10 ^ Z.of_nat (String.length s) + dec_value s.
Proof. unfold dec_value at 1. cbn. by rewrite dec_value_acc_split. Qed.

Lemma length_append (a b : string) : String.length (a +:+ b) = (String.length a + String.length b)%nat.
Proof. induction a as [|x a IH]; cbn; congruence. Qed.

Lemma dec_value_app a b :
  dec_value (a +:+ b) = dec_value a * 10 ^ Z.of_nat (String.length b) + dec_value b.
Proof.
  induction a as [|c a IH]; cbn [String.append]; [done|].
  rewrite !dec_value_cons, IH, length_append, Nat2Z.inj_add, Z.pow_add_r by lia. ring.
Qed.

Lemma dec_go_spec fuel n acc :
  0 ≤ n → n < 2 ^ Z.of_nat fuel →
  all_digits acc = true →
  let s := dec_go fuel n acc in
  all_digits s = true ∧
  dec_value s = n * 10 ^ Z.of_nat (String.length acc) + dec_value acc.
Proof.
  revert n acc. induction fuel as [|fuel IH]; intros n acc H0 Hlt Hacc; cbn [dec_go].
  - cbn in Hlt. assert (n = 0) as -> by lia. done.
  - pose proof (Z.mod_pos_bound n 10 ltac:(lia)) as Hm.
    pose proof (Z.div_mod n 10 ltac:(lia)) as Hdm.
    assert (all_digits (String (digit_char (n `mod` 10)) acc) = true) as Hacc'.
    { unfold all_digits in *. cbn. by rewrite is_digit_digit_char, Hacc. }
    destruct (Z.ltb_spec n 10).
    + split; [done|]. rewrite dec_value_cons, digit_val_digit_char by done.
      rewrite Z.mod_small by lia. done.
    + rewrite Nat2Z.inj_succ, Z.pow_succ_r in Hlt by lia.
      destruct (IH (n `div` 10) _ ltac:(lia) ltac:(lia) Hacc') as [? ->]. split; [done|].
      rewrite dec_value_cons, digit_val_digit_char by done. cbn [String.length].
      rewrite Nat2Z.inj_succ, Z.pow_succ_r by lia. nia.
Qed.

Lemma log2_fuel n : 0 ≤ n → n < 2 ^ Z.of_nat (S (Z.to_nat (Z.log2 n))).
Proof.
  intros H. pose proof (Z.log2_nonneg n).
  rewrite Nat2Z.inj_succ, Z2Nat.id by lia.
  destruct (Z.eq_dec n 0) as [->|]; [done|]. apply Z.log2_spec. lia.
Qed.

Lemma dec_nat_digits n : 0 ≤ n → all_digits (dec_nat n) = true.
Proof. intros. by apply dec_go_spec; [|apply log2_fuel|]. Qed.

Lemma dec_nat_value n : 0 ≤ n → dec_value (dec_nat n) = n.
Proof.
  intros. unfold dec_nat. edestruct dec_go_spec as [_ ->]; [done|by apply log2_fuel|done|].
  cbn [String.length]. rewrite Z.pow_0_r. unfold dec_value; cbn. lia.
Qed.

Lemma dec_nat_inj n m : 0 ≤ n → 0 ≤ m → dec_nat n = dec_nat m → n = m.
Proof. intros Hn Hm H. by rewrite <-(dec_nat_value n), <-(dec_nat_value m), H. Qed.

Lemma dec_go_nonempty fuel n acc : dec_go (S fuel) n acc ≠ "".
Proof.
  revert n acc. induction fuel as [|fuel IH]; intros n acc; cbn [dec_go]; destruct (n <? 10); try done.
  apply (IH (n `div` 10)).
Qed.
Lemma dec_nat_nonempty n : dec_nat n ≠ "".
Proof. apply dec_go_nonempty. Qed.

(** * Postconditions of stateful calls

    [wp E m Q s]: from state [s] the call [m] neither panics nor runs out of
    fuel; it returns with [Q], or fails with an error that satisfies [E].  With
    [E := any_error] this is safety, with [E := no_error] also success. *)

Definition any_error : error → Prop := λ _, True.
Definition no_error : error → Prop := λ _, False.

Definition wp {S A} (E : error → Prop) (m : M S A) (Q : A → S → Prop) (s : S) : Prop :=
  match m s with
  | Ok (a, s') => Q a s'
  | Err e => E e
  | Panic => False
  | OutOfFuel => False
  end.

Section wp_laws.
Context {S : Type} (E : error → Prop).
Implicit Types s : S.

Lemma wp_ret {A} (a : A) Q s : Q a s → wp E (mret a) Q s.
Proof. done. Qed.

Lemma wp_bind {A B} (m : M S A) (f : A → M S B) Q s :
  wp E m (λ a s', wp E (f a) Q s') s → wp E (m ≫= f) Q s.
Proof. unfold wp, mbind, M_bind. by destruct (m s) as [[a s']|e| |]. Qed.

Lemma wp_bind_inv {A B} (m : M S A) (f : A → M S B) Q s :
  wp E (m ≫= f) Q s → wp E m (λ a s', wp E (f a) Q s') s.
Proof. unfold wp, mbind, M_bind. by destruct (m s) as [[a s']|e| |]. Qed.

Lemma wp_mono {A} (m : M S A) (P Q : A → S → Prop) s :
  wp E m P s → (∀ a s', P a s' → Q a s') → wp E m Q s.
Proof. unfold wp. destruct (m s) as [[a s']|e| |]; eauto. Qed.

Lemma wp_get {Q : S → S → Prop} s : Q s s → wp E get Q s.
Proof. done. Qed.

Lemma wp_modify (f : S → S) (Q : unit → S → Prop) s : Q tt (f s) → wp E (modify f) Q s.
Proof. done. Qed.

Lemma wp_lift_ok {A} (m : outcome A) a (Q : A → S → Prop) s :
  m = Ok a → Q a s → wp E (lift m) Q s.
Proof. unfold wp, lift. by intros ->. Qed.

Lemma wp_error {A} e (Q : A → S → Prop) s : E e → wp E (lift (Err e)) Q s.
Proof. done. Qed.

Lemma wp_ok {A} (m : M S A) Q s a s' : m s = Ok (a, s') → wp E m Q s → Q a s'.
Proof. unfold wp. by intros ->. Qed.

Lemma wp_run {A} (m : M S A) Q s a s' : m s = Ok (a, s') → Q a s' → wp E m Q s.
Proof. unfold wp. by intros ->. Qed.
End wp_laws.

(** Success in [wp no_error] is existence of a result. *)
Lemma wp_no_error {S A} (m : M S A) Q (s : S) :
  wp no_error m Q s → ∃ a s', m s = Ok (a, s') ∧ Q a s'.
Proof. unfold wp, no_error. destruct (m s) as [[a s']|e| |]; try done. eauto. Qed.

(** One step of a [wp] goal whose program is a bind of a primitive. *)
Ltac wp_step :=
  match goal with
  | |- wp _ (mret _) _ _ => apply wp_ret
  | |- wp _ (mbind _ _) _ _ => apply wp_bind
  | |- wp _ get _ _ => apply wp_get
  | |- wp _ (modify _) _ _ => apply wp_modify
  | |- wp any_error (lift (errorf _)) _ _ => exact I
  | |- wp any_error (lift (Err _)) _ _ => exact I
  end.
Ltac wp_steps := repeat (wp_step; cbn beta iota).
