(* ===== verification/Cbor.v ===== *)
(** The CBOR encoder: [src/cborenc/encode.go].

    Every [AppendX] appends the encoding of one item to a byte slice.  A
    [uint64] argument is a [Z] in [0, 2^64), an [int64] one in [-2^63, 2^63);
    a [float64] is its IEEE 754 bit pattern, converted to [spec_float] where
    the code computes with it. *)
From Stdlib Require Import ZArith Lia SpecFloat Ascii Strings.Byte.
From S2P Require Import Prelude.

(** * Constants *)

Definition majorSimple : Z := 7 ≪ 5.
Definition IndefiniteArray : Z := Z.lor (4 ≪ 5) 31.
Definition IndefiniteMap : Z := Z.lor (5 ≪ 5) 31.
Definition Break : Z := 255.
Definition valueFalse : Z := Z.lor majorSimple 20.
Definition valueTrue : Z := Z.lor majorSimple 21.
Definition valueNull : Z := Z.lor majorSimple 22.

Definition TagDateTimeText : Z := 0.
Definition TagEpochDateTime : Z := 1.
Definition TagPositiveBignum : Z := 2.
Definition TagNegativeBignum : Z := 3.
Definition TagDecimal : Z := 4.
Definition TagUUID : Z := 37.
Definition TagEpochDate : Z := 100.

Definition TagStructureDef : Z := 57343.      (* 0xdfff *)
Definition StructureTagBase : Z := 57344.     (* 0xe000 *)
Definition MaxStructures : Z := 8191.         (* 0x1fff *)

Definition MaxUint64 : Z := 2 ^ 64 - 1.
Definition MaxInt64 : Z := 2 ^ 63 - 1.
Definition MinInt64 : Z := - 2 ^ 63.
Definition u64 (z : Z) : Z := z `mod` 2 ^ 64.
Definition is_u64 (z : Z) : bool := (0 <=? z) && (z <? 2 ^ 64).
Definition is_i64 (z : Z) : bool := (MinInt64 <=? z) && (z <=? MaxInt64).

(** * Heads *)

Definition AppendHead (dst : bytes) (major v : Z) : bytes :=
  let m := (major ≪ 5) `mod` 256 in
  if v <? 24 then dst ++ [zb (Z.lor m v)]
  else if v <=? 255 then dst ++ [zb (Z.lor m 24); zb v]
  else if v <=? 65535 then dst ++ zb (Z.lor m 25) :: be_bytes 2 v
  else if v <=? 4294967295 then dst ++ zb (Z.lor m 26) :: be_bytes 4 v
  else dst ++ zb (Z.lor m 27) :: be_bytes 8 v.

Definition AppendUint (dst : bytes) (v : Z) : bytes := AppendHead dst 0 v.

Definition AppendInt (dst : bytes) (v : Z) : bytes :=
  if 0 <=? v then AppendHead dst 0 (u64 v)
  else AppendHead dst 1 (u64 (-1 - v)).

Definition AppendFloat64 (dst : bytes) (b : Z) : bytes :=
  dst ++ zb (Z.lor majorSimple 27) :: be_bytes 8 b.

Definition AppendBool (dst : bytes) (v : bool) : bytes :=
  if v then dst ++ [zb valueTrue] else dst ++ [zb valueFalse].

Definition AppendNull (dst : bytes) : bytes := dst ++ [zb valueNull].

Definition AppendText (dst : bytes) (s : string) : bytes :=
  let dst := AppendHead dst 3 (Z.of_nat (length (bytes_of_string s))) in
  dst ++ bytes_of_string s.

Definition AppendTextBytes (dst s : bytes) : bytes :=
  let dst := AppendHead dst 3 (Z.of_nat (length s)) in
  dst ++ s.

Definition AppendBytes (dst b : bytes) : bytes :=
  let dst := AppendHead dst 2 (Z.of_nat (length b)) in
  dst ++ b.

Definition AppendTag (dst : bytes) (tag : Z) : bytes := AppendHead dst 6 tag.
Definition AppendArrayHead (dst : bytes) (n : nat) : bytes := AppendHead dst 4 (Z.of_nat n).
Definition AppendMapHead (dst : bytes) (n : nat) : bytes := AppendHead dst 5 (Z.of_nat n).

(** * Integers of any size *)

(** [big.Int.SetString(s, 10)]: an optional sign, then digits. *)
Definition SetString10 (s : string) : option Z :=
  let '(neg, ds) :=
    match s with
    | String "-"%char r =>(true, r)
    | String "+"%char r =>(false, r)
    | _ => (false, s)
    end in
  if negb (String.eqb ds "") && all_digits ds
  then Some (if neg then - dec_value ds else dec_value ds) else None.

(** [big.Int.Bytes]: the absolute value, big endian, without leading zeros. *)
Definition byte_len (n : Z) : nat :=
  if n =? 0 then O else S (Z.to_nat (Z.log2 n `div` 8)).
Definition big_bytes (n : Z) : bytes := be_bytes (byte_len (Z.abs n)) (Z.abs n).

(** [strings.TrimLeft(s, "0")] *)
Fixpoint trim_left_zeros (s : string) : string :=
  match s with
  | String "0"%char s =>trim_left_zeros s
  | _ => s
  end.

(** The accumulation loop, in [uint64] arithmetic. *)
Fixpoint digits_u64 (v : Z) (s : string) : Z :=
  match s with
  | EmptyString => v
  | String c s => digits_u64 (u64 (v * 10 + (digit_val c) `mod` 256)) s
  end.

Definition AppendInteger (dst : bytes) (digits : string) : outcome bytes :=
  let '(neg, digits) :=
    match digits with String "-"%char r =>(true, r) | _ => (false, digits) end in
  let digits := trim_left_zeros digits in
  if String.eqb digits "" then Ok (AppendUint dst 0)
  else if (String.length digits <=? 19)%nat then
    let v := digits_u64 0 digits in
    if negb neg then Ok (AppendUint dst v)
    else Ok (AppendHead dst 1 (u64 (v - 1)))
  else
    match SetString10 digits with
    | None => Panic                          (* a nil [*big.Int] *)
    | Some n =>
        if negb neg && is_u64 n then Ok (AppendUint dst n)
        else if neg then
          let n := n - 1 in
          if is_u64 n then Ok (AppendHead dst 1 n)
          else Ok (AppendBytes (AppendTag dst TagNegativeBignum) (big_bytes n))
        else Ok (AppendBytes (AppendTag dst TagPositiveBignum) (big_bytes n))
    end.

Definition AppendDecimal (dst : bytes) (mantissa : string) (exp : Z) : outcome bytes :=
  let dst := AppendTag dst TagDecimal in
  let dst := AppendArrayHead dst 2 in
  let dst := AppendInt dst exp in
  AppendInteger dst mantissa.

(** * Instants, dates and UUIDs *)

(** Double precision arithmetic and the bit pattern of a finite double. *)
Definition f64_of_Z (z : Z) : spec_float := binary_normalize 53 1024 z 0 false.
Definition f64_add := SFadd 53 1024.
Definition f64_div := SFdiv 53 1024.
Definition Float64bits (f : spec_float) : Z :=
  match f with
  | S754_zero s => if s then 2 ^ 63 else 0
  | S754_infinity s => (if s then 2 ^ 63 else 0) + 2047 * 2 ^ 52
  | S754_nan => 9221120237041090561
  | S754_finite s m e =>
      let m := Z.pos m in
      (if s then 2 ^ 63 else 0) +
      (if m <? 2 ^ 52 then m else (e + 1075) * 2 ^ 52 + (m - 2 ^ 52))
  end.

Definition AppendEpoch (dst : bytes) (sec micros : Z) : bytes :=
  let dst := AppendTag dst TagEpochDateTime in
  if micros =? 0 then AppendInt dst sec
  else AppendFloat64 dst
         (Float64bits (f64_add (f64_of_Z sec) (f64_div (f64_of_Z micros) (f64_of_Z 1000000)))).

Definition AppendUUID (dst uuid : bytes) : bytes :=
  AppendBytes (AppendTag dst TagUUID) uuid.

Definition AppendEpochDate (dst : bytes) (days : Z) : bytes :=
  AppendInt (AppendTag dst TagEpochDate) days.

(** * Structures *)

Definition AppendStructureDef (dst : bytes) (id : Z) (names : list string) : bytes :=
  let dst := AppendTag dst TagStructureDef in
  let dst := AppendArrayHead dst (length names + 2) in
  let dst := AppendUint dst (u64 (StructureTagBase + id)) in
  let dst := AppendArrayHead dst (length names) in
  foldl AppendText dst names.

Definition AppendStructureRef (dst : bytes) (id : Z) (n : nat) : bytes :=
  let dst := AppendTag dst (u64 (StructureTagBase + id)) in
  AppendArrayHead dst n.

Example AppendInteger_ex1 : AppendInteger [] "18446744073709551616"
  = Ok (map zb [194; 73; 1; 0; 0; 0; 0; 0; 0; 0; 0]).
Proof. vm_compute. reflexivity. Qed.
Example AppendEpoch_ex : AppendEpoch [] 1 500000 = map zb [193; 251; 63; 248; 0; 0; 0; 0; 0; 0].
Proof. vm_compute. reflexivity. Qed.
