(* ===== verification/CborNode.v ===== *)
(** The CBOR adapter: [src/query/node_cbor.go].

    A document is read in one pass into a flat arena: nodes refer to the
    request's bytes by offset and to their children by index.  The decoder is
    written in open recursion over [item]; [item_at] ties the knot with fuel,
    one unit per level of nesting, which [cborMaxDepth] bounds. *)
From Stdlib Require Import ZArith Lia SpecFloat Ascii Strings.Byte.
From S2P Require Import Prelude Cbor.

Definition cborMaxDepth : nat := 64.

(** * The arena *)

Inductive cborItem :=
  | itNull | itFalse | itTrue | itInt | itUint | itNegBig | itFloat | itNumText
  | itText | itBytes | itArray | itMap | itInstant | itDate | itUUID | itBadTag.

#[global] Instance cborItem_eq_dec : EqDecision cborItem.
Proof. solve_decision. Defined.

Record cnode := CNode {
  item : cborItem;
  chunked : bool;
  fa : nat;       (* the field [a] *)
  fb : nat;       (* the field [b] *)
  extra : Z;      (* a [uint64] *)
}.

Definition node_of (it : cborItem) (ex : Z) : cnode := CNode it false 0 0 ex.

(** A [time.Time] is its Unix seconds and the nanoseconds within the second. *)
Record instant := Instant { unix_sec : Z; unix_nsec : Z }.

Record cborDoc := CborDoc {
  data : bytes;
  nodes : list cnode;
  kids : list nat;
  strs : list string;
  blobs : list bytes;
  times : list instant;
}.

Record cborDecoder := CborDecoder {
  doc : cborDoc;
  pos : nat;
  structs : gmap Z (list nat);
}.

Abbreviation dec := (M cborDecoder).

Definition set_pos (p : nat) (d : cborDecoder) : cborDecoder :=
  CborDecoder (doc d) p (structs d).
Definition set_kids (ks : list nat) (d : cborDecoder) : cborDecoder :=
  let c := doc d in
  CborDecoder (CborDoc (data c) (nodes c) ks (strs c) (blobs c) (times c)) (pos d) (structs d).
Definition push_node (n : cnode) (d : cborDecoder) : cborDecoder :=
  let c := doc d in
  CborDecoder (CborDoc (data c) (nodes c ++ [n]) (kids c) (strs c) (blobs c) (times c))
    (pos d) (structs d).
Definition push_str (s : string) (d : cborDecoder) : cborDecoder :=
  let c := doc d in
  CborDecoder (CborDoc (data c) (nodes c) (kids c) (strs c ++ [s]) (blobs c) (times c))
    (pos d) (structs d).
Definition push_blob (b : bytes) (d : cborDecoder) : cborDecoder :=
  let c := doc d in
  CborDecoder (CborDoc (data c) (nodes c) (kids c) (strs c) (blobs c ++ [b]) (times c))
    (pos d) (structs d).
Definition push_time (t : instant) (d : cborDecoder) : cborDecoder :=
  let c := doc d in
  CborDecoder (CborDoc (data c) (nodes c) (kids c) (strs c) (blobs c) (times c ++ [t]))
    (pos d) (structs d).
Definition set_struct (id : Z) (names : list nat) (d : cborDecoder) : cborDecoder :=
  CborDecoder (doc d) (pos d) (<[id := names]> (structs d)).

Definition remaining (d : cborDecoder) : nat := (length (data (doc d)) - pos d)%nat.

(** [add] appends a node and returns its index. *)
Definition add (n : cnode) : dec nat := λ d,
  Ok (length (nodes (doc d)), push_node n d).

(** [l[i] = x], which panics out of range. *)
Definition store_at {A} (l : list A) (i : nat) (x : A) : outcome (list A) :=
  if decide (i < length l)%nat then Ok (<[i := x]> l) else Panic.

(** [l[i:j]], which panics unless [i <= j <= len(l)]. *)
Definition slice {A} (l : list A) (i j : nat) : outcome (list A) :=
  if decide (i ≤ j ≤ length l)%nat then Ok (take (j - i) (drop i l)) else Panic.

Definition node_at (i : nat) : dec cnode := λ d,
  lift (at_index (nodes (doc d)) i) d.

Definition put_kid (i : nat) (k : nat) : dec unit :=
  d ← get; ks ← lift (store_at (kids (doc d)) i k); modify (set_kids ks).

(** [c.bytes()] *)
Definition cnode_bytes (c : cborDoc) (n : cnode) : outcome bytes :=
  if chunked n then at_index (blobs c) (fa n)
  else slice (data c) (fa n) (fa n + fb n).

(** * UTF-8: [utf8.Valid] *)

Definition is_cont (b : Z) : bool := (128 <=? b) && (b <=? 191).
Definition between_z (lo b hi : Z) : bool := (lo <=? b) && (b <=? hi).

Fixpoint utf8_valid (l : bytes) : bool :=
  match l with
  | [] => true
  | x :: r =>
      let x := bz x in
      if x <? 128 then utf8_valid r
      else match r with
      | y :: r =>
          let y := bz y in
          if between_z 194 x 223 then is_cont y && utf8_valid r
          else match r with
          | z :: r =>
              let z := bz z in
              if x =? 224 then between_z 160 y 191 && is_cont z && utf8_valid r
              else if x =? 237 then between_z 128 y 159 && is_cont z && utf8_valid r
              else if between_z 225 x 239 then is_cont y && is_cont z && utf8_valid r
              else match r with
              | w :: r =>
                  let w := bz w in
                  (if x =? 240 then between_z 144 y 191
                   else if between_z 241 x 243 then is_cont y
                   else if x =? 244 then between_z 128 y 143
                   else false) && is_cont z && is_cont w && utf8_valid r
              | [] => false
              end
          | [] => false
          end
      | [] => false
      end
  end.

(** * Heads *)

Record cborHead := CborHead { major : Z; ai : Z; val : Z; indef : bool }.

(** [size] bytes of the argument. *)
Definition read_arg (size : nat) : dec Z :=
  d ← get;
  if decide (remaining d < size)%nat then lift (errorf "unexpected end of data")
  else
    raw ← lift (slice (data (doc d)) (pos d) (pos d + size));
    _ ← modify (set_pos (pos d + size));
    mret (be_value raw).

Definition head : dec cborHead :=
  d ← get;
  if decide (remaining d < 1)%nat then lift (errorf "unexpected end of data")
  else
    b ← lift (at_index (data (doc d)) (pos d));
    _ ← modify (set_pos (pos d + 1));
    let m := bz b ≫ 5 in
    let a := Z.land (bz b) 31 in
    if a <? 24 then mret (CborHead m a a false)
    else if (a =? 24) || (a =? 25) || (a =? 26) || (a =? 27) then
      v ← read_arg (Z.to_nat (1 ≪ (a - 24)));
      mret (CborHead m a v false)
    else if a =? 31 then mret (CborHead m a 0 true)
    else lift (errorf "reserved additional information %d").

(** * Floats *)

(** The value of IEEE 754 bits with [mb] mantissa bits and [eb] exponent bits. *)
Definition decode_float (mb eb bits : Z) : spec_float :=
  let s := Z.testbit bits (mb + eb) in
  let e := (bits ≫ mb) `mod` 2 ^ eb in
  let m := bits `mod` 2 ^ mb in
  let bias := 2 ^ (eb - 1) - 1 in
  if e =? 2 ^ eb - 1 then (if m =? 0 then S754_infinity s else S754_nan)
  else if e =? 0 then
    match m with Z.pos p => S754_finite s p (1 - bias - mb) | _ => S754_zero s end
  else
    match m + 2 ^ mb with Z.pos p => S754_finite s p (e - bias - mb) | _ => S754_zero s end.

Definition Float64frombits (b : Z) : spec_float := decode_float 52 11 b.

(** A widened finite float is exact: its mantissa is shifted into place. *)
Definition widen (f : spec_float) : spec_float :=
  match f with
  | S754_finite s m e => binary_normalize 53 1024 (if s then Z.neg m else Z.pos m) e s
  | _ => f
  end.

Definition float16ToFloat64 (h : Z) : Z := Float64bits (widen (decode_float 10 5 h)).

(** [float64(math.Float32frombits(v))]; a NaN keeps its payload, made quiet. *)
Definition float32ToFloat64 (v : Z) : Z :=
  match decode_float 23 8 v with
  | S754_nan =>
      (if Z.testbit v 31 then 2 ^ 63 else 0) + 2047 * 2 ^ 52 +
      Z.lor ((v `mod` 2 ^ 23) ≪ 29) (2 ^ 51)
  | f => Float64bits (widen f)
  end.

(** * Items *)

Definition simpleItem (a v : Z) (ind : bool) : dec nat :=
  if ind then lift (errorf "unexpected break")
  else if a =? 20 then add (node_of itFalse 0)
  else if a =? 21 then add (node_of itTrue 0)
  else if (a =? 22) || (a =? 23) then add (node_of itNull 0)
  else if a =? 25 then add (node_of itFloat (float16ToFloat64 (v `mod` 2 ^ 16)))
  else if a =? 26 then add (node_of itFloat (float32ToFloat64 (v `mod` 2 ^ 32)))
  else if a =? 27 then add (node_of itFloat v)
  else lift (errorf "unsupported simple value %d").

(** The chunks of an indefinite-length string, up to its break.  [fuel] bounds
    the loop: a chunk takes at least one byte. *)
Fixpoint stringChunks (fuel : nat) (m : Z) (text : bool) (assembled : bytes) : dec bytes :=
  match fuel with
  | O => lift OutOfFuel
  | S fuel =>
      d ← get;
      if decide (remaining d < 1)%nat
      then lift (errorf "unexpected end of data in an indefinite-length string")
      else
        b ← lift (at_index (data (doc d)) (pos d));
        if bz b =? 255 then _ ← modify (set_pos (pos d + 1)); mret assembled
        else
          h ← head;
          if negb (major h =? m) || indef h
          then lift (errorf "a chunk of an indefinite-length string that is not a definite-length string of the same type")
          else
            d ← get;
            if Z.of_nat (remaining d) <? val h
            then lift (errorf "a chunk of %d bytes runs past the end of the data")
            else
              let n := Z.to_nat (val h) in
              chunk ← lift (slice (data (doc d)) (pos d) (pos d + n));
              _ ← modify (set_pos (pos d + n));
              if text && negb (utf8_valid chunk)
              then lift (errorf "a text chunk that is not valid UTF-8")
              else stringChunks fuel m text (assembled ++ chunk)
  end.

Definition stringItem (m len : Z) (ind : bool) : dec nat :=
  let text := m =? 3 in
  let kind := if text then itText else itBytes in
  d ← get;
  if negb ind then
    if Z.of_nat (remaining d) <? len
    then lift (errorf "a string of %d bytes runs past the end of the data")
    else
      let off := pos d in
      let n := Z.to_nat len in
      _ ← modify (set_pos (off + n));
      s ← lift (slice (data (doc d)) off (off + n));
      if text && negb (utf8_valid s)
      then lift (errorf "a text string that is not valid UTF-8")
      else add (CNode kind false off n 0)
  else
    assembled ← stringChunks (S (remaining d)) m text [];
    d ← get;
    _ ← modify (push_blob assembled);
    add (CNode kind true (length (blobs (doc d))) (length assembled) 0).

Definition countFits (n : Z) (perElement : nat) : dec unit :=
  d ← get;
  if Z.of_nat (remaining d) `div` Z.of_nat perElement <? n
  then lift (errorf "a count of %d runs past the end of the data")
  else mret tt.

(** [addText] and [addInstant] store their value beside the arena. *)
Definition addText (it : cborItem) (text : string) (b : nat) (ex : Z) : dec nat :=
  d ← get;
  _ ← modify (push_str text);
  add (CNode it false (length (strs (doc d))) b ex).

Definition addInstant (t : instant) : dec nat :=
  d ← get;
  _ ← modify (push_time t);
  add (node_of itInstant (Z.of_nat (length (times (doc d))))).

Definition i64 (u : Z) : Z := if u <? 2 ^ 63 then u else u - 2 ^ 64.

(** [c.integerText()] *)
Definition integerText (c : cborDoc) (n : cnode) : outcome (option string) :=
  match item n with
  | itInt => Ok (Some (dec_int (i64 (extra n))))
  | itUint => Ok (Some (dec_nat (extra n)))
  | itNegBig => Ok (Some (dec_int (- (extra n + 1))))
  | itNumText =>
      if decide (fb n = 0)%nat then s ← at_index (strs c) (fa n); Ok (Some s)
      else Ok None
  | _ => Ok None
  end.

(** [checkDistinctKeys]: pairwise for a small map, through a set above 8. *)
Definition pair_key (c : cborDoc) (start i : nat) : outcome bytes :=
  k ← at_index (kids c) (start + 2 * i);
  n ← at_index (nodes c) k;
  cnode_bytes c n.

Definition duplicate_key {A} : outcome A := errorf "duplicate map key %q".

Fixpoint check_against (c : cborDoc) (start i j : nat) : outcome unit :=
  match j with
  | O => Ok tt
  | S j' =>
      _ ← check_against c start i j';
      a ← pair_key c start i;
      b ← pair_key c start j';
      if decide (a = b) then duplicate_key else Ok tt
  end.

Fixpoint check_pairwise (c : cborDoc) (start pairs : nat) : outcome unit :=
  match pairs with
  | O => Ok tt
  | S i => _ ← check_pairwise c start i; check_against c start i i
  end.

Fixpoint check_seen (c : cborDoc) (start i count : nat) (seen : gset string) : outcome unit :=
  match count with
  | O => Ok tt
  | S count =>
      k ← pair_key c start i;
      let k := string_of_bytes k in
      if decide (k ∈ seen) then duplicate_key
      else check_seen c start (S i) count ({[k]} ∪ seen)
  end.

Definition checkDistinctKeys (c : cborDoc) (start pairs : nat) : outcome unit :=
  if decide (pairs ≤ 8)%nat then check_pairwise c start pairs
  else check_seen c start 0 pairs ∅.

(** * Instants *)

Definition sf_floor (f : spec_float) : Z :=
  match f with
  | S754_finite s m e =>
      let z := if s then Z.neg m else Z.pos m in
      if 0 <=? e then z * 2 ^ e else z `div` 2 ^ (- e)
  | _ => 0
  end.

(** [math.Round], half away from zero. *)
Definition sf_round (f : spec_float) : Z :=
  match f with
  | S754_finite s m e =>
      let a := if 0 <=? e then Z.pos m * 2 ^ e
               else (Z.pos m + 2 ^ (- e - 1)) `div` 2 ^ (- e) in
      if s then - a else a
  | _ => 0
  end.

(** [time.Unix(sec, nsec)] *)
Definition Unix (sec nsec : Z) : instant :=
  Instant (sec + nsec `div` 1000000000) (nsec `mod` 1000000000).

Definition instant_of_float (bits : Z) : outcome instant :=
  let f := Float64frombits bits in
  let out_of_range := errorf "a tag 1 value out of range" in
  match f with
  | S754_nan | S754_infinity _ => out_of_range
  | _ =>
      if SFltb (f64_of_Z 9000000000000000000) (SFabs f) then out_of_range
      else
        let sec := sf_floor f in
        let frac := SFmul 53 1024 (SFsub 53 1024 f (f64_of_Z sec)) (f64_of_Z 1000000000) in
        Ok (Unix sec (sf_round frac))
  end.

Section decoder.

(** [time.Parse(time.RFC3339Nano, _)]: the instant it denotes. *)
Variable parse_rfc3339 : string → option instant.

(** The content of a tag, given its own node. *)
Definition tag_meaning (tag : Z) (content : cnode) : dec nat :=
  let bad := add (node_of itBadTag tag) in
  d ← get;
  let c := doc d in
  if (tag =? 2) || (tag =? 3) then
    if negb (bool_decide (item content = itBytes)) then bad
    else
      b ← lift (cnode_bytes c content);
      let n := be_value b in
      let n := if tag =? 3 then - (n + 1) else n in
      addText itNumText (dec_int n) 0 0
  else if tag =? 0 then
    if negb (bool_decide (item content = itText)) then bad
    else
      b ← lift (cnode_bytes c content);
      t ← lift (of_option (errorf "a tag 0 value that is not an RFC 3339 date and time")
                  (parse_rfc3339 (string_of_bytes b)));
      addInstant t
  else if tag =? 1 then
    match item content with
    | itInt => addInstant (Unix (i64 (extra content)) 0)
    | itUint => lift (errorf "a tag 1 value out of range")
    | itFloat => t ← lift (instant_of_float (extra content)); addInstant t
    | _ => bad
    end
  else if tag =? 4 then
    if negb (bool_decide (item content = itArray) && bool_decide (fb content = 2%nat)) then bad
    else
      ks ← lift (slice (kids c) (fa content) (fa content + 2));
      k0 ← lift (at_index ks 0);
      k1 ← lift (at_index ks 1);
      exp ← node_at k0;
      mant ← node_at k1;
      if negb (bool_decide (item exp = itInt)) then bad
      else
        text ← lift (integerText c mant);
        match text with
        | None => bad
        | Some text => addText itNumText text 1 (extra exp)
        end
  else if tag =? 37 then
    if negb (bool_decide (item content = itBytes) && bool_decide (fb content = 16%nat)) then bad
    else add (CNode itUUID (chunked content) (fa content) (fb content) 0)
  else if tag =? 100 then
    if negb (bool_decide (item content = itInt)) then bad
    else add (node_of itDate (extra content))
  else bad.

(** ** Containers, over the recursive call on one item *)

Section containers.
Variable item_rec : nat → dec nat.

(** The elements of an indefinite-length array, up to its break. *)
Fixpoint arrayElems (fuel depth : nat) (elems : list nat) : dec (list nat) :=
  match fuel with
  | O => lift OutOfFuel
  | S fuel =>
      d ← get;
      if decide (remaining d < 1)%nat
      then lift (errorf "unexpected end of data in an indefinite-length array")
      else
        b ← lift (at_index (data (doc d)) (pos d));
        if bz b =? 255 then _ ← modify (set_pos (pos d + 1)); mret elems
        else e ← item_rec (depth + 1)%nat; arrayElems fuel depth (elems ++ [e])
  end.

(** The loop filling [kids[start+i]], for [i] from [i] over [n] elements. *)
Fixpoint arrayFill (n depth start i : nat) : dec unit :=
  match n with
  | O => mret tt
  | S n =>
      e ← item_rec (depth + 1)%nat;
      _ ← put_kid (start + i) e;
      arrayFill n depth start (S i)
  end.

Definition too_deep {A} : dec A := lift (errorf "nested more than %d levels").

Definition arrayItem (n : Z) (ind : bool) (depth : nat) : dec nat :=
  if decide (cborMaxDepth ≤ depth)%nat then too_deep
  else if ind then
    d ← get;
    elems ← arrayElems (S (remaining d)) depth [];
    d ← get;
    let start := length (kids (doc d)) in
    _ ← modify (set_kids (kids (doc d) ++ elems));
    add (CNode itArray false start (length elems) 0)
  else
    _ ← countFits n 1;
    d ← get;
    let start := length (kids (doc d)) in
    let n := Z.to_nat n in
    _ ← modify (set_kids (kids (doc d) ++ replicate n 0%nat));
    _ ← arrayFill n depth start 0;
    add (CNode itArray false start n 0).

(** A key, which must be text, and its value. *)
Definition mapPair (depth : nat) : dec (nat * nat) :=
  k ← item_rec (depth + 1)%nat;
  kn ← node_at k;
  if negb (bool_decide (item kn = itText)) then lift (errorf "a map key that is not a text string")
  else v ← item_rec (depth + 1)%nat; mret (k, v).

Fixpoint mapElems (fuel depth count : nat) (ks : list nat) : dec (nat * list nat) :=
  match fuel with
  | O => lift OutOfFuel
  | S fuel =>
      d ← get;
      if decide (remaining d < 1)%nat
      then lift (errorf "unexpected end of data in an indefinite-length map")
      else
        b ← lift (at_index (data (doc d)) (pos d));
        if bz b =? 255 then _ ← modify (set_pos (pos d + 1)); mret (count, ks)
        else
          kv ← mapPair depth;
          mapElems fuel depth (S count) (ks ++ [kv.1; kv.2])
  end.

Fixpoint mapFill (n depth start i : nat) : dec unit :=
  match n with
  | O => mret tt
  | S n =>
      kv ← mapPair depth;
      _ ← put_kid (start + 2 * i) kv.1;
      _ ← put_kid (start + 2 * i + 1) kv.2;
      mapFill n depth start (S i)
  end.

Definition finishMap (start count : nat) : dec nat :=
  d ← get;
  _ ← lift (checkDistinctKeys (doc d) start count);
  add (CNode itMap false start count 0).

Definition mapItem (n : Z) (ind : bool) (depth : nat) : dec nat :=
  if decide (cborMaxDepth ≤ depth)%nat then too_deep
  else if ind then
    d ← get;
    r ← mapElems (S (remaining d)) depth 0 [];
    d ← get;
    let start := length (kids (doc d)) in
    _ ← modify (set_kids (kids (doc d) ++ r.2));
    finishMap start r.1
  else
    d ← get;
    let start := length (kids (doc d)) in
    _ ← countFits n 2;
    let n := Z.to_nat n in
    _ ← modify (set_kids (kids (doc d) ++ replicate (2 * n) 0%nat));
    _ ← mapFill n depth start 0;
    finishMap start n.

(** The names of a definition: text strings, all different. *)
Fixpoint nameItems (n depth : nat) (names : list nat) : dec (list nat) :=
  match n with
  | O => mret names
  | S n =>
      k ← item_rec (depth + 1)%nat;
      kn ← node_at k;
      if negb (bool_decide (item kn = itText))
      then lift (errorf "tag %d: a name that is not a text string")
      else nameItems n depth (names ++ [k])
  end.

Fixpoint distinct_names (c : cborDoc) (names : list nat) (seen : gset string) : outcome unit :=
  match names with
  | [] => Ok tt
  | k :: names =>
      n ← at_index (nodes c) k;
      b ← cnode_bytes c n;
      let name := string_of_bytes b in
      if decide (name ∈ seen) then errorf "tag %d: duplicate name %q"
      else distinct_names c names ({[name]} ∪ seen)
  end.

Definition structureNames (depth : nat) : dec (list nat) :=
  h ← head;
  if negb (major h =? 4) || indef h
  then lift (errorf "tag %d: the names of a definition are a definite-length array")
  else
    _ ← countFits (val h) 1;
    names ← nameItems (Z.to_nat (val h)) depth [];
    d ← get;
    _ ← lift (distinct_names (doc d) names ∅);
    mret names.

(** A definition: its id, which must be in range, and its names. *)
Definition structureDef (n : Z) (depth : nat) : dec (list nat) :=
  if n <? 2 then lift (errorf "tag %d: a definition holds an id, the names and the values")
  else
    idTag ← item_rec (depth + 2)%nat;
    id ← node_at idTag;
    if negb (bool_decide (item id = itInt)) || (i64 (extra id) <? StructureTagBase)
       || (StructureTagBase + MaxStructures <=? i64 (extra id))
    then lift (errorf "tag %d: the id of a definition is an integer from %d to %d")
    else
      names ← structureNames (depth + 2);
      if negb (n =? Z.of_nat (length names) + 2)
      then lift (errorf "tag %d: a definition of %d names is an array of %d items, not %d")
      else
        _ ← modify (set_struct (extra id - StructureTagBase) names);
        mret names.

(** A reference: the names of a structure defined before it. *)
Definition structureRef (tag n : Z) : dec (list nat) :=
  d ← get;
  match structs d !! (tag - StructureTagBase) with
  | None => lift (errorf "tag %d: a structure that was not defined")
  | Some names =>
      if negb (n =? Z.of_nat (length names))
      then lift (errorf "tag %d: a structure of %d names holds %d values")
      else mret names
  end.

(** The values, each stored after its name. *)
Fixpoint structureFill (names : list nat) (depth start i : nat) : dec unit :=
  match names with
  | [] => mret tt
  | k :: names =>
      v ← item_rec (depth + 2)%nat;
      _ ← put_kid (start + 2 * i) k;
      _ ← put_kid (start + 2 * i + 1) v;
      structureFill names depth start (S i)
  end.

Definition structureItem (tag : Z) (depth : nat) : dec nat :=
  if decide (cborMaxDepth ≤ depth + 1)%nat then too_deep
  else
    h ← head;
    if negb (major h =? 4) || indef h
    then lift (errorf "tag %d: a structure is a definite-length array")
    else
      _ ← countFits (val h) 1;
      names ← (if tag =? TagStructureDef then structureDef (val h) depth
               else structureRef tag (val h));
      d ← get;
      let start := length (kids (doc d)) in
      _ ← modify (set_kids (kids (doc d) ++ replicate (2 * length names) 0%nat));
      _ ← structureFill names depth start 0;
      add (CNode itMap false start (length names) 0).

Definition is_structure_tag (tag : Z) : bool :=
  (tag =? TagStructureDef) ||
  ((StructureTagBase <=? tag) && (tag <? StructureTagBase + MaxStructures)).

Definition tagItem (tag : Z) (depth : nat) : dec nat :=
  if decide (cborMaxDepth ≤ depth)%nat then too_deep
  else if is_structure_tag tag then structureItem tag depth
  else
    c ← item_rec (depth + 1)%nat;
    content ← node_at c;
    tag_meaning tag content.

Definition intItem (h : cborHead) : dec nat :=
  if indef h then lift (errorf "an integer cannot have an indefinite length")
  else if major h =? 0 then
    if MaxInt64 <? val h then add (node_of itUint (val h))
    else add (node_of itInt (val h))
  else
    if MaxInt64 <? val h then add (node_of itNegBig (val h))
    else add (node_of itInt (u64 (-1 - val h))).

Definition item_body (depth : nat) : dec nat :=
  h ← head;
  if (major h =? 0) || (major h =? 1) then intItem h
  else if (major h =? 2) || (major h =? 3) then stringItem (major h) (val h) (indef h)
  else if major h =? 4 then arrayItem (val h) (indef h) depth
  else if major h =? 5 then mapItem (val h) (indef h) depth
  else if major h =? 6 then
    if indef h then lift (errorf "a tag cannot have an indefinite length")
    else tagItem (val h) depth
  else simpleItem (ai h) (val h) (indef h).

End containers.

(** [d.item(depth)]: [fuel] bounds the nesting of calls. *)
Fixpoint item_at (fuel depth : nat) : dec nat :=
  match fuel with
  | O => lift OutOfFuel
  | S fuel => item_body (item_at fuel) depth
  end.

Definition item_fuel : nat := cborMaxDepth + 3.

(** [NewCBORNode(data)]: the document and the index of its root. *)
Definition NewCBORNode (bs : bytes) : outcome (cborDoc * nat) :=
  match item_at item_fuel 0 (CborDecoder (CborDoc bs [] [] [] [] []) 0 ∅) with
  | Ok (idx, d) =>
      if negb (bool_decide (pos d = length bs))
      then errorf "query: invalid CBOR: %d bytes of extraneous data after the item"
      else Ok (doc d, idx)
  | Err e => Err (Error (err_code e) ("query: invalid CBOR: " +:+ err_msg e))
  | Panic => Panic
  | OutOfFuel => OutOfFuel
  end.

End decoder.

Example decode_ex1 :
  NewCBORNode (λ _, None) (map zb [130; 1; 97; 97])
  = Ok (CborDoc (map zb [130; 1; 97; 97])
          [node_of itInt 1; CNode itText false 3 1 0; CNode itArray false 0 2 0]
          [0%nat; 1%nat] [] [] [], 2%nat).
Proof. vm_compute. reflexivity. Qed.
