(* ===== verification/CborNodeFacts.v ===== *)
(** The CBOR adapter on arbitrary input: what the arena that [NewCBORNode]
    builds denotes, and that building it never panics.

    [reads c lo i v] says that node [i] of the arena denotes the value [v], all
    the regions of [kids] it goes through starting at [lo] or above.  The bound
    is what makes a container's own region, reserved before its elements are
    read and filled after, disjoint from those of its elements. *)
From Stdlib Require Import ZArith Lia Strings.Byte.
From S2P Require Import Prelude Cbor CborNode.
Set Warnings "-register-all".

(** * Values *)

Inductive cval :=
  | CNull
  | CBool (b : bool)
  | CInt (z : Z)                          (* major types 0 and 1 *)
  | CBig (z : Z)                          (* a bignum, tags 2 and 3 *)
  | CFloat (bits : Z)
  | CDecimal (mantissa exponent : Z)
  | CText (s : bytes)
  | CBytes (s : bytes)
  | CArray (vs : list cval)
  | CMap (ms : list (bytes * cval))
  | CInstant (t : instant)
  | CDate (days : Z)
  | CUUID (s : bytes)
  | CBadTag (tag : Z).

(** The nodes that refer to no other node. *)
Inductive leaf (c : cborDoc) (n : cnode) : cval → Prop :=
  | leaf_null : item n = itNull → leaf c n CNull
  | leaf_false : item n = itFalse → leaf c n (CBool false)
  | leaf_true : item n = itTrue → leaf c n (CBool true)
  | leaf_int : item n = itInt → 0 ≤ extra n < 2 ^ 64 → leaf c n (CInt (i64 (extra n)))
  | leaf_uint : item n = itUint → 2 ^ 63 ≤ extra n < 2 ^ 64 → leaf c n (CInt (extra n))
  | leaf_negbig : item n = itNegBig → 2 ^ 63 ≤ extra n < 2 ^ 64 → leaf c n (CInt (- (extra n + 1)))
  | leaf_bignum z : item n = itNumText → fb n = 0%nat → strs c !! fa n = Some (dec_int z) →
      leaf c n (CBig z)
  | leaf_decimal m : item n = itNumText → fb n = 1%nat → strs c !! fa n = Some (dec_int m) →
      leaf c n (CDecimal m (i64 (extra n)))
  | leaf_float : item n = itFloat → leaf c n (CFloat (extra n))
  | leaf_text b : item n = itText → cnode_bytes c n = Ok b → utf8_valid b = true →
      leaf c n (CText b)
  | leaf_bytes b : item n = itBytes → cnode_bytes c n = Ok b → fb n = length b →
      leaf c n (CBytes b)
  | leaf_uuid b : item n = itUUID → cnode_bytes c n = Ok b → length b = 16%nat →
      leaf c n (CUUID b)
  | leaf_instant k t : item n = itInstant → extra n = Z.of_nat k → times c !! k = Some t →
      leaf c n (CInstant t)
  | leaf_date : item n = itDate → leaf c n (CDate (i64 (extra n)))
  | leaf_badtag : item n = itBadTag → leaf c n (CBadTag (extra n)).

Definition text_at (c : cborDoc) (k : nat) (b : bytes) : Prop :=
  ∃ n, nodes c !! k = Some n ∧ item n = itText ∧ cnode_bytes c n = Ok b ∧ utf8_valid b = true.

Inductive reads (c : cborDoc) (lo : nat) : nat → cval → Prop :=
  | reads_leaf i n v : nodes c !! i = Some n → leaf c n v → reads c lo i v
  | reads_array i n vs :
      nodes c !! i = Some n → item n = itArray → (lo ≤ fa n)%nat → fb n = length vs →
      (∀ j v, vs !! j = Some v → ∃ k, kids c !! (fa n + j)%nat = Some k ∧ reads c lo k v) →
      reads c lo i (CArray vs)
  | reads_map i n ms :
      nodes c !! i = Some n → item n = itMap → (lo ≤ fa n)%nat → fb n = length ms →
      (∀ j m, ms !! j = Some m → ∃ k kv,
        kids c !! (fa n + 2 * j)%nat = Some k ∧ text_at c k m.1 ∧
        kids c !! (fa n + 2 * j + 1)%nat = Some kv ∧ reads c lo kv m.2) →
      NoDup (ms.*1) →
      reads c lo i (CMap ms).

Section reads_ind.
Context (c : cborDoc) (lo : nat) (P : nat → cval → Prop).
Hypothesis Hleaf : ∀ i n v, nodes c !! i = Some n → leaf c n v → P i v.
Hypothesis Harray : ∀ i n vs,
  nodes c !! i = Some n → item n = itArray → (lo ≤ fa n)%nat → fb n = length vs →
  (∀ j v, vs !! j = Some v → ∃ k, kids c !! (fa n + j)%nat = Some k ∧ P k v) →
  P i (CArray vs).
Hypothesis Hmap : ∀ i n ms,
  nodes c !! i = Some n → item n = itMap → (lo ≤ fa n)%nat → fb n = length ms →
  (∀ j m, ms !! j = Some m → ∃ k kv,
    kids c !! (fa n + 2 * j)%nat = Some k ∧ text_at c k m.1 ∧
    kids c !! (fa n + 2 * j + 1)%nat = Some kv ∧ P kv m.2) →
  NoDup (ms.*1) →
  P i (CMap ms).

Lemma reads_strong_ind : ∀ i v, reads c lo i v → P i v.
Proof using All.
  fix IH 3. intros i v H. destruct H as [i n v Hn Hl|i n vs Hn Hi Hlo Hb Hk|i n ms Hn Hi Hlo Hb Hk Hd].
  - eapply Hleaf; eauto.
  - eapply Harray; eauto. intros j v Hj. destruct (Hk j v Hj) as (k & Hkk & Hr).
    exists k. split; [done|]. by apply IH.
  - eapply Hmap; eauto. intros j m Hj. destruct (Hk j m Hj) as (k & kv & H1 & H2 & H3 & Hr).
    exists k, kv. repeat split; try done. by apply IH.
Qed.
End reads_ind.

(** * Extension of the arena *)

(** The arena only grows, and keeps the entries of [kids] it has from [lo] on. *)
Record extends (lo : nat) (c c' : cborDoc) : Prop := {
  ext_data : data c' = data c;
  ext_nodes : nodes c `prefix_of` nodes c';
  ext_strs : strs c `prefix_of` strs c';
  ext_blobs : blobs c `prefix_of` blobs c';
  ext_times : times c `prefix_of` times c';
  ext_kids_length : (length (kids c) ≤ length (kids c'))%nat;
  ext_kids : ∀ j k, (lo ≤ j)%nat → kids c !! j = Some k → kids c' !! j = Some k;
}.

Lemma extends_refl lo c : extends lo c c.
Proof. by constructor. Qed.

Lemma extends_trans lo c1 c2 c3 : extends lo c1 c2 → extends lo c2 c3 → extends lo c1 c3.
Proof.
  intros [] []. constructor; try (by etrans; eauto); try lia; eauto.
Qed.

Lemma extends_weaken lo lo' c c' : (lo ≤ lo')%nat → extends lo c c' → extends lo' c c'.
Proof. intros ? []. constructor; eauto with lia. Qed.

Lemma cnode_bytes_extends lo c c' n b :
  extends lo c c' → cnode_bytes c n = Ok b → cnode_bytes c' n = Ok b.
Proof.
  intros [] H. unfold cnode_bytes, at_index in *. rewrite ext_data0.
  destruct (chunked n); [|done].
  destruct (blobs c !! fa n) eqn:E; [|done].
  eapply prefix_lookup_Some in E; [|done]. by rewrite E.
Qed.

Lemma leaf_extends lo c c' n v : extends lo c c' → leaf c n v → leaf c' n v.
Proof.
  intros He Hl. pose proof He as [].
  destruct Hl; econstructor; eauto using cnode_bytes_extends, prefix_lookup_Some.
Qed.

Lemma text_at_extends lo c c' k b : extends lo c c' → text_at c k b → text_at c' k b.
Proof.
  intros He (n & Hn & ? & ? & ?). pose proof He as [].
  exists n. split_and!; eauto using cnode_bytes_extends, prefix_lookup_Some.
Qed.

Lemma reads_extends lo c c' i v : extends lo c c' → reads c lo i v → reads c' lo i v.
Proof.
  intros He. pose proof He as []. revert i v. apply reads_strong_ind.
  - intros. eapply reads_leaf; eauto using leaf_extends, prefix_lookup_Some.
  - intros i n vs ??? Hb Hk. eapply reads_array; eauto using prefix_lookup_Some.
    intros j v Hj. destruct (Hk j v Hj) as (k & ? & ?). exists k. split; [|done].
    apply ext_kids0; [lia|done].
  - intros i n ms ??? Hb Hk Hd. eapply reads_map; eauto using prefix_lookup_Some.
    intros j m Hj. destruct (Hk j m Hj) as (k & kv & ? & ? & ? & ?).
    exists k, kv. repeat split; eauto using text_at_extends; apply ext_kids0; try done; lia.
Qed.

Lemma reads_weaken c lo lo' i v : (lo' ≤ lo)%nat → reads c lo i v → reads c lo' i v.
Proof.
  intros Hle. revert i v. apply reads_strong_ind.
  - intros. by eapply reads_leaf.
  - intros. eapply reads_array; eauto; lia.
  - intros. eapply reads_map; eauto; lia.
Qed.

Lemma reads_text c lo k b : text_at c k b → reads c lo k (CText b).
Proof. intros (n & ? & ? & ? & ?). eapply reads_leaf; [done|]. by constructor. Qed.

Lemma reads_text_inv c lo k n v :
  reads c lo k v → nodes c !! k = Some n → item n = itText → ∃ b, v = CText b ∧ text_at c k b.
Proof.
  intros H Hn Hi. inversion H as [? n' ? Hn' Hl| |]; simplify_eq; [|congruence..].
  inversion Hl; simplify_eq; try congruence. eexists. split; [done|]. by exists n.
Qed.

(** * The decoder's invariant *)

(** The names of a structure: texts, all different. *)
Definition names_ok (c : cborDoc) (names : list nat) : Prop :=
  ∃ bs, Forall2 (text_at c) names bs ∧ NoDup bs.

Record wf (d : cborDecoder) : Prop := {
  wf_pos : (pos d ≤ length (data (doc d)))%nat;
  wf_structs : ∀ id names, structs d !! id = Some names → names_ok (doc d) names;
}.

(** A step from [d] to [d'] that keeps what was built, and the entries of
    [kids] from [lo] on. *)
Record step (lo : nat) (d d' : cborDecoder) : Prop := {
  step_ext : extends lo (doc d) (doc d');
  step_pos : (pos d ≤ pos d')%nat;
  step_wf : wf d';
}.

Lemma names_ok_extends lo c c' names : extends lo c c' → names_ok c names → names_ok c' names.
Proof.
  intros He (bs & H & ?). exists bs. split; [|done].
  eapply Forall2_impl; [done|]. intros. by eapply text_at_extends.
Qed.

Lemma step_refl lo d : wf d → step lo d d.
Proof. intros. constructor; [apply extends_refl|lia|done]. Qed.

Lemma step_trans lo d1 d2 d3 : step lo d1 d2 → step lo d2 d3 → step lo d1 d3.
Proof. intros [] []. constructor; [by eapply extends_trans|lia|done]. Qed.

Lemma step_weaken lo lo' d d' : (lo ≤ lo')%nat → step lo d d' → step lo' d d'.
Proof. intros ? []. constructor; try done. by eapply extends_weaken. Qed.

Create HintDb cbor.
#[export] Hint Resolve extends_refl step_refl step_wf : cbor.

(** A change of the document that extends it keeps the invariant. *)
Lemma wf_extends lo d c' p :
  wf d → extends lo (doc d) c' → (pos d ≤ p ≤ length (data (doc d)))%nat →
  step lo d (CborDecoder c' p (structs d)).
Proof.
  intros [Hp Hs] He Hle. pose proof He as []. constructor; cbn; [done|lia|].
  constructor; cbn; [rewrite ext_data0; lia|].
  intros id names H. eapply names_ok_extends; eauto.
Qed.

Lemma step_set_pos lo d p :
  wf d → (pos d ≤ p ≤ length (data (doc d)))%nat → step lo d (set_pos p d).
Proof. intros. apply wf_extends; auto using extends_refl. Qed.

Lemma step_push_node lo d n : wf d → step lo d (push_node n d).
Proof.
  intros [? ?]. apply wf_extends; [done| |lia]. constructor; cbn; try done.
  by apply prefix_app_r.
Qed.

Lemma step_push_str lo d s : wf d → step lo d (push_str s d).
Proof.
  intros [? ?]. apply wf_extends; [done| |lia]. constructor; cbn; try done.
  by apply prefix_app_r.
Qed.

Lemma step_push_blob lo d b : wf d → step lo d (push_blob b d).
Proof.
  intros [? ?]. apply wf_extends; [done| |lia]. constructor; cbn; try done.
  by apply prefix_app_r.
Qed.

Lemma step_push_time lo d t : wf d → step lo d (push_time t d).
Proof.
  intros [? ?]. apply wf_extends; [done| |lia]. constructor; cbn; try done.
  by apply prefix_app_r.
Qed.

Lemma step_grow_kids lo d ks : wf d → step lo d (set_kids (kids (doc d) ++ ks) d).
Proof.
  intros [? ?]. apply wf_extends; [done| |lia]. constructor; cbn; try done.
  - rewrite length_app. lia.
  - intros. by apply lookup_app_l_Some.
Qed.

(** Filling an entry below [lo]. *)
Lemma step_fill_kid lo d j k :
  wf d → (j < lo)%nat → step lo d (set_kids (<[j := k]> (kids (doc d))) d).
Proof.
  intros [? ?] ?. apply wf_extends; [done| |lia]. constructor; cbn; try done.
  - by rewrite length_insert.
  - intros i k' ? Hi. rewrite list_lookup_insert_ne by lia. done.
Qed.

#[export] Hint Resolve step_set_pos step_push_node step_push_str step_push_blob
  step_push_time step_grow_kids : cbor.

Abbreviation safe := (wp any_error).

(** [item_ok m]: a call that reads one item is safe, consumes input, and
    returns a node that denotes a value, in regions of its own. *)
Definition item_post (d : cborDecoder) (i : nat) (d' : cborDecoder) : Prop :=
  step 0 d d' ∧ (pos d < pos d')%nat ∧ ∃ v, reads (doc d') (length (kids (doc d))) i v.

Lemma slice_ok {A} (l : list A) i j :
  (i ≤ j ≤ length l)%nat → slice l i j = Ok (take (j - i) (drop i l)).
Proof. intros. unfold slice. by rewrite decide_True. Qed.

Lemma at_index_ok {A} (l : list A) i : (i < length l)%nat → ∃ x, l !! i = Some x ∧ at_index l i = Ok x.
Proof.
  intros [x Hx]%lookup_lt_is_Some_2. exists x. unfold at_index. by rewrite Hx.
Qed.

(** ** Heads *)

Record head_post (d : cborDecoder) (h : cborHead) (d' : cborDecoder) : Prop := {
  hp_step : step 0 d d';
  hp_doc : doc d' = doc d;
  hp_structs : structs d' = structs d;
  hp_pos : (pos d < pos d')%nat;
  hp_val : 0 ≤ val h < 2 ^ 64;
  hp_major : 0 ≤ major h < 8;
}.

Lemma safe_read_arg d size :
  wf d → safe (read_arg size) (λ v d',
    d' = set_pos (pos d + size) d ∧ step 0 d d' ∧ 0 ≤ v < 256 ^ Z.of_nat size) d.
Proof.
  intros Hwf. pose proof (wf_pos _ Hwf). unfold read_arg. wp_steps.
  case_decide as Hr; [done|]. unfold remaining in Hr. wp_steps.
  eapply wp_lift_ok; [apply slice_ok; lia|]. wp_steps.
  split_and!; [done|apply step_set_pos; [done|lia]|apply be_value_nonneg|].
  eapply Z.lt_le_trans; [apply be_value_bound|].
  apply Z.pow_le_mono_r; [lia|]. rewrite length_take. lia.
Qed.

Lemma safe_head d : wf d → safe head (head_post d) d.
Proof.
  intros Hwf. pose proof (wf_pos _ Hwf). unfold head. wp_steps.
  case_decide as Hr; [done|]. unfold remaining in Hr. wp_steps.
  destruct (at_index_ok (data (doc d)) (pos d)) as (b & Hb & Hat); [lia|].
  eapply wp_lift_ok; [done|]. wp_steps.
  pose proof (bz_range b) as Hbz.
  set (a := Z.land (bz b) 31).
  assert (0 ≤ a < 32) as Ha.
  { subst a. change 31 with (Z.ones 5). rewrite Z.land_ones by lia. apply Z.mod_pos_bound. lia. }
  assert (0 ≤ bz b ≫ 5 < 8) as Hm.
  { rewrite Z.shiftr_div_pow2 by lia. change (2 ^ 5) with 32. split; [apply Z.div_pos; lia|].
    apply Z.div_lt_upper_bound; lia. }
  assert (step 0 d (set_pos (pos d + 1) d)) as Hs by (apply step_set_pos; [done|lia]).
  destruct (Z.ltb_spec a 24); [|destruct (_ || _) eqn:Ho].
  - wp_steps. constructor; cbn; try done; lia.
  - wp_steps. set (n := Z.to_nat (1 ≪ (a - 24))).
    assert (1 ≤ n ≤ 8)%nat as Hn.
    { subst n. apply orb_true_iff in Ho as [Ho|Ho]; [apply orb_true_iff in Ho as [Ho|Ho];
        [apply orb_true_iff in Ho as [Ho|Ho]|]|]; apply Z.eqb_eq in Ho; rewrite Ho; vm_compute; lia. }
    eapply wp_mono; [apply safe_read_arg; apply Hs|]. intros v d' (-> & Hs' & Hv). wp_steps.
    constructor; cbn; try done; [by eapply step_trans|lia|].
    split; [lia|]. eapply Z.lt_le_trans; [apply Hv|]. change (2 ^ 64) with (256 ^ 8).
    apply Z.pow_le_mono_r; lia.
  - destruct (a =? 31); [|exact I]. wp_steps. constructor; cbn; try done; lia.
Qed.

(** ** Leaves *)

Definition sub_post (d : cborDecoder) (i : nat) (d' : cborDecoder) : Prop :=
  step 0 d d' ∧ ∃ v, reads (doc d') (length (kids (doc d))) i v.

Lemma sub_post_trans d d1 i d' : step 0 d d1 → sub_post d1 i d' → sub_post d i d'.
Proof.
  intros Hs [Hs' [v Hv]]. split; [by eapply step_trans|]. exists v.
  eapply reads_weaken; [|done]. apply Hs.
Qed.

Lemma item_post_intro d d1 i d' :
  step 0 d d1 → (pos d < pos d1)%nat → sub_post d1 i d' → item_post d i d'.
Proof.
  intros Hs Hp Hsub. destruct (sub_post_trans _ _ _ _ Hs Hsub) as [? ?].
  destruct Hsub as [[] _]. split_and!; [done|lia|done].
Qed.

Lemma push_node_at n d : nodes (doc (push_node n d)) !! length (nodes (doc d)) = Some n.
Proof. cbn. apply list_lookup_middle. done. Qed.

(** The same for a known value, whatever the errors allowed. *)
Definition sub_val (d : cborDecoder) (v : cval) (i : nat) (d' : cborDecoder) : Prop :=
  step 0 d d' ∧ reads (doc d') (length (kids (doc d))) i v.

Lemma sub_val_trans d d1 v i d' : step 0 d d1 → sub_val d1 v i d' → sub_val d v i d'.
Proof.
  intros Hs [Hs' Hv]. split; [by eapply step_trans|].
  eapply reads_weaken; [|done]. apply Hs.
Qed.

Lemma safe_of_val (m : dec nat) d v : wp any_error m (sub_val d v) d → safe m (sub_post d) d.
Proof. intros H. eapply wp_mono; [exact H|]. intros i d' [? ?]. split; eauto. Qed.

Lemma add_leaf {E} d n v : wf d → leaf (doc d) n v → wp E (add n) (sub_val d v) d.
Proof.
  intros Hwf Hl. split; [by apply step_push_node|].
  eapply reads_leaf; [apply push_node_at|].
  eapply leaf_extends; [apply (step_push_node 0 d n Hwf)|done].
Qed.

Lemma safe_add_leaf d n v : wf d → leaf (doc d) n v → safe (add n) (sub_post d) d.
Proof. intros. eapply safe_of_val. by apply add_leaf. Qed.

Lemma safe_add_bad d tag : wf d → safe (add (node_of itBadTag tag)) (sub_post d) d.
Proof. intros. eapply safe_add_leaf; [done|]. by apply leaf_badtag. Qed.

Lemma safe_intItem d h : wf d → 0 ≤ val h < 2 ^ 64 → safe (intItem h) (sub_post d) d.
Proof.
  intros Hwf Hv. unfold intItem. destruct (indef h); [done|].
  destruct (major h =? 0); destruct (Z.ltb_spec MaxInt64 (val h));
    (eapply safe_add_leaf; [exact Hwf|]).
  - apply leaf_uint; cbn; [done|unfold MaxInt64 in *; lia].
  - apply leaf_int; [done|exact Hv].
  - apply leaf_negbig; cbn; [done|unfold MaxInt64 in *; lia].
  - apply leaf_int; [done|]. apply Z.mod_pos_bound. lia.
Qed.

Lemma safe_simpleItem d a v ind : wf d → safe (simpleItem a v ind) (sub_post d) d.
Proof.
  intros Hwf. unfold simpleItem.
  repeat case_match; try exact I; (eapply safe_add_leaf; [exact Hwf|by constructor]).
Qed.

Lemma addText_int {E} d z ex :
  wf d → wp E (addText itNumText (dec_int z) 0 ex) (sub_val d (CBig z)) d.
Proof.
  intros Hwf. unfold addText. wp_steps. eapply wp_mono.
  - eapply add_leaf; [by apply (step_push_str 0)|]. apply leaf_bignum; [done|done|].
    cbn. by apply list_lookup_middle.
  - intros. eapply sub_val_trans; [|done]. by apply step_push_str.
Qed.

Lemma addText_decimal {E} d m ex :
  wf d → wp E (addText itNumText (dec_int m) 1 ex) (sub_val d (CDecimal m (i64 ex))) d.
Proof.
  intros Hwf. unfold addText. wp_steps. eapply wp_mono.
  - eapply add_leaf; [by apply (step_push_str 0)|]. apply leaf_decimal; [done|done|].
    cbn. by apply list_lookup_middle.
  - intros. eapply sub_val_trans; [|done]. by apply step_push_str.
Qed.

Lemma addInstant_val {E} d t : wf d → wp E (addInstant t) (sub_val d (CInstant t)) d.
Proof.
  intros Hwf. unfold addInstant. wp_steps. eapply wp_mono.
  - eapply add_leaf; [by apply (step_push_time 0)|]. eapply leaf_instant; [done|done|].
    cbn. by apply list_lookup_middle.
  - intros. eapply sub_val_trans; [|done]. by apply step_push_time.
Qed.

Lemma safe_addText_int d z ex : wf d → safe (addText itNumText (dec_int z) 0 ex) (sub_post d) d.
Proof. intros. eapply safe_of_val. by apply addText_int. Qed.
Lemma safe_addText_decimal d m ex :
  wf d → safe (addText itNumText (dec_int m) 1 ex) (sub_post d) d.
Proof. intros. eapply safe_of_val. by apply addText_decimal. Qed.
Lemma safe_addInstant d t : wf d → safe (addInstant t) (sub_post d) d.
Proof. intros. eapply safe_of_val. by apply addInstant_val. Qed.

(** ** Strings *)

Lemma utf8_valid_app a b : utf8_valid a = true → utf8_valid b = true → utf8_valid (a ++ b) = true.
Proof.
  intros Ha Hb. revert Ha. assert (∃ n, length a ≤ n)%nat as [n Hn] by eauto.
  revert a Hn. induction n as [|n IH]; intros a Hn Ha.
  { destruct a; [done|cbn in Hn; lia]. }
  destruct a as [|x a]; [done|]. cbn [app utf8_valid length] in *.
  destruct (bz x <? 128); [apply IH; [lia|done]|].
  destruct a as [|y a]; [done|]. cbn [app length] in *.
  destruct (between_z 194 (bz x) 223).
  { apply andb_true_iff in Ha as [-> Ha]. apply IH; [lia|done]. }
  destruct a as [|z a]; [done|]. cbn [app length] in *.
  destruct (bz x =? 224); [|destruct (bz x =? 237); [|destruct (between_z 225 (bz x) 239)]].
  1-3: apply andb_true_iff in Ha as [-> Ha]; apply IH; [lia|done].
  destruct a as [|w a]; [done|]. cbn [app length] in *.
  apply andb_true_iff in Ha as [-> Ha]. apply IH; [lia|done].
Qed.

Lemma stringChunks_safe fuel d m text acc :
  wf d → (remaining d < fuel)%nat → (text = true → utf8_valid acc = true) →
  safe (stringChunks fuel m text acc) (λ bs d',
    step 0 d d' ∧ doc d' = doc d ∧ (text = true → utf8_valid bs = true)) d.
Proof.
  revert d acc. induction fuel as [|fuel IH]; intros d acc Hwf Hf Ht; [lia|].
  cbn [stringChunks]. pose proof (wf_pos _ Hwf). wp_steps.
  case_decide as Hr; [done|]. unfold remaining in Hr.
  destruct (at_index_ok (data (doc d)) (pos d)) as (b & Hb & Hat); [lia|].
  wp_steps. eapply wp_lift_ok; [done|]. destruct (bz b =? 255).
  { wp_steps. split_and!; [apply step_set_pos; [done|lia]|done|done]. }
  wp_steps. eapply wp_mono; [by apply safe_head|]. intros h d1 [Hs1 Hd1 _ Hp1 Hv1 _].
  destruct (_ || _); [done|]. wp_steps.
  destruct (Z.ltb_spec (Z.of_nat (remaining d1)) (val h)) as [|Hle]; [done|].
  pose proof (wf_pos _ (step_wf _ _ _ Hs1)). unfold remaining in *.
  wp_steps. eapply wp_lift_ok; [apply slice_ok; lia|]. wp_steps.
  set (d2 := set_pos _ d1).
  assert (step 0 d1 d2) as Hs2 by (apply step_set_pos; [apply Hs1|lia]).
  set (chunk := take _ _). destruct (text && negb (utf8_valid chunk)) eqn:Hc; [done|].
  eapply wp_mono.
  - apply IH; [apply Hs2| |].
    + unfold remaining. cbn. rewrite Hd1. lia.
    + intros ->. apply utf8_valid_app; [by apply Ht|]. cbn in Hc. by apply negb_false_iff in Hc.
  - intros bs d3 (Hs3 & Hd3 & Hu). split_and!; [|by rewrite Hd3, <-Hd1|done].
    eapply step_trans; [done|]. by eapply step_trans.
Qed.

Lemma safe_stringItem d m len ind :
  wf d → 0 ≤ len → (m = 2 ∨ m = 3) → safe (stringItem m len ind) (sub_post d) d.
Proof.
  intros Hwf Hlen Hm. pose proof (wf_pos _ Hwf). unfold stringItem. wp_steps. destruct ind; cbn [negb].
  - wp_steps. eapply wp_mono; [apply stringChunks_safe; [done|lia|done]|].
    intros bs d1 (Hs1 & Hd1 & Hu). wp_steps.
    assert (step 0 d (push_blob bs d1)) as Hs2.
    { eapply step_trans; [done|]. apply step_push_blob, Hs1. }
    eapply wp_mono; [|intros ?? H'; eapply sub_post_trans; [exact Hs2|exact H']].
    assert (cnode_bytes (doc (push_blob bs d1))
              (CNode (if m =? 3 then itText else itBytes) true (length (blobs (doc d1))) (length bs) 0)
            = Ok bs) as Hb.
    { unfold cnode_bytes. cbn. unfold at_index. by rewrite list_lookup_middle. }
    destruct (m =? 3) eqn:E.
    + eapply safe_add_leaf; [apply Hs2|]. apply leaf_text with (b := bs); [done|done|auto].
    + eapply safe_add_leaf; [apply Hs2|]. by apply leaf_bytes with (b := bs).
  - destruct (Z.ltb_spec (Z.of_nat (remaining d)) len); [done|]. unfold remaining in *.
    set (n := Z.to_nat len). assert (step 0 d (set_pos (pos d + n) d)) as Hs
      by (apply step_set_pos; [done|lia]).
    wp_steps. eapply wp_lift_ok; [apply slice_ok; lia|].
    replace (pos d + n - pos d)%nat with n by lia. set (s := take _ _).
    assert (length s = n) as Hls by (subst s; rewrite length_take, length_drop; lia).
    assert (∀ it, cnode_bytes (doc (set_pos (pos d + n) d)) (CNode it false (pos d) n 0) = Ok s) as Hb.
    { intros it. unfold cnode_bytes. cbn. rewrite slice_ok by lia.
      by replace (pos d + n - pos d)%nat with n by lia. }
    destruct (_ && _) eqn:Hu; [done|].
    eapply wp_mono; [|intros ?? H'; eapply sub_post_trans; [exact Hs|exact H']].
    destruct (m =? 3); cbn in Hu; (eapply safe_add_leaf; [apply Hs|]).
    + apply leaf_text with (b := s); [done|done|by apply negb_false_iff in Hu].
    + by apply leaf_bytes with (b := s).
Qed.

(** ** Distinct keys *)

(** The keys of a region of pairs. *)
Definition keys_at (c : cborDoc) (start : nat) (bs : list bytes) : Prop :=
  ∀ j b, bs !! j = Some b → ∃ k, kids c !! (start + 2 * j)%nat = Some k ∧ text_at c k b.

Lemma pair_key_ok c start bs j b :
  keys_at c start bs → bs !! j = Some b → pair_key c start j = Ok b.
Proof.
  intros Hk Hj. destruct (Hk j b Hj) as (k & Hkk & n & Hn & _ & Hb & _).
  unfold pair_key, at_index. rewrite Hkk. cbn. by rewrite Hn.
Qed.

Lemma check_against_spec c start bs i b j :
  keys_at c start bs → bs !! i = Some b → (j ≤ i)%nat →
  (b ∉ take j bs → check_against c start i j = Ok tt) ∧
  (b ∈ take j bs → check_against c start i j = duplicate_key).
Proof.
  intros Hk Hi. induction j as [|j IH]; intros Hj; cbn [check_against].
  { split; [done|]. intros H. by apply not_elem_of_nil in H. }
  destruct (lookup_lt_is_Some_2 bs j) as [b' Hb'].
  { apply lookup_lt_Some in Hi. lia. }
  destruct IH as [IH1 IH2]; [lia|].
  rewrite (take_S_r _ _ _ Hb'), (pair_key_ok _ _ _ _ _ Hk Hi), (pair_key_ok _ _ _ _ _ Hk Hb').
  rewrite elem_of_app, list_elem_of_singleton.
  destruct (decide (b ∈ take j bs)) as [Hin|Hin].
  - rewrite IH2 by done. split; [naive_solver|done].
  - rewrite IH1 by done. cbn. case_decide; split; naive_solver.
Qed.

Lemma check_pairwise_spec c start bs n :
  keys_at c start bs → (n ≤ length bs)%nat →
  (NoDup (take n bs) → check_pairwise c start n = Ok tt) ∧
  (¬ NoDup (take n bs) → check_pairwise c start n = duplicate_key).
Proof.
  intros Hk. induction n as [|n IH]; intros Hn; cbn [check_pairwise].
  { split; [done|]. intros []. apply NoDup_nil_2. }
  destruct (lookup_lt_is_Some_2 bs n) as [b Hb]; [lia|].
  destruct IH as [IH1 IH2]; [lia|].
  destruct (check_against_spec c start bs n b n Hk Hb) as [Ha1 Ha2]; [lia|].
  rewrite (take_S_r _ _ _ Hb), NoDup_app.
  destruct (decide (NoDup (take n bs))) as [Hnd|Hnd].
  - rewrite IH1 by done. cbn. destruct (decide (b ∈ take n bs)) as [Hin|Hin].
    + rewrite Ha2 by done. split; [|done]. intros (_ & H & _).
      exfalso. apply (H b Hin). by apply list_elem_of_singleton.
    + rewrite Ha1 by done. split; [done|]. intros H. exfalso. apply H.
      split_and!; [done| |apply NoDup_singleton]. intros x Hx ->%list_elem_of_singleton. done.
  - rewrite IH2 by done. split; [naive_solver|done].
Qed.

Lemma string_of_bytes_inj (a b : bytes) : string_of_bytes a = string_of_bytes b → a = b.
Proof. intros H. by rewrite <-(bytes_of_string_of_bytes a), H, bytes_of_string_of_bytes. Qed.

Lemma check_seen_spec c start bs i count (seen : gset string) :
  keys_at c start bs → (i + count = length bs)%nat →
  (∀ b, b ∈ take i bs ↔ string_of_bytes b ∈ seen) → NoDup (take i bs) →
  (NoDup bs → check_seen c start i count seen = Ok tt) ∧
  (¬ NoDup bs → check_seen c start i count seen = duplicate_key).
Proof.
  intros Hk. revert i seen. induction count as [|count IH]; intros i seen Hlen Hseen Hnd;
    cbn [check_seen].
  { rewrite take_ge in Hnd by lia. done. }
  destruct (lookup_lt_is_Some_2 bs i) as [b Hb]; [lia|].
  rewrite (pair_key_ok _ _ _ _ _ Hk Hb). cbn.
  case_decide as Hin.
  - apply Hseen in Hin. split; [|done]. intros H. exfalso.
    rewrite <-(take_drop (S i) bs), (take_S_r _ _ _ Hb) in H.
    apply NoDup_app in H as (H & _ & _). apply NoDup_app in H as (_ & H & _).
    apply (H b Hin). by apply list_elem_of_singleton.
  - apply IH; [lia| |].
    + intros b'. rewrite (take_S_r _ _ _ Hb), elem_of_app, Hseen, list_elem_of_singleton,
        elem_of_union, elem_of_singleton.
      split; intros [|H]; auto; [subst; auto|apply string_of_bytes_inj in H; auto].
    + rewrite (take_S_r _ _ _ Hb). apply NoDup_app. split_and!; [done| |apply NoDup_singleton].
      intros x Hx ->%list_elem_of_singleton. by apply Hin, Hseen.
Qed.

(** The check accepts exactly the regions without a repeated key. *)
Lemma checkDistinctKeys_spec c start bs :
  keys_at c start bs →
  (NoDup bs → checkDistinctKeys c start (length bs) = Ok tt) ∧
  (¬ NoDup bs → checkDistinctKeys c start (length bs) = duplicate_key).
Proof.
  intros Hk. unfold checkDistinctKeys. case_decide.
  - rewrite <-(take_ge bs (length bs)) at 1 3 by done. by apply check_pairwise_spec.
  - apply check_seen_spec; [done|done| |by apply NoDup_nil_2].
    intros b. split; intros H'; [by apply not_elem_of_nil in H'|set_solver].
Qed.

(** ** Containers *)

(** The entries [kids[start .. start+length vs)] hold nodes denoting [vs]. *)
Definition elems_at (c : cborDoc) (lo start : nat) (vs : list cval) : Prop :=
  ∀ j v, vs !! j = Some v → ∃ k, kids c !! (start + j)%nat = Some k ∧ reads c lo k v.

Definition entries_at (c : cborDoc) (lo start : nat) (ms : list (bytes * cval)) : Prop :=
  ∀ j m, ms !! j = Some m → ∃ k kv,
    kids c !! (start + 2 * j)%nat = Some k ∧ text_at c k m.1 ∧
    kids c !! (start + 2 * j + 1)%nat = Some kv ∧ reads c lo kv m.2.

Lemma lookup_snoc_Some {A} (l : list A) x j y :
  (l ++ [x]) !! j = Some y → l !! j = Some y ∨ (j = length l ∧ x = y).
Proof.
  intros H. destruct (decide (j < length l)%nat).
  - rewrite lookup_app_l in H by done. auto.
  - rewrite lookup_app_r in H by lia. apply list_lookup_singleton_Some in H as [??].
    right. split; [lia|done].
Qed.

Lemma Forall2_reads_extends lo c c' es vs :
  extends lo c c' → Forall2 (reads c lo) es vs → Forall2 (reads c' lo) es vs.
Proof. intros He H. eapply Forall2_impl; [done|]. intros. by eapply reads_extends. Qed.

(** Filling an entry above the old [kids] extends the old document. *)
Lemma extends_fill c0 c j k :
  extends 0 c0 c → (length (kids c0) ≤ j)%nat →
  extends 0 c0 (CborDoc (data c) (nodes c) (<[j := k]> (kids c)) (strs c) (blobs c) (times c)).
Proof.
  intros [] Hj. constructor; cbn; try done.
  - by rewrite length_insert.
  - intros i k' _ Hi. rewrite list_lookup_insert_ne; [by apply ext_kids0; [lia|]|].
    apply lookup_lt_Some in Hi. lia.
Qed.

Lemma step_put_kid d0 d j k :
  step 0 d0 d → (length (kids (doc d0)) ≤ j)%nat →
  step 0 d0 (set_kids (<[j := k]> (kids (doc d))) d).
Proof.
  intros [He Hp Hw] Hj. constructor; cbn; [by apply extends_fill|done|].
  by apply (step_fill_kid (S j) d j k Hw); lia.
Qed.

Lemma safe_put_kid {E} (P : cborDecoder → Prop) d j k :
  (j < length (kids (doc d)))%nat → P (set_kids (<[j := k]> (kids (doc d))) d) →
  wp E (put_kid j k) (λ _, P) d.
Proof.
  intros Hj HP. unfold put_kid. wp_steps.
  eapply wp_lift_ok; [unfold store_at; by rewrite decide_True|]. by wp_steps.
Qed.

Section containers.
Context (item_rec : nat → dec nat).

Definition rec_ok (depth : nat) : Prop :=
  ∀ d, wf d → safe (item_rec depth) (item_post d) d.

Lemma arrayElems_safe fuel depth lo d es vs :
  rec_ok (depth + 1) → wf d → (remaining d < fuel)%nat → (lo ≤ length (kids (doc d)))%nat →
  Forall2 (reads (doc d) lo) es vs →
  safe (arrayElems item_rec fuel depth es) (λ es' d',
    step 0 d d' ∧ ∃ vs', Forall2 (reads (doc d') lo) es' vs') d.
Proof.
  intros Hrec. revert d es vs. induction fuel as [|fuel IH]; intros d es vs Hwf Hf Hlo Hes; [lia|].
  cbn [arrayElems]. pose proof (wf_pos _ Hwf). wp_steps.
  case_decide as Hr; [done|]. unfold remaining in Hr.
  destruct (at_index_ok (data (doc d)) (pos d)) as (b & Hb & Hat); [lia|].
  wp_steps. eapply wp_lift_ok; [done|]. destruct (bz b =? 255).
  { wp_steps. split; [apply step_set_pos; [done|lia]|eauto]. }
  wp_steps. eapply wp_mono; [by apply Hrec|]. intros e d1 (Hs1 & Hp1 & v & Hv).
  pose proof Hs1 as [He1 _ Hw1]. pose proof He1 as [].
  eapply wp_mono; [apply (IH d1 (es ++ [e]) (vs ++ [v])); [done| |lia|]|].
  - unfold remaining in *. rewrite ext_data0. lia.
  - apply Forall2_app; [eapply Forall2_reads_extends; [|done];
      eapply extends_weaken; [|exact He1]; lia|].
    constructor; [|done]. eapply reads_weaken; [|done]. lia.
  - intros es' d' [Hs' Hv']. split; [by eapply step_trans|done].
Qed.

(** Filling one entry of a reserved region, then going on. *)
Lemma fill_elem_safe {E B} lim start d0 d d1 e v vs (m : dec B) (Q : B → cborDecoder → Prop) :
  step 0 d0 d → step 0 d d1 → (length (kids (doc d0)) ≤ start)%nat →
  (start + length vs + 1 ≤ lim)%nat → (lim ≤ length (kids (doc d)))%nat →
  elems_at (doc d) lim start vs → reads (doc d1) lim e v →
  (∀ d2, step 0 d0 d2 → length (kids (doc d2)) = length (kids (doc d1)) → pos d2 = pos d1 →
         elems_at (doc d2) lim start (vs ++ [v]) → wp E m Q d2) →
  wp E (_ ← put_kid (start + length vs) e; m) Q d1.
Proof.
  intros Hs0 Hs1 Hst Hroom Hlim Hes Hv HQ. pose proof Hs1 as [He1 _ Hw1]. pose proof He1 as [].
  wp_steps. apply safe_put_kid; [lia|]. set (d2 := set_kids _ d1).
  assert (step lim d1 d2) as Hs2 by (apply step_fill_kid; [done|lia]).
  assert (extends lim (doc d) (doc d2)) as He2.
  { eapply extends_trans; [|apply Hs2]. eapply extends_weaken; [|exact He1]. lia. }
  apply HQ; [|apply length_insert|done|].
  - apply step_put_kid; [by eapply step_trans|lia].
  - intros j w Hj. apply lookup_snoc_Some in Hj as [Hj|[-> <-]].
    + destruct (Hes j w Hj) as (k & Hk & Hr). exists k. apply lookup_lt_Some in Hj. split.
      * cbn. rewrite list_lookup_insert_ne by lia. apply ext_kids0; [lia|done].
      * by eapply reads_extends.
    + exists e. split; [cbn; apply list_lookup_insert_eq; lia|].
      eapply reads_extends; [apply Hs2|done].
Qed.

Lemma arrayFill_safe n depth d0 d vs start lim :
  rec_ok (depth + 1) → step 0 d0 d →
  start = length (kids (doc d0)) → lim = (start + length vs + n)%nat →
  (lim ≤ length (kids (doc d)))%nat → elems_at (doc d) lim start vs →
  safe (arrayFill item_rec n depth start (length vs)) (λ _ d',
    step 0 d0 d' ∧ ∃ vs', length vs' = (length vs + n)%nat ∧ elems_at (doc d') lim start vs') d.
Proof.
  intros Hrec. revert d vs. induction n as [|n IH]; intros d vs Hs Hst Hli Hlim Hes;
    cbn [arrayFill].
  { wp_steps. split; [done|]. exists vs. split; [lia|done]. }
  wp_steps. eapply wp_mono; [apply Hrec, Hs|]. intros e d1 (Hs1 & _ & v & Hv).
  pose proof (ext_kids_length _ _ _ (step_ext _ _ _ Hs1)).
  eapply (fill_elem_safe lim start d0 d d1 e v vs); try done; try lia.
  { eapply reads_weaken; [|done]. lia. }
  intros d2 Hs2 Hl2 _ He2.
  assert (length (vs ++ [v]) = S (length vs)) as Hl by (rewrite length_app; cbn; lia).
  rewrite <-Hl. eapply wp_mono; [apply (IH d2); try done; lia|].
  intros _ d' (Hs' & vs' & Hlv & Hev). split; [done|]. exists vs'. split; [lia|done].
Qed.

Lemma mapPair_safe depth d :
  rec_ok (depth + 1) → wf d → safe (mapPair item_rec depth) (λ kv d',
    step 0 d d' ∧ (pos d < pos d')%nat ∧
    ∃ b v, text_at (doc d') kv.1 b ∧ reads (doc d') (length (kids (doc d))) kv.2 v) d.
Proof.
  intros Hrec Hwf. unfold mapPair. wp_steps.
  eapply wp_mono; [by apply Hrec|]. intros k d1 (Hs1 & Hp1 & v & Hv).
  assert (∃ n, nodes (doc d1) !! k = Some n) as [n Hn] by (inversion Hv; eauto).
  wp_steps. unfold node_at. eapply (wp_run _ _ _ _ n d1); [unfold lift, at_index; by rewrite Hn|].
  case_bool_decide as Hi; cbn; [|done]. wp_steps.
  destruct (reads_text_inv _ _ _ _ _ Hv Hn Hi) as (b & -> & Hb).
  eapply wp_mono; [apply Hrec, Hs1|]. intros k2 d2 (Hs2 & Hp2 & w & Hw). wp_steps. cbn.
  split_and!; [by eapply step_trans|lia|]. exists b, w. split.
  - eapply text_at_extends; [apply Hs2|done].
  - eapply reads_weaken; [|done]. apply Hs1.
Qed.

Definition pairs_read (c : cborDoc) (lo : nat) (ks : list nat) (ms : list (bytes * cval)) : Prop :=
  length ks = (2 * length ms)%nat ∧
  ∀ j m, ms !! j = Some m → ∃ k kv,
    ks !! (2 * j)%nat = Some k ∧ text_at c k m.1 ∧
    ks !! (2 * j + 1)%nat = Some kv ∧ reads c lo kv m.2.

Lemma pairs_read_extends lo c c' ks ms :
  extends lo c c' → pairs_read c lo ks ms → pairs_read c' lo ks ms.
Proof.
  intros He [Hl Hm]. split; [done|]. intros j m Hj. destruct (Hm j m Hj) as (k & kv & ? & ? & ? & ?).
  exists k, kv. split_and!; [done|by eapply text_at_extends|done|by eapply reads_extends].
Qed.

Lemma pairs_read_snoc c lo ks ms k kv b v :
  pairs_read c lo ks ms → text_at c k b → reads c lo kv v →
  pairs_read c lo (ks ++ [k; kv]) (ms ++ [(b, v)]).
Proof.
  intros [Hl Hm] Hb Hv. split; [rewrite !length_app; cbn; lia|].
  intros j m Hj. apply lookup_snoc_Some in Hj as [Hj|[-> <-]].
  - destruct (Hm j m Hj) as (k' & kv' & ? & ? & ? & ?). exists k', kv'.
    split_and!; try done; by apply lookup_app_l_Some.
  - exists k, kv. rewrite <-Hl. split_and!; try done.
    + apply list_lookup_middle. done.
    + rewrite lookup_app_r by lia. by replace (length ks + 1 - length ks)%nat with 1%nat by lia.
Qed.

Lemma mapElems_safe fuel depth lo d ks ms :
  rec_ok (depth + 1) → wf d → (remaining d < fuel)%nat → (lo ≤ length (kids (doc d)))%nat →
  pairs_read (doc d) lo ks ms →
  safe (mapElems item_rec fuel depth (length ms) ks) (λ r d',
    step 0 d d' ∧ ∃ ms', r.1 = length ms' ∧ pairs_read (doc d') lo r.2 ms') d.
Proof.
  intros Hrec. revert d ks ms. induction fuel as [|fuel IH]; intros d ks ms Hwf Hf Hlo Hes; [lia|].
  cbn [mapElems]. pose proof (wf_pos _ Hwf). wp_steps.
  case_decide as Hr; [done|]. unfold remaining in *.
  destruct (at_index_ok (data (doc d)) (pos d)) as (b & Hb & Hat); [lia|].
  wp_steps. eapply wp_lift_ok; [done|]. destruct (bz b =? 255).
  { wp_steps. cbn. split; [apply step_set_pos; [done|lia]|eauto]. }
  wp_steps. eapply wp_mono; [by apply mapPair_safe|].
  intros [k kv] d1 (Hs1 & Hp1 & tb & v & Hk & Hv). cbn [fst snd] in *.
  pose proof Hs1 as [He1 _ Hw1]. pose proof He1 as [].
  assert (length (ms ++ [(tb, v)]) = S (length ms)) as Hl by (rewrite length_app; cbn; lia).
  rewrite <-Hl. eapply wp_mono; [apply IH; [done| |lia|]|].
  - unfold remaining in *. rewrite ext_data0. lia.
  - apply pairs_read_snoc; [|done|eapply reads_weaken; [|done]; lia].
    eapply pairs_read_extends; [|done]. eapply extends_weaken; [|exact He1]. lia.
  - intros r d' [Hs' Hv']. split; [by eapply step_trans|done].
Qed.

(** Filling one pair of a reserved region, then going on. *)
Lemma fill_pair_safe {E B} lim start j d0 d d1 k kv b v ms (m : dec B) (Q : B → cborDecoder → Prop) :
  step 0 d0 d → step 0 d d1 → (length (kids (doc d0)) ≤ start)%nat →
  j = length ms → (start + 2 * j + 2 ≤ lim)%nat → (lim ≤ length (kids (doc d)))%nat →
  entries_at (doc d) lim start ms →
  text_at (doc d1) k b → reads (doc d1) lim kv v →
  (∀ d2, step 0 d0 d2 → length (kids (doc d1)) = length (kids (doc d2)) → pos d2 = pos d1 →
         entries_at (doc d2) lim start (ms ++ [(b, v)]) → extends lim (doc d1) (doc d2) → wp E m Q d2) →
  wp E (_ ← put_kid (start + 2 * j) k; _ ← put_kid (start + 2 * j + 1) kv; m) Q d1.
Proof.
  intros Hs0 Hs1 Hst -> Hroom Hlim Hes Hk Hv HQ.
  pose proof Hs1 as [He1 _ Hw1]. pose proof He1 as [].
  wp_steps. apply safe_put_kid; [lia|]. set (d2 := set_kids _ d1).
  assert (step lim d1 d2) as Hs2 by (apply step_fill_kid; [done|lia]).
  assert (length (kids (doc d2)) = length (kids (doc d1))) as Hl2 by apply length_insert.
  wp_steps. apply safe_put_kid; [lia|]. set (d3 := set_kids _ d2).
  assert (step lim d2 d3) as Hs3 by (apply step_fill_kid; [apply Hs2|lia]).
  assert (step lim d1 d3) as Hs13 by (by eapply step_trans).
  assert (extends lim (doc d) (doc d3)) as He3.
  { eapply extends_trans; [|apply Hs13]. eapply extends_weaken; [|exact He1]. lia. }
  apply HQ; [|cbn; by rewrite !length_insert|done| |apply Hs13].
  { apply step_put_kid; [apply step_put_kid; [by eapply step_trans|]|]; lia. }
  intros i e Hi. apply lookup_snoc_Some in Hi as [Hi|[-> <-]].
  - destruct (Hes i e Hi) as (k' & kv' & H1 & H2 & H3 & H4). apply lookup_lt_Some in Hi.
    exists k', kv'. cbn. rewrite !list_lookup_insert_ne by lia.
    split_and!; eauto using text_at_extends, reads_extends; apply ext_kids0; try done; lia.
  - exists k, kv. cbn. rewrite (list_lookup_insert_ne _ _ (start + 2 * length ms)) by lia.
    split_and!.
    + apply list_lookup_insert_eq. lia.
    + eapply text_at_extends; [apply Hs13|done].
    + apply list_lookup_insert_eq. rewrite length_insert. lia.
    + eapply reads_extends; [apply Hs13|done].
Qed.

Lemma mapFill_safe n depth d0 d ms start lim :
  rec_ok (depth + 1) → step 0 d0 d →
  start = length (kids (doc d0)) → lim = (start + 2 * (length ms + n))%nat →
  (lim ≤ length (kids (doc d)))%nat → entries_at (doc d) lim start ms →
  safe (mapFill item_rec n depth start (length ms)) (λ _ d',
    step 0 d0 d' ∧ ∃ ms', length ms' = (length ms + n)%nat ∧ entries_at (doc d') lim start ms') d.
Proof.
  intros Hrec. revert d ms. induction n as [|n IH]; intros d ms Hs Hst Hli Hlim Hes;
    cbn [mapFill].
  { wp_steps. split; [done|]. exists ms. split; [lia|done]. }
  wp_steps. eapply wp_mono; [apply mapPair_safe; [done|apply Hs]|].
  intros [k kv] d1 (Hs1 & _ & b & v & Hk & Hv). cbn [fst snd] in *.
  pose proof (ext_kids_length _ _ _ (step_ext _ _ _ Hs1)).
  assert (length (ms ++ [(b, v)]) = S (length ms)) as Hl by (rewrite length_app; cbn; lia).
  eapply (fill_pair_safe lim start (length ms) d0 d d1 k kv b v ms); try done; try lia.
  { eapply reads_weaken; [|done]. lia. }
  intros d2 Hs2 Hl2 _ He2 _. rewrite <-Hl. eapply wp_mono; [apply (IH d2); try done; lia|].
  intros _ d' (Hs' & ms' & Hlm & Hem). split; [done|]. exists ms'. split; [lia|done].
Qed.

Lemma structureFill_safe names bs depth d0 d ms start lim :
  rec_ok (depth + 2) → step 0 d0 d →
  start = length (kids (doc d0)) → lim = (start + 2 * (length ms + length names))%nat →
  (lim ≤ length (kids (doc d)))%nat → entries_at (doc d) lim start ms →
  Forall2 (text_at (doc d)) names bs →
  safe (structureFill item_rec names depth start (length ms)) (λ _ d',
    step 0 d0 d' ∧ ∃ ms', ms'.*1 = ms.*1 ++ bs ∧ entries_at (doc d') lim start ms') d.
Proof.
  intros Hrec. revert d ms bs.
  induction names as [|k names IH]; intros d ms bs Hs Hst Hli Hlim Hes Hnames; cbn [structureFill].
  { apply Forall2_nil_inv_l in Hnames as ->. wp_steps. split; [done|]. exists ms.
    by rewrite app_nil_r. }
  apply Forall2_cons_inv_l in Hnames as (b & bs' & Hk & Hnames & ->). cbn [length] in *.
  wp_steps. eapply wp_mono; [apply Hrec, Hs|]. intros kv d1 (Hs1 & _ & v & Hv).
  pose proof (ext_kids_length _ _ _ (step_ext _ _ _ Hs1)).
  assert (length (ms ++ [(b, v)]) = S (length ms)) as Hl by (rewrite length_app; cbn; lia).
  eapply (fill_pair_safe lim start (length ms) d0 d d1 k kv b v ms); try done; try lia.
  { eapply text_at_extends; [apply Hs1|done]. }
  { eapply reads_weaken; [|done]. lia. }
  intros d2 Hs2 Hl2 _ He2 He. rewrite <-Hl. eapply wp_mono; [apply (IH d2 _ bs'); try done; try lia|].
  - eapply Forall2_impl; [done|]. intros. eapply text_at_extends; [exact He|].
    eapply text_at_extends; [apply Hs1|done].
  - intros _ d' (Hs' & ms' & Hms & Hem). split; [done|]. exists ms'. split; [|done].
    by rewrite Hms, fmap_app, <-app_assoc.
Qed.

Lemma nameItems_safe n depth d names bs :
  rec_ok (depth + 1) → wf d → Forall2 (text_at (doc d)) names bs →
  safe (nameItems item_rec n depth names) (λ names' d',
    step 0 d d' ∧ ∃ bs', Forall2 (text_at (doc d')) names' bs') d.
Proof.
  intros Hrec. revert d names bs.
  induction n as [|n IH]; intros d names bs Hwf Hnames; cbn [nameItems].
  { wp_steps. split; [by apply step_refl|eauto]. }
  wp_steps. eapply wp_mono; [by apply Hrec|]. intros k d1 (Hs1 & Hp1 & v & Hv).
  assert (∃ nd, nodes (doc d1) !! k = Some nd) as [nd Hn] by (inversion Hv; eauto).
  wp_steps. unfold node_at. eapply (wp_run _ _ _ _ nd d1); [unfold lift, at_index; by rewrite Hn|].
  case_bool_decide as Hi; cbn; [|done].
  destruct (reads_text_inv _ _ _ _ _ Hv Hn Hi) as (b & -> & Hb).
  eapply wp_mono; [apply (IH d1 _ (bs ++ [b])); [apply Hs1|]|].
  - apply Forall2_app; [|by repeat constructor].
    eapply Forall2_impl; [done|]. intros. eapply text_at_extends; [apply Hs1|done].
  - intros names' d' [Hs' H']. split; [by eapply step_trans|done].
Qed.
End containers.

Lemma distinct_names_spec c names bs (seen : gset string) :
  Forall2 (text_at c) names bs →
  (∃ e, distinct_names c names seen = Err e) ∨
  (distinct_names c names seen = Ok tt ∧ NoDup bs ∧ ∀ b, b ∈ bs → string_of_bytes b ∉ seen).
Proof.
  intros H. revert seen. induction H as [|k b names bs (n & Hn & Hi & Hb & _) H IH]; intros seen;
    cbn [distinct_names].
  { right. split_and!; [done|apply NoDup_nil_2|]. intros b Hb. by apply not_elem_of_nil in Hb. }
  unfold at_index. rewrite Hn. cbn. rewrite Hb. cbn.
  case_decide as Hin; [left; by eexists|].
  destruct (IH ({[string_of_bytes b]} ∪ seen)) as [|(Hok & Hnd & Hs)]; [by left|].
  right. split; [done|]. split.
  - apply NoDup_cons. split; [|done]. intros Hbb. apply Hs in Hbb. set_solver.
  - intros b' [->|Hb']%elem_of_cons; [done|]. apply Hs in Hb'. set_solver.
Qed.

Lemma safe_countFits d n k : safe (countFits n k) (λ _ d', d' = d) d.
Proof. unfold countFits. wp_steps. destruct (_ <? n); [done|]. by wp_steps. Qed.

(** Adding a container's node over a region that is filled. *)
Lemma add_array_val {E} d0 d start lim vs :
  step 0 d0 d → start = length (kids (doc d0)) → (start ≤ lim)%nat →
  elems_at (doc d) lim start vs →
  wp E (add (CNode itArray false start (length vs) 0)) (sub_val d0 (CArray vs)) d.
Proof.
  intros Hs Hst Hl He. assert (step 0 d (push_node (CNode itArray false start (length vs) 0) d))
    as Hs1 by apply step_push_node, Hs.
  split; [by eapply step_trans|].
  eapply reads_array; [apply push_node_at|done|cbn; lia|done|]. cbn [fa].
  intros j v Hj. destruct (He j v Hj) as (k & Hk & Hr). exists k. split; [done|].
  eapply reads_extends; [eapply extends_weaken; [|apply Hs1]; lia|].
  eapply reads_weaken; [|done]. lia.
Qed.

Lemma add_array_safe d0 d start lim vs :
  step 0 d0 d → start = length (kids (doc d0)) → (start ≤ lim)%nat →
  elems_at (doc d) lim start vs →
  safe (add (CNode itArray false start (length vs) 0)) (sub_post d0) d.
Proof.
  intros. eapply wp_mono; [by eapply add_array_val|]. intros ? ? [? ?]. split; eauto.
Qed.

Lemma add_map_val {E} d0 d start lim ms :
  step 0 d0 d → start = length (kids (doc d0)) → (start ≤ lim)%nat →
  entries_at (doc d) lim start ms → NoDup ms.*1 →
  wp E (add (CNode itMap false start (length ms) 0)) (sub_val d0 (CMap ms)) d.
Proof.
  intros Hs Hst Hl He Hnd. assert (step 0 d (push_node (CNode itMap false start (length ms) 0) d))
    as Hs1 by apply step_push_node, Hs.
  split; [by eapply step_trans|].
  eapply reads_map; [apply push_node_at|done|cbn; lia|done| |done]. cbn [fa].
  intros j m Hj. destruct (He j m Hj) as (k & kv & ? & ? & ? & Hr). exists k, kv.
  split_and!; [done|eapply text_at_extends; [apply Hs1|done]|done|].
  eapply reads_extends; [eapply extends_weaken; [|apply Hs1]; lia|].
  eapply reads_weaken; [|done]. lia.
Qed.

Lemma add_map_safe d0 d start lim ms :
  step 0 d0 d → start = length (kids (doc d0)) → (start ≤ lim)%nat →
  entries_at (doc d) lim start ms → NoDup ms.*1 →
  safe (add (CNode itMap false start (length ms) 0)) (sub_post d0) d.
Proof.
  intros. eapply wp_mono; [by eapply add_map_val|]. intros ? ? [? ?]. split; eauto.
Qed.

Lemma entries_keys c lo start ms : entries_at c lo start ms → keys_at c start (ms.*1).
Proof.
  intros He j b Hj. apply list_lookup_fmap_Some in Hj as (m & -> & Hm).
  destruct (He j m Hm) as (k & kv & ? & ? & _). eauto.
Qed.

Lemma finishMap_safe d0 d start lim ms :
  step 0 d0 d → start = length (kids (doc d0)) → (start ≤ lim)%nat →
  entries_at (doc d) lim start ms →
  safe (finishMap start (length ms)) (sub_post d0) d.
Proof.
  intros Hs Hst Hl He. unfold finishMap. wp_steps.
  destruct (checkDistinctKeys_spec _ _ _ (entries_keys _ _ _ _ He)) as [Hok Hdup].
  rewrite length_fmap in *. destruct (decide (NoDup ms.*1)) as [Hnd|Hnd].
  - eapply wp_lift_ok; [by apply Hok|]. by eapply add_map_safe.
  - rewrite Hdup by done. exact I.
Qed.
