(* ===== verification/CborNodeSafe.v ===== *)
(** Safety of [NewCBORNode]: the items that hold other items, the recursion
    that ties them, and the property of the whole pass. *)
From Stdlib Require Import ZArith Lia SpecFloat Strings.Byte.
From S2P Require Import Prelude Cbor CborNode CborNodeFacts.
Set Warnings "-register-all".

Section containers.
Context (parse_rfc3339 : string → option instant).
Context (item_rec : nat → dec nat).

Lemma elems_at_grow c0 lo es vs ks' :
  Forall2 (reads c0 lo) es vs → kids c0 ++ es = ks' →
  ∀ c, extends 0 c0 c → kids c = ks' → elems_at c lo (length (kids c0)) vs.
Proof.
  intros H Hks c He Hk j v Hj. destruct (Forall2_lookup_r _ _ _ _ _ H Hj) as (k & Hjk & Hr).
  exists k. split.
  - rewrite Hk, <-Hks, lookup_app_r by lia. by replace (_ + j - _)%nat with j by lia.
  - eapply reads_extends; [|done]. eapply extends_weaken; [|done]. lia.
Qed.

Lemma entries_at_grow c0 lo es ms ks' :
  pairs_read c0 lo es ms → kids c0 ++ es = ks' →
  ∀ c, extends 0 c0 c → kids c = ks' → entries_at c lo (length (kids c0)) ms.
Proof.
  intros [Hl H] Hks c He Hk j m Hj. destruct (H j m Hj) as (k & kv & H1 & H2 & H3 & H4).
  exists k, kv. assert (extends lo c0 c) as He' by (eapply extends_weaken; [|done]; lia).
  split_and!; [|by eapply text_at_extends| |by eapply reads_extends].
  - rewrite Hk, <-Hks, lookup_app_r by lia. by replace (_ + 2 * j - _)%nat with (2 * j)%nat by lia.
  - rewrite Hk, <-Hks, lookup_app_r by lia.
    by replace (_ + 2 * j + 1 - _)%nat with (2 * j + 1)%nat by lia.
Qed.

Lemma arrayItem_safe n ind depth d :
  wf d → ((depth < 64)%nat → rec_ok item_rec (depth + 1)) → safe (arrayItem item_rec n ind depth) (sub_post d) d.
Proof.
  intros Hwf Hrec. unfold arrayItem, cborMaxDepth. case_decide; [done|]. destruct ind.
  - wp_steps. eapply wp_mono.
    { apply (arrayElems_safe item_rec _ depth (length (kids (doc d))) d [] []); [apply Hrec; lia|exact Hwf|lia|lia|constructor]. }
    intros es d1 (Hs1 & vs & Hvs). wp_steps.
    pose proof (step_grow_kids 0 d1 es (step_wf _ _ _ Hs1)) as Hs2.
    set (d2 := set_kids _ d1) in *.
    assert (step 0 d d2) as Hs02 by (by eapply step_trans).
    rewrite (Forall2_length _ _ _ Hvs).
    pose proof (ext_kids_length _ _ _ (step_ext _ _ _ Hs1)).
    assert (elems_at (doc d2) (length (kids (doc d))) (length (kids (doc d1))) vs) as He.
    { eapply elems_at_grow; [exact Hvs|done|apply Hs2|done]. }
    split; [eapply step_trans; [exact Hs02|apply step_push_node, Hs02]|]. exists (CArray vs).
    eapply reads_array; [apply push_node_at|done|cbn; lia|done|]. cbn [fa].
    intros j v Hj. destruct (He j v Hj) as (k & Hk & Hr). exists k. split; [done|].
    eapply reads_extends; [|done]. eapply extends_weaken; [|apply (step_push_node 0), Hs02]. lia.
  - wp_steps. eapply wp_mono; [apply safe_countFits|]. intros [] ? ->. wp_steps.
    set (m := Z.to_nat n).
    pose proof (step_grow_kids 0 d (replicate m 0%nat) Hwf) as Hs1. set (d1 := set_kids _ d) in *.
    assert (length (kids (doc d1)) = (length (kids (doc d)) + m)%nat) as Hl.
    { cbn. by rewrite length_app, length_replicate. }
    eapply wp_mono.
    { apply (arrayFill_safe item_rec m depth d d1 [] (length (kids (doc d)))
               (length (kids (doc d)) + m)%nat); [apply Hrec; lia|exact Hs1|reflexivity|cbn; lia|lia|].
      intros ? ? H'. by rewrite lookup_nil in H'. }
    intros [] d2 (Hs2 & vs & Hlv & Hv). cbn in Hlv. rewrite <-Hlv.
    eapply add_array_safe; [done|done| |exact Hv]. lia.
Qed.

Lemma mapItem_safe n ind depth d :
  wf d → ((depth < 64)%nat → rec_ok item_rec (depth + 1)) → safe (mapItem item_rec n ind depth) (sub_post d) d.
Proof.
  intros Hwf Hrec. unfold mapItem, cborMaxDepth. case_decide; [done|]. destruct ind.
  - wp_steps. eapply wp_mono.
    { apply (mapElems_safe item_rec _ depth (length (kids (doc d))) d [] []); [apply Hrec; lia|exact Hwf|lia|lia|].
      split; [done|]. intros ? ? H'. by rewrite lookup_nil in H'. }
    intros [cnt es] d1 (Hs1 & ms & -> & Hms). cbn [fst snd] in *. wp_steps.
    pose proof (step_grow_kids 0 d1 es (step_wf _ _ _ Hs1)) as Hs2.
    set (d2 := set_kids _ d1) in *.
    assert (step 0 d d2) as Hs02 by (by eapply step_trans).
    pose proof (ext_kids_length _ _ _ (step_ext _ _ _ Hs1)).
    assert (entries_at (doc d2) (length (kids (doc d))) (length (kids (doc d1))) ms) as He.
    { eapply entries_at_grow; [exact Hms|done|apply Hs2|done]. }
    unfold finishMap. wp_steps.
    destruct (checkDistinctKeys_spec _ _ _ (entries_keys _ _ _ _ He)) as [Hok Hdup].
    rewrite length_fmap in *. destruct (decide (NoDup ms.*1)) as [Hnd|Hnd];
      [|rewrite Hdup by done; exact I].
    eapply wp_lift_ok; [by apply Hok|].
    split; [eapply step_trans; [exact Hs02|apply step_push_node, Hs02]|]. exists (CMap ms).
    eapply reads_map; [apply push_node_at|done|cbn; lia|done| |done]. cbn [fa].
    intros j m Hj. destruct (He j m Hj) as (k & kv & ? & ? & ? & Hr). exists k, kv.
    assert (extends (length (kids (doc d))) (doc d2)
              (doc (push_node (CNode itMap false (length (kids (doc d1))) (length ms) 0) d2))) as Hx.
    { eapply extends_weaken; [|apply (step_push_node 0), Hs02]. lia. }
    split_and!; [done|eapply text_at_extends; [exact Hx|done]|done|by eapply reads_extends].
  - wp_steps. eapply wp_mono; [apply safe_countFits|]. intros [] ? ->. wp_steps.
    set (m := Z.to_nat n).
    pose proof (step_grow_kids 0 d (replicate (2 * m) 0%nat) Hwf) as Hs1. set (d1 := set_kids _ d) in *.
    assert (length (kids (doc d1)) = (length (kids (doc d)) + 2 * m)%nat) as Hl.
    { cbn. by rewrite length_app, length_replicate. }
    eapply wp_mono.
    { apply (mapFill_safe item_rec m depth d d1 [] (length (kids (doc d)))
               (length (kids (doc d)) + 2 * m)%nat); [apply Hrec; lia|exact Hs1|reflexivity|cbn; lia|lia|].
      intros ? ? H'. by rewrite lookup_nil in H'. }
    intros [] d2 (Hs2 & vs & Hlv & Hv). cbn in Hlv. rewrite <-Hlv.
    eapply finishMap_safe; [done|done| |exact Hv]. lia.
Qed.

Lemma structureNames_safe depth d :
  wf d → rec_ok item_rec (depth + 1) → safe (structureNames item_rec depth) (λ names d',
    step 0 d d' ∧ names_ok (doc d') names) d.
Proof.
  intros Hwf Hrec. unfold structureNames. wp_steps.
  eapply wp_mono; [by apply safe_head|]. intros h d1 Hh. destruct (_ || _); [done|]. wp_steps.
  eapply wp_mono; [apply safe_countFits|]. intros [] ? ->. wp_steps.
  eapply wp_mono; [apply (nameItems_safe item_rec _ depth d1 [] []); [done|apply Hh|constructor]|].
  intros names d2 (Hs2 & bs & Hbs). wp_steps.
  destruct (distinct_names_spec _ _ _ ∅ Hbs) as [[e ->]|(-> & Hnd & _)]; [done|]. wp_steps.
  eapply wp_lift_ok; [done|]. wp_steps.
  split; [eapply step_trans; [apply Hh|done]|]. by exists bs.
Qed.

Lemma step_set_struct d id names :
  wf d → names_ok (doc d) names → step 0 d (set_struct id names d).
Proof.
  intros [Hp Hs] Hn. constructor; [apply extends_refl|cbn; lia|]. constructor; [done|]. cbn.
  intros id' names' [[-> ->]|[? ?]]%lookup_insert_Some; [done|eauto].
Qed.

Lemma structureDef_safe n depth d :
  wf d → rec_ok item_rec (depth + 2) → rec_ok item_rec (depth + 2 + 1) →
  safe (structureDef item_rec n depth) (λ names d', step 0 d d' ∧ names_ok (doc d') names) d.
Proof.
  intros Hwf Hr2 Hr3. unfold structureDef. destruct (n <? 2); [done|]. wp_steps.
  eapply wp_mono; [by apply Hr2|]. intros i d1 (Hs1 & _ & v & Hv).
  assert (∃ nd, nodes (doc d1) !! i = Some nd) as [nd Hn] by (inversion Hv; eauto).
  wp_steps. unfold node_at. eapply (wp_run _ _ _ _ nd d1); [unfold lift, at_index; by rewrite Hn|].
  destruct (_ || _); [done|]. wp_steps.
  eapply wp_mono; [apply structureNames_safe; [apply Hs1|done]|]. intros names d2 [Hs2 Hnames].
  destruct (negb _); [done|]. wp_steps.
  pose proof (step_set_struct d2 (extra nd - StructureTagBase) names (step_wf _ _ _ Hs2) Hnames) as Hs3.
  split; [|done]. eapply step_trans; [done|]. by eapply step_trans.
Qed.

Lemma structureRef_safe tag n d :
  wf d → safe (structureRef tag n) (λ names d', step 0 d d' ∧ names_ok (doc d') names) d.
Proof.
  intros Hwf. unfold structureRef. wp_steps. destruct (structs d !! _) as [names|] eqn:Hs; [|done].
  destruct (negb _); [done|]. wp_steps. split; [by apply step_refl|]. by eapply wf_structs.
Qed.

Lemma structureItem_safe tag depth d :
  wf d → ((depth < 63)%nat → rec_ok item_rec (depth + 2) ∧ rec_ok item_rec (depth + 2 + 1)) →
  safe (structureItem item_rec tag depth) (sub_post d) d.
Proof.
  intros Hwf Hrec. unfold structureItem, cborMaxDepth. case_decide; [done|].
  destruct Hrec as [Hr2 Hr3]; [lia|]. wp_steps.
  eapply wp_mono; [by apply safe_head|]. intros h d1 Hh. destruct (_ || _); [done|]. wp_steps.
  eapply wp_mono; [apply safe_countFits|]. intros [] ? ->. wp_steps.
  eapply wp_mono with (P := λ names d', step 0 d1 d' ∧ names_ok (doc d') names).
  { destruct (tag =? TagStructureDef); [apply structureDef_safe|apply structureRef_safe]; try done; apply Hh. }
  intros names d2 [Hs2 (bs & Hbs & Hnd)]. wp_steps. set (m := length names).
  pose proof (step_grow_kids 0 d2 (replicate (2 * m) 0%nat) (step_wf _ _ _ Hs2)) as Hs3.
  set (d3 := set_kids _ d2) in *.
  assert (length (kids (doc d3)) = (length (kids (doc d2)) + 2 * m)%nat) as Hl.
  { cbn. by rewrite length_app, length_replicate. }
  assert (step 0 d d2) as Hs02 by (eapply step_trans; [apply Hh|done]).
  eapply wp_mono; [|intros ?? H'; eapply sub_post_trans; [exact Hs02|exact H']].
  wp_steps. eapply wp_mono.
  { apply (structureFill_safe item_rec names bs depth d2 d3 [] (length (kids (doc d2)))
             (length (kids (doc d2)) + 2 * m)%nat); [done|done|done|cbn; lia|lia| |].
    - intros ? ? H'. by rewrite lookup_nil in H'.
    - eapply Forall2_impl; [done|]. intros. eapply text_at_extends; [apply Hs3|done]. }
  intros [] d4 (Hs4 & ms & Hms & Hem). cbn in Hms.
  assert (length ms = m) as Hlm.
  { rewrite <-(length_fmap fst ms), Hms. symmetry. by eapply Forall2_length. }
  rewrite <-Hlm. eapply add_map_safe; [done|done| |exact Hem|by rewrite Hms]. lia.
Qed.

Lemma bytes_leaf c lo i n v :
  reads c lo i v → nodes c !! i = Some n → item n = itBytes ∨ item n = itText →
  ∃ b, cnode_bytes c n = Ok b ∧ (item n = itBytes → fb n = length b).
Proof.
  intros H Hn Hi. inversion H as [? n' ? Hn' Hl| |]; simplify_eq; [|destruct Hi; congruence..].
  inversion Hl; simplify_eq; try (destruct Hi; congruence); eexists; split; eauto; congruence.
Qed.

Lemma leaf_of_item c lo i n v :
  reads c lo i v → nodes c !! i = Some n → item n ≠ itArray → item n ≠ itMap → leaf c n v.
Proof. intros H Hn ??. inversion H; simplify_eq; done. Qed.

(** The text of an integer node is its value's. *)
Lemma integerText_leaf c n v :
  leaf c n v →
  match v with
  | CInt z | CBig z => integerText c n = Ok (Some (dec_int z))
  | _ => integerText c n = Ok None
  end.
Proof.
  unfold integerText, at_index. intros [].
  all: repeat match goal with H : item _ = _ |- _ => rewrite H; clear H end; try done.
  - unfold dec_int. destruct (Z.ltb_spec (extra n) 0); [lia|done].
  - rewrite H0. cbn. by rewrite H1.
  - rewrite H0. done.
Qed.

Lemma tag_meaning_safe tag d i n v lo :
  wf d → nodes (doc d) !! i = Some n → reads (doc d) lo i v → 
  safe (tag_meaning parse_rfc3339 tag n) (sub_post d) d.
Proof.
  intros Hwf Hn Hv. unfold tag_meaning. wp_steps.
  destruct (_ || _).
  { case_bool_decide as Hi; cbn; [|by apply safe_add_bad].
    destruct (bytes_leaf _ _ _ _ _ Hv Hn) as (b & Hb & _); [auto|]. wp_steps.
    eapply wp_lift_ok; [done|]. by apply safe_addText_int. }
  destruct (tag =? 0).
  { case_bool_decide as Hi; cbn; [|by apply safe_add_bad].
    destruct (bytes_leaf _ _ _ _ _ Hv Hn) as (b & Hb & _); [auto|]. wp_steps.
    eapply wp_lift_ok; [done|]. wp_steps.
    destruct (parse_rfc3339 _) as [t|]; [|exact I].
    eapply wp_lift_ok; [reflexivity|]. by apply safe_addInstant. }
  destruct (tag =? 1).
  { destruct (item n); try (by apply safe_add_bad); [by apply safe_addInstant|done|].
    wp_steps. unfold instant_of_float.
    destruct (Float64frombits _); try exact I; (destruct (SFltb _ _); [exact I|]);
      (eapply wp_lift_ok; [reflexivity|]; by apply safe_addInstant). }
  destruct (tag =? 4).
  { destruct (_ && _) eqn:Hi; cbn; [|by apply safe_add_bad].
    apply andb_true_iff in Hi as [Hi%bool_decide_eq_true Hb%bool_decide_eq_true].
    inversion Hv as [? ? ? Hn' Hl|? n' vs Hn' _ _ Hfb Hvs|]; simplify_eq; [|clear Hi|congruence].
    { inversion Hl; congruence. }
    rewrite Hb in Hfb. destruct vs as [|v0 [|v1 [|]]]; try done.
    destruct (Hvs 0%nat v0 eq_refl) as (k0 & Hk0 & Hr0). destruct (Hvs 1%nat v1 eq_refl) as (k1 & Hk1 & Hr1).
    rewrite Nat.add_0_r in Hk0. wp_steps. eapply wp_lift_ok.
    { apply slice_ok. apply lookup_lt_Some in Hk1. lia. }
    replace (fa n + 2 - fa n)%nat with 2%nat by lia.
    assert (drop (fa n) (kids (doc d)) !! 0%nat = Some k0) as H0 by (by rewrite lookup_drop, Nat.add_0_r).
    assert (drop (fa n) (kids (doc d)) !! 1%nat = Some k1) as H1 by (by rewrite lookup_drop).
    destruct (drop _ _) as [|? [|? l]]; simplify_eq/=. wp_steps.
    eapply wp_lift_ok; [done|]. wp_steps. eapply wp_lift_ok; [done|]. wp_steps.
    assert (∃ n0, nodes (doc d) !! k0 = Some n0) as [n0 Hn0] by (inversion Hr0; eauto).
    assert (∃ n1, nodes (doc d) !! k1 = Some n1) as [n1 Hn1] by (inversion Hr1; eauto).
    unfold node_at. eapply (wp_run _ _ _ _ n0 d); [unfold lift, at_index; by rewrite Hn0|]. wp_steps.
    eapply (wp_run _ _ _ _ n1 d); [unfold lift, at_index; by rewrite Hn1|].
    case_bool_decide as Hi0; cbn; [|by apply safe_add_bad]. wp_steps.
    assert (∃ o, integerText (doc d) n1 = Ok o ∧ ∀ t, o = Some t → ∃ z, t = dec_int z) as (o & Ho & Hz).
    { destruct (decide (item n1 = itArray)) as [Ha|Ha];
        [|destruct (decide (item n1 = itMap)) as [Hm|Hm]].
      1,2: exists None; unfold integerText; rewrite ?Ha, ?Hm; done.
      pose proof (integerText_leaf _ _ _ (leaf_of_item _ _ _ _ _ Hr1 Hn1 Ha Hm)) as HT.
      destruct v1; eexists; (split; [exact HT|]); intros txt [=]; subst; eauto. }
    eapply wp_lift_ok; [exact Ho|]. destruct o as [t|]; [|by apply safe_add_bad].
    destruct (Hz t eq_refl) as [z ->]. by apply safe_addText_decimal. }
  destruct (tag =? 37).
  { destruct (_ && _) eqn:Hi; cbn; [|by apply safe_add_bad].
    apply andb_true_iff in Hi as [Hi%bool_decide_eq_true Hb%bool_decide_eq_true].
    destruct (bytes_leaf _ _ _ _ _ Hv Hn) as (b & Hbb & Hlen); [auto|].
    eapply safe_add_leaf; [done|]. apply leaf_uuid with (b := b); [done|exact Hbb|]. 
    rewrite <-Hlen; done. }
  destruct (tag =? 100); [|by apply safe_add_bad].
  case_bool_decide; cbn; [|by apply safe_add_bad]. eapply safe_add_leaf; [done|]. by apply leaf_date.
Qed.

Lemma tagItem_safe tag depth d :
  wf d →
  ((depth < 64)%nat → rec_ok item_rec (depth + 1)) →
  ((depth < 63)%nat → rec_ok item_rec (depth + 2) ∧ rec_ok item_rec (depth + 2 + 1)) →
  safe (tagItem parse_rfc3339 item_rec tag depth) (sub_post d) d.
Proof.
  intros Hwf Hr1 Hr2. unfold tagItem, cborMaxDepth. case_decide; [done|].
  destruct (is_structure_tag tag); [by apply structureItem_safe|]. wp_steps.
  eapply wp_mono; [apply Hr1; [lia|done]|]. intros c d1 (Hs1 & _ & v & Hv).
  assert (∃ n, nodes (doc d1) !! c = Some n) as [n Hn] by (inversion Hv; eauto).
  wp_steps. unfold node_at. eapply (wp_run _ _ _ _ n d1); [unfold lift, at_index; by rewrite Hn|].
  eapply wp_mono; [by eapply tag_meaning_safe; [apply Hs1| |]|].
  intros. by eapply sub_post_trans.
Qed.

Lemma item_body_safe depth d :
  wf d →
  ((depth < 64)%nat → rec_ok item_rec (depth + 1)) →
  ((depth < 63)%nat → rec_ok item_rec (depth + 2) ∧ rec_ok item_rec (depth + 2 + 1)) →
  safe (item_body parse_rfc3339 item_rec depth) (item_post d) d.
Proof.
  intros Hwf Hr1 Hr2. unfold item_body. wp_steps.
  eapply wp_mono; [by apply safe_head|]. intros h d1 [Hs Hd Hst Hp Hv Hm].
  assert (wf d1) as Hwf1 by apply Hs.
  assert (∀ m : dec nat, safe m (sub_post d1) d1 → safe m (item_post d) d1) as Hgo.
  { intros m H. eapply wp_mono; [exact H|]. intros. by eapply item_post_intro. }
  destruct (_ || _); [by apply Hgo, safe_intItem|].
  destruct (_ || _) eqn:E.
  { apply Hgo, safe_stringItem; [done|lia|].
    apply orb_true_iff in E as [E|E]; apply Z.eqb_eq in E; auto. }
  destruct (major h =? 4); [by apply Hgo, arrayItem_safe|].
  destruct (major h =? 5); [by apply Hgo, mapItem_safe|].
  destruct (major h =? 6); [|by apply Hgo, safe_simpleItem].
  destruct (indef h); [done|]. by apply Hgo, tagItem_safe.
Qed.
End containers.

Lemma item_at_safe p fuel depth d :
  wf d → (depth ≤ 65)%nat → (66 ≤ fuel + depth)%nat →
  safe (item_at p fuel depth) (item_post d) d.
Proof.
  revert depth d. induction fuel as [|fuel IH]; intros depth d Hwf Hd Hf; [lia|].
  cbn [item_at]. apply item_body_safe; [done| |].
  - intros ? d' ?. apply IH; [done|lia|lia].
  - intros ?. split; intros d' ?; apply IH; try done; lia.
Qed.

(** The two outcomes of [NewCBORNode]. *)
Lemma NewCBORNode_cases (parse_rfc3339 : string → option instant) (bs : bytes) :
  (∃ c i v, NewCBORNode parse_rfc3339 bs = Ok (c, i) ∧ data c = bs ∧ reads c 0 i v) ∨
  (∃ e, NewCBORNode parse_rfc3339 bs = Err e).
Proof.
  set (d0 := CborDecoder (CborDoc bs [] [] [] [] []) 0 ∅).
  assert (wf d0) as Hwf by (constructor; cbn; [lia|done]).
  pose proof (item_at_safe parse_rfc3339 67 0 d0 Hwf ltac:(lia) ltac:(lia)) as H.
  unfold NewCBORNode. change item_fuel with 67%nat. fold d0.
  unfold wp in H. destruct (item_at _ _ _ d0) as [[i d']|e| |]; [|by right; eexists|done|done].
  destruct H as (Hs & _ & v & Hv). case_bool_decide; cbn [negb]; [left|by right; eexists].
  exists (doc d'), i, v. split_and!; [done|apply Hs|done].
Qed.

