(* ===== verification/CborRoundTrip.v ===== *)
(** What the encoder writes, the adapter reads back: the value-level contract
    between [src/cborenc/encode.go] and [src/query/node_cbor.go]. *)
From Stdlib Require Import ZArith Lia SpecFloat Ascii Strings.Byte.
From S2P Require Import Prelude Cbor CborNode CborNodeFacts CborNodeSafe.
Set Warnings "-register-all".

(** * Integers written from their digits *)

(** The encoding of an integer of any size: major type 0 or 1 within 64 bits,
    a bignum beyond. *)
Definition append_int (dst : bytes) (z : Z) : bytes :=
  if 0 <=? z then
    if z <? 2 ^ 64 then AppendHead dst 0 z
    else AppendBytes (AppendTag dst TagPositiveBignum) (big_bytes z)
  else
    if - 2 ^ 64 <=? z then AppendHead dst 1 (-1 - z)
    else AppendBytes (AppendTag dst TagNegativeBignum) (big_bytes (-1 - z)).

Definition signed (neg : bool) (z : Z) : Z := if neg then - z else z.

Lemma dec_value_bound s : all_digits s = true → 0 ≤ dec_value s < 10 ^ Z.of_nat (String.length s).
Proof.
  induction s as [|c s IH]; [done|]. cbn [all_digits string_forallb]. intros [Hc Hs]%andb_true_iff.
  rewrite dec_value_cons. cbn [String.length]. rewrite Nat2Z.inj_succ, Z.pow_succ_r by lia.
  apply is_digit_range in Hc. specialize (IH Hs). nia.
Qed.

Lemma digits_u64_spec s v :
  all_digits s = true → 0 ≤ v → v * 10 ^ Z.of_nat (String.length s) + dec_value s < 2 ^ 64 →
  digits_u64 v s = v * 10 ^ Z.of_nat (String.length s) + dec_value s.
Proof.
  revert v. induction s as [|c s IH]; intros v Hs Hv Hlt; cbn [digits_u64 String.length] in *.
  { rewrite Z.pow_0_r. unfold dec_value; cbn. lia. }
  cbn [all_digits string_forallb] in Hs. apply andb_true_iff in Hs as [Hc Hs].
  apply is_digit_range in Hc. pose proof (dec_value_bound s Hs) as Hb.
  rewrite dec_value_cons in *. rewrite Nat2Z.inj_succ, Z.pow_succ_r in * by lia.
  pose proof (Z.pow_pos_nonneg 10 (Z.of_nat (String.length s)) ltac:(lia) ltac:(lia)) as Hp.
  rewrite (Z.mod_small (digit_val c)) by lia.
  unfold u64. rewrite Z.mod_small by nia. rewrite IH; [ring|done|lia|]. nia.
Qed.

Lemma trim_left_zeros_spec s :
  all_digits s = true →
  all_digits (trim_left_zeros s) = true ∧ dec_value (trim_left_zeros s) = dec_value s ∧
  (trim_left_zeros s = "" → dec_value s = 0) ∧
  (trim_left_zeros s ≠ "" → 0 < dec_value s).
Proof.
  induction s as [|c s IH]; [done|]. intros Hs. pose proof Hs as Hs'.
  cbn [all_digits string_forallb] in Hs. apply andb_true_iff in Hs as [Hc Hs].
  destruct (IH Hs) as (H1 & H2 & H3 & H4). pose proof (dec_value_bound s Hs) as Hb.
  destruct (decide (c = "0"%char)) as [->|Hne].
  - change (trim_left_zeros (String "0" s)) with (trim_left_zeros s).
    rewrite dec_value_cons. change (digit_val "0") with 0. rewrite Z.mul_0_l. auto.
  - assert (trim_left_zeros (String c s) = String c s) as ->.
    { destruct c as [[] [] [] [] [] [] [] []]; try done. }
    split_and!; [done|done|done|]. intros _. rewrite dec_value_cons.
    assert (digit_val c ≠ 0) as Hnz.
    { intros H0. apply Hne. unfold digit_val, char_code in H0.
      assert (nat_of_ascii c = 48%nat) as Hn by lia.
      rewrite <-(ascii_nat_embedding c), Hn. done. }
    apply is_digit_range in Hc. nia.
Qed.

Lemma SetString10_digits s :
  all_digits s = true → s ≠ "" → SetString10 s = Some (dec_value s).
Proof.
  intros Hs Hne. unfold SetString10.
  assert ((match s with
           | String "-"%char r => (true, r) | String "+"%char r => (false, r) | _ => (false, s) end) = (false, s)) as ->.
  { destruct s as [|c s]; [done|]. cbn in Hs. apply andb_true_iff in Hs as [Hc _].
    destruct c as [[] [] [] [] [] [] [] []]; try done; vm_compute in Hc; done. }
  destruct (String.eqb_spec s ""); [done|]. by rewrite Hs.
Qed.

Lemma strip_minus_digits s :
  all_digits s = true →
  (match s with String "-"%char r => (true, r) | _ => (false, s) end) = (false, s).
Proof.
  destruct s as [|c s]; [done|]. cbn. intros [Hc _]%andb_true_iff.
  destruct c as [[] [] [] [] [] [] [] []]; try done; vm_compute in Hc; done.
Qed.

(** The body of [AppendInteger] once the sign is cut. *)
Lemma AppendInteger_digits dst neg s :
  all_digits s = true →
  AppendInteger dst (if neg : bool then String "-" s else s) = Ok (append_int dst (signed neg (dec_value s))).
Proof.
  intros Hs. unfold AppendInteger.
  replace (match (if neg then String "-" s else s) with
    | String "-"%char r => (true, r) | _ => (false, if neg then String "-" s else s) end)
    with (neg, s) by (destruct neg; [done|by rewrite strip_minus_digits]).
  destruct (trim_left_zeros_spec s Hs) as (Ht & Hv & Hz & Hnz). rewrite <-Hv in *.
  set (t := trim_left_zeros s) in *. pose proof (dec_value_bound t Ht) as Hb.
  destruct (String.eqb_spec t "") as [He|Hne].
  { rewrite (Hz He). by destruct neg. }
  specialize (Hnz Hne). destruct (Nat.leb_spec (String.length t) 19) as [Hl|Hl].
  - assert (dec_value t < 10 ^ 19) as Hlt.
    { eapply Z.lt_le_trans; [apply Hb|]. apply Z.pow_le_mono_r; lia. }
    rewrite digits_u64_spec by (try done; lia). rewrite Z.mul_0_l, Z.add_0_l.
    unfold append_int, AppendUint. destruct neg; cbn [negb signed].
    + destruct (Z.leb_spec 0 (- dec_value t)); [lia|].
      destruct (Z.leb_spec (- 2 ^ 64) (- dec_value t)); [|lia].
      unfold u64. rewrite Z.mod_small by lia. do 2 f_equal. lia.
    + destruct (Z.leb_spec 0 (dec_value t)); [|lia]. destruct (Z.ltb_spec (dec_value t) (2 ^ 64)); [done|lia].
  - rewrite SetString10_digits by done. unfold append_int, AppendUint, is_u64.
    set (z := dec_value t) in *. destruct neg; cbn [negb signed andb].
    + destruct (Z.leb_spec 0 (- z)); [lia|]. replace (-1 - - z) with (z - 1) by lia.
      destruct (Z.leb_spec 0 (z - 1)); [|lia].
      destruct (Z.ltb_spec (z - 1) (2 ^ 64)), (Z.leb_spec (- 2 ^ 64) (- z)); try lia; done.
    + destruct (Z.leb_spec 0 z); [|lia]. by destruct (Z.ltb_spec z (2 ^ 64)).
Qed.

Lemma AppendInteger_dec_int dst z : AppendInteger dst (dec_int z) = Ok (append_int dst z).
Proof.
  unfold dec_int. destruct (Z.ltb_spec z 0).
  - rewrite (AppendInteger_digits dst true) by (apply dec_nat_digits; lia).
    unfold signed. rewrite dec_nat_value by lia. by rewrite Z.opp_involutive.
  - rewrite (AppendInteger_digits dst false) by (apply dec_nat_digits; lia).
    unfold signed. by rewrite dec_nat_value by lia.
Qed.

(** * Values and their encoding *)

(** A value written with the encoder's operations, a container's head first. *)
Fixpoint append_value (dst : bytes) (v : cval) {struct v} : outcome bytes :=
  match v with
  | CNull => Ok (AppendNull dst)
  | CBool b => Ok (AppendBool dst b)
  | CInt z | CBig z => AppendInteger dst (dec_int z)
  | CFloat bits => Ok (AppendFloat64 dst bits)
  | CDecimal m e => AppendDecimal dst (dec_int m) e
  | CText s => Ok (AppendTextBytes dst s)
  | CBytes s => Ok (AppendBytes dst s)
  | CArray vs =>
      (fix go dst vs {struct vs} :=
         match vs with
         | [] => Ok dst
         | v :: vs => dst ← append_value dst v; go dst vs
         end) (AppendArrayHead dst (length vs)) vs
  | CMap ms =>
      (fix go dst ms {struct ms} :=
         match ms with
         | [] => Ok dst
         | (k, v) :: ms => dst ← append_value (AppendTextBytes dst k) v; go dst ms
         end) (AppendMapHead dst (length ms)) ms
  | CInstant t => Ok (AppendEpoch dst (unix_sec t) 0)
  | CDate days => Ok (AppendEpochDate dst days)
  | CUUID s => Ok (AppendUUID dst s)
  | CBadTag tag => Err (Error "" "not a value")
  end.

Fixpoint append_values (dst : bytes) (vs : list cval) : outcome bytes :=
  match vs with
  | [] => Ok dst
  | v :: vs => dst ← append_value dst v; append_values dst vs
  end.
Fixpoint append_members (dst : bytes) (ms : list (bytes * cval)) : outcome bytes :=
  match ms with
  | [] => Ok dst
  | (k, v) :: ms => dst ← append_value (AppendTextBytes dst k) v; append_members dst ms
  end.

Lemma append_array dst vs :
  append_value dst (CArray vs) = append_values (AppendArrayHead dst (length vs)) vs.
Proof.
  cbn. generalize (AppendArrayHead dst (length vs)). clear dst.
  induction vs as [|v vs IH]; intros dst; cbn; [done|].
  destruct (append_value dst v); cbn; auto.
Qed.
Lemma append_map dst ms :
  append_value dst (CMap ms) = append_members (AppendMapHead dst (length ms)) ms.
Proof.
  cbn. generalize (AppendMapHead dst (length ms)). clear dst.
  induction ms as [|[k v] ms IH]; intros dst; cbn; [done|].
  destruct (append_value _ v); cbn; auto.
Qed.

(** A length a Go slice can have. *)
Definition small (n : nat) : bool := Z.of_nat n <? 2 ^ 63.
Definition fits64 (z : Z) : bool := (- 2 ^ 64 <=? z) && (z <? 2 ^ 64).

(** A bignum is a tagged string. *)
Definition big_ok (n : nat) (z : Z) : bool :=
  (1 <=? n)%nat && small (length (big_bytes (if 0 <=? z then z else -1 - z))).

(** The values that can be encoded within [n] levels of nesting: text is valid
    UTF-8, keys differ, machine integers are in range, an instant is in whole
    seconds (a fraction goes through a double). *)
Fixpoint encodable (n : nat) (v : cval) : bool :=
  match v with
  | CNull | CBool _ => true
  | CInt z => fits64 z
  | CBig z => negb (fits64 z) && big_ok n z
  | CFloat bits => is_u64 bits
  | CDecimal m e => (2 <=? n)%nat && (fits64 m || big_ok (n - 2) m) && is_i64 e
  | CText s => utf8_valid s && small (length s)
  | CBytes s => small (length s)
  | CArray vs =>
      match n with
      | O => false
      | S n => small (length vs) && forallb (encodable n) vs
      end
  | CMap ms =>
      match n with
      | O => false
      | S n =>
          small (length ms) && bool_decide (NoDup ms.*1) &&
          forallb (λ m, utf8_valid m.1 && small (length m.1) && encodable n m.2) ms
      end
  | CInstant t => (1 <=? n)%nat && (unix_nsec t =? 0) && is_i64 (unix_sec t)
  | CDate days => (1 <=? n)%nat && is_i64 days
  | CUUID s => (1 <=? n)%nat && bool_decide (length s = 16)%nat
  | CBadTag _ => false
  end.

(** ** Appending keeps what was written *)

Create HintDb append.

Lemma prefix_app_l' {A} (l k k' : list A) : l `prefix_of` k → l `prefix_of` k ++ k'.
Proof. intros. by apply prefix_app_r. Qed.

Lemma prefix_step {A} (l k k' : list A) : k `prefix_of` k' → l `prefix_of` k → l `prefix_of` k'.
Proof. intros. by etrans. Qed.

Lemma AppendHead_prefix l dst m v : l `prefix_of` dst → l `prefix_of` AppendHead dst m v.
Proof. apply prefix_step. unfold AppendHead. repeat case_match; by eexists. Qed.
Lemma AppendInt_prefix l dst v : l `prefix_of` dst → l `prefix_of` AppendInt dst v.
Proof. intros. unfold AppendInt. case_match; by apply AppendHead_prefix. Qed.
Lemma AppendBytes_prefix l dst b : l `prefix_of` dst → l `prefix_of` AppendBytes dst b.
Proof. intros. by apply prefix_app_l', AppendHead_prefix. Qed.
Lemma AppendTextBytes_prefix l dst b : l `prefix_of` dst → l `prefix_of` AppendTextBytes dst b.
Proof. intros. by apply prefix_app_l', AppendHead_prefix. Qed.
Lemma append_int_prefix l dst z : l `prefix_of` dst → l `prefix_of` append_int dst z.
Proof.
  intros. unfold append_int, AppendTag.
  repeat case_match; auto using AppendHead_prefix, AppendBytes_prefix.
Qed.
Lemma AppendBool_prefix l dst b : l `prefix_of` dst → l `prefix_of` AppendBool dst b.
Proof. intros. destruct b; by apply prefix_app_l'. Qed.
Lemma AppendEpoch_prefix l dst sec : l `prefix_of` dst → l `prefix_of` AppendEpoch dst sec 0.
Proof. intros. unfold AppendEpoch. rewrite Z.eqb_refl. by apply AppendInt_prefix, AppendHead_prefix. Qed.
Lemma prefix_refl' {A} (l : list A) : l `prefix_of` l.
Proof. done. Qed.
#[export] Hint Resolve prefix_refl' prefix_app_l' AppendHead_prefix AppendInt_prefix AppendBytes_prefix
  AppendTextBytes_prefix append_int_prefix AppendBool_prefix AppendEpoch_prefix : append.
Lemma AppendHead_len l dst m v : (l ≤ length dst)%nat → (l < length (AppendHead dst m v))%nat.
Proof. intros. unfold AppendHead. repeat case_match; rewrite length_app; cbn; lia. Qed.
Lemma app_len {A} l (k k' : list A) : (l < length k)%nat → (l < length (k ++ k'))%nat.
Proof. rewrite length_app. lia. Qed.
Lemma AppendInt_len l dst v : (l ≤ length dst)%nat → (l < length (AppendInt dst v))%nat.
Proof. intros. unfold AppendInt. case_match; by apply AppendHead_len. Qed.
Lemma AppendBytes_len l dst b : (l ≤ length dst)%nat → (l < length (AppendBytes dst b))%nat.
Proof. intros. by apply app_len, AppendHead_len. Qed.
Lemma AppendTextBytes_len l dst b : (l ≤ length dst)%nat → (l < length (AppendTextBytes dst b))%nat.
Proof. intros. by apply app_len, AppendHead_len. Qed.
Lemma append_int_len l dst z : (l ≤ length dst)%nat → (l < length (append_int dst z))%nat.
Proof.
  intros. unfold append_int, AppendTag.
  repeat case_match; auto using AppendHead_len, AppendBytes_len, Nat.lt_le_incl.
Qed.
Lemma AppendBool_len l dst b : (l ≤ length dst)%nat → (l < length (AppendBool dst b))%nat.
Proof. intros. destruct b; cbn; rewrite length_app; cbn; lia. Qed.
Lemma AppendEpoch_len l dst sec : (l ≤ length dst)%nat → (l < length (AppendEpoch dst sec 0))%nat.
Proof. intros. unfold AppendEpoch. rewrite Z.eqb_refl. by apply AppendInt_len, Nat.lt_le_incl, AppendHead_len. Qed.
Lemma snoc_len {A} l (k : list A) x k' : (l ≤ length k)%nat → (l < length (k ++ x :: k'))%nat.
Proof. rewrite length_app. cbn. lia. Qed.
#[export] Hint Resolve AppendHead_len AppendInt_len AppendBytes_len AppendTextBytes_len append_int_len
  AppendBool_len AppendEpoch_len snoc_len app_len Nat.lt_le_incl Nat.le_refl : append.

Ltac append_tac :=
  unfold AppendUint, AppendUUID, AppendEpochDate, AppendTag, AppendArrayHead, AppendMapHead,
    AppendNull, AppendFloat64; auto 10 with append.

Lemma append_decimal_spec dst m e :
  AppendDecimal dst (dec_int m) e
  = Ok (append_int (AppendInt (AppendArrayHead (AppendTag dst TagDecimal) 2) e) m).
Proof. apply AppendInteger_dec_int. Qed.

(** Appending succeeds on an encodable value. *)
Definition appends (v : cval) : Prop :=
  ∀ dst, ∃ out, append_value dst v = Ok out ∧ dst `prefix_of` out ∧ (length dst < length out)%nat.

Lemma append_values_ok vs dst :
  Forall appends vs → ∃ out, append_values dst vs = Ok out ∧ dst `prefix_of` out ∧
    (length dst + length vs ≤ length out)%nat.
Proof.
  intros H. revert dst. induction H as [|v vs Hv H IH]; intros dst; cbn; [eexists; split_and!; [done|done|lia]|].
  destruct (Hv dst) as (d1 & -> & ? & ?). cbn. destruct (IH d1) as (out & -> & ? & ?).
  exists out. split_and!; [done|by etrans|lia].
Qed.
Lemma append_members_ok ms dst :
  Forall (λ m, appends m.2) ms → ∃ out, append_members dst ms = Ok out ∧ dst `prefix_of` out ∧
    (length dst + 2 * length ms ≤ length out)%nat.
Proof.
  intros H. revert dst. induction H as [|[k v] ms Hv H IH]; intros dst; cbn; [eexists; split_and!; [done|done|lia]|].
  cbn in Hv. destruct (Hv (AppendTextBytes dst k)) as (d1 & -> & ? & ?). cbn. destruct (IH d1) as (out & -> & ? & ?).
  pose proof (AppendTextBytes_len (length dst) dst k ltac:(done)).
  exists out. split_and!; [done| |lia].
  eapply prefix_step; [done|]. eapply prefix_step; [done|]. append_tac.
Qed.

Lemma forallb_Forall' {A} (f : A → bool) l : forallb f l = true ↔ Forall (λ x, f x = true) l.
Proof. rewrite forallb_forall, List.Forall_forall. done. Qed.

Lemma append_value_ok n v : encodable n v = true → appends v.
Proof.
  revert v. induction n as [|n IH]; intros v Hv dst; destruct v; cbn in Hv; try done;
    rewrite ?append_array, ?append_map; cbn [append_value];
    rewrite ?AppendInteger_dec_int, ?append_decimal_spec.
  all: try (eexists; (split_and!; [reflexivity|append_tac|append_tac]); fail).
  - apply andb_true_iff in Hv as [_ Hv]. apply forallb_Forall' in Hv.
    destruct (append_values_ok vs (AppendArrayHead dst (length vs))) as (out & H & ? & ?).
    { eapply Forall_impl; [done|]. intros. by apply IH. }
    exists out. split_and!; [done|eapply prefix_step; [done|]; append_tac|].
    eapply Nat.lt_le_trans; [apply AppendHead_len; reflexivity|].  etrans; [|done]. apply Nat.le_add_r.
  - apply andb_true_iff in Hv as [_ Hv]. apply forallb_Forall' in Hv.
    destruct (append_members_ok ms (AppendMapHead dst (length ms))) as (out & H & ? & ?).
    { eapply Forall_impl; [done|]. intros ? [_ ?]%andb_true_iff. by apply IH. }
    exists out. split_and!; [done|eapply prefix_step; [done|]; append_tac|].
    eapply Nat.lt_le_trans; [apply AppendHead_len; reflexivity|].  etrans; [|done]. apply Nat.le_add_r.
Qed.

(** * Reading *)

(** The decoder stands at the end of [dst], and [out] lies in the data. *)
Definition at_out (d : cborDecoder) (dst out : bytes) : Prop :=
  wf d ∧ pos d = length dst ∧ dst `prefix_of` out ∧ out `prefix_of` data (doc d).

Lemma initial_byte m a :
  0 ≤ m < 8 → 0 ≤ a < 32 →
  bz (zb (Z.lor ((m ≪ 5) `mod` 256) a)) ≫ 5 = m ∧
  Z.land (bz (zb (Z.lor ((m ≪ 5) `mod` 256) a))) 31 = a.
Proof.
  intros Hm Ha.
  assert (forallb (λ m, forallb (λ a,
      let b := bz (zb (Z.lor ((Z.of_nat m ≪ 5) `mod` 256) (Z.of_nat a))) in
      (b ≫ 5 =? Z.of_nat m) && (Z.land b 31 =? Z.of_nat a)) (seq 0 32)) (seq 0 8) = true)
    as H by (vm_compute; reflexivity).
  rewrite forallb_forall in H. specialize (H (Z.to_nat m) ltac:(apply in_seq; lia)).
  rewrite forallb_forall in H. specialize (H (Z.to_nat a) ltac:(apply in_seq; lia)).
  rewrite !Z2Nat.id in H by lia. apply andb_true_iff in H as [H1 H2].
  apply Z.eqb_eq in H1, H2. auto.
Qed.

Lemma slice_written {A} (l dst k : list A) n :
  dst ++ k `prefix_of` l → n = length k → slice l (length dst) (length dst + n) = Ok k.
Proof.
  intros [r ->] ->. rewrite slice_ok by (rewrite !length_app; lia).
  replace (length dst + length k - length dst)%nat with (length k) by lia.
  by rewrite <-app_assoc, drop_app_length, take_app_length.
Qed.

Lemma lookup_written {A} (l dst k : list A) x :
  dst ++ x :: k `prefix_of` l → at_index l (length dst) = Ok x.
Proof.
  intros [r ->]. unfold at_index. rewrite <-app_assoc. cbn. by rewrite list_lookup_middle.
Qed.

Lemma prefix_length {A} (l k : list A) : l `prefix_of` k → (length l ≤ length k)%nat.
Proof. intros [r ->]. rewrite length_app. lia. Qed.

(** The argument that follows an initial byte. *)
Lemma read_arg_written d dst n v :
  wf d → pos d = length dst → dst ++ be_bytes n v `prefix_of` data (doc d) →
  0 ≤ v < 256 ^ Z.of_nat n →
  wp no_error (read_arg n) (λ v' d', v' = v ∧ d' = set_pos (length dst + n) d) d.
Proof.
  intros Hwf Hp Hpre Hv. pose proof (prefix_length _ _ Hpre) as Hl.
  rewrite length_app, length_be_bytes in Hl. unfold read_arg. wp_steps.
  rewrite decide_False by (unfold remaining; lia). wp_steps. rewrite Hp.
  eapply wp_lift_ok; [apply slice_written; [done|by rewrite length_be_bytes]|]. wp_steps.
  by rewrite be_value_be_bytes_small.
Qed.

(** An initial byte with an additional information, then its argument. *)
Lemma head_initial (Q : cborHead → cborDecoder → Prop) d dst m a k :
  wf d → pos d = length dst → dst ++ zb (Z.lor ((m ≪ 5) `mod` 256) a) :: k `prefix_of` data (doc d) →
  0 ≤ m < 8 → 0 ≤ a < 28 →
  (if a <? 24 then Q (CborHead m a a false) (set_pos (length dst + 1) d)
   else wp no_error (read_arg (Z.to_nat (1 ≪ (a - 24))))
          (λ v d', Q (CborHead m a v false) d') (set_pos (length dst + 1) d)) →
  wp no_error head Q d.
Proof.
  intros Hwf Hp Hpre Hm Ha HQ. pose proof (prefix_length _ _ Hpre) as Hl.
  rewrite length_app in Hl. cbn in Hl. unfold head. wp_steps.
  rewrite decide_False by (unfold remaining; lia). wp_steps. rewrite Hp.
  eapply wp_lift_ok; [by eapply lookup_written|]. wp_steps.
  destruct (initial_byte m a) as [-> ->]; [done|lia|].
  destruct (Z.ltb_spec a 24) as [|Hge]; [by wp_steps|].
  assert (((a =? 24) || (a =? 25) || (a =? 26) || (a =? 27)) = true) as -> by lia.
  wp_steps. eapply wp_mono; [exact HQ|]. intros. by wp_steps.
Qed.

Lemma head_written d dst m v out :
  at_out d dst out → AppendHead dst m v `prefix_of` out → 0 ≤ m < 8 → 0 ≤ v < 2 ^ 64 →
  wp no_error head (λ h d', (∃ a, h = CborHead m a v false) ∧ step 0 d d' ∧ doc d' = doc d ∧
    at_out d' (AppendHead dst m v) out) d.
Proof.
  intros (Hwf & Hp & Hd & Ho) Hh Hm Hv.
  assert (AppendHead dst m v `prefix_of` data (doc d)) as Hpre by (by etrans).
  pose proof (prefix_length _ _ Hpre) as Hl.
  assert (∀ p, p = length (AppendHead dst m v) → step 0 d (set_pos p d) ∧
    doc (set_pos p d) = doc d ∧ at_out (set_pos p d) (AppendHead dst m v) out) as Hend.
  { intros p ->. assert (step 0 d (set_pos (length (AppendHead dst m v)) d)) as Hs.
    { apply step_set_pos; [done|]. split; [|done]. rewrite Hp. apply prefix_length. append_tac. }
    split_and!; [done|done|]. split_and!; [apply Hs|done|done|done]. }
  assert (step 0 d (set_pos (length dst + 1) d)) as Hs1.
  { apply step_set_pos; [done|]. rewrite Hp. split; [lia|].
    etrans; [|exact Hl]. unfold AppendHead. repeat case_match; rewrite length_app; cbn; lia. }
  assert (∀ a n, AppendHead dst m v = dst ++ zb (Z.lor ((m ≪ 5) `mod` 256) a) :: be_bytes n v →
    24 ≤ a < 28 → n = Z.to_nat (1 ≪ (a - 24)) → v < 256 ^ Z.of_nat n →
    wp no_error head (λ h d', (∃ a, h = CborHead m a v false) ∧ step 0 d d' ∧ doc d' = doc d ∧
      at_out d' (AppendHead dst m v) out) d) as Hwide.
  { intros a n Ha Hr -> Hlt.
    eapply (head_initial _ d dst m a); [done|done|by rewrite <-Ha|done|lia|].
    destruct (Z.ltb_spec a 24); [lia|]. eapply wp_mono.
    { apply (read_arg_written _ (dst ++ [zb (Z.lor ((m ≪ 5) `mod` 256) a)]) _ v);
        [apply Hs1|cbn; rewrite length_app; cbn; lia| |lia].
      cbn. rewrite <-app_assoc. cbn. by rewrite <-Ha. }
    intros v' d' [-> ->]. split; [eauto|]. change (set_pos ?p (set_pos _ d)) with (set_pos p d).
    apply Hend. rewrite Ha, !length_app. cbn. rewrite length_be_bytes. lia. }
  unfold AppendHead in Hwide |- *. 
  destruct (Z.ltb_spec v 24); [|destruct (Z.leb_spec v 255); [|destruct (Z.leb_spec v 65535);
    [|destruct (Z.leb_spec v 4294967295)]]].
  - unfold AppendHead in Hend, Hpre. destruct (Z.ltb_spec v 24); [|lia].
    eapply (head_initial _ d dst m v []); [done|done|exact Hpre|done|lia|].
    destruct (Z.ltb_spec v 24); [|lia]. split; [eauto|]. apply Hend. rewrite length_app. cbn. lia.
  - assert (be_bytes 1 v = [zb v]) as Hb.
    { cbn [be_bytes]. change (8 * Z.of_nat 0) with 0. by rewrite Z.shiftr_0_r. }
    eapply (Hwide 24 1%nat); rewrite ?Hb; try done; lia.
  - eapply (Hwide 25 2%nat); try done; lia.
  - eapply (Hwide 26 4%nat); try done; lia.
  - eapply (Hwide 27 8%nat); try done; lia.
Qed.

Lemma at_out_step d dst out d' end_ :
  at_out d dst out → step 0 d d' → pos d' = length end_ → end_ `prefix_of` out → at_out d' end_ out.
Proof.
  intros (Hwf & Hp & Hd & Ho) Hs Hp' He. split_and!; [apply Hs|done|done|].
  by rewrite (ext_data _ _ _ (step_ext _ _ _ Hs)).
Qed.

(** An item read as [v], the decoder left at [end_]. *)
Definition item_read (m : dec nat) (d : cborDecoder) (v : cval) (end_ out : bytes) : Prop :=
  wp no_error m (λ i d', sub_val d v i d' ∧ at_out d' end_ out) d.

Lemma leaf_read d dst out n v :
  at_out d dst out → leaf (doc d) n v → item_read (add n) d v dst out.
Proof.
  intros Hd Hl. pose proof Hd as (Hwf & Hp & _ & _).
  pose proof (add_leaf (E := no_error) d n v Hwf Hl) as H.
  split; [exact H|]. split_and!; [apply H|done|apply Hd|apply Hd].
Qed.

(** A string, its head already read. *)
Lemma string_read d dst s out m :
  at_out d dst out → dst ++ s `prefix_of` out → (m = 2 ∨ m = 3) →
  (m = 3 → utf8_valid s = true) →
  item_read (stringItem m (Z.of_nat (length s)) false) d (if m =? 3 then CText s else CBytes s)
    (dst ++ s) out.
Proof.
  intros Hd Hs Hm Hu. pose proof Hd as (Hwf & Hp & _ & Ho).
  assert (dst ++ s `prefix_of` data (doc d)) as Hpre by (by etrans).
  pose proof (prefix_length _ _ Hpre) as Hl. rewrite length_app in Hl.
  unfold stringItem, item_read. wp_steps. cbn [negb].
  destruct (Z.ltb_spec (Z.of_nat (remaining d)) (Z.of_nat (length s))); [unfold remaining in *; lia|].
  rewrite Nat2Z.id. wp_steps. set (d1 := set_pos _ d).
  assert (step 0 d d1) as Hs1 by (apply step_set_pos; [done|lia]).
  assert (at_out d1 (dst ++ s) out) as Hd1.
  { eapply at_out_step; [exact Hd|done|cbn; rewrite length_app; lia|done]. }
  eapply wp_lift_ok; [rewrite Hp; by apply slice_written|].
  assert (((m =? 3) && negb (utf8_valid s)) = false) as ->.
  { destruct (Z.eqb_spec m 3); [by rewrite Hu|done]. }
  assert (∀ it, cnode_bytes (doc d1) (CNode it false (pos d) (length s) 0) = Ok s) as Hb.
  { intros it. unfold cnode_bytes. cbn. rewrite Hp. by apply slice_written. }
  eapply wp_mono.
  - apply (leaf_read d1 (dst ++ s) out _ (if m =? 3 then CText s else CBytes s)); [done|].
    destruct (Z.eqb_spec m 3).
    + apply leaf_text with (b := s); [done|done|auto].
    + by apply leaf_bytes with (b := s).
  - intros i d' [Hv Hd']. split; [by eapply sub_val_trans|done].
Qed.

(** The position of an item among the kinds: a head of the kind, then the body. *)
Lemma item_after_head p fuel depth d dst out m v (Q : nat → cborDecoder → Prop) :
  at_out d dst out → AppendHead dst m v `prefix_of` out → 0 ≤ m < 8 → 0 ≤ v < 2 ^ 64 →
  (∀ d1 a, step 0 d d1 → doc d1 = doc d → at_out d1 (AppendHead dst m v) out →
     wp no_error
       (if (m =? 0) || (m =? 1) then intItem (CborHead m a v false)
        else if (m =? 2) || (m =? 3) then stringItem m v false
        else if m =? 4 then arrayItem (item_at p fuel) v false depth
        else if m =? 5 then mapItem (item_at p fuel) v false depth
        else if m =? 6 then tagItem p (item_at p fuel) v depth
        else simpleItem a v false) Q d1) →
  wp no_error (item_at p (S fuel) depth) Q d.
Proof.
  intros Hd Hh Hm Hv HQ. cbn [item_at]. unfold item_body. wp_steps.
  eapply wp_mono; [by apply (head_written d dst m v out)|].
  intros h d1 ([a ->] & Hs & Hdoc & Hd1). cbn. by apply HQ.
Qed.

(** An integer within 64 bits. *)
Lemma int_read p fuel depth d dst out z :
  at_out d dst out → fits64 z = true → append_int dst z `prefix_of` out →
  item_read (item_at p (S fuel) depth) d (CInt z) (append_int dst z) out.
Proof.
  intros Hd Hz Hpre. unfold fits64, append_int, item_read in *.
  apply andb_true_iff in Hz as [Hz1%Z.leb_le Hz2%Z.ltb_lt].
  destruct (Z.leb_spec 0 z).
  - destruct (Z.ltb_spec z (2 ^ 64)); [|lia].
    eapply item_after_head; [exact Hd|done|lia|lia|].
    intros d1 a Hs Hdoc Hd1. cbn. unfold intItem. cbn.
    eapply wp_mono with (P := λ i d', sub_val d1 (CInt z) i d' ∧ at_out d' (AppendHead dst 0 z) out);
      [|intros ?? [? ?]; split; [by eapply sub_val_trans|done]].
    destruct (Z.ltb_spec MaxInt64 z); (apply leaf_read; [done|]).
    + apply leaf_uint; [done|]. cbn. unfold MaxInt64 in *. lia.
    + replace z with (i64 z) at 2 by (unfold i64, MaxInt64 in *; destruct (Z.ltb_spec z (2^63)); lia).
      apply leaf_int; [done|cbn; lia].
  - destruct (Z.leb_spec (- 2 ^ 64) z); [|lia].
    eapply item_after_head; [exact Hd|done|lia|lia|].
    intros d1 a Hs Hdoc Hd1. cbn [Z.eqb orb]. unfold intItem. cbn [indef major val Z.eqb].
    eapply wp_mono with (P := λ i d', sub_val d1 (CInt z) i d' ∧ at_out d' (AppendHead dst 1 (-1 - z)) out);
      [|intros ?? [? ?]; split; [by eapply sub_val_trans|done]].
    destruct (Z.ltb_spec MaxInt64 (-1 - z)); (apply leaf_read; [done|]).
    + replace z with (- ((-1 - z) + 1)) at 2 by lia.
      apply leaf_negbig; [done|]. cbn. unfold MaxInt64 in *. lia.
    + replace z with (i64 (u64 (-1 - (-1 - z)))) at 2.
      * apply leaf_int; [done|]. apply Z.mod_pos_bound. lia.
      * replace (-1 - (-1 - z)) with z by lia. unfold i64, u64, MaxInt64 in *.
        replace (z `mod` 2 ^ 64) with (z + 2 ^ 64) by (apply (Z.mod_unique z (2^64) (-1)); lia).
        destruct (Z.ltb_spec (z + 2 ^ 64) (2 ^ 63)); lia.
Qed.

(** A byte or text string. *)
Lemma bytes_read p fuel depth d dst out m s :
  at_out d dst out → (m = 2 ∨ m = 3) → small (length s) = true → (m = 3 → utf8_valid s = true) →
  AppendHead dst m (Z.of_nat (length s)) ++ s `prefix_of` out →
  item_read (item_at p (S fuel) depth) d (if m =? 3 then CText s else CBytes s)
    (AppendHead dst m (Z.of_nat (length s)) ++ s) out.
Proof.
  intros Hd Hm Hsm Hu Hpre. unfold small in Hsm. apply Z.ltb_lt in Hsm.
  eapply item_after_head; [exact Hd|etrans; [|exact Hpre]; by apply prefix_app_r|lia|lia|].
  intros d1 a Hs Hdoc Hd1.
  replace ((m =? 0) || (m =? 1)) with false by (destruct Hm as [->| ->]; done).
  replace ((m =? 2) || (m =? 3)) with true by (destruct Hm as [->| ->]; done).
  eapply wp_mono; [by apply (string_read d1 (AppendHead dst m (Z.of_nat (length s))) s out m)|].
  intros i d' [? ?]. split; [by eapply sub_val_trans|done].
Qed.

(** ** Containers *)

Section containers.
Context (p : string → option instant) (fuel : nat) (out : bytes).

(** Reading [v] at a depth, wherever it was written within [out]. *)
Definition value_read (depth : nat) (v : cval) : Prop :=
  ∀ d dst end_, at_out d dst out → append_value dst v = Ok end_ → end_ `prefix_of` out →
    item_read (item_at p fuel depth) d v end_ out.

(** Each appended value extends the output. *)
Lemma append_values_cons dst v vs end_ :
  append_values dst (v :: vs) = Ok end_ →
  ∃ d1, append_value dst v = Ok d1 ∧ append_values d1 vs = Ok end_.
Proof. cbn. intros (d1 & ? & ?)%outcome_bind_ok. eauto. Qed.

Lemma arrayFill_read depth vs ws d0 d dst end_ start lim :
  Forall (value_read (depth + 1)) ws → Forall appends ws →
  append_values dst ws = Ok end_ → end_ `prefix_of` out → at_out d dst out →
  step 0 d0 d → start = length (kids (doc d0)) → lim = (start + length vs + length ws)%nat →
  (lim ≤ length (kids (doc d)))%nat → elems_at (doc d) lim start vs →
  wp no_error (arrayFill (item_at p fuel) (length ws) depth start (length vs)) (λ _ d',
    step 0 d0 d' ∧ elems_at (doc d') lim start (vs ++ ws) ∧ at_out d' end_ out) d.
Proof using Type.
  intros Hws Ha. revert d vs dst. induction Hws as [|v ws Hv Hws IH];
    intros d vs dst Happ Hend Hd Hs Hst Hli Hlim Hes; cbn [arrayFill length].
  { cbn in Happ. injection Happ as <-. wp_steps. rewrite app_nil_r. auto. }
  apply append_values_cons in Happ as (mid & Hm & Happ).
  apply Forall_cons in Ha as [Hva Ha].
  destruct (append_values_ok ws mid Ha) as (end' & He' & Hpre & _). rewrite Happ in He'.
  injection He' as <-. wp_steps. cbn [length] in Hli.
  eapply wp_mono; [apply (Hv d dst mid); [done|done|by etrans]|].
  intros e d1 [[Hs1 Hr] Hd1].
  pose proof (ext_kids_length _ _ _ (step_ext _ _ _ Hs1)).
  eapply (fill_elem_safe lim start d0 d d1 e v vs); try done; try lia.
  { eapply reads_weaken; [|done]. lia. }
  intros d2 Hs2 Hl2 Hp2 He2.
  assert (length (vs ++ [v]) = S (length vs)) as Hl by (rewrite length_app; cbn; lia).
  rewrite <-Hl. replace (vs ++ v :: ws) with ((vs ++ [v]) ++ ws) by by rewrite <-app_assoc.
  apply (IH Ha d2 _ mid); try done; try lia.
  destruct Hd1 as (? & ? & ? & ?). split_and!; [apply Hs2|congruence|done|].
  assert (data (doc d2) = data (doc d1)) as ->; [|done].
  rewrite (ext_data _ _ _ (step_ext _ _ _ Hs2)), (ext_data _ _ _ (step_ext _ _ _ Hs1)).
  symmetry. apply (step_ext _ _ _ Hs).
Qed.

Lemma text_node c lo i s : reads c lo i (CText s) → text_at c i s ∧ ∃ n, nodes c !! i = Some n ∧ item n = itText.
Proof using Type.
  intros H. inversion H as [? n ? Hn Hl| |]; subst. inversion Hl; subst.
  split; [|eauto]. exists n. auto.
Qed.

Lemma mapPair_read depth d dst k v end_ :
  value_read (depth + 1) (CText k) → value_read (depth + 1) v →
  append_value (AppendTextBytes dst k) v = Ok end_ → AppendTextBytes dst k `prefix_of` end_ →
  end_ `prefix_of` out → at_out d dst out →
  wp no_error (mapPair (item_at p fuel) depth) (λ kv d', step 0 d d' ∧ at_out d' end_ out ∧
    text_at (doc d') kv.1 k ∧ reads (doc d') (length (kids (doc d))) kv.2 v) d.
Proof using Type.
  intros Hk Hv Happ Hpre Hend Hd. unfold mapPair. wp_steps.
  eapply wp_mono; [apply (Hk d dst (AppendTextBytes dst k)); [done|done|by etrans]|].
  intros i d1 [[Hs1 Hr] Hd1]. destruct (text_node _ _ _ _ Hr) as [Ht (n & Hn & Hi)].
  wp_steps. unfold node_at. eapply (wp_run _ _ _ _ n d1); [unfold lift, at_index; by rewrite Hn|].
  rewrite bool_decide_true by done. cbn [negb]. wp_steps.
  eapply wp_mono; [apply (Hv d1 (AppendTextBytes dst k) end_); done|].
  intros kv d2 [[Hs2 Hr2] Hd2]. wp_steps. cbn. split_and!; [by eapply step_trans|done| |].
  - eapply text_at_extends; [apply Hs2|done].
  - eapply reads_weaken; [|done]. apply Hs1.
Qed.

Lemma mapFill_read depth ms ws d0 d dst end_ start lim :
  Forall (λ m, value_read (depth + 1) (CText m.1) ∧ value_read (depth + 1) m.2) ws →
  Forall (λ m, appends m.2) ws →
  append_members dst ws = Ok end_ → end_ `prefix_of` out → at_out d dst out →
  step 0 d0 d → start = length (kids (doc d0)) → lim = (start + 2 * (length ms + length ws))%nat →
  (lim ≤ length (kids (doc d)))%nat → entries_at (doc d) lim start ms →
  wp no_error (mapFill (item_at p fuel) (length ws) depth start (length ms)) (λ _ d',
    step 0 d0 d' ∧ entries_at (doc d') lim start (ms ++ ws) ∧ at_out d' end_ out) d.
Proof using Type.
  intros Hws Ha. revert d ms dst. induction Hws as [|[k v] ws [Hk Hv] Hws IH];
    intros d ms dst Happ Hend Hd Hs Hst Hli Hlim Hes; cbn [mapFill length].
  { cbn in Happ. injection Happ as <-. wp_steps. rewrite app_nil_r. auto. }
  cbn [append_members] in Happ. apply outcome_bind_ok in Happ as (mid & Hm & Happ).
  apply Forall_cons in Ha as [Hva Ha]. cbn [fst snd] in *.
  destruct (append_members_ok ws mid Ha) as (end' & He' & Hpre & _). rewrite Happ in He'.
  injection He' as <-.
  destruct (Hva (AppendTextBytes dst k)) as (mid' & Hm' & Hpre' & _). rewrite Hm in Hm'.
  injection Hm' as <-. wp_steps. cbn [length] in Hli.
  eapply wp_mono; [apply (mapPair_read depth d dst k v mid); try done; by etrans|].
  intros [ik iv] d1 (Hs1 & Hd1 & Htk & Hr). cbn [fst snd] in *.
  pose proof (ext_kids_length _ _ _ (step_ext _ _ _ Hs1)).
  eapply (fill_pair_safe lim start (length ms) d0 d d1 ik iv k v ms); try done; try lia.
  { eapply reads_weaken; [|done]. lia. }
  intros d2 Hs2 Hl2 Hp2 He2 _.
  assert (length (ms ++ [(k, v)]) = S (length ms)) as Hl by (rewrite length_app; cbn; lia).
  rewrite <-Hl. replace (ms ++ (k, v) :: ws) with ((ms ++ [(k, v)]) ++ ws) by by rewrite <-app_assoc.
  apply (IH Ha d2 _ mid); try done; try lia.
  destruct Hd1 as (? & ? & ? & ?). split_and!; [apply Hs2|congruence|done|].
  assert (data (doc d2) = data (doc d1)) as ->; [|done].
  rewrite (ext_data _ _ _ (step_ext _ _ _ Hs2)), (ext_data _ _ _ (step_ext _ _ _ Hs1)).
  symmetry. apply (step_ext _ _ _ Hs).
Qed.
End containers.

(** A call that leaves the position where it is. *)
Lemma item_read_same m d v dst out :
  wp no_error m (sub_val d v) d → (∀ i d', m d = Ok (i, d') → pos d' = pos d) →
  at_out d dst out → item_read m d v dst out.
Proof.
  intros H Hp Hd. unfold item_read, wp in *. destruct (m d) as [[i d']|e| |]; try done.
  split; [done|]. pose proof Hd as (_ & Hpd & Hdd & _).
  eapply at_out_step; [exact Hd|apply H|by rewrite (Hp i d')|done].
Qed.

(** ** Tags *)

(** A tag over an item that denotes [inner], given what the tag makes of it. *)
Lemma tag_read p fuel depth d dst out tag inner v end_ :
  at_out d dst out → 0 ≤ tag < 1000 → (depth < 64)%nat →
  AppendTag dst tag `prefix_of` out → end_ `prefix_of` out →
  (∀ d1, at_out d1 (AppendTag dst tag) out →
     item_read (item_at p fuel (depth + 1)) d1 inner end_ out) →
  (∀ d2 i n lo, wf d2 → nodes (doc d2) !! i = Some n → reads (doc d2) lo i inner →
     wp no_error (tag_meaning p tag n) (λ i' d', sub_val d2 v i' d' ∧ pos d' = pos d2) d2) →
  item_read (item_at p (S fuel) depth) d v end_ out.
Proof.
  intros Hd Htag Hdep Hpre Hend Hin Htm.
  eapply item_after_head; [exact Hd|exact Hpre|lia|lia|].
  intros d1 a Hs Hdoc Hd1. cbn [Z.eqb Pos.eqb orb]. unfold tagItem, cborMaxDepth.
  rewrite decide_False by lia.
  assert (is_structure_tag tag = false) as ->.
  { unfold is_structure_tag, TagStructureDef, StructureTagBase. lia. }
  wp_steps. eapply wp_mono; [by apply Hin|]. intros i d2 [[Hs2 Hr] Hd2].
  assert (∃ n, nodes (doc d2) !! i = Some n) as [n Hn] by (inversion Hr; eauto).
  wp_steps. unfold node_at. eapply (wp_run _ _ _ _ n d2); [unfold lift, at_index; by rewrite Hn|].
  eapply wp_mono; [eapply Htm; [apply Hs2|done|done]|].
  intros i' d3 [Hv Hp]. split.
  - eapply sub_val_trans; [done|]. by eapply sub_val_trans.
  - eapply at_out_step; [exact Hd2|apply Hv| |done]. rewrite Hp. apply Hd2.
Qed.

Lemma int_node c lo i n z :
  reads c lo i (CInt z) → nodes c !! i = Some n → is_i64 z = true →
  item n = itInt ∧ i64 (extra n) = z.
Proof.
  intros H Hn Hz. unfold is_i64, MinInt64, MaxInt64 in Hz.
  inversion H as [? n' ? Hn' Hl| |]; simplify_eq.
  inversion Hl; subst; [done|lia..].
Qed.

Lemma node_leaf_bytes c lo i n s :
  reads c lo i (CBytes s) → nodes c !! i = Some n →
  item n = itBytes ∧ cnode_bytes c n = Ok s ∧ fb n = length s.
Proof.
  intros H Hn. inversion H as [? n' ? Hn' Hl| |]; simplify_eq. inversion Hl; by subst.
Qed.

Lemma byte_len_mono a b : 0 ≤ a ≤ b → (byte_len a ≤ byte_len b)%nat.
Proof.
  intros H. unfold byte_len. destruct (Z.eqb_spec a 0); [lia|]. destruct (Z.eqb_spec b 0); [lia|].
  pose proof (Z.log2_le_mono a b ltac:(lia)). pose proof (Z.log2_nonneg a).
  pose proof (Z.div_le_mono (Z.log2 a) (Z.log2 b) 8 ltac:(lia) ltac:(lia)).
  pose proof (Z.div_pos (Z.log2 a) 8). lia.
Qed.

Lemma big_bytes_value z : be_value (big_bytes z) = Z.abs z.
Proof.
  unfold big_bytes. apply be_value_be_bytes_small. split; [lia|].
  unfold byte_len. destruct (Z.eqb_spec (Z.abs z) 0) as [->|]; [done|].
  pose proof (Z.log2_spec (Z.abs z) ltac:(lia)) as [_ H].
  pose proof (Z.log2_nonneg (Z.abs z)).
  eapply Z.lt_le_trans; [exact H|]. rewrite <-pow2_256.
  apply Z.pow_le_mono_r; [lia|]. rewrite Nat2Z.inj_succ, Z2Nat.id by (apply Z.div_pos; lia).
  pose proof (Z.div_mod (Z.log2 (Z.abs z)) 8 ltac:(lia)).
  pose proof (Z.mod_pos_bound (Z.log2 (Z.abs z)) 8 ltac:(lia)). lia.
Qed.

(** What each tag makes of the content the encoder gives it. *)
Section meanings.
Context (p : string → option instant) (d : cborDecoder) (i : nat) (n : cnode) (lo : nat).
Context (Hwf : wf d) (Hn : nodes (doc d) !! i = Some n).

Lemma bignum_meaning (neg : bool) z :
  0 ≤ z → reads (doc d) lo i (CBytes (big_bytes z)) →
  wp no_error (tag_meaning p (if neg then 3 else 2) n) (λ i' d',
    sub_val d (CBig (if neg then - (z + 1) else z)) i' d' ∧ pos d' = pos d) d.
Proof using All.
  intros Hz Hr. destruct (node_leaf_bytes _ _ _ _ _ Hr Hn) as (Hi & Hb & _).
  apply wp_bind, wp_get.
  replace ((_ =? 2) || (_ =? 3)) with true by by destruct neg.
  rewrite bool_decide_true by done. cbn [negb]. wp_steps. eapply wp_lift_ok; [exact Hb|].
  rewrite big_bytes_value, Z.abs_eq by done.
  eapply wp_run; [reflexivity|]. split; [|done].
  pose proof (addText_int (E := no_error) d (if neg then - (z + 1) else z) 0 Hwf) as H.
  destruct neg; exact H.
Qed.

Lemma epoch_meaning sec :
  is_i64 sec = true → reads (doc d) lo i (CInt sec) →
  wp no_error (tag_meaning p TagEpochDateTime n) (λ i' d',
    sub_val d (CInstant (Instant sec 0)) i' d' ∧ pos d' = pos d) d.
Proof using All.
  intros Hz Hr. destruct (int_node _ _ _ _ _ Hr Hn Hz) as (Hi & He).
  unfold tag_meaning. cbn. wp_steps. rewrite Hi, He.
  eapply wp_run; [reflexivity|]. split; [|done].
  pose proof (addInstant_val (E := no_error) d (Unix sec 0) Hwf) as H.
  unfold Unix in *. cbn in *. rewrite Z.add_0_r in *. exact H.
Qed.

Lemma date_meaning days :
  is_i64 days = true → reads (doc d) lo i (CInt days) →
  wp no_error (tag_meaning p TagEpochDate n) (λ i' d',
    sub_val d (CDate days) i' d' ∧ pos d' = pos d) d.
Proof using All.
  intros Hz Hr. destruct (int_node _ _ _ _ _ Hr Hn Hz) as (Hi & He).
  unfold tag_meaning. cbn. wp_steps. rewrite bool_decide_true by done. cbn [negb].
  eapply wp_run; [reflexivity|]. split; [|done]. rewrite <-He at 1.
  apply (add_leaf (E := no_error) d (node_of itDate (extra n))); [done|by apply (leaf_date _ (node_of itDate (extra n)))].
Qed.

Lemma uuid_meaning s :
  length s = 16%nat → reads (doc d) lo i (CBytes s) →
  wp no_error (tag_meaning p TagUUID n) (λ i' d',
    sub_val d (CUUID s) i' d' ∧ pos d' = pos d) d.
Proof using All.
  intros Hs Hr. destruct (node_leaf_bytes _ _ _ _ _ Hr Hn) as (Hi & Hb & Hl).
  unfold tag_meaning. cbn. wp_steps. rewrite !bool_decide_true by congruence. cbn [negb andb].
  eapply wp_run; [reflexivity|]. split; [|done].
  apply (add_leaf (E := no_error) d); [done|]. by apply leaf_uuid with (b := s).
Qed.

Lemma decimal_meaning m e vm :
  is_i64 e = true → vm = CInt m ∨ vm = CBig m →
  reads (doc d) lo i (CArray [CInt e; vm]) →
  wp no_error (tag_meaning p TagDecimal n) (λ i' d',
    sub_val d (CDecimal m e) i' d' ∧ pos d' = pos d) d.
Proof using All.
  intros He Hm Hr.
  inversion Hr as [? ? ? Hn' Hl|? n' vs Hn' Hi Hlo Hfb Hvs|]; simplify_eq; [inversion Hl|].
  destruct (Hvs 0%nat _ eq_refl) as (k0 & Hk0 & Hr0).
  destruct (Hvs 1%nat _ eq_refl) as (k1 & Hk1 & Hr1).
  rewrite Nat.add_0_r in Hk0. unfold tag_meaning. cbn [TagDecimal Z.eqb Pos.eqb orb]. wp_steps.
  rewrite !bool_decide_true by done. cbn [negb andb]. wp_steps.
  eapply wp_lift_ok; [apply slice_ok; apply lookup_lt_Some in Hk1; lia|].
  replace (fa n + 2 - fa n)%nat with 2%nat by lia.
  assert (drop (fa n) (kids (doc d)) !! 0%nat = Some k0) as H0 by (by rewrite lookup_drop, Nat.add_0_r).
  assert (drop (fa n) (kids (doc d)) !! 1%nat = Some k1) as H1 by (by rewrite lookup_drop).
  destruct (drop _ _) as [|? [|? l]]; simplify_eq/=. wp_steps.
  eapply wp_lift_ok; [done|]. wp_steps. eapply wp_lift_ok; [done|]. wp_steps.
  assert (∃ n0, nodes (doc d) !! k0 = Some n0) as [n0 Hn0] by (inversion Hr0; eauto).
  assert (∃ n1, nodes (doc d) !! k1 = Some n1) as [n1 Hn1] by (inversion Hr1; eauto).
  unfold node_at. eapply (wp_run _ _ _ _ n0 d); [unfold lift, at_index; by rewrite Hn0|]. wp_steps.
  eapply (wp_run _ _ _ _ n1 d); [unfold lift, at_index; by rewrite Hn1|].
  destruct (int_node _ _ _ _ _ Hr0 Hn0 He) as (Hi0 & He0).
  rewrite bool_decide_true by done. cbn [negb]. wp_steps.
  assert (integerText (doc d) n1 = Ok (Some (dec_int m))) as Ht.
  { assert (leaf (doc d) n1 vm) as Hl.
    { inversion Hr1; simplify_eq; destruct Hm; try done. }
    apply integerText_leaf in Hl. by destruct Hm; subst. }
  eapply wp_lift_ok; [exact Ht|]. eapply wp_run; [reflexivity|]. split; [|done].
  rewrite <-He0. apply (addText_decimal (E := no_error) d m (extra n0) Hwf).
Qed.
End meanings.

(** ** The recursion *)

Lemma add_at_out n d0 v d dst out :
  wp no_error (add n) (sub_val d0 v) d → at_out d dst out →
  wp no_error (add n) (λ i d', sub_val d0 v i d' ∧ at_out d' dst out) d.
Proof.
  intros H Hd. split; [exact H|]. destruct Hd as (? & ? & ? & ?).
  split_and!; [apply H|done|done|done].
Qed.


Section recursion.
Context (p : string → option instant) (out : bytes).
Abbreviation reads_back fuel depth v := (value_read p fuel out depth v).

Lemma countFits_room d n k :
  (n * k ≤ remaining d)%nat → (0 < k)%nat →
  wp no_error (countFits (Z.of_nat n) k) (λ _ d', d' = d) d.
Proof using Type.
  intros Hr Hk. unfold countFits. wp_steps.
  destruct (Z.ltb_spec (Z.of_nat (remaining d) `div` Z.of_nat k) (Z.of_nat n)) as [H|]; [|by wp_steps].
  exfalso. assert (Z.of_nat n ≤ Z.of_nat (remaining d) `div` Z.of_nat k); [|lia].
  apply Z.div_le_lower_bound; lia.
Qed.

Lemma array_read fuel depth vs :
  (depth < 64)%nat → small (length vs) = true →
  Forall (value_read p fuel out (depth + 1)) vs → Forall appends vs →
  reads_back (S fuel) depth (CArray vs).
Proof using Type.
  intros Hdep Hsm Hvs Ha d dst end_ Hd Happ Hend. rewrite append_array in Happ.
  destruct (append_values_ok vs (AppendArrayHead dst (length vs)) Ha) as (end' & He' & Hpre & Hlen).
  rewrite Happ in He'. injection He' as <-. unfold small in Hsm. apply Z.ltb_lt in Hsm.
  eapply item_after_head; [exact Hd|by etrans|lia|lia|].
  intros d1 a Hs Hdoc Hd1. cbn [Z.eqb Pos.eqb orb]. unfold arrayItem, cborMaxDepth.
  rewrite decide_False by lia. wp_steps.
  pose proof Hd1 as (Hwf1 & Hp1 & _ & Ho1).
  eapply wp_mono; [apply countFits_room; [|lia]|].
  { unfold remaining. pose proof (prefix_length _ _ Ho1). pose proof (prefix_length _ _ Hend).
    unfold AppendArrayHead in *. lia. }
  intros [] ? ->. wp_steps. rewrite Nat2Z.id.
  pose proof (step_grow_kids 0 d1 (replicate (length vs) 0%nat) Hwf1) as Hs1. set (d2 := set_kids _ d1) in *.
  assert (length (kids (doc d2)) = (length (kids (doc d1)) + length vs)%nat) as Hl.
  { cbn. by rewrite length_app, length_replicate. }
  eapply wp_mono.
  { apply (arrayFill_read p fuel out depth [] vs d1 d2 (AppendArrayHead dst (length vs)) end_
             (length (kids (doc d1))) (length (kids (doc d1)) + length vs)%nat); try done.
    - eapply at_out_step; [exact Hd1|done|apply Hd1|by etrans].
    - cbn. by rewrite ?Nat.add_0_r.
    - by rewrite Hl. }
  intros [] d3 (Hs3 & He & Hd3). cbn [app] in He.
  apply add_at_out; [|done].
  eapply wp_mono; [by eapply (add_array_val d1 d3); [| |apply Nat.le_add_r|]|].
  intros. by eapply sub_val_trans.
Qed.

Lemma map_read fuel depth ms :
  (depth < 64)%nat → small (length ms) = true → NoDup ms.*1 →
  Forall (λ m, value_read p fuel out (depth + 1) (CText m.1) ∧
               value_read p fuel out (depth + 1) m.2) ms →
  Forall (λ m, appends m.2) ms →
  reads_back (S fuel) depth (CMap ms).
Proof using Type.
  intros Hdep Hsm Hnd Hms Ha d dst end_ Hd Happ Hend. rewrite append_map in Happ.
  destruct (append_members_ok ms (AppendMapHead dst (length ms)) Ha) as (end' & He' & Hpre & Hlen).
  rewrite Happ in He'. injection He' as <-. unfold small in Hsm. apply Z.ltb_lt in Hsm.
  eapply item_after_head; [exact Hd|by etrans|lia|lia|].
  intros d1 a Hs Hdoc Hd1. cbn [Z.eqb Pos.eqb orb]. unfold mapItem, cborMaxDepth.
  rewrite decide_False by lia. wp_steps.
  pose proof Hd1 as (Hwf1 & Hp1 & _ & Ho1).
  eapply wp_mono; [apply countFits_room; [|lia]|].
  { unfold remaining. pose proof (prefix_length _ _ Ho1). pose proof (prefix_length _ _ Hend).
    unfold AppendMapHead in *. lia. }
  intros [] ? ->. wp_steps. rewrite Nat2Z.id.
  pose proof (step_grow_kids 0 d1 (replicate (2 * length ms) 0%nat) Hwf1) as Hs1.
  set (d2 := set_kids _ d1) in *.
  assert (length (kids (doc d2)) = (length (kids (doc d1)) + 2 * length ms)%nat) as Hl.
  { cbn. by rewrite length_app, length_replicate. }
  eapply wp_mono.
  { apply (mapFill_read p fuel out depth [] ms d1 d2 (AppendMapHead dst (length ms)) end_
             (length (kids (doc d1))) (length (kids (doc d1)) + 2 * length ms)%nat); try done.
    - eapply at_out_step; [exact Hd1|done|apply Hd1|by etrans].
    - by rewrite Hl. }
  intros [] d3 (Hs3 & He & Hd3). cbn [app] in He. unfold finishMap. wp_steps.
  destruct (checkDistinctKeys_spec _ _ _ (entries_keys _ _ _ _ He)) as [Hok _].
  rewrite length_fmap in Hok. eapply wp_lift_ok; [by apply Hok|].
  apply add_at_out; [|done].
  eapply wp_mono; [by eapply (add_map_val d1 d3); [| |apply Nat.le_add_r| |]|].
  intros. by eapply sub_val_trans.
Qed.

Lemma int_value_read fuel depth z : fits64 z = true → reads_back (S fuel) depth (CInt z).
Proof using Type.
  intros Hz d dst end_ Hd Happ Hend. cbn in Happ. rewrite AppendInteger_dec_int in Happ.
  injection Happ as <-. by apply int_read.
Qed.

Lemma bytes_value_read fuel depth s : small (length s) = true → reads_back (S fuel) depth (CBytes s).
Proof using Type.
  intros Hz d dst end_ Hd [= <-] Hend. apply (bytes_read p fuel depth d dst out 2 s); auto. done.
Qed.

Lemma text_value_read fuel depth s :
  small (length s) = true → utf8_valid s = true → reads_back (S fuel) depth (CText s).
Proof using Type.
  intros Hz Hu d dst end_ Hd [= <-] Hend. apply (bytes_read p fuel depth d dst out 3 s); auto.
Qed.

(** A value written as a tag over another one. *)
Lemma tagged_read fuel depth tag inner v :
  0 ≤ tag < 1000 → (depth < 64)%nat → reads_back fuel (depth + 1) inner → appends inner →
  (∀ dst, append_value dst v = append_value (AppendTag dst tag) inner) →
  (∀ d i n lo, wf d → nodes (doc d) !! i = Some n → reads (doc d) lo i inner →
     wp no_error (tag_meaning p tag n) (λ i' d', sub_val d v i' d' ∧ pos d' = pos d) d) →
  reads_back (S fuel) depth v.
Proof using Type.
  intros Ht Hdep Hin Ha Heq Hm d dst end_ Hd Happ Hend. rewrite Heq in Happ.
  destruct (Ha (AppendTag dst tag)) as (end' & He' & Hpre & _). rewrite Happ in He'.
  injection He' as <-.
  eapply tag_read; [exact Hd|exact Ht|done|by etrans|done| |exact Hm].
  intros d1 Hd1. by eapply Hin.
Qed.
End recursion.

Section main.
Context (p : string → option instant) (out : bytes).

(** A simple value, in its initial byte. *)
Lemma simple_read fuel depth d dst a n v :
  at_out d dst out → dst ++ [zb (Z.lor majorSimple a)] `prefix_of` out → 0 ≤ a < 24 →
  (simpleItem a a false = add n) → (∀ c, leaf c n v) →
  item_read (item_at p (S fuel) depth) d v (dst ++ [zb (Z.lor majorSimple a)]) out.
Proof using Type.
  intros Hd Hpre Ha Hsimple Hl. pose proof Hd as (Hwf & Hp & _ & Ho).
  cbn [item_at]. unfold item_body, item_read. wp_steps.
  apply (head_initial _ d dst 7 a []); [done|done|by etrans|lia|lia|].
  destruct (Z.ltb_spec a 24); [|lia]. cbn [major ai val indef Z.eqb Pos.eqb orb].
  set (d1 := set_pos _ d). assert (step 0 d d1) as Hs1.
  { apply step_set_pos; [done|]. pose proof (prefix_length _ _ Hpre) as H'.
    pose proof (prefix_length _ _ Ho). rewrite length_app in H'. cbn in H'. lia. }
  rewrite Hsimple. eapply wp_mono.
  - apply (leaf_read d1 (dst ++ [zb (Z.lor majorSimple a)]) out n v); [|apply Hl].
    eapply at_out_step; [exact Hd|done|cbn; rewrite length_app; cbn; lia|done].
  - intros i d' [? ?]. split; [by eapply sub_val_trans|done].
Qed.

Lemma float_read fuel depth b : is_u64 b = true → value_read p (S fuel) out depth (CFloat b).
Proof using Type.
  intros Hb d dst end_ Hd [= <-] Hpre. pose proof Hd as (Hwf & Hp & _ & Ho).
  unfold is_u64 in Hb. unfold AppendFloat64 in *.
  cbn [item_at]. unfold item_body, item_read. wp_steps.
  assert (dst ++ zb (Z.lor majorSimple 27) :: be_bytes 8 b `prefix_of` data (doc d)) as Hpre' by by etrans.
  pose proof (prefix_length _ _ Hpre') as Hl. rewrite length_app in Hl. cbn in Hl.
  apply (head_initial _ d dst 7 27 (be_bytes 8 b)); [done|done|done|lia|lia|].
  cbn [Z.ltb Z.compare Pos.compare Pos.compare_cont].
  set (d1 := set_pos _ d).
  assert (step 0 d d1) as Hs1 by (apply step_set_pos; [done|lia]).
  eapply wp_mono.
  { apply (read_arg_written d1 (dst ++ [zb (Z.lor majorSimple 27)]) 8 b);
      [apply Hs1|cbn; rewrite length_app; cbn; lia| |lia].
    cbn [doc d1 set_pos data]. by rewrite <-app_assoc. }
  intros v d2 [-> ->]. cbn [major ai val indef Z.eqb Pos.eqb orb].
  set (d2 := set_pos _ d1).
  assert (step 0 d d2) as Hs2.
  { apply (step_set_pos 0 d); [done|]. rewrite length_app. cbn. lia. }
  eapply wp_mono.
  - apply (leaf_read d2 (dst ++ zb (Z.lor majorSimple 27) :: be_bytes 8 b) out (node_of itFloat b) (CFloat b));
      [|by apply (leaf_float _ (node_of itFloat b))].
    eapply at_out_step; [exact Hd|done|cbn; rewrite !length_app; cbn; lia|done].
  - intros i d' [? ?]. split; [by eapply sub_val_trans|done].
Qed.

Lemma big_read fuel depth z :
  (depth < 64)%nat → (65 ≤ fuel + depth)%nat → negb (fits64 z) && big_ok 1 z = true →
  value_read p fuel out depth (CBig z).
Proof using Type.
  intros Hdep Hfu Hz. destruct fuel as [|[|fuel]]; [lia|lia|]. apply andb_true_iff in Hz as [Hf Hs]. unfold fits64, big_ok in *. cbn in Hs.
  set (neg := negb (0 <=? z)).
  set (m := if 0 <=? z then z else -1 - z) in *.
  apply (tagged_read p out _ _ (if neg then 3 else 2) (CBytes (big_bytes m))); [by destruct neg|done| | | |].
  - by apply bytes_value_read.
  - by apply (append_value_ok 0).
  - intros dst. cbn [append_value]. rewrite AppendInteger_dec_int. unfold append_int, neg, m.
    destruct (Z.leb_spec 0 z); cbn [negb].
    + destruct (Z.ltb_spec z (2 ^ 64)); [lia|done].
    + destruct (Z.leb_spec (- 2 ^ 64) z); [lia|done].
  - intros d i n lo Hwf Hn Hr.
    assert (0 ≤ m) as Hm by (unfold m; destruct (Z.leb_spec 0 z); lia).
    pose proof (bignum_meaning p d i n lo Hwf Hn neg m Hm Hr) as H.
    replace (if neg then - (m + 1) else m) with z in H; [exact H|].
    unfold neg, m. destruct (Z.leb_spec 0 z); cbn; lia.
Qed.

Lemma AppendInt_spec dst z : is_i64 z = true → AppendInt dst z = append_int dst z.
Proof using Type.
  unfold is_i64, MinInt64, MaxInt64, AppendInt, append_int, u64. intros.
  destruct (Z.leb_spec 0 z).
  - destruct (Z.ltb_spec z (2 ^ 64)); [|lia]. by rewrite Z.mod_small by lia.
  - destruct (Z.leb_spec (- 2 ^ 64) z); [|lia]. by rewrite Z.mod_small by lia.
Qed.

Lemma fits64_i64 z : is_i64 z = true → fits64 z = true.
Proof using Type. unfold is_i64, fits64, MinInt64, MaxInt64. lia. Qed.

Lemma decimal_read fuel depth m e :
  (depth < 63)%nat → (65 ≤ fuel + depth)%nat → is_i64 e = true →
  (fits64 m = true ∨ (depth < 62)%nat ∧ fits64 m = false ∧ big_ok 1 m = true) →
  value_read p fuel out depth (CDecimal m e).
Proof using Type.
  intros Hdep Hfu He Hm. destruct fuel as [|[|[|fuel]]]; [lia..|]. set (vm := if fits64 m then CInt m else CBig m).
  assert (value_read p (S fuel) out (depth + 1 + 1) (CInt e)) as Hre.
  { by apply int_value_read, fits64_i64. }
  assert (value_read p (S fuel) out (depth + 1 + 1) vm ∧ appends vm) as [Hrm Ham].
  { unfold vm. destruct Hm as [Hm|(Hd & Hm & Hb)].
    - rewrite Hm. split; [by apply int_value_read|by apply (append_value_ok 0)].
    - rewrite Hm. split; [apply big_read; [lia|lia|by rewrite Hm]|].
      apply (append_value_ok 1). cbn. by rewrite Hm. }
  assert (appends (CInt e)) as Hae by (by apply (append_value_ok 0), fits64_i64).
  apply (tagged_read p out _ _ TagDecimal (CArray [CInt e; vm])); [done|lia| | | |].
  - apply array_read; [lia|done|by repeat constructor|by repeat constructor].
  - intros dst. destruct (append_values_ok [CInt e; vm] (AppendArrayHead dst 2)) as (o & Ho & Hp & Hl).
    { by repeat constructor. }
    exists o. rewrite append_array. split; [done|]. split; [eapply prefix_step; [exact Hp|]; append_tac|].
    eapply Nat.lt_le_trans; [apply AppendHead_len; reflexivity|]. etrans; [|exact Hl]. apply Nat.le_add_r.
  - intros dst. rewrite append_array. cbn [append_value append_values length].
    rewrite append_decimal_spec, AppendInteger_dec_int. cbn.
    rewrite AppendInt_spec by done. unfold vm.
    destruct (fits64 m); cbn; by rewrite AppendInteger_dec_int.
  - intros d i n lo Hwf Hn Hr. eapply decimal_meaning; [done|done|done| |exact Hr].
    unfold vm. destruct (fits64 m); auto.
Qed.

Lemma null_read fuel depth : value_read p (S fuel) out depth CNull.
Proof using Type.
  intros d dst end_ Hd [= <-] Hpre.
  apply (simple_read fuel depth d dst 22 (node_of itNull 0)); try done. intros. by constructor.
Qed.

Lemma bool_read fuel depth b : value_read p (S fuel) out depth (CBool b).
Proof using Type.
  intros d dst end_ Hd Happ Hpre. destruct b; injection Happ as <-.
  - apply (simple_read fuel depth d dst 21 (node_of itTrue 0)); try done. intros. by constructor.
  - apply (simple_read fuel depth d dst 20 (node_of itFalse 0)); try done. intros. by constructor.
Qed.

Lemma encodable_read n v fuel depth :
  encodable n v = true → (n + depth ≤ 64)%nat → (65 ≤ fuel + depth)%nat →
  value_read p fuel out depth v.
Proof using Type.
  revert v fuel depth. induction n as [n IH] using lt_wf_ind; intros v fuel0 depth Hv Hdep Hf.
  destruct fuel0 as [|fuel]; [lia|].
  destruct v; try (destruct n; discriminate Hv).
  - apply null_read.
  - apply bool_read.
  - apply int_value_read. by destruct n.
  - assert (negb (fits64 z) && big_ok n z = true) as H by by destruct n.
    destruct n; [by rewrite andb_false_r in H|]. apply big_read; [lia|lia|exact H].
  - apply float_read. by destruct n.
  - assert ((2 <=? n)%nat && (fits64 mantissa || big_ok (n - 2) mantissa) && is_i64 exponent = true) as H
      by by destruct n.
    apply andb_true_iff in H as [[Hn Hm]%andb_true_iff He]. apply Nat.leb_le in Hn.
    apply decimal_read; [lia|lia|done|]. destruct (fits64 mantissa) eqn:Ef; [by left|right].
    cbn in Hm. unfold big_ok in *. apply andb_true_iff in Hm as [Hk Hm].
    apply Nat.leb_le in Hk. split_and!; [lia|done|exact Hm].
  - assert (utf8_valid s && small (length s) = true) as H by by destruct n.
    apply andb_true_iff in H as [??]. by apply text_value_read.
  - apply bytes_value_read. by destruct n.
  - destruct n as [|n]; [done|]. cbn in Hv. apply andb_true_iff in Hv as [Hs Hv%forallb_Forall'].
    apply array_read; [lia|done| |].
    + eapply Forall_impl; [done|]. intros v Hv'. apply (IH n); [lia|done|lia|lia].
    + eapply Forall_impl; [done|]. intros v Hv'. exact (append_value_ok n v Hv').
  - destruct n as [|n]; [done|]. cbn in Hv.
    apply andb_true_iff in Hv as [[Hs Hnd]%andb_true_iff Hv%forallb_Forall'].
    apply bool_decide_eq_true in Hnd. destruct fuel as [|fuel]; [lia|].
    apply map_read; [lia|done|done| |].
    + eapply Forall_impl; [done|]. intros [k v]. cbn.
      intros [[Hk Hks]%andb_true_iff Hv']%andb_true_iff.
      split; [by apply text_value_read|apply (IH n); [lia|done|lia|lia]].
    + eapply Forall_impl; [done|]. intros [k v] [_ Hv']%andb_true_iff. exact (append_value_ok n v Hv').
  - destruct t as [sec ns].
    assert ((1 <=? n)%nat && (ns =? 0) && is_i64 sec = true) as H by by destruct n.
    apply andb_true_iff in H as [[Hn%Nat.leb_le ->%Z.eqb_eq]%andb_true_iff Hs].
    destruct fuel as [|fuel]; [lia|].
    apply (tagged_read p out _ _ TagEpochDateTime (CInt sec)); [done|lia| | | |].
    + by apply int_value_read, fits64_i64.
    + by apply (append_value_ok 0), fits64_i64.
    + intros dst. cbn [append_value unix_sec]. rewrite AppendInteger_dec_int.
      unfold AppendEpoch. change (0 =? 0) with true. cbn [append_value]. cbv iota. by rewrite AppendInt_spec.
    + intros d i n' lo ???. by eapply epoch_meaning.
  - assert ((1 <=? n)%nat && is_i64 days = true) as H by by destruct n.
    apply andb_true_iff in H as [Hn%Nat.leb_le Hs]. destruct fuel as [|fuel]; [lia|].
    apply (tagged_read p out _ _ TagEpochDate (CInt days)); [done|lia| | | |].
    + by apply int_value_read, fits64_i64.
    + by apply (append_value_ok 0), fits64_i64.
    + intros dst. cbn [append_value]. rewrite AppendInteger_dec_int. unfold AppendEpochDate. by rewrite AppendInt_spec.
    + intros d i n' lo ???. by eapply date_meaning.
  - assert ((1 <=? n)%nat && bool_decide (length s = 16)%nat = true) as H by by destruct n.
    apply andb_true_iff in H as [Hn%Nat.leb_le Hs%bool_decide_eq_true]. destruct fuel as [|fuel]; [lia|].
    assert (small (length s) = true) as Hsm by (unfold small; lia).
    apply (tagged_read p out _ _ TagUUID (CBytes s)); [done|lia| | |done|].
    + by apply bytes_value_read.
    + by apply (append_value_ok 0).
    + intros d i n' lo ???. by eapply uuid_meaning.
Qed.
End main.

(** ** The property of the pair *)

Lemma NewCBORNode_append p v :
  encodable 64 v = true →
  ∃ bs c i, append_value [] v = Ok bs ∧ NewCBORNode p bs = Ok (c, i) ∧ reads c 0 i v.
Proof.
  intros Hv. destruct (append_value_ok 64 v Hv []) as (bs & Happ & Hpre & _).
  set (d0 := CborDecoder (CborDoc bs [] [] [] [] []) 0 ∅).
  assert (at_out d0 [] bs) as Hd.
  { split_and!; [constructor; cbn; [lia|done]|done|done|done]. }
  pose proof (encodable_read p bs 64 v 67 0 Hv ltac:(lia) ltac:(lia) d0 [] bs Hd Happ ltac:(done)) as H.
  apply wp_no_error in H as (i & d' & Hrun & [_ Hr] & (_ & Hp & _)).
  exists bs, (doc d'), i. split; [done|]. split; [|done].
  unfold NewCBORNode. change item_fuel with 67%nat. fold d0. rewrite Hrun.
  by rewrite Hp, bool_decide_true.
Qed.



(** C5: the digits of an integer survive the wire exactly.  A decimal text of
    any length, with or without a sign and leading zeros, written by
    [AppendInteger], is read as one node whose integer text is the canonical
    decimal of the same number, whether it took an integer head (the [uint64]
    accumulation of up to 19 digits does not overflow) or a bignum. *)
Theorem AppendInteger_exact (p : string → option instant) (neg : bool) (s : string)
    (Hs : all_digits s = true)
    (Hsmall : small (length (big_bytes (dec_value s))) = true) :
  ∃ bs c i n, AppendInteger [] (if neg then String "-" s else s) = Ok bs ∧
    NewCBORNode p bs = Ok (c, i) ∧ nodes c !! i = Some n ∧
    integerText c n = Ok (Some (dec_int (signed neg (dec_value s)))).
Proof.
  rewrite (AppendInteger_digits [] neg s Hs). set (z := signed neg (dec_value s)).
  set (v := if fits64 z then CInt z else CBig z).
  assert (encodable 64 v = true) as Hv.
  { unfold v. destruct (fits64 z) eqn:Hf; cbn; rewrite Hf; [done|]. cbn. unfold small in *.
    apply Z.ltb_lt in Hsmall. apply Z.ltb_lt. eapply Z.le_lt_trans; [|exact Hsmall].
    apply inj_le. unfold big_bytes. rewrite !length_be_bytes. apply byte_len_mono.
    pose proof (dec_value_bound s Hs). unfold z, signed, fits64 in *.
    destruct neg; destruct (Z.leb_spec 0 (dec_value s)); destruct (Z.leb_spec 0 (- dec_value s)); lia. }
  destruct (NewCBORNode_append p v Hv) as (bs & c & i & Happ & Hnew & Hr).
  assert (append_value [] v = Ok (append_int [] z)) as Hv'.
  { unfold v. destruct (fits64 z); cbn; by rewrite AppendInteger_dec_int. }
  assert (∃ n, nodes c !! i = Some n) as [n Hn] by (inversion Hr; eauto).
  exists bs, c, i, n. split_and!; [congruence|done|done|].
  assert (leaf c n v) as Hl.
  { unfold v in *. destruct (fits64 z); inversion Hr; by simplify_eq. }
  apply integerText_leaf in Hl. unfold v in Hl. by destruct (fits64 z).
Qed.

Lemma AppendInteger_exact_witness :
  ∃ bs c i n, AppendInteger [] "-0098765432109876543210" = Ok bs ∧
    NewCBORNode (λ _, None) bs = Ok (c, i) ∧ nodes c !! i = Some n ∧
    integerText c n = Ok (Some "-98765432109876543210").
Proof. apply (AppendInteger_exact (λ _, None) true "0098765432109876543210"); vm_compute; reflexivity. Defined.
