(* ===== verification/Writer.v ===== *)
(** The SQL writer: [src/writer/writer.go] and [src/writer/pg.go].

    A writer is a buffer with an indentation, and a statement's bind slots.
    [Write] re-indents after each newline; [Bind] and [BindParam] write the
    placeholder of the slot they append; [EscapeSQLId] quotes identifiers. *)
From Stdlib Require Import ZArith Lia Ascii.
From S2P Require Import Prelude.

Section writer.
(** The type of bound values, Go's [any]. *)
Context {V : Type}.

Record sqlBindSlot := BindSlot { slot_name : string; slot_value : option V }.

(** [SQLWriter], with the [Writer] it embeds. *)
Record SQLWriter := MkSQLWriter {
  buf : string;
  indentation : nat;
  atLineStart : bool;
  slots : list sqlBindSlot;
}.

Definition indentUnit : string := "  ".
Definition NewSQL : SQLWriter := MkSQLWriter "" 0 true [].

Definition put_buf (s : string) (w : SQLWriter) : SQLWriter :=
  MkSQLWriter (buf w +:+ s) (indentation w) (atLineStart w) (slots w).
Definition set_line_start (b : bool) (w : SQLWriter) : SQLWriter :=
  MkSQLWriter (buf w) (indentation w) b (slots w).
Definition set_indentation (n : nat) (w : SQLWriter) : SQLWriter :=
  MkSQLWriter (buf w) n (atLineStart w) (slots w).
Definition push_slot (s : sqlBindSlot) (w : SQLWriter) : SQLWriter :=
  MkSQLWriter (buf w) (indentation w) (atLineStart w) (slots w ++ [s]).

(** [strings.Repeat] *)
Fixpoint repeat_str (n : nat) (s : string) : string :=
  match n with O => "" | S n => s +:+ repeat_str n s end.

(** One line of the text given to [Write]. *)
Definition write_line (line : string) (w : SQLWriter) : SQLWriter :=
  if String.eqb line "" then w
  else
    let w := if atLineStart w
             then set_line_start false (put_buf (repeat_str (indentation w) indentUnit) w)
             else w in
    put_buf line w.

(** The lines after the first, each after its newline. *)
Fixpoint write_lines (lines : list string) (w : SQLWriter) : SQLWriter :=
  match lines with
  | [] => w
  | line :: lines =>
      let w := set_line_start true (put_buf newline w) in
      write_lines lines (write_line line w)
  end.

Definition Write (s : string) (w : SQLWriter) : SQLWriter :=
  if String.eqb s "" then w
  else
    match split_on newline_char s with
    | [] => w
    | line :: lines => write_lines lines (write_line line w)
    end.

Definition Indent (w : SQLWriter) : SQLWriter := set_indentation (S (indentation w)) w.
Definition Unindent (w : SQLWriter) : outcome SQLWriter :=
  match indentation w with
  | O => Panic
  | S n => Ok (set_indentation n w)
  end.

(** [$N] for the slot just appended. *)
Definition placeholder (w : SQLWriter) : string := String "$" (dec_nat (Z.of_nat (length (slots w)))).

Definition Bind (value : V) (w : SQLWriter) : SQLWriter :=
  let w := push_slot (BindSlot "" (Some value)) w in
  Write (placeholder w) w.

Definition BindParam (name : string) (w : SQLWriter) : SQLWriter :=
  let w := push_slot (BindSlot name None) w in
  Write (placeholder w) w.

(** [Args], which panics on a named slot. *)
Fixpoint args_of (ss : list sqlBindSlot) : outcome (list (option V)) :=
  match ss with
  | [] => Ok []
  | s :: ss =>
      if negb (String.eqb (slot_name s) "") then Panic
      else out ← args_of ss; Ok (slot_value s :: out)
  end.
Definition Args (w : SQLWriter) : outcome (list (option V)) := args_of (slots w).

Fixpoint param_names (seen : gset string) (ss : list sqlBindSlot) : list string :=
  match ss with
  | [] => []
  | s :: ss =>
      if String.eqb (slot_name s) "" || bool_decide (slot_name s ∈ seen)
      then param_names seen ss
      else slot_name s :: param_names ({[slot_name s]} ∪ seen) ss
  end.
Definition ParamNames (w : SQLWriter) : list string := param_names ∅ (slots w).

Fixpoint resolve_args (paramValues : gmap string V) (ss : list sqlBindSlot)
    : outcome (list (option V)) :=
  match ss with
  | [] => Ok []
  | s :: ss =>
      v ← (if String.eqb (slot_name s) "" then Ok (slot_value s)
           else match paramValues !! slot_name s with
                | Some v => Ok (Some v)
                | None => errorf "writer: no value supplied for $param %q"
                end);
      out ← resolve_args paramValues ss;
      Ok (v :: out)
  end.
Definition ResolveArgs (w : SQLWriter) (paramValues : gmap string V) : outcome (list (option V)) :=
  resolve_args paramValues (slots w).

(** * Identifiers *)

Definition is_lower (c : Ascii.ascii) : bool := (97 <=? char_code c) && (char_code c <=? 122).
Definition is_underscore (c : Ascii.ascii) : bool := char_code c =? 95.

(** [^[a-z_][a-z0-9_]*$] *)
Definition validUnquotedSQLId (s : string) : bool :=
  match s with
  | EmptyString => false
  | String c s =>
      (is_lower c || is_underscore c) &&
      string_forallb (λ c, is_lower c || is_underscore c || is_digit c) s
  end.

Definition sqlReservedKeywords : list string := [
  "all"; "analyse"; "analyze"; "and"; "any"; "array"; "as"; "asc"; "asymmetric"; "both";
  "case"; "cast"; "check"; "collate"; "column"; "constraint"; "create"; "current_catalog";
  "current_date"; "current_role"; "current_time"; "current_timestamp"; "current_user";
  "default"; "deferrable"; "desc"; "distinct"; "do"; "else"; "end"; "except"; "false";
  "fetch"; "for"; "foreign"; "from"; "grant"; "group"; "having"; "in"; "initially";
  "intersect"; "into"; "lateral"; "leading"; "limit"; "localtime"; "localtimestamp"; "not";
  "null"; "offset"; "on"; "only"; "or"; "order"; "placing"; "primary"; "references";
  "returning"; "select"; "session_user"; "some"; "symmetric"; "table"; "then"; "to";
  "trailing"; "true"; "union"; "unique"; "user"; "using"; "variadic"; "when"; "where";
  "window"; "with" ].

(** [strings.ReplaceAll] of a quote by two. *)
Fixpoint double_quotes (s : string) : string :=
  match s with
  | EmptyString => ""
  | String c s =>
      if decide (c = quote_char) then String quote_char (String quote_char (double_quotes s))
      else String c (double_quotes s)
  end.

Definition escapeSQLIdPart (p : string) : string :=
  if negb (String.eqb p "") && validUnquotedSQLId p && negb (bool_decide (p ∈ sqlReservedKeywords))
  then p
  else quote +:+ double_quotes p +:+ quote.

Definition EscapeSQLId (id : string) : string :=
  join "." (map escapeSQLIdPart (split_on "." id)).

Definition Id (id : string) (w : SQLWriter) : SQLWriter := Write (EscapeSQLId id) w.

End writer.
Arguments SQLWriter : clear implicits.
Arguments sqlBindSlot : clear implicits.

(** * Writing in pieces *)

(** What [Write] does to one character. *)
Definition write_char {V} (w : SQLWriter V) (c : Ascii.ascii) : SQLWriter V :=
  if decide (c = newline_char) then set_line_start true (put_buf newline w)
  else
    let w := if atLineStart w
             then set_line_start false (put_buf (repeat_str (indentation w) indentUnit) w)
             else w in
    put_buf (String c "") w.

Fixpoint write_chars {V} (s : string) (w : SQLWriter V) : SQLWriter V :=
  match s with
  | EmptyString => w
  | String c s => write_chars s (write_char w c)
  end.

Lemma put_buf_app {V} (w : SQLWriter V) a b : put_buf b (put_buf a w) = put_buf (a +:+ b) w.
Proof. unfold put_buf. cbn. by rewrite append_assoc. Qed.

Lemma write_chars_app {V} a b (w : SQLWriter V) :
  write_chars (a +:+ b) w = write_chars b (write_chars a w).
Proof. revert w. induction a as [|c a IH]; intros w; cbn; auto. Qed.

(** A line without newlines, after the indentation is settled. *)
Lemma write_chars_inline {V} line (w : SQLWriter V) :
  atLineStart w = false → string_forallb (λ c, bool_decide (c ≠ newline_char)) line = true →
  write_chars line w = put_buf line w.
Proof.
  revert w. induction line as [|c line IH]; intros w Hw; cbn.
  - destruct w. unfold put_buf. cbn. by rewrite append_empty_r.
  - intros [Hc Hl]%andb_true_iff. apply bool_decide_eq_true in Hc.
    unfold write_char. rewrite decide_False, Hw by done.
    rewrite IH by done. apply (put_buf_app w (String c "") line).
Qed.

Lemma write_line_chars {V} line (w : SQLWriter V) :
  string_forallb (λ c, bool_decide (c ≠ newline_char)) line = true →
  write_chars line w = write_line line w.
Proof.
  intros Hl. destruct line as [|c line]; [done|]. unfold write_line. cbn [String.eqb].
  cbn in Hl. apply andb_true_iff in Hl as [Hc Hl]. pose proof Hc as Hc'%bool_decide_eq_true.
  cbn [write_chars]. unfold write_char. rewrite decide_False by done.
  set (w' := if atLineStart w then _ else _).
  assert (atLineStart w' = false) as Hw'.
  { subst w'. destruct (atLineStart w) eqn:E; done. }
  rewrite write_chars_inline by done. apply (put_buf_app w' (String c "") line).
Qed.

Lemma split_on_pieces sep s p :
  p ∈ split_on sep s → string_forallb (λ c, bool_decide (c ≠ sep)) p = true.
Proof.
  revert p. induction s as [|c s IH]; intros p; cbn.
  - by intros ->%list_elem_of_singleton.
  - case_decide as Hc.
    + intros [->|Hp]%elem_of_cons; [done|auto].
    + destruct (split_on sep s) as [|q qs] eqn:E; [by apply split_on_nonempty in E|].
      intros [->|Hp]%elem_of_cons.
      * cbn. rewrite bool_decide_true by done. apply IH. apply elem_of_cons; auto.
      * apply IH. apply elem_of_cons; auto.
Qed.

Lemma write_lines_chars {V} lines (w : SQLWriter V) :
  (∀ p, p ∈ lines → string_forallb (λ c, bool_decide (c ≠ newline_char)) p = true) →
  write_lines lines w = write_chars (match lines with [] => "" | _ => newline +:+ join newline lines end) w.
Proof.
  revert w. induction lines as [|l lines IH]; intros w Hl; [done|].
  cbn [write_lines]. rewrite IH by (intros; apply Hl, elem_of_cons; auto).
  rewrite <-write_line_chars by (apply Hl, elem_of_cons; auto).
  rewrite <-write_chars_app.
  change (newline +:+ join newline (l :: lines)) with (String newline_char (join newline (l :: lines))).
  cbn [write_chars]. change (write_char w newline_char) with (set_line_start true (put_buf newline w)).
  f_equal. destruct lines; cbn [join]; [by rewrite append_empty_r|done].
Qed.

(** [Write] is the character machine. *)
Lemma Write_chars {V} s (w : SQLWriter V) : Write s w = write_chars s w.
Proof.
  unfold Write. destruct (String.eqb_spec s "") as [->|Hne]; [done|].
  pose proof (join_split newline_char s) as Hj. pose proof (split_on_pieces newline_char s) as Hp.
  pose proof (split_on_nonempty newline_char s) as Hn.
  destruct (split_on newline_char s) as [|l lines]; [done|].
  rewrite write_lines_chars by (intros; apply Hp, elem_of_cons; auto).
  rewrite <-write_line_chars by (apply Hp, elem_of_cons; auto).
  rewrite <-write_chars_app, <-Hj. f_equal.
  destruct lines; cbn [join]; [by rewrite append_empty_r|done].
Qed.

Lemma Write_app {V} a b (w : SQLWriter V) : Write b (Write a w) = Write (a +:+ b) w.
Proof. by rewrite !Write_chars, write_chars_app. Qed.

Lemma write_chars_slots {V} s (w : SQLWriter V) :
  slots (write_chars s w) = slots w ∧ indentation (write_chars s w) = indentation w.
Proof.
  revert w. induction s as [|c s IH]; intros w; cbn; [done|].
  destruct (IH (write_char w c)) as [-> ->]. unfold write_char.
  destruct (decide _); [done|]. by destruct (atLineStart w).
Qed.
Lemma Write_slots {V} s (w : SQLWriter V) : slots (Write s w) = slots w.
Proof. rewrite Write_chars. apply write_chars_slots. Qed.
Lemma Write_indentation {V} s (w : SQLWriter V) : indentation (Write s w) = indentation w.
Proof. rewrite Write_chars. apply write_chars_slots. Qed.

(** * Reading identifiers back *)

(** The lexer of Postgres, on the identifiers that need no case folding: the
    longest run of identifier characters, or a quoted identifier in which a
    doubled quote stands for one. *)
Definition id_char (c : Ascii.ascii) : bool := is_lower c || is_underscore c || is_digit c.

Fixpoint scan_run (s : string) : string * string :=
  match s with
  | EmptyString => ("", "")
  | String c r => if id_char c then let '(a, b) := scan_run r in (String c a, b) else ("", s)
  end.

Fixpoint scan_quoted (s : string) : option (string * string) :=
  match s with
  | EmptyString => None
  | String c r =>
      if decide (c = quote_char) then
        match r with
        | String c' r' =>
            if decide (c' = quote_char)
            then '(a, b) ← scan_quoted r'; Some (String quote_char a, b)
            else Some ("", r)
        | EmptyString => Some ("", r)
        end
      else '(a, b) ← scan_quoted r; Some (String c a, b)
  end.

Definition scan_ident (s : string) : option (string * string) :=
  match s with
  | EmptyString => None
  | String c r =>
      if decide (c = quote_char) then scan_quoted r
      else if is_lower c || is_underscore c then Some (scan_run s)
      else None
  end.

(** Identifiers separated by dots. *)
Fixpoint scan_qualified (fuel : nat) (s : string) : option (list string * string) :=
  match fuel with
  | O => None
  | S fuel =>
      '(p, r) ← scan_ident s;
      match r with
      | String "."%char r' => '(ps, r'') ← scan_qualified fuel r'; Some (p :: ps, r'')
      | _ => Some ([p], r)
      end
  end.

(** Text after which an identifier ends. *)
Definition ends_ident (s : string) : bool :=
  match s with
  | EmptyString => true
  | String c _ => negb (id_char c) && negb (bool_decide (c = quote_char))
  end.

Lemma scan_run_app p rest :
  string_forallb id_char p = true → ends_ident rest = true → scan_run (p +:+ rest) = (p, rest).
Proof.
  intros Hp Hr. induction p as [|c p IH]; cbn in *.
  - destruct rest as [|c rest]; [done|]. cbn in *. by destruct (id_char c).
  - apply andb_true_iff in Hp as [-> Hp]. by rewrite (IH Hp).
Qed.

Lemma scan_quoted_app p rest :
  ends_ident rest = true → scan_quoted (double_quotes p +:+ String quote_char rest) = Some (p, rest).
Proof.
  intros Hr. induction p as [|c p IH]; cbn [double_quotes].
  - cbn [String.append scan_quoted]. rewrite decide_True by done.
    destruct rest as [|c rest]; [done|]. cbn in Hr. apply andb_true_iff in Hr as [_ Hq].
    rewrite decide_False; [done|]. intros ->. by rewrite bool_decide_true in Hq.
  - case_decide as Hc.
    + subst. cbn [String.append scan_quoted]. rewrite !decide_True by done. by rewrite IH.
    + cbn [String.append scan_quoted]. rewrite decide_False by done. by rewrite IH.
Qed.

Lemma string_forallb_impl (f g : Ascii.ascii → bool) s :
  (∀ c, f c = true → g c = true) → string_forallb f s = true → string_forallb g s = true.
Proof.
  intros H. induction s as [|c s IH]; cbn; [done|]. intros [? ?]%andb_true_iff.
  by rewrite H, IH.
Qed.

Lemma scan_ident_part p rest :
  ends_ident rest = true → scan_ident (escapeSQLIdPart p +:+ rest) = Some (p, rest).
Proof.
  intros Hr. unfold escapeSQLIdPart. destruct (_ && _) eqn:E.
  - apply andb_true_iff in E as [[_ Hv]%andb_true_iff _]. destruct p as [|c p]; [done|].
    cbn [validUnquotedSQLId] in Hv. apply andb_true_iff in Hv as [Hc Hv].
    cbn [String.append scan_ident]. rewrite decide_False.
    + rewrite Hc. f_equal. apply (scan_run_app (String c p)); [|done].
      cbn [string_forallb]. change (string_forallb id_char p = true) in Hv. rewrite Hv.
      unfold id_char. by rewrite Hc.
    + intros ->. vm_compute in Hc. done.
  - rewrite append_assoc. cbn [quote String.append scan_ident]. rewrite decide_True by done.
    rewrite append_assoc. by apply scan_quoted_app.
Qed.

Lemma scan_qualified_parts parts rest fuel :
  parts ≠ [] → ends_ident rest = true → (∀ r, rest ≠ String "." r) → (length parts ≤ fuel)%nat →
  scan_qualified fuel (join "." (map escapeSQLIdPart parts) +:+ rest) = Some (parts, rest).
Proof.
  revert fuel. induction parts as [|p parts IH]; intros fuel Hne Hr Hdot Hf; [done|].
  destruct fuel as [|fuel]; [cbn in Hf; lia|]. cbn [map length] in *.
  destruct parts as [|q parts].
  - cbn [map join scan_qualified]. rewrite scan_ident_part by done. cbn.
    destruct rest as [|[[] [] [] [] [] [] [] []] rest]; try done. by edestruct Hdot.
  - rewrite join_cons by done. rewrite append_assoc. cbn [scan_qualified].
    rewrite scan_ident_part by done. cbn [mbind option_bind String.append].
    change (match String "." ?r with String "."%char r' => @?f r' | _ => _ end) with (f r).
    rewrite IH; [done|done|done|done|cbn in *; lia].
Qed.

(** * Bind slots *)

(** The text a [Bind] adds is the placeholder of its own slot. *)
Lemma Bind_Write {V} (v : V) w :
  Bind v w = Write (String "$" (dec_nat (Z.of_nat (S (length (slots w))))))
                   (push_slot (BindSlot "" (Some v)) w).
Proof.
  unfold Bind, placeholder. cbn. rewrite length_app. cbn [length].
  by rewrite Nat.add_1_r.
Qed.

Lemma param_names_elem {V} (ss : list (sqlBindSlot V)) seen n :
  n ∈ param_names seen ss ↔ n ≠ "" ∧ n ∉ seen ∧ ∃ s, s ∈ ss ∧ slot_name s = n.
Proof.
  revert seen. induction ss as [|s ss IH]; intros seen; cbn [param_names].
  { split; [by intros ?%not_elem_of_nil|]. intros (_ & _ & s & ?%not_elem_of_nil & _). done. }
  destruct (String.eqb_spec (slot_name s) "") as [He|He];
    [|destruct (decide (slot_name s ∈ seen)) as [Hs|Hs]].
  - cbn. rewrite IH. split; intros (? & ? & s' & Hs' & ?); split_and!; try done.
    + exists s'. split; [by apply elem_of_cons; auto|done].
    + apply elem_of_cons in Hs' as [->|]; [congruence|eauto].
  - rewrite bool_decide_true by done. cbn. rewrite IH.
    split; intros (? & ? & s' & Hs' & ?); split_and!; try done.
    + exists s'. split; [by apply elem_of_cons; auto|done].
    + apply elem_of_cons in Hs' as [->|]; [congruence|eauto].
  - rewrite bool_decide_false by done. cbn. rewrite elem_of_cons, IH. split.
    + intros [->|(? & ? & s' & Hs' & ?)].
      * split_and!; try done. exists s. split; [by apply elem_of_cons; auto|done].
      * split_and!; [done|set_solver|]. exists s'. split; [by apply elem_of_cons; auto|done].
    + intros (? & ? & s' & Hs' & <-). apply elem_of_cons in Hs' as [->|Hs']; [by left|].
      destruct (decide (slot_name s' = slot_name s)) as [|Hne]; [by left|right].
      split_and!; [done|set_solver|eauto].
Qed.

Lemma param_names_NoDup {V} (ss : list (sqlBindSlot V)) seen : NoDup (param_names seen ss).
Proof.
  revert seen. induction ss as [|s ss IH]; intros seen; cbn [param_names]; [apply NoDup_nil_2|].
  destruct (_ || _); [apply IH|]. apply NoDup_cons. split; [|apply IH].
  intros (_ & H & _)%param_names_elem. set_solver.
Qed.

(** The value a slot gets. *)
Definition slot_arg {V} (m : gmap string V) (s : sqlBindSlot V) : option (option V) :=
  if String.eqb (slot_name s) "" then Some (slot_value s) else Some <$> m !! slot_name s.

Lemma resolve_args_ok {V} (m : gmap string V) ss :
  (∀ s, s ∈ ss → slot_name s ≠ "" → is_Some (m !! slot_name s)) →
  ∃ out, resolve_args m ss = Ok out ∧ Forall2 (λ s a, slot_arg m s = Some a) ss out.
Proof.
  induction ss as [|s ss IH]; intros H; cbn [resolve_args]; [eauto using Forall2_nil|].
  destruct IH as (out & -> & Hout); [intros; apply H; [by apply elem_of_cons; auto|done]|].
  unfold slot_arg at 1. destruct (String.eqb_spec (slot_name s) "") as [He|He].
  - exists (slot_value s :: out). split; [done|]. constructor; [|done].
    unfold slot_arg. by rewrite He.
  - destruct (H s) as [v Hv]; [by apply elem_of_cons; auto|done|]. rewrite Hv.
    exists (Some v :: out). split; [done|]. constructor; [|done].
    unfold slot_arg. rewrite Hv. by destruct (String.eqb_spec (slot_name s) "").
Qed.

Lemma resolve_args_err {V} (m : gmap string V) ss s :
  s ∈ ss → slot_name s ≠ "" → m !! slot_name s = None → ∃ e, resolve_args m ss = Err e.
Proof.
  induction ss as [|s' ss IH]; intros Hs Hn Hm; [by apply not_elem_of_nil in Hs|].
  cbn [resolve_args]. apply elem_of_cons in Hs as [<-|Hs].
  - destruct (String.eqb_spec (slot_name s) ""); [done|]. rewrite Hm. cbn. eauto.
  - destruct (IH Hs Hn Hm) as [e ->]. destruct (String.eqb _ _); [cbn; eauto|].
    destruct (m !! slot_name s'); cbn; eauto.
Qed.

(** * Properties *)

Lemma Write_inline {V} (a : string) (w : SQLWriter V) :
  atLineStart w = false → string_forallb (λ c, bool_decide (c ≠ newline_char)) a = true →
  buf (Write a w) = buf w +:+ a.
Proof. intros Hw Ha. by rewrite Write_chars, write_chars_inline. Qed.

(** C12: writing is compositional.  A statement's text does not depend on how the
    generator cut it: writing two strings one after the other is writing their
    concatenation, newlines and indentation included.  Neither binds anything. *)
Theorem Write_pieces {V} (a b : string) (w : SQLWriter V) :
  Write b (Write a w) = Write (a +:+ b) w ∧ slots (Write a w) = slots w ∧
  indentation (Write a w) = indentation w.
Proof. split_and!; [apply Write_app|apply Write_slots|apply Write_indentation]. Qed.



(** C13: a statement's arguments.  [ParamNames] lists each name once, and they are
    exactly what [ResolveArgs] needs: given a value for each of them it returns
    one argument per placeholder, in order, a bound value for a literal slot and
    the parameter's value for a named one; with one missing it fails. *)
Theorem ResolveArgs_params {V} (w : SQLWriter V) (m : gmap string V) :
  NoDup (ParamNames w) ∧
  ((∀ n, n ∈ ParamNames w → is_Some (m !! n)) →
   ∃ out, ResolveArgs w m = Ok out ∧ Forall2 (λ s a, slot_arg m s = Some a) (slots w) out) ∧
  (∀ n, n ∈ ParamNames w → m !! n = None → ∃ e, ResolveArgs w m = Err e).
Proof.
  split_and!; [apply param_names_NoDup| |].
  - intros H. apply resolve_args_ok. intros s Hs Hn. apply H, param_names_elem.
    split_and!; [done|set_solver|eauto].
  - intros n Hn Hm. apply param_names_elem in Hn as (Hn & _ & s & Hs & <-).
    by eapply resolve_args_err.
Qed.

Lemma ResolveArgs_params_witness :
  let w := BindParam "b" (Bind 7 (BindParam "a" (BindParam "b" NewSQL))) in
  let m : gmap string Z := {[ "a" := 1; "b" := 2 ]} in
  buf w = "$1$2$3$4" ∧ ParamNames w = ["b"; "a"] ∧
  ∃ out, ResolveArgs w m = Ok out ∧ Forall2 (λ s a, slot_arg m s = Some a) (slots w) out.
Proof.
  split; [vm_compute; reflexivity|]. split; [vm_compute; reflexivity|].
  apply (proj1 (proj2 (ResolveArgs_params
    (BindParam "b" (Bind 7 (BindParam "a" (BindParam "b" NewSQL)))) ({[ "a" := 1; "b" := 2 ]} : gmap string Z)))).
  intros n Hn. assert (ParamNames (BindParam "b" (Bind 7 (BindParam "a" (BindParam "b" (NewSQL (V := Z)))))) = ["b"; "a"])
    as Hp by (vm_compute; reflexivity).
  rewrite Hp in Hn. apply elem_of_cons in Hn as [->|Hn]; [by vm_compute; eexists|].
  apply list_elem_of_singleton in Hn as ->. by vm_compute; eexists.
Defined.
