(* ===== verification/Text.v ===== *)
(** Number and string texts: the functions of Go's [strconv] and
    [encoding/json] the program calls, and [plainDecimal] and [floatText] of
    [src/query/node_cbor.go]. *)
From Stdlib Require Import ZArith Lia SpecFloat Ascii Strings.Byte.
From S2P Require Import Prelude Cbor CborNode.

(** * Numbers written in decimal *)

(** [strconv.ParseInt(s, 10, 64)] *)
Definition ParseInt64 (s : string) : option Z :=
  z ← SetString10 s;
  if is_i64 z then Some z else None.

(** The float of [prec] bits nearest to [m * 10^e], ties to even: the quotient is
    computed to 66 bits at least and a sticky bit. *)
Definition round_decimal_to (prec emax : Z) (neg : bool) (m e : Z) : spec_float :=
  if m =? 0 then S754_zero neg
  else if 0 <=? e then
    binary_normalize prec emax (if neg then - (m * 10 ^ e) else m * 10 ^ e) 0 neg
  else
    let d := 10 ^ (- e) in
    let s := Z.max 0 (Z.log2 d - Z.log2 m + 66) in
    let q := (m * 2 ^ s) `div` d in
    let n := 2 * q + (if (m * 2 ^ s) `mod` d =? 0 then 0 else 1) in
    binary_normalize prec emax (if neg then - n else n) (- (s + 1)) neg.
Definition round_decimal : bool → Z → Z → spec_float := round_decimal_to 53 1024.

(** A run of digits at the head of a text, and what follows. *)
Fixpoint span_digits (s : string) : string * string :=
  match s with
  | String c r => if is_digit c then let '(a, b) := span_digits r in (String c a, b) else ("", s)
  | EmptyString => ("", "")
  end.

(** The exponent digits, saturating as [strconv]'s [readFloat] does. *)
Fixpoint exponent_digits (e : Z) (s : string) : Z :=
  match s with
  | EmptyString => e
  | String c s => exponent_digits (if e <? 10000 then e * 10 + digit_val c else e) s
  end.

(** [strconv.ParseFloat(s, 64)] on the texts the adapter makes: an integer, or
    an integer and a decimal exponent. *)
Definition ParseFloat (s : string) : option Z :=
  let '(neg, s) := match s with String "-"%char r => (true, r) | _ => (false, s) end in
  let '(ds, r) := span_digits s in
  if String.eqb ds "" then None
  else
    e ← match r with
        | EmptyString => Some 0
        | String "e"%char (String "-"%char x) =>
            if negb (String.eqb x "") && all_digits x then Some (- exponent_digits 0 x) else None
        | String "e"%char x =>
            if negb (String.eqb x "") && all_digits x then Some (exponent_digits 0 x) else None
        | _ => None
        end;
    match round_decimal neg (dec_value ds) e with
    | S754_infinity _ => None
    | f => Some (Float64bits f)
    end.

(** * Floats in decimal *)

(** The shortest decimal that reads back as a positive double [m * 2^e]: the
    digits [d] and the place of the point, [0.d * 10^point].  The candidates of
    [p] digits are the two around the value; the nearer one is preferred. *)
Definition fraction (m e : Z) : Z * Z := (m * 2 ^ Z.max e 0, 2 ^ Z.max (- e) 0).

Definition below_pow10 (num den k : Z) : bool :=
  if 0 <=? k then num <? den * 10 ^ k else num * 10 ^ (- k) <? den.

(** The least [k] with [num / den < 10^k], from an estimate below it. *)
Fixpoint pow10_above (fuel : nat) (num den k : Z) : Z :=
  match fuel with
  | O => k
  | S fuel => if below_pow10 num den k then k else pow10_above fuel num den (k + 1)
  end.
Definition decimal_exponent (num den : Z) : Z :=
  pow10_above 8 num den (((Z.log2 num - Z.log2 den) * 30103) `div` 100000 - 2).

Definition reads_back (bits d e : Z) : bool := Float64bits (round_decimal false d e) =? bits.

Fixpoint shortest_digits (fuel : nat) (bits num den k p : Z) : Z * Z :=
  let e := p - k in
  let n := if 0 <=? e then num * 10 ^ e else num in
  let d := if 0 <=? e then den else den * 10 ^ (- e) in
  let lo := n `div` d in
  let near := if 2 * (n `mod` d) <? d then lo else lo + 1 in
  let far := if near =? lo then lo + 1 else lo in
  match fuel with
  | O => (near, k - p)
  | S fuel =>
      if reads_back bits near (k - p) then (near, k - p)
      else if reads_back bits far (k - p) then (far, k - p)
      else shortest_digits fuel bits num den k (p + 1)
  end.

Fixpoint strip_zeros (fuel : nat) (d e : Z) : Z * Z :=
  match fuel with
  | O => (d, e)
  | S fuel => if (d `mod` 10 =? 0) && negb (d =? 0) then strip_zeros fuel (d `div` 10) (e + 1) else (d, e)
  end.

(** The digits of [FormatFloat(f, _, -1, 64)] for a positive finite double:
    its text is [0.digits * 10^point]. *)
Definition shortest (bits m e : Z) : string * Z :=
  let '(num, den) := fraction m e in
  let '(d, x) := shortest_digits 17 bits num den (decimal_exponent num den) 1 in
  let '(d, x) := strip_zeros 20 d x in
  let s := dec_nat d in
  (s, Z.of_nat (String.length s) + x).

Fixpoint str_take (n : nat) (s : string) : string :=
  match n, s with S n, String c s => String c (str_take n s) | _, _ => "" end.
Fixpoint str_drop (n : nat) (s : string) : string :=
  match n, s with S n, String _ s => str_drop n s | _, _ => s end.
Fixpoint zeros (n : nat) : string :=
  match n with O => "" | S n => String "0" (zeros n) end.

(** [%f] with every digit. *)
Definition format_f (ds : string) (point : Z) : string :=
  let n := Z.of_nat (String.length ds) in
  if point <=? 0 then "0." +:+ zeros (Z.to_nat (- point)) +:+ ds
  else if n <=? point then ds +:+ zeros (Z.to_nat (point - n))
  else str_take (Z.to_nat point) ds +:+ "." +:+ str_drop (Z.to_nat point) ds.

(** [%e]: one digit, the others, and an exponent of two digits at least. *)
Definition format_e (ds : string) (point : Z) : string :=
  let x := point - 1 in
  let ax := Z.abs x in
  str_take 1 ds +:+
  (if (String.length ds <=? 1)%nat then "" else "." +:+ str_drop 1 ds) +:+
  "e" +:+ (if x <? 0 then "-" else "+") +:+ (if ax <? 10 then "0" else "") +:+ dec_nat ax.

Definition signed (neg : bool) (s : string) : string := if neg then "-" +:+ s else s.

(** [strconv.FormatFloat(f, 'g', -1, 64)] and [strconv.FormatFloat(f, 'f', -1, 64)]. *)
Definition FormatFloat_g (bits : Z) : string :=
  match Float64frombits bits with
  | S754_nan => "NaN"
  | S754_infinity neg => if neg then "-Inf" else "+Inf"
  | S754_zero neg => signed neg "0"
  | S754_finite neg m e =>
      let '(ds, point) := shortest (bits `mod` 2 ^ 63) (Zpos m) e in
      signed neg (if (point - 1 <? -4) || (6 <=? point - 1) then format_e ds point else format_f ds point)
  end.
Definition FormatFloat_f (bits : Z) : string :=
  match Float64frombits bits with
  | S754_nan => "NaN"
  | S754_infinity neg => if neg then "-Inf" else "+Inf"
  | S754_zero neg => signed neg "0"
  | S754_finite neg m e =>
      let '(ds, point) := shortest (bits `mod` 2 ^ 63) (Zpos m) e in signed neg (format_f ds point)
  end.

(** [strings.ContainsAny(s, ".e")] *)
Fixpoint has_point_or_e (s : string) : bool :=
  match s with
  | EmptyString => false
  | String c s => Ascii.eqb c "." || Ascii.eqb c "e" || has_point_or_e s
  end.

Definition floatText (bits : Z) : string :=
  match Float64frombits bits with
  | S754_nan => "NaN"
  | S754_infinity neg => if neg then "-Infinity" else "Infinity"
  | _ => let s := FormatFloat_g bits in if has_point_or_e s then s else s +:+ ".0"
  end.

Definition plainDecimal (mantissa : string) (exp : Z) : string :=
  if exp =? 0 then mantissa
  else if (64 <? exp) || (exp <? -64) then mantissa +:+ "e" +:+ dec_int exp
  else
    let '(neg, digits) :=
      match mantissa with String "-"%char r => (true, r) | _ => (false, mantissa) end in
    let out :=
      if 0 <? exp then digits +:+ zeros (Z.to_nat exp)
      else
        let point := Z.of_nat (String.length digits) + exp in
        if 0 <? point
        then str_take (Z.to_nat point) digits +:+ "." +:+ str_drop (Z.to_nat point) digits
        else "0." +:+ zeros (Z.to_nat (- point)) +:+ digits in
    if neg then "-" +:+ out else out.

Example plainDecimal_ex : plainDecimal "-125" (-5) = "-0.00125".
Proof. reflexivity. Qed.
Example ParseFloat_ex : ParseFloat "15e-1" = Some (Float64bits (SFdiv 53 1024 (f64_of_Z 3) (f64_of_Z 2))).
Proof. vm_compute. reflexivity. Qed.
Example ParseFloat_ex2 : ParseFloat "1e-1" = Some 4591870180066957722.
Proof. vm_compute. reflexivity. Qed.

Example FormatFloat_ex1 : map FormatFloat_g
  [4591870180066957722; 4607182418800017408; 4696837146684686336; 4681608360884174848; 13832806255468478464; 1]
  = ["0.1"; "1"; "1e+06"; "100000"; "-1.5"; "5e-324"].
Proof. vm_compute. reflexivity. Qed.
Example FormatFloat_ex2 : map FormatFloat_f [4696837146684686336; 4503599627370496; 4599075939470750516]
  = ["1000000"; FormatFloat_f 4503599627370496; "0.30000000000000004"].
Proof. vm_compute. reflexivity. Qed.
Example floatText_ex : map floatText [4613937818241073152; 9218868437227405312] = ["3.0"; "Infinity"].
Proof. vm_compute. reflexivity. Qed.

(** * JSON strings: [json.Marshal] of a string *)

Definition hex_char (n : Z) : Ascii.ascii :=
  if n <? 10 then digit_char n else ascii_of_nat (Z.to_nat (87 + n)).

Definition backslash : string := String "092" "".
(** [\u00XX] *)
Definition unicode_escape (b : Z) : string :=
  backslash +:+ "u00" +:+ String (hex_char (b `div` 16)) (String (hex_char (b `mod` 16)) "").

Definition escape_ascii (b : Z) : string :=
  if b =? 34 then backslash +:+ quote
  else if b =? 92 then backslash +:+ backslash
  else if b =? 8 then backslash +:+ "b"
  else if b =? 12 then backslash +:+ "f"
  else if b =? 10 then backslash +:+ "n"
  else if b =? 13 then backslash +:+ "r"
  else if b =? 9 then backslash +:+ "t"
  else if (b <? 32) || (b =? 60) || (b =? 62) || (b =? 38) then unicode_escape b
  else String (ascii_of_nat (Z.to_nat b)) "".

(** The bytes of the first rune when it is valid: [utf8.DecodeRune]'s size. *)
Definition rune_size (l : bytes) : option nat :=
  if utf8_valid (take 2 l) && (1 <? length l)%nat && negb (utf8_valid (take 1 l)) then Some 2%nat
  else if utf8_valid (take 1 l) then Some 1%nat
  else if utf8_valid (take 3 l) && (2 <? length l)%nat then Some 3%nat
  else if utf8_valid (take 4 l) && (3 <? length l)%nat then Some 4%nat
  else None.

Fixpoint escape_bytes (fuel : nat) (l : bytes) : string :=
  match fuel, l with
  | O, _ | _, [] => ""
  | S fuel, b :: r =>
      if bz b <? 128 then escape_ascii (bz b) +:+ escape_bytes fuel r
      else
        match rune_size l with
        | None => backslash +:+ "ufffd" +:+ escape_bytes fuel r
        | Some n =>
            let rune := take n l in
            (if decide (rune = [zb 226; zb 128; zb 168]) then backslash +:+ "u2028"
             else if decide (rune = [zb 226; zb 128; zb 169]) then backslash +:+ "u2029"
             else string_of_bytes rune) +:+ escape_bytes fuel (drop n l)
        end
  end.

Definition json_string (l : bytes) : string := quote +:+ escape_bytes (length l) l +:+ quote.

Example json_string_ex : json_string (bytes_of_string "a<b") = quote +:+ "a" +:+ backslash +:+ "u003cb" +:+ quote.
Proof. vm_compute. reflexivity. Qed.
