(* ===== verification/Document.v ===== *)
(** Decoded documents: [src/query/node_iface.go], and the accessors of the CBOR
    adapter in [src/query/node_cbor.go].

    The parser reads a request through the interface [Node]: its operations are
    a class, and what it promises about them is a class of laws, stated against
    an abstract document, [tree].  The CBOR adapter is an instance; so is the
    abstract document itself.  The JSON adapter delegates every operation to
    the JSON library and is any instance that has the laws. *)
From Stdlib Require Import ZArith Lia SpecFloat Ascii Strings.Byte.
From stdpp Require Import sorting.
From S2P Require Import Prelude Cbor CborNode Text.
Set Warnings "-register-all".

Inductive NodeKind :=
  | KindInvalid | KindNull | KindBool | KindNumber | KindString | KindArray | KindObject
  | KindBytes | KindInstant | KindDate | KindUUID.
#[global] Instance NodeKind_eq_dec : EqDecision NodeKind.
Proof. solve_decision. Defined.

(** The interface.  A [float64] is its bits.  [ObjectEach] is the list of the
    members in the order they are visited; the loop over them is the caller's. *)
Class Node (N : Type) := {
  Kind : N → NodeKind;
  StrictString : N → outcome string;
  StrictBool : N → outcome bool;
  StrictInt64 : N → outcome Z;
  StrictFloat64 : N → outcome Z;
  ArrayItems : N → outcome (list N);
  ObjectGet : N → string → outcome (option N);
  ObjectEach : N → outcome (list (string * N));
  Raw : N → outcome string;
}.

Definition errNotArray {A} : outcome A := errorf "value is not an array".
Definition errNotObject {A} : outcome A := errorf "value is not an object".

(** [arrayItems], a [nodeList] being the list of its items. *)
Definition arrayItems {N} `{Node N} (n : N) : outcome (list N) :=
  if negb (bool_decide (Kind n = KindArray)) then errNotArray else ArrayItems n.

(** [l.at(i)] and [l.from(k)] *)
Definition list_at {A} (l : list A) (i : nat) : outcome A := at_index l i.
Definition list_from {A} (l : list A) (k : nat) : outcome (list A) := slice l k (length l).

(** * The CBOR nodes *)

(** A [*cnode]: the node and the document it points to. *)
Record cborNode := CborNodeRef { cn_doc : cborDoc; cn : cnode }.

Definition cbor_Kind (c : cborNode) : NodeKind :=
  match item (cn c) with
  | itNull => KindNull
  | itFalse | itTrue => KindBool
  | itInt | itUint | itNegBig | itFloat | itNumText => KindNumber
  | itText => KindString
  | itBytes => KindBytes
  | itArray => KindArray
  | itMap => KindObject
  | itInstant => KindInstant
  | itDate => KindDate
  | itUUID => KindUUID
  | itBadTag => KindInvalid
  end.

(** [numberText] of the items that are not floats. *)
Definition exactNumberText (c : cborNode) : outcome (option string) :=
  let n := cn c in
  match item n with
  | itNumText =>
      if decide (fb n = 1)%nat
      then s ← at_index (strs (cn_doc c)) (fa n); Ok (Some (s +:+ "e" +:+ dec_int (i64 (extra n))))
      else integerText (cn_doc c) n
  | _ => integerText (cn_doc c) n
  end.

Definition cbor_bytes (c : cborNode) : outcome bytes := cnode_bytes (cn_doc c) (cn c).

Definition cbor_StrictString (c : cborNode) : outcome string :=
  match item (cn c) with
  | itText => b ← cbor_bytes c; Ok (string_of_bytes b)
  | _ => errorf "value is not a string"
  end.

Definition cbor_StrictBool (c : cborNode) : outcome bool :=
  match item (cn c) with
  | itTrue => Ok true
  | itFalse => Ok false
  | _ => errorf "value is not a boolean"
  end.

Definition cbor_StrictInt64 (c : cborNode) : outcome Z :=
  let bad := errorf "value is not an integer that fits 64 bits" in
  match item (cn c) with
  | itInt => Ok (i64 (extra (cn c)))
  | itNumText =>
      if decide (fb (cn c) = 0)%nat then
        s ← at_index (strs (cn_doc c)) (fa (cn c));
        match ParseInt64 s with Some i => Ok i | None => bad end
      else bad
  | _ => bad
  end.

Definition cbor_StrictFloat64 (c : cborNode) : outcome Z :=
  match item (cn c) with
  | itFloat => Ok (extra (cn c))
  | _ =>
      if negb (bool_decide (cbor_Kind c = KindNumber)) then errorf "value is not a number"
      else
        text ← exactNumberText c;
        match ParseFloat (default "" text) with
        | Some f => Ok f
        | None => errorf "strconv.ParseFloat: parsing %q: value out of range"
        end
  end.

(** [c.kid(i)] *)
Definition kid (c : cborNode) (i : nat) : outcome cborNode :=
  k ← at_index (kids (cn_doc c)) i;
  n ← at_index (nodes (cn_doc c)) k;
  Ok (CborNodeRef (cn_doc c) n).

Fixpoint array_kids (c : cborNode) (a count : nat) : outcome (list cborNode) :=
  match count with
  | O => Ok []
  | S count => k ← kid c a; ks ← array_kids c (S a) count; Ok (k :: ks)
  end.

Definition cbor_ArrayItems (c : cborNode) : outcome (list cborNode) :=
  match item (cn c) with
  | itArray => array_kids c (fa (cn c)) (fb (cn c))
  | _ => errNotArray
  end.

Fixpoint get_pair (c : cborNode) (key : string) (a count : nat) : outcome (option cborNode) :=
  match count with
  | O => Ok None
  | S count =>
      k ← kid c a;
      b ← cbor_bytes k;
      if decide (string_of_bytes b = key) then v ← kid c (a + 1); Ok (Some v)
      else get_pair c key (a + 2) count
  end.

Definition cbor_ObjectGet (c : cborNode) (key : string) : outcome (option cborNode) :=
  match item (cn c) with
  | itMap => get_pair c key (fa (cn c)) (fb (cn c))
  | _ => Ok None
  end.

Fixpoint map_pairs (c : cborNode) (a count : nat) : outcome (list (string * cborNode)) :=
  match count with
  | O => Ok []
  | S count =>
      k ← kid c a;
      b ← cbor_bytes k;
      v ← kid c (a + 1);
      ms ← map_pairs c (a + 2) count;
      Ok ((string_of_bytes b, v) :: ms)
  end.

Definition cbor_ObjectEach (c : cborNode) : outcome (list (string * cborNode)) :=
  match item (cn c) with
  | itMap => map_pairs c (fa (cn c)) (fb (cn c))
  | _ => errNotObject
  end.

(** [numberText] *)
Definition numberText (c : cborNode) : outcome string :=
  match item (cn c) with
  | itFloat => Ok (floatText (extra (cn c)))
  | _ => default "" <$> exactNumberText c
  end.

Definition decimalText (c : cborNode) : outcome (option string) :=
  let n := cn c in
  match item n with
  | itFloat =>
      let f := extra n in
      match Float64frombits f with
      | SpecFloat.S754_nan | SpecFloat.S754_infinity _ => Ok (Some (floatText f))
      | _ => Ok (Some (FormatFloat_f f))
      end
  | itNumText =>
      if decide (fb n = 1)%nat
      then s ← at_index (strs (cn_doc c)) (fa n); Ok (Some (plainDecimal s (i64 (extra n))))
      else integerText (cn_doc c) n
  | _ => integerText (cn_doc c) n
  end.

(** ** JSON texts *)

(** [errBadValue] for a type that is not a date or time. *)
Definition errNoJSONForm {A} : outcome A := errorc "22P02" "invalid input syntax for type json".

Definition sep (first : bool) : string := if first then "" else ",".

Definition key_le (a b : bytes * cborNode) : Prop :=
  String.leb (string_of_bytes a.1) (string_of_bytes b.1) = true.
#[global] Instance key_le_dec a b : Decision (key_le a b).
Proof. unfold key_le. apply _. Defined.

(** The members of a map, the keys in byte order. *)
Fixpoint map_members (c : cborNode) (a count : nat) : outcome (list (bytes * cborNode)) :=
  match count with
  | O => Ok []
  | S count =>
      k ← kid c a;
      b ← cbor_bytes k;
      v ← kid c (a + 1);
      ms ← map_members c (a + 2) count;
      Ok ((b, v) :: ms)
  end.

Section write_json.
Variable rec : cborNode → outcome string.

Fixpoint write_items (first : bool) (l : list cborNode) : outcome string :=
  match l with
  | [] => Ok ""
  | x :: l => s ← rec x; r ← write_items false l; Ok (sep first +:+ s +:+ r)
  end.

Fixpoint write_members (first : bool) (l : list (bytes * cborNode)) : outcome string :=
  match l with
  | [] => Ok ""
  | (k, x) :: l =>
      s ← rec x; r ← write_members false l; Ok (sep first +:+ json_string k +:+ ":" +:+ s +:+ r)
  end.

Definition writeJSON_body (c : cborNode) : outcome string :=
  let n := cn c in
  match item n with
  | itNull => Ok "null"
  | itTrue => Ok "true"
  | itFalse => Ok "false"
  | itText => b ← cbor_bytes c; Ok (json_string b)
  | itFloat =>
      match Float64frombits (extra n) with
      | SpecFloat.S754_nan | SpecFloat.S754_infinity _ => errNoJSONForm
      | _ => Ok (FormatFloat_g (extra n))
      end
  | itInt | itUint | itNegBig | itNumText => numberText c
  | itArray =>
      ks ← array_kids c (fa n) (fb n);
      s ← write_items true ks;
      Ok ("[" +:+ s +:+ "]")
  | itMap =>
      ms ← map_members c (fa n) (fb n);
      s ← write_members true (merge_sort key_le ms);
      Ok ("{" +:+ s +:+ "}")
  | _ => errNoJSONForm
  end.
End write_json.

Fixpoint writeJSON (fuel : nat) (c : cborNode) : outcome string :=
  match fuel with
  | O => OutOfFuel
  | S fuel => writeJSON_body (writeJSON fuel) c
  end.

(** No path in the arena is longer than the arena. *)
Definition jsonText (c : cborNode) : outcome string :=
  writeJSON (S (length (nodes (cn_doc c)))) c.

Definition cbor_Raw (c : cborNode) : outcome string :=
  if decide (cbor_Kind c = KindNumber) then numberText c else jsonText c.

#[export] Instance cbor_Node : Node cborNode := {|
  Kind := cbor_Kind;
  StrictString := cbor_StrictString;
  StrictBool := cbor_StrictBool;
  StrictInt64 := cbor_StrictInt64;
  StrictFloat64 := cbor_StrictFloat64;
  ArrayItems := cbor_ArrayItems;
  ObjectGet := cbor_ObjectGet;
  ObjectEach := cbor_ObjectEach;
  Raw := cbor_Raw;
|}.

(** The other accessors of a CBOR node. *)
Definition cbor_StrictBytes (c : cborNode) : outcome bytes :=
  match item (cn c) with
  | itBytes | itUUID => cbor_bytes c
  | _ => errorf "value is not a byte string"
  end.

Definition cbor_Instant (c : cborNode) : outcome instant :=
  match item (cn c) with
  | itInstant => at_index (times (cn_doc c)) (Z.to_nat (extra (cn c)))
  | _ => errorf "value is not a date and time"
  end.

Definition cbor_Days (c : cborNode) : outcome Z :=
  match item (cn c) with
  | itDate => Ok (i64 (extra (cn c)))
  | _ => errorf "value is not an epoch-based date"
  end.
