(* ===== verification/DocumentLaws.v ===== *)
(** The contract of the [Node] interface: a node denotes an abstract document,
    and every operation returns what the document says.  The abstract document
    has the laws, and so have the nodes of a CBOR arena. *)
From Stdlib Require Import ZArith Lia Strings.Byte Ascii.
From stdpp Require Import sorting.
From S2P Require Import Prelude Cbor CborNode CborNodeFacts CborNodeSafe CborRoundTrip Text Document.
Set Warnings "-register-all".

(** * Abstract documents *)

(** A number is known by its readings as a double and as an [int64].  An object
    has the members [ObjectGet] finds, by first match, and those [ObjectEach]
    visits, which are the same when no key is repeated.  Its JSON text is a text or
    an error. *)
Inductive tree := Tree (raw : string + error) (s : shape)
with shape :=
  | SNull
  | SBool (b : bool)
  | SNumber (f i : option Z)
  | SString (s : string)
  | SArray (ts : list tree)
  | SObject (ms es : list (string * tree))
  | SOther (k : NodeKind).

Definition tree_raw (t : tree) : outcome string :=
  let 'Tree r _ := t in match r with inl s => Ok s | inr e => Err e end.
Definition tree_shape (t : tree) : shape := let 'Tree _ s := t in s.

Fixpoint assoc {A} (k : string) (ms : list (string * A)) : option A :=
  match ms with
  | [] => None
  | (k', a) :: ms => if decide (k' = k) then Some a else assoc k ms
  end.

(** The kinds [SOther] is for. *)
Definition other_kind (k : NodeKind) : NodeKind :=
  match k with
  | KindBytes | KindInstant | KindDate | KindUUID => k
  | _ => KindInvalid
  end.

Definition tree_Kind (t : tree) : NodeKind :=
  match tree_shape t with
  | SNull => KindNull
  | SBool _ => KindBool
  | SNumber _ _ => KindNumber
  | SString _ => KindString
  | SArray _ => KindArray
  | SObject _ _ => KindObject
  | SOther k => other_kind k
  end.

(** A reading, or an accessor's error. *)
Definition reading {A} (o : option A) : outcome A := of_option (errorf "value has another type") o.

Definition shape_string (s : shape) : option string := match s with SString x => Some x | _ => None end.
Definition shape_bool (s : shape) : option bool := match s with SBool b => Some b | _ => None end.
Definition shape_int64 (s : shape) : option Z := match s with SNumber _ i => i | _ => None end.
Definition shape_float64 (s : shape) : option Z := match s with SNumber f _ => f | _ => None end.
Definition shape_items (s : shape) : option (list tree) := match s with SArray ts => Some ts | _ => None end.
Definition shape_get (s : shape) (k : string) : option tree :=
  match s with SObject ms _ => assoc k ms | _ => None end.
Definition shape_each (s : shape) : option (list (string * tree)) :=
  match s with SObject _ es => Some es | _ => None end.

#[export] Instance tree_Node : Node tree := {|
  Kind := tree_Kind;
  StrictString t := reading (shape_string (tree_shape t));
  StrictBool t := reading (shape_bool (tree_shape t));
  StrictInt64 t := reading (shape_int64 (tree_shape t));
  StrictFloat64 t := reading (shape_float64 (tree_shape t));
  ArrayItems t := reading (shape_items (tree_shape t));
  ObjectGet t k := Ok (shape_get (tree_shape t) k);
  ObjectEach t := reading (shape_each (tree_shape t));
  Raw := tree_raw;
|}.

(** The levels of a document. *)
Fixpoint height (t : tree) : nat :=
  let 'Tree _ s := t in
  match s with
  | SArray ts => S (list_max (map height ts))
  | SObject ms es =>
      S (Nat.max (list_max (map (λ m, height m.2) ms)) (list_max (map (λ m, height m.2) es)))
  | _ => 1%nat
  end.

Lemma height_item t ts x : tree_shape t = SArray ts → x ∈ ts → (height x < height t)%nat.
Proof.
  destruct t as [r s]. cbn. intros -> Hx. cbn. apply Nat.lt_succ_r.
  pose proof (proj1 (list_max_le (map height ts) (list_max (map height ts))) (le_n _)) as H.
  rewrite List.Forall_forall in H. apply H, in_map. by apply list_elem_of_In.
Qed.
Lemma height_members (ms : list (string * tree)) m :
  m ∈ ms → (height m.2 ≤ list_max (map (λ m, height m.2) ms))%nat.
Proof.
  intros Hm.
  pose proof (proj1 (list_max_le (map (λ m, height m.2) ms) _) (le_n _)) as H.
  rewrite List.Forall_forall in H. apply H. apply (in_map (λ m, height m.2)). by apply list_elem_of_In.
Qed.
Lemma assoc_elem {A} k (ms : list (string * A)) x : assoc k ms = Some x → (k, x) ∈ ms.
Proof.
  induction ms as [|[k' a] ms IH]; cbn; [done|]. case_decide; [|intros; apply elem_of_cons; auto].
  intros [= ->]. subst. apply elem_of_cons. auto.
Qed.
Lemma height_get t k x : shape_get (tree_shape t) k = Some x → (height x < height t)%nat.
Proof.
  destruct t as [r []]; cbn; try done. intros H%assoc_elem%height_members. cbn in H. lia.
Qed.
Lemma height_each t es m : shape_each (tree_shape t) = Some es → m ∈ es → (height m.2 < height t)%nat.
Proof.
  destruct t as [r []]; cbn; try done. intros [= ->] H%height_members. cbn in H. lia.
Qed.

(** * The laws *)

(** An accessor's outcome, given what the document says. *)
Definition reads_as {A} (o : option A) (m : outcome A) : Prop :=
  match o with
  | Some a => m = Ok a
  | None => ∃ msg, m = Err (Error "" msg)
  end.

Class NodeLaws (N : Type) `{Node N} := {
  denotes : N → tree → Prop;
  law_Kind n t : denotes n t → Kind n = tree_Kind t;
  law_StrictString n t : denotes n t → reads_as (shape_string (tree_shape t)) (StrictString n);
  law_StrictBool n t : denotes n t → reads_as (shape_bool (tree_shape t)) (StrictBool n);
  law_StrictInt64 n t : denotes n t → reads_as (shape_int64 (tree_shape t)) (StrictInt64 n);
  law_StrictFloat64 n t : denotes n t → reads_as (shape_float64 (tree_shape t)) (StrictFloat64 n);
  law_ArrayItems n t : denotes n t →
    match shape_items (tree_shape t) with
    | Some ts => ∃ ns, ArrayItems n = Ok ns ∧ Forall2 denotes ns ts
    | None => ∃ msg, ArrayItems n = Err (Error "" msg)
    end;
  law_ObjectGet n t : denotes n t → ∀ k,
    match shape_get (tree_shape t) k with
    | Some t' => ∃ n', ObjectGet n k = Ok (Some n') ∧ denotes n' t'
    | None => ObjectGet n k = Ok None
    end;
  law_ObjectEach n t : denotes n t →
    match shape_each (tree_shape t) with
    | Some es => ∃ ns, ObjectEach n = Ok ns ∧ Forall2 (λ a b, a.1 = b.1 ∧ denotes a.2 b.2) ns es
    | None => ∃ msg, ObjectEach n = Err (Error "" msg)
    end;
  law_Raw n t : denotes n t → Raw n = tree_raw t;
}.

Lemma reads_as_reading {A} (o : option A) : reads_as o (reading o).
Proof. destruct o; cbn; [done|eauto]. Qed.

#[export] Instance tree_NodeLaws : NodeLaws tree.
Proof.
  refine {| denotes := eq |}; intros n t; try (intros ->; cbn; apply reads_as_reading).
  - by intros ->.
  - intros ->. cbn. destruct (shape_items _) as [ts|]; cbn; [|eauto].
    exists ts. split; [done|]. by apply Forall2_same_length_lookup; naive_solver.
  - intros -> k. cbn. destruct (shape_get _ _); eauto.
  - intros ->. cbn. destruct (shape_each _) as [es|]; cbn; [|eauto].
    exists es. split; [done|]. apply Forall2_same_length_lookup; naive_solver.
  - by intros ->.
Defined.

(** * CBOR nodes *)

(** The shape of a value that holds no other: integers read as [int64] within 64
    signed bits, every number as the nearest double. *)
Definition leaf_shape (v : cval) : option shape :=
  match v with
  | CNull => Some SNull
  | CBool b => Some (SBool b)
  | CInt z | CBig z => Some (SNumber (ParseFloat (dec_int z)) (if is_i64 z then Some z else None))
  | CFloat b => Some (SNumber (Some b) None)
  | CDecimal m e => Some (SNumber (ParseFloat (dec_int m +:+ "e" +:+ dec_int e)) None)
  | CText s => Some (SString (string_of_bytes s))
  | CBytes _ => Some (SOther KindBytes)
  | CArray _ | CMap _ => None
  | CInstant _ => Some (SOther KindInstant)
  | CDate _ => Some (SOther KindDate)
  | CUUID _ => Some (SOther KindUUID)
  | CBadTag _ => Some (SOther KindInvalid)
  end.

Section cbor.
(** A text that was written, as a document's. *)
Definition raw (c : cborNode) : string + error :=
  match cbor_Raw c with
  | Ok s => inl s
  | Err e => inr e
  | _ => inr (Error "" "")
  end.

Inductive cbor_denotes (c : cborDoc) : cnode → tree → Prop :=
  | cd_leaf n v s : leaf c n v → leaf_shape v = Some s →
      cbor_denotes c n (Tree (raw (CborNodeRef c n)) s)
  | cd_array n ts : item n = itArray → fb n = length ts →
      (∀ j t, ts !! j = Some t → ∃ k kn,
         kids c !! (fa n + j)%nat = Some k ∧ nodes c !! k = Some kn ∧ cbor_denotes c kn t) →
      cbor_denotes c n (Tree (raw (CborNodeRef c n)) (SArray ts))
  | cd_map n ms : item n = itMap → fb n = length ms →
      (∀ j m, ms !! j = Some m → ∃ k kv kvn b,
         kids c !! (fa n + 2 * j)%nat = Some k ∧ text_at c k b ∧ string_of_bytes b = m.1 ∧
         kids c !! (fa n + 2 * j + 1)%nat = Some kv ∧ nodes c !! kv = Some kvn ∧
         cbor_denotes c kvn m.2) →
      cbor_denotes c n (Tree (raw (CborNodeRef c n)) (SObject ms ms)).

Definition cbor_node_denotes (n : cborNode) (t : tree) : Prop := cbor_denotes (cn_doc n) (cn n) t.

Section denotes_ind.
Context (c : cborDoc) (P : cnode → tree → Prop).
Hypothesis Hleaf : ∀ n v s, leaf c n v → leaf_shape v = Some s → P n (Tree (raw (CborNodeRef c n)) s).
Hypothesis Harray : ∀ n ts, item n = itArray → fb n = length ts →
  (∀ j t, ts !! j = Some t → ∃ k kn, kids c !! (fa n + j)%nat = Some k ∧ nodes c !! k = Some kn ∧
     cbor_denotes c kn t ∧ P kn t) →
  P n (Tree (raw (CborNodeRef c n)) (SArray ts)).
Hypothesis Hmap : ∀ n ms, item n = itMap → fb n = length ms →
  (∀ j m, ms !! j = Some m → ∃ k kv kvn b,
     kids c !! (fa n + 2 * j)%nat = Some k ∧ text_at c k b ∧ string_of_bytes b = m.1 ∧
     kids c !! (fa n + 2 * j + 1)%nat = Some kv ∧ nodes c !! kv = Some kvn ∧
     cbor_denotes c kvn m.2 ∧ P kvn m.2) →
  P n (Tree (raw (CborNodeRef c n)) (SObject ms ms)).

Lemma cbor_denotes_strong_ind : ∀ n t, cbor_denotes c n t → P n t.
Proof using All.
  fix IH 3. intros n t H. destruct H as [n v s Hl Hs|n ts Hi Hb Hk|n ms Hi Hb Hk].
  - eapply Hleaf; eauto.
  - apply Harray; [done|done|]. intros j t Hj. destruct (Hk j t Hj) as (k & kn & H1 & H2 & H3).
    exists k, kn. split_and!; try done. by apply IH.
  - apply Hmap; [done|done|]. intros j m Hj.
    destruct (Hk j m Hj) as (k & kv & kvn & b & H1 & H2 & H3 & H4 & H5 & H6).
    exists k, kv, kvn, b. split_and!; try done. by apply IH.
Qed.
End denotes_ind.

(** Choosing one document for each element. *)
Lemma choose_list {A B} (P : nat → A → B → Prop) (l : list A) :
  (∀ j a, l !! j = Some a → ∃ b, P j a b) →
  ∃ bs, length bs = length l ∧ ∀ j b, bs !! j = Some b → ∃ a, l !! j = Some a ∧ P j a b.
Proof.
  revert P. induction l as [|a l IH]; intros P H; [by exists []|].
  destruct (H 0%nat a eq_refl) as [b Hb].
  destruct (IH (λ j, P (S j))) as (bs & Hl & Hbs); [intros j a' Hj; by apply (H (S j))|].
  exists (b :: bs). split; [cbn; congruence|]. intros [|j] b'; cbn; [naive_solver|apply Hbs].
Qed.

(** A value read in the arena is a document. *)
Lemma reads_denotes c lo i v :
  reads c lo i v → ∃ n t, nodes c !! i = Some n ∧ cbor_denotes c n t.
Proof.
  revert i v. apply (reads_strong_ind c lo (λ i _, ∃ n t, nodes c !! i = Some n ∧ cbor_denotes c n t)).
  - intros i n v Hn Hl.
    assert (∃ s, leaf_shape v = Some s) as [s Hs] by (inversion Hl; eexists; reflexivity).
    exists n, (Tree (raw (CborNodeRef c n)) s). split; [done|]. by eapply cd_leaf.
  - intros i n vs Hn Hi Hlo Hb Hk.
    destruct (choose_list (λ j (v : cval) t, ∃ k kn, kids c !! (fa n + j)%nat = Some k ∧
      nodes c !! k = Some kn ∧ cbor_denotes c kn t) vs) as (ts & Hl & Hts).
    { intros j v Hj. destruct (Hk j v Hj) as (k & Hkk & kn & t & ? & ?). eauto 10. }
    eexists n, _. split; [done|]. apply (cd_array c n ts); [done|congruence|].
    intros j t Hj. by destruct (Hts j t Hj) as (? & _ & ?).
  - intros i n ms Hn Hi Hlo Hb Hk _.
    destruct (choose_list (λ j (m : bytes * cval) (m' : string * tree), ∃ k kv kvn b,
      kids c !! (fa n + 2 * j)%nat = Some k ∧ text_at c k b ∧ string_of_bytes b = m'.1 ∧
      kids c !! (fa n + 2 * j + 1)%nat = Some kv ∧ nodes c !! kv = Some kvn ∧
      cbor_denotes c kvn m'.2) ms) as (ts & Hl & Hts).
    { intros j m Hj. destruct (Hk j m Hj) as (k & kv & H1 & H2 & H3 & kvn & t & H4 & H5).
      exists (string_of_bytes m.1, t), k, kv, kvn, m.1. done. }
    eexists n, _. split; [done|]. apply (cd_map c n ts); [done|congruence|].
    intros j t Hj. by destruct (Hts j t Hj) as (? & _ & ?).
Qed.

Local Abbreviation Ref := CborNodeRef.

Lemma kid_ok c n j k kn :
  kids c !! j = Some k → nodes c !! k = Some kn → kid (Ref c n) j = Ok (Ref c kn).
Proof. intros Hk Hn. unfold kid, at_index. cbn. rewrite Hk. cbn. by rewrite Hn. Qed.

Lemma array_kids_denote c n a (ts : list tree) :
  (∀ j t, ts !! j = Some t → ∃ k kn,
     kids c !! (a + j)%nat = Some k ∧ nodes c !! k = Some kn ∧ cbor_denotes c kn t) →
  ∃ ns, array_kids (Ref c n) a (length ts) = Ok ns ∧ Forall2 cbor_node_denotes ns ts.
Proof.
  revert a. induction ts as [|t ts IH]; intros a H; cbn [array_kids length]; [eauto|].
  destruct (H 0%nat t eq_refl) as (k & kn & Hk & Hn & Hd). rewrite Nat.add_0_r in Hk.
  rewrite (kid_ok _ _ _ _ _ Hk Hn). cbn.
  destruct (IH (S a)) as (ns & -> & Hns).
  { intros j t' Hj. destruct (H (S j) t' Hj) as (k' & ? & ? & ?).
    replace (S a + j)%nat with (a + S j)%nat by lia. eauto. }
  eexists. split; [done|]. by constructor.
Qed.

Definition members_denoted (c : cborDoc) (a : nat) (ms : list (string * tree)) : Prop :=
  ∀ j m, ms !! j = Some m → ∃ k kv kvn b,
    kids c !! (a + 2 * j)%nat = Some k ∧ text_at c k b ∧ string_of_bytes b = m.1 ∧
    kids c !! (a + 2 * j + 1)%nat = Some kv ∧ nodes c !! kv = Some kvn ∧ cbor_denotes c kvn m.2.

Lemma members_denoted_cons c a m ms :
  members_denoted c a (m :: ms) →
  (∃ k kn b kv kvn, kids c !! a = Some k ∧ nodes c !! k = Some kn ∧
     cnode_bytes c kn = Ok b ∧ string_of_bytes b = m.1 ∧
     kids c !! (a + 1)%nat = Some kv ∧ nodes c !! kv = Some kvn ∧ cbor_denotes c kvn m.2) ∧
  members_denoted c (a + 2) ms.
Proof.
  intros H. split.
  - destruct (H 0%nat m eq_refl) as (k & kv & kvn & b & H1 & (kn & ? & _ & ? & _) & H3 & H4 & H5 & H6).
    rewrite Nat.mul_0_r, Nat.add_0_r in *. eauto 20.
  - intros j m' Hj. destruct (H (S j) m' Hj) as (k & kv & kvn & b & H1 & H2 & H3 & H4 & H5).
    replace (a + 2 * S j)%nat with (a + 2 + 2 * j)%nat in * by lia. eauto 20.
Qed.

Lemma map_pairs_denote c n a ms :
  members_denoted c a ms →
  ∃ ns, map_pairs (Ref c n) a (length ms) = Ok ns ∧
    Forall2 (λ x y, x.1 = y.1 ∧ cbor_node_denotes x.2 y.2) ns ms.
Proof.
  revert a. induction ms as [|m ms IH]; intros a H; cbn [map_pairs length]; [eauto|].
  apply members_denoted_cons in H as [(k & kn & b & kv & kvn & H1 & H2 & H3 & H4 & H5 & H6 & H7) H].
  rewrite (kid_ok _ _ _ _ _ H1 H2). cbn. unfold cbor_bytes. cbn. rewrite H3. cbn.
  rewrite (kid_ok _ _ _ _ _ H5 H6). cbn. destruct (IH _ H) as (ns & -> & Hns). cbn.
  eexists. split; [done|]. by constructor.
Qed.

Lemma get_pair_denote c n a ms key :
  members_denoted c a ms →
  match assoc key ms with
  | Some t => ∃ n', get_pair (Ref c n) key a (length ms) = Ok (Some n') ∧ cbor_node_denotes n' t
  | None => get_pair (Ref c n) key a (length ms) = Ok None
  end.
Proof.
  revert a. induction ms as [|[x t] ms IH]; intros a H; cbn [get_pair length assoc]; [done|].
  apply members_denoted_cons in H as [(k & kn & b & kv & kvn & H1 & H2 & H3 & H4 & H5 & H6 & H7) H].
  rewrite (kid_ok _ _ _ _ _ H1 H2). cbn. unfold cbor_bytes. cbn. rewrite H3. cbn.
  cbn in H4. rewrite H4. case_decide.
  - rewrite (kid_ok _ _ _ _ _ H5 H6). cbn. eauto.
  - by apply IH.
Qed.

Lemma SetString10_minus s :
  all_digits s = true → s ≠ "" → SetString10 (String "-" s) = Some (- dec_value s).
Proof.
  intros Hs Hne. unfold SetString10. destruct (String.eqb_spec s ""); [done|]. by rewrite Hs.
Qed.

Lemma ParseInt64_dec_int z : ParseInt64 (dec_int z) = if is_i64 z then Some z else None.
Proof.
  unfold ParseInt64. assert (SetString10 (dec_int z) = Some z) as ->; [|done].
  unfold dec_int. destruct (Z.ltb_spec z 0).
  - rewrite SetString10_minus; [|apply dec_nat_digits; lia|apply dec_nat_nonempty].
    rewrite dec_nat_value by lia. f_equal. lia.
  - rewrite SetString10_digits; [by rewrite dec_nat_value|by apply dec_nat_digits|apply dec_nat_nonempty].
Qed.

Lemma leaf_exactNumberText c n v :
  leaf c n v →
  match v with
  | CInt z | CBig z => exactNumberText (Ref c n) = Ok (Some (dec_int z))
  | CDecimal m e => exactNumberText (Ref c n) = Ok (Some (dec_int m +:+ "e" +:+ dec_int e))
  | _ => True
  end.
Proof.
  intros Hl. pose proof (integerText_leaf _ _ _ Hl) as Ht. unfold exactNumberText. cbn [cn cn_doc].
  destruct v; try done; inversion Hl; subst;
    repeat match goal with H : item _ = _ |- _ => rewrite H; clear H end; try done.
  - by rewrite decide_False by congruence.
  - rewrite decide_True by done. unfold at_index.
    match goal with H : strs _ !! _ = _ |- _ => rewrite H end. done.
Qed.

Lemma reads_as_err {A} msg : reads_as (A := A) None (errorf msg).
Proof. cbn. eauto. Qed.

Lemma i64_is_i64 u : 0 ≤ u < 2 ^ 64 → is_i64 (i64 u) = true.
Proof. unfold is_i64, i64, MinInt64, MaxInt64. intros. destruct (Z.ltb_spec u (2 ^ 63)); lia. Qed.
Lemma not_i64 z : z < - 2 ^ 63 ∨ 2 ^ 63 ≤ z → is_i64 z = false.
Proof. unfold is_i64, MinInt64, MaxInt64. lia. Qed.

Lemma StrictFloat64_leaf c n v s :
  leaf c n v → leaf_shape v = Some s → reads_as (shape_float64 s) (cbor_StrictFloat64 (Ref c n)).
Proof.
  intros Hl Hs. pose proof (leaf_exactNumberText c n v Hl) as Ht.
  unfold cbor_StrictFloat64, cbor_Kind. cbn [cn].
  assert (∀ txt, exactNumberText (Ref c n) = Ok (Some txt) →
    reads_as (ParseFloat txt) (text ← exactNumberText (Ref c n);
      match ParseFloat (default "" text) with
      | Some f => Ok f
      | None => errorf "strconv.ParseFloat: parsing %q: value out of range"
      end)) as Hgo.
  { intros txt ->. cbn. destruct (ParseFloat txt); cbn; eauto. }
  destruct Hl; injection Hs as <-;
    match goal with H : item _ = _ |- _ => rewrite H end; cbn [shape_float64];
    try apply reads_as_err; try (rewrite bool_decide_true by done; by apply Hgo).
  done.
Qed.

(** ** JSON texts *)

Lemma leaf_height c n v s :
  leaf c n v → leaf_shape v = Some s →
  height (Tree (raw (Ref c n)) s) = 1%nat ∧ item n ≠ itArray ∧ item n ≠ itMap.
Proof. intros Hl. destruct Hl; intros [= <-]; (split_and!; [done|congruence|congruence]). Qed.

(** A node has one height. *)
Lemma denotes_height c n t : cbor_denotes c n t → ∀ t', cbor_denotes c n t' → height t = height t'.
Proof.
  revert n t. apply (cbor_denotes_strong_ind c (λ n t, ∀ t', cbor_denotes c n t' → height t = height t')).
  - intros n v s Hl Hs t' Ht'. destruct (leaf_height _ _ _ _ Hl Hs) as (-> & ? & ?).
    destruct Ht' as [n v' s' Hl' Hs'|n ts' Hi' _ _|n ms' Hi' _ _]; [|congruence..].
    by destruct (leaf_height _ _ _ _ Hl' Hs') as (-> & _).
  - intros n ts Hi Hb Hk t' Ht'.
    destruct Ht' as [n v' s' Hl' Hs'|n ts' Hi' Hb' Hk'|n ms' Hi' _ _]; [|clear Hi'|congruence].
    { destruct (leaf_height _ _ _ _ Hl' Hs') as (_ & ? & ?). congruence. }
    cbn. do 2 f_equal. apply (list_eq_same_length _ _ (length ts)); [rewrite length_map; congruence..|].
    intros j x y _ Hx Hy. rewrite list_lookup_fmap in Hx, Hy.
    destruct (ts !! j) as [a|] eqn:Ea; [|done]. destruct (ts' !! j) as [b|] eqn:Eb; [|done].
    injection Hx as <-. injection Hy as <-.
    destruct (Hk j a Ea) as (k & kn & H1 & H2 & _ & IH).
    destruct (Hk' j b Eb) as (k' & kn' & H1' & H2' & Hd').
    simplify_eq. by apply IH.
  - intros n ms Hi Hb Hk t' Ht'.
    destruct Ht' as [n v' s' Hl' Hs'|n ts' Hi' Hb' Hk'|n ms' Hi' Hb' Hk']; [|congruence|clear Hi'].
    { destruct (leaf_height _ _ _ _ Hl' Hs') as (_ & ? & ?). congruence. }
    cbn. rewrite !Nat.max_id. do 2 f_equal.
    apply (list_eq_same_length _ _ (length ms)); [rewrite length_map; congruence..|].
    intros j x y _ Hx Hy. rewrite list_lookup_fmap in Hx, Hy.
    destruct (ms !! j) as [a|] eqn:Ea; [|done]. destruct (ms' !! j) as [b|] eqn:Eb; [|done].
    injection Hx as <-. injection Hy as <-.
    destruct (Hk j a Ea) as (k & kv & kvn & tx & _ & _ & _ & H1 & H2 & _ & IH).
    destruct (Hk' j b Eb) as (k' & kv' & kvn' & tx' & _ & _ & _ & H1' & H2' & Hd').
    simplify_eq. by apply IH.
Qed.

Lemma list_max_elem (l : list nat) : l ≠ [] → list_max l ∈ l.
Proof.
  induction l as [|x l IH]; [done|]. intros _.
  assert (list_max (x :: l) = Nat.max x (list_max l)) as -> by done.
  destruct (decide (l = [])) as [->|Hl]; [cbn; rewrite Nat.max_0_r; by left|].
  destruct (Nat.max_spec x (list_max l)) as [[_ ->]|[_ ->]]; [right; by apply IH|by left].
Qed.

(** Below a node there is one of each lesser height. *)
Definition tower (c : cborDoc) (h : nat) (l : list cnode) : Prop :=
  NoDup l ∧ S (length l) = h ∧
  ∀ m, m ∈ l → m ∈ nodes c ∧ ∃ t, cbor_denotes c m t ∧ (height t < h)%nat.

Lemma tower_step c n t l :
  n ∈ nodes c → cbor_denotes c n t → tower c (height t) l → tower c (S (height t)) (n :: l).
Proof.
  intros Hn Hd (Hnd & Hlen & Hl). split_and!.
  - constructor; [|done]. intros Hin. destruct (Hl n Hin) as (_ & t' & Hd' & Hlt).
    rewrite (denotes_height _ _ _ Hd _ Hd') in Hlt. lia.
  - cbn. lia.
  - intros m [->|Hm]%elem_of_cons; [split; [done|]; exists t; split; [done|lia]|].
    destruct (Hl m Hm) as (? & t' & ? & ?). split; [done|]. exists t'. split; [done|lia].
Qed.

Lemma tower_of_kids {A} (f : A → tree) c (l : list A) :
  (∀ a, a ∈ l → ∃ n, n ∈ nodes c ∧ cbor_denotes c n (f a) ∧ ∃ k, tower c (height (f a)) k) →
  ∃ k, tower c (S (list_max (map (λ a, height (f a)) l))) k.
Proof.
  intros Hl. destruct (decide (l = [])) as [->|Hne].
  { exists []. split_and!; [constructor|done|]. by intros m ?%elem_of_nil. }
  pose proof (list_max_elem (map (λ a, height (f a)) l)) as Hm.
  apply list_elem_of_fmap in Hm as (a & -> & Ha); [|by destruct l].
  destruct (Hl a Ha) as (n & Hn & Hd & k & Hk). exists (n :: k). by apply tower_step.
Qed.

Lemma denotes_tower c n t : cbor_denotes c n t → ∃ l, tower c (height t) l.
Proof.
  revert n t. apply (cbor_denotes_strong_ind c (λ n t, ∃ l, tower c (height t) l)).
  - intros n v s Hl Hs. destruct (leaf_height _ _ _ _ Hl Hs) as (-> & _). exists [].
    split_and!; [constructor|done|]. by intros m ?%elem_of_nil.
  - intros n ts Hi Hb Hk. apply (tower_of_kids id). intros t (j & Hj)%list_elem_of_lookup.
    destruct (Hk j t Hj) as (k & kn & _ & H2 & Hd & IH). exists kn.
    split; [by eapply list_elem_of_lookup_2|]. done.
  - intros n ms Hi Hb Hk. cbn. rewrite Nat.max_id. apply (tower_of_kids snd).
    intros m (j & Hj)%list_elem_of_lookup.
    destruct (Hk j m Hj) as (k & kv & kvn & b & _ & _ & _ & _ & H2 & Hd & IH). exists kvn.
    split; [by eapply list_elem_of_lookup_2|]. done.
Qed.

(** A document of the arena is not higher than the arena is long. *)
Lemma height_arena c n t : cbor_denotes c n t → (height t ≤ S (length (nodes c)))%nat.
Proof.
  intros (l & Hnd & <- & Hl)%denotes_tower. apply le_n_S, submseteq_length, NoDup_submseteq; [done|].
  intros m Hm. by apply Hl.
Qed.

Lemma write_items_returns rec first l :
  (∀ x, x ∈ l → returns (rec x)) → returns (write_items rec first l).
Proof.
  revert first. induction l as [|x l IH]; intros first Hl; cbn [write_items]; [done|].
  apply returns_bind; [apply Hl; by left|]. intros s _.
  apply returns_bind; [apply IH; intros; apply Hl; by right|]. done.
Qed.

Lemma write_members_returns rec first l :
  (∀ x, x ∈ l → returns (rec x.2)) → returns (write_members rec first l).
Proof.
  revert first. induction l as [|[k x] l IH]; intros first Hl; cbn [write_members]; [done|].
  apply returns_bind; [apply (Hl (k, x)); by left|]. intros s _.
  apply returns_bind; [apply IH; intros; apply Hl; by right|]. done.
Qed.

Lemma map_members_denote c n a ms :
  members_denoted c a ms →
  ∃ ns, map_members (Ref c n) a (length ms) = Ok ns ∧
    Forall2 (λ x m, cbor_node_denotes x.2 m.2) ns ms.
Proof.
  revert a. induction ms as [|m ms IH]; intros a H; cbn [map_members length]; [eauto|].
  apply members_denoted_cons in H as [(k & kn & b & kv & kvn & H1 & H2 & H3 & H4 & H5 & H6 & H7) H].
  rewrite (kid_ok _ _ _ _ _ H1 H2). cbn. unfold cbor_bytes. cbn. rewrite H3. cbn.
  rewrite (kid_ok _ _ _ _ _ H5 H6). cbn. destruct (IH _ H) as (ns & -> & Hns). cbn.
  eexists. split; [done|]. by constructor.
Qed.

Lemma numberText_returns c n v : leaf c n v → cbor_Kind (Ref c n) = KindNumber → returns (numberText (Ref c n)).
Proof.
  intros Hl Hk. pose proof (leaf_exactNumberText c n v Hl) as Ht. unfold numberText, cbor_Kind in *.
  cbn [cn] in *. destruct Hl;
    match goal with H : item _ = _ |- _ => rewrite H in *; clear H end; try done; by rewrite Ht.
Qed.

Lemma writeJSON_returns fuel n t :
  cbor_node_denotes n t → (height t ≤ fuel)%nat → returns (writeJSON fuel n).
Proof.
  revert n t. induction fuel as [|fuel IH]; intros [c n] t Hd Hf.
  { destruct t as [r []]; cbn in Hf; lia. }
  unfold cbor_node_denotes in Hd. cbn [cn cn_doc writeJSON] in *. unfold writeJSON_body. cbn [cn].
  destruct Hd as [n v s Hl Hs|n ts Hi Hb Hk|n ms Hi Hb Hk].
  - pose proof (numberText_returns c n v Hl) as Hn. unfold cbor_Kind in Hn. cbn [cn] in Hn.
    destruct Hl; match goal with H : item _ = _ |- _ => rewrite H in *; clear H end;
      cbn beta iota delta [returns errNoJSONForm errorc] in *;
      lazymatch goal with
      | |- True => exact I
      | |- context [Float64frombits ?z] => by destruct (Float64frombits z)
      | |- context [cbor_bytes] => unfold cbor_bytes; cbn [cn cn_doc]
      | |- _ => exact (Hn eq_refl)
      end.
    match goal with H : cnode_bytes _ _ = _ |- _ => rewrite H end. exact I.
  - rewrite Hi, Hb. destruct (array_kids_denote c n (fa n) ts Hk) as (ns & -> & Hns). cbn.
    apply returns_bind; [|done]. apply write_items_returns. intros x (j & Hx)%list_elem_of_lookup.
    destruct (Forall2_lookup_l _ _ _ _ _ Hns Hx) as (y & Hy & Hxy). apply (IH _ _ Hxy).
    eapply Nat.lt_succ_r, Nat.lt_le_trans; [|exact Hf].
    eapply height_item; [done|]. by eapply list_elem_of_lookup_2.
  - rewrite Hi, Hb. destruct (map_members_denote c n (fa n) ms Hk) as (ns & -> & Hns). cbn.
    apply returns_bind; [|done]. apply write_members_returns.
    intros x Hx. rewrite merge_sort_Permutation in Hx. apply list_elem_of_lookup in Hx as (j & Hx).
    destruct (Forall2_lookup_l _ _ _ _ _ Hns Hx) as (y & Hy & Hxy). apply (IH _ _ Hxy).
    eapply Nat.lt_succ_r, Nat.lt_le_trans; [|exact Hf].
    eapply (height_each _ ms y); [done|]. by eapply list_elem_of_lookup_2.
Qed.

Lemma cbor_Raw_returns n t : cbor_node_denotes n t → returns (cbor_Raw n).
Proof.
  intros Hd. unfold cbor_Raw. case_decide as Hk.
  - destruct n as [c nd]. unfold cbor_node_denotes in Hd. cbn [cn cn_doc] in Hd.
    destruct Hd as [nd v s Hl Hs|nd ts Hi _ _|nd ms Hi _ _]; [exact (numberText_returns _ _ _ Hl Hk)|..];
      unfold cbor_Kind in Hk; cbn [cn] in *; by rewrite Hi in Hk.
  - eapply writeJSON_returns; [exact Hd|]. exact (height_arena _ _ _ Hd).
Qed.

#[export] Instance cbor_NodeLaws : NodeLaws cborNode.
Proof.
  refine {| denotes := cbor_node_denotes |}; intros [c n] t Hd; unfold cbor_node_denotes in Hd;
    cbn [cn_doc cn] in Hd; cbn [Kind StrictString StrictBool StrictInt64 StrictFloat64 ArrayItems
      ObjectGet ObjectEach Raw cbor_Node].
  - unfold cbor_Kind, tree_Kind. cbn [cn].
    destruct Hd as [n v s Hl Hs|n ts Hi _ _|n ms Hi _ _]; cbn [tree_shape]; [|by rewrite Hi..].
    destruct Hl; injection Hs as <-;
      repeat match goal with H : item _ = _ |- _ => rewrite H; clear H end; done.
  - unfold cbor_StrictString, cbor_bytes. cbn [cn cn_doc].
    destruct Hd as [n v s Hl Hs|n ts Hi _ _|n ms Hi _ _]; cbn [tree_shape];
      [|rewrite Hi; apply reads_as_err..].
    destruct Hl; injection Hs as <-;
      repeat match goal with H : item _ = _ |- _ => rewrite H; clear H end;
      try apply reads_as_err; cbn.
    by match goal with H : cnode_bytes _ _ = _ |- _ => rewrite H end.
  - unfold cbor_StrictBool. cbn [cn].
    destruct Hd as [n v s Hl Hs|n ts Hi _ _|n ms Hi _ _]; cbn [tree_shape];
      [|rewrite Hi; apply reads_as_err..].
    destruct Hl; injection Hs as <-;
      repeat match goal with H : item _ = _ |- _ => rewrite H; clear H end;
      try apply reads_as_err; done.
  - unfold cbor_StrictInt64. cbn [cn cn_doc].
    destruct Hd as [n v s Hl Hs|n ts Hi _ _|n ms Hi _ _]; cbn [tree_shape];
      [|rewrite Hi; apply reads_as_err..].
    destruct Hl; injection Hs as <-;
      repeat match goal with H : item _ = _ |- _ => rewrite H; clear H end;
      try apply reads_as_err; cbn [shape_int64].
    + rewrite i64_is_i64 by done. done.
    + rewrite not_i64 by lia. apply reads_as_err.
    + rewrite not_i64 by lia. apply reads_as_err.
    + rewrite decide_True by done. unfold at_index.
      match goal with H : strs _ !! _ = _ |- _ => rewrite H end. cbn.
      rewrite ParseInt64_dec_int. destruct (is_i64 z); [done|apply reads_as_err].
    + rewrite decide_False by congruence. apply reads_as_err.
  - destruct Hd as [n v s Hl Hs|n ts Hi _ _|n ms Hi _ _]; cbn [tree_shape].
    2,3: unfold cbor_StrictFloat64, cbor_Kind; cbn [cn]; rewrite Hi; apply reads_as_err.
    by eapply StrictFloat64_leaf.
  - unfold cbor_ArrayItems. cbn [cn].
    destruct Hd as [n v s Hl Hs|n ts Hi Hb Hk|n ms Hi _ _]; cbn [tree_shape].
    + destruct Hl; injection Hs as <-;
        repeat match goal with H : item _ = _ |- _ => rewrite H; clear H end; eexists; reflexivity.
    + rewrite Hi, Hb. by apply array_kids_denote.
    + rewrite Hi. eexists. reflexivity.
  - intros key. unfold cbor_ObjectGet. cbn [cn].
    destruct Hd as [n v s Hl Hs|n ts Hi Hb Hk|n ms Hi Hb Hk]; cbn [tree_shape].
    + destruct Hl; injection Hs as <-;
        repeat match goal with H : item _ = _ |- _ => rewrite H; clear H end; reflexivity.
    + rewrite Hi. reflexivity.
    + rewrite Hi, Hb. cbn. by apply get_pair_denote.
  - unfold cbor_ObjectEach. cbn [cn].
    destruct Hd as [n v s Hl Hs|n ts Hi _ _|n ms Hi Hb Hk]; cbn [tree_shape].
    + destruct Hl; injection Hs as <-;
        repeat match goal with H : item _ = _ |- _ => rewrite H; clear H end; eexists; reflexivity.
    + rewrite Hi. eexists. reflexivity.
    + rewrite Hi, Hb. cbn. by apply map_pairs_denote.
  - pose proof (cbor_Raw_returns (CborNodeRef c n) t Hd) as Hr.
    assert (tree_raw t = match raw (CborNodeRef c n) with inl s => Ok s | inr e => Err e end) as ->
      by by destruct Hd.
    unfold raw. by destruct (cbor_Raw _).
Defined.
End cbor.
