(* ===== verification/Catalog.v ===== *)
(** The introspected schema: [src/pg].

    A [*Type] is its oid, a [*Relation] its [pg_class] oid and a [*Function] its
    position in [DbInfos.Functions]; the maps of [DbInfos] give what they point
    to.  A [*Column] is its value.  The rows introspection starts from are what
    the catalog queries return. *)
From Stdlib Require Import ZArith Lia Ascii.
From S2P Require Import Prelude Writer.

Record SqlIdentifier := MkIdent { id_schema : string; id_name : string }.
#[global] Instance SqlIdentifier_eq_dec : EqDecision SqlIdentifier.
Proof. solve_decision. Defined.

Definition EscapeIdentifierPart (name : string) : string := quote +:+ double_quotes name +:+ quote.
Definition EscapedString (i : SqlIdentifier) : string :=
  EscapeIdentifierPart (id_schema i) +:+ "." +:+ EscapeIdentifierPart (id_name i).

Record Column := MkColumn {
  col_name : string;
  col_type : Z;                  (* Type *)
  col_declared : string;         (* DeclaredType *)
  DefaultExpression : string;
  IsPrimaryKey : bool;
  IsIdentity : bool;
  IsGenerated : bool;
  IsParOfUnique : bool;
  IsNullable : bool;
  IsUpdatable : bool;
}.
#[global] Instance Column_eq_dec : EqDecision Column.
Proof. solve_decision. Defined.

Record PgType := MkType {
  ty_ident : SqlIdentifier;
  ty_array : option Z;           (* ArrayType *)
  ty_elem : option Z;            (* ElementType *)
  ty_base : option Z;            (* BaseType *)
  ty_rel : option Z;             (* Relation *)
  PgDomainNotNull : bool;
  EnumLabels : list string;
}.

Inductive ConstraintType := PrimaryKeyConstraint | UniqueConstraint | OutgoingForeignKey | IncomingForeignKey.
#[global] Instance ConstraintType_eq_dec : EqDecision ConstraintType.
Proof. solve_decision. Defined.

(** [Target] is the other side: its relation and its columns.  A [*Column] is its
    name, a nil one [None]: the connecting role does not see the column. *)
Record Constraint := MkConstraint {
  con_relation : Z;
  con_name : string;
  con_type : ConstraintType;
  con_columns : list (option string);
  con_target : option (Z * list (option string));
}.
#[global] Instance Constraint_eq_dec : EqDecision Constraint.
Proof. solve_decision. Defined.

Inductive ArgMode := ModeIn | ModeOut | ModeInOut | ModeVariadic | ModeTable.
Record FunctionArgument := MkArg { arg_name : string; arg_type : Z; arg_mode : ArgMode }.
Record Function_ := MkFunction {
  fn_ident : SqlIdentifier;
  fn_arguments : list FunctionArgument;
  PgNargs : Z;
  PgNargsDefaults : Z;
  PgKind : string;
  ReturnsSet : bool;
  fn_return : Z;                 (* ReturnType *)
  fn_record : option (list Column);   (* RecordRelation's columns *)
}.

Record Relation := MkRelation {
  rel_ident : SqlIdentifier;
  IsSynthetic : bool;
  IsView : bool;
  IsMaterializedView : bool;
  IsStandaloneCompositeType : bool;
  Columns : list Column;
  ComputedFields : gmap string nat;
  rel_type : Z;
  PrimaryKey : option Constraint;
  byName : gmap string Constraint;
  uniqueColumnGroups : gmap string Constraint;
  byOtherRelation : gmap Z (list Constraint);
  indexCoverage : gset string;
}.

Record DbInfos := MkDbInfos {
  Relations : gmap Z Relation;            (* RelationMapByRelid *)
  RelationMapBySchemaName : gmap string (gmap string Z);
  Functions : list Function_;
  FunctionsBySchemaName : gmap string (gmap string (list nat));
  TypeMapByOid : gmap Z PgType;
  SearchPath : list string;
}.

Definition GetRelation (d : DbInfos) (relid : Z) : option Relation := Relations d !! relid.

(** * Columns and types *)

(** The map of a relation's columns by name, later columns overriding. *)
Definition ColumnsMap (cols : list Column) : gmap string Column :=
  foldl (λ m c, <[col_name c := c]> m) ∅ cols.

Definition IsArray (d : DbInfos) (t : Z) : bool :=
  match TypeMapByOid d !! t with
  | Some ty =>
      match ty_elem ty with
      | Some e =>
          match TypeMapByOid d !! e with
          | Some el => bool_decide (ty_array el = Some t)
          | None => false
          end
      | None => false
      end
  | None => false
  end.

(** [Underlying] follows the chain of domains; [fuel] bounds its length. *)
Fixpoint Underlying (fuel : nat) (d : DbInfos) (t : Z) : outcome Z :=
  match fuel with
  | O => OutOfFuel
  | S fuel =>
      match TypeMapByOid d !! t with
      | Some ty => match ty_base ty with Some b => Underlying fuel d b | None => Ok t end
      | None => Ok t
      end
  end.

(** Domains do not form cycles: a chain is no longer than there are types. *)
Definition domain_fuel (d : DbInfos) : nat := S (size (TypeMapByOid d)).

Definition CompositeRelation (d : DbInfos) (t : Z) : outcome (option Z) :=
  u ← Underlying (domain_fuel d) d t;
  Ok (TypeMapByOid d !! u ≫= ty_rel).

Definition ElementType (d : DbInfos) (t : Z) : option Z := TypeMapByOid d !! t ≫= ty_elem.

Definition IsReallyNotNull (d : DbInfos) (c : Column) : outcome bool :=
  if negb (IsNullable c) then Ok true else PgDomainNotNull <$> of_option Panic (TypeMapByOid d !! col_type c).

(** * Lookup by name *)

Definition lookup2 {A} (m : gmap string (gmap string A)) (s n : string) : option A := m !! s ≫= (.!! n).

Fixpoint first_schema {A} (m : gmap string (gmap string A)) (path : list string) (name : string) : option A :=
  match path with
  | [] => None
  | s :: path => match lookup2 m s name with Some a => Some a | None => first_schema m path name end
  end.

Definition ResolveRelation (d : DbInfos) (schema name : string) : option Z :=
  if negb (String.eqb schema "") then lookup2 (RelationMapBySchemaName d) schema name
  else first_schema (RelationMapBySchemaName d) (SearchPath d) name.

(** A schema whose overload set is empty is passed over. *)
Fixpoint first_functions (m : gmap string (gmap string (list nat))) (path : list string) (name : string) : list nat :=
  match path with
  | [] => []
  | s :: path =>
      match default [] (lookup2 m s name) with
      | [] => first_functions m path name
      | fns => fns
      end
  end.

Definition ResolveFunctionCandidates (d : DbInfos) (schema name : string) : list nat :=
  if negb (String.eqb schema "") then default [] (lookup2 (FunctionsBySchemaName d) schema name)
  else first_functions (FunctionsBySchemaName d) (SearchPath d) name.

(** [buildLookupIndices]: relations by schema and name, functions in order. *)
Definition index_relation (m : gmap string (gmap string Z)) (p : Z * Relation) : gmap string (gmap string Z) :=
  let i := rel_ident p.2 in
  <[id_schema i := <[id_name i := p.1]> (default ∅ (m !! id_schema i))]> m.
Definition index_function (m : gmap string (gmap string (list nat))) (p : nat * Function_)
    : gmap string (gmap string (list nat)) :=
  let i := fn_ident p.2 in
  let by_schema := default ∅ (m !! id_schema i) in
  <[id_schema i := <[id_name i := default [] (by_schema !! id_name i) ++ [p.1]]> by_schema]> m.
Definition buildLookupIndices (rels : list (Z * Relation)) (fns : list Function_)
    : gmap string (gmap string Z) * gmap string (gmap string (list nat)) :=
  (foldl index_relation ∅ rels, foldl index_function ∅ (imap pair fns)).

(** * Functions *)

Definition IsVariadic (a : FunctionArgument) : bool := match arg_mode a with ModeVariadic => true | _ => false end.
Definition is_input (a : FunctionArgument) : bool :=
  match arg_mode a with ModeIn | ModeInOut | ModeVariadic => true | _ => false end.
Definition FirstInputArg (f : Function_) : option FunctionArgument := head (filter (λ a, is_input a = true) (fn_arguments f)).
Definition IsPlainFunction (f : Function_) : bool := String.eqb (PgKind f) "f".
Definition IsAggregate (f : Function_) : bool := String.eqb (PgKind f) "a".

Definition AcceptsArity (f : Function_) (n : Z) : bool :=
  let min := PgNargs f - PgNargsDefaults f in
  let variadic := existsb IsVariadic (fn_arguments f) in
  let min := if variadic && (PgNargs f - 1 <? min) then PgNargs f - 1 else min in
  if n <? min then false
  else if n <=? PgNargs f then true
  else variadic.
