(* ===== verification/Joins.v ===== *)
(** Keys, indexes and joins: [src/pg/info_constraint.go], [src/pg/info_index.go]
    and [src/pg/info_computed.go].

    Column sets are map keys: the names sorted and joined with commas.  Filling
    is a fold over the rows of the catalog queries, in their order; a row names
    every column of the key, also those the role does not see. *)
From Stdlib Require Import ZArith Lia Ascii.
From stdpp Require Import sorting.
From S2P Require Import Prelude Writer Catalog.

(** [sort.Strings] *)
Definition string_le (a b : string) : Prop := String.leb a b = true.
#[global] Instance string_le_dec a b : Decision (string_le a b).
Proof. unfold string_le. apply _. Defined.

Definition sort_strings (l : list string) : list string := merge_sort string_le l.

Definition sortedColumnKey (columns : list string) : string := join "," (sort_strings columns).

(** * Filling *)

(** [dbConstraint], a row of the constraints query. *)
Record dbConstraint := MkDbConstraint {
  dbc_relid : Z;
  dbc_target : Z;
  dbc_name : string;
  dbc_type : string;
  dbc_columns : list string;
  dbc_target_columns : list string;
}.

Definition update_relation (f : Relation → Relation) (relid : Z) (d : DbInfos) : DbInfos :=
  MkDbInfos (alter f relid (Relations d)) (RelationMapBySchemaName d) (Functions d)
    (FunctionsBySchemaName d) (TypeMapByOid d) (SearchPath d).

Definition set_keys (r : Relation) (cols : list Column) (pk : option Constraint)
    (names : gmap string Constraint) (groups : gmap string Constraint)
    (others : gmap Z (list Constraint)) (idx : gset string) : Relation :=
  MkRelation (rel_ident r) (IsSynthetic r) (IsView r) (IsMaterializedView r)
    (IsStandaloneCompositeType r) cols (ComputedFields r) (rel_type r) pk names groups others idx.

(** A name the relation lacks is a nil [*Column]; reading or writing a field of
    it panics. *)
Definition resolveColumns (r : Relation) (names : list string) : list (option string) :=
  map (λ n, col_name <$> ColumnsMap (Columns r) !! n) names.
Definition deref {A} (o : option A) : outcome A := match o with Some a => Ok a | None => Panic end.
Fixpoint columnNames (columns : list (option string)) : outcome (list string) :=
  match columns with
  | [] => Ok []
  | c :: columns => n ← deref c; ns ← columnNames columns; Ok (n :: ns)
  end.

Definition mark_column (primary : bool) (names : list string) (c : Column) : Column :=
  if bool_decide (col_name c ∈ names)
  then MkColumn (col_name c) (col_type c) (col_declared c) (DefaultExpression c)
         (primary || IsPrimaryKey c) (IsIdentity c) (IsGenerated c) true (IsNullable c) (IsUpdatable c)
  else c.

Definition add_name (c : Constraint) (r : Relation) : Relation :=
  set_keys r (Columns r) (PrimaryKey r) (<[con_name c := c]> (byName r)) (uniqueColumnGroups r)
    (byOtherRelation r) (indexCoverage r).
Definition add_unique (primary : bool) (names : list string) (c : Constraint) (r : Relation) : Relation :=
  set_keys r (map (mark_column primary names) (Columns r))
    (if primary then Some c else PrimaryKey r) (byName r)
    (<[sortedColumnKey names := c]> (uniqueColumnGroups r)) (byOtherRelation r) (indexCoverage r).
Definition add_other (other : Z) (c : Constraint) (r : Relation) : Relation :=
  set_keys r (Columns r) (PrimaryKey r) (byName r) (uniqueColumnGroups r)
    (<[other := default [] (byOtherRelation r !! other) ++ [c]]> (byOtherRelation r)) (indexCoverage r).

(** A relation the role cannot see is skipped, on either side. *)
Definition fill_constraint (d : DbInfos) (dbc : dbConstraint) : outcome DbInfos :=
  match GetRelation d (dbc_relid dbc) with
  | None => Ok d
  | Some relation =>
      let target := GetRelation d (dbc_target dbc) in
      if String.eqb (dbc_type dbc) "f" && negb (bool_decide (is_Some target)) then Ok d
      else
        let kind := if String.eqb (dbc_type dbc) "p" then PrimaryKeyConstraint
                    else if String.eqb (dbc_type dbc) "u" then UniqueConstraint
                    else OutgoingForeignKey in
        let columns := resolveColumns relation (dbc_columns dbc) in
        let targets := default [] ((λ t, resolveColumns t (dbc_target_columns dbc)) <$> target) in
        let c := MkConstraint (dbc_relid dbc) (dbc_name dbc) kind columns
                   (if String.eqb (dbc_type dbc) "f" then Some (dbc_target dbc, targets) else None) in
        let d := update_relation (add_name c) (dbc_relid dbc) d in
        if String.eqb (dbc_type dbc) "p" then
          names ← columnNames columns; Ok (update_relation (add_unique true names c) (dbc_relid dbc) d)
        else if String.eqb (dbc_type dbc) "u" then
          names ← columnNames columns; Ok (update_relation (add_unique false names c) (dbc_relid dbc) d)
        else if String.eqb (dbc_type dbc) "f" then
          let incoming := MkConstraint (dbc_target dbc) (dbc_name dbc) IncomingForeignKey
                            targets (Some (dbc_relid dbc, columns)) in
          let d := update_relation (add_other (dbc_target dbc) c) (dbc_relid dbc) d in
          Ok (update_relation (add_other (dbc_relid dbc) incoming) (dbc_target dbc) d)
        else errorf "unexpected constraint type (this should not happen)"
  end.

Fixpoint FillConstraintInformations (d : DbInfos) (raw : list dbConstraint) : outcome DbInfos :=
  match raw with
  | [] => Ok d
  | dbc :: raw => d ← fill_constraint d dbc; FillConstraintInformations d raw
  end.

(** Every leading prefix of an index's columns. *)
Definition index_prefixes (columns : list string) : list (list string) :=
  map (λ i, take (S i) columns) (seq 0 (length columns)).

Definition registerIndexCoverage (columns : list string) (r : Relation) : Relation :=
  set_keys r (Columns r) (PrimaryKey r) (byName r) (uniqueColumnGroups r) (byOtherRelation r)
    (foldl (λ s p, {[ sortedColumnKey p ]} ∪ s) (indexCoverage r) (index_prefixes columns)).

(** * Lookups *)

Definition IsIndexed (r : Relation) (columns : list string) : bool :=
  bool_decide (sortedColumnKey columns ∈ indexCoverage r).

Definition FindConstraintByName (r : Relation) (name : string) : option Constraint := byName r !! name.

Definition FindUniqueConstraint (r : Relation) (columns : list string) : option Constraint :=
  uniqueColumnGroups r !! sortedColumnKey columns.

Definition RelationshipsTo (r : Relation) (other : Z) : list Constraint :=
  default [] (byOtherRelation r !! other).

(** [on] is a map: a list of pairs whose first components differ. *)
Definition on_get (on : list (string * string)) (k : string) : option string :=
  snd <$> find (λ p, String.eqb p.1 k) on.

Fixpoint pairs_match (on : list (string * string)) (cs ts : list (option string)) : outcome bool :=
  match cs with
  | [] => Ok true
  | c :: cs =>
      n ← deref c;
      match on_get on n with
      | None => Ok false
      | Some want =>
          match ts with
          | [] => Panic
          | t :: ts => t ← deref t; if String.eqb want t then pairs_match on cs ts else Ok false
          end
      end
  end.

Definition pairingMatches (c : Constraint) (on : list (string * string)) : outcome bool :=
  match con_target c with
  | None => Ok false
  | Some (_, ts) =>
      if negb (length (con_columns c) =? length on)%nat then Ok false else pairs_match on (con_columns c) ts
  end.

Definition splitOn (on : list (string * string)) : list string * list string := (on.*1, on.*2).

Definition JoinMissingIndex : string := "JOIN_MISSING_INDEX".

(** The first relationship whose pairing is the query's. *)
Fixpoint matching_relationship (on : list (string * string)) (cs : list Constraint) : outcome (option Constraint) :=
  match cs with
  | [] => Ok None
  | c :: cs => b ← pairingMatches c on; if b : bool then Ok (Some c) else matching_relationship on cs
  end.

(** A foreign key over the same columns, paired in another way. *)
Definition inverted (localCols parentCols : list string) (c : Constraint) : outcome bool :=
  names ← columnNames (con_columns c);
  if String.eqb (sortedColumnKey names) (sortedColumnKey localCols) then
    match con_target c with
    | Some (_, ts) => ts ← columnNames ts; Ok (String.eqb (sortedColumnKey ts) (sortedColumnKey parentCols))
    | None => Panic
    end
  else Ok false.

Fixpoint any_inverted (localCols parentCols : list string) (cs : list Constraint) : outcome bool :=
  match cs with
  | [] => Ok false
  | c :: cs => b ← inverted localCols parentCols c; if b : bool then Ok true else any_inverted localCols parentCols cs
  end.

Definition ResolveJoin (r : Relation) (parent_id : Z) (parent : Relation) (on : list (string * string))
    : outcome (Constraint * bool) :=
  match on with
  | [] => errorc JoinMissingIndex "on must not be empty"
  | _ =>
      let '(localCols, parentCols) := splitOn on in
      let isToOne := bool_decide (is_Some (FindUniqueConstraint r localCols)) in
      constraint ← matching_relationship on (RelationshipsTo r parent_id);
      constraint ←
        match constraint with
        | Some c => Ok (Some c)
        | None =>
            inv ← any_inverted localCols parentCols (RelationshipsTo r parent_id);
            if inv : bool
            then errorc JoinMissingIndex "on's columns match foreign key %q but the pairing is inverted relative to its declared correspondence"
            else
              match FindUniqueConstraint r localCols with
              | Some u => Ok (Some u)
              | None => Ok (FindUniqueConstraint parent parentCols)
              end
        end;
      match constraint with
      | None => errorc JoinMissingIndex "no foreign key or unique constraint backs this join"
      | Some c =>
          if negb (IsIndexed r localCols)
          then errorc JoinMissingIndex "join is not indexed on the local relation's columns"
          else Ok (c, isToOne)
      end
  end.

(** * Computed fields *)

(** The relation a function is a computed field of. *)
Definition computed_target (d : DbInfos) (f : Function_) : outcome (option Z) :=
  if negb (IsPlainFunction f) || negb (AcceptsArity f 1) then Ok None
  else
    match FirstInputArg f with
    | None => Ok None
    | Some first =>
        if negb (bool_decide (is_Some (TypeMapByOid d !! arg_type first))) then Ok None
        else
          rel ← CompositeRelation d (arg_type first);
          match rel with
          | None => Ok None
          | Some relid =>
              match GetRelation d relid with
              | None => Ok None
              | Some r =>
                  if IsStandaloneCompositeType r || IsSynthetic r then Ok None
                  else if negb (String.eqb (id_schema (rel_ident r)) (id_schema (fn_ident f))) then Ok None
                  else if bool_decide (is_Some (ColumnsMap (Columns r) !! id_name (fn_ident f))) then Ok None
                  else Ok (Some relid)
              end
          end
    end.

Definition set_computed (m : gmap string nat) (r : Relation) : Relation :=
  MkRelation (rel_ident r) (IsSynthetic r) (IsView r) (IsMaterializedView r)
    (IsStandaloneCompositeType r) (Columns r) m (rel_type r) (PrimaryKey r) (byName r)
    (uniqueColumnGroups r) (byOtherRelation r) (indexCoverage r).

Fixpoint fill_computed (d : DbInfos) (i : nat) (fns : list Function_) : outcome DbInfos :=
  match fns with
  | [] => Ok d
  | f :: fns =>
      t ← computed_target d f;
      let d := match t with
               | Some relid =>
                   update_relation (λ r, set_computed (<[id_name (fn_ident f) := i]> (ComputedFields r)) r) relid d
               | None => d
               end in
      fill_computed d (S i) fns
  end.

Definition FillComputedFields (d : DbInfos) : outcome DbInfos :=
  let clear := MkDbInfos (set_computed ∅ <$> Relations d) (RelationMapBySchemaName d) (Functions d)
                 (FunctionsBySchemaName d) (TypeMapByOid d) (SearchPath d) in
  fill_computed clear 0 (Functions d).
