(* ===== verification/JoinsFacts.v ===== *)
(** What a resolved join guarantees: column keys are column sets, an index
    covers its leading prefixes, and an accepted join is backed and indexed. *)
From Stdlib Require Import ZArith Lia Ascii.
From stdpp Require Import sorting.
From S2P Require Import Prelude Writer Catalog Joins.

(** * The order of strings *)

Lemma leb_cons c d s t :
  String.leb (String c s) (String d t) =
  match Ascii.compare c d with Eq => String.leb s t | Lt => true | Gt => false end.
Proof. unfold String.leb. cbn. by destruct (Ascii.compare c d). Qed.

Lemma string_le_trans a b c : string_le a b → string_le b c → string_le a c.
Proof.
  unfold string_le. revert b c. induction a as [|x a IH]; intros [|y b] [|z c]; try done.
  rewrite !leb_cons. unfold Ascii.compare. intros Hab Hbc.
  destruct (N.compare_spec (N_of_ascii x) (N_of_ascii y)) as [E| |]; try done;
    destruct (N.compare_spec (N_of_ascii y) (N_of_ascii z)) as [E'| |]; try done.
  - rewrite E, E', N.compare_refl. by eapply IH.
  - rewrite E. by rewrite (proj2 (N.compare_lt_iff _ _)).
  - rewrite <-E'. by rewrite (proj2 (N.compare_lt_iff _ _)).
  - by rewrite (proj2 (N.compare_lt_iff _ _)) by lia.
Qed.

#[global] Instance string_le_total : Total string_le.
Proof. intros a b. apply String.leb_total. Qed.
#[global] Instance string_le_transitive : Transitive string_le.
Proof. intros a b c. apply string_le_trans. Qed.
#[global] Instance string_le_antisymm : AntiSymm eq string_le.
Proof. intros a b. apply String.leb_antisym. Qed.

Lemma sort_strings_perm l k : l ≡ₚ k → sort_strings l = sort_strings k.
Proof.
  intros Hlk. apply (StronglySorted_unique string_le).
  - apply StronglySorted_merge_sort; apply _.
  - apply StronglySorted_merge_sort; apply _.
  - unfold sort_strings. by rewrite !merge_sort_Permutation.
Qed.

(** * Keys *)

(** A name a key can be read back from. *)
Definition plain_name (s : string) : Prop := s ≠ "" ∧ string_forallb (λ c, negb (Ascii.eqb c ",")) s = true.
Definition plain_names (l : list string) : Prop := l ≠ [] ∧ Forall plain_name l.

Lemma split_on_plain s : string_forallb (λ c, negb (Ascii.eqb c ",")) s = true → split_on "," s = [s].
Proof.
  induction s as [|c s IH]; cbn; [done|]. intros [Hc Hs]%andb_true_iff. rewrite decide_False.
  - by rewrite IH.
  - intros ->. done.
Qed.

Lemma split_on_append s t :
  string_forallb (λ c, negb (Ascii.eqb c ",")) s = true →
  split_on "," (s +:+ String "," t) = s :: split_on "," t.
Proof.
  induction s as [|c s IH]; cbn; [done|]. intros [Hc Hs]%andb_true_iff. rewrite decide_False.
  - by rewrite IH.
  - intros ->. done.
Qed.

Lemma split_join l : plain_names l → split_on "," (join "," l) = l.
Proof.
  intros [Hne Hl]. induction Hl as [|s l [_ Hs] Hl IH]; [done|].
  destruct l as [|s' l]; [by apply split_on_plain|].
  rewrite join_cons by done. cbn [String.append]. rewrite split_on_append by done. by rewrite IH.
Qed.

Lemma sort_plain l : plain_names l → plain_names (sort_strings l).
Proof.
  intros [Hne Hl]. assert (sort_strings l ≡ₚ l) as Hp by apply merge_sort_Permutation. split.
  - intros E. rewrite E in Hp. by apply Permutation_nil in Hp.
  - by rewrite Hp.
Qed.

(** Two sets of plain names have the same key when they are the same set. *)
Lemma sortedColumnKey_inj l k :
  plain_names l → plain_names k → sortedColumnKey l = sortedColumnKey k ↔ l ≡ₚ k.
Proof.
  intros Hl Hk. split.
  - intros E. apply (f_equal (split_on ",")) in E. unfold sortedColumnKey in E.
    rewrite !split_join in E by by apply sort_plain.
    rewrite <-(merge_sort_Permutation string_le l), <-(merge_sort_Permutation string_le k).
    unfold sort_strings in E. by rewrite E.
  - intros E. unfold sortedColumnKey. by rewrite (sort_strings_perm _ _ E).
Qed.

(** * Indexes *)

Lemma index_prefix_spec columns p :
  p ∈ index_prefixes columns ↔ ∃ i, (i < length columns)%nat ∧ p = take (S i) columns.
Proof.
  unfold index_prefixes. rewrite list_elem_of_fmap. split.
  - intros (i & -> & Hi%elem_of_seq). exists i. split; [lia|done].
  - intros (i & Hi & ->). exists i. split; [done|]. apply elem_of_seq. lia.
Qed.

Lemma coverage_foldl (ps : list (list string)) (s : gset string) k :
  k ∈ foldl (λ s p, {[ sortedColumnKey p ]} ∪ s) s ps ↔ k ∈ s ∨ ∃ p, p ∈ ps ∧ k = sortedColumnKey p.
Proof.
  revert s. induction ps as [|p ps IH]; intros s; cbn; [set_solver|].
  rewrite IH. set_solver.
Qed.

Definition register_indexes (indexes : list (list string)) (r : Relation) : Relation :=
  foldl (λ r cols, registerIndexCoverage cols r) r indexes.

Lemma register_indexes_coverage indexes r k :
  k ∈ indexCoverage (register_indexes indexes r) ↔
  k ∈ indexCoverage r ∨
  ∃ cols i, cols ∈ indexes ∧ (i < length cols)%nat ∧ k = sortedColumnKey (take (S i) cols).
Proof.
  revert r. induction indexes as [|cols indexes IH]; intros r; cbn [register_indexes foldl].
  - split; [by left|]. intros [?|(? & ? & ?%elem_of_nil & _)]; done.
  - change (foldl _ ?a indexes) with (register_indexes indexes a).
    rewrite IH. cbn [registerIndexCoverage set_keys indexCoverage]. rewrite coverage_foldl.
    setoid_rewrite index_prefix_spec. setoid_rewrite elem_of_cons. naive_solver.
Qed.

Lemma take_plain i cols : (i < length cols)%nat → Forall plain_name cols → plain_names (take (S i) cols).
Proof. intros Hi Hc. split; [by destruct cols; cbn in *; [lia|]|]. by apply Forall_take. Qed.

(** * Properties *)

(** C25: a set of columns is reported indexed exactly when it is the set of a
    leading prefix of some index, in any order, as long as no column is named
    with a comma. *)
Theorem IsIndexed_spec (indexes : list (list string)) (r : Relation) (columns : list string)
    (Hr : indexCoverage r = ∅) (Hc : plain_names columns) (Hi : Forall (Forall plain_name) indexes) :
  IsIndexed (register_indexes indexes r) columns = true ↔
  ∃ cols i, cols ∈ indexes ∧ (i < length cols)%nat ∧ take (S i) cols ≡ₚ columns.
Proof.
  unfold IsIndexed. rewrite bool_decide_eq_true, register_indexes_coverage, Hr.
  rewrite List.Forall_forall in Hi. split.
  - intros [?|(cols & i & Hin & Hlt & E)]; [set_solver|]. exists cols, i. split_and!; [done..|].
    symmetry. apply sortedColumnKey_inj; [done| |done].
    apply take_plain; [done|]. by apply Hi, list_elem_of_In.
  - intros (cols & i & Hin & Hlt & E). right. exists cols, i. split_and!; [done..|].
    apply sortedColumnKey_inj; [done| |done]. apply take_plain; [done|]. by apply Hi, list_elem_of_In.
Qed.

Definition empty_relation : Relation :=
  MkRelation (MkIdent "public" "t") false false false false [] ∅ 0 None ∅ ∅ ∅ ∅.

Lemma IsIndexed_spec_witness :
  IsIndexed (register_indexes [["a"; "b"; "c"]] empty_relation) ["b"; "a"] = true ↔
  ∃ cols i, cols ∈ [["a"; "b"; "c"]] ∧ (i < length cols)%nat ∧ take (S i) cols ≡ₚ ["b"; "a"].
Proof.
  apply (IsIndexed_spec [["a"; "b"; "c"]] empty_relation ["b"; "a"]); [reflexivity| |].
  - split; [discriminate|]. repeat constructor; discriminate.
  - repeat constructor; discriminate.
Defined.

(** The other side of a join: unique on [x] and [y]. *)
Definition unique_on (columns : list string) (r : Relation) : Relation :=
  add_unique false columns (MkConstraint 1 "u" UniqueConstraint (map Some columns) None) r.


(** ** Joins *)

(** The query's pairing is the foreign key's, column for column. *)
Definition same_pairing (c : Constraint) (on : list (string * string)) : Prop :=
  ∃ other ts, con_target c = Some (other, ts) ∧ length (con_columns c) = length on ∧
    ∀ i col, con_columns c !! i = Some col → ∃ n t, col = Some n ∧ ts !! i = Some (Some t) ∧ on_get on n = Some t.

Lemma pairs_match_spec on cs ts :
  pairs_match on cs ts = Ok true →
  ∀ i col, cs !! i = Some col → ∃ n t, col = Some n ∧ ts !! i = Some (Some t) ∧ on_get on n = Some t.
Proof.
  revert ts. induction cs as [|c cs IH]; intros ts; cbn [pairs_match]; [done|].
  destruct c as [c|]; [|done]. cbn [deref mbind outcome_bind].
  destruct (on_get on c) as [want|] eqn:Ec; [|done]. destruct ts as [|[t|] ts]; [done| |done].
  cbn [deref mbind outcome_bind]. destruct (String.eqb_spec want t) as [->|]; [|done].
  intros Hts [|i] col; cbn; [intros [= <-]; eauto|]. by apply IH.
Qed.

Lemma pairingMatches_spec c on : pairingMatches c on = Ok true → same_pairing c on.
Proof.
  unfold pairingMatches. destruct (con_target c) as [[other ts]|] eqn:Et; [|done].
  destruct (Nat.eqb_spec (length (con_columns c)) (length on)) as [El|]; cbn; [|done].
  intros Hp. exists other, ts. split_and!; [done..|]. by apply pairs_match_spec.
Qed.

Lemma matching_relationship_spec on cs c :
  matching_relationship on cs = Ok (Some c) → c ∈ cs ∧ same_pairing c on.
Proof.
  induction cs as [|c' cs IH]; cbn [matching_relationship]; [done|].
  intros (b & Hb & Hm)%outcome_bind_ok. destruct b.
  - injection Hm as ->. split; [by left|]. by apply pairingMatches_spec.
  - destruct (IH Hm). split; [by right|done].
Qed.

Lemma ResolveJoin_spec (r : Relation) (parent_id : Z) (parent : Relation)
    (on : list (string * string)) (c : Constraint) (isToOne : bool)
    (Hok : ResolveJoin r parent_id parent on = Ok (c, isToOne)) :
  on ≠ [] ∧ IsIndexed r on.*1 = true ∧
  (isToOne = true ↔ is_Some (FindUniqueConstraint r on.*1)) ∧
  ((c ∈ RelationshipsTo r parent_id ∧ same_pairing c on) ∨
   FindUniqueConstraint r on.*1 = Some c ∨ FindUniqueConstraint parent on.*2 = Some c).
Proof.
  unfold ResolveJoin in Hok. destruct on as [|p on']; [done|]. set (on := p :: on') in *.
  cbn beta iota delta [splitOn] in Hok.
  apply outcome_bind_ok in Hok as (m & Hm & Hok).
  apply outcome_bind_ok in Hok as (m' & Hm' & Hok).
  destruct m' as [c'|]; [|done].
  destruct (IsIndexed r on.*1) eqn:Ei; cbn [negb] in Hok; [|done]. injection Hok as -> <-.
  split_and!; [done|done|by rewrite bool_decide_eq_true|].
  destruct m as [c'|]; [injection Hm' as ->; left; by apply matching_relationship_spec|].
  apply outcome_bind_ok in Hm' as (inv & _ & Hm'). destruct inv; [done|].
  destruct (FindUniqueConstraint r on.*1) as [u|]; injection Hm' as Hu; [right; left; congruence|].
  by right; right.
Qed.

(** C24: an accepted join is backed and cheap: its [on] is not empty, a foreign
    key between the two relations has exactly its pairing or one of the two
    sides is unique, the local columns are indexed whatever backs it, and the
    embed is a single object exactly when the local columns are unique. *)
Theorem ResolveJoin_sound (r : Relation) (parent_id : Z) (parent : Relation)
    (on : list (string * string)) (c : Constraint) (isToOne : bool)
    (Hok : ResolveJoin r parent_id parent on = Ok (c, isToOne)) :
  on ≠ [] ∧ IsIndexed r on.*1 = true ∧
  (isToOne = true ↔ is_Some (FindUniqueConstraint r on.*1)) ∧
  ((c ∈ RelationshipsTo r parent_id ∧ same_pairing c on) ∨
   FindUniqueConstraint r on.*1 = Some c ∨ FindUniqueConstraint parent on.*2 = Some c).
Proof. by apply ResolveJoin_spec. Qed.

Definition indexed_child : Relation := register_indexes [["owner"; "at"]] empty_relation.
Definition keyed_parent : Relation := unique_on ["id"] empty_relation.

Lemma ResolveJoin_sound_witness :
  [("owner", "id")] ≠ [] ∧ IsIndexed indexed_child ["owner"] = true ∧
  (false = true ↔ is_Some (FindUniqueConstraint indexed_child ["owner"])) ∧
  ((MkConstraint 1 "u" UniqueConstraint [Some "id"] None ∈ RelationshipsTo indexed_child 1 ∧
    same_pairing (MkConstraint 1 "u" UniqueConstraint [Some "id"] None) [("owner", "id")]) ∨
   FindUniqueConstraint indexed_child ["owner"] = Some (MkConstraint 1 "u" UniqueConstraint [Some "id"] None) ∨
   FindUniqueConstraint keyed_parent ["id"] = Some (MkConstraint 1 "u" UniqueConstraint [Some "id"] None)).
Proof.
  apply (ResolveJoin_sound indexed_child 1 keyed_parent [("owner", "id")]). vm_compute. reflexivity.
Defined.
