(* ===== verification/KeysFacts.v ===== *)
(** The catalog the rows of introspection fill: foreign keys are paired, and a key
    on a column the role does not see panics. *)
From Stdlib Require Import ZArith Lia Ascii.
From S2P Require Import Prelude CborNode Catalog Joins JoinsFacts.
Set Warnings "-register-all".
#[local] Set Default Proof Using "Type*".

(** * Catalogs as introspection fills them *)

(** A key both of whose sides are seen, with as many columns. *)
Definition paired (c : Constraint) : Prop :=
  ∃ other ts, con_target c = Some (other, ts) ∧ length ts = length (con_columns c) ∧
    Forall is_Some (con_columns c) ∧ Forall is_Some ts.
Definition relation_paired (r : Relation) : Prop :=
  ∀ other cs c, byOtherRelation r !! other = Some cs → c ∈ cs → paired c.
Definition catalog_ok (d : DbInfos) : Prop := ∀ relid r, Relations d !! relid = Some r → relation_paired r.

(** The role sees the columns of that name, if it sees the relation. *)
Definition seen (d : DbInfos) (relid : Z) (names : list string) : Prop :=
  ∀ r n, GetRelation d relid = Some r → n ∈ names → n ∈ map col_name (Columns r).
(** A row's columns are seen, and a foreign key lists as many on both sides. *)
Definition row_ok (d : DbInfos) (dbc : dbConstraint) : Prop :=
  seen d (dbc_relid dbc) (dbc_columns dbc) ∧
  (dbc_type dbc = "f" →
   seen d (dbc_target dbc) (dbc_target_columns dbc) ∧
   length (dbc_columns dbc) = length (dbc_target_columns dbc)).

Lemma ColumnsMap_spec cols n :
  match ColumnsMap cols !! n with
  | Some c => col_name c = n ∧ c ∈ cols
  | None => n ∉ map col_name cols
  end.
Proof.
  unfold ColumnsMap. induction cols as [|c cols IH] using rev_ind; cbn; [apply not_elem_of_nil|].
  rewrite foldl_app, map_app. cbn. destruct (decide (col_name c = n)) as [<-|Hn].
  - rewrite lookup_insert_eq. split; [done|]. apply elem_of_app. right. by left.
  - rewrite lookup_insert_ne by done. destruct (_ !! n) as [c'|].
    + destruct IH. split; [done|]. apply elem_of_app. by left.
    + rewrite elem_of_app, list_elem_of_singleton. intros [?|?]; congruence.
Qed.

Lemma ColumnsMap_name cols k c : ColumnsMap cols !! k = Some c → col_name c = k ∧ c ∈ cols.
Proof. intros H. pose proof (ColumnsMap_spec cols k) as Hs. by rewrite H in Hs. Qed.

Lemma resolveColumns_seen r names :
  (∀ n, n ∈ names → n ∈ map col_name (Columns r)) → resolveColumns r names = map Some names.
Proof.
  intros Hn. unfold resolveColumns. apply map_ext_in. intros n Hin%list_elem_of_In.
  pose proof (ColumnsMap_spec (Columns r) n) as Hs. destruct (_ !! n); [cbn; by destruct Hs as [-> _]|].
  by destruct Hs; apply Hn.
Qed.

Lemma columnNames_some names : columnNames (map Some names) = Ok names.
Proof. induction names as [|n names IH]; cbn; [done|]. by rewrite IH. Qed.

Lemma columnNames_returns cols : Forall is_Some cols → returns (columnNames cols).
Proof. induction 1 as [|c cols [n ->] _ IH]; cbn; [done|]. by apply returns_bind. Qed.

Lemma all_some (names : list string) : Forall is_Some (map Some names).
Proof. apply Forall_map, Forall_true. by eexists. Qed.

Lemma add_other_paired other c r : relation_paired r → paired c → relation_paired (add_other other c r).
Proof.
  intros Hr Hc o cs c' Hcs Hin. cbn in Hcs. destruct (decide (o = other)) as [->|Ho].
  - rewrite lookup_insert_eq in Hcs. injection Hcs as <-.
    apply elem_of_app in Hin as [Hin| ->%list_elem_of_singleton]; [|done].
    destruct (byOtherRelation r !! other) eqn:E; cbn in Hin; [by eapply Hr|by apply elem_of_nil in Hin].
  - rewrite lookup_insert_ne in Hcs by done. by eapply Hr.
Qed.

(** Both catalogs have the same columns in every relation. *)
Definition same_columns (d d' : DbInfos) : Prop :=
  ∀ relid, (map col_name ∘ Columns) <$> GetRelation d' relid = (map col_name ∘ Columns) <$> GetRelation d relid.
#[global] Instance same_columns_trans : Transitive same_columns.
Proof. intros d1 d2 d3 H1 H2 i. by rewrite H2, H1. Qed.

(** What a step of the filling keeps. *)
Definition kept (d d' : DbInfos) : Prop := (catalog_ok d → catalog_ok d') ∧ same_columns d d'.
#[global] Instance kept_trans : Transitive kept.
Proof. intros d1 d2 d3 [H1 H1'] [H2 H2']. split; [auto|by etrans]. Qed.

Lemma update_relation_kept f relid d :
  (∀ r, relation_paired r → relation_paired (f r)) →
  (∀ r, map col_name (Columns (f r)) = map col_name (Columns r)) →
  kept d (update_relation f relid d).
Proof.
  intros Hf Hc. split.
  - intros Hd i r Hr. cbn in Hr. destruct (decide (i = relid)) as [->|Hi].
    + rewrite lookup_alter_eq in Hr. destruct (Relations d !! relid) as [r0|] eqn:E; [|done].
      injection Hr as <-. apply Hf. by eapply Hd.
    + rewrite lookup_alter_ne in Hr by done. by eapply Hd.
  - intros i. unfold GetRelation. cbn. destruct (decide (i = relid)) as [->|Hi].
    + rewrite lookup_alter_eq. destruct (Relations d !! relid); cbn; [by rewrite Hc|done].
    + by rewrite lookup_alter_ne.
Qed.

Lemma mark_column_names primary names cols : map col_name (map (mark_column primary names) cols) = map col_name cols.
Proof. rewrite map_map. apply map_ext. intros c. unfold mark_column. by case_bool_decide. Qed.

Lemma row_ok_kept d d' dbc : same_columns d d' → row_ok d dbc → row_ok d' dbc.
Proof.
  intros Hd.
  assert (∀ relid names, seen d relid names → seen d' relid names) as Hseen.
  { intros relid names Hs r n Hr Hn. specialize (Hd relid). rewrite Hr in Hd. cbn in Hd.
    destruct (GetRelation d relid) as [r0|] eqn:E; [|done]. injection Hd as ->. by apply (Hs r0). }
  intros [H1 H2]. split; [auto|]. intros Hf. destruct (H2 Hf). auto.
Qed.

Lemma fill_constraint_spec d dbc : row_ok d dbc →
  match fill_constraint d dbc with Ok d' => kept d d' | Err _ => True | _ => False end.
Proof.
  intros [Hcols Hf]. unfold fill_constraint.
  assert (kept d d) as Hrefl by done.
  destruct (GetRelation d (dbc_relid dbc)) as [r|] eqn:Er; [|done].
  destruct (_ && _) eqn:Evis; [done|].
  rewrite (resolveColumns_seen r) by (intros; by apply (Hcols r)). rewrite columnNames_some.
  assert (∀ primary c, kept d (update_relation (add_unique primary (dbc_columns dbc) c) (dbc_relid dbc)
    (update_relation (add_name c) (dbc_relid dbc) d))) as Hu.
  { intros primary c. etrans; apply update_relation_kept; try done. intros r0. apply mark_column_names. }
  destruct (String.eqb (dbc_type dbc) "p"); [apply Hu|].
  destruct (String.eqb (dbc_type dbc) "u"); [apply Hu|].
  destruct (String.eqb_spec (dbc_type dbc) "f") as [Ht|]; [|done].
  destruct (Hf Ht) as [Hts Hl]. destruct (GetRelation d (dbc_target dbc)) as [t|] eqn:Et; [|done]. cbn.
  rewrite (resolveColumns_seen t) by (intros; by apply (Hts t)).
  assert (paired (MkConstraint (dbc_relid dbc) (dbc_name dbc) OutgoingForeignKey (map Some (dbc_columns dbc))
    (Some (dbc_target dbc, map Some (dbc_target_columns dbc)))) ∧
    paired (MkConstraint (dbc_target dbc) (dbc_name dbc) IncomingForeignKey (map Some (dbc_target_columns dbc))
    (Some (dbc_relid dbc, map Some (dbc_columns dbc))))) as [P1 P2].
  { split; eexists _, _; (split_and!; [done| |apply all_some..]); cbn; rewrite !length_map; congruence. }
  etrans; [|etrans]; apply update_relation_kept; try done; intros r0 Hr0; by apply add_other_paired.
Qed.

(** C31: introspection keeps foreign keys paired: whatever rows the catalog query
    returns, in any order, if the role sees the columns of the keys, filling does
    not panic and every relationship the lookups of a join see has a target
    with as many columns. *)
Theorem FillConstraintInformations_paired (d : DbInfos) (raw : list dbConstraint)
    (Hd : catalog_ok d) (Hraw : Forall (row_ok d) raw) :
  match FillConstraintInformations d raw with Ok d' => catalog_ok d' | Err _ => True | _ => False end.
Proof.
  revert d Hd Hraw. induction raw as [|dbc raw IH]; intros d Hd Hraw; cbn; [done|].
  inversion_clear Hraw as [|? ? Hrow Hraw']. pose proof (fill_constraint_spec d dbc Hrow) as H1.
  destruct (fill_constraint d dbc) as [d1|e| |]; try done. destruct H1 as [H1 Hsame].
  apply IH; [auto|]. eapply Forall_impl; [exact Hraw'|]. intros c. by apply row_ok_kept.
Qed.

Definition plain_column (name : string) : Column :=
  MkColumn name 23 "" "" false false false false false true.
Definition table (name : string) (cols : list string) : Relation :=
  MkRelation (MkIdent "public" name) false false false false (map plain_column cols) ∅ 0 None ∅ ∅ ∅ ∅.

(** Users, and the posts that refer to them by an indexed column. *)
Definition blog : DbInfos :=
  MkDbInfos {[ 1 := table "users" ["id"; "name"];
               2 := registerIndexCoverage ["author"] (table "posts" ["id"; "author"]) ]}
    {[ "public" := {[ "users" := 1; "posts" := 2 ]} ]} [] ∅ ∅ ["public"].
Definition blog_keys : list dbConstraint := [
  MkDbConstraint 1 0 "users_pkey" "p" ["id"] []; MkDbConstraint 2 1 "posts_author_fkey" "f" ["author"] ["id"] ].
Definition blog_infos : DbInfos := match FillConstraintInformations blog blog_keys with Ok d => d | _ => blog end.

Lemma blog_ok : catalog_ok blog.
Proof.
  intros relid r Hr other cs c Hcs. exfalso. unfold blog in Hr. cbn in Hr.
  apply lookup_insert_Some in Hr as [[_ <-]|[_ Hr]]; [done|].
  apply lookup_singleton_Some in Hr as [_ <-]. done.
Qed.

Lemma seen_by_lookup d relid r names :
  GetRelation d relid = Some r → forallb (λ n, bool_decide (n ∈ map col_name (Columns r))) names = true →
  seen d relid names.
Proof.
  intros Hr Hn r' n Hr' Hin. rewrite Hr in Hr'. injection Hr' as <-.
  rewrite forallb_forall in Hn. apply list_elem_of_In, Hn in Hin. by apply bool_decide_eq_true in Hin.
Qed.

Lemma blog_rows_ok : Forall (row_ok blog) blog_keys.
Proof.
  repeat constructor; try discriminate; try (eapply seen_by_lookup; [reflexivity|vm_compute; reflexivity]).
Qed.

Lemma FillConstraintInformations_paired_witness :
  match FillConstraintInformations blog blog_keys with Ok d' => catalog_ok d' | Err _ => True | _ => False end.
Proof. exact (FillConstraintInformations_paired blog blog_keys blog_ok blog_rows_ok). Defined.

(** C32: introspection panics on a primary key or a unique constraint one of whose
    columns the connecting role has no privilege on, while it sees the relation:
    the column is a nil pointer, and is written to. *)
Theorem hidden_key_panics (d : DbInfos) (dbc : dbConstraint) (raw : list dbConstraint) (r : Relation) (n : string)
    (Hr : GetRelation d (dbc_relid dbc) = Some r) (Ht : dbc_type dbc = "p" ∨ dbc_type dbc = "u")
    (Hn : n ∈ dbc_columns dbc) (Hhidden : n ∉ map col_name (Columns r)) :
  FillConstraintInformations d (dbc :: raw) = Panic.
Proof.
  cbn. unfold fill_constraint. rewrite Hr.
  assert (columnNames (resolveColumns r (dbc_columns dbc)) = Panic) as Hp.
  { unfold resolveColumns. induction (dbc_columns dbc) as [|m names IH]; [by apply elem_of_nil in Hn|].
    cbn. destruct (ColumnsMap (Columns r) !! m) as [c|] eqn:Em; [|done]. cbn.
    apply elem_of_cons in Hn as [->|Hn]; [|by rewrite (IH Hn)].
    destruct Hhidden. pose proof (ColumnsMap_spec (Columns r) m) as Hs. rewrite Em in Hs.
    destruct Hs as [<- Hc]. by apply list_elem_of_fmap_2. }
  destruct Ht as [-> | ->]; cbn; by rewrite Hp.
Qed.

Lemma hidden_key_panics_witness :
  FillConstraintInformations blog [MkDbConstraint 1 0 "users_pkey" "p" ["tenant"; "id"] []] = Panic.
Proof.
  eapply (hidden_key_panics blog _ [] _ "tenant"); [reflexivity|by left|by left|].
  apply (bool_decide_eq_false_1 (_ ∈ _)). vm_compute. reflexivity.
Defined.
