(* ===== verification/MaskSlots.v ===== *)
(** Presence slots: [src/pg/info_mask.go].

    A written row says which columns, and which sub-fields of composite columns,
    it supplied: each has a bit of a row of 64-bit words.  [addColumns] appends a
    slot per column and expands composites; the relations being expanded bound
    its nesting.  A key of a map of [*Column]s is the column. *)
From Stdlib Require Import ZArith Lia.
From S2P Require Import Prelude Catalog.
Set Warnings "-register-all".

Record MaskSlot := MkSlot { slot_path : list Column; slot_word : nat; slot_bit : nat }.

Inductive maskNode := MaskNode (slot : nat) (children : list (Column * maskNode)).
Abbreviation mask_map := (list (Column * maskNode)).

(** The latest assignment to a key comes first. *)
Fixpoint mask_get (c : Column) (m : mask_map) : option maskNode :=
  match m with
  | [] => None
  | (c', n) :: m => if decide (c' = c) then Some n else mask_get c m
  end.

Section layout.
Context (d : DbInfos).

Definition slot_at (path : list Column) (i : nat) : MaskSlot := MkSlot path (i `div` 64) (i `mod` 64).

Section columns.
(** [addColumns] on the columns of a composite. *)
Variable rec : list Column → list Column → gset Z → list MaskSlot → outcome (mask_map * list MaskSlot).

Definition expand_composite (path : list Column) (col : Column) (seen : gset Z) (slots : list MaskSlot)
    : outcome (mask_map * list MaskSlot) :=
  sub ← CompositeRelation d (col_type col);
  match sub with
  | None => Ok ([], slots)
  | Some relid =>
      match GetRelation d relid with
      | None => Ok ([], slots)
      | Some r => if decide (relid ∈ seen) then Ok ([], slots) else rec path (Columns r) ({[ relid ]} ∪ seen) slots
      end
  end.

Fixpoint add_columns (prefix cols : list Column) (seen : gset Z) (nodes : mask_map) (slots : list MaskSlot)
    : outcome (mask_map * list MaskSlot) :=
  match cols with
  | [] => Ok (nodes, slots)
  | col :: cols =>
      let path := prefix ++ [col] in
      let n := length slots in
      sub ← expand_composite path col seen (slots ++ [slot_at path n]);
      add_columns prefix cols seen ((col, MaskNode n sub.1) :: nodes) sub.2
  end.
End columns.

Fixpoint addColumns (fuel : nat) (prefix cols : list Column) (seen : gset Z) (slots : list MaskSlot)
    : outcome (mask_map * list MaskSlot) :=
  match fuel with
  | O => OutOfFuel
  | S fuel => add_columns (addColumns fuel) prefix cols seen [] slots
  end.

(** Every nesting is one more relation being expanded. *)
Definition layout_fuel : nat := S (size (Relations d)).

Definition maskLayout (relid : Z) (r : Relation) : outcome (mask_map * list MaskSlot) :=
  addColumns layout_fuel [] (Columns r) {[ relid ]} [].

Definition MaskSlots (relid : Z) (r : Relation) : outcome (list MaskSlot) := snd <$> maskLayout relid r.

Definition MaskWords (relid : Z) (r : Relation) : outcome nat :=
  (λ slots, Nat.max 1 ((length slots + 63) `div` 64)) <$> MaskSlots relid r.

Fixpoint mask_find (m : mask_map) (path : list Column) : option nat :=
  match path with
  | [] => None
  | c :: path =>
      match mask_get c m with
      | None => None
      | Some (MaskNode n children) => match path with [] => Some n | _ => mask_find children path end
      end
  end.

Definition MaskSlotFor (relid : Z) (r : Relation) (path : list Column) : outcome (option MaskSlot) :=
  l ← maskLayout relid r;
  match mask_find l.1 path with
  | None => Ok None
  | Some n => s ← at_index l.2 n; Ok (Some s)
  end.
End layout.
