(* ===== verification/MaskFacts.v ===== *)
(** The presence layout: one bit per slot, found again by its path. *)
From Stdlib Require Import ZArith Lia.
From S2P Require Import Prelude Catalog Joins KeysFacts MaskSlots.
Set Warnings "-register-all".
#[local] Set Default Proof Using "Type*".

(** Chains of domains end, and a relation's columns differ. *)
Definition catalog_finite (d : DbInfos) : Prop :=
  (∀ t, returns (CompositeRelation d t)) ∧
  (∀ t e, CompositeRelation d t ≠ Err e) ∧
  (∀ relid r, GetRelation d relid = Some r → NoDup (Columns r)).

(** The nodes [m] and the slots added to [base] describe the same paths below [prefix]. *)
Definition describes (prefix : list Column) (base : list MaskSlot) (m : mask_map) (slots : list MaskSlot) : Prop :=
  (∃ ext, slots = base ++ ext ∧
    (∀ i s, ext !! i = Some s → s = slot_at (slot_path s) (length base + i)) ∧
    (∀ s, s ∈ ext → ∃ p n, slot_path s = prefix ++ p ∧ mask_find m p = Some n ∧ slots !! n = Some s)) ∧
  (∀ p n, mask_find m p = Some n → ∃ s, slots !! n = Some s ∧ slot_path s = prefix ++ p).

Lemma describes_nil prefix base : describes prefix base [] base.
Proof.
  split; [|by intros [|? ?] ?]. exists []. rewrite app_nil_r.
  split_and!; [done|by intros ? ?|by intros s ?%elem_of_nil].
Qed.

Lemma mask_find_cons c m p n0 sub :
  mask_find ((c, MaskNode n0 sub) :: m) p =
  match p with
  | [] => None
  | c' :: q => if decide (c = c') then match q with [] => Some n0 | _ => mask_find sub q end else mask_find m p
  end.
Proof. destruct p as [|c' q]; [done|]. cbn. by case_decide. Qed.

(** One more column, with the slots of its sub-fields. *)
Lemma describes_cons prefix base m slots col sub slots' :
  describes prefix base m slots →
  describes (prefix ++ [col]) (slots ++ [slot_at (prefix ++ [col]) (length slots)]) sub slots' →
  (∀ p n, mask_find m (col :: p) ≠ Some n) →
  describes prefix base ((col, MaskNode (length slots) sub) :: m) slots'.
Proof.
  intros [(ext & Hslots & Hi & Hs) Hm] [(ext' & Hslots' & Hi' & Hs') Hm'] Hfresh.
  set (here := slot_at (prefix ++ [col]) (length slots)) in *.
  assert (∀ n s, slots !! n = Some s → slots' !! n = Some s) as Hkeep.
  { intros n s Hn. rewrite Hslots'. do 2 apply lookup_app_l_Some. done. }
  assert (slots' !! length slots = Some here) as Hhere.
  { rewrite Hslots'. apply lookup_app_l_Some. rewrite lookup_app_r, Nat.sub_diag by done. done. }
  split.
  - exists (ext ++ [here] ++ ext'). split_and!.
    + by rewrite Hslots', Hslots, <-!app_assoc.
    + assert (length slots = length base + length ext)%nat as Hlen by by rewrite Hslots, length_app.
      intros i s Hin. apply lookup_app_Some in Hin as [Hin|[Hle Hin]]; [by apply Hi|].
      apply lookup_app_Some in Hin as [Hin|[Hle' Hin]].
      * apply list_lookup_singleton_Some in Hin as [Hz <-]. unfold here. cbn [slot_path slot_at].
        f_equal; f_equal; lia.
      * apply Hi' in Hin. rewrite length_app in Hin. cbn [length] in *. rewrite Hin at 1. f_equal. lia.
    + intros s [Hin|[->%list_elem_of_singleton|Hin]%elem_of_app]%elem_of_app.
      * destruct (Hs s Hin) as (p & n & Hp & Hn & Hns). exists p, n. split_and!; [done| |auto].
        rewrite mask_find_cons. destruct p as [|c p]; [done|]. case_decide as Hc; [|done].
        subst c. by destruct (Hfresh p n).
      * exists [col], (length slots). split_and!; [done| |done]. rewrite mask_find_cons. by rewrite decide_True.
      * destruct (Hs' s Hin) as (p & n & Hp & Hn & Hns). exists (col :: p), n. split_and!; [|by rewrite mask_find_cons, decide_True; [destruct p|]|done].
        by rewrite Hp, <-app_assoc.
  - intros p n. rewrite mask_find_cons. destruct p as [|c p]; [done|]. case_decide as Hc.
    + subst c. destruct p as [|c p].
      * intros [= <-]. exists here. done.
      * intros Hp. destruct (Hm' _ _ Hp) as (s & Hns & Hs0). exists s. split; [done|]. by rewrite Hs0, <-app_assoc.
    + intros Hp. destruct (Hm _ _ Hp) as (s & Hns & Hs0). eauto.
Qed.

Section layout.
Context (d : DbInfos) (Hd : catalog_finite d).

(** Relations that may still be expanded. *)
Definition unseen (seen : gset Z) : nat := size (dom (Relations d) ∖ seen).

Lemma unseen_expand seen relid r :
  GetRelation d relid = Some r → relid ∉ seen → (unseen ({[ relid ]} ∪ seen) < unseen seen)%nat.
Proof.
  intros Hr Hs. unfold unseen. apply subset_size.
  assert (relid ∈ dom (Relations d)) by by apply elem_of_dom_2 with r. set_solver.
Qed.

Definition layout_ok (rec : list Column → list Column → gset Z → list MaskSlot → outcome (mask_map * list MaskSlot))
    (fuel : nat) : Prop :=
  ∀ prefix cols seen slots, NoDup cols → (unseen seen < fuel)%nat →
    ∃ m slots', rec prefix cols seen slots = Ok (m, slots') ∧ describes prefix slots m slots'.

Lemma expand_ok rec fuel path col seen slots :
  layout_ok rec fuel → (unseen seen ≤ fuel)%nat →
  ∃ m slots', expand_composite d rec path col seen slots = Ok (m, slots') ∧ describes path slots m slots'.
Proof.
  intros Hrec Hf. unfold expand_composite. destruct Hd as (Hret & Herr & Hnd).
  specialize (Hret (col_type col)). specialize (Herr (col_type col)).
  destruct (CompositeRelation d (col_type col)) as [[relid|]|e| |]; try done; cbn [mbind outcome_bind];
    try (by destruct (Herr e)); [|by exists [], slots; split; [|apply describes_nil]].
  destruct (GetRelation d relid) as [r|] eqn:Er; [|by exists [], slots; split; [|apply describes_nil]].
  case_decide; [by exists [], slots; split; [|apply describes_nil]|].
  apply Hrec; [by eapply Hnd|]. pose proof (unseen_expand seen relid r Er ltac:(done)). lia.
Qed.

Lemma add_columns_ok rec fuel prefix seen base cols : ∀ m slots,
  layout_ok rec fuel → (unseen seen ≤ fuel)%nat → NoDup cols →
  (∀ c p n, c ∈ cols → mask_find m (c :: p) ≠ Some n) → describes prefix base m slots →
  ∃ m' slots', add_columns d rec prefix cols seen m slots = Ok (m', slots') ∧ describes prefix base m' slots'.
Proof.
  induction cols as [|col cols IH]; intros m slots Hrec Hf Hnd Hfresh Hm; cbn [add_columns]; [eauto|].
  destruct (expand_ok rec fuel (prefix ++ [col]) col seen (slots ++ [slot_at (prefix ++ [col]) (length slots)]) Hrec Hf)
    as (sub & slots1 & Hsub & Hdesc).
  rewrite Hsub. cbn [mbind outcome_bind fst snd]. apply NoDup_cons in Hnd as [Hcol Hnd].
  apply IH; [done..| |].
  - intros c p n Hc. rewrite mask_find_cons. case_decide as E; [subst; done|]. apply Hfresh. by right.
  - apply describes_cons; [done..|]. intros p n. apply Hfresh. by left.
Qed.

Lemma addColumns_ok fuel : layout_ok (addColumns d fuel) fuel.
Proof.
  induction fuel as [|fuel IH]; intros prefix cols seen slots Hnd Hf; [lia|]. cbn [addColumns].
  apply (add_columns_ok _ fuel); [done|lia|done|done|apply describes_nil].
Qed.

Lemma maskLayout_ok relid r :
  NoDup (Columns r) → ∃ m slots, maskLayout d relid r = Ok (m, slots) ∧ describes [] [] m slots.
Proof.
  intros Hnd. apply addColumns_ok; [done|]. unfold unseen, layout_fuel.
  apply Nat.lt_succ_r. rewrite <-size_dom. apply subseteq_size. set_solver.
Qed.
End layout.

(** C26: the presence layout of a relation is computed without end or panic,
    composites that contain themselves included; slot [i] has bit [i mod 64] of
    word [i / 64], so no two slots share a bit, every bit is one of the 64 and
    every word one of [MaskWords]; and looking a path up finds the slot of that
    path exactly when there is one. *)
Theorem MaskSlots_layout (d : DbInfos) (relid : Z) (r : Relation)
    (Hd : catalog_finite d) (Hr : NoDup (Columns r)) :
  ∃ slots words, MaskSlots d relid r = Ok slots ∧ MaskWords d relid r = Ok words ∧
    (∀ i s, slots !! i = Some s → (slot_word s * 64 + slot_bit s = i ∧ slot_bit s < 64 ∧ slot_word s < words)%nat) ∧
    (∀ path s, MaskSlotFor d relid r path = Ok (Some s) ↔ s ∈ slots ∧ slot_path s = path) ∧
    (∀ path, MaskSlotFor d relid r path = Ok None ↔ ¬ ∃ s, s ∈ slots ∧ slot_path s = path).
Proof.
  destruct (maskLayout_ok d Hd relid r Hr) as (m & slots & Hl & [(ext & Hext & Hi & Hs) Hm]).
  cbn [app] in Hext. subst ext. exists slots, (Nat.max 1 ((length slots + 63) `div` 64))%nat.
  assert (∀ path, MaskSlotFor d relid r path =
    match mask_find m path with None => Ok None | Some n => s ← at_index slots n; Ok (Some s) end) as Hfor.
  { intros path. unfold MaskSlotFor. by rewrite Hl. }
  assert (∀ path n, mask_find m path = Some n → ∃ s, slots !! n = Some s ∧ slot_path s = path) as Hfind
    by (intros path n Hn; by apply Hm).
  assert (∀ s, s ∈ slots → ∃ n, mask_find m (slot_path s) = Some n ∧ slots !! n = Some s) as Hall.
  { intros s Hin. destruct (Hs s Hin) as (p & n & Hp & Hn & Hns). exists n. cbn in Hp. by rewrite Hp. }
  unfold MaskWords, MaskSlots. rewrite Hl. split_and!; [done|done| | |].
  - intros i s Hin. pose proof (lookup_lt_Some _ _ _ Hin). rewrite (Hi i s Hin). cbn [slot_at slot_word slot_bit length plus].
    pose proof (Nat.div_mod_eq i 64). pose proof (Nat.mod_upper_bound i 64 ltac:(lia)).
    split_and!; [lia|done|]. apply Nat.max_lt_iff. right.
    pose proof (Nat.div_mod_eq (length slots + 63) 64). pose proof (Nat.mod_upper_bound (length slots + 63) 64 ltac:(lia)). lia.
  - intros path s. rewrite Hfor. split.
    + destruct (mask_find m path) as [n|] eqn:En; [|done]. destruct (Hfind _ _ En) as (s' & Hs' & Hp).
      unfold at_index. rewrite Hs'. cbn. intros [= <-]. split; [by eapply list_elem_of_lookup_2|done].
    + intros [Hin <-]. destruct (Hall s Hin) as (n & -> & Hn). unfold at_index. by rewrite Hn.
  - intros path. rewrite Hfor. split.
    + destruct (mask_find m path) as [n|] eqn:En; [by destruct (Hfind _ _ En) as (s' & Hs' & _); unfold at_index; rewrite Hs'|].
      intros _ (s & Hin & <-). destruct (Hall s Hin) as (n & Hn & _). congruence.
    + intros Hno. destruct (mask_find m path) as [n|] eqn:En; [|done]. destruct Hno.
      destruct (Hfind _ _ En) as (s & Hs' & Hp). exists s. split; [by eapply list_elem_of_lookup_2|done].
Qed.

(** A composite type that contains itself, and a table with a column of it. *)
Definition pair_cols : list Column :=
  [MkColumn "self" 100 "" "" false false false false false true; plain_column "x"].
Definition nested : DbInfos :=
  MkDbInfos {[ 1 := table "boxes" ["id"];
               10 := MkRelation (MkIdent "public" "pair") false false false true pair_cols ∅ 100 None ∅ ∅ ∅ ∅ ]}
    ∅ [] ∅ {[ 100 := MkType (MkIdent "public" "pair") None None None (Some 10) false [] ]} ["public"].

Lemma nested_finite : catalog_finite nested.
Proof.
  assert (∀ t ty, TypeMapByOid nested !! t = Some ty → ty_base ty = None) as Hbase.
  { intros t ty Ht. unfold nested in Ht; cbn [TypeMapByOid] in Ht. by apply lookup_singleton_Some in Ht as [_ <-]. }
  assert (∀ t, Underlying (domain_fuel nested) nested t = Ok t) as Hu.
  { intros t. unfold domain_fuel. cbn [Underlying]. destruct (TypeMapByOid nested !! t) as [ty|] eqn:E; [|done].
    by rewrite (Hbase t ty E). }
  split_and!; [intros t|intros t e|]; [unfold CompositeRelation; by rewrite Hu..|].
  intros relid r Hr. unfold GetRelation, nested in Hr. cbn [Relations] in Hr.
  apply lookup_insert_Some in Hr as [[_ <-]|[_ Hr]]; [by apply (bool_decide_unpack _); vm_compute|].
  apply lookup_singleton_Some in Hr as [_ <-]. by apply (bool_decide_unpack _); vm_compute.
Qed.

Lemma MaskSlots_layout_witness :
  ∃ r slots, GetRelation nested 10 = Some r ∧ MaskSlots nested 10 r = Ok slots ∧ length slots = 2%nat ∧
    ∃ words, MaskWords nested 10 r = Ok words ∧
    (∀ i s, slots !! i = Some s → (slot_word s * 64 + slot_bit s = i ∧ slot_bit s < 64 ∧ slot_word s < words)%nat).
Proof.
  eexists _, _. split; [reflexivity|]. split; [vm_compute; reflexivity|]. split; [reflexivity|].
  destruct (MaskSlots_layout nested 10 (MkRelation (MkIdent "public" "pair") false false false true pair_cols ∅ 100 None ∅ ∅ ∅ ∅)
    nested_finite ltac:(apply (bool_decide_unpack _); vm_compute; exact I)) as (slots & words & Hs & Hw & Hi & _ & _).
  exists words. split; [exact Hw|].
  vm_compute in Hs. injection Hs as <-. exact Hi.
Defined.
