(* ===== verification/TempTable.v ===== *)
(** The temp tables of a write: the plan and the SQL references of
    [src/query/write_temp.go], and the choice of a column's mode,
    [binaryEncoderFor] of [src/query/write_encode_complex.go].

    The column encoders themselves are not part of the plan here: a column is in
    binary mode when there is one for every type in its tree.  [Sanitize] quotes
    an identifier, as [pgx.Identifier.Sanitize] does. *)
From Stdlib Require Import ZArith Lia Ascii.
From S2P Require Import Prelude Catalog MaskSlots.
Set Warnings "-register-all".

Definition maxTempColumns : Z := 1600.

(** The keys of [scalarEncoders]. *)
Definition oidBool : Z := 16.
Definition oidBytea : Z := 17.
Definition oidName : Z := 19.
Definition oidInt8 : Z := 20.
Definition oidInt2 : Z := 21.
Definition oidInt4 : Z := 23.
Definition oidText : Z := 25.
Definition oidJSON : Z := 114.
Definition oidFloat4 : Z := 700.
Definition oidFloat8 : Z := 701.
Definition oidBpchar : Z := 1042.
Definition oidVarchar : Z := 1043.
Definition oidDate : Z := 1082.
Definition oidTimestamp : Z := 1114.
Definition oidTimestamptz : Z := 1184.
Definition oidNumeric : Z := 1700.
Definition oidUUID : Z := 2950.
Definition oidJSONB : Z := 3802.
Definition scalarEncoders : list Z := [
  oidBool; oidBytea; oidName; oidInt8; oidInt2; oidInt4; oidText; oidJSON; oidFloat4; oidFloat8;
  oidBpchar; oidVarchar; oidDate; oidTimestamp; oidTimestamptz; oidNumeric; oidUUID; oidJSONB ].

Definition IsEnum (ty : PgType) : bool := negb (bool_decide (EnumLabels ty = [])).
Definition composite_of (d : DbInfos) (ty : PgType) : option Relation :=
  match ty_rel ty with Some relid => GetRelation d relid | None => None end.

(** Whether every element of a list passes a check that can fail to return. *)
Fixpoint all_ok {A} (f : A → outcome bool) (l : list A) : outcome bool :=
  match l with
  | [] => Ok true
  | a :: l => b ← f a; if b : bool then all_ok f l else Ok false
  end.

(** Whether [binaryEncoderFor] finds an encoder; a type that is not there is nil. *)
Fixpoint has_binary_encoder (fuel : nat) (d : DbInfos) (t : Z) : outcome bool :=
  match fuel with
  | O => OutOfFuel
  | S fuel =>
      u ← Underlying (domain_fuel d) d t;
      match TypeMapByOid d !! u with
      | None => Ok false
      | Some ty =>
          if IsEnum ty || bool_decide (u ∈ scalarEncoders) then Ok true
          else if IsArray d u then
            match ty_elem ty with Some e => has_binary_encoder fuel d e | None => Ok false end
          else
            match composite_of d ty with
            | Some r => all_ok (λ c, has_binary_encoder fuel d (col_type c)) (Columns r)
            | None => Ok false
            end
      end
  end.

(** A type's tree is no deeper than there are types. *)
Definition type_fuel (d : DbInfos) : nat := S (size (TypeMapByOid d)).
Definition binary_column (d : DbInfos) (c : Column) : outcome bool := has_binary_encoder (type_fuel d) d (col_type c).

Record tempColumn := MkTempColumn { tc_name : string; tc_decl : string; tc_oid : Z; tc_binary : bool }.

(** The names of the two tables; their oids are known once they exist. *)
Record tempTable := MkTempTable {
  tt_relid : Z;
  tt_rel : Relation;
  tt_prefix : string;
  tt_cols : list tempColumn;
  tt_maskWords : nat;
}.

(** ** Names *)

Definition clashes (prefix : string) (cols : list Column) : bool := existsb (λ c, String.prefix prefix (col_name c)) cols.

(** Lengthen the prefix until no column starts with it. *)
Fixpoint free_prefix (fuel : nat) (cols : list Column) (prefix : string) : outcome string :=
  match fuel with
  | O => OutOfFuel
  | S fuel => if clashes prefix cols then free_prefix fuel cols (prefix +:+ "_") else Ok prefix
  end.

(** A prefix longer than every name clashes with none. *)
Definition prefix_fuel (cols : list Column) : nat := S (list_max (map (λ c, String.length (col_name c)) cols)).

Definition temp_column (d : DbInfos) (c : Column) : outcome tempColumn :=
  b ← binary_column d c;
  Ok (if b : bool then MkTempColumn (col_name c) (col_declared c) (col_type c) true
      else MkTempColumn (col_name c) "text" oidText false).

Fixpoint temp_columns (d : DbInfos) (cols : list Column) : outcome (list tempColumn) :=
  match cols with
  | [] => Ok []
  | c :: cols => t ← temp_column d c; ts ← temp_columns d cols; Ok (t :: ts)
  end.

Definition newTempTable (d : DbInfos) (relid : Z) (r : Relation) : outcome tempTable :=
  words ← MaskWords d relid r;
  prefix ← free_prefix (prefix_fuel (Columns r)) (Columns r) "__rel_";
  if maxTempColumns <? 3 + Z.of_nat (length (Columns r)) + Z.of_nat words
  then errorf "write: %s has too many columns to write through temp tables (%d, the limit is %d)"
  else
    cols ← temp_columns d (Columns r);
    Ok (MkTempTable relid r prefix cols words).

Definition rowIDCol (t : tempTable) : string := tt_prefix t +:+ "row_id".
Definition nodeIDCol (t : tempTable) : string := tt_prefix t +:+ "node_id".
Definition parentIDCol (t : tempTable) : string := tt_prefix t +:+ "parent_id".
Definition maskCol (t : tempTable) (word : nat) : string := tt_prefix t +:+ "mask" +:+ dec_nat (Z.of_nat word).

Definition general_name (t : tempTable) : string := "__rel_w_" +:+ dec_int (tt_relid t).
Definition fast_name (t : tempTable) : string := "__rel_f_" +:+ dec_int (tt_relid t).

(** ** Statements and references *)

Section sql.
Context (d : DbInfos) (Sanitize : string → string).
Implicit Types (t : tempTable) (alias : string).

Definition quoteIdent (name : string) : string := Sanitize name.
Definition qualified (name : string) : string := "pg_temp." +:+ quoteIdent name.
Definition qualifiedGeneral t : string := qualified (general_name t).

(** The columns of the statements: data, then masks; only the general table has
    the metadata first. *)
Definition data_columns t : string := join ", " (map (λ c, quoteIdent (tc_name c) +:+ " " +:+ tc_decl c) (tt_cols t)).
Definition mask_columns t : string :=
  String.concat "" (map (λ w, ", " +:+ quoteIdent (maskCol t w) +:+ " int8") (seq 0 (tt_maskWords t))).
Definition meta_columns t : string :=
  quoteIdent (rowIDCol t) +:+ " int4, " +:+ quoteIdent (nodeIDCol t) +:+ " int4, " +:+ quoteIdent (parentIDCol t) +:+ " int4, ".

(** [keepRowsAtCommit] is set by tests only. *)
Definition createStatements (keepRowsAtCommit : bool) t : list string :=
  let onCommit := if keepRowsAtCommit then "preserve rows" else "delete rows" in
  [ "create temp table if not exists " +:+ quoteIdent (general_name t) +:+ " (" +:+ meta_columns t +:+ data_columns t +:+
      mask_columns t +:+ ") on commit " +:+ onCommit;
    "create temp table if not exists " +:+ quoteIdent (fast_name t) +:+ " (" +:+ data_columns t +:+ mask_columns t +:+ ")";
    "grant all on " +:+ qualified (general_name t) +:+ " to public";
    "grant all on " +:+ qualified (fast_name t) +:+ " to public" ].

Definition lookupSQL t : string :=
  let one name := "(select oid from pg_type where typname = '" +:+ name +:+ "' and typnamespace = pg_my_temp_schema())" in
  "select " +:+ join ", " [one (general_name t); one ("_" +:+ general_name t); one (fast_name t); one ("_" +:+ fast_name t)].

Definition loadSQL t (general : bool) : string :=
  let q := qualified (if general then general_name t else fast_name t) in
  "insert into " +:+ q +:+ " select * from unnest($1::" +:+ q +:+ "[])".

(** [t.cols[t.colIdx[col]]]: a column that is not there has index 0. *)
Definition col_binary t (col : Column) : outcome bool :=
  c ← at_index (tt_cols t) (match list_find (λ c, c = col) (Columns (tt_rel t)) with Some (i, _) => i | None => 0%nat end);
  Ok (tc_binary c).

Definition type_name (ty : Z) : outcome string := of_option Panic ((λ p : PgType, EscapedString (ty_ident p)) <$> TypeMapByOid d !! ty).

Definition colRef t alias (col : Column) : outcome string :=
  let ref := alias +:+ "." +:+ quoteIdent (col_name col) in
  b ← col_binary t col;
  if b : bool then Ok ref
  else ty ← type_name (col_type col); Ok ("(" +:+ ref +:+ "::" +:+ ty +:+ ")").

Definition rawColRef alias (col : Column) : string := alias +:+ "." +:+ quoteIdent (col_name col).

Definition fieldPath (base : string) (path : list Column) : string :=
  foldl (λ base c, "(" +:+ base +:+ ")." +:+ quoteIdent (col_name c)) base path.

Definition cpRef t alias (path : list Column) : outcome string :=
  match path with
  | [] => Panic
  | c :: path => ref ← colRef t alias c; Ok (fieldPath ref path)
  end.

Definition maskWordRef t alias (w : nat) : string := alias +:+ "." +:+ quoteIdent (maskCol t w).

(** [int64(1)<<bit] is negative for the last bit, which the literal writes out. *)
Definition maskBitLiteral (bit : nat) : string :=
  if Nat.eqb bit 63 then "(-9223372036854775807-1)" else dec_int (1 ≪ Z.of_nat bit).

Definition maskTest t alias (slot : MaskSlot) : string :=
  "(" +:+ maskWordRef t alias (slot_word slot) +:+ " & " +:+ maskBitLiteral (slot_bit slot) +:+ "::int8) <> 0".

Definition rowIDRef t alias : string := alias +:+ "." +:+ quoteIdent (rowIDCol t).
Definition nodeIDRef t alias : string := alias +:+ "." +:+ quoteIdent (nodeIDCol t).
Definition parentIDRef t alias : string := alias +:+ "." +:+ quoteIdent (parentIDCol t).

Definition assignKey t (col : Column) (src : string) : outcome string :=
  let v := src +:+ "." +:+ quoteIdent (col_name col) in
  b ← col_binary t col;
  Ok (quoteIdent (col_name col) +:+ " = " +:+ (if b : bool then v else v +:+ "::text")).
End sql.
