(* ===== verification/TempTableFacts.v ===== *)
(** The temp tables of a write: their plan is made, and no two of their columns
    have the same name. *)
From Stdlib Require Import ZArith Lia Ascii.
From S2P Require Import Prelude Catalog Joins KeysFacts MaskSlots MaskFacts TempTable.
Set Warnings "-register-all".
#[local] Set Default Proof Using "Type*".

Lemma prefix_app p s : String.prefix p (p +:+ s) = true.
Proof. induction p as [|c p IH]; [by destruct s|]. cbn. by destruct (ascii_dec c c). Qed.

Lemma prefix_of_length p s : String.prefix p s = true → (String.length p ≤ String.length s)%nat.
Proof.
  revert s. induction p as [|c p IH]; intros [|c' s]; cbn; try done; [lia..|].
  destruct (ascii_dec c c'); [|done]. intros H%IH. lia.
Qed.

Lemma append_inj_l (p a b : string) : p +:+ a = p +:+ b → a = b.
Proof. induction p as [|c p IH]; cbn; [done|]. intros [=]. auto. Qed.

Lemma clashes_false p cols c s : clashes p cols = false → c ∈ cols → col_name c ≠ p +:+ s.
Proof.
  intros Hc Hin Heq. assert (clashes p cols = true) as Ht; [|congruence].
  apply existsb_exists. exists c. split; [by apply list_elem_of_In|]. by rewrite Heq, prefix_app.
Qed.

(** Every turn makes the prefix longer, and one longer than every name is free. *)
Lemma free_prefix_ok cols fuel p :
  (S (S (list_max (map (λ c, String.length (col_name c)) cols))) ≤ fuel + String.length p)%nat → (0 < fuel)%nat →
  ∃ q, free_prefix fuel cols p = Ok q ∧ clashes q cols = false.
Proof.
  revert p. induction fuel as [|fuel IH]; intros p Hf H0; [lia|]. cbn [free_prefix].
  destruct (clashes p cols) eqn:E; [|eauto].
  apply existsb_exists in E as (c & Hc & Hp). apply prefix_of_length in Hp.
  apply list_elem_of_In, (list_max_in (λ c, String.length (col_name c))) in Hc.
  apply IH; [rewrite length_append; cbn|]; lia.
Qed.

(** Types are not part of themselves: they are ranked, below the number of them. *)
Record types_ranked (d : DbInfos) (rank : Z → nat) : Prop := {
  rank_bound t : (rank t ≤ size (TypeMapByOid d))%nat;
  rank_elem t u ty e : Underlying (domain_fuel d) d t = Ok u → TypeMapByOid d !! u = Some ty →
    ty_elem ty = Some e → (rank e < rank t)%nat;
  rank_column t u ty r c : Underlying (domain_fuel d) d t = Ok u → TypeMapByOid d !! u = Some ty →
    composite_of d ty = Some r → c ∈ Columns r → (rank (col_type c) < rank t)%nat;
}.

Lemma all_ok_returns {A} (f : A → outcome bool) l :
  (∀ a, a ∈ l → ∃ b, f a = Ok b) → ∃ b, all_ok f l = Ok b.
Proof.
  induction l as [|a l IH]; intros H; cbn; [eauto|].
  destruct (H a) as [b ->]; [by left|]. destruct b; [|by exists false].
  apply IH. intros x Hx. apply H. by right.
Qed.

#[local] Instance append_inj p : Inj (=) (=) (λ s, p +:+ s).
Proof. intros a b. apply append_inj_l. Qed.

Section plan.
Context (d : DbInfos) (Hd : catalog_finite d) (rank : Z → nat) (Hrank : types_ranked d rank).

Lemma Underlying_ok t : ∃ u, Underlying (domain_fuel d) d t = Ok u.
Proof.
  destruct Hd as (Hret & Herr & _). specialize (Hret t). specialize (Herr t).
  unfold CompositeRelation in *. destruct (Underlying (domain_fuel d) d t) as [u|e| |]; try done; [eauto|].
  by destruct (Herr e).
Qed.

Lemma has_binary_encoder_ok fuel t : (rank t < fuel)%nat → ∃ b, has_binary_encoder fuel d t = Ok b.
Proof.
  revert t. induction fuel as [|fuel IH]; intros t Hf; [lia|]. cbn [has_binary_encoder].
  destruct (Underlying_ok t) as [u Hu]. rewrite Hu. cbn [mbind outcome_bind].
  destruct (TypeMapByOid d !! u) as [ty|] eqn:Ety; [|eauto].
  destruct (_ || _); [eauto|]. destruct (IsArray d u).
  - destruct (ty_elem ty) as [e|] eqn:Ee; [|eauto]. apply IH.
    pose proof (rank_elem d rank Hrank t u ty e Hu Ety Ee). lia.
  - destruct (composite_of d ty) as [r|] eqn:Er; [|eauto]. apply all_ok_returns. intros c Hc. apply IH.
    pose proof (rank_column d rank Hrank t u ty r c Hu Ety Er Hc). lia.
Qed.

Lemma temp_columns_ok cols : ∃ ts, temp_columns d cols = Ok ts ∧ map tc_name ts = map col_name cols.
Proof.
  induction cols as [|c cols (ts & Hts & Hn)]; cbn [temp_columns]; [by exists []|].
  unfold temp_column, binary_column.
  destruct (has_binary_encoder_ok (type_fuel d) (col_type c)) as [b ->].
  { pose proof (rank_bound d rank Hrank (col_type c)). unfold type_fuel. lia. }
  rewrite Hts. cbn. eexists. split; [done|]. cbn. rewrite Hn. by destruct b.
Qed.
End plan.

(** The columns of the general table. *)
Definition general_columns (t : tempTable) : list string :=
  [rowIDCol t; nodeIDCol t; parentIDCol t] ++ map tc_name (tt_cols t) ++ map (maskCol t) (seq 0 (tt_maskWords t)).

Lemma general_columns_nodup t cols :
  map tc_name (tt_cols t) = map col_name cols → NoDup (map col_name cols) →
  clashes (tt_prefix t) cols = false → NoDup (general_columns t).
Proof.
  intros Hn Hnd Hfree. unfold general_columns. rewrite Hn.
  assert (∀ s, tt_prefix t +:+ s ∉ map col_name cols) as Hout.
  { intros s (c & Hc & Hin)%list_elem_of_fmap. by eapply clashes_false. }
  assert (∀ a w, a ≠ "mask" +:+ dec_nat (Z.of_nat w) → tt_prefix t +:+ a ≠ maskCol t w) as Hmask.
  { intros a w Ha ?%append_inj_l. done. }
  rewrite !NoDup_app. split_and!.
  - refine (NoDup_fmap_2 (λ s, tt_prefix t +:+ s) ["row_id"; "node_id"; "parent_id"] _); by apply (bool_decide_unpack _).
  - intros x Hx [Hin|(w & -> & _)%list_elem_of_fmap]%elem_of_app.
    + rewrite !elem_of_cons, elem_of_nil in Hx. destruct Hx as [->|[->|[->|[]]]]; by apply Hout in Hin.
    + rewrite !elem_of_cons, elem_of_nil in Hx. destruct Hx as [Hx|[Hx|[Hx|[]]]]; symmetry in Hx; by apply Hmask in Hx.
  - done.
  - intros x Hx (w & -> & _)%list_elem_of_fmap. by apply (Hout _ Hx).
  - apply NoDup_fmap_2; [|apply NoDup_seq]. unfold maskCol.
    intros v w H. apply append_inj_l, append_inj_l, dec_nat_inj in H; lia.
Qed.

(** C30: planning the temp tables of a relation returns: the metadata prefix is
    lengthened until it is free, and the plan is made unless the columns are too
    many.  Then the columns of the table are those of the relation, in order,
    between the metadata and one mask column per word of its presence slots; no
    two of them have the same name, and they are no more than Postgres allows. *)
Theorem newTempTable_columns (d : DbInfos) (relid : Z) (r : Relation) (rank : Z → nat)
    (Hd : catalog_finite d) (Hrank : types_ranked d rank) (Hnames : NoDup (map col_name (Columns r))) :
  match newTempTable d relid r with
  | Ok t =>
      map tc_name (tt_cols t) = map col_name (Columns r) ∧
      MaskWords d relid r = Ok (tt_maskWords t) ∧
      NoDup (general_columns t) ∧ (Z.of_nat (length (general_columns t)) ≤ maxTempColumns)
  | Err _ => True
  | _ => False
  end.
Proof.
  unfold newTempTable.
  destruct (maskLayout_ok d Hd relid r (NoDup_fmap_1 _ _ Hnames)) as (m & slots & Hl & _).
  assert (∃ words, MaskWords d relid r = Ok words) as [words Hw] by (unfold MaskWords, MaskSlots; rewrite Hl; eauto).
  rewrite Hw. cbn [mbind outcome_bind].
  destruct (free_prefix_ok (Columns r) (prefix_fuel (Columns r)) "__rel_") as (p & Hp & Hfree);
    [unfold prefix_fuel; cbn [String.length]; lia..|]. rewrite Hp. cbn [mbind outcome_bind].
  destruct (Z.ltb_spec maxTempColumns (3 + Z.of_nat (length (Columns r)) + Z.of_nat words)) as [|Hle]; [done|].
  destruct (temp_columns_ok d Hd rank Hrank (Columns r)) as (ts & Hts & Hn). rewrite Hts.
  cbn [mbind outcome_bind tt_cols tt_maskWords]. split_and!; [done|done|by eapply general_columns_nodup|].
  unfold general_columns. cbn [tt_cols tt_maskWords]. rewrite !length_app, Hn, !length_map, length_seq. cbn [length]. lia.
Qed.

(** A table with a column of a composite type, and one named as the metadata are. *)
Definition typed_column (name : string) (t : Z) : Column :=
  MkColumn name t "" "" false false false false false true.
Definition int4 : PgType := MkType (MkIdent "pg_catalog" "int4") None None None None false [].
Definition boxes : Relation :=
  MkRelation (MkIdent "public" "boxes") false false false false
    [typed_column "id" 23; typed_column "__rel_row_id" 23; typed_column "corner" 100] ∅ 0 None ∅ ∅ ∅ ∅.
Definition shapes : DbInfos :=
  MkDbInfos {[ 1 := boxes;
               10 := MkRelation (MkIdent "public" "pair") false false false true
                      [typed_column "x" 23; typed_column "y" 23] ∅ 100 None ∅ ∅ ∅ ∅ ]}
    ∅ [] ∅ {[ 23 := int4; 100 := MkType (MkIdent "public" "pair") None None None (Some 10) false [] ]} ["public"].
Definition shape_rank (t : Z) : nat := if decide (t = 100) then 1%nat else 0%nat.

Lemma shapes_type t ty : TypeMapByOid shapes !! t = Some ty → ty_base ty = None ∧ ty_elem ty = None ∧ (t = 100 ∨ ty_rel ty = None).
Proof.
  unfold shapes. cbn [TypeMapByOid].
  intros [[<- <-]|[_ [<- <-]%lookup_singleton_Some]]%lookup_insert_Some; cbn; eauto.
Qed.

Lemma shapes_underlying t : Underlying (domain_fuel shapes) shapes t = Ok t.
Proof.
  unfold domain_fuel. cbn [Underlying]. destruct (TypeMapByOid shapes !! t) as [ty|] eqn:E; [|done].
  by destruct (shapes_type t ty E) as [-> _].
Qed.

Lemma shapes_finite : catalog_finite shapes.
Proof.
  split_and!; [intros t|intros t e|]; [unfold CompositeRelation; by rewrite shapes_underlying..|].
  intros relid r Hr. unfold GetRelation, shapes in Hr. cbn [Relations] in Hr.
  apply lookup_insert_Some in Hr as [[_ <-]|[_ Hr]]; [by apply (bool_decide_unpack _); vm_compute|].
  apply lookup_singleton_Some in Hr as [_ <-]. by apply (bool_decide_unpack _); vm_compute.
Qed.

Lemma shapes_ranked : types_ranked shapes shape_rank.
Proof.
  split.
  - intros t. change (size (TypeMapByOid shapes)) with 2%nat. unfold shape_rank. case_decide; lia.
  - intros t u ty e _ Hty He. destruct (shapes_type u ty Hty) as (_ & Hn & _). congruence.
  - intros t u ty r c Hu Hty Hr Hc. rewrite shapes_underlying in Hu. injection Hu as <-.
    destruct (shapes_type t ty Hty) as (_ & _ & [->|Hn]); unfold composite_of in Hr; [|by rewrite Hn in Hr].
    vm_compute in Hty. injection Hty as <-. vm_compute in Hr. injection Hr as <-.
    cbn in Hc. rewrite !elem_of_cons, elem_of_nil in Hc. destruct Hc as [->|[->|[]]]; by vm_compute.
Qed.

Lemma newTempTable_columns_witness :
  GetRelation shapes 1 = Some boxes ∧ ∃ t, newTempTable shapes 1 boxes = Ok t ∧ tt_prefix t = "__rel__" ∧ NoDup (general_columns t).
Proof.
  split; [reflexivity|]. eexists. split; [vm_compute; reflexivity|]. split; [reflexivity|].
  pose proof (newTempTable_columns shapes 1 boxes shape_rank shapes_finite shapes_ranked
    (bool_decide_unpack (NoDup (map col_name (Columns boxes))) I)) as H.
  vm_compute in H. apply H.
Defined.

(** An identifier as Postgres reads it, cut at 63 bytes. *)
Definition truncated (name : string) : string := String.substring 0 63 name.
Definition long_name : string := "__rel__________________________________________________________".

(** C39: the plan does not count the 63 bytes of an identifier: next to a column
    whose name is the prefix and underscores up to that length, the prefix grows
    past it, and the metadata columns and that column are one identifier. *)
Theorem newTempTable_truncated :
  truncated long_name = long_name ∧
  match newTempTable shapes 7 (table "t" [long_name]) with
  | Ok t => map truncated (general_columns t) = repeat long_name 5
  | _ => False
  end.
Proof. split; vm_compute; reflexivity. Qed.
