(* ===== verification/Regexp.v ===== *)
(** Regular expressions over characters, as the program's patterns use them, with
    an executable matcher and its language. *)
From Stdlib Require Import ZArith Lia Ascii.
From S2P Require Import Prelude.

Inductive regexp :=
  | RVoid
  | REps
  | RChar (p : Ascii.ascii → bool)
  | RSeq (r s : regexp)
  | RAlt (r s : regexp)
  | RStar (r : regexp).

Definition RPlus (r : regexp) : regexp := RSeq r (RStar r).
Definition ROpt (r : regexp) : regexp := RAlt r REps.
Definition RLit (c : Ascii.ascii) : regexp := RChar (λ x, bool_decide (x = c)).

(** The texts of an expression. *)
Inductive lang : regexp → string → Prop :=
  | lang_eps : lang REps ""
  | lang_char p c : p c = true → lang (RChar p) (String c "")
  | lang_seq r s a b : lang r a → lang s b → lang (RSeq r s) (a +:+ b)
  | lang_alt_l r s a : lang r a → lang (RAlt r s) a
  | lang_alt_r r s a : lang s a → lang (RAlt r s) a
  | lang_star_nil r : lang (RStar r) ""
  | lang_star_cons r a b : lang r a → lang (RStar r) b → lang (RStar r) (a +:+ b).

Fixpoint nullable (r : regexp) : bool :=
  match r with
  | RVoid | RChar _ => false
  | REps | RStar _ => true
  | RSeq r s => nullable r && nullable s
  | RAlt r s => nullable r || nullable s
  end.

(** Sequence and choice, without the parts that match nothing. *)
Definition seq_ (r s : regexp) : regexp :=
  match r with RVoid => RVoid | REps => s | _ => RSeq r s end.
Definition alt_ (r s : regexp) : regexp :=
  match r, s with RVoid, _ => s | _, RVoid => r | _, _ => RAlt r s end.

(** What may follow a first character. *)
Fixpoint after (c : Ascii.ascii) (r : regexp) : regexp :=
  match r with
  | RVoid | REps => RVoid
  | RChar p => if p c then REps else RVoid
  | RSeq r s =>
      let rest := seq_ (after c r) s in
      if nullable r then alt_ rest (after c s) else rest
  | RAlt r s => alt_ (after c r) (after c s)
  | RStar r => seq_ (after c r) (RStar r)
  end.

(** [MatchString] of an anchored pattern. *)
Fixpoint MatchString (r : regexp) (s : string) : bool :=
  match s with
  | EmptyString => nullable r
  | String c s => MatchString (after c r) s
  end.

Lemma lang_void s : ¬ lang RVoid s.
Proof. inversion 1. Qed.

Lemma lang_seq_ r s a : lang (seq_ r s) a ↔ lang (RSeq r s) a.
Proof.
  destruct r; cbn [seq_]; try done; split.
  - inversion 1.
  - inversion 1; subst. by edestruct lang_void.
  - intros H. change a with ("" +:+ a). constructor; [constructor|done].
  - inversion 1 as [| |? ? x y Hx Hy| | | |]; subst. inversion Hx; subst. done.
Qed.

Lemma lang_alt_ r s a : lang (alt_ r s) a ↔ lang (RAlt r s) a.
Proof.
  assert (∀ x, lang x a ↔ lang (RAlt RVoid x) a) as Hl.
  { intros x. split; [by constructor|]. inversion 1; subst; [by edestruct lang_void|done]. }
  assert (∀ x, lang x a ↔ lang (RAlt x RVoid) a) as Hr.
  { intros x. split; [by constructor|]. inversion 1; subst; [done|by edestruct lang_void]. }
  destruct r; cbn [alt_]; [apply Hl|..]; destruct s; done || apply Hr.
Qed.

Lemma nullable_spec r : nullable r = true ↔ lang r "".
Proof.
  split.
  - induction r; cbn; try done; intros H; try by constructor.
    + apply andb_true_iff in H as [? ?]. apply (lang_seq _ _ "" ""); auto.
    + apply orb_true_iff in H as [?|?]; [apply lang_alt_l|apply lang_alt_r]; auto.
  - intros H. remember "" as e eqn:He. revert He. induction H; intros He; cbn in *; try done.
    + destruct a; [|done]. cbn in He. by rewrite IHlang1, IHlang2.
    + by rewrite IHlang.
    + rewrite IHlang by done. by rewrite orb_true_r.
Qed.

Lemma after_spec c r s : lang (after c r) s ↔ lang r (String c s).
Proof.
  revert s. induction r as [| |p|r1 IH1 r2 IH2|r1 IH1 r2 IH2|r IH]; intros s; cbn [after].
  - split; inversion 1.
  - split; inversion 1.
  - split.
    + destruct (p c) eqn:E; inversion 1; subst. by constructor.
    + inversion 1 as [|? ? Hp| | | | |]; subst. rewrite Hp. constructor.
  - assert (lang (seq_ (after c r1) r2) s → lang (RSeq r1 r2) (String c s)) as Hrest.
    { rewrite lang_seq_. inversion 1 as [| |? ? a b Ha Hb| | | |]; subst.
      apply (lang_seq r1 r2 (String c a) b); [by apply IH1|done]. }
    assert (∀ a b, lang r1 a → lang r2 b → a +:+ b = String c s →
      (nullable r1 = true ∧ lang (after c r2) s) ∨ lang (seq_ (after c r1) r2) s) as Hsplit.
    { intros [|c' a] b Ha Hb Hab; cbn in Hab.
      - left. subst. split; [by apply nullable_spec|by apply IH2].
      - right. injection Hab as -> <-. rewrite lang_seq_. constructor; [by apply IH1|done]. }
    destruct (nullable r1) eqn:En.
    + rewrite lang_alt_. split.
      * inversion 1; subst; [auto|]. apply (lang_seq r1 r2 ""); [by apply nullable_spec|by apply IH2].
      * inversion 1 as [| |? ? a b Ha Hb Hab| | | |]; subst.
        destruct (Hsplit a b Ha Hb) as [[_ ?]|?]; [done|by apply lang_alt_r|by apply lang_alt_l].
    + split; [auto|]. inversion 1 as [| |? ? a b Ha Hb Hab| | | |]; subst.
      by destruct (Hsplit a b Ha Hb) as [[? _]|?].
  - rewrite lang_alt_. split; inversion 1; subst.
    + by apply lang_alt_l, IH1.
    + by apply lang_alt_r, IH2.
    + by apply lang_alt_l, IH1.
    + by apply lang_alt_r, IH2.
  - rewrite lang_seq_. split.
    + inversion 1 as [| |? ? a b Ha Hb| | | |]; subst. apply (lang_star_cons r (String c a) b); [by apply IH|done].
    + intros H. remember (RStar r) as q eqn:Hq. remember (String c s) as t eqn:Ht.
      revert Hq Ht. induction H as [| | | | | |? a b Ha _ Hb IHb]; try done. intros [= ->] Ht.
      destruct a as [|c' a]; cbn in Ht; [by apply IHb|]. injection Ht as -> <-.
      constructor; [by apply IH|done].
Qed.

Lemma MatchString_spec r s : MatchString r s = true ↔ lang r s.
Proof.
  revert r. induction s as [|c s IH]; intros r; cbn [MatchString]; [apply nullable_spec|].
  by rewrite IH, after_spec.
Qed.

(** The characters an expression can match. *)
Fixpoint chars_in (q : Ascii.ascii → Prop) (r : regexp) : Prop :=
  match r with
  | RVoid | REps => True
  | RChar p => ∀ c, p c = true → q c
  | RSeq r s | RAlt r s => chars_in q r ∧ chars_in q s
  | RStar r => chars_in q r
  end.

Fixpoint string_all (q : Ascii.ascii → Prop) (s : string) : Prop :=
  match s with EmptyString => True | String c s => q c ∧ string_all q s end.

Lemma string_all_app q a b : string_all q (a +:+ b) ↔ string_all q a ∧ string_all q b.
Proof. induction a as [|c a IH]; cbn; [tauto|]. rewrite IH. tauto. Qed.

Lemma lang_chars q r s : chars_in q r → lang r s → string_all q s.
Proof.
  intros Hq H. induction H; cbn in *; try done; rewrite ?string_all_app; naive_solver.
Qed.
