(* ===== verification/EncodeBase.v ===== *)
(** What the encoders of written values share: the helpers and the errors of
    [src/query/write_encode.go], and the functions of Go's [strings] and
    [strconv] they call.

    Every encoder appends the binary form of a value to a byte slice.  A value
    that cannot be written is reported as Postgres itself reports it: the code of
    an error is its SQLSTATE. *)
From Stdlib Require Import ZArith Lia Ascii Strings.Byte.
From S2P Require Import Prelude Cbor CborNode Text Document.
Set Warnings "-register-all".

(** * The values of a payload

    The interface of a document with the accessors of the kinds only a CBOR
    document holds, and the two a node may implement: [decimalText] is [None]
    where it does not, [jsonText] is [Raw] then.  [nesting] bounds the levels of
    arrays below a node. *)
Class ValueNode (N : Type) := {
  value_Node :: Node N;
  StrictBytes : N → outcome bytes;
  Instant_ : N → outcome instant;
  Days : N → outcome Z;
  decimal_text : N → outcome (option string);
  nodeJSON : N → outcome string;
  nesting : N → nat;
}.

#[export] Instance cbor_ValueNode : ValueNode cborNode := {|
  value_Node := cbor_Node;
  StrictBytes := cbor_StrictBytes;
  Instant_ := cbor_Instant;
  Days := cbor_Days;
  decimal_text := decimalText;
  nodeJSON := jsonText;
  nesting c := S (length (nodes (cn_doc c)));
|}.

(** * The context of an encoding

    A time zone other than UTC is what it answers: its offset, in seconds east,
    at an instant. *)
Inductive Location := UTC | Zone (offset : Z → Z).

Record encodeContext := MkContext { ec_Location : option Location; ec_zoneErr : bool }.

Definition location (ec : option encodeContext) : Location :=
  match ec with Some c => default UTC (ec_Location c) | None => UTC end.
Definition zone_unknown (ec : option encodeContext) : bool :=
  match ec with Some c => ec_zoneErr c | None => false end.

(** The offset in force at an instant: [t.In(loc).Zone()]. *)
Definition zone_offset (loc : Location) (unix : Z) : Z := match loc with UTC => 0 | Zone f => f unix end.

(** * Errors *)

Definition isDateTimeType (typ : string) : bool :=
  String.eqb typ "date" || String.eqb typ "timestamp" || String.eqb typ "timestamptz".

Definition errWrongKind {A} (typ : string) : outcome A :=
  errorc (if isDateTimeType typ then "22007" else "22P02") "invalid input syntax for type %s: a %s value is not accepted".
Definition errBadValue {A} (typ : string) : outcome A :=
  errorc (if isDateTimeType typ then "22007" else "22P02") "invalid input syntax for type %s: %q".
Definition errOutOfRange {A} (typ : string) : outcome A :=
  if isDateTimeType typ then errorc "22008" "%s out of range: %q"
  else errorc "22003" "value %q is out of range for type %s".
Definition errUnknownZone {A} : outcome A :=
  errorc "22007" "cannot place %q in time zone %q, which rel does not know : %s".
Definition errBadCharacter {A} : outcome A := errorc "22021" "invalid byte sequence for encoding %q: 0x00".

(** * Integers *)

(** [int16(v)] and the like truncate, as [be_bytes] does. *)
Definition appendInt16 (dst : bytes) (v : Z) : bytes := dst ++ be_bytes 2 v.
Definition appendInt32 (dst : bytes) (v : Z) : bytes := dst ++ be_bytes 4 v.
Definition appendInt64 (dst : bytes) (v : Z) : bytes := dst ++ be_bytes 8 v.
Definition binaryAppendUint16 (dst : bytes) (v : Z) : bytes := dst ++ be_bytes 2 v.
Definition binaryAppendUint32 (dst : bytes) (v : Z) : bytes := appendInt32 dst v.

Inductive NumError := ErrSyntax | ErrRange.

(** [strconv.ParseUint(s, 10, bits)]: out of range at the digit that exceeds
    [maxVal], before a later bad character is seen. *)
Fixpoint parse_uint_digits (maxVal n : Z) (s : string) : NumError + Z :=
  match s with
  | EmptyString => inr n
  | String c s =>
      if negb (is_digit c) then inl ErrSyntax
      else
        let n := n * 10 + digit_val c in
        if maxVal <? n then inl ErrRange else parse_uint_digits maxVal n s
  end.
Definition ParseUint10 (bits : Z) (s : string) : NumError + Z :=
  if String.eqb s "" then inl ErrSyntax else parse_uint_digits (2 ^ bits - 1) 0 s.

(** [strconv.ParseInt(s, 10, bits)] *)
Definition split_sign (s : string) : bool * string :=
  match s with
  | String "-"%char r => (true, r)
  | String "+"%char r => (false, r)
  | _ => (false, s)
  end.
Definition ParseInt10 (bits : Z) (s : string) : NumError + Z :=
  let '(neg, r) := split_sign s in
  match ParseUint10 bits r with
  | inl e => inl e
  | inr n =>
      let cutoff := 2 ^ (bits - 1) in
      if negb neg && (cutoff <=? n) then inl ErrRange
      else if neg && (cutoff <? n) then inl ErrRange
      else inr (if neg then - n else n)
  end.

(** * Texts *)

Definition lower_char (c : ascii) : ascii :=
  if (65 <=? char_code c) && (char_code c <=? 90) then ascii_of_nat (nat_of_ascii c + 32) else c.

(** [strings.ToLower], as far as a comparison with an ASCII word tells: besides
    the ASCII letters, two runes have an ASCII lower case, U+0130 and U+212A. *)
Fixpoint ToLower (s : string) : string :=
  match s with
  | EmptyString => EmptyString
  | String "196"%char (String "176"%char s) => String "i" (ToLower s)
  | String "226"%char (String "132"%char (String "170"%char s)) => String "k" (ToLower s)
  | String c s => String (lower_char c) (ToLower s)
  end.

(** [strings.EqualFold] with an ASCII word without the letters k and s. *)
Definition EqualFold (s word : string) : bool := String.eqb (ToLower s) (ToLower word).

Definition str_at (s : string) (i : nat) : outcome ascii := of_option Panic (String.get i s).

(** [s[i:]] and [s[:i]] *)
Definition str_from (s : string) (i : nat) : outcome string :=
  if decide (i ≤ String.length s)%nat then Ok (str_drop i s) else Panic.
Definition str_to (s : string) (i : nat) : outcome string :=
  if decide (i ≤ String.length s)%nat then Ok (str_take i s) else Panic.

(** * Laws *)

Lemma parse_uint_digits_inv maxVal n s v :
  parse_uint_digits maxVal n s = inr v → all_digits s = true ∧ v = dec_value_acc n s.
Proof.
  revert n. induction s as [|c s IH]; intros n; cbn [parse_uint_digits dec_value_acc]; [by intros [= ->]|].
  unfold all_digits in *. cbn [string_forallb]. destruct (is_digit c); [cbn [negb]|done].
  destruct (maxVal <? _); [done|]. apply IH.
Qed.

Lemma parse_uint_digits_ok maxVal n s :
  all_digits s = true → 0 ≤ n → dec_value_acc n s ≤ maxVal →
  parse_uint_digits maxVal n s = inr (dec_value_acc n s).
Proof.
  revert n. induction s as [|c s IH]; intros n; cbn [parse_uint_digits dec_value_acc]; [done|].
  unfold all_digits in *. cbn [string_forallb]. intros Hd Hn Hv. apply andb_true_iff in Hd as [Hc Hd].
  pose proof (is_digit_range c Hc). rewrite Hc. cbn [negb].
  assert (n * 10 + digit_val c ≤ dec_value_acc (n * 10 + digit_val c) s).
  { rewrite dec_value_acc_split. pose proof (Z.pow_pos_nonneg 10 (Z.of_nat (String.length s)) ltac:(lia) ltac:(lia)).
    assert (0 ≤ dec_value s); [|nia]. clear -Hd. induction s as [|c s IH]; [done|].
    cbn in Hd. apply andb_true_iff in Hd as [Hc Hd]. pose proof (is_digit_range c Hc).
    rewrite dec_value_cons. specialize (IH Hd). pose proof (Z.pow_nonneg 10 (Z.of_nat (String.length s))). nia. }
  destruct (Z.ltb_spec maxVal (n * 10 + digit_val c)); [lia|]. apply IH; [done|lia|done].
Qed.

Lemma dec_value_bounds s : all_digits s = true → 0 ≤ dec_value s < 10 ^ Z.of_nat (String.length s).
Proof.
  induction s as [|c s IH]; [done|]. unfold all_digits in *. cbn [string_forallb].
  intros [Hc Hd]%andb_true_iff. pose proof (is_digit_range c Hc). specialize (IH Hd).
  rewrite dec_value_cons. cbn [String.length]. rewrite Nat2Z.inj_succ, Z.pow_succ_r by lia. nia.
Qed.

Lemma split_sign_cons c r :
  split_sign (String c r) =
  if decide (c = "-"%char) then (true, r) else if decide (c = "+"%char) then (false, r) else (false, String c r).
Proof. destruct c as [[] [] [] [] [] [] [] []]; reflexivity. Qed.

(** A text's optional sign. *)
Definition sign_text (s : string) : Prop := s = "" ∨ s = "+" ∨ s = "-".
Definition is_sign (c : ascii) : Prop := c = "+"%char ∨ c = "-"%char.

Lemma split_sign_app sign r :
  sign_text sign → (∀ c r', r = String c r' → ¬ is_sign c) →
  split_sign (sign +:+ r) = (bool_decide (sign = "-"), r).
Proof.
  unfold is_sign. intros [-> | [-> | ->]] Hr; [|done|done].
  destruct r as [|c r]; [done|]. specialize (Hr c r eq_refl).
  cbn [String.append]. rewrite split_sign_cons. rewrite !decide_False by tauto. done.
Qed.

Lemma split_sign_spec s neg r :
  split_sign s = (neg, r) → ∃ sign, sign_text sign ∧ s = sign +:+ r ∧ neg = bool_decide (sign = "-").
Proof.
  unfold sign_text. destruct s as [|c s]; [intros [= <- <-]; exists ""; auto|].
  rewrite split_sign_cons. intros H.
  repeat case_decide; simplify_eq; [exists "-" | exists "+" | exists ""]; auto.
Qed.

Lemma digits_not_sign ds c r : all_digits ds = true → ds = String c r → ¬ is_sign c.
Proof. unfold all_digits, is_sign. intros H ->. cbn in H. by intros [-> | ->]. Qed.

(** [strconv.ParseInt] of at most 18 digits fits 64 bits. *)
Lemma ParseInt10_inv bits s v :
  1 ≤ bits → ParseInt10 bits s = inr v →
  ∃ sign ds, sign_text sign ∧ s = sign +:+ ds ∧ all_digits ds = true ∧ ds ≠ "" ∧
    v = (if decide (sign = "-") then - dec_value ds else dec_value ds) ∧ - 2 ^ (bits - 1) ≤ v < 2 ^ (bits - 1).
Proof.
  intros Hbits. unfold ParseInt10. destruct (split_sign s) as [neg r] eqn:E. apply split_sign_spec in E as (sign & Hs & -> & ->).
  unfold ParseUint10. destruct (String.eqb_spec r ""); [done|].
  destruct (parse_uint_digits _ 0 r) as [|u] eqn:Hu; [done|]. apply parse_uint_digits_inv in Hu as [Hd ->].
  change (dec_value_acc 0 r) with (dec_value r). pose proof (dec_value_bounds r Hd) as Hb. intros H. exists sign, r.
  pose proof (Z.pow_pos_nonneg 2 (bits - 1) ltac:(lia) ltac:(lia)).
  rewrite bool_decide_decide in H. destruct (decide (sign = "-")); cbn [negb andb] in H; case_match; simplify_eq;
    repeat (split; [done|]); lia.
Qed.

Lemma ParseInt10_ok bits sign ds :
  sign_text sign → all_digits ds = true → ds ≠ "" → 1 ≤ bits → dec_value ds < 2 ^ (bits - 1) →
  ParseInt10 bits (sign +:+ ds) = inr (if decide (sign = "-") then - dec_value ds else dec_value ds).
Proof.
  intros Hs Hd Hne Hb Hv. unfold ParseInt10.
  rewrite split_sign_app by (done || (intros c r' Hr; by apply (digits_not_sign ds c r'))).
  unfold ParseUint10. destruct (String.eqb_spec ds ""); [done|].
  pose proof (dec_value_bounds ds Hd).
  assert (2 ^ (bits - 1) ≤ 2 ^ bits - 1).
  { replace bits with (Z.succ (bits - 1)) at 2 by lia. rewrite Z.pow_succ_r by lia.
    pose proof (Z.pow_pos_nonneg 2 (bits - 1)). lia. }
  rewrite parse_uint_digits_ok by (done || (change (dec_value_acc 0 ds) with (dec_value ds); lia)).
  change (dec_value_acc 0 ds) with (dec_value ds). rewrite bool_decide_decide.
  destruct (decide (sign = "-")); cbn [negb andb].
  - destruct (Z.ltb_spec (2 ^ (bits - 1)) (dec_value ds)); [lia|done].
  - destruct (Z.leb_spec (2 ^ (bits - 1)) (dec_value ds)); [lia|done].
Qed.
