(* ===== verification/EncodeNumeric.v ===== *)
(** Numerics: [src/query/write_encode_numeric.go].

    Postgres' binary form of a numeric is four 16-bit words (the number of digits,
    the weight of the first one, the sign, the display scale) and then the digits,
    base 10000. *)
From Stdlib Require Import ZArith Lia Ascii Strings.Byte.
From S2P Require Import Prelude Cbor CborNode Text EncodeBase.
Set Warnings "-register-all".

Definition numericPos : Z := 0.
Definition numericNeg : Z := 16384.     (* 0x4000 *)
Definition numericNaN : Z := 49152.     (* 0xC000 *)
Definition numericPosInf : Z := 53248.  (* 0xD000 *)
Definition numericNegInf : Z := 61440.  (* 0xF000 *)
Definition numericMaxDscale : Z := 16383.

Definition numericSpecial (s : string) : option Z :=
  let l := ToLower s in
  if String.eqb l "nan" then Some numericNaN
  else if bool_decide (l ∈ ["infinity"; "+infinity"; "inf"; "+inf"]) then Some numericPosInf
  else if bool_decide (l ∈ ["-infinity"; "-inf"]) then Some numericNegInf
  else None.

(** ** The text

    The digits before the point, those after it, and what follows. *)
Definition scan_mantissa (s : string) : string * string * string :=
  let '(intPart, r) := span_digits s in
  match r with
  | String "."%char r => let '(fracPart, r) := span_digits r in (intPart, fracPart, r)
  | _ => (intPart, "", r)
  end.

Definition has_sign_char (s : string) : bool :=
  negb (string_forallb (λ c, negb (Ascii.eqb c "+" || Ascii.eqb c "-")) s).

(** The exponent, [None] where it is bad or something follows. *)
Definition scan_exponent (r : string) : outcome Z :=
  match r with
  | EmptyString => Ok 0
  | String c e =>
      if Ascii.eqb c "e" || Ascii.eqb c "E" then
        if String.eqb e "" || (10 <? String.length e)%nat then errBadValue "numeric"
        else
          match ParseInt10 64 e with
          | inl _ => errBadValue "numeric"
          | inr v => if has_sign_char (str_drop 1 e) then errBadValue "numeric" else Ok v
          end
      else errBadValue "numeric"
  end.

(** [strings.TrimRight(s, "0")] *)
Fixpoint trim_right_zeros (s : string) : string :=
  match s with
  | EmptyString => EmptyString
  | String c s =>
      match trim_right_zeros s with
      | EmptyString => if Ascii.eqb c "0" then "" else String c ""
      | t => String c t
      end
  end.
(** The digits without the zeros they start with, and how many those are. *)
Fixpoint strip_lead (s : string) : string :=
  match s with
  | String "0"%char s => strip_lead s
  | _ => s
  end.

(** Digit [k] of the digits padded with [lpad] zeros before and zeros after. *)
Definition padded_digit (lpad : Z) (digits : string) (k : Z) : Z :=
  let k := k - lpad in
  if k <? 0 then 0
  else match String.get (Z.to_nat k) digits with Some c => digit_val c | None => 0 end.

Definition group_digit (lpad : Z) (digits : string) (g : nat) : Z :=
  let at_ k := padded_digit lpad digits k in
  let k := Z.of_nat g * 4 in
  at_ k * 1000 + at_ (k + 1) * 100 + at_ (k + 2) * 10 + at_ (k + 3).

Definition append_header (dst : bytes) (ngroups weight sign dscale : Z) : bytes :=
  appendInt16 (binaryAppendUint16 (appendInt16 (appendInt16 dst ngroups) weight) sign) dscale.

(** The digits aligned on groups of four around the point. *)
Definition append_groups (dst : bytes) (neg : bool) (digits : string) (pointPos dscale : Z) : outcome bytes :=
  let lpad := Z.rem (Z.rem (- pointPos) 4 + 4) 4 in
  let weight := Z.quot (pointPos + lpad) 4 - 1 in
  let total := lpad + Z.of_nat (String.length digits) in
  let ngroups := Z.quot (total + 3) 4 in
  if (32767 <? ngroups) || (32767 <? weight) || (weight <? -32768) then errOutOfRange "numeric"
  else
    let dst := append_header dst ngroups weight (if neg then numericNeg else numericPos) dscale in
    Ok (foldl (λ dst g, appendInt16 dst (group_digit lpad digits g)) dst (seq 0 (Z.to_nat ngroups))).

Definition appendNumeric (dst : bytes) (text : string) : outcome bytes :=
  match numericSpecial text with
  | Some sign => Ok (append_header dst 0 0 sign 0)
  | None =>
      let '(neg, s) := split_sign text in
      let '(intPart, fracPart, r) := scan_mantissa s in
      if String.eqb intPart "" && String.eqb fracPart "" then errBadValue "numeric"
      else
        exp ← scan_exponent r;
        let digits := intPart +:+ fracPart in
        let pointPos := Z.of_nat (String.length intPart) + exp in
        let dscale := Z.max 0 (Z.of_nat (String.length fracPart) - exp) in
        if numericMaxDscale <? dscale then errOutOfRange "numeric"
        else
          let stripped := strip_lead digits in
          let lead := Z.of_nat (String.length digits) - Z.of_nat (String.length stripped) in
          let digits := trim_right_zeros stripped in
          if String.eqb digits "" then Ok (append_header dst 0 0 numericPos dscale)
          else append_groups dst neg digits (pointPos - lead) dscale
  end.

Example appendNumeric_ex1 : (map bz <$> appendNumeric [] "-1.50") =
  Ok [0; 2; 0; 0; 64; 0; 0; 2; 0; 1; 19; 136].
Proof. vm_compute. reflexivity. Qed.
Example appendNumeric_ex2 : (map bz <$> appendNumeric [] "12e3") = Ok [0; 2; 0; 1; 0; 0; 0; 0; 0; 1; 7; 208].
Proof. vm_compute. reflexivity. Qed.
Example appendNumeric_ex3 : map (appendNumeric []) ["1e"; "1e+-5"; "."; "12 "; "1e--5"] =
  repeat (errBadValue "numeric") 5.
Proof. vm_compute. reflexivity. Qed.
