(* ===== verification/EncodeNumericFacts.v ===== *)
(** What a numeric's binary form means, and that [appendNumeric] writes exactly
    the number its text denotes. *)
From Stdlib Require Import ZArith Lia Ascii Strings.Byte.
From S2P Require Import Prelude Cbor CborNode Text EncodeBase EncodeNumeric.
Set Warnings "-register-all".

(** * Reading the binary form, as Postgres documents it *)

Record numeric := MkNumeric { nu_weight : Z; nu_sign : Z; nu_dscale : Z; nu_digits : list Z }.

Fixpoint words16 (l : bytes) : option (list Z) :=
  match l with
  | [] => Some []
  | a :: b :: l => ws ← words16 l; Some (bz a * 256 + bz b :: ws)
  | _ => None
  end.

Definition signed16 (w : Z) : Z := if w <? 32768 then w else w - 65536.

Definition read_numeric (l : bytes) : option numeric :=
  ws ← words16 l;
  match ws with
  | n :: w :: s :: d :: gs => if decide (Z.of_nat (length gs) = n) then Some (MkNumeric (signed16 w) s d gs) else None
  | _ => None
  end.

(** The number is [base_value digits * 10000 ^ (weight - length digits + 1)]. *)
Definition base_value (gs : list Z) : Z := foldl (λ a g, a * 10000 + g) 0 gs.
Definition base_exponent (n : numeric) : Z := nu_weight n - Z.of_nat (length (nu_digits n)) + 1.

(** Every digit in its range, none of the two ends zero. *)
Definition canonical_digits (gs : list Z) : Prop :=
  Forall (λ g, 0 ≤ g < 10000) gs ∧ (∀ g, gs !! 0%nat = Some g → g ≠ 0) ∧ (∀ g, last gs = Some g → g ≠ 0).

(** [m * 10 ^ e = v * 10 ^ x], whatever the signs of the exponents. *)
Definition same_number (m e v x : Z) : Prop := m * 10 ^ Z.max 0 (e - x) = v * 10 ^ Z.max 0 (x - e).

(** * The texts of numbers *)

Inductive exponent_text : string → Z → Prop :=
  | no_exponent : exponent_text "" 0
  | some_exponent c sign ds : c = "e"%char ∨ c = "E"%char → sign_text sign →
      all_digits ds = true → ds ≠ "" → (String.length (sign +:+ ds) ≤ 10)%nat →
      exponent_text (String c (sign +:+ ds)) (if decide (sign = "-") then - dec_value ds else dec_value ds).

Inductive numeric_text : string → bool → string → string → Z → Prop :=
  | numeric_text_intro sign int point frac ex exp : sign_text sign →
      all_digits int = true → all_digits frac = true → int +:+ frac ≠ "" →
      point = "." ∨ (point = "" ∧ frac = "") → exponent_text ex exp →
      numeric_text (sign +:+ int +:+ point +:+ frac +:+ ex) (bool_decide (sign = "-")) int frac exp.

(** * Scanning *)

Lemma span_digits_spec s ds r :
  span_digits s = (ds, r) → s = ds +:+ r ∧ all_digits ds = true ∧ (∀ c r', r = String c r' → is_digit c = false).
Proof.
  revert ds r. induction s as [|c s IH]; intros ds r; cbn [span_digits].
  - intros [= <- <-]. done.
  - destruct (is_digit c) eqn:Hc.
    + destruct (span_digits s) as [a b] eqn:E. intros [= <- <-].
      destruct (IH a b eq_refl) as (-> & Ha & Hb). unfold all_digits in *. cbn. by rewrite Hc, Ha.
    + intros [= <- <-]. split; [done|]. split; [done|]. by intros c' r' [= <- <-].
Qed.

Lemma span_digits_app ds r :
  all_digits ds = true → (∀ c r', r = String c r' → is_digit c = false) → span_digits (ds +:+ r) = (ds, r).
Proof.
  intros Hds Hr. induction ds as [|c ds IH]; cbn.
  - destruct r as [|c r]; cbn; [done|]. by rewrite (Hr c r eq_refl).
  - unfold all_digits in *. cbn in Hds. apply andb_true_iff in Hds as [Hc Hds].
    by rewrite Hc, IH.
Qed.

Lemma after_point {A} (r : string) (f : string → A) (d : A) :
  match r with String "."%char r => f r | _ => d end =
  match r with String c r' => if decide (c = "."%char) then f r' else d | EmptyString => d end.
Proof. destruct r as [|[[] [] [] [] [] [] [] []] r]; reflexivity. Qed.

(** A text that does not go on with a digit. *)
Definition no_digit_next (r : string) : Prop := ∀ c r', r = String c r' → is_digit c = false.
Definition no_point_next (r : string) : Prop := ∀ c r', r = String c r' → c ≠ "."%char.

Lemma scan_mantissa_spec s int frac r :
  scan_mantissa s = (int, frac, r) →
  ∃ point, s = int +:+ point +:+ frac +:+ r ∧ all_digits int = true ∧ all_digits frac = true ∧
    (point = "." ∨ point = "" ∧ frac = "").
Proof.
  unfold scan_mantissa. destruct (span_digits s) as [i r1] eqn:E1. apply span_digits_spec in E1 as (-> & Hi & _).
  rewrite after_point. destruct r1 as [|c r1]; [intros [= <- <- <-]; exists ""; repeat split; auto|]. cbv iota beta.
  case_decide; [subst|intros [= <- <- <-]; exists ""; repeat split; auto].
  destruct (span_digits r1) as [f r2] eqn:E2. apply span_digits_spec in E2 as (-> & Hf & _).
  intros [= <- <- <-]. exists ".". auto.
Qed.

Lemma scan_mantissa_app int point frac r :
  all_digits int = true → all_digits frac = true → point = "." ∨ point = "" ∧ frac = "" →
  no_digit_next r → no_point_next r →
  scan_mantissa (int +:+ point +:+ frac +:+ r) = (int, frac, r).
Proof.
  intros Hi Hf Hp Hr Hn. unfold scan_mantissa.
  destruct Hp as [-> | [-> ->]]; cbn [String.append].
  - rewrite span_digits_app by (done || by intros c r' [= <- <-]).
    cbv beta iota. by rewrite span_digits_app by done.
  - rewrite span_digits_app by done. cbv beta iota. rewrite after_point.
    destruct r as [|c r]; [done|]. cbv iota beta. by rewrite decide_False by exact (Hn c r eq_refl).
Qed.

Lemma digits_no_sign_char ds : all_digits ds = true → has_sign_char ds = false.
Proof.
  unfold has_sign_char, all_digits. intros H. apply negb_false_iff.
  induction ds as [|c ds IH]; [done|]. cbn in *. apply andb_true_iff in H as [Hc Hd]. rewrite IH by done.
  rewrite andb_true_r. apply negb_true_iff, orb_false_iff.
  split; apply Ascii.eqb_neq; by intros ->.
Qed.

Lemma scan_exponent_spec r exp : scan_exponent r = Ok exp → exponent_text r exp.
Proof.
  destruct r as [|c e]; cbn [scan_exponent]; [intros [= <-]; constructor|].
  destruct (Ascii.eqb c "e" || Ascii.eqb c "E") eqn:Hc; [|done].
  destruct (String.eqb_spec e ""); [done|]. cbn [orb].
  destruct (Nat.ltb_spec 10 (String.length e)); [done|].
  destruct (ParseInt10 64 e) as [|v] eqn:E; [done|]. apply ParseInt10_inv in E as (sign & ds & Hs & -> & Hd & Hne & -> & _); [|done].
  destruct (has_sign_char _); [done|]. intros [= <-]. constructor; [|done..].
  apply orb_true_iff in Hc as [->%Ascii.eqb_eq | ->%Ascii.eqb_eq]; auto.
Qed.

Lemma scan_exponent_ok r exp : exponent_text r exp → scan_exponent r = Ok exp.
Proof.
  destruct 1 as [|c sign ds Hc Hs Hd Hne Hlen]; [done|]. cbn [scan_exponent].
  assert (Ascii.eqb c "e" || Ascii.eqb c "E" = true) as -> by (destruct Hc as [-> | ->]; done).
  assert (sign +:+ ds ≠ "") as Hne' by (destruct ds; [done|]; destruct Hs as [-> | [-> | ->]]; done).
  destruct (String.eqb_spec (sign +:+ ds) ""); [done|]. cbn [orb].
  destruct (Nat.ltb_spec 10 (String.length (sign +:+ ds))); [lia|].
  pose proof (dec_value_bounds ds Hd) as Hv.
  assert (10 ^ Z.of_nat (String.length ds) ≤ 10 ^ 10).
  { apply Z.pow_le_mono_r; [lia|]. rewrite length_append in Hlen. lia. }
  rewrite ParseInt10_ok by (done || lia).
  assert (has_sign_char (str_drop 1 (sign +:+ ds)) = false) as ->; [|done].
  apply digits_no_sign_char. destruct Hs as [-> | [-> | ->]]; cbn; [|by destruct ds..].
  destruct ds; [done|]. cbn in *. unfold all_digits in *. cbn in Hd. apply andb_true_iff in Hd as [_ Hd]. by destruct ds.
Qed.

Lemma exponent_next r exp : exponent_text r exp → no_digit_next r ∧ no_point_next r.
Proof.
  destruct 1 as [|c sign ds Hc]; [done|].
  split; intros c' r' [= <- <-]; destruct Hc as [-> | ->]; done.
Qed.

(** * Alignment *)

Lemma get_digit s i c : all_digits s = true → String.get i s = Some c → is_digit c = true.
Proof.
  unfold all_digits. revert i. induction s as [|x s IH]; intros i; cbn; [done|].
  intros [Hx Hs]%andb_true_iff. destruct i; [by intros [= <-]|by apply IH].
Qed.

Lemma take_snoc s i c acc :
  String.get i s = Some c → dec_value_acc acc (str_take (S i) s) = dec_value_acc acc (str_take i s) * 10 + digit_val c.
Proof.
  revert i acc. induction s as [|x s IH]; intros i acc; [done|].
  destruct i as [|i]; cbn [String.get str_take dec_value_acc]; [by intros [= ->]; destruct s|]. apply IH.
Qed.

Lemma take_all s : str_take (String.length s) s = s.
Proof. induction s as [|c s IH]; cbn; [done|]. by rewrite IH. Qed.

Lemma get_past s i : (String.length s ≤ i)%nat → String.get i s = None.
Proof. revert i. induction s as [|c s IH]; intros i; [done|]. cbn. destruct i; [lia|]. intros. apply IH. lia. Qed.

Lemma get_some s i : (i < String.length s)%nat → ∃ c, String.get i s = Some c.
Proof. revert i. induction s as [|c s IH]; intros i; cbn; [lia|]. destruct i; [eauto|]. intros. apply IH. lia. Qed.

#[local] Set Default Proof Using "Type*".
Section alignment.
Context (lpad : nat) (ds : string) (Hds : all_digits ds = true).

Fixpoint padded_value (m : nat) : Z :=
  match m with
  | O => 0
  | S m => padded_value m * 10 + padded_digit (Z.of_nat lpad) ds (Z.of_nat m)
  end.

Lemma padded_digit_range k : 0 ≤ padded_digit (Z.of_nat lpad) ds k < 10.
Proof using All.
  unfold padded_digit. destruct (_ <? 0); [lia|].
  destruct (String.get _ ds) as [c|] eqn:E; [|lia]. apply is_digit_range. by eapply get_digit.
Qed.

Lemma padded_value_lead m : (m ≤ lpad)%nat → padded_value m = 0.
Proof using All.
  induction m as [|m IH]; intros H; [done|]. cbn [padded_value]. rewrite IH by lia.
  unfold padded_digit. by rewrite (proj2 (Z.ltb_lt _ 0)) by lia.
Qed.

Lemma padded_digit_at j : padded_digit (Z.of_nat lpad) ds (Z.of_nat (lpad + j)) =
  match String.get j ds with Some c => digit_val c | None => 0 end.
Proof using All.
  unfold padded_digit. rewrite (proj2 (Z.ltb_ge _ 0)) by lia.
  by replace (Z.to_nat (Z.of_nat (lpad + j) - Z.of_nat lpad)) with j by lia.
Qed.

Lemma padded_value_digits j : (j ≤ String.length ds)%nat → padded_value (lpad + j) = dec_value (str_take j ds).
Proof using All.
  induction j as [|j IH]; intros H.
  - rewrite Nat.add_0_r, padded_value_lead by lia. by destruct ds.
  - rewrite <-plus_n_Sm. cbn [padded_value]. rewrite IH, padded_digit_at by lia.
    destruct (get_some ds j) as [c E]; [lia|]. rewrite E.
    unfold dec_value. by rewrite (take_snoc ds j c).
Qed.

Lemma padded_value_all t : padded_value (lpad + (String.length ds + t)) = dec_value ds * 10 ^ Z.of_nat t.
Proof using All.
  induction t as [|t IH].
  - rewrite Nat.add_0_r, padded_value_digits by lia. rewrite take_all. lia.
  - rewrite <-!plus_n_Sm. cbn [padded_value]. rewrite IH, padded_digit_at, get_past by lia.
    rewrite Nat2Z.inj_succ, Z.pow_succ_r by lia. ring.
Qed.

Lemma base_value_groups n :
  base_value (map (group_digit (Z.of_nat lpad) ds) (seq 0 n)) = padded_value (4 * n).
Proof using All.
  unfold base_value. induction n as [|n IH]; [done|].
  rewrite seq_S, map_app, foldl_app, IH. cbn [map foldl plus]. unfold group_digit.
  replace (4 * S n)%nat with (S (S (S (S (4 * n))))) by lia. cbn [padded_value].
  replace (Z.of_nat n * 4) with (Z.of_nat (4 * n)) by lia.
  replace (Z.of_nat (4 * n) + 1) with (Z.of_nat (S (4 * n))) by lia.
  replace (Z.of_nat (4 * n) + 2) with (Z.of_nat (S (S (4 * n)))) by lia.
  replace (Z.of_nat (4 * n) + 3) with (Z.of_nat (S (S (S (4 * n))))) by lia. ring.
Qed.

Lemma group_digit_range g : 0 ≤ group_digit (Z.of_nat lpad) ds g < 10000.
Proof using All.
  unfold group_digit.
  pose proof (padded_digit_range (Z.of_nat g * 4)). pose proof (padded_digit_range (Z.of_nat g * 4 + 1)).
  pose proof (padded_digit_range (Z.of_nat g * 4 + 2)). pose proof (padded_digit_range (Z.of_nat g * 4 + 3)). lia.
Qed.

(** A group that holds a digit other than zero is not zero. *)
Lemma group_digit_nonzero g j c :
  String.get j ds = Some c → digit_val c ≠ 0 → (4 * g ≤ lpad + j < 4 * g + 4)%nat → group_digit (Z.of_nat lpad) ds g ≠ 0.
Proof using All.
  intros Hj Hc Hg. unfold group_digit. pose proof (padded_digit_at j) as Hp. rewrite Hj in Hp.
  pose proof (padded_digit_range (Z.of_nat g * 4)). pose proof (padded_digit_range (Z.of_nat g * 4 + 1)).
  pose proof (padded_digit_range (Z.of_nat g * 4 + 2)). pose proof (padded_digit_range (Z.of_nat g * 4 + 3)).
  assert (Z.of_nat (lpad + j) = Z.of_nat g * 4 ∨ Z.of_nat (lpad + j) = Z.of_nat g * 4 + 1 ∨
    Z.of_nat (lpad + j) = Z.of_nat g * 4 + 2 ∨ Z.of_nat (lpad + j) = Z.of_nat g * 4 + 3) as H' by lia.
  destruct H' as [E | [E | [E | E]]]; rewrite E in Hp; lia.
Qed.
End alignment.

(** * The words *)

Definition words_bytes (ws : list Z) : bytes := concat (map (be_bytes 2) ws).

Lemma words16_bytes ws : words16 (words_bytes ws) = Some (map (λ w, w `mod` 65536) ws).
Proof.
  unfold words_bytes. induction ws as [|w ws IH]; [done|]. cbn [map concat].
  change (be_bytes 2 w) with [zb (w ≫ 8); zb (w ≫ 0)]. cbn [app words16].
  rewrite IH, !bz_zb, Z.shiftr_0_r, Z.shiftr_div_pow2 by lia. cbn -[Z.div Z.modulo Z.mul].
  do 2 f_equal. change (2 ^ 8) with 256. replace 65536 with (256 * 256) by done.
  rewrite Z.rem_mul_r by lia. ring.
Qed.

Lemma append_header_words dst n w s d : append_header dst n w s d = dst ++ words_bytes [n; w; s; d].
Proof.
  unfold append_header, appendInt16, binaryAppendUint16, words_bytes. cbn [map concat].
  by rewrite <-!(assoc_L (++)), app_nil_r.
Qed.

Lemma append_words dst (f : nat → Z) l :
  foldl (λ dst g, appendInt16 dst (f g)) dst l = dst ++ words_bytes (map f l).
Proof.
  unfold words_bytes, appendInt16. revert dst. induction l as [|g l IH]; intros dst; cbn [foldl map concat].
  - by rewrite app_nil_r.
  - by rewrite IH, (assoc_L (++)).
Qed.

Lemma signed16_mod w : -32768 ≤ w < 32768 → signed16 (w `mod` 65536) = w.
Proof.
  intros H. unfold signed16. destruct (Z.ltb_spec w 0).
  - rewrite <-(Z_mod_plus_full w 1), Z.mod_small by lia. destruct (Z.ltb_spec (w + 1 * 65536) 32768); lia.
  - rewrite Z.mod_small by lia. destruct (Z.ltb_spec w 32768); lia.
Qed.

Definition word_range (w : Z) : Prop := 0 ≤ w < 65536.

Lemma read_numeric_words w s d gs :
  Z.of_nat (length gs) < 65536 → -32768 ≤ w < 32768 → word_range s → word_range d → Forall word_range gs →
  read_numeric (words_bytes [Z.of_nat (length gs); w; s; d] ++ words_bytes gs) = Some (MkNumeric w s d gs).
Proof.
  unfold word_range. intros Hn Hw Hs Hd Hg. unfold read_numeric.
  replace (words_bytes _ ++ words_bytes gs) with (words_bytes (Z.of_nat (length gs) :: w :: s :: d :: gs))
    by (unfold words_bytes; cbn [map concat]; by rewrite !app_nil_r, <-!(assoc_L (++))).
  rewrite words16_bytes. cbn [map mbind option_bind]. rewrite length_map, (Z.mod_small (Z.of_nat _)), (Z.mod_small s), (Z.mod_small d) by lia.
  rewrite decide_True, signed16_mod by done.
  assert (map (λ w, w `mod` 65536) gs = gs) as ->; [|done]. clear Hn.
  induction Hg as [|g gs Hg' Hgs IH]; [reflexivity|]. cbn [map]. by rewrite Z.mod_small, IH.
Qed.

(** * Zeros at the ends *)

Lemma strip_lead_cons c s : strip_lead (String c s) = if decide (c = "0"%char) then strip_lead s else String c s.
Proof. destruct c as [[] [] [] [] [] [] [] []]; reflexivity. Qed.

Lemma strip_lead_spec s :
  ∃ n, s = zeros n +:+ strip_lead s ∧ (∀ c, String.get 0 (strip_lead s) = Some c → c ≠ "0"%char).
Proof.
  induction s as [|c s (n & IH & Hc)]; [by exists 0%nat|]. rewrite strip_lead_cons. case_decide.
  - subst. exists (S n). cbn [zeros String.append]. by rewrite <-IH.
  - exists 0%nat. split; [done|]. by intros c' [= <-].
Qed.

Lemma trim_right_zeros_spec s :
  ∃ n, s = trim_right_zeros s +:+ zeros n ∧
    (∀ c, String.get (String.length (trim_right_zeros s) - 1) (trim_right_zeros s) = Some c → c ≠ "0"%char).
Proof.
  induction s as [|c s (n & IH & Hc)]; [by exists 0%nat|]. cbn [trim_right_zeros].
  destruct (trim_right_zeros s) as [|x t] eqn:E.
  - cbn in IH. destruct (Ascii.eqb_spec c "0").
    + subst. by exists (S n).
    + exists n. cbn. rewrite <-IH. split; [done|]. by intros c' [= <-].
  - exists n. split; [cbn; by f_equal|]. intros c' H. apply Hc.
    cbn in H |- *. by rewrite Nat.sub_0_r.
Qed.

Lemma trim_keeps_head s c t : trim_right_zeros s = String c t → String.get 0 s = Some c.
Proof.
  destruct s as [|x s]; [done|]. cbn [trim_right_zeros].
  destruct (trim_right_zeros s); [destruct (Ascii.eqb x "0")|]; by intros [= <- _].
Qed.

Lemma digit_nonzero c : is_digit c = true → c ≠ "0"%char → digit_val c ≠ 0.
Proof.
  intros H Hc H0. apply Hc. unfold digit_val, char_code in H0.
  rewrite <-(ascii_nat_embedding c). by replace (nat_of_ascii c) with 48%nat by lia.
Qed.

Lemma all_digits_append a b : all_digits (a +:+ b) = all_digits a && all_digits b.
Proof. unfold all_digits. induction a as [|c a IH]; cbn; [done|]. by rewrite IH, andb_assoc. Qed.

Lemma length_zeros n : String.length (zeros n) = n.
Proof. induction n; cbn; congruence. Qed.
Lemma dec_value_zeros n : dec_value (zeros n) = 0.
Proof. induction n as [|n IH]; [done|]. cbn [zeros]. rewrite dec_value_cons, IH. change (digit_val "0") with 0. lia. Qed.

(** * Correctness *)

(** The padding aligns the point on a group. *)
Lemma lpad_aligns p :
  let lpad := Z.rem (Z.rem (- p) 4 + 4) 4 in
  0 ≤ lpad < 4 ∧ (p + lpad) `mod` 4 = 0 ∧ 4 * Z.quot (p + lpad) 4 = p + lpad.
Proof. cbv zeta. Z.to_euclidean_division_equations. lia. Qed.

(** What is written of digits that start and end with one other than zero. *)
Lemma append_groups_exact dst neg ds p dscale out :
  all_digits ds = true → ds ≠ "" →
  (∀ c, String.get 0 ds = Some c → c ≠ "0"%char) →
  (∀ c, String.get (String.length ds - 1) ds = Some c → c ≠ "0"%char) →
  0 ≤ dscale ≤ numericMaxDscale →
  append_groups dst neg ds p dscale = Ok out →
  ∃ n v, out = dst ++ n ∧ read_numeric n = Some v ∧ nu_dscale v = dscale ∧
    nu_sign v = (if neg then numericNeg else numericPos) ∧ canonical_digits (nu_digits v) ∧ nu_digits v ≠ [] ∧
    ∃ rpad : nat, base_value (nu_digits v) = dec_value ds * 10 ^ Z.of_nat rpad ∧
      4 * base_exponent v + Z.of_nat rpad = p - Z.of_nat (String.length ds).
Proof.
  intros Hd Hne Hfirst Hlast Hscale. unfold append_groups.
  destruct (lpad_aligns p) as (Hl & _ & Hq). revert Hl Hq.
  generalize (Z.rem (Z.rem (- p) 4 + 4) 4). intros lp Hl Hq.
  destruct (_ || _) eqn:Hrange; [done|]. intros [= <-].
  apply orb_false_iff in Hrange as [Hrange Hw2]. apply orb_false_iff in Hrange as [Hn Hw1].
  set (lpad := Z.to_nat lp). replace lp with (Z.of_nat lpad) in * by (unfold lpad; lia).
  set (len := String.length ds) in *.
  assert (0 < len)%nat as Hlen by (unfold len; destruct ds; cbn; [done|lia]).
  set (n := Z.to_nat (Z.quot (Z.of_nat lpad + Z.of_nat len + 3) 4)).
  assert (Z.of_nat n = Z.quot (Z.of_nat lpad + Z.of_nat len + 3) 4) as En
    by (unfold n; Z.to_euclidean_division_equations; lia).
  assert (lpad + len ≤ 4 * n < lpad + len + 4)%nat as Hn4 by (Z.to_euclidean_division_equations; lia).
  clearbody n. rewrite <-En in Hn |- *. rewrite append_words, append_header_words, <-(assoc_L (++)).
  set (gs := map (group_digit (Z.of_nat lpad) ds) (seq 0 n)).
  assert (length gs = n) as Lgs by (unfold gs; by rewrite length_map, length_seq).
  assert (Forall (λ g, 0 ≤ g < 10000) gs) as Hgs.
  { unfold gs. apply Forall_map, Forall_forall. intros g _. by apply group_digit_range. }
  replace (Z.of_nat n) with (Z.of_nat (length gs)) by by rewrite Lgs.
  eexists _, (MkNumeric _ _ _ gs). split; [done|]. split.
  { apply read_numeric_words; rewrite ?Lgs; unfold word_range, numericMaxDscale, numericNeg, numericPos in *;
      [lia|lia|destruct neg; lia|lia|]. eapply Forall_impl; [exact Hgs|]. cbn. lia. }
  cbn [nu_dscale nu_sign nu_digits]. split; [done|]. split; [done|].
  assert (∀ c i, String.get i ds = Some c → c ≠ "0"%char → digit_val c ≠ 0) as Hnz.
  { intros c i Hc Hc0. apply digit_nonzero; [by eapply get_digit|done]. }
  split; [split; [done|]; split|].
  - intros g Hg. destruct n as [|n']; [lia|]. injection Hg as <-. destruct (get_some ds 0) as [c Hc]; [done|].
    apply (group_digit_nonzero lpad ds Hd _ 0 c); eauto. lia.
  - intros g Hg. destruct n as [|n']; [lia|]. unfold gs in Hg. rewrite seq_S, map_app in Hg. cbn [map] in Hg.
    rewrite last_snoc in Hg. injection Hg as <-.
    destruct (get_some ds (len - 1)) as [c Hc]; [unfold len in *; lia|].
    apply (group_digit_nonzero lpad ds Hd _ (len - 1) c); eauto. lia.
  - split; [intros ->; cbn in Lgs; lia|].
    exists (4 * n - lpad - len)%nat. unfold gs. rewrite base_value_groups by done.
    replace (4 * n)%nat with (lpad + (String.length ds + (4 * n - lpad - len)))%nat at 1 by (unfold len in *; lia).
    rewrite padded_value_all by done. split; [done|].
    unfold base_exponent. cbn [nu_weight nu_digits]. fold gs. rewrite Lgs. lia.
Qed.

Lemma dec_value_pos ds : all_digits ds = true → (∃ c, String.get 0 ds = Some c ∧ c ≠ "0"%char) → 0 < dec_value ds.
Proof.
  destruct ds as [|c ds]; [by intros _ (? & [=] & _)|]. unfold all_digits. cbn [string_forallb String.get].
  intros [Hc Hd]%andb_true_iff (c' & [= <-] & Hn). rewrite dec_value_cons.
  pose proof (is_digit_range c Hc). pose proof (digit_nonzero c Hc Hn). pose proof (dec_value_bounds ds Hd).
  pose proof (Z.pow_pos_nonneg 10 (Z.of_nat (String.length ds)) ltac:(lia) ltac:(lia)). nia.
Qed.

(** The digits between the zeros, and how the value and the length divide. *)
Lemma strip_both s :
  all_digits s = true →
  let t := trim_right_zeros (strip_lead s) in
  ∃ tail : nat, all_digits t = true ∧ dec_value s = dec_value t * 10 ^ Z.of_nat tail ∧
    String.length (strip_lead s) = (String.length t + tail)%nat ∧ (String.length (strip_lead s) ≤ String.length s)%nat ∧
    (∀ c, String.get 0 t = Some c → c ≠ "0"%char) ∧ (∀ c, String.get (String.length t - 1) t = Some c → c ≠ "0"%char).
Proof.
  cbv zeta. intros Hd. destruct (strip_lead_spec s) as (n & Hs & Hfirst).
  destruct (trim_right_zeros_spec (strip_lead s)) as (m & Ht & Hlast). exists m.
  set (u := strip_lead s) in *. set (t := trim_right_zeros u) in *.
  assert (all_digits t = true) as Hdt.
  { rewrite Hs, all_digits_append, Ht, all_digits_append in Hd.
    apply andb_true_iff in Hd as [_ [Hd _]%andb_true_iff]. done. }
  split; [done|]. split.
  { rewrite Hs, dec_value_app, dec_value_zeros, Ht, dec_value_app, dec_value_zeros, length_zeros. lia. }
  split; [by rewrite Ht at 1; rewrite length_append, length_zeros|].
  split; [rewrite Hs at 1; rewrite length_append, length_zeros; lia|]. split; [|done].
  intros c Hc. apply Hfirst. unfold t in Hc. destruct (trim_right_zeros u) as [|x y] eqn:E; [done|].
  injection Hc as <-. by apply (trim_keeps_head u x y).
Qed.

Lemma same_number_shift d a b e x : a + e = b + x → 0 ≤ a → 0 ≤ b → same_number (d * 10 ^ a) e (d * 10 ^ b) x.
Proof.
  intros H Ha Hb. unfold same_number. rewrite <-!Z.mul_assoc, <-!Z.pow_add_r by lia. do 2 f_equal. lia.
Qed.

(** The parts of a call that succeeded on a number. *)
Lemma appendNumeric_parts dst text out :
  numericSpecial text = None → appendNumeric dst text = Ok out →
  ∃ neg int frac exp, numeric_text text neg int frac exp ∧
    let dscale := Z.max 0 (Z.of_nat (String.length frac) - exp) in
    let digits := int +:+ frac in
    let t := trim_right_zeros (strip_lead digits) in
    dscale ≤ numericMaxDscale ∧
    (if decide (t = "") then out = append_header dst 0 0 numericPos dscale
     else append_groups dst neg t (Z.of_nat (String.length int) + exp -
       (Z.of_nat (String.length digits) - Z.of_nat (String.length (strip_lead digits)))) dscale = Ok out).
Proof.
  intros Hs. unfold appendNumeric. rewrite Hs.
  destruct (split_sign text) as [neg s] eqn:E. apply split_sign_spec in E as (sign & Hsign & -> & ->).
  destruct (scan_mantissa s) as [[int frac] r] eqn:E. apply scan_mantissa_spec in E as (point & -> & Hi & Hf & Hp).
  destruct (String.eqb_spec int "" ) as [Hi0|Hi0], (String.eqb_spec frac "") as [Hf0|Hf0]; cbn [andb]; [done|..];
    (destruct (scan_exponent r) as [exp|?| |] eqn:E; [|done..]; apply scan_exponent_spec in E;
     cbn [mbind outcome_bind]; destruct (Z.ltb_spec numericMaxDscale (Z.max 0 (Z.of_nat (String.length frac) - exp))); [done|];
     intros Hout; exists (bool_decide (sign = "-")), int, frac, exp;
     split; [constructor; try done; by destruct int, frac|]; cbv zeta; split; [lia|];
     revert Hout; destruct (String.eqb_spec (trim_right_zeros (strip_lead (int +:+ frac))) "");
       [intros [= <-]; by rewrite decide_True|by rewrite decide_False]).
Qed.

(** C4: What is written is the number the text denotes, its digits and its scale. *)
Theorem appendNumeric_exact dst text out :
  numericSpecial text = None → appendNumeric dst text = Ok out →
  ∃ neg int frac exp n v, numeric_text text neg int frac exp ∧ out = dst ++ n ∧ read_numeric n = Some v ∧
    let value := dec_value (int +:+ frac) in
    same_number value (exp - Z.of_nat (String.length frac)) (base_value (nu_digits v)) (4 * base_exponent v) ∧
    nu_sign v = (if neg && negb (value =? 0) then numericNeg else numericPos) ∧
    nu_dscale v = Z.max 0 (Z.of_nat (String.length frac) - exp) ∧ canonical_digits (nu_digits v).
Proof.
  intros Hs Hok. apply appendNumeric_parts in Hok as (neg & int & frac & exp & Htext & Hscale & Hout); [|done].
  exists neg, int, frac, exp. cbv zeta in Hscale, Hout |- *.
  assert (all_digits (int +:+ frac) = true) as Hd by (destruct Htext; rewrite all_digits_append; by apply andb_true_iff).
  destruct (strip_both _ Hd) as (tail & Hdt & Hval & Hlen & Hle & Hfirst & Hlast).
  set (t := trim_right_zeros _) in *. destruct (decide (t = "")) as [Ht|Ht].
  - rewrite append_header_words in Hout. exists (words_bytes [0; 0; numericPos; Z.max 0 (Z.of_nat (String.length frac) - exp)]).
    eexists. split; [done|]. split; [done|].
    assert (dec_value (int +:+ frac) = 0) as -> by (rewrite Hval, Ht; done).
    split. { pose proof (read_numeric_words 0 numericPos (Z.max 0 (Z.of_nat (String.length frac) - exp)) []) as H.
      cbn [length Z.of_nat words_bytes map concat] in H. rewrite !app_nil_r in H. apply H; unfold word_range, numericPos, numericMaxDscale in *; try lia. done. }
    cbn [nu_digits nu_sign nu_dscale]. split; [unfold same_number, base_value; cbn; lia|].
    split; [by rewrite andb_false_r|]. split; [done|]. repeat split; done.
  - apply append_groups_exact in Hout as (n & v & -> & Hread & Hsc & Hsign & Hcan & _ & rpad & Hbase & Hexp); [|done|done|done|done|lia].
    exists n, v. split; [done|]. split; [done|]. split; [done|]. split.
    { rewrite Hval, Hbase. apply same_number_shift; [|lia..].
      rewrite Hlen in *. rewrite length_append in *. lia. }
    assert (0 < dec_value t).
    { apply dec_value_pos; [done|]. destruct (get_some t 0) as [c Hc]; [destruct t; cbn; [done|lia]|]. eauto. }
    pose proof (Z.pow_pos_nonneg 10 (Z.of_nat tail) ltac:(lia) ltac:(lia)).
    rewrite (proj2 (Z.eqb_neq _ 0)) by (rewrite Hval; nia). cbn [negb]. by rewrite andb_true_r.
Qed.

(** C27: A number whose integer part has at most 131072 digits and its fraction
    16383 is accepted, as long as the two have no more than 131064 together. *)
Theorem appendNumeric_accepts dst text neg int frac exp :
  numericSpecial text = None → numeric_text text neg int frac exp →
  Z.of_nat (String.length frac) - exp ≤ 16383 → Z.of_nat (String.length int) + exp ≤ 131072 →
  Z.of_nat (String.length int) + Z.of_nat (String.length frac) ≤ 131064 →
  is_ok (appendNumeric dst text) = true.
Proof.
  intros Hs Htext H1 H2 H3. destruct Htext as [sign int point frac ex exp Hsign Hi Hf Hne Hp Hex].
  unfold appendNumeric. rewrite Hs. destruct (exponent_next _ _ Hex) as [Hnd Hnp].
  rewrite split_sign_app; [|done|].
  2: { intros c r' Hr. destruct int as [|x int].
    - destruct Hp as [-> | [-> ->]]; [|done]. cbn in Hr. injection Hr as <- _. unfold is_sign. by intros [? | ?].
    - cbn in Hr. injection Hr as <- _. by apply (digits_not_sign (String x int) x int). }
  rewrite scan_mantissa_app by done. cbv beta iota.
  assert (String.eqb int "" && String.eqb frac "" = false) as ->.
  { destruct int; [|done]. by destruct frac. }
  rewrite (scan_exponent_ok ex exp) by done. cbn [mbind outcome_bind]. unfold numericMaxDscale.
  destruct (Z.ltb_spec 16383 (Z.max 0 (Z.of_nat (String.length frac) - exp))); [lia|].
  assert (all_digits (int +:+ frac) = true) as Hd by (rewrite all_digits_append; by apply andb_true_iff).
  destruct (strip_both _ Hd) as (tail & _ & _ & Hlen & Hle & _).
  destruct (String.eqb _ ""); [done|]. unfold append_groups. rewrite length_append in *.
  destruct (_ || _) eqn:E; [|done]. exfalso. revert E. apply not_true_iff_false.
  assert (Z.of_nat (String.length (trim_right_zeros (strip_lead (int +:+ frac)))) ≤ 131064) as Ht by lia.
  revert Ht Hle. generalize (String.length (trim_right_zeros (strip_lead (int +:+ frac)))) (String.length (strip_lead (int +:+ frac))).
  intros t u Ht Hle. clear -H1 H2 H3 Ht Hle.
  destruct (lpad_aligns (Z.of_nat (String.length int) + exp - (Z.of_nat (String.length int + String.length frac) - Z.of_nat u))) as (Hl & _ & Hq).
  revert Hl Hq. generalize (Z.rem (Z.rem (- (Z.of_nat (String.length int) + exp - (Z.of_nat (String.length int + String.length frac) - Z.of_nat u))) 4 + 4) 4).
  intros lp Hl Hq.
  assert (Z.quot (lp + Z.of_nat t + 3) 4 ≤ 32767) by (Z.to_euclidean_division_equations; lia).
  rewrite !orb_false_iff, !Z.ltb_ge. lia.
Qed.

Lemma appendNumeric_exact_witness :
  ∃ neg int frac exp n v, numeric_text "-12.50e3" neg int frac exp ∧ [] ++ n = n ∧ read_numeric n = Some v ∧
    let value := dec_value (int +:+ frac) in
    same_number value (exp - Z.of_nat (String.length frac)) (base_value (nu_digits v)) (4 * base_exponent v) ∧
    nu_sign v = (if neg && negb (value =? 0) then numericNeg else numericPos) ∧
    nu_dscale v = Z.max 0 (Z.of_nat (String.length frac) - exp) ∧ canonical_digits (nu_digits v).
Proof.
  destruct (appendNumeric_exact [] "-12.50e3" _ eq_refl eq_refl) as (neg & int & frac & exp & n & v & H1 & _ & H2).
  by exists neg, int, frac, exp, n, v.
Defined.

Lemma appendNumeric_accepts_witness : is_ok (appendNumeric [] "1.5") = true.
Proof.
  apply (appendNumeric_accepts [] "1.5" false "1" "5" 0); [reflexivity | | cbn; lia..].
  apply (numeric_text_intro "" "1" "." "5" "" 0); [by left | reflexivity.. | done | by left | constructor].
Defined.
