(* ===== verification/EncodeTime.v ===== *)
(** Dates and times: [src/query/write_encode_time.go].

    A date is written as its days since 2000-01-01, a timestamp as its
    microseconds since then; int64 arithmetic is [w64]. *)
From Stdlib Require Import ZArith Lia Ascii Strings.Byte.
From S2P Require Import Prelude Cbor CborNode Text Document EncodeBase.
Set Warnings "-register-all".

Definition pgEpochUnixDays : Z := 10957.
Definition dateMinDays : Z := -2451545.
Definition dateMaxDays : Z := 2145031948.
Definition dateInfinity : Z := 2147483647.
Definition dateNegInf : Z := -2147483648.
Definition tsMinMicros : Z := -211813488000000000.
Definition tsEndMicros : Z := 9223371331200000000.
Definition tsInfinity : Z := 9223372036854775807.
Definition tsNegInfinity : Z := -9223372036854775808.
Definition microsPerSecond : Z := 1000000.
Definition microsPerDay : Z := 86400 * microsPerSecond.

(** An int64, wrapped around. *)
Definition w64 (z : Z) : Z := (z + 2 ^ 63) `mod` 2 ^ 64 - 2 ^ 63.

(** ** Dates *)

Definition daysFromCivil (y m d : Z) : Z :=
  let y := if m <=? 2 then y - 1 else y in
  let era := if (y <? 0) && negb (Z.rem y 400 =? 0) then Z.quot (y - 399) 400 else Z.quot y 400 in
  let yoe := y - era * 400 in
  let mp := Z.rem (m + 9) 12 in
  let doy := Z.quot (153 * mp + 2) 5 + d - 1 in
  let doe := yoe * 365 + Z.quot yoe 4 - Z.quot yoe 100 + doy in
  era * 146097 + doe - 719468.

Definition isLeap (y : Z) : bool := (Z.rem y 4 =? 0) && (negb (Z.rem y 100 =? 0) || (Z.rem y 400 =? 0)).

Definition daysInMonth (y m : Z) : Z :=
  if m =? 2 then (if isLeap y then 29 else 28)
  else if bool_decide (m ∈ [4; 6; 9; 11]) then 30 else 31.

Record timeFields := MkTimeFields {
  year : Z; month : Z; day : Z;
  hour : Z; minute : Z; sec : Z; micro : Z;
  zone : option Z;   (* hasZone, zoneSeconds *)
}.

(** ** Texts *)

Fixpoint digits_from (s : string) (n : nat) (v : Z) {struct n} : option Z :=
  match n, s with
  | O, _ => Some v
  | S n, String c s => if is_digit c then digits_from s n (v * 10 + digit_val c) else None
  | S _, EmptyString => None
  end.
Definition digitsAt (s : string) (i n : nat) : option Z :=
  if (String.length s <? i + n)%nat then None else digits_from (str_drop i s) n 0.

Definition char_is (s : string) (i : nat) (c : ascii) : bool :=
  match String.get i s with Some x => Ascii.eqb x c | None => false end.

(** The text before a final " BC", and whether there is one. *)
Definition strip_bc (s : string) : outcome (string * bool) :=
  if (3 <? String.length s)%nat then
    tail ← str_from s (String.length s - 3);
    if EqualFold tail " BC" then s ← str_to s (String.length s - 3); Ok (s, true) else Ok (s, false)
  else Ok (s, false).

Definition year_of (typ : string) (year : Z) (bc : bool) : outcome Z :=
  if year =? 0 then errBadValue typ else Ok (if bc then 1 - year else year).

(** The date at the start of a text, and what follows. *)
Definition parse_date (typ : string) (s : string) (bc : bool) : outcome (Z * Z * Z * string) :=
  let i := String.length (span_digits s).1 in
  if (i <? 4)%nat || (7 <? i)%nat then errBadValue typ
  else
    let year := default 0 (digitsAt s 0 i) in
    if (String.length s <? i + 6)%nat || negb (char_is s i "-") || negb (char_is s (i + 3) "-") then errBadValue typ
    else
      match digitsAt s (i + 1) 2, digitsAt s (i + 4) 2 with
      | Some month, Some day =>
          year ← year_of typ year bc;
          if (month <? 1) || (12 <? month) || (day <? 1) || (daysInMonth year month <? day) then errBadValue typ
          else rest ← str_from s (i + 6); Ok (year, month, day, rest)
      | _, _ => errBadValue typ
      end.

(** The fraction's digits: [k] counts them from the point. *)
Fixpoint fraction_digits (typ : string) (k frac scale : Z) (s : string) : outcome (Z * Z * string) :=
  match s with
  | String c r =>
      if is_digit c then
        if 6 <? k then errBadValue typ
        else fraction_digits typ (k + 1) (frac + digit_val c * scale) (Z.quot scale 10) r
      else Ok (k, frac, s)
  | EmptyString => Ok (k, frac, s)
  end.

(** The seconds and their fraction, where the text has them. *)
Definition parse_seconds (typ : string) (rest : string) : outcome (Z * Z * string) :=
  if (3 <=? String.length rest)%nat && char_is rest 0 ":" then
    match digitsAt rest 1 2 with
    | None => errBadValue typ
    | Some sec =>
        rest ← str_from rest 3;
        match rest with
        | String "."%char r =>
            p ← fraction_digits typ 1 0 100000 r;
            if p.1.1 =? 1 then errBadValue typ else Ok (sec, p.1.2, p.2)
        | _ => Ok (sec, 0, rest)
        end
    end
  else Ok (0, 0, rest).

Definition parse_clock (typ : string) (rest : string) : outcome (Z * Z * Z * Z * string) :=
  match digitsAt rest 0 2 with
  | None => errBadValue typ
  | Some hour =>
      if (String.length rest <? 5)%nat || negb (char_is rest 2 ":") then errBadValue typ
      else
        match digitsAt rest 3 2 with
        | None => errBadValue typ
        | Some min =>
            rest ← str_from rest 5;
            p ← parse_seconds typ rest;
            let '(sec, micro, rest) := p in
            if (24 <? hour) || (59 <? min) || (59 <? sec) ||
              ((hour =? 24) && (negb (min =? 0) || negb (sec =? 0) || negb (micro =? 0)))
            then errOutOfRange typ
            else Ok (hour, min, sec, micro, rest)
        end
  end.

Definition parse_offset (typ : string) (rest : string) : outcome (option Z) :=
  match digitsAt rest 1 2 with
  | None => errBadValue typ
  | Some oh =>
      tail ← str_from rest 3;
      om ← (if String.eqb tail "" then Ok 0
            else
              tail ← (if char_is tail 0 ":" then str_from tail 1 else Ok tail);
              if negb (String.length tail =? 2)%nat then errBadValue typ
              else match digitsAt tail 0 2 with Some om => Ok om | None => errBadValue typ end);
      if (15 <? oh) || (59 <? om) then errOutOfRange typ
      else
        let z := oh * 3600 + om * 60 in
        Ok (Some (if char_is rest 0 "-" then - z else z))
  end.

Definition parse_zone (typ : string) (rest : string) : outcome (option Z) :=
  if String.eqb rest "" then Ok None
  else
    rest ← (if char_is rest 0 " " then str_from rest 1 else Ok rest);
    if String.eqb rest "Z" || String.eqb rest "z" then Ok (Some 0)
    else if (3 <=? String.length rest)%nat && (char_is rest 0 "+" || char_is rest 0 "-") then parse_offset typ rest
    else errBadValue typ.

Definition parseDateTimeText (typ : string) (s : string) (wantTime : bool) : outcome timeFields :=
  p ← strip_bc s;
  let '(in_, bc) := p in
  p ← parse_date typ in_ bc;
  let '(year, month, day, rest) := p in
  if String.eqb rest "" then Ok (MkTimeFields year month day 0 0 0 0 None)
  else if negb wantTime then errBadValue typ
  else if negb (char_is rest 0 "T") && negb (char_is rest 0 " ") then errBadValue typ
  else
    rest ← str_from rest 1;
    p ← parse_clock typ rest;
    let '(hour, min, sec, micro, rest) := p in
    z ← parse_zone typ rest;
    Ok (MkTimeFields year month day hour min sec micro z).

(** ** Encoders *)

Definition epochDays (f : timeFields) : Z := daysFromCivil (year f) (month f) (day f) - pgEpochUnixDays.

Definition infinityWord (s : string) : option bool :=
  let l := ToLower s in
  if String.eqb l "infinity" then Some true else if String.eqb l "-infinity" then Some false else None.

(** The offset Postgres applies to a wall-clock reading, seconds since 2000-01-01
    as if it were UTC: across a clock change, the one before it in a gap and the
    one after it in an overlap. *)
Definition zoneOffsetAt (loc : Location) (wall : Z) : Z :=
  match loc with
  | UTC => 0
  | Zone _ =>
      let offsetAtInstant secs := zone_offset loc (secs + pgEpochUnixDays * 86400) in
      let window := 86400 in
      let before := offsetAtInstant (wall - window) in
      let after := offsetAtInstant (wall + window) in
      if before =? after then before
      else
        let validBefore := offsetAtInstant (wall - before) =? before in
        let validAfter := offsetAtInstant (wall - after) =? after in
        if (validBefore && validAfter) || (validAfter && negb validBefore) then after else before
  end.

Section encoders.
Context {N : Type} `{ValueNode N}.

Definition nodeString (typ : string) (n : N) : outcome string :=
  if negb (bool_decide (Kind n = KindString)) then errWrongKind typ else StrictString n.

(** A CBOR date is days since 1970. *)
Definition encode_days (dst : bytes) (d : Z) : outcome bytes :=
  let days := w64 (d - pgEpochUnixDays) in
  if (d <? - 2 ^ 40) || (2 ^ 40 <? d) || (days <? dateMinDays) || (dateMaxDays <? days) then errOutOfRange "date"
  else Ok (appendInt32 dst days).

Definition encode_date_text (dst : bytes) (s : string) : outcome bytes :=
  match infinityWord s with
  | Some positive => Ok (appendInt32 dst (if positive : bool then dateInfinity else dateNegInf))
  | None =>
      f ← parseDateTimeText "date" s false;
      let days := epochDays f in
      if (days <? dateMinDays) || (dateMaxDays <? days) then errOutOfRange "date"
      else Ok (appendInt32 dst days)
  end.

Definition encodeDate (dst : bytes) (n : N) (ec : option encodeContext) : outcome bytes :=
  if decide (Kind n = KindDate) then d ← Days n; encode_days dst d
  else s ← nodeString "date" n; encode_date_text dst s.

Definition encode_instant (dst : bytes) (t : instant) (typ : string) (ec : option encodeContext) : outcome bytes :=
  let timestamptz := String.eqb typ "timestamptz" in
  let sec := w64 (unix_sec t - pgEpochUnixDays * 86400) in
  if (sec <? Z.quot tsMinMicros microsPerSecond - 1) || (Z.quot tsEndMicros microsPerSecond + 1 <? sec)
  then errOutOfRange typ
  else
    let micros := w64 (sec * microsPerSecond + Z.quot (unix_nsec t + 500) 1000) in
    if negb timestamptz && zone_unknown ec then errUnknownZone
    else
      let micros :=
        if timestamptz then micros else w64 (micros + zone_offset (location ec) (unix_sec t) * microsPerSecond) in
      if (micros <? tsMinMicros) || (tsEndMicros <=? micros) then errOutOfRange typ
      else Ok (appendInt64 dst micros).

(** The microseconds of a parsed text; only a timestamptz has a zone. *)
Definition field_micros (timestamptz : bool) (loc : Location) (f : timeFields) : Z :=
  let wall := w64 (epochDays f * 86400 + hour f * 3600 + minute f * 60 + sec f) in
  let secs :=
    if timestamptz
    then match zone f with None => w64 (wall - zoneOffsetAt loc wall) | Some z => w64 (wall - z) end
    else wall in
  w64 (secs * microsPerSecond + micro f).

Definition encode_timestamp_text (dst : bytes) (s : string) (typ : string) (ec : option encodeContext) : outcome bytes :=
  let timestamptz := String.eqb typ "timestamptz" in
  match infinityWord s with
  | Some positive => Ok (appendInt64 dst (if positive : bool then tsInfinity else tsNegInfinity))
  | None =>
      f ← parseDateTimeText typ s true;
      let days := epochDays f in
      if (days <? Z.quot tsMinMicros microsPerDay - 1) || (Z.quot tsEndMicros microsPerDay + 1 <? days)
      then errOutOfRange typ
      else if timestamptz && bool_decide (zone f = None) && zone_unknown ec then errUnknownZone
      else
        let micros := field_micros timestamptz (location ec) f in
        if (micros <? tsMinMicros) || (tsEndMicros <=? micros) then errOutOfRange typ
        else Ok (appendInt64 dst micros)
  end.

Definition encodeTimestampText (dst : bytes) (n : N) (typ : string) (ec : option encodeContext) : outcome bytes :=
  if decide (Kind n = KindInstant) then t ← Instant_ n; encode_instant dst t typ ec
  else s ← nodeString typ n; encode_timestamp_text dst s typ ec.

Definition encodeTimestamp (dst : bytes) (n : N) (ec : option encodeContext) : outcome bytes :=
  encodeTimestampText dst n "timestamp" ec.
Definition encodeTimestamptz (dst : bytes) (n : N) (ec : option encodeContext) : outcome bytes :=
  encodeTimestampText dst n "timestamptz" ec.
End encoders.

Example daysFromCivil_ex : map (λ p, daysFromCivil p.1.1 p.1.2 p.2) [(1970, 1, 1); (2000, 1, 1); (1, 1, 1); (-4713, 11, 24)] =
  [0; 10957; -719162; -2440588].
Proof. vm_compute. reflexivity. Qed.
Example parse_ex : parseDateTimeText "timestamptz" "2024-02-29 23:59:59.5 -05:30" true =
  Ok (MkTimeFields 2024 2 29 23 59 59 500000 (Some (-19800))).
Proof. vm_compute. reflexivity. Qed.
Example parse_ex2 : parseDateTimeText "date" "0044-03-15 bc" false = Ok (MkTimeFields (-43) 3 15 0 0 0 0 None).
Proof. vm_compute. reflexivity. Qed.
Example parse_ex3 : map (λ s, parseDateTimeText "timestamp" s true) ["2024-02-30"; "2024-01-01T24:00:01"; "2024-01-01T10"] =
  [errBadValue "timestamp"; errOutOfRange "timestamp"; errBadValue "timestamp"].
Proof. vm_compute. reflexivity. Qed.
