(* ===== verification/EncodeTimeFacts.v ===== *)
(** Dates count days one by one, texts that are read are valid times, and what
    is written is exact. *)
From Stdlib Require Import ZArith Lia Ascii Strings.Byte.
From S2P Require Import Prelude Cbor CborNode Text Document EncodeBase EncodeTime.
Set Warnings "-register-all".
#[local] Set Default Proof Using "Type*".

(** * The calendar *)

(** The day after a date of the proleptic Gregorian calendar. *)
Definition next_day (date : Z * Z * Z) : Z * Z * Z :=
  let '(y, m, d) := date in
  if d <? daysInMonth y m then (y, m, d + 1)
  else if m <? 12 then (y, m + 1, 1)
  else (y + 1, 1, 1).

Definition valid_date (y m d : Z) : Prop := 1 ≤ m ≤ 12 ∧ 1 ≤ d ≤ daysInMonth y m.

(** The days before March of a year, from March of year 0. *)
Definition years_days (y : Z) : Z := 365 * y + y `div` 4 - y `div` 100 + y `div` 400.

Lemma era_floor y :
  (if (y <? 0) && negb (Z.rem y 400 =? 0) then Z.quot (y - 399) 400 else Z.quot y 400) = y `div` 400.
Proof.
  destruct (Z.ltb_spec y 0); cbn [andb].
  - destruct (Z.eqb_spec (Z.rem y 400) 0); cbn [negb]; Z.to_euclidean_division_equations; lia.
  - apply Z.quot_div_nonneg; lia.
Qed.

Lemma years_days_era y :
  let yoe := y - y `div` 400 * 400 in
  y `div` 400 * 146097 + (yoe * 365 + Z.quot yoe 4 - Z.quot yoe 100) = years_days y.
Proof. cbv zeta. unfold years_days. Z.to_euclidean_division_equations. lia. Qed.

Lemma daysFromCivil_floor y m d :
  daysFromCivil y m d =
  years_days (if m <=? 2 then y - 1 else y) + Z.quot (153 * Z.rem (m + 9) 12 + 2) 5 + d - 1 - 719468.
Proof. unfold daysFromCivil. rewrite era_floor, <-years_days_era. cbv zeta. lia. Qed.

Lemma isLeap_floor y : isLeap y = (y `mod` 4 =? 0) && (negb (y `mod` 100 =? 0) || (y `mod` 400 =? 0)).
Proof.
  unfold isLeap.
  assert (∀ b, 0 < b → (Z.rem y b =? 0) = (y `mod` b =? 0)) as E.
  { intros b Hb. destruct (Z.eqb_spec (Z.rem y b) 0), (Z.eqb_spec (y `mod` b) 0); try done; exfalso; Z.to_euclidean_division_equations; nia. }
  by rewrite !E.
Qed.

Lemma years_days_next y : years_days y = years_days (y - 1) + 365 + Z.b2z (isLeap y).
Proof.
  unfold years_days. rewrite isLeap_floor.
  assert (∀ b, 0 < b → y `div` b = (y - 1) `div` b + Z.b2z (y `mod` b =? 0)) as E.
  { intros b Hb. destruct (Z.eqb_spec (y `mod` b) 0); cbn [Z.b2z]; Z.to_euclidean_division_equations; nia. }
  rewrite !E by lia.
  assert (y `mod` 100 = 0 → y `mod` 4 = 0) by (intros; Z.to_euclidean_division_equations; lia).
  assert (y `mod` 400 = 0 → y `mod` 100 = 0) by (intros; Z.to_euclidean_division_equations; lia).
  destruct (Z.eqb_spec (y `mod` 4) 0), (Z.eqb_spec (y `mod` 100) 0), (Z.eqb_spec (y `mod` 400) 0); cbn [Z.b2z andb orb negb]; lia.
Qed.

Lemma daysInMonth_table y m :
  daysInMonth y m =
  if m =? 2 then 28 + Z.b2z (isLeap y) else if (m =? 4) || (m =? 6) || (m =? 9) || (m =? 11) then 30 else 31.
Proof.
  unfold daysInMonth. destruct (m =? 2); [by destruct (isLeap y)|].
  assert (bool_decide (m ∈ [4; 6; 9; 11]) = (m =? 4) || (m =? 6) || (m =? 9) || (m =? 11)) as ->; [|done].
  destruct (bool_decide_reflect (m ∈ [4; 6; 9; 11])) as [H|H]; symmetry.
  - rewrite !orb_true_iff, !Z.eqb_eq. set_solver.
  - rewrite !orb_false_iff, !Z.eqb_neq. set_solver.
Qed.

(** Compute the operations on literals. *)
Ltac z_literal a := lazymatch a with Zpos _ => idtac | Z0 => idtac | Zneg _ => idtac end.
Ltac z_compute :=
  repeat match goal with
  | |- context [?f ?a ?b] =>
      lazymatch f with Z.add => idtac | Z.mul => idtac | Z.rem => idtac | Z.quot => idtac | Z.leb => idtac | Z.ltb => idtac | Z.eqb => idtac end;
      z_literal a; z_literal b;
      let c := eval vm_compute in (f a b) in change (f a b) with c
  end; cbv iota beta; cbn [orb].

(** C28: Days are counted one by one from 1970-01-01, over every date of the
    calendar. *)
Theorem daysFromCivil_next y m d :
  valid_date y m d →
  daysFromCivil 1970 1 1 = 0 ∧
  let '(y', m', d') := next_day (y, m, d) in
  valid_date y' m' d' ∧ daysFromCivil y' m' d' = daysFromCivil y m d + 1.
Proof.
  unfold valid_date. intros [Hm Hd]. split; [done|]. unfold next_day.
  destruct (Z.ltb_spec d (daysInMonth y m)).
  - rewrite !daysFromCivil_floor. lia.
  - assert (d = daysInMonth y m) as -> by lia. rewrite !daysInMonth_table.
    assert (m = 1 ∨ m = 2 ∨ m = 3 ∨ m = 4 ∨ m = 5 ∨ m = 6 ∨ m = 7 ∨ m = 8 ∨ m = 9 ∨ m = 10 ∨ m = 11 ∨ m = 12) as H' by lia.
    pose proof (years_days_next y) as Hy.
    repeat (destruct H' as [-> | H']); try (subst m); z_compute;
      rewrite !daysFromCivil_floor, ?daysInMonth_table; z_compute; destruct (isLeap y); cbn [Z.b2z] in *;
      try (replace (y + 1 - 1) with y by lia); lia.
Qed.

Lemma daysFromCivil_next_witness : daysFromCivil 2024 3 1 = daysFromCivil 2024 2 29 + 1.
Proof. exact (proj2 (proj2 (daysFromCivil_next 2024 2 29 ltac:(split; split; vm_compute; discriminate)))). Defined.

(** * Clock changes *)

(** The offset of a zone that changes once, at instant [change]. *)
Definition one_change (change before after : Z) : Location := Zone (λ t, if t <? change then before else after).

(** C29: Around a clock change, a reading takes the offset after the change when
    the change has happened by then, and the one before otherwise: so a reading
    skipped by the change takes the one before, and one that occurs twice the one
    after. *)
Theorem zoneOffsetAt_change change before after wall :
  - 86400 ≤ before ≤ 86400 → - 86400 ≤ after ≤ 86400 →
  zoneOffsetAt (one_change change before after) wall =
  if change <=? wall - after + pgEpochUnixDays * 86400 then after else before.
Proof.
  intros Hb Ha. unfold zoneOffsetAt, one_change, zone_offset.
  generalize (pgEpochUnixDays * 86400). intros e. cbv zeta.
  repeat match goal with
  | |- context [Z.ltb ?a ?b] => destruct (Z.ltb_spec a b)
  | |- context [Z.leb ?a ?b] => destruct (Z.leb_spec a b)
  | |- context [Z.eqb ?a ?b] => destruct (Z.eqb_spec a b)
  end; cbn [andb orb negb]; lia.
Qed.

(** Spring forward at 02:00 from +1h to +2h: 02:30 takes +1h; fall back at 03:00:
    02:30 takes +1h, the offset after. *)
Lemma zoneOffsetAt_change_witness :
  let wall := 2 * 3600 + 1800 in
  (zoneOffsetAt (one_change (pgEpochUnixDays * 86400 + 3600) 3600 7200) wall = 3600) ∧
  zoneOffsetAt (one_change (pgEpochUnixDays * 86400 + 3600) 7200 3600) wall = 3600.
Proof.
  cbv zeta. split.
  - rewrite (zoneOffsetAt_change _ 3600 7200) by lia. reflexivity.
  - rewrite (zoneOffsetAt_change _ 7200 3600) by lia. reflexivity.
Defined.

(** * The texts that are read *)

Definition valid_time (f : timeFields) : Prop :=
  0 ≤ hour f ≤ 24 ∧ 0 ≤ minute f ≤ 59 ∧ 0 ≤ sec f ≤ 59 ∧ 0 ≤ micro f < 1000000 ∧
  (hour f = 24 → minute f = 0 ∧ sec f = 0 ∧ micro f = 0) ∧
  (∀ z, zone f = Some z → -57540 ≤ z ≤ 57540).
Definition valid_fields (f : timeFields) : Prop :=
  -9999998 ≤ year f ≤ 9999999 ∧ valid_date (year f) (month f) (day f) ∧ valid_time f.

(** A call that does not panic, and what it returns. *)
Definition yields {A} (m : outcome A) (P : A → Prop) : Prop :=
  match m with Ok a => P a | Err _ => True | _ => False end.

Lemma yields_bind {A B} (m : outcome A) (f : A → outcome B) P Q :
  yields m P → (∀ a, P a → yields (f a) Q) → yields (m ≫= f) Q.
Proof. destruct m; cbn; auto. Qed.
Lemma yields_ok {A} (m : outcome A) P a : yields m P → m = Ok a → P a.
Proof. by intros H ->. Qed.
Lemma yields_errorc {A} (P : A → Prop) c m : yields (errorc c m) P.
Proof. done. Qed.
Lemma errBadValue_yields {A} (P : A → Prop) typ : yields (errBadValue typ) P.
Proof. done. Qed.
Lemma errOutOfRange_yields {A} (P : A → Prop) typ : yields (errOutOfRange typ) P.
Proof. unfold errOutOfRange. by destruct (isDateTimeType typ). Qed.
#[local] Hint Resolve errBadValue_yields errOutOfRange_yields yields_errorc : core.

Lemma str_from_yields s i : (i ≤ String.length s)%nat → yields (str_from s i) (λ _, True).
Proof. intros. unfold str_from. by rewrite decide_True. Qed.
Lemma str_to_yields s i : (i ≤ String.length s)%nat → yields (str_to s i) (λ _, True).
Proof. intros. unfold str_to. by rewrite decide_True. Qed.

Lemma digits_from_range s n v z : digits_from s n v = Some z → 0 ≤ v → v * 10 ^ Z.of_nat n ≤ z < (v + 1) * 10 ^ Z.of_nat n.
Proof.
  revert s v. induction n as [|n IH]; intros s v; cbn [digits_from].
  - intros [= ->] _. rewrite Z.pow_0_r. lia.
  - destruct s as [|c s]; [done|]. destruct (is_digit c) eqn:Hc; [|done].
    pose proof (is_digit_range c Hc). intros H0 Hv. apply IH in H0; [|lia].
    rewrite Nat2Z.inj_succ, Z.pow_succ_r by lia.
    pose proof (Z.pow_pos_nonneg 10 (Z.of_nat n) ltac:(lia) ltac:(lia)). nia.
Qed.
Lemma digitsAt_range s i n z : digitsAt s i n = Some z → 0 ≤ z < 10 ^ Z.of_nat n.
Proof. unfold digitsAt. destruct (_ <? _)%nat; [done|]. intros H%digits_from_range; lia. Qed.
Lemma digitsAt_length s i n z : digitsAt s i n = Some z → (i + n ≤ String.length s)%nat.
Proof. unfold digitsAt. destruct (Nat.ltb_spec (String.length s) (i + n)); [done|lia]. Qed.

Lemma strip_bc_yields s : yields (strip_bc s) (λ _, True).
Proof.
  unfold strip_bc. destruct (Nat.ltb_spec 3 (String.length s)); [|done].
  eapply yields_bind; [apply str_from_yields; lia|]. intros t _. destruct (EqualFold t " BC"); [|done].
  eapply yields_bind; [apply str_to_yields; lia|]. done.
Qed.

Lemma year_of_yields typ y bc : 0 ≤ y ≤ 9999999 → yields (year_of typ y bc) (λ y, -9999998 ≤ y ≤ 9999999).
Proof. intros. unfold year_of. destruct (Z.eqb_spec y 0); [auto|]. destruct bc; cbn; lia. Qed.

Lemma parse_date_yields typ s bc :
  yields (parse_date typ s bc) (λ p, -9999998 ≤ p.1.1.1 ≤ 9999999 ∧ valid_date p.1.1.1 p.1.1.2 p.1.2).
Proof.
  unfold parse_date. set (i := String.length (span_digits s).1).
  destruct (Nat.ltb_spec i 4), (Nat.ltb_spec 7 i); cbn [orb]; auto.
  destruct (Nat.ltb_spec (String.length s) (i + 6)); cbn [orb]; [auto|].
  destruct (_ || _); [auto|].
  destruct (digitsAt s (i + 1) 2) as [m|]; [|auto]. destruct (digitsAt s (i + 4) 2) as [d|]; [|auto].
  eapply yields_bind; [apply year_of_yields|].
  - destruct (digitsAt s 0 i) as [y|] eqn:E; cbn; [|lia]. apply digitsAt_range in E.
    pose proof (Z.pow_le_mono_r 10 (Z.of_nat i) 7 ltac:(lia) ltac:(lia)). lia.
  - intros y Hy. destruct (_ || _) eqn:Hr; [auto|]. rewrite !orb_false_iff, !Z.ltb_ge in Hr.
    eapply yields_bind; [apply str_from_yields; lia|]. intros r _. unfold valid_date. cbn beta in Hy. cbn [yields fst snd]. lia.
Qed.

Lemma fraction_digits_yields typ k frac s :
  1 ≤ k ≤ 7 → 0 ≤ frac ≤ 1000000 - 10 ^ (7 - k) →
  yields (fraction_digits typ k frac (10 ^ (6 - k)) s) (λ p, 0 ≤ p.1.2 < 1000000).
Proof.
  revert k frac. induction s as [|c s IH]; intros k frac Hk Hf; cbn [fraction_digits].
  - cbn. pose proof (Z.pow_pos_nonneg 10 (7 - k) ltac:(lia) ltac:(lia)). lia.
  - destruct (is_digit c) eqn:Hc; [|cbn; pose proof (Z.pow_pos_nonneg 10 (7 - k) ltac:(lia) ltac:(lia)); lia].
    pose proof (is_digit_range c Hc). destruct (Z.ltb_spec 6 k); [auto|].
    assert (10 ^ (7 - k) = 10 * 10 ^ (6 - k)) as E1 by (rewrite <-Z.pow_succ_r by lia; f_equal; lia).
    assert (Z.quot (10 ^ (6 - k)) 10 = 10 ^ (6 - (k + 1))) as E2.
    { destruct (Z.eq_dec k 6) as [->|]; [done|].
      replace (10 ^ (6 - k)) with (10 ^ (6 - (k + 1)) * 10) by (rewrite Z.mul_comm, <-Z.pow_succ_r by lia; f_equal; lia).
      apply Z.quot_mul. lia. }
    rewrite E2. apply IH; [lia|]. replace (7 - (k + 1)) with (6 - k) by lia.
    pose proof (Z.pow_pos_nonneg 10 (6 - k) ltac:(lia) ltac:(lia)). nia.
Qed.

(** A text that starts with a point. *)
Lemma match_point {A} (r : string) (f : string → A) (d : A) :
  match r with String "."%char r => f r | _ => d end =
  match r with String c r' => if decide (c = "."%char) then f r' else d | EmptyString => d end.
Proof. destruct r as [|[[] [] [] [] [] [] [] []] r]; reflexivity. Qed.

Lemma parse_seconds_yields typ rest :
  yields (parse_seconds typ rest) (λ p, 0 ≤ p.1.1 ≤ 99 ∧ 0 ≤ p.1.2 < 1000000).
Proof.
  unfold parse_seconds. destruct (Nat.leb_spec 3 (String.length rest)); cbn [andb]; [|cbn; lia].
  destruct (char_is rest 0 ":"); [|cbn; lia].
  destruct (digitsAt rest 1 2) as [s|] eqn:Es; [|auto]. apply digitsAt_range in Es. cbn in Es.
  eapply yields_bind; [by apply str_from_yields|]. intros r _. rewrite match_point.
  destruct r as [|c r]; [cbn; lia|]. case_decide; [|cbn; lia].
  eapply yields_bind; [apply (fraction_digits_yields typ 1 0 r); cbn; lia|].
  intros [[k frac] r'] Hf. cbn in Hf |- *. destruct (k =? 1); [auto|]. cbn. lia.
Qed.

Lemma parse_clock_yields typ rest :
  yields (parse_clock typ rest) (λ p, ∀ z, (∀ s, z = Some s → -57540 ≤ s ≤ 57540) →
    valid_time (MkTimeFields 0 0 0 p.1.1.1.1 p.1.1.1.2 p.1.1.2 p.1.2 z)).
Proof.
  unfold parse_clock. destruct (digitsAt rest 0 2) as [h|] eqn:Eh; [|auto].
  destruct (Nat.ltb_spec (String.length rest) 5); cbn [orb]; [auto|]. destruct (negb _); [auto|].
  destruct (digitsAt rest 3 2) as [m|] eqn:Em; [|auto].
  apply digitsAt_range in Eh, Em. eapply yields_bind; [by apply str_from_yields|]. intros r _.
  eapply yields_bind; [apply parse_seconds_yields|]. intros [[s u] r'] [Hs Hu]. cbn [fst snd] in Hs, Hu.
  destruct (_ || _) eqn:Hr; [auto|]. rewrite !orb_false_iff, !Z.ltb_ge in Hr. destruct Hr as [[[H1 H2] H3] H4].
  cbn [yields fst snd]. intros z Hz. unfold valid_time. cbn. repeat split; try lia; try (by apply Hz).
  all: intros ->; cbn in H4; rewrite !orb_false_iff, !negb_false_iff, !Z.eqb_eq in H4; lia.
Qed.

Lemma parse_zone_yields typ rest :
  yields (parse_zone typ rest) (λ z, ∀ s, z = Some s → -57540 ≤ s ≤ 57540).
Proof.
  unfold parse_zone. destruct (String.eqb_spec rest ""); [by cbn|].
  eapply (yields_bind _ _ (λ _, True)).
  { destruct (char_is rest 0 " "); [apply str_from_yields; destruct rest; [done|cbn; lia]|done]. }
  intros r _. destruct (_ || _); [cbn; intros ? [= <-]; lia|].
  destruct (Nat.leb_spec 3 (String.length r)); cbn [andb]; [|auto]. destruct (_ || _); [|auto].
  unfold parse_offset. destruct (digitsAt r 1 2) as [oh|] eqn:Eh; [|auto]. apply digitsAt_range in Eh. cbn in Eh.
  eapply yields_bind; [by apply str_from_yields|]. intros t _.
  eapply (yields_bind _ _ (λ om, 0 ≤ om)).
  { destruct (String.eqb_spec t ""); [cbn; lia|]. eapply (yields_bind _ _ (λ _, True)).
    { destruct (char_is t 0 ":"); [apply str_from_yields; destruct t; [done|cbn; lia]|done]. }
    intros u _. destruct (negb _); [auto|]. destruct (digitsAt u 0 2) as [om|] eqn:Em; [|auto].
    apply digitsAt_range in Em. cbn. lia. }
  intros om Hom. destruct (_ || _) eqn:Hr; [auto|]. rewrite !orb_false_iff, !Z.ltb_ge in Hr.
  cbn. intros s [= <-]. destruct (char_is r 0 "-"); lia.
Qed.

(** Reading a date or time never panics, and what it returns is a date of the
    calendar and a time of the day. *)
Lemma parseDateTimeText_valid typ s wantTime : yields (parseDateTimeText typ s wantTime) valid_fields.
Proof.
  unfold parseDateTimeText. eapply yields_bind; [apply strip_bc_yields|]. intros [t bc] _.
  eapply yields_bind; [apply parse_date_yields|]. intros [[[y m] d] rest] [Hy Hd]. cbn [fst snd] in Hy, Hd.
  destruct (String.eqb_spec rest "").
  { cbn. split; [done|]. split; [done|]. unfold valid_time. cbn. repeat split; try lia; done. }
  destruct (negb wantTime); [auto|]. destruct (_ && _); [auto|].
  eapply yields_bind; [apply str_from_yields; destruct rest; [done|cbn; lia]|]. intros r _.
  eapply yields_bind; [apply parse_clock_yields|]. intros [[[[h mi] se] u] r'] Hc.
  eapply yields_bind; [apply parse_zone_yields|]. intros z Hz. cbn. split; [done|]. split; [done|].
  exact (Hc z Hz).
Qed.

(** * What is written *)

Lemma w64_id z : - 2 ^ 63 ≤ z < 2 ^ 63 → w64 z = z.
Proof. intros. unfold w64. rewrite Z.mod_small; lia. Qed.

(** A zone's offsets are less than a day. *)
Definition sane_zone (loc : Location) : Prop := ∀ t, - 86400 ≤ zone_offset loc t ≤ 86400.

Lemma zoneOffsetAt_range loc wall : sane_zone loc → - 86400 ≤ zoneOffsetAt loc wall ≤ 86400.
Proof.
  unfold sane_zone, zoneOffsetAt. intros H. destruct loc as [|f]; [lia|]. cbv zeta.
  pose proof (H (wall - 86400 + pgEpochUnixDays * 86400)). pose proof (H (wall + 86400 + pgEpochUnixDays * 86400)).
  repeat case_match; lia.
Qed.

(** The seconds since 2000-01-01 a reading shows, and the offset it is placed with. *)
Definition wall_seconds (f : timeFields) : Z := epochDays f * 86400 + hour f * 3600 + minute f * 60 + sec f.
Definition reading_offset (typ : string) (loc : Location) (f : timeFields) : Z :=
  if String.eqb typ "timestamptz"
  then match zone f with Some z => z | None => zoneOffsetAt loc (wall_seconds f) end
  else 0.

Definition in_timestamps (micros : Z) : Prop := tsMinMicros ≤ micros < tsEndMicros.

Lemma field_micros_exact typ loc f :
  sane_zone loc → valid_fields f →
  Z.quot tsMinMicros microsPerDay - 1 ≤ epochDays f ≤ Z.quot tsEndMicros microsPerDay + 1 →
  field_micros (String.eqb typ "timestamptz") loc f =
  (wall_seconds f - reading_offset typ loc f) * microsPerSecond + micro f.
Proof.
  intros Hloc (_ & _ & Hh & Hm & Hs & Hu & _ & Hz) Hd.
  change (Z.quot tsMinMicros microsPerDay) with (-2451545) in Hd.
  change (Z.quot tsEndMicros microsPerDay) with 106751983 in Hd.
  unfold field_micros, reading_offset, wall_seconds, microsPerSecond in *.
  rewrite (w64_id (epochDays f * 86400 + hour f * 3600 + minute f * 60 + sec f)) by lia.
  destruct (String.eqb typ "timestamptz").
  - destruct (zone f) as [z|].
    + specialize (Hz z eq_refl). rewrite (w64_id (_ - z)), w64_id by lia. done.
    + pose proof (zoneOffsetAt_range loc (epochDays f * 86400 + hour f * 3600 + minute f * 60 + sec f) Hloc).
      rewrite (w64_id (_ - zoneOffsetAt _ _)), w64_id by lia. done.
  - rewrite w64_id by lia. lia.
Qed.


