(* ===== verification/EncodeValue.v ===== *)
(** The encoders of written values: [src/query/write_encode.go] and
    [src/query/write_encode_complex.go].

    A column is written in the binary form of its type when every type in its
    tree has one, and else as the text the type's input function reads. *)
From Stdlib Require Import ZArith Lia Ascii SpecFloat Strings.Byte.
From S2P Require Import Prelude Cbor CborNode Text Document Catalog MaskSlots TempTable EncodeBase EncodeNumeric EncodeTime.
Set Warnings "-register-all".

(** * Texts of scalars *)

(** [strconv.ParseFloat] of a text of signs, digits, points and e. *)
Definition float_exponent (r : string) : option Z :=
  match r with
  | EmptyString => Some 0
  | String c x =>
      if Ascii.eqb c "e" || Ascii.eqb c "E" then
        let '(neg, x) := split_sign x in
        if negb (String.eqb x "") && all_digits x
        then Some (if neg then - exponent_digits 0 x else exponent_digits 0 x) else None
      else None
  end.
Definition ParseFloat_to (prec emax : Z) (s : string) : option spec_float :=
  let '(neg, s) := split_sign s in
  let '(intPart, fracPart, r) := scan_mantissa s in
  if String.eqb intPart "" && String.eqb fracPart "" then None
  else
    e ← float_exponent r;
    match round_decimal_to prec emax neg (dec_value (intPart +:+ fracPart)) (e - Z.of_nat (String.length fracPart)) with
    | S754_infinity _ => None
    | f => Some f
    end.

(** [math.Float32bits]; the NaN is [float32(math.NaN())]. *)
Definition Float32bits (f : spec_float) : Z :=
  match f with
  | S754_zero s => if s then 2 ^ 31 else 0
  | S754_infinity s => (if s then 2 ^ 31 else 0) + 255 * 2 ^ 23
  | S754_nan => 2143289344
  | S754_finite s m e =>
      let m := Z.pos m in
      (if s then 2 ^ 31 else 0) + (if m <? 2 ^ 23 then m else (e + 150) * 2 ^ 23 + (m - 2 ^ 23))
  end.

Definition floatSpecial (s : string) : option spec_float :=
  let l := ToLower s in
  if String.eqb l "nan" then Some S754_nan
  else if bool_decide (l ∈ ["infinity"; "+infinity"; "inf"; "+inf"]) then Some (S754_infinity false)
  else if bool_decide (l ∈ ["-infinity"; "-inf"]) then Some (S754_infinity true)
  else None.

Definition is_plain_char (c : ascii) : bool :=
  is_digit c || Ascii.eqb c "+" || Ascii.eqb c "-" || Ascii.eqb c "." || Ascii.eqb c "e" || Ascii.eqb c "E".
Definition isPlainDecimal (s : string) : bool := negb (String.eqb s "") && string_forallb is_plain_char s.

Fixpoint hasNonZeroDigit (s : string) : bool :=
  match s with
  | EmptyString => false
  | String c s =>
      if Ascii.eqb c "e" || Ascii.eqb c "E" then false
      else if (49 <=? char_code c) && (char_code c <=? 57) then true
      else hasNonZeroDigit s
  end.

Definition is_zero (f : spec_float) : bool := match f with S754_zero _ => true | _ => false end.

Definition parse_float (bits : Z) (name text : string) : outcome spec_float :=
  match floatSpecial text with
  | Some f => Ok f
  | None =>
      if negb (isPlainDecimal text) then errBadValue name
      else
        match (if bits =? 32 then ParseFloat_to 24 128 text else ParseFloat_to 53 1024 text) with
        | None => errBadValue name
        | Some f => if is_zero f && hasNonZeroDigit text then errBadValue name else Ok f
        end
  end.

Definition is_space (c : ascii) : bool :=
  bool_decide (c ∈ [" "%char; "009"%char; "010"%char; "013"%char; "012"%char; "011"%char]).
Fixpoint trim_left_space (s : string) : string :=
  match s with String c s' => if is_space c then trim_left_space s' else s | EmptyString => s end.
Fixpoint trim_right_space (s : string) : string :=
  match s with
  | EmptyString => EmptyString
  | String c s =>
      match trim_right_space s with
      | EmptyString => if is_space c then "" else String c ""
      | t => String c t
      end
  end.
(** [strings.Trim(s, " \t\n\r\f\v")] *)
Definition trim_space (s : string) : string := trim_right_space (trim_left_space s).

Definition parseBoolText (s : string) : option bool :=
  let l := ToLower (trim_space s) in
  let prefix_of w v := if String.prefix l w then Some v else None in
  match l with
  | EmptyString => None
  | String "t"%char _ => prefix_of "true" true
  | String "f"%char _ => prefix_of "false" false
  | String "y"%char _ => prefix_of "yes" true
  | String "n"%char _ => prefix_of "no" false
  | String "o"%char _ =>
      if String.eqb l "on" then Some true
      else if (2 <=? String.length l)%nat then prefix_of "off" false else None
  | String "1"%char _ => if String.eqb l "1" then Some true else None
  | String "0"%char _ => if String.eqb l "0" then Some false else None
  | _ => None
  end.

Definition hexVal (c : ascii) : option Z :=
  let x := char_code c in
  if is_digit c then Some (x - 48)
  else if (97 <=? x) && (x <=? 102) then Some (x - 97 + 10)
  else if (65 <=? x) && (x <=? 70) then Some (x - 65 + 10)
  else None.

Definition has_nul (s : string) : bool := negb (string_forallb (λ c, negb (Ascii.eqb c "000"%char)) s).

(** [strings.TrimPrefix] of one brace on each side. *)
Definition strip_braces (s : string) : outcome string :=
  let n := String.length s in
  if (2 <=? n)%nat && char_is s 0 "{" && char_is s (n - 1) "}" then t ← str_from s 1; str_to t (n - 2) else Ok s.

(** Pairs of hexadecimal digits, a hyphen passed over when the text has them:
    [hi] is the high half of a byte not complete yet. *)
Fixpoint uuid_bytes (hyphens : bool) (hi : option Z) (s : string) : outcome bytes :=
  match s with
  | EmptyString => Ok []
  | String c s =>
      if Ascii.eqb c "-" && hyphens then uuid_bytes hyphens hi s
      else
        match hexVal c with
        | None => errBadValue "uuid"
        | Some v =>
            match hi with
            | None => uuid_bytes hyphens (Some (v ≪ 4)) s
            | Some cur => bs ← uuid_bytes hyphens None s; Ok (zb (Z.lor cur v) :: bs)
            end
        end
  end.

(** [out] is an array of 16 bytes: a byte past it panics, one not written is 0. *)
Definition uuid_array (bs : bytes) : outcome bytes :=
  if (16 <? length bs)%nat then Panic else Ok (bs ++ repeat Byte.x00 (16 - length bs)).

Fixpoint bytea_bytes (dst : bytes) (s : string) : outcome bytes :=
  match s with
  | String c1 (String c2 s) =>
      match hexVal c1, hexVal c2 with
      | Some a, Some b => bytea_bytes (dst ++ [zb (Z.lor (a ≪ 4) b)]) s
      | _, _ => errBadValue "bytea"
      end
  | _ => Ok dst
  end.

(** [putInt32(b[at:], v)]: the four bytes at [at_], which must be there. *)
Definition putInt32 (b : bytes) (at_ : nat) (v : Z) : outcome bytes :=
  if (at_ + 4 <=? length b)%nat then Ok (take at_ b ++ be_bytes 4 v ++ drop (at_ + 4) b) else Panic.

(** * Scalars *)

Section encoders.
Context {N : Type} `{ValueNode N} (d : DbInfos).

Abbreviation fieldEncoder := (bytes → N → option encodeContext → outcome bytes).
Implicit Types (n : N) (ec : option encodeContext).

(** The text of a number or a string. *)
Definition number_or_string (name : string) n : outcome string :=
  match Kind n with
  | KindNumber => Raw n
  | KindString => StrictString n
  | _ => errWrongKind name
  end.

Definition int_name (bits : Z) : string := "int" +:+ dec_nat (bits `div` 8).
Definition encodeInt (bits : Z) : fieldEncoder := λ dst n ec,
  text ← number_or_string (int_name bits) n;
  match ParseInt10 bits text with
  | inl ErrRange => errOutOfRange (int_name bits)
  | inl ErrSyntax => errBadValue (int_name bits)
  | inr v => Ok (if bits =? 16 then appendInt16 dst v else if bits =? 32 then appendInt32 dst v else appendInt64 dst v)
  end.

Definition encodeFloat (bits : Z) : fieldEncoder := λ dst n ec,
  let name := if bits =? 64 then "float8" else "float4" in
  text ← number_or_string name n;
  f ← parse_float bits name text;
  Ok (if bits =? 32 then dst ++ be_bytes 4 (Float32bits f) else dst ++ be_bytes 8 (Float64bits f)).

Definition encodeNumeric : fieldEncoder := λ dst n ec,
  text ← number_or_string "numeric" n; appendNumeric dst text.

Definition encodeBool : fieldEncoder := λ dst n ec,
  v ← match Kind n with
      | KindBool => StrictBool n
      | KindNumber =>
          text ← Raw n;
          if negb (String.eqb text "0") && negb (String.eqb text "1") then errBadValue "bool"
          else Ok (String.eqb text "1")
      | KindString => text ← StrictString n; of_option (errBadValue "bool") (parseBoolText text)
      | _ => errWrongKind "bool"
      end;
  Ok (if v : bool then dst ++ [zb 1] else dst ++ [zb 0]).

Definition encodeText : fieldEncoder := λ dst n ec,
  if negb (bool_decide (Kind n = KindString)) then errWrongKind "text"
  else
    s ← StrictString n;
    if has_nul s then errBadCharacter else Ok (dst ++ bytes_of_string s).

Definition uuid_text (dst : bytes) (s : string) : outcome bytes :=
  in_ ← strip_braces s;
  let len := String.length in_ in
  if (len =? 36)%nat && negb (char_is in_ 8 "-" && char_is in_ 13 "-" && char_is in_ 18 "-" && char_is in_ 23 "-")
  then errBadValue "uuid"
  else if negb (len =? 36)%nat && negb (len =? 32)%nat then errBadValue "uuid"
  else
    bs ← uuid_bytes (len =? 36)%nat None in_;
    out ← uuid_array bs;
    Ok (dst ++ out).

Definition encodeUUID : fieldEncoder := λ dst n ec,
  if decide (Kind n = KindUUID) then b ← StrictBytes n; Ok (dst ++ b)
  else if negb (bool_decide (Kind n = KindString)) then errWrongKind "uuid"
  else s ← StrictString n; uuid_text dst s.

Definition bytea_text (dst : bytes) (s : string) : outcome bytes :=
  match s with
  | String "092"%char (String "x"%char h) =>
      if negb (Nat.even (String.length h)) then errBadValue "bytea" else bytea_bytes dst h
  | _ => errBadValue "bytea"
  end.

Definition encodeBytea : fieldEncoder := λ dst n ec,
  if decide (Kind n = KindBytes) then b ← StrictBytes n; Ok (dst ++ b)
  else if negb (bool_decide (Kind n = KindString)) then errWrongKind "bytea"
  else s ← StrictString n; bytea_text dst s.

Definition encodeJSON : fieldEncoder := λ dst n ec,
  raw ← nodeJSON n;
  if has_nul raw then errBadCharacter else Ok (dst ++ bytes_of_string raw).
Definition encodeJSONB : fieldEncoder := λ dst n ec, encodeJSON (dst ++ [zb 1]) n ec.

Definition scalarEncoder (oid : Z) : option fieldEncoder :=
  if oid =? oidBool then Some encodeBool
  else if oid =? oidBytea then Some encodeBytea
  else if oid =? oidName then Some encodeText
  else if oid =? oidInt8 then Some (encodeInt 64)
  else if oid =? oidInt2 then Some (encodeInt 16)
  else if oid =? oidInt4 then Some (encodeInt 32)
  else if oid =? oidText then Some encodeText
  else if oid =? oidJSON then Some encodeJSON
  else if oid =? oidFloat4 then Some (encodeFloat 32)
  else if oid =? oidFloat8 then Some (encodeFloat 64)
  else if oid =? oidBpchar then Some encodeText
  else if oid =? oidVarchar then Some encodeText
  else if oid =? oidDate then Some encodeDate
  else if oid =? oidTimestamp then Some encodeTimestamp
  else if oid =? oidTimestamptz then Some encodeTimestamptz
  else if oid =? oidNumeric then Some encodeNumeric
  else if oid =? oidUUID then Some encodeUUID
  else if oid =? oidJSONB then Some encodeJSONB
  else None.

(** [scalarEncoderFor] of a type without its domains: an enum's binary form is its label. *)
Definition scalarEncoderFor (u : Z) : option fieldEncoder :=
  match TypeMapByOid d !! u with
  | None => None
  | Some ty => if IsEnum ty then Some encodeText else scalarEncoder u
  end.

(** * Arrays and composites *)

Definition appendLengthPrefixed (dst : bytes) n ec (enc : fieldEncoder) : outcome bytes :=
  let at_ := length dst in
  dst ← enc (dst ++ repeat (zb 0) 4) n ec;
  putInt32 dst at_ (Z.of_nat (length dst) - Z.of_nat at_ - 4).

(** The sizes of the dimensions and the leaves; no size where the array is empty. *)
Section array_shape.
Variable rec : N → outcome (list nat * list N).

(** The sub-arrays from position [i] on; [inner] is the shape of the first. *)
Fixpoint sub_shapes (i : nat) (inner : list nat) (items : list N) : outcome (list nat * list N) :=
  match items with
  | [] => Ok (inner, [])
  | it :: items =>
      p ← rec it;
      let '(s, l) := p in
      if bool_decide (s = []) && bool_decide (l = []) && Nat.eqb i 0 then sub_shapes (S i) inner items
      else
        inner ← (if Nat.eqb i 0 then Ok s
                 else if bool_decide (inner = s) then Ok inner
                 else errorf "write: the arrays are not rectangular: sub-array %d has a different shape from the first");
        q ← sub_shapes (S i) inner items;
        Ok (q.1, l ++ q.2)
  end.
End array_shape.

Fixpoint arrayShape (fuel : nat) n : outcome (list nat * list N) :=
  match fuel with
  | O => OutOfFuel
  | S fuel =>
      if negb (bool_decide (Kind n = KindArray)) then errWrongKind "array"
      else
        items ← ArrayItems n;
        match items with
        | [] => Ok ([], [])
        | it :: _ =>
            if negb (bool_decide (Kind it = KindArray)) then Ok ([length items], items)
            else
              p ← sub_shapes (arrayShape fuel) 0 [] items;
              if bool_decide (p.2 = []) then Ok ([], []) else Ok (length items :: p.1, p.2)
        end
  end.

Definition is_null n : bool := bool_decide (Kind n = KindNull).

Fixpoint append_elements (elem : fieldEncoder) (dst : bytes) (leaves : list N) ec : outcome bytes :=
  match leaves with
  | [] => Ok dst
  | l :: leaves =>
      dst ← (if is_null l then Ok (appendInt32 dst (-1)) else appendLengthPrefixed dst l ec elem);
      append_elements elem dst leaves ec
  end.

Definition arrayEncoder (elemOID : Z) (elem : fieldEncoder) : fieldEncoder := λ dst n ec,
  p ← arrayShape (nesting n) n;
  let '(sizes, leaves) := p in
  let dst := appendInt32 dst (Z.of_nat (length sizes)) in
  let dst := appendInt32 dst (if existsb is_null leaves then 1 else 0) in
  let dst := binaryAppendUint32 dst elemOID in
  let dst := foldl (λ dst s, appendInt32 (appendInt32 dst (Z.of_nat s)) 1) dst sizes in
  append_elements elem dst leaves ec.

Record compositeField := MkField { cf_name : string; cf_oid : Z; cf_enc : fieldEncoder }.

(** A key the value lacks is NULL. *)
Fixpoint encode_fields (fields : list compositeField) (dst : bytes) n ec : outcome bytes :=
  match fields with
  | [] => Ok dst
  | f :: fields =>
      let dst := binaryAppendUint32 dst (cf_oid f) in
      v ← ObjectGet n (cf_name f);
      dst ← match v with
            | None => Ok (appendInt32 dst (-1))
            | Some v => if is_null v then Ok (appendInt32 dst (-1)) else appendLengthPrefixed dst v ec (cf_enc f)
            end;
      encode_fields fields dst n ec
  end.

(** [encodeMarking], which is called without a [mark]. *)
Definition encode_composite (fields : list compositeField) : fieldEncoder := λ dst n ec,
  if negb (bool_decide (Kind n = KindObject)) then errWrongKind "composite"
  else encode_fields fields (appendInt32 dst (Z.of_nat (length fields))) n ec.

(** [compositeEncoderFor], given [binaryEncoderFor] on the types of its fields. *)
Fixpoint composite_fields (rec : Z → outcome (option fieldEncoder)) (cols : list Column) : outcome (option (list compositeField)) :=
  match cols with
  | [] => Ok (Some [])
  | c :: cols =>
      enc ← rec (col_type c);
      match enc with
      | None => Ok None
      | Some enc => fs ← composite_fields rec cols; Ok (option_map (cons (MkField (col_name c) (col_type c) enc)) fs)
      end
  end.

Fixpoint binaryEncoderFor (fuel : nat) (t : Z) : outcome (option fieldEncoder) :=
  match fuel with
  | O => OutOfFuel
  | S fuel =>
      u ← Underlying (domain_fuel d) d t;
      match scalarEncoderFor u, TypeMapByOid d !! u with
      | Some enc, _ => Ok (Some enc)
      | None, None => Ok None
      | None, Some ty =>
          if IsArray d u then
            match ty_elem ty with
            | Some e => elem ← binaryEncoderFor fuel e; Ok (option_map (arrayEncoder e) elem)
            | None => Ok None
            end
          else
            match composite_of d ty with
            | Some r => fs ← composite_fields (binaryEncoderFor fuel) (Columns r); Ok (option_map encode_composite fs)
            | None => Ok None
            end
      end
  end.
End encoders.
