(* ===== verification/EncodeText.v ===== *)
(** The text mode of [src/query/write_encode_complex.go]: a value is written as
    the text the input function of its type reads, arrays and composites as
    literals; and the choice between the two modes, [columnEncoder].

    [AppendFormat] is Go's, in UTC: exact from the year -292277022399 on, where
    its clock starts. *)
From Stdlib Require Import ZArith Lia Ascii Strings.Byte.
From S2P Require Import Prelude Cbor CborNode Text Document Catalog MaskSlots TempTable EncodeBase EncodeNumeric EncodeTime EncodeValue.
Set Warnings "-register-all".

(** * Go's [time.AppendFormat] *)

(** The date of a day since 1970-01-01. *)
Definition civilFromDays (z : Z) : Z * Z * Z :=
  let z := z + 719468 in
  let era := z `div` 146097 in
  let doe := z `mod` 146097 in
  let yoe := (doe - doe `div` 1460 + doe `div` 36524 - doe `div` 146096) `div` 365 in
  let doy := doe - (365 * yoe + yoe `div` 4 - yoe `div` 100) in
  let mp := (5 * doy + 2) `div` 153 in
  let d := doy - (153 * mp + 2) `div` 5 + 1 in
  let m := if mp <? 10 then mp + 3 else mp - 9 in
  (yoe + era * 400 + (if m <=? 2 then 1 else 0), m, d).

(** A number with at least [width] digits. *)
Definition pad_digits (width : nat) (n : Z) : string :=
  let s := dec_nat (Z.abs n) in
  (if n <? 0 then "-" else "") +:+ zeros (width - String.length s) +:+ s.

Definition format_date (days : Z) : string :=
  let '(y, m, d) := civilFromDays days in
  pad_digits 4 y +:+ "-" +:+ pad_digits 2 m +:+ "-" +:+ pad_digits 2 d.

(** [.999999]: the microseconds without the zeros they end with. *)
Definition format_fraction (nsec : Z) : string :=
  let s := trim_right_zeros (pad_digits 6 (nsec `div` 1000)) in
  if String.eqb s "" then "" else "." +:+ s.

Definition format_instant (t : instant) : string :=
  let s := unix_sec t `mod` 86400 in
  format_date (unix_sec t `div` 86400) +:+ "T" +:+ pad_digits 2 (s `div` 3600) +:+ ":" +:+
  pad_digits 2 (s `div` 60 `mod` 60) +:+ ":" +:+ pad_digits 2 (s `mod` 60) +:+ format_fraction (unix_nsec t) +:+ "Z".

(** [hex.EncodeToString] *)
Definition hex_string (b : bytes) : string :=
  String.concat "" (map (λ x, String (hex_char (bz x `div` 16)) (String (hex_char (bz x `mod` 16)) "")) b).

Definition uuid_string (b : bytes) : outcome string :=
  let h := hex_string b in
  if decide (length b = 16%nat) then
    Ok (str_take 8 h +:+ "-" +:+ str_take 4 (str_drop 8 h) +:+ "-" +:+ str_take 4 (str_drop 12 h) +:+ "-" +:+
        str_take 4 (str_drop 16 h) +:+ "-" +:+ str_drop 20 h)
  else Panic.

(** * Quoting *)

(** The characters that make a text need quotes. *)
Definition quote_chars : list Z := [34; 92; 44; 32; 9; 10; 13; 12; 11].
Definition needs_quote (inArray : bool) (c : Byte.byte) : bool :=
  let x := bz c in
  bool_decide (x ∈ quote_chars) ||
  (((x =? 123) || (x =? 125)) && inArray) || (((x =? 40) || (x =? 41)) && negb inArray).

Definition is_null_word (text : bytes) : bool := EqualFold (string_of_bytes text) "null".

Definition escape_byte (c : Byte.byte) : bytes :=
  if (bz c =? 34) || (bz c =? 92) then [zb 92; c] else [c].

Definition appendQuoted (dst text : bytes) (inArray : bool) : bytes :=
  let need := bool_decide (text = []) || (inArray && (length text =? 4)%nat && is_null_word text) ||
    existsb (needs_quote inArray) text in
  if negb need then dst ++ text
  else dst ++ [zb 34] ++ concat (map escape_byte text) ++ [zb 34].

(** * The encoders *)

Section text_mode.
Context {N : Type} `{ValueNode N} (d : DbInfos).
Abbreviation fieldEncoder := (bytes → N → option encodeContext → outcome bytes).
Implicit Types (n : N) (ec : option encodeContext) (dst : bytes).

Definition put_text dst (s : string) : bytes := dst ++ bytes_of_string s.

(** A UUID that does not have 16 bytes is no error and no text:
    [oops.Wrapf] of no error is nil. *)
Definition encodeScalarText : fieldEncoder := λ dst n ec,
  match Kind n with
  | KindString => s ← StrictString n; if has_nul s then errBadCharacter else Ok (put_text dst s)
  | KindNumber =>
      t ← decimal_text n;
      match t with
      | Some text => Ok (put_text dst text)
      | None => raw ← Raw n; Ok (put_text dst raw)
      end
  | KindObject | KindArray => raw ← Raw n; Ok (put_text dst raw)
  | KindBytes => b ← StrictBytes n; Ok (put_text (put_text dst (backslash +:+ "x")) (hex_string b))
  | KindUUID =>
      b ← StrictBytes n;
      if negb (length b =? 16)%nat then Ok [] else s ← uuid_string b; Ok (put_text dst s)
  | KindInstant => t ← Instant_ n; Ok (put_text dst (format_instant t))
  | KindDate => days ← Days n; Ok (put_text dst (format_date (w64 (days * 86400) `div` 86400)))
  | KindBool => b ← StrictBool n; Ok (put_text dst (if b : bool then "true" else "false"))
  | _ => errWrongKind "text"
  end.

Section text_array.
Variables (rec : bytes → N → outcome bytes) (elem : fieldEncoder) (nested : bool).

Fixpoint append_text_items (first : bool) dst (items : list N) ec : outcome bytes :=
  match items with
  | [] => Ok dst
  | it :: items =>
      let dst := if first then dst else put_text dst "," in
      dst ← (if is_null it then Ok (put_text dst "NULL")
             else if nested then rec dst it
             else text ← elem [] it ec; Ok (appendQuoted dst text true));
      append_text_items false dst items ec
  end.
End text_array.

(** The first element decides whether there is another dimension. *)
Fixpoint appendTextArray (fuel : nat) (elem : fieldEncoder) dst n ec : outcome bytes :=
  match fuel with
  | O => OutOfFuel
  | S fuel =>
      if negb (bool_decide (Kind n = KindArray)) then errWrongKind "array"
      else
        items ← ArrayItems n;
        let nested := match items with it :: _ => bool_decide (Kind it = KindArray) | [] => false end in
        dst ← append_text_items (λ dst it, appendTextArray fuel elem dst it ec) elem nested true (put_text dst "{") items ec;
        Ok (put_text dst "}")
  end.

Definition textArrayEncoder (elem : fieldEncoder) : fieldEncoder := λ dst n ec, appendTextArray (nesting n) elem dst n ec.

(** A NULL field is empty and unquoted. *)
Fixpoint append_text_fields (first : bool) (fields : list (string * fieldEncoder)) dst n ec : outcome bytes :=
  match fields with
  | [] => Ok dst
  | (name, enc) :: fields =>
      let dst := if first then dst else put_text dst "," in
      v ← ObjectGet n name;
      dst ← match v with
            | None => Ok dst
            | Some v => if is_null v then Ok dst else text ← enc [] v ec; Ok (appendQuoted dst text false)
            end;
      append_text_fields false fields dst n ec
  end.

Definition textCompositeEncoder (fields : list (string * fieldEncoder)) : fieldEncoder := λ dst n ec,
  if negb (bool_decide (Kind n = KindObject)) then errWrongKind "composite"
  else dst ← append_text_fields true fields (put_text dst "(") n ec; Ok (put_text dst ")").

Fixpoint text_fields (rec : Z → outcome fieldEncoder) (cols : list Column) : outcome (list (string * fieldEncoder)) :=
  match cols with
  | [] => Ok []
  | c :: cols => enc ← rec (col_type c); fs ← text_fields rec cols; Ok ((col_name c, enc) :: fs)
  end.

Fixpoint textModeEncoder (fuel : nat) (t : Z) : outcome fieldEncoder :=
  match fuel with
  | O => OutOfFuel
  | S fuel =>
      u ← Underlying (domain_fuel d) d t;
      match TypeMapByOid d !! u with
      | None => Ok encodeScalarText
      | Some ty =>
          if IsArray d u then
            match ty_elem ty with
            | Some e => elem ← textModeEncoder fuel e; Ok (textArrayEncoder elem)
            | None => Ok encodeScalarText
            end
          else
            match composite_of d ty with
            | Some r => fs ← text_fields (textModeEncoder fuel) (Columns r); Ok (textCompositeEncoder fs)
            | None => Ok encodeScalarText
            end
      end
  end.

(** The encoder of a column's type, and whether it is in binary mode. *)
Definition columnEncoder (t : Z) : outcome (fieldEncoder * bool) :=
  b ← binaryEncoderFor d (type_fuel d) t;
  match b with
  | Some enc => Ok (enc, true)
  | None => enc ← textModeEncoder (type_fuel d) t; Ok (enc, false)
  end.
End text_mode.

Example format_ex : format_instant (Instant 1709251199 120500000) = "2024-02-29T23:59:59.1205Z".
Proof. vm_compute. reflexivity. Qed.
