(* ===== verification/RowBatch.v ===== *)
(** The rows of a write: the batches of [src/query/write_temp.go].

    A batch is one parameter, an array of records in Postgres' binary form, which
    a statement unnests into a temp table.  [rowOID] is the oid of the record type. *)
From Stdlib Require Import ZArith Lia Ascii Strings.Byte.
From S2P Require Import Prelude Cbor CborNode Text Document Catalog MaskSlots TempTable EncodeBase EncodeNumeric EncodeTime EncodeValue EncodeText.
Set Warnings "-register-all".

Record rowMeta := MkRowMeta { RowID : Z; NodeID : Z; ParentID : option Z }.

Record rowBatch := MkRowBatch { rb_general : bool; rb_buf : bytes; rb_count : Z }.

Definition arrayCountOffset : nat := 12.

Definition newBatch (general : bool) (rowOID : Z) : rowBatch :=
  let buf := appendInt32 [] 1 in
  let buf := appendInt32 buf 0 in
  let buf := binaryAppendUint32 buf rowOID in
  let buf := appendInt32 buf 0 in
  let buf := appendInt32 buf 1 in
  MkRowBatch general buf 0.

Definition appendNullField (dst : bytes) (oid : Z) : bytes := appendInt32 (binaryAppendUint32 dst oid) (-1).

Definition appendIntField (dst : bytes) (oid v : Z) (size : Z) : bytes :=
  let dst := appendInt32 (binaryAppendUint32 dst oid) size in
  if size =? 4 then appendInt32 dst v else appendInt64 dst v.

Section batch.
Context {N : Type} `{ValueNode N} (d : DbInfos).
Abbreviation fieldEncoder := (bytes → N → option encodeContext → outcome bytes).

(** The encoders of a table's columns. *)
Fixpoint column_encoders (cols : list Column) : outcome (list fieldEncoder) :=
  match cols with
  | [] => Ok []
  | c :: cols => e ← columnEncoder d (col_type c); es ← column_encoders cols; Ok (e.1 :: es)
  end.

(** The values of a row; [None] or a null is a column the row lacks. *)
Fixpoint append_columns (cols : list tempColumn) (encs : list fieldEncoder) (dst : bytes) (vals : list (option N))
    (ec : option encodeContext) : outcome bytes :=
  match cols, encs, vals with
  | c :: cols, enc :: encs, v :: vals =>
      dst ← match v with
            | Some v =>
                if is_null v then Ok (appendNullField dst (tc_oid c))
                else appendLengthPrefixed (binaryAppendUint32 dst (tc_oid c)) v ec enc
            | None => Ok (appendNullField dst (tc_oid c))
            end;
      append_columns cols encs dst vals ec
  | _, _, _ => Ok dst
  end.

Definition append_meta (dst : bytes) (meta : rowMeta) : bytes :=
  let dst := appendIntField dst oidInt4 (RowID meta) 4 in
  let dst := appendIntField dst oidInt4 (NodeID meta) 4 in
  match ParentID meta with
  | Some p => appendIntField dst oidInt4 p 4
  | None => appendNullField dst oidInt4
  end.

Definition addRow (t : tempTable) (encs : list fieldEncoder) (b : rowBatch) (meta : rowMeta) (vals : list (option N))
    (mask : list Z) (ec : option encodeContext) : outcome rowBatch :=
  if negb (length vals =? length (tt_cols t))%nat || negb (length mask =? tt_maskWords t)%nat
  then errorf "write: a row has %d values and %d mask words, the table needs %d and %d"
  else
    let start := length (rb_buf b) in
    let buf := rb_buf b ++ repeat (zb 0) 4 in
    let nfields := Z.of_nat (length (tt_cols t)) + Z.of_nat (tt_maskWords t) + (if rb_general b then 3 else 0) in
    let buf := appendInt32 buf nfields in
    let buf := if rb_general b then append_meta buf meta else buf in
    buf ← append_columns (tt_cols t) encs buf vals ec;
    let buf := foldl (λ buf w, appendIntField buf oidInt8 w 8) buf mask in
    buf ← putInt32 buf start (Z.of_nat (length buf) - Z.of_nat start - 4);
    Ok (MkRowBatch (rb_general b) buf (rb_count b + 1)).
End batch.

Definition Len (b : rowBatch) : Z := rb_count b.

(** An array with no element has no dimension. *)
Definition param (b : rowBatch) : outcome bytes :=
  if rb_count b =? 0 then
    oid ← slice (rb_buf b) 8 12;
    Ok (binaryAppendUint32 (appendInt32 (appendInt32 [] 0) 0) (be_value oid))
  else putInt32 (rb_buf b) arrayCountOffset (rb_count b).
