(* ===== verification/EncodeFacts.v ===== *)
(** Every encoder appends: what it writes does not depend on what is there. *)
From Stdlib Require Import ZArith Lia Ascii Strings.Byte.
From S2P Require Import Prelude Cbor CborNode CborNodeFacts Text Document DocumentLaws Catalog MaskSlots TempTable EncodeBase EncodeNumeric EncodeTime EncodeValue EncodeText RowBatch.
Set Warnings "-register-all".
#[local] Set Default Proof Using "Type*".

(** What the accessors of a payload promise: the interface's laws, and that the
    others return on a node that denotes a document; a UUID has 16 bytes, and the
    nesting bounds the document's height. *)
Class ValueLaws (N : Type) `{ValueNode N} := {
  value_Laws :: NodeLaws N;
  law_StrictBytes (n : N) t : denotes n t → returns (StrictBytes n);
  law_Instant (n : N) t : denotes n t → returns (Instant_ n);
  law_Days (n : N) t : denotes n t → returns (Days n);
  law_decimal_text (n : N) t : denotes n t → returns (decimal_text n);
  law_nodeJSON (n : N) t : denotes n t → returns (nodeJSON n);
  law_UUID (n : N) t b : denotes n t → Kind n = KindUUID → StrictBytes n = Ok b → length b = 16%nat;
  law_nesting (n : N) t : denotes n t → (height t ≤ nesting n)%nat;
}.

#[export] Instance cbor_ValueLaws : ValueLaws cborNode.
Proof.
  refine {| value_Laws := cbor_NodeLaws |}; intros [c n] t.
  6: intros b.
  all: intros Hd; change (cbor_denotes c n t) in Hd; cbn [StrictBytes Instant_ Days decimal_text nodeJSON nesting cbor_ValueNode];
    unfold cbor_StrictBytes, cbor_Instant, cbor_Days, decimalText, cbor_bytes; cbn [cn cn_doc].
  7: exact (height_arena _ _ _ Hd).
  5: { eapply writeJSON_returns; [exact Hd|exact (height_arena _ _ _ Hd)]. }
  all: destruct Hd as [nd v s Hl Hs|nd ts Hi Hb Hk|nd ms Hi Hb Hk].
  all: try (unfold integerText; rewrite Hi; exact I).
  1: destruct Hl; match goal with H : item _ = _ |- _ => rewrite H; clear H end; try exact I;
     match goal with H : cnode_bytes _ _ = _ |- _ => rewrite H; exact I end.
  1: { destruct Hl as [| | | | | | | | | | | |k t Hi He Ht| |]; match goal with H : item _ = _ |- _ => rewrite H; clear H end; try exact I.
       unfold at_index. rewrite He, Nat2Z.id, Ht. exact I. }
  1: destruct Hl; match goal with H : item _ = _ |- _ => rewrite H; exact I end.
  1: { unfold integerText, at_index. destruct Hl; match goal with H : item _ = _ |- _ => rewrite H; clear H end;
       lazymatch goal with
       | |- context [Float64frombits ?z] => destruct (Float64frombits z); exact I
       | |- context [strs] => idtac
       | |- _ => exact I
       end.
       - rewrite decide_False by congruence. rewrite decide_True by done.
         match goal with H : strs _ !! _ = _ |- _ => rewrite H end. exact I.
       - rewrite decide_True by done. match goal with H : strs _ !! _ = _ |- _ => rewrite H end. exact I. }
  all: cbn [Kind value_Node cbor_ValueNode cbor_Node]; unfold cbor_Kind; cbn [cn].
  2-3: by rewrite Hi.
  destruct Hl; match goal with H : item _ = _ |- _ => rewrite H; clear H end; intros [=] [=]; congruence.
Defined.

(** A node of a document. *)
Definition valid {N} `{ValueLaws N} (n : N) : Prop := ∃ t, denotes n t.

Lemma valid_items {N} `{ValueLaws N} (n : N) ns : valid n → ArrayItems n = Ok ns → Forall valid ns.
Proof.
  intros [t Ht] Hn. pose proof (law_ArrayItems n t Ht) as Hl. destruct (shape_items (tree_shape t)) as [ts|].
  - destruct Hl as (ns' & Hns & Hf). assert (ns = ns') as -> by congruence. clear -Hf.
    induction Hf; constructor; [by eexists|done].
  - destruct Hl as [msg Hm]. congruence.
Qed.
Lemma valid_get {N} `{ValueLaws N} (n v : N) k : valid n → ObjectGet n k = Ok (Some v) → valid v.
Proof.
  intros [t Ht] Hn. pose proof (law_ObjectGet n t Ht k) as Hl. destruct (shape_get (tree_shape t) k) as [t'|].
  - destruct Hl as (v' & Hv & Hd). assert (v = v') as -> by congruence. by exists t'.
  - congruence.
Qed.

Section appending.
Context {N : Type} `{ValueLaws N} (d : DbInfos).
Abbreviation fieldEncoder := (bytes → N → option encodeContext → outcome bytes).

(** A step that appends to what it gets. *)
Definition extends (f : bytes → outcome bytes) : Prop := ∀ dst, f dst = (b ← f []; Ok (dst ++ b)).
Definition appends (enc : fieldEncoder) : Prop := ∀ n ec, valid n → extends (λ dst, enc dst n ec).

Lemma extends_const b : extends (λ dst, Ok (dst ++ b)).
Proof. done. Qed.
Lemma extends_ret : extends Ok.
Proof. intros dst. cbn. by rewrite app_nil_r. Qed.
Lemma extends_bind {A} (m : outcome A) f : (∀ a, extends (f a)) → extends (λ dst, a ← m; f a dst).
Proof. intros Hf dst. destruct m; cbn; [apply Hf|done..]. Qed.
Lemma extends_err (m : outcome bytes) : (∀ b, m ≠ Ok b) → extends (λ _, m).
Proof. intros Hm dst. destruct m; [by destruct (Hm a)|done..]. Qed.
Lemma extends_then f g : extends f → extends g → extends (λ dst, dst ← f dst; g dst).
Proof.
  intros Hf Hg dst. rewrite (Hf dst). destruct (f []) as [b| | |]; cbn; [|done..].
  rewrite (Hg (dst ++ b)), (Hg b). destruct (g []); cbn; [|done..]. by rewrite (assoc_L (++)).
Qed.
Lemma extends_after b f : extends f → extends (λ dst, f (dst ++ b)).
Proof. intros Hf dst. rewrite (Hf (dst ++ b)). cbn. rewrite (Hf b). destruct (f []); cbn; [|done..]. by rewrite (assoc_L (++)). Qed.
Lemma extends_ext f g : (∀ dst, f dst = g dst) → extends g → extends f.
Proof. intros E Hg dst. by rewrite !E, Hg. Qed.
Lemma extends_out f dst out : extends f → f dst = Ok out → ∃ b, f [] = Ok b ∧ out = dst ++ b.
Proof. intros Hf Ho. rewrite (Hf dst) in Ho. destruct (f []); cbn in Ho; simplify_eq. eauto. Qed.

Lemma extends_errorc c m : extends (λ _, errorc c m).
Proof. by apply extends_err. Qed.
Lemma extends_wrong_kind typ : extends (λ _, errWrongKind typ).
Proof. by apply extends_err. Qed.
Lemma extends_bad_value typ : extends (λ _, errBadValue typ).
Proof. by apply extends_err. Qed.
Lemma extends_out_of_range typ : extends (λ _, errOutOfRange typ).
Proof. apply extends_err. unfold errOutOfRange. by destruct (isDateTimeType typ). Qed.
End appending.

Create HintDb extends.
#[export] Hint Resolve extends_const extends_ret extends_errorc extends_wrong_kind extends_bad_value extends_out_of_range : extends.
#[export] Hint Resolve extends_bind extends_then : extends.

(** Follow the code to where it appends. *)
Ltac extends :=
  repeat first
    [ progress intros
    | solve [eauto 2 with extends]
    | match goal with
      | |- extends (λ _, mbind _ _) => apply extends_bind
      | |- extends (λ dst, match ?x with _ => _ end) => destruct x
      | |- extends (λ dst, Ok (match ?x with _ => _ end)) => destruct x
      end ].

Section scalars.
Context {N : Type} `{ValueLaws N} (d : DbInfos).
Abbreviation fieldEncoder := (bytes → N → option encodeContext → outcome bytes).

Lemma words_extend v n : extends (λ dst, Ok (dst ++ be_bytes n v)).
Proof. done. Qed.

Lemma encodeInt_appends bits : appends (N := N) (encodeInt bits).
Proof.
  unfold encodeInt, appendInt16, appendInt32, appendInt64. intros n ec Hn. apply extends_bind. intros text.
  destruct (ParseInt10 bits text) as [[]|v]; extends.
Qed.

Lemma encodeFloat_appends bits : appends (N := N) (encodeFloat bits).
Proof. unfold encodeFloat. intros n ec Hn. extends. Qed.

Lemma append_groups_extends neg ds p dscale : extends (λ dst, append_groups dst neg ds p dscale).
Proof.
  unfold append_groups, append_header, appendInt16, binaryAppendUint16. destruct (_ || _); [extends|].
  set (l := seq 0 _). clearbody l. intros dst. cbn.
  match goal with |- Ok (foldl ?f ?a l) = Ok (_ ++ foldl _ ?b _) => assert (∀ x y, foldl f (x ++ y) l = x ++ foldl f y l) as E end.
  { induction l as [|g l IH]; intros x y; [done|]. cbn. by rewrite <-(assoc_L (++)), IH. }
  rewrite <-E. by rewrite <-!(assoc_L (++)).
Qed.

Lemma appendNumeric_extends text : extends (λ dst, appendNumeric dst text).
Proof.
  unfold appendNumeric. destruct (numericSpecial text).
  { unfold append_header, appendInt16, binaryAppendUint16. intros dst. cbn. by rewrite <-!(assoc_L (++)). }
  destruct (split_sign text) as [neg s]. destruct (scan_mantissa s) as [[int frac] r].
  destruct (_ && _); [extends|]. apply extends_bind. intros exp. cbv zeta. destruct (_ <? _); [extends|].
  destruct (String.eqb _ ""); [|apply append_groups_extends].
  unfold append_header, appendInt16, binaryAppendUint16. intros dst. cbn. by rewrite <-!(assoc_L (++)).
Qed.

Lemma encodeNumeric_appends : appends (N := N) encodeNumeric.
Proof. unfold encodeNumeric. intros n ec Hn. apply extends_bind, appendNumeric_extends. Qed.

Lemma encodeBool_appends : appends (N := N) encodeBool.
Proof. unfold encodeBool. intros n ec Hn. extends. Qed.

Lemma encodeText_appends : appends (N := N) encodeText.
Proof. unfold encodeText, errBadCharacter. intros n ec Hn. extends. Qed.

Lemma encodeUUID_appends : appends (N := N) encodeUUID.
Proof. unfold encodeUUID, uuid_text. intros n ec Hn. extends. Qed.

Lemma bytea_bytes_extends s : extends (λ dst, bytea_bytes dst s).
Proof.
  remember (String.length s) as k eqn:Hk. revert s Hk. induction (lt_wf k) as [k _ IH]. intros s ->.
  destruct s as [|c1 [|c2 s]]; cbn [bytea_bytes]; [apply extends_ret..|].
  destruct (hexVal c1) as [a|]; [|extends]. destruct (hexVal c2) as [b|]; [|extends].
  apply (extends_after [zb (Z.lor (a ≪ 4) b)] (λ dst, bytea_bytes dst s)). eapply IH; [|done]. cbn. lia.
Qed.

Lemma encodeBytea_appends : appends (N := N) encodeBytea.
Proof.
  unfold encodeBytea. intros n ec Hn. destruct (decide _); [extends|]. destruct (negb _); [extends|].
  apply extends_bind. intros s. unfold bytea_text.
  repeat match goal with |- extends (λ dst, match ?x with _ => _ end) => destruct x end;
    try apply bytea_bytes_extends; extends.
Qed.

Lemma encodeJSON_appends : appends (N := N) encodeJSON.
Proof. unfold encodeJSON, errBadCharacter. intros n ec Hn. extends. Qed.
Lemma encodeJSONB_appends : appends (N := N) encodeJSONB.
Proof. intros n ec Hn. by apply (extends_after [zb 1] (λ dst, encodeJSON dst n ec)), encodeJSON_appends. Qed.

Lemma encodeDate_appends : appends (N := N) encodeDate.
Proof. unfold encodeDate, encode_days, encode_date_text, appendInt32. intros n ec Hn. extends. Qed.

Lemma encodeTimestampText_appends typ : appends (N := N) (λ dst n, encodeTimestampText dst n typ).
Proof.
  unfold encodeTimestampText, encode_instant, encode_timestamp_text, errUnknownZone, appendInt64. intros n ec Hn.
  extends; cbv zeta; extends.
Qed.
End scalars.

(** * Arrays, records and their binary form *)

(** A value with its length, -1 for NULL. *)
Definition value_bytes (v : option bytes) : bytes :=
  match v with
  | None => be_bytes 4 (-1)
  | Some b => be_bytes 4 (Z.of_nat (length b)) ++ b
  end.
Definition values_bytes (vs : list (option bytes)) : bytes := concat (map value_bytes vs).
Definition field_bytes (f : Z * option bytes) : bytes := be_bytes 4 f.1 ++ value_bytes f.2.
Definition fields_bytes (fs : list (Z * option bytes)) : bytes := concat (map field_bytes fs).
Definition record_bytes (fs : list (Z * option bytes)) : bytes := be_bytes 4 (Z.of_nat (length fs)) ++ fields_bytes fs.
Definition array_bytes (dims : list Z) (flags oid : Z) (vs : list (option bytes)) : bytes :=
  be_bytes 4 (Z.of_nat (length dims)) ++ be_bytes 4 flags ++ be_bytes 4 oid ++
  concat (map (λ s, be_bytes 4 s ++ be_bytes 4 1) dims) ++ values_bytes vs.

Section nesting_encoders.
Context {N : Type} `{ValueLaws N} (d : DbInfos).
Abbreviation fieldEncoder := (bytes → N → option encodeContext → outcome bytes).
Implicit Types (n : N) (ec : option encodeContext) (enc elem : fieldEncoder).

Lemma putInt32_zeros dst b v : putInt32 (dst ++ repeat (zb 0) 4 ++ b) (length dst) v = Ok (dst ++ be_bytes 4 v ++ b).
Proof using Type.
  unfold putInt32. rewrite !length_app. cbn [repeat length].
  destruct (Nat.leb_spec (length dst + 4) (length dst + (4 + length b))); [|lia]. do 2 f_equal.
  - by rewrite take_app_length.
  - f_equal. rewrite drop_app_ge by lia. by replace (length dst + 4 - length dst)%nat with 4%nat by lia.
Qed.

Lemma appendLengthPrefixed_eq enc n ec dst :
  appends enc → valid n → appendLengthPrefixed dst n ec enc = (b ← enc [] n ec; Ok (dst ++ value_bytes (Some b))).
Proof using Type.
  intros He Hn. unfold appendLengthPrefixed. rewrite (He n ec Hn (dst ++ repeat (zb 0) 4)).
  destruct (enc [] n ec) as [b| | |]; cbn [mbind outcome_bind]; [|done..].
  rewrite <-(assoc_L (++)), putInt32_zeros. cbn [value_bytes]. do 4 f_equal.
  rewrite !length_app. cbn [repeat length]. lia.
Qed.

(** The value of a node, NULL where it has none. *)
Definition value_of enc ec n : outcome (option bytes) := if is_null n then Ok None else b ← enc [] n ec; Ok (Some b).
Definition value_opt enc ec (v : option N) : outcome (option bytes) :=
  match v with Some n => value_of enc ec n | None => Ok None end.

Fixpoint element_values elem ec (leaves : list N) : outcome (list (option bytes)) :=
  match leaves with
  | [] => Ok []
  | l :: leaves => v ← value_of elem ec l; vs ← element_values elem ec leaves; Ok (v :: vs)
  end.

Lemma append_elements_eq elem ec leaves dst :
  appends elem → Forall valid leaves →
  append_elements elem dst leaves ec = (vs ← element_values elem ec leaves; Ok (dst ++ values_bytes vs)).
Proof using Type.
  intros He Hl. revert dst. induction Hl as [|l leaves Hl Hls IH]; intros dst; cbn [append_elements element_values].
  - cbn. by rewrite app_nil_r.
  - unfold value_of. destruct (is_null l); cbn [mbind outcome_bind].
    + rewrite IH. destruct (element_values elem ec leaves); cbn; [|done..]. unfold appendInt32. by rewrite <-(assoc_L (++)).
    + rewrite appendLengthPrefixed_eq by done. destruct (elem [] l ec) as [b| | |]; cbn [mbind outcome_bind]; [|done..].
      rewrite IH. destruct (element_values elem ec leaves); cbn; [|done..]. by rewrite <-!(assoc_L (++)).
Qed.

Definition flags_of (leaves : list N) : Z := if existsb is_null leaves then 1 else 0.

(** The leaves of an array are values of the document. *)
Lemma sub_shapes_valid rec i inner items p :
  (∀ it q, valid it → rec it = Ok q → Forall valid q.2) → Forall valid items →
  sub_shapes rec i inner items = Ok p → Forall valid p.2.
Proof using Type.
  intros Hr Hi. revert i inner p. induction Hi as [|it items Hit Hitems IH]; intros i inner p; cbn [sub_shapes]; [by intros [= <-]|].
  intros Hok. run_ok. destruct x as [s l].
  match goal with E : rec it = Ok _ |- _ => pose proof (Hr _ _ Hit E) as Hl end. cbn in Hl.
  destruct (_ && _); [by eapply IH|]. run_ok. cbn. apply Forall_app. split; [done|]. by eapply IH.
Qed.

Lemma arrayShape_valid fuel n p : valid n → arrayShape fuel n = Ok p → Forall valid p.2.
Proof using Type.
  revert n p. induction fuel as [|fuel IH]; intros n p Hn; cbn [arrayShape]; [done|].
  destruct (negb _); [done|]. intros Hok. run_ok. destruct x as [|it items]; [by simplify_eq|].
  match goal with E : ArrayItems n = Ok _ |- _ => pose proof (valid_items _ _ Hn E) as Hi end.
  destruct (negb _); [by simplify_eq|].
  match goal with E : _ = Ok p |- _ => revert E end.
  destruct (sub_shapes (arrayShape fuel) 0 [] (it :: items)) as [q| | |] eqn:E; cbn [mbind outcome_bind]; try (by intros [=]).
  pose proof (sub_shapes_valid _ _ _ _ _ IH Hi E). destruct (bool_decide (q.2 = [])); by intros [= <-].
Qed.

Lemma arrayEncoder_eq oid elem dst n ec :
  appends elem → valid n →
  arrayEncoder oid elem dst n ec =
  (p ← arrayShape (nesting n) n; vs ← element_values elem ec p.2;
   Ok (dst ++ array_bytes (map Z.of_nat p.1) (flags_of p.2) oid vs)).
Proof using Type.
  intros He Hn. unfold arrayEncoder. destruct (arrayShape (nesting n) n) as [[sizes leaves]| | |] eqn:Hs; cbn [mbind outcome_bind fst snd]; [|done..].
  pose proof (arrayShape_valid _ _ _ Hn Hs) as Hl. cbn [snd] in Hl. rewrite append_elements_eq by done. destruct (element_values elem ec leaves) as [vs| | |]; cbn [mbind outcome_bind]; [|done..].
  f_equal. unfold array_bytes, flags_of, binaryAppendUint32, appendInt32. rewrite length_map, map_map.
  assert (∀ dst, foldl (λ dst s, (dst ++ be_bytes 4 (Z.of_nat s)) ++ be_bytes 4 1) dst sizes =
    dst ++ concat (map (λ s, be_bytes 4 (Z.of_nat s) ++ be_bytes 4 1) sizes)) as E.
  { clear. induction sizes as [|s sizes IH]; intros dst; cbn [foldl map concat]; [by rewrite app_nil_r|].
    rewrite IH, <-!(assoc_L (++)). done. }
  rewrite E, <-!(assoc_L (++)). done.
Qed.

Lemma arrayEncoder_appends oid elem : appends elem → appends (arrayEncoder oid elem).
Proof using Type.
  intros He n ec Hn dst. rewrite !arrayEncoder_eq by done.
  destruct (arrayShape _ n) as [p| | |]; cbn [mbind outcome_bind]; [|done..]. by destruct (element_values elem ec p.2).
Qed.

Fixpoint field_values (fields : list (compositeField (N := N))) n ec : outcome (list (Z * option bytes)) :=
  match fields with
  | [] => Ok []
  | f :: fields =>
      v ← ObjectGet n (cf_name f);
      b ← value_opt (cf_enc f) ec v;
      fs ← field_values fields n ec;
      Ok ((cf_oid f, b) :: fs)
  end.

Lemma encode_fields_eq fields n ec dst :
  Forall (λ f, appends (cf_enc f)) fields → valid n →
  encode_fields fields dst n ec = (fs ← field_values fields n ec; Ok (dst ++ fields_bytes fs)).
Proof using Type.
  intros Hf Hn. revert dst. induction Hf as [|f fields Hf Hfs IH]; intros dst; cbn [encode_fields field_values].
  - cbn. by rewrite app_nil_r.
  - unfold binaryAppendUint32, appendInt32.
    destruct (ObjectGet n (cf_name f)) as [[v|]| | |] eqn:Hv; cbn [mbind outcome_bind value_opt]; [apply (valid_get n v) in Hv; [|done]|..|done|done|done].
    + unfold value_of. destruct (is_null v); cbn [mbind outcome_bind].
      * rewrite IH. destruct (field_values fields n ec); cbn; [|done..]. by rewrite <-!(assoc_L (++)).
      * rewrite appendLengthPrefixed_eq by done. destruct (cf_enc f [] v ec); cbn [mbind outcome_bind]; [|done..].
        rewrite IH. destruct (field_values fields n ec); cbn; [|done..]. by rewrite <-!(assoc_L (++)).
    + rewrite IH. destruct (field_values fields n ec); cbn; [|done..]. by rewrite <-!(assoc_L (++)).
Qed.

Lemma encode_composite_appends fields :
  Forall (λ f, appends (cf_enc f)) fields → appends (encode_composite fields).
Proof using Type.
  intros Hf n ec Hn dst. unfold encode_composite. destruct (negb _); [done|].
  rewrite !encode_fields_eq by done. destruct (field_values fields n ec); cbn; [|done..].
  unfold appendInt32. by rewrite <-(assoc_L (++)).
Qed.

Lemma scalarEncoderFor_appends u enc : scalarEncoderFor d u = Some enc → appends enc.
Proof.
  unfold scalarEncoderFor, scalarEncoder. destruct (TypeMapByOid d !! u) as [ty|]; [|done].
  destruct (IsEnum ty); [intros [= <-]; apply encodeText_appends|].
  repeat (destruct (u =? _); [intros [= <-];
    first [apply encodeBool_appends | apply encodeBytea_appends | apply encodeText_appends | apply encodeInt_appends |
           apply encodeJSON_appends | apply encodeFloat_appends | apply encodeDate_appends |
           exact (encodeTimestampText_appends _) | apply encodeNumeric_appends | apply encodeUUID_appends | apply encodeJSONB_appends]|]).
  done.
Qed.

Lemma composite_fields_appends rec cols fs :
  (∀ t enc, rec t = Ok (Some enc) → appends enc) →
  composite_fields rec cols = Ok (Some fs) → Forall (λ f, appends (cf_enc (N := N) f)) fs.
Proof using Type.
  intros Hrec. revert fs. induction cols as [|c cols IH]; intros fs; cbn [composite_fields]; [by intros [= <-]|].
  intros Hok. run_ok. match goal with E : rec _ = Ok ?e |- _ => destruct e as [enc|] eqn:He; [|done] end. run_ok.
  match goal with E : composite_fields rec cols = Ok ?l |- _ => destruct l as [l'|] eqn:Hl; [|done] end.
  simplify_eq/=. constructor; [by eapply Hrec|by apply IH].
Qed.

Lemma binaryEncoderFor_appends fuel t enc : binaryEncoderFor d fuel t = Ok (Some enc) → appends enc.
Proof.
  revert t enc. induction fuel as [|fuel IH]; intros t enc; cbn [binaryEncoderFor]; [done|].
  intros Hok. run_ok. destruct (scalarEncoderFor d x) as [e|] eqn:Hs.
  { simplify_eq. by eapply scalarEncoderFor_appends. }
  destruct (TypeMapByOid d !! x) as [ty|]; [|done]. destruct (IsArray d x).
  - destruct (ty_elem ty) as [e|]; [|done]. run_ok.
    match goal with E : binaryEncoderFor d fuel e = Ok ?l |- _ => destruct l as [el|] eqn:Hl; [|done] end.
    simplify_eq/=. apply arrayEncoder_appends. by eapply IH.
  - destruct (composite_of d ty) as [r|]; [|done]. run_ok.
    match goal with E : composite_fields _ _ = Ok ?l |- _ => destruct l as [l'|] eqn:Hl; [|done] end.
    simplify_eq/=. apply encode_composite_appends. eapply composite_fields_appends; [exact IH|done].
Qed.
End nesting_encoders.

Section text_encoders.
Context {N : Type} `{ValueLaws N} (d : DbInfos).
Abbreviation fieldEncoder := (bytes → N → option encodeContext → outcome bytes).

Lemma encodeScalarText_appends : appends (N := N) encodeScalarText.
Proof.
  unfold encodeScalarText, put_text, errBadCharacter. intros n ec Hn.
  destruct (Kind n) eqn:Hk; try (by extends).
  - extends. intros dst. cbn. by rewrite <-!(assoc_L (++)).
  - intros dst. destruct (StrictBytes n) as [b| | |] eqn:Hb; cbn [mbind outcome_bind]; [|done..].
    destruct Hn as [t Ht]. rewrite (law_UUID n t b Ht Hk Hb). cbn [Nat.eqb negb]. by destruct (uuid_string b).
Qed.

Lemma put_text_extends (s : string) : extends (λ dst, Ok (put_text dst s)).
Proof. done. Qed.
Lemma appendQuoted_extends text inArray : extends (λ dst, Ok (appendQuoted dst text inArray)).
Proof. intros dst. unfold appendQuoted. by destruct (negb _). Qed.
Hint Resolve put_text_extends appendQuoted_extends : extends.

Lemma append_text_items_extends (rec : bytes → N → outcome bytes) elem nested first items ec :
  (∀ n, extends (λ dst, rec dst n)) → extends (λ dst, append_text_items rec elem nested first dst items ec).
Proof.
  intros Hr. revert first. induction items as [|it items IH]; intros first; cbn [append_text_items]; [apply extends_ret|].
  assert (extends (λ dst, dst0 ← (if is_null it then Ok (put_text dst "NULL")
     else if nested then rec dst it else text ← elem [] it ec; Ok (appendQuoted dst text true));
     append_text_items rec elem nested false dst0 items ec)) as E.
  { apply extends_then; [|apply IH]. destruct (is_null it); [extends|]. destruct nested; [apply Hr|extends]. }
  destruct first; [exact E|]. exact (extends_after _ _ E).
Qed.

Lemma appendTextArray_extends fuel elem n ec : extends (λ dst, appendTextArray fuel elem dst n ec).
Proof.
  revert n. induction fuel as [|fuel IH]; intros n; cbn [appendTextArray]; [by apply extends_err|].
  destruct (negb _); [extends|]. apply extends_bind. intros items.
  apply (extends_then (λ dst, append_text_items _ _ _ _ (put_text dst "{") _ _) (λ dst, Ok (put_text dst "}"))); [|extends].
  apply (extends_after (bytes_of_string "{") (λ dst, append_text_items _ _ _ _ dst _ _)), append_text_items_extends, IH.
Qed.

Lemma append_text_fields_extends first (fields : list (string * fieldEncoder)) n ec :
  extends (λ dst, append_text_fields first fields dst n ec).
Proof.
  revert first. induction fields as [|[name enc] fields IH]; intros first; cbn [append_text_fields]; [apply extends_ret|].
  assert (extends (λ dst, v ← ObjectGet n name; dst0 ← match v with
      | None => Ok dst
      | Some v => if is_null v then Ok dst else text ← enc [] v ec; Ok (appendQuoted dst text false) end;
     append_text_fields false fields dst0 n ec)) as E.
  { apply extends_bind. intros v. apply extends_then; [|apply IH].
    destruct v as [v|]; [|apply extends_ret]. destruct (is_null v); [apply extends_ret|extends]. }
  destruct first; [exact E|]. exact (extends_after _ _ E).
Qed.

Lemma textModeEncoder_appends fuel t enc : textModeEncoder d fuel t = Ok enc → appends enc.
Proof.
  revert t enc. induction fuel as [|fuel IH]; intros t enc; cbn [textModeEncoder]; [done|].
  intros Hok. run_ok. destruct (TypeMapByOid d !! x) as [ty|]; [|run_ok; apply encodeScalarText_appends].
  destruct (IsArray d x).
  - destruct (ty_elem ty) as [e|]; run_ok; [|apply encodeScalarText_appends].
    intros n ec Hn. apply appendTextArray_extends.
  - destruct (composite_of d ty) as [r|]; run_ok; [|apply encodeScalarText_appends].
    intros n ec Hn. unfold textCompositeEncoder. destruct (negb _); [extends|].
    match goal with |- extends (λ dst, dst0 ← append_text_fields true ?fs _ n ec; _) =>
      apply (extends_then (λ dst, append_text_fields true fs (put_text dst "(") n ec) (λ dst, Ok (put_text dst ")"))) end; [|extends].
    apply (extends_after (bytes_of_string "(") (λ dst, append_text_fields _ _ dst _ _)), append_text_fields_extends.
Qed.

Lemma columnEncoder_appends t p : columnEncoder d t = Ok p → appends p.1.
Proof.
  unfold columnEncoder. destruct (binaryEncoderFor (N := N) d (type_fuel d) t) as [[enc|]| | |] eqn:Hb; cbn [mbind outcome_bind]; try (by intros [=]).
  - intros [= <-]. exact (binaryEncoderFor_appends d _ _ _ Hb).
  - destruct (textModeEncoder (N := N) d (type_fuel d) t) as [enc| | |] eqn:Ht; cbn [mbind outcome_bind]; try (by intros [=]).
    intros [= <-]. exact (textModeEncoder_appends _ _ _ Ht).
Qed.
End text_encoders.
