(* ===== verification/RowBatchFacts.v ===== *)
(** A batch is read back as the rows that were added to it. *)
From Stdlib Require Import ZArith Lia Ascii Strings.Byte.
From S2P Require Import Prelude Cbor CborNode CborNodeFacts CborNodeSafe Text Document DocumentLaws Catalog MaskSlots TempTable TempTableFacts EncodeBase EncodeNumeric EncodeTime EncodeValue EncodeText RowBatch EncodeFacts.
Set Warnings "-register-all".
#[local] Set Default Proof Using "Type*".

(** * Reading arrays and records, as Postgres documents their binary form *)

Definition read_word (l : bytes) : option (Z * bytes) :=
  if (4 <=? length l)%nat then Some (be_value (take 4 l), drop 4 l) else None.

Definition null_length : Z := 2 ^ 32 - 1.

Definition read_value (l : bytes) : option (option bytes * bytes) :=
  '(n, r) ← read_word l;
  if n =? null_length then Some (None, r)
  else if (Z.to_nat n <=? length r)%nat then Some (Some (take (Z.to_nat n) r), drop (Z.to_nat n) r) else None.

Fixpoint read_values (count : nat) (l : bytes) : option (list (option bytes) * bytes) :=
  match count with
  | O => Some ([], l)
  | S count => '(v, r) ← read_value l; '(vs, r) ← read_values count r; Some (v :: vs, r)
  end.

Fixpoint read_fields (count : nat) (l : bytes) : option (list (Z * option bytes) * bytes) :=
  match count with
  | O => Some ([], l)
  | S count =>
      '(oid, r) ← read_word l; '(v, r) ← read_value r; '(fs, r) ← read_fields count r; Some ((oid, v) :: fs, r)
  end.

Definition read_record (l : bytes) : option (list (Z * option bytes)) :=
  '(n, r) ← read_word l;
  '(fs, r) ← read_fields (Z.to_nat n) r;
  if decide (r = []) then Some fs else None.

Fixpoint read_dims (count : nat) (l : bytes) : option (list Z * bytes) :=
  match count with
  | O => Some ([], l)
  | S count => '(s, r) ← read_word l; '(_, r) ← read_word r; '(ss, r) ← read_dims count r; Some (s :: ss, r)
  end.

Record pg_array := MkPgArray { pa_dims : list Z; pa_flags : Z; pa_oid : Z; pa_values : list (option bytes) }.

(** An array without a dimension has no element. *)
Definition elements_of (dims : list Z) : Z := match dims with [] => 0 | _ => foldr Z.mul 1 dims end.

Definition read_array (l : bytes) : option pg_array :=
  '(ndim, r) ← read_word l;
  '(flags, r) ← read_word r;
  '(oid, r) ← read_word r;
  '(dims, r) ← read_dims (Z.to_nat ndim) r;
  '(vs, r) ← read_values (Z.to_nat (elements_of dims)) r;
  if decide (r = []) then Some (MkPgArray dims flags oid vs) else None.

(** * Reading back what is written *)

Definition word (v : Z) : Prop := 0 ≤ v < 2 ^ 32.

Lemma word_check v : (0 <=? v) && (v <? 2 ^ 32) = true → word v.
Proof. intros [?%Z.leb_le ?%Z.ltb_lt]%andb_prop. done. Qed.

Lemma read_word_app v r : word v → read_word (be_bytes 4 v ++ r) = Some (v, r).
Proof.
  intros Hv. unfold read_word. rewrite length_app, length_be_bytes. cbn [Nat.leb Nat.add].
  rewrite take_app_length', drop_app_length' by (by rewrite length_be_bytes).
  rewrite be_value_be_bytes_small; [done|]. exact Hv.
Qed.

(** A value short enough for its length to be told from a NULL. *)
Definition short (v : option bytes) : Prop := ∀ b, v = Some b → Z.of_nat (length b) < 2 ^ 31.

Lemma read_value_app v r : short v → read_value (value_bytes v ++ r) = Some (v, r).
Proof.
  intros Hv. unfold read_value. destruct v as [b|]; cbn [value_bytes].
  - specialize (Hv b eq_refl). rewrite <-(assoc_L (++)), read_word_app by (unfold word; lia). cbn [mbind option_bind].
    unfold null_length. destruct (Z.eqb_spec (Z.of_nat (length b)) (2 ^ 32 - 1)); [lia|].
    rewrite Nat2Z.id, length_app. destruct (Nat.leb_spec (length b) (length b + length r)); [|lia].
    by rewrite take_app_length, drop_app_length.
  - replace (be_bytes 4 (-1)) with (be_bytes 4 null_length) by done.
    by rewrite read_word_app.
Qed.

Lemma read_values_app vs r : Forall short vs → read_values (length vs) (values_bytes vs ++ r) = Some (vs, r).
Proof.
  intros Hvs. unfold values_bytes. induction Hvs as [|v vs Hv Hvs IH]; [done|]. cbn [map concat length read_values].
  rewrite <-(assoc_L (++)), read_value_app by done. cbn [mbind option_bind]. by rewrite IH.
Qed.

Definition good_field (f : Z * option bytes) : Prop := word f.1 ∧ short f.2.

Lemma read_fields_app fs r : Forall good_field fs → read_fields (length fs) (fields_bytes fs ++ r) = Some (fs, r).
Proof.
  intros Hfs. unfold fields_bytes. induction Hfs as [|[oid v] fs [Ho Hv] Hfs IH]; [done|].
  cbn [map concat length read_fields fst snd] in *. unfold field_bytes at 1. cbn [fst snd].
  rewrite <-!(assoc_L (++)), read_word_app by done. cbn [mbind option_bind].
  rewrite read_value_app by done. cbn [mbind option_bind]. by rewrite IH.
Qed.

Lemma read_record_bytes fs :
  Forall good_field fs → Z.of_nat (length fs) < 2 ^ 32 → read_record (record_bytes fs) = Some fs.
Proof.
  intros Hfs Hn. unfold read_record, record_bytes. rewrite read_word_app by (unfold word; lia). cbn [mbind option_bind].
  rewrite Nat2Z.id. rewrite <-(app_nil_r (fields_bytes fs)), read_fields_app by done. cbn [mbind option_bind].
  by rewrite decide_True.
Qed.

Lemma read_dims_app dims r :
  Forall word dims → read_dims (length dims) (concat (map (λ s, be_bytes 4 s ++ be_bytes 4 1) dims) ++ r) = Some (dims, r).
Proof.
  induction 1 as [|s dims Hs Hd IH]; [done|]. cbn [map concat length read_dims].
  rewrite <-!(assoc_L (++)), read_word_app by done. cbn [mbind option_bind].
  rewrite read_word_app by done. cbn [mbind option_bind]. by rewrite IH.
Qed.

Lemma read_array_bytes dims flags oid vs :
  Forall word dims → Z.of_nat (length dims) < 2 ^ 32 → word flags → word oid → Forall short vs →
  elements_of dims = Z.of_nat (length vs) →
  read_array (array_bytes dims flags oid vs) = Some (MkPgArray dims flags oid vs).
Proof.
  intros Hd Hn Hf Ho Hvs He. unfold read_array, array_bytes.
  rewrite read_word_app by (unfold word; lia). cbn [mbind option_bind].
  rewrite read_word_app by done. cbn [mbind option_bind]. rewrite read_word_app by done. cbn [mbind option_bind].
  rewrite Nat2Z.id, read_dims_app by done. cbn [mbind option_bind].
  rewrite He, Nat2Z.id, <-(app_nil_r (values_bytes vs)), read_values_app by done. cbn [mbind option_bind].
  by rewrite decide_True.
Qed.

(** * Batches *)

Definition meta_fields (m : rowMeta) : list (Z * option bytes) :=
  [(oidInt4, Some (be_bytes 4 (RowID m))); (oidInt4, Some (be_bytes 4 (NodeID m)));
   (oidInt4, option_map (be_bytes 4) (ParentID m))].
Definition mask_fields (mask : list Z) : list (Z * option bytes) := map (λ w, (oidInt8, Some (be_bytes 8 w))) mask.

Lemma fields_bytes_cons f fs : fields_bytes (f :: fs) = be_bytes 4 f.1 ++ value_bytes f.2 ++ fields_bytes fs.
Proof. unfold fields_bytes. cbn [map concat]. unfold field_bytes at 1. by rewrite <-(assoc_L (++)). Qed.
Lemma fields_bytes_app a b : fields_bytes (a ++ b) = fields_bytes a ++ fields_bytes b.
Proof. unfold fields_bytes. by rewrite map_app, concat_app. Qed.

(** What a batch holds: the head of an array of one dimension, whose size is not
    filled in, and the records. *)
Definition batch_holds (rowOID : Z) (b : rowBatch) (recs : list bytes) : Prop :=
  rb_count b = Z.of_nat (length recs) ∧
  rb_buf b = be_bytes 4 1 ++ be_bytes 4 0 ++ be_bytes 4 rowOID ++ be_bytes 4 0 ++ be_bytes 4 1 ++ values_bytes (map Some recs).

Lemma newBatch_holds general rowOID : batch_holds rowOID (newBatch general rowOID) [].
Proof. split; [done|]. unfold newBatch, appendInt32, binaryAppendUint32. cbn [rb_buf]. by rewrite <-!(assoc_L (++)). Qed.

Lemma param_bytes rowOID b recs p :
  batch_holds rowOID b recs → word rowOID → param b = Ok p →
  p = array_bytes (if decide (recs = []) then [] else [Z.of_nat (length recs)]) 0 rowOID (map Some recs).
Proof.
  intros [Hc Hb] Ho. unfold param. rewrite Hc, Hb.
  destruct recs as [|r recs].
  - cbn [length]. change (Z.of_nat 0 =? 0) with true. cbv iota. change (slice _ 8 12) with (Ok (be_bytes 4 rowOID)).
    cbn [mbind outcome_bind]. rewrite be_value_be_bytes_small by exact Ho. by intros [= <-].
  - destruct (Z.eqb_spec (Z.of_nat (length (r :: recs))) 0) as [E|_]; [cbn in E; lia|].
    rewrite decide_False by done. set (n := Z.of_nat (length (r :: recs))). set (vs := values_bytes (map Some (r :: recs))).
    unfold putInt32. change (arrayCountOffset + 4 <=? _)%nat with true. cbv iota.
    change (take arrayCountOffset _) with (be_bytes 4 1 ++ be_bytes 4 0 ++ be_bytes 4 rowOID).
    change (drop (arrayCountOffset + 4) _) with (be_bytes 4 1 ++ vs). intros Hp.
    apply (f_equal (λ o, match o with Ok x => x | _ => [] end)) in Hp. cbv beta iota in Hp. subst p.
    unfold array_bytes. cbn [map concat length]. by rewrite app_nil_r, <-!(assoc_L (++)).
Qed.

Section batches.
Context {N : Type} `{ValueLaws N} (d : DbInfos) (t : tempTable) (ec : option encodeContext).
Abbreviation fieldEncoder := (bytes → N → option encodeContext → outcome bytes).
Context (encs : list fieldEncoder) (Hencs : Forall appends encs) (Hlen : length encs = length (tt_cols t)).

(** The fields a row is meant to have: the metadata of a general row, the value
    of each column under its oid, and the presence words. *)
Fixpoint column_values (cols : list tempColumn) (encs : list fieldEncoder) (vals : list (option N)) : outcome (list (Z * option bytes)) :=
  match cols, encs, vals with
  | c :: cols, enc :: encs, v :: vals =>
      b ← value_opt enc ec v; fs ← column_values cols encs vals; Ok ((tc_oid c, b) :: fs)
  | _, _, _ => Ok []
  end.

Abbreviation row := (rowMeta * list (option N) * list Z)%type.
Definition row_fields (general : bool) (r : row) : outcome (list (Z * option bytes)) :=
  cs ← column_values (tt_cols t) encs r.1.2;
  Ok ((if general then meta_fields r.1.1 else []) ++ cs ++ mask_fields r.2).

Definition valid_value (v : option N) : Prop := ∀ n, v = Some n → valid n.

Lemma append_columns_eq cols es dst vals :
  Forall appends es → Forall valid_value vals →
  append_columns cols es dst vals ec = (fs ← column_values cols es vals; Ok (dst ++ fields_bytes fs)).
Proof using Type.
  intros He. revert cols dst vals. induction He as [|enc es He Hes IH]; intros cols dst vals Hv.
  { destruct cols; cbn; by rewrite app_nil_r. }
  destruct cols as [|c cols]; [cbn; by rewrite app_nil_r|]. destruct Hv as [|v vals Hv Hvs]; [cbn; by rewrite app_nil_r|].
  cbn [append_columns column_values]. unfold appendNullField, binaryAppendUint32, appendInt32.
  destruct v as [v|]; cbn [value_opt mbind outcome_bind].
  - specialize (Hv v eq_refl). unfold value_of. destruct (is_null v); cbn [mbind outcome_bind].
    + rewrite IH by done. destruct (column_values cols es vals); cbn [mbind outcome_bind]; [|done..].
      by rewrite fields_bytes_cons, <-!(assoc_L (++)).
    + rewrite appendLengthPrefixed_eq by done. destruct (enc [] v ec); cbn [mbind outcome_bind]; [|done..].
      rewrite IH by done. destruct (column_values cols es vals); cbn [mbind outcome_bind]; [|done..].
      by rewrite fields_bytes_cons, <-!(assoc_L (++)).
  - rewrite IH by done. destruct (column_values cols es vals); cbn [mbind outcome_bind]; [|done..].
    by rewrite fields_bytes_cons, <-!(assoc_L (++)).
Qed.

Lemma append_meta_eq dst m : append_meta dst m = dst ++ fields_bytes (meta_fields m).
Proof using Type.
  unfold append_meta, appendIntField, appendNullField, binaryAppendUint32, appendInt32, meta_fields.
  rewrite !fields_bytes_cons. change (fields_bytes []) with (@nil Byte.byte). rewrite app_nil_r. change (4 =? 4) with true. cbv iota.
  destruct (ParentID m); cbn [fst snd option_map value_bytes]; rewrite ?length_be_bytes; change (Z.of_nat 4) with 4;
    rewrite <-!(assoc_L (++)); done.
Qed.

Lemma append_masks_eq dst mask :
  foldl (λ buf w, appendIntField buf oidInt8 w 8) dst mask = dst ++ fields_bytes (mask_fields mask).
Proof using Type.
  revert dst. induction mask as [|w mask IH]; intros dst; cbn [foldl]; [by rewrite app_nil_r|].
  rewrite IH. unfold appendIntField, binaryAppendUint32, appendInt32, appendInt64. change (8 =? 4) with false. cbv iota.
  unfold mask_fields. cbn [map]. rewrite fields_bytes_cons. cbn [fst snd value_bytes].
  rewrite length_be_bytes. change (Z.of_nat 8) with 8. by rewrite <-!(assoc_L (++)).
Qed.

Lemma column_values_length cols es vals fs :
  length es = length cols → length vals = length cols → column_values cols es vals = Ok fs → length fs = length cols.
Proof using Type.
  revert es vals fs. induction cols as [|c cols IH]; intros [|enc es] [|v vals] fs; cbn [length column_values]; try done; [by intros _ _ [= <-]|].
  intros [= He] [= Hv] Hok. run_ok. cbn. f_equal. eapply IH; [exact He|exact Hv|done].
Qed.

(** Adding a row appends its record. *)
Lemma addRow_appends b meta vals mask b' :
  Forall valid_value vals → addRow t encs b meta vals mask ec = Ok b' →
  ∃ fs, row_fields (rb_general b) (meta, vals, mask) = Ok fs ∧
    rb_buf b' = rb_buf b ++ value_bytes (Some (record_bytes fs)) ∧ rb_count b' = rb_count b + 1 ∧ rb_general b' = rb_general b.
Proof.
  intros Hvv. unfold addRow, row_fields. destruct (Nat.eqb_spec (length vals) (length (tt_cols t))) as [Hv|]; [|done].
  destruct (Nat.eqb_spec (length mask) (tt_maskWords t)) as [Hm|]; [|done]. cbn [negb orb fst snd].
  intros Hok. rewrite append_columns_eq in Hok by done.
  destruct (column_values (tt_cols t) encs vals) as [cs| | |] eqn:Hcs; cbn [mbind outcome_bind] in *; try (by inversion Hok).
  pose proof (column_values_length _ _ _ _ Hlen Hv Hcs) as Hlc.
  set (nf := Z.of_nat (length (tt_cols t)) + _ + _) in *.
  set (fs := (if rb_general b then meta_fields meta else []) ++ cs ++ mask_fields mask).
  assert (Z.of_nat (length fs) = nf) as Hnf.
  { unfold fs, nf, mask_fields. rewrite !length_app, length_map, Hm, Hlc. destruct (rb_general b); cbn; lia. }
  exists fs. split; [done|].
  rewrite append_masks_eq in Hok.
  assert (∀ dst, (if rb_general b then append_meta (appendInt32 dst nf) meta else appendInt32 dst nf) ++ fields_bytes cs ++ fields_bytes (mask_fields mask)
    = dst ++ record_bytes fs) as E.
  { intros dst. unfold record_bytes, appendInt32. rewrite Hnf. unfold fs. rewrite !fields_bytes_app.
    destruct (rb_general b); [rewrite append_meta_eq|]; by rewrite <-!(assoc_L (++)). }
  rewrite <-(assoc_L (++)), E, <-(assoc_L (++)), putInt32_zeros in Hok. cbn [mbind outcome_bind] in Hok.
  apply (f_equal (λ o, match o with Ok x => x | _ => b end)) in Hok. cbv beta iota in Hok. subst b'.
  cbn [rb_buf rb_count rb_general]. split; [|done]. unfold value_bytes.
  match goal with |- _ ++ be_bytes 4 ?x ++ _ = _ ++ be_bytes 4 ?y ++ _ => replace x with y; [done|] end.
  rewrite !length_app. cbn [repeat length]. lia.
Qed.

Fixpoint add_rows (b : rowBatch) (rows : list row) : outcome rowBatch :=
  match rows with
  | [] => Ok b
  | r :: rows => b ← addRow t encs b r.1.1 r.1.2 r.2 ec; add_rows b rows
  end.

Definition row_written (general : bool) (r : row) (rec : bytes) : Prop :=
  ∃ fs, row_fields general r = Ok fs ∧ rec = record_bytes fs.

(** A row whose values are of a document. *)
Definition valid_row (r : row) : Prop := Forall valid_value r.1.2.

Lemma add_rows_holds rowOID rows b b' recs :
  Forall valid_row rows → batch_holds rowOID b recs → add_rows b rows = Ok b' →
  ∃ recs', batch_holds rowOID b' (recs ++ recs') ∧ Forall2 (row_written (rb_general b)) rows recs'.
Proof.
  intros Hv. revert b recs. induction Hv as [|r rows Hr Hv IH]; intros b recs Hb; cbn [add_rows].
  { intros [= <-]. exists []. rewrite app_nil_r. split; [done|constructor]. }
  destruct r as [[meta vals] mask]. cbn [fst snd].
  destruct (addRow t encs b meta vals mask ec) as [b1| | |] eqn:Ha; cbn [mbind outcome_bind]; [|done..].
  apply addRow_appends in Ha as (fs & Hfs & Hbuf & Hcount & Hgen); [|exact Hr]. intros Hrest.
  assert (batch_holds rowOID b1 (recs ++ [record_bytes fs])) as Hb1.
  { destruct Hb as [Hc Hb]. split; [rewrite Hcount, Hc, length_app; cbn; lia|].
    rewrite Hbuf, Hb, map_app. unfold values_bytes. rewrite map_app, concat_app. cbn [map concat].
    by rewrite app_nil_r, <-!(assoc_L (++)). }
  destruct (IH _ _ Hb1 Hrest) as (recs' & Hb' & Hrows). rewrite Hgen in Hrows.
  exists (record_bytes fs :: recs'). split; [by rewrite <-(assoc_L (++)) in Hb'|].
  constructor; [by exists fs|done].
Qed.

End batches.

(** * The round trip *)

Lemma value_in_values vs b : Some b ∈ vs → (length b ≤ length (values_bytes vs))%nat.
Proof.
  intros Hin. unfold values_bytes. induction vs as [|v vs IH]; [by apply not_elem_of_nil in Hin|].
  cbn [map concat]. rewrite length_app. apply elem_of_cons in Hin as [<- | Hin]; [|specialize (IH Hin); lia].
  cbn [value_bytes]. rewrite length_app. lia.
Qed.
Lemma values_count vs : (4 * length vs ≤ length (values_bytes vs))%nat.
Proof.
  unfold values_bytes. induction vs as [|v vs IH]; [done|]. cbn [map concat length]. rewrite length_app.
  assert (4 ≤ length (value_bytes v))%nat; [|lia]. destruct v; cbn [value_bytes]; rewrite ?length_app, length_be_bytes; lia.
Qed.
Lemma field_in_fields fs f b : f ∈ fs → f.2 = Some b → (length b ≤ length (fields_bytes fs))%nat.
Proof.
  intros Hin Hb. induction fs as [|g fs IH]; [by apply not_elem_of_nil in Hin|].
  rewrite fields_bytes_cons, !length_app. apply elem_of_cons in Hin as [-> | Hin]; [|specialize (IH Hin); lia].
  rewrite Hb. cbn [value_bytes]. rewrite length_app. lia.
Qed.
Lemma fields_count fs : (4 * length fs ≤ length (fields_bytes fs))%nat.
Proof.
  induction fs as [|f fs IH]; [done|]. rewrite fields_bytes_cons, !length_app, length_be_bytes. cbn [length]. lia.
Qed.

(** A record of words that is not too long is read back. *)
Lemma record_read_back fs :
  Forall (λ f, word f.1) fs → Z.of_nat (length (record_bytes fs)) < 2 ^ 31 → read_record (record_bytes fs) = Some fs.
Proof.
  intros Hw Hl. unfold record_bytes in Hl. rewrite length_app, length_be_bytes in Hl.
  pose proof (fields_count fs). apply read_record_bytes; [|lia].
  apply Forall_forall. intros f Hf. split; [by apply (proj1 (Forall_forall _ _) Hw)|].
  intros b Hb. pose proof (field_in_fields fs f b Hf Hb). lia.
Qed.

Section round_trip.
Context {N : Type} `{ValueLaws N} (d : DbInfos).
Abbreviation fieldEncoder := (bytes → N → option encodeContext → outcome bytes).

Lemma column_encoders_appends cols (encs : list fieldEncoder) :
  column_encoders d cols = Ok encs → Forall appends encs ∧ length encs = length cols.
Proof.
  revert encs. induction cols as [|c cols IH]; intros encs; cbn [column_encoders]; [by intros [= <-]|].
  destruct (columnEncoder (N := N) d (col_type c)) as [e| | |] eqn:He; cbn [mbind outcome_bind]; try (by intros [=]).
  destruct (column_encoders (N := N) d cols) as [es| | |]; cbn [mbind outcome_bind]; try (by intros [=]).
  intros [= <-]. destruct (IH es eq_refl) as [Ha Hl]. split; [constructor; [exact (columnEncoder_appends d _ _ He)|done]|].
  cbn. by rewrite Hl.
Qed.

Lemma column_values_words ec cols (encs : list fieldEncoder) vals fs :
  Forall (λ c, word (tc_oid c)) cols → column_values ec cols encs vals = Ok fs → Forall (λ f, word f.1) fs.
Proof using Type.
  intros Hw. revert encs vals fs. induction Hw as [|c cols Hc Hw IH]; intros encs vals fs; [by intros [= <-]|].
  destruct encs as [|enc encs]; [by intros [= <-]|]. destruct vals as [|v vals]; [by intros [= <-]|].
  cbn [column_values]. intros Hok. run_ok. constructor; [done|]. by eapply IH.
Qed.

(** C3: The rows added to a batch are the rows its parameter is read as: as many
    records, each with the row's metadata, its columns and its presence words. *)
Theorem batch_round_trip (t : tempTable) ec (encs : list fieldEncoder) general rowOID rows b p :
  column_encoders d (Columns (tt_rel t)) = Ok encs → length (Columns (tt_rel t)) = length (tt_cols t) →
  Forall (λ c, word (tc_oid c)) (tt_cols t) → word rowOID → Forall valid_row rows →
  add_rows t ec encs (newBatch general rowOID) rows = Ok b → param b = Ok p → Z.of_nat (length p) < 2 ^ 31 →
  ∃ recs, read_array p =
      Some (MkPgArray (if decide (rows = []) then [] else [Z.of_nat (length rows)]) 0 rowOID (map Some recs)) ∧
    Forall2 (λ r rec, ∃ fs, row_fields t ec encs general r = Ok fs ∧ read_record rec = Some fs) rows recs.
Proof.
  intros Hencs Hcols Hoids Ho Hv Hadd Hp Hsize. apply column_encoders_appends in Hencs as [Ha Hl].
  destruct (add_rows_holds t ec encs Ha (eq_trans Hl Hcols) rowOID rows _ _ [] Hv (newBatch_holds general rowOID) Hadd) as (recs & Hb & Hrows).
  cbn [app rb_general newBatch] in Hb, Hrows. apply (param_bytes rowOID b recs p Hb Ho) in Hp.
  assert (rows = [] ↔ recs = []) as Hempty by (destruct Hrows; done).
  assert (length rows = length recs) as Hlen by (by eapply Forall2_length).
  assert (length (values_bytes (map Some recs)) ≤ length p)%nat as Hvals.
  { rewrite Hp. unfold array_bytes. rewrite !length_app. lia. }
  exists recs. split.
  - pose proof (values_count (map Some recs)) as Hc. rewrite length_map in Hc.
    assert (Forall short (map Some recs)) as Hshort.
    { apply Forall_map, Forall_forall. intros r Hr b' [= <-]. assert (Some r ∈ map Some recs) as Hin by by apply list_elem_of_In, in_map, list_elem_of_In.
      pose proof (value_in_values _ _ Hin). lia. }
    rewrite Hp. destruct (decide (recs = [])) as [Hr|Hr].
    + rewrite decide_True by tauto. apply read_array_bytes; try done. by rewrite Hr.
    + rewrite decide_False by tauto. rewrite Hlen. apply read_array_bytes; try done.
      * constructor; [unfold word; lia|constructor].
      * cbn [elements_of foldr]. rewrite length_map. lia.
  - assert (Forall (λ r, Z.of_nat (length r) < 2 ^ 31) recs) as Hsz.
    { apply Forall_forall. intros r Hr.
      assert (Some r ∈ map Some recs) as Hin by by apply list_elem_of_In, in_map, list_elem_of_In.
      pose proof (value_in_values _ _ Hin). lia. }
    clear -Hrows Hsz Hoids. induction Hrows as [|r rec rows recs (fs & Hfs & ->) Hrows IH]; [constructor|].
    inversion Hsz as [|? ? Hs Hsz']; subst. constructor; [|by apply IH]. exists fs. split; [done|].
    apply record_read_back; [|done]. unfold row_fields in Hfs. run_ok. apply Forall_app. split.
    { destruct general; [|constructor]. unfold meta_fields. repeat (constructor; [done|]). constructor. }
    apply Forall_app. split; [by eapply column_values_words|]. unfold mask_fields. apply Forall_map, Forall_forall. done.
Qed.
End round_trip.

(** ** A batch of two rows *)

(** The value of a document read from bytes. *)
Lemma read_valid p bs c i n : NewCBORNode p bs = Ok (c, i) → nodes c !! i = Some n → valid (CborNodeRef c n).
Proof.
  intros Hd Hn. destruct (NewCBORNode_cases p bs) as [(c' & i' & v & Hd' & _ & Hr)|[e He]]; [|congruence].
  assert (c' = c ∧ i' = i) as [-> ->] by (split; congruence).
  destruct (reads_denotes _ _ _ _ Hr) as (n' & t & Hn' & Ht). assert (n' = n) as -> by congruence. exists t. exact Ht.
Qed.

Definition no_instants : string → option instant := λ _, None.
Definition read_root (bs : bytes) : option cborNode :=
  match NewCBORNode no_instants bs with
  | Ok (c, i) => option_map (CborNodeRef c) (nodes c !! i)
  | _ => None
  end.
Lemma read_root_valid bs n : read_root bs = Some n → valid n.
Proof.
  unfold read_root. destruct (NewCBORNode no_instants bs) as [[c i]| | |] eqn:E; try done.
  destruct (nodes c !! i) as [nd|] eqn:Hn; [|done]. intros [= <-]. by eapply read_valid.
Qed.

Definition box_columns : list Column := [typed_column "id" oidInt4; typed_column "name" oidText].
Definition box_table : tempTable :=
  MkTempTable 1 (MkRelation (MkIdent "public" "boxes") false false false false box_columns ∅ 0 None ∅ ∅ ∅ ∅) "__rel_"
    [MkTempColumn "id" "int4" oidInt4 true; MkTempColumn "name" "text" oidText true] 1.
Definition box_types : DbInfos :=
  MkDbInfos ∅ ∅ [] ∅ {[ oidInt4 := int4; oidText := MkType (MkIdent "pg_catalog" "text") None None None None false [] ]} ["public"].
Definition box_id : option cborNode := read_root [zb 7].
Definition box_name : option cborNode := read_root [zb 98; zb 104; zb 105].
Definition box_rows : list (rowMeta * list (option cborNode) * list Z) :=
  [(MkRowMeta 1 0 None, [box_id; box_name], [3]); (MkRowMeta 2 0 (Some 1), [box_id; None], [1])].

Lemma box_rows_valid : Forall valid_row box_rows.
Proof.
  assert (valid_value box_id ∧ valid_value box_name) as [Hi Hn] by (split; intros n Hn; exact (read_root_valid _ n Hn)).
  unfold box_rows. repeat (apply Forall_cons; split); try apply Forall_nil; cbn [fst snd];
    repeat (apply Forall_cons; split); try apply Forall_nil; done.
Qed.

(** What a computation returns, [x] where it fails. *)
Definition result {A} (x : A) (m : outcome A) : A := match m with Ok a => a | _ => x end.
Lemma result_ok {A} (x : A) m : is_ok m = true → m = Ok (result x m).
Proof. by destruct m. Qed.

Definition box_encoders : list (bytes → cborNode → option encodeContext → outcome bytes) :=
  result [] (column_encoders box_types box_columns).
Lemma box_encoders_ok : column_encoders (N := cborNode) box_types box_columns = Ok box_encoders.
Proof. apply result_ok. vm_compute. reflexivity. Qed.
Definition box_batch : rowBatch :=
  result (newBatch true 0) (add_rows box_table None box_encoders (newBatch true 2249) box_rows).
Definition box_param : bytes := result [] (param box_batch).

Lemma batch_round_trip_witness :
  add_rows box_table None box_encoders (newBatch true 2249) box_rows = Ok box_batch ∧ param box_batch = Ok box_param ∧
  ∃ recs, read_array box_param = Some (MkPgArray [2] 0 2249 (map Some recs)).
Proof.
  assert (add_rows box_table None box_encoders (newBatch true 2249) box_rows = Ok box_batch) as Hadd.
  { apply result_ok. vm_compute. reflexivity. }
  assert (param box_batch = Ok box_param) as Hp by (apply result_ok; vm_compute; reflexivity).
  split; [exact Hadd|]. split; [exact Hp|].
  assert (Forall (λ c, word (tc_oid c)) (tt_cols box_table)) as Hw.
  { apply Forall_cons_2; [|apply Forall_cons_2; [|apply Forall_nil_2]]; apply word_check; reflexivity. }
  assert (word 2249) as Ho by (apply word_check; reflexivity).
  assert (Z.of_nat (length box_param) < 2 ^ 31) as Hs by (apply Z.ltb_lt; vm_compute; reflexivity).
  destruct (batch_round_trip (N := cborNode) box_types box_table None box_encoders true 2249 box_rows box_batch box_param
    box_encoders_ok eq_refl Hw Ho box_rows_valid Hadd Hp Hs) as (recs & Hr & _).
  exists recs. exact Hr.
Defined.
