(* ===== verification/Expression.v ===== *)
(** Expressions: [src/query/expression.go], [src/query/operator_words.go] and
    the resolved fields of [src/query/resolved_field.go].

    A Go map is an association list with distinct keys, in the order of one
    iteration over it; [map_set] is assignment to a key.  An [*AggExpr] carries
    the address it was allocated at, which the compiler compares; the other
    pointer types are only ever written through, once, by the resolution.  The
    position a node has in the query tree stands for its [*QueryNode]. *)
From Stdlib Require Import ZArith Lia Ascii.
From S2P Require Import Prelude Catalog.
Set Warnings "-register-all".

Abbreviation node_id := nat (only parsing).

(** [ColumnPath], [*QueryNode], [Shape], [ComputedFieldRef]; [None] for the
    opaque landing. *)
Inductive ResolvedField :=
  | RColumnPath (node : node_id) (path : list Column) (element_type : option Z)
  | RQueryNode (node : node_id)
  | RShape (fields : list (string * option ResolvedField))
  | RComputed (node : node_id) (fn : Function_).

Inductive OrderByDirection := OrderAsc | OrderDesc | OrderAscNullsFirst | OrderDescNullsLast.
#[global] Instance OrderByDirection_eq_dec : EqDecision OrderByDirection.
Proof. solve_decision. Defined.

Record FunctionRef := MkFunctionRef { ref_schema : string; ref_name : string }.

(** The operators are their spelling. *)
Abbreviation UnaryOperator := string (only parsing).
Abbreviation BinaryOperator := string (only parsing).
Abbreviation FoldedOperator := string (only parsing).

Inductive Expression :=
  | NullLiteral
  | BoolLiteral (value : bool)
  | NumberLiteral (value : Z)                      (* a [float64], its bits *)
  | Identifier (name : string) (resolved : option ResolvedField)
  | StringLiteral (value : string)
  | BigIntLiteral (value : string)
  | NumericLiteral (value : string)
  | DefaultKeyword
  | UnaryExpr (op : UnaryOperator) (e : Expression)
  | BinaryExpr (op : BinaryOperator) (l r : Expression)
  | FoldedExpr (op : FoldedOperator) (l r : Expression)
  | BetweenExpr (negate : bool) (min e max : Expression)
  | InExpr (negate : bool) (subject : Expression) (candidates : list Expression)
  | AnyAllExpr (all : bool) (op : string) (subject array : Expression)
  | ConcatWsExpr (separator : Expression) (args : list Expression)
  | CoalesceExpr (args : list Expression)
  | FormatExpr (format : string) (args : list Expression)
  | AggExpr (address : nat) (fn : FunctionRef) (arguments : list Expression)
      (filter : option Expression) (distinct : bool)
      (order_by : list (Expression * OrderByDirection)) (resolved : option Function_)
  | CallExpr (fn : FunctionRef) (arguments : list Expression) (resolved : option Function_)
  | ObjectExpr (fields : list (string * Expression))
  | StarExpr (own : bool) (except : list string) (and : list (string * Expression))
  | ArrExpr (items : list Expression)
  | LstExpr (items : list Expression)
  | IndexExpr (array index : Expression)
  | SliceExpr (array from to : Expression)
  | ColExpr (column : string) (default_get default_set : option Expression)
      (resolved : option ResolvedField) (resolved_column : option Column)
  | GetExpr (column : string) (default_value : option Expression) (resolved_column : option Column)
  | SetExpr (column : string) (default_value : option Expression) (resolved_column : option Column)
  | ParamExpr (name cast : string).

Abbreviation OrderByTerm := (Expression * OrderByDirection)%type.

(** [m[k] = v] *)
Fixpoint map_set {A} (k : string) (v : A) (m : list (string * A)) : list (string * A) :=
  match m with
  | [] => [(k, v)]
  | (k', v') :: m => if decide (k' = k) then (k, v) :: m else (k', v') :: map_set k v m
  end.

Fixpoint map_get {A} (k : string) (m : list (string * A)) : option A :=
  match m with
  | [] => None
  | (k', v) :: m => if decide (k' = k) then Some v else map_get k m
  end.

(** [for k, v := range a { m[k] = v }] *)
Definition map_merge {A} (m a : list (string * A)) : list (string * A) :=
  foldl (λ m kv, map_set kv.1 kv.2 m) m a.

(** * Operators *)

Definition FoldAnd : FoldedOperator := "and".
Definition FoldDot : FoldedOperator := ".".
Definition BinaryCast : BinaryOperator := "::".

Definition unaryOperators : list UnaryOperator := [
  "-"; "not"; "~"; "is_null"; "is_true"; "is_false"; "is_not_null"; "is_not_true";
  "is_not_false"; "|/"; "||/" ].

Definition binaryOperators : list BinaryOperator := [
  "like"; "ilike"; "~"; "~*"; "::"; "&&"; "<->"; "-|-"; "<<"; ">>"; "@>"; "<@"; "?"; "?|";
  "&<"; "&>"; "?&"; "?:"; "@@" ].

(** Every tag, with the operator it stands for. *)
Definition foldedOperators : list (string * FoldedOperator) := [
  ("and", "and"); ("or", "or"); ("+", "+"); ("-", "-"); ("*", "*"); ("/", "/"); ("^", "^");
  ("%", "%"); ("|", "|"); ("&", "&"); ("->", "->"); ("->>", "->>"); ("#>", "#>");
  ("#>>", "#>>"); (".", "."); ("||", "||"); ("||?", "||?"); ("??", "??"); ("<=", "<=");
  (">=", ">="); ("<", "<"); (">", ">"); ("=", "="); ("<>", "<>"); ("!=", "<>");
  ("is_distinct_from", "is_distinct_from"); ("!==", "is_distinct_from");
  ("is_not_distinct_from", "is_not_distinct_from"); ("===", "is_not_distinct_from") ].

Definition comparisonFoldOps : list FoldedOperator := [
  "<="; ">="; "<"; ">"; "="; "<>"; "is_distinct_from"; "is_not_distinct_from" ].

(** The word spelling of each operator, and its tag. *)
Definition OperatorWords : list (string * string) := [
  ("and", "and"); ("or", "or"); ("add", "+"); ("sub", "-"); ("mul", "*"); ("div", "/");
  ("pow", "^"); ("mod", "%"); ("bor", "|"); ("band", "&"); ("json_get", "->");
  ("json_get_text", "->>"); ("json_path", "#>"); ("json_path_text", "#>>"); ("dot", ".");
  ("concat", "||"); ("concat_coalesce", "||?"); ("ifnull", "??"); ("lte", "<="); ("gte", ">=");
  ("lt", "<"); ("gt", ">"); ("eq", "="); ("ne", "<>"); ("is_distinct_from", "is_distinct_from");
  ("is_not_distinct_from", "is_not_distinct_from"); ("neg", "-"); ("not", "not"); ("bnot", "~");
  ("is_null", "is_null"); ("is_true", "is_true"); ("is_false", "is_false");
  ("is_not_null", "is_not_null"); ("is_not_true", "is_not_true"); ("is_not_false", "is_not_false");
  ("sqrt", "|/"); ("cbrt", "||/"); ("like", "like"); ("ilike", "ilike"); ("match", "~");
  ("imatch", "~*"); ("cast", "::"); ("overlap", "&&"); ("distance", "<->"); ("adjacent", "-|-");
  ("shl", "<<"); ("shr", ">>"); ("contains", "@>"); ("contained_by", "<@"); ("has_key", "?");
  ("has_any_key", "?|"); ("has_all_keys", "?&"); ("overlaps_or_left", "&<");
  ("overlaps_or_right", "&>"); ("op_qcolon", "?:"); ("matches_ts", "@@"); ("in", "in");
  ("not_in", "not_in"); ("any", "any"); ("all", "all"); ("between", "between");
  ("not_between", "not_between"); ("agg", "agg"); ("aggregate", "agg"); ("call", "call");
  ("concat_ws", "concat_ws"); ("coalesce", "coalesce"); ("format", "format") ].

(** [if canonical, ok := OperatorWords[tag]; ok { tag = canonical }] *)
Definition canonical (tag : string) : string := default tag (map_get tag OperatorWords).

Definition is_unary (op : string) : bool := bool_decide (op ∈ unaryOperators).
Definition is_binary (op : string) : bool := bool_decide (op ∈ binaryOperators).
Definition folded (op : string) : option FoldedOperator := map_get op foldedOperators.

(** * Queries *)

Inductive WriteMode :=
  | READONLY | MERGE | MERGE_NEW | MERGE_UPDATE | INSERT | UPSERT | UPDATE_EXISTING
  | DELETE_ONLY | UPDATE | DELETE.
#[global] Instance WriteMode_eq_dec : EqDecision WriteMode.
Proof. solve_decision. Defined.

(** [rawRelation]: a relation of the request, not yet resolved. *)
Inductive rawRelation := RawRelation {
  raw_relation : string;
  raw_function : string;
  raw_is_function : bool;
  raw_schema : string;
  raw_alias : string;
  raw_on : option (list (string * string));
  raw_positional : option (list Expression);
  raw_named : option (list (string * Expression));
  raw_where : option Expression;
  raw_write_mode : string;
  raw_on_conflict_name : string;
  raw_on_conflict_columns : option (list string);
  raw_insert_columns : option (list string);
  raw_update_columns : option (list string);
  raw_join : option (list (string * rawRelation));
  raw_select : option Expression;
  raw_distinct : bool;
  raw_distinct_on : list Expression;
  raw_order_by : list OrderByTerm;
  raw_offset : option Z;
  raw_limit : option Z;
}.

Record rawWellKnown := RawWellKnown { wk_name : string; wk_params : option string }.

(** [rawWriteQuery]; [Data] is the node of the document. *)
Record rawWriteQuery (N : Type) := RawWriteQuery {
  wq_query : option rawRelation;
  wq_wellknown : option rawWellKnown;
  wq_data : option N;
  wq_returns : string;
  wq_count : bool;
  wq_stats : bool;
  wq_query_plan : bool;
  wq_sql : bool;
  wq_rollback : bool;
}.
Arguments RawWriteQuery {N} _ _ _ _ _ _ _ _ _.
Arguments wq_query {N} _. Arguments wq_wellknown {N} _. Arguments wq_data {N} _.
Arguments wq_returns {N} _.

(** [ParsedQuery]: exactly one of its fields is set. *)
Inductive ParsedQuery (N : Type) :=
  | PRelation (r : rawRelation)
  | PWrite (w : rawWriteQuery N)
  | PWellKnown (w : rawWellKnown)
  | PSequence (s : list (ParsedQuery N)).
Arguments PRelation {N} _. Arguments PWrite {N} _. Arguments PWellKnown {N} _. Arguments PSequence {N} _.
