(* ===== verification/ParseExpr.v ===== *)
(** Pass 1, expressions: [src/query/expression_parse.go].

    The parser reads any [Node].  It threads a counter, the address of the next
    [AggExpr] it allocates.  The functions are written over the recursive call
    [rec], which is [parseNode] on a node below; [fuel] bounds the nesting. *)
From Stdlib Require Import ZArith Lia Ascii.
From S2P Require Import Prelude Text Document Expression.
Set Warnings "-register-all".

Abbreviation parser := (M nat).

(** [if x, err := m; err == nil]: the error is dropped. *)
Definition attempt {A} (m : outcome A) : parser (option A) := λ s,
  match m with
  | Ok a => Ok (Some a, s)
  | Err _ => Ok (None, s)
  | Panic => Panic
  | OutOfFuel => OutOfFuel
  end.

(** [&AggExpr{...}] *)
Definition alloc : parser nat := λ s, Ok (s, S s).

Definition one_of (tag : string) (tags : list string) : bool := existsb (String.eqb tag) tags.

(** * Literals *)

Definition strip_minus (s : string) : string := match s with String "-"%char r => r | _ => s end.

(** [^-?[0-9]+$] *)
Definition validBigIntLiteral (s : string) : bool :=
  let s := strip_minus s in negb (String.eqb s "") && all_digits s.

(** [([eE][-+]?[0-9]+)?$] *)
Definition valid_exponent (s : string) : bool :=
  match s with
  | EmptyString => true
  | String c r =>
      (Ascii.eqb c "e" || Ascii.eqb c "E") &&
      (let r := match r with
                | String "-"%char x => x
                | String "+"%char x => x
                | _ => r
                end in
       negb (String.eqb r "") && all_digits r)
  end.

(** [^-?[0-9]+(\.[0-9]+)?([eE][-+]?[0-9]+)?$] *)
Definition validNumericLiteral (s : string) : bool :=
  let '(ds, r) := span_digits (strip_minus s) in
  negb (String.eqb ds "") &&
  match r with
  | String "."%char r' =>
      let '(fs, r'') := span_digits r' in negb (String.eqb fs "") && valid_exponent r''
  | _ => valid_exponent r
  end.

(** * Folding *)

(** The pairs of consecutive operands, compared. *)
Fixpoint comparison_pairs (op : FoldedOperator) (operands : list Expression) : list Expression :=
  match operands with
  | a :: (b :: _) as rest => FoldedExpr op a b :: comparison_pairs op rest
  | _ => []
  end.

Definition fold_left_expr (op : FoldedOperator) (operands : list Expression) : outcome Expression :=
  match operands with
  | [] => errorf "query: folded operator %q needs at least one operand"
  | e :: es => Ok (foldl (λ result next, FoldedExpr op result next) e es)
  end.

Definition foldExpression (op : FoldedOperator) (operands : list Expression) : outcome Expression :=
  match operands with
  | [] => errorf "query: folded operator %q needs at least one operand"
  | [e] => Ok e
  | _ =>
      if bool_decide (op ∈ comparisonFoldOps)
      then fold_left_expr FoldAnd (comparison_pairs op operands)
      else fold_left_expr op operands
  end.

Definition orderByDirectionTags : list (string * OrderByDirection) := [
  ("asc", OrderAsc); ("desc", OrderDesc); ("asc-nulls-first", OrderAscNullsFirst);
  ("desc-nulls-last", OrderDescNullsLast) ].

Section parse.
Context {N : Type} `{Node N}.

Definition parseStringListValue (n : N) : parser (list string) :=
  items ← wrap "query: expected a string array" (lift (arrayItems n));
  map_m (λ i, wrap "query: expected a string array, item %d" (lift (StrictString i))) items.

(** A bare string, or [{schema, name}]. *)
Definition parseFunctionRef (n : N) : parser FunctionRef :=
  match Kind n with
  | KindString =>
      name ← wrap "must be a string or {schema, name} object" (lift (StrictString n));
      mret (MkFunctionRef "" name)
  | KindObject =>
      nameNode ← lift (ObjectGet n "name");
      match nameNode with
      | None => fail "" "object form needs a name"
      | Some nameNode =>
          name ← wrap "name must be a string" (lift (StrictString nameNode));
          schemaNode ← lift (ObjectGet n "schema");
          schema ← match schemaNode with
                   | Some s => wrap "schema must be a string" (lift (StrictString s))
                   | None => mret ""
                   end;
          mret (MkFunctionRef schema name)
      end
  | _ => fail "" "must be a string or {schema, name} object, got type %d"
  end.

Definition parseValidatedStringArgLiteral (rest : list N) (valid : string → bool)
    (build : string → Expression) : parser Expression :=
  match rest with
  | [a] =>
      v ← wrap "query: %q expects a string argument" (lift (StrictString a));
      if valid v then mret (build v) else fail "" "query: %q: %q is not a valid %s literal"
  | _ => fail "" "query: %q expects exactly one string argument, got %d"
  end.

Section body.
Variable rec : N → parser Expression.

Definition parseExpressionList (items : list N) : parser (list Expression) :=
  map_m (λ i, wrap "query: item %d" (rec i)) items.

Definition parseObjectFields (n : N) : parser (list (string * Expression)) :=
  wrap "query: expected an object"
    (ms ← lift (ObjectEach n);
     fold_m (λ out kv,
       e ← wrap "query: field %q" (rec kv.2);
       mret (map_set kv.1 e out)) [] ms).

(** The except lists and the and maps, by kind, in any order. *)
Definition parseStarTag (own : bool) (rest : list N) : parser Expression :=
  r ← fold_m (λ acc n,
        match Kind n with
        | KindArray => e ← parseStringListValue n; mret (acc.1 ++ e, acc.2)
        | KindObject => a ← parseObjectFields n; mret (acc.1, map_merge acc.2 a)
        | _ => fail "" "query: %q's trailing arguments must each be an except array or an and object"
        end) ([], []) rest;
  mret (StarExpr own r.1 r.2).

Definition parseDefaultPosition (n : N) : parser Expression :=
  s ← attempt (StrictString n);
  match s with
  | Some s => if String.eqb s "default" then mret DefaultKeyword else rec n
  | None => rec n
  end.

Definition opt_default (rest : list N) : parser (option Expression) :=
  match rest with
  | [] => mret None
  | n :: _ => e ← parseDefaultPosition n; mret (Some e)
  end.

Definition parseCol (rest : list N) : parser Expression :=
  if (length rest <? 1)%nat || (3 <? length rest)%nat
  then fail "" "query: %q needs [column, default_get?, default_set?]"
  else
    c ← lift (list_at rest 0);
    column ← wrap "query: col column must be a string" (lift (StrictString c));
    defaultGet ← opt_default (drop 1 rest);
    defaultSet ← opt_default (drop 2 rest);
    mret (ColExpr column defaultGet defaultSet None None).

Definition parseGetOrSet (tag : string) (rest : list N) : parser Expression :=
  if (length rest <? 1)%nat || (2 <? length rest)%nat
  then fail "" "query: %q needs [column, default_value?]"
  else
    c ← lift (list_at rest 0);
    column ← wrap "query: %q column must be a string" (lift (StrictString c));
    def ← opt_default (drop 1 rest);
    mret (if String.eqb tag "get" then GetExpr column def None else SetExpr column def None).

(** A [direction, expression] pair when the direction is known. *)
Definition parseOrderByTerm (n : N) : parser OrderByTerm :=
  let bare := e ← rec n; mret (e, OrderAsc) in
  match Kind n with
  | KindArray =>
      items ← attempt (arrayItems n);
      match items with
      | Some [d; e] =>
          tag ← attempt (StrictString d);
          match tag ≫= λ t, map_get t orderByDirectionTags with
          | Some dir => e ← rec e; mret (e, dir)
          | None => bare
          end
      | _ => bare
      end
  | _ => bare
  end.

Record aggOptions := AggOptions {
  agg_filter : option Expression;
  agg_distinct : bool;
  agg_order_by : list OrderByTerm;
}.

Definition parseAggOption (o : aggOptions) (kv : string * N) : parser aggOptions :=
  let '(key, v) := kv in
  if String.eqb key "filter" then
    e ← rec v; mret (AggOptions (Some e) (agg_distinct o) (agg_order_by o))
  else if String.eqb key "distinct" then
    b ← wrap "distinct must be a boolean" (lift (StrictBool v));
    mret (AggOptions (agg_filter o) b (agg_order_by o))
  else if String.eqb key "order_by" then
    items ← wrap "order_by must be an array" (lift (arrayItems v));
    terms ← map_m (λ i, wrap "order_by item %d" (parseOrderByTerm i)) items;
    mret (AggOptions (agg_filter o) (agg_distinct o) (agg_order_by o ++ terms))
  else fail "" "unknown option %q (expected filter, distinct or order_by)".

Definition parseAggOptions (n : N) : parser aggOptions :=
  ms ← lift (ObjectEach n);
  fold_m parseAggOption (AggOptions None false []) ms.

(** ** The tags *)

Definition parse_between (tag : string) (rest : list N) : parser Expression :=
  match rest with
  | [a; b; c] =>
      min ← rec a; exp ← rec b; max ← rec c;
      mret (BetweenExpr (String.eqb tag "not_between") min exp max)
  | _ => fail "" "query: %q needs exactly 3 operands, got %d"
  end.

Definition parse_in (tag : string) (rest : list N) : parser Expression :=
  match rest with
  | [] => fail "" "query: %q needs a subject"
  | a :: rest =>
      subject ← rec a;
      candidates ← parseExpressionList rest;
      mret (InExpr (String.eqb tag "not_in") subject candidates)
  end.

Definition parse_any_all (tag : string) (rest : list N) : parser Expression :=
  match rest with
  | [a; b; c] =>
      op ← wrap "query: %q operator must be a string" (lift (StrictString a));
      let op := canonical op in
      if negb (is_binary op) && negb (bool_decide (is_Some (folded op)))
      then fail "" "query: %q operator %q is not a known operator"
      else
        subject ← rec b; arr ← rec c;
        mret (AnyAllExpr (String.eqb tag "all") op subject arr)
  | _ => fail "" "query: %q needs exactly 3 operands, got %d"
  end.

Definition parse_concat_ws (rest : list N) : parser Expression :=
  match rest with
  | [] => fail "" "query: %q needs a separator"
  | a :: rest => sep ← rec a; args ← parseExpressionList rest; mret (ConcatWsExpr sep args)
  end.

Definition parse_format (rest : list N) : parser Expression :=
  match rest with
  | [] => fail "" "query: %q needs a format string"
  | a :: rest =>
      format ← wrap "query: %q format must be a string" (lift (StrictString a));
      args ← parseExpressionList rest;
      mret (FormatExpr format args)
  end.

Definition parse_agg (rest : list N) : parser Expression :=
  match rest with
  | a :: b :: opts =>
      if (1 <? length opts)%nat then fail "" "query: %q needs 2 or 3 operands, got %d"
      else
        ident ← wrap "query: %q identifier" (parseFunctionRef a);
        argItems ← wrap "query: %q arguments must be an array" (lift (arrayItems b));
        args ← parseExpressionList argItems;
        address ← alloc;
        o ← match opts with
            | [] => mret (AggOptions None false [])
            | n :: _ => wrap "query: %q options" (parseAggOptions n)
            end;
        mret (AggExpr address ident args (agg_filter o) (agg_distinct o) (agg_order_by o) None)
  | _ => fail "" "query: %q needs 2 or 3 operands, got %d"
  end.

Definition parse_call (rest : list N) : parser Expression :=
  match rest with
  | [] => fail "" "query: %q needs an identifier"
  | a :: rest =>
      ident ← wrap "query: %q identifier" (parseFunctionRef a);
      args ← parseExpressionList rest;
      mret (CallExpr ident args None)
  end.

(** The hops of a "." chain, each a bare name. *)
Definition parse_hops (base : Expression) (hops : list N) : parser Expression :=
  fold_m (λ result h,
    name ← wrap "query: %q hop name must be a bare string" (lift (StrictString h));
    mret (FoldedExpr FoldDot result (Identifier name None))) base hops.

Definition parse_dot (rest : list N) : parser Expression :=
  match rest with
  | [] => fail "" "query: %q needs at least 1 operand, got %d"
  | a :: hops =>
      name ← attempt (StrictString a);
      match name with
      | Some name => parse_hops (Identifier name None) hops
      | None =>
          match hops with
          | [] => fail "" "query: %q needs a hop name after a non-bare-name base"
          | _ => base ← rec a; parse_hops base hops
          end
      end
  end.

Definition parse_index (rest : list N) : parser Expression :=
  match rest with
  | [a; b] => arr ← rec a; idx ← rec b; mret (IndexExpr arr idx)
  | _ => fail "" "query: %q needs exactly [array, index]"
  end.

Definition parse_slice (rest : list N) : parser Expression :=
  match rest with
  | [a; b; c] => arr ← rec a; from ← rec b; to ← rec c; mret (SliceExpr arr from to)
  | _ => fail "" "query: %q needs exactly [array, from, to]"
  end.

Definition parse_param (rest : list N) : parser Expression :=
  match rest with
  | n :: more =>
      if (1 <? length more)%nat then fail "" "query: %q needs [name] or [name, cast]"
      else
        name ← wrap "query: %q name must be a string" (lift (StrictString n));
        cast ← match more with
               | [] => mret ""
               | c :: _ => wrap "query: %q cast must be a string" (lift (StrictString c))
               end;
        mret (ParamExpr name cast)
  | [] => fail "" "query: %q needs [name] or [name, cast]"
  end.

(** The operators: unary by arity, then binary, then folded. *)
Definition parse_operator (tag : string) (rest : list N) : parser Expression :=
  if is_unary tag && (length rest =? 1)%nat then
    a ← lift (list_at rest 0); e ← rec a; mret (UnaryExpr tag e)
  else if is_binary tag && (length rest =? 2)%nat then
    a ← lift (list_at rest 0); l ← rec a;
    b ← lift (list_at rest 1); r ← rec b;
    mret (BinaryExpr tag l r)
  else
    match folded tag with
    | Some op =>
        if (1 <=? length rest)%nat then
          operands ← parseExpressionList rest;
          lift (foldExpression op operands)
        else fail "" "query: unrecognized expression tag %q (array length %d)"
    | None => fail "" "query: unrecognized expression tag %q (array length %d)"
    end.

Definition parse_tag (tag : string) (rest : list N) : parser Expression :=
  if one_of tag ["between"; "not_between"] then parse_between tag rest
  else if one_of tag ["bigint"] then
    parseValidatedStringArgLiteral rest validBigIntLiteral BigIntLiteral
  else if one_of tag ["numeric"] then
    parseValidatedStringArgLiteral rest validNumericLiteral NumericLiteral
  else if one_of tag ["in"; "not_in"] then parse_in tag rest
  else if one_of tag ["any"; "all"] then parse_any_all tag rest
  else if one_of tag ["concat_ws"] then parse_concat_ws rest
  else if one_of tag ["coalesce"] then args ← parseExpressionList rest; mret (CoalesceExpr args)
  else if one_of tag ["format"] then parse_format rest
  else if one_of tag ["agg"; "aggregate"] then parse_agg rest
  else if one_of tag ["call"] then parse_call rest
  else if one_of tag ["."] then parse_dot rest
  else if one_of tag ["*"; "*~"] then parseStarTag (String.eqb tag "*~") rest
  else if one_of tag ["arr"; "array"] then items ← parseExpressionList rest; mret (ArrExpr items)
  else if one_of tag ["lst"; "list"] then items ← parseExpressionList rest; mret (LstExpr items)
  else if one_of tag ["index"] then parse_index rest
  else if one_of tag ["slice"] then parse_slice rest
  else if one_of tag ["col"] then parseCol rest
  else if one_of tag ["get"; "set"] then parseGetOrSet tag rest
  else if one_of tag ["$param"] then parse_param rest
  else parse_operator tag rest.

Definition parseArrayExpression (n : N) : parser Expression :=
  items ← wrap "query: invalid array expression" (lift (arrayItems n));
  match items with
  | [] => fail "" "query: empty array is not a valid expression"
  | t :: rest =>
      tag ← wrap "query: expression array must start with a string tag" (lift (StrictString t));
      parse_tag (canonical tag) rest
  end.

Definition parseNode_body (n : N) : parser Expression :=
  match Kind n with
  | KindNull => mret NullLiteral
  | KindBool => b ← wrap "query: invalid boolean expression" (lift (StrictBool n)); mret (BoolLiteral b)
  | KindNumber => f ← wrap "query: invalid number expression" (lift (StrictFloat64 n)); mret (NumberLiteral f)
  | KindString => s ← wrap "query: invalid string expression" (lift (StrictString n)); mret (StringLiteral s)
  | KindObject => fields ← parseObjectFields n; mret (ObjectExpr fields)
  | KindArray => parseArrayExpression n
  | KindInvalid => fail "" "query: invalid expression JSON"
  | _ => fail "" "query: unexpected JSON value in expression position (type %d)"
  end.
End body.

Fixpoint parseNode (fuel : nat) (n : N) : parser Expression :=
  match fuel with
  | O => λ _, OutOfFuel
  | S fuel => parseNode_body (parseNode fuel) n
  end.
End parse.
