(* ===== verification/ParseExprFacts.v ===== *)
(** The expression parser does not depend on the representation of the request.

    [agree] relates two runs: both return, or both fail.  Over any node that
    obeys [NodeLaws], [parseNode] returns what it returns over the abstract
    document the node denotes, as soon as the fuel is the document's height. *)
From Stdlib Require Import ZArith Lia Ascii.
From S2P Require Import Prelude CborNode Document DocumentLaws Expression ParseExpr.
Set Warnings "-register-all".

(** * Runs that agree *)

Definition same_code (e e' : error) : Prop := err_code e = err_code e'.

Definition agree {S A B} (E : error → error → Prop) (R : A → B → Prop)
    (m : M S A) (m' : M S B) : Prop :=
  ∀ s, match m s, m' s with
       | Ok (a, s1), Ok (b, s2) => R a b ∧ s1 = s2
       | Err e, Err e' => E e e'
       | _, _ => False
       end.

Section agree.
Context {S : Type} (E : error → error → Prop).

Lemma agree_ret {A B} (R : A → B → Prop) a b : R a b → agree (S := S) E R (mret a) (mret b).
Proof. intros ? s. done. Qed.

Lemma agree_bind {A B C D} (R : A → B → Prop) (Q : C → D → Prop)
    (m : M S A) (m' : M S B) (f : A → M S C) (f' : B → M S D) :
  agree E R m m' → (∀ a b, R a b → agree E Q (f a) (f' b)) →
  agree E Q (m ≫= f) (m' ≫= f').
Proof.
  intros Hm Hf s. specialize (Hm s). unfold mbind, M_bind.
  destruct (m s) as [[a s1]|e| |], (m' s) as [[b s2]|e'| |]; try done.
  destruct Hm as [Hab ->]. by apply Hf.
Qed.

Lemma agree_wrap {A B} (R : A → B → Prop) msg (m : M S A) (m' : M S B) :
  agree same_code R m m' → agree eq R (wrap msg m) (wrap msg m').
Proof.
  intros Hm s. specialize (Hm s). unfold wrap, wrapf, same_code in *.
  destruct (m s) as [[a s1]|e| |], (m' s) as [[b s2]|e'| |]; try done. by rewrite Hm.
Qed.

Lemma agree_wrap_code {A B} (R : A → B → Prop) msg (m : M S A) (m' : M S B) :
  agree same_code R m m' → agree same_code R (wrap msg m) (wrap msg m').
Proof.
  intros Hm s. specialize (Hm s). unfold wrap, wrapf, same_code in *.
  by destruct (m s) as [[a s1]|e| |], (m' s) as [[b s2]|e'| |].
Qed.

Lemma agree_weaken {A B} (R : A → B → Prop) (m : M S A) (m' : M S B) :
  (∀ e, E e e) → agree eq R m m' → agree E R m m'.
Proof.
  intros HE Hm s. specialize (Hm s).
  destruct (m s) as [[a s1]|e| |], (m' s) as [[b s2]|e'| |]; try done. by subst.
Qed.

Lemma agree_fail {A B} (R : A → B → Prop) code msg :
  (∀ e, E e e) → agree (S := S) E R (fail code msg) (fail code msg).
Proof. intros HE s. apply HE. Qed.

Lemma agree_lift_ok {A B} (R : A → B → Prop) a b : R a b → agree (S := S) E R (lift (Ok a)) (lift (Ok b)).
Proof. intros ? s. done. Qed.

Lemma agree_lift_total {A} (m : outcome A) :
  (∀ e, E e e) → returns m → agree (S := S) E eq (lift m) (lift m).
Proof. intros HE Hm s. unfold lift. by destruct m. Qed.

Lemma agree_map_m {A B C D} (R : A → B → Prop) (Q : C → D → Prop)
    (f : A → M S C) (f' : B → M S D) l l' :
  (∀ a b, R a b → agree E Q (f a) (f' b)) → Forall2 R l l' →
  agree E (Forall2 Q) (map_m f l) (map_m f' l').
Proof.
  intros Hf. induction 1 as [|a b l l' Hab _ IH]; cbn [map_m]; [by apply agree_ret|].
  eapply agree_bind; [by apply Hf|]. intros c d Hcd.
  eapply agree_bind; [apply IH|]. intros cs ds Hcs. apply agree_ret. by constructor.
Qed.

Lemma agree_map_eq {A B C} (R : A → B → Prop) (f : A → M S C) (f' : B → M S C) l l' :
  (∀ a b, R a b → agree E eq (f a) (f' b)) → Forall2 R l l' →
  agree E eq (map_m f l) (map_m f' l').
Proof.
  intros Hf. induction 1 as [|a b l l' Hab _ IH]; cbn [map_m]; [by apply agree_ret|].
  eapply agree_bind; [by apply Hf|]. intros c ? ->.
  eapply agree_bind; [exact IH|]. intros cs ? ->. by apply agree_ret.
Qed.

Lemma agree_fold_m {A B C D} (R : A → B → Prop) (Q : C → D → Prop)
    (f : C → A → M S C) (f' : D → B → M S D) l l' c d :
  (∀ c d a b, Q c d → R a b → agree E Q (f c a) (f' d b)) → Forall2 R l l' → Q c d →
  agree E Q (fold_m f c l) (fold_m f' d l').
Proof.
  intros Hf Hl. revert c d. induction Hl as [|a b l l' Hab _ IH]; intros c d Hcd; cbn [fold_m].
  - by apply agree_ret.
  - eapply agree_bind; [by apply Hf|]. intros c' d' Hcd'. by apply IH.
Qed.
End agree.

Lemma agree_alloc E : agree E eq alloc alloc.
Proof. intros s. done. Qed.

Lemma foldExpression_returns op es : returns (foldExpression op es).
Proof.
  unfold foldExpression, fold_left_expr. destruct es as [|a [|b es]]; try done.
  by destruct (bool_decide _).
Qed.

Lemma same_code_refl e : same_code e e.
Proof. done. Qed.
Lemma error_eq_refl (e : error) : e = e.
Proof. done. Qed.
Create HintDb agree.
#[export] Hint Resolve same_code_refl error_eq_refl : agree.

Lemma Forall2_impl_elem {A B} (P Q : A → B → Prop) l l' :
  Forall2 P l l' → (∀ a b, a ∈ l → b ∈ l' → P a b → Q a b) → Forall2 Q l l'.
Proof.
  induction 1 as [|a b l l' Hab _ IH]; intros HPQ; constructor.
  - apply HPQ; [set_solver..|done].
  - apply IH. intros. apply HPQ; [set_solver..|done].
Qed.

(** * Reading through the laws *)

Section laws.
Context {N : Type} `{Node N, !NodeLaws N}.

(** A node and its document, which is inside one of height [h]. *)
Definition below (h : nat) (n : N) (t : tree) : Prop := denotes n t ∧ (height t < h)%nat.
Definition member_below (h : nat) (x : string * N) (y : string * tree) : Prop :=
  x.1 = y.1 ∧ below h x.2 y.2.

Lemma agree_reads_as {S A} (o : option A) (m : outcome A) :
  reads_as o m → agree (S := S) same_code eq (lift m) (lift (reading o)).
Proof. destruct o; cbn; [by intros -> s|]. by intros [msg ->] s. Qed.

Lemma agree_StrictString {S} n t :
  denotes n t → agree (S := S) same_code eq (lift (StrictString n)) (lift (StrictString t)).
Proof. intros. apply agree_reads_as. by apply law_StrictString. Qed.
Lemma agree_StrictBool {S} n t :
  denotes n t → agree (S := S) same_code eq (lift (StrictBool n)) (lift (StrictBool t)).
Proof. intros. apply agree_reads_as. by apply law_StrictBool. Qed.
Lemma agree_StrictInt64 {S} n t :
  denotes n t → agree (S := S) same_code eq (lift (StrictInt64 n)) (lift (StrictInt64 t)).
Proof. intros. apply agree_reads_as. by apply law_StrictInt64. Qed.
Lemma agree_StrictFloat64 {S} n t :
  denotes n t → agree (S := S) same_code eq (lift (StrictFloat64 n)) (lift (StrictFloat64 t)).
Proof. intros. apply agree_reads_as. by apply law_StrictFloat64. Qed.

Lemma arrayItems_denoted n t :
  denotes n t →
  match shape_items (tree_shape t) with
  | Some ts => arrayItems t = Ok ts ∧ ∃ ns, arrayItems n = Ok ns ∧ Forall2 (below (height t)) ns ts
  | None => (∃ msg, arrayItems n = Err (Error "" msg)) ∧ ∃ msg, arrayItems t = Err (Error "" msg)
  end.
Proof.
  intros Hd. unfold arrayItems. rewrite (law_Kind _ _ Hd).
  pose proof (law_ArrayItems _ _ Hd) as Hi. cbn [Kind ArrayItems tree_Node].
  assert (tree_Kind t = KindArray ↔ is_Some (shape_items (tree_shape t))) as Hk.
  { unfold tree_Kind. destruct (tree_shape t) as [| | | | | |[]]; cbn; split; try done; eauto;
      by intros [? [=]]. }
  destruct (shape_items (tree_shape t)) as [ts|] eqn:Es.
  - rewrite bool_decide_true by (apply Hk; eauto). cbn [negb reading of_option]. split; [done|].
    destruct Hi as (ns & -> & Hf). exists ns. split; [done|].
    eapply Forall2_impl_elem; [exact Hf|]. intros x y _ Hy Hxy. split; [done|].
    eapply height_item; [|exact Hy]. by destruct (tree_shape t); simplify_eq/=.
  - rewrite bool_decide_false by (intros Hx%Hk; by destruct Hx). cbn. unfold errNotArray, errorf. eauto.
Qed.

Lemma agree_arrayItems {S} n t :
  denotes n t →
  agree (S := S) same_code (Forall2 (below (height t))) (lift (arrayItems n)) (lift (arrayItems t)).
Proof.
  intros Hd s. pose proof (arrayItems_denoted n t Hd) as Hi. unfold lift.
  destruct (shape_items (tree_shape t)) as [ts|].
  - destruct Hi as (-> & ns & -> & Hf). done.
  - destruct Hi as ((? & ->) & (? & ->)). done.
Qed.

Lemma agree_ObjectGet {S} E n t k :
  denotes n t →
  agree (S := S) E (option_Forall2 (below (height t))) (lift (ObjectGet n k)) (lift (ObjectGet t k)).
Proof.
  intros Hd s. pose proof (law_ObjectGet _ _ Hd k) as Hg. unfold lift. cbn [ObjectGet tree_Node].
  destruct (shape_get (tree_shape t) k) as [t'|] eqn:Eg.
  - destruct Hg as (n' & -> & Hd'). split; [|done]. constructor. split; [done|].
    by eapply height_get.
  - rewrite Hg. split; [constructor|done].
Qed.

Lemma agree_ObjectEach {S} n t :
  denotes n t →
  agree (S := S) same_code (Forall2 (member_below (height t))) (lift (ObjectEach n)) (lift (ObjectEach t)).
Proof.
  intros Hd s. pose proof (law_ObjectEach _ _ Hd) as He. unfold lift. cbn [ObjectEach tree_Node].
  destruct (shape_each (tree_shape t)) as [es|] eqn:Ee; cbn [reading of_option].
  - destruct He as (ns & -> & Hf). split; [|done].
    eapply Forall2_impl_elem; [exact Hf|]. intros x y _ Hy [Hk Hxy]. split; [done|]. split; [done|].
    by eapply height_each.
  - destruct He as (msg & ->). done.
Qed.

Lemma agree_attempt {A B} E (R : A → B → Prop) (m : outcome A) (m' : outcome B) :
  agree (S := nat) same_code R (lift m) (lift m') →
  agree E (option_Forall2 R) (attempt m) (attempt m').
Proof.
  intros Hm s. specialize (Hm s). unfold lift, attempt in *.
  destruct m as [a|e| |], m' as [b|e'| |]; try done; split; try done.
  - constructor. by destruct Hm.
  - constructor.
Qed.

Lemma below_denotes h n t : below h n t → denotes n t.
Proof. by intros []. Qed.
End laws.

#[export] Hint Resolve below_denotes : agree.

(** The calls whose agreement is a lemma; extended after each lemma. *)
Ltac agree_call := fail.

(** One step of an [agree] goal.  The relation of the first run of a bind is
    the one its lemma gives. *)
Ltac agree_leaf :=
  match goal with
  | |- agree _ ?R (mret _) (mret _) => is_evar R; apply (agree_ret _ eq); reflexivity
  | |- agree _ _ (mret _) (mret _) => apply agree_ret; try reflexivity
  | |- agree _ _ (fail _ _) (fail _ _) => apply agree_fail; auto with agree
  | |- agree _ _ (lift (StrictString _)) _ => apply agree_StrictString; eauto with agree
  | |- agree _ _ (lift (StrictBool _)) _ => apply agree_StrictBool; eauto with agree
  | |- agree _ _ (lift (StrictInt64 _)) _ => apply agree_StrictInt64; eauto with agree
  | |- agree _ _ (lift (StrictFloat64 _)) _ => apply agree_StrictFloat64; eauto with agree
  | |- agree _ _ (lift (arrayItems _)) _ => apply agree_arrayItems; eauto with agree
  | |- agree _ _ (lift (ObjectEach _)) _ => apply agree_ObjectEach; eauto with agree
  | |- agree _ _ (lift (ObjectGet _ _)) _ => apply agree_ObjectGet; eauto with agree
  | |- agree _ _ (attempt _) (attempt _) => eapply agree_attempt
  | H : ∀ n t, below _ n t → agree _ _ (?rec n) _ |- agree eq _ (?rec _) _ => apply H; eauto with agree
  | H : ∀ n t, below _ n t → agree _ _ (?rec n) _ |- agree _ _ (?rec _) _ =>
      apply agree_weaken; [auto with agree|]; apply H; eauto with agree
  end.
Ltac agree_step :=
  match goal with
  | |- agree _ _ (mbind _ _) (mbind _ _) => eapply agree_bind
  | |- agree eq _ (wrap _ _) (wrap _ _) => apply agree_wrap
  | |- agree same_code _ (wrap _ _) (wrap _ _) =>
      apply agree_weaken; [apply same_code_refl|]; apply agree_wrap
  | |- agree _ _ (match ?x with _ => _ end) (match ?x with _ => _ end) => destruct x
  | _ => agree_leaf
  | |- agree same_code _ _ _ => agree_call
  | |- agree same_code _ _ _ => apply agree_weaken; [apply same_code_refl|]; agree_call
  | _ => agree_call
  end.
(** The [<-] patterns of the steps that return equal values. *)
Ltac agree_intros :=
  lazymatch goal with
  | |- ∀ _, _ => let a := fresh in let b := fresh in let Hab := fresh in intros a b Hab;
      lazymatch type of Hab with
      | a = b => subst a
      | option_Forall2 _ _ _ =>
          let Hxy := fresh in
          destruct Hab as [? ? Hxy|]; [try (lazymatch type of Hxy with ?x = _ => subst x end)|]
      | _ => idtac
      end
  end.
Ltac agree_auto := repeat (agree_step || agree_intros).

#[local] Set Default Proof Using "Type*".
Section items.
Context {N : Type} `{HN : Node N, HL : !NodeLaws N}.
Context {h : nat}.

Local Notation "m ~ m'" := (agree eq eq m m') (at level 70).
Local Abbreviation items := (Forall2 (below (N := N) h)).

Lemma below_weaken k n t : below (N := N) k n t → (k ≤ h)%nat → below h n t.
Proof. intros [? ?]. split; [done|lia]. Qed.
Lemma items_weaken k l l' : Forall2 (below (N := N) k) l l' → (k ≤ h)%nat → items l l'.
Proof. intros Hl Hk. eapply Forall2_impl; [exact Hl|]. intros n t Hn. by eapply below_weaken. Qed.
Lemma members_weaken k l l' :
  Forall2 (member_below (N := N) k) l l' → (k ≤ h)%nat → Forall2 (member_below h) l l'.
Proof.
  intros Hl Hk. eapply Forall2_impl; [exact Hl|].
  intros n t [? Hn]. split; [done|]. by eapply below_weaken.
Qed.

Lemma below_le n t : below (N := N) h n t → (height t ≤ h)%nat.
Proof. intros [_ ?]. lia. Qed.
Lemma list_at_agree {S} l l' i :
  items l l' → (i < length l')%nat →
  agree (S := S) eq (below h) (lift (list_at l i)) (lift (list_at l' i)).
Proof.
  intros Hl Hi s. unfold lift, list_at, at_index.
  destruct (lookup_lt_is_Some_2 l' i Hi) as [t Ht].
  destruct (Forall2_lookup_r _ _ _ _ _ Hl Ht) as (n & Hn & Hnt).
  unfold lookup in *. by rewrite Hn, Ht.
Qed.

Lemma parseStringListValue_agree n t : denotes n t → parseStringListValue n ~ parseStringListValue t.
Proof.
  intros. unfold parseStringListValue. eapply agree_bind; [agree_auto|].
  intros l l' Hl. eapply agree_map_eq; [|exact Hl]. intros a b Hab. agree_auto.
Qed.

Lemma parseFunctionRef_agree n t :
  denotes n t → agree same_code eq (parseFunctionRef n) (parseFunctionRef t).
Proof.
  intros. unfold parseFunctionRef. rewrite (law_Kind _ _ H). cbn [Kind tree_Node].
  agree_auto.
Qed.

Lemma parseValidatedStringArgLiteral_agree l l' valid build :
  items l l' → parseValidatedStringArgLiteral l valid build ~ parseValidatedStringArgLiteral l' valid build.
Proof.
  intros Hl. unfold parseValidatedStringArgLiteral.
  destruct Hl as [|a b l l' Hab [|]]; agree_auto.
Qed.

End items.

Section body.
Context {N : Type} `{HN : Node N, HL : !NodeLaws N}.
Context (h : nat) (rec : N → parser Expression) (rec' : tree → parser Expression).
Context (Hrec : ∀ n t, below h n t → agree eq eq (rec n) (rec' t)).

Local Notation "m ~ m'" := (agree eq eq m m') (at level 70).
Local Abbreviation items := (Forall2 (below (N := N) h)).

Lemma parseExpressionList_agree l l' : items l l' → parseExpressionList rec l ~ parseExpressionList rec' l'.
Proof. intros Hl. eapply agree_map_eq; [|exact Hl]. intros a b Hab. agree_auto. Qed.

Lemma parseObjectFields_agree n t :
  denotes n t → (height t ≤ h)%nat → parseObjectFields rec n ~ parseObjectFields rec' t.
Proof.
  intros Hd Hh. unfold parseObjectFields. agree_step. agree_step; [agree_auto|].
  intros ms ms' Hms. apply (members_weaken (h := h) _ _ _) in Hms; [|done].
  eapply agree_fold_m; [|exact Hms|done]. intros o ? [k x] [k' y] -> [Hk Hxy]. cbn in Hk. subst k'.
  agree_auto.
Qed.

Ltac agree_call ::=
  first
  [ apply parseStringListValue_agree; eauto with agree
  | apply parseFunctionRef_agree; eauto with agree
  | apply parseExpressionList_agree; eauto with agree
  | apply parseObjectFields_agree; eauto with agree ].

#[local] Hint Resolve below_le : agree.

Lemma parseStarTag_agree own l l' : items l l' → parseStarTag rec own l ~ parseStarTag rec' own l'.
Proof.
  intros Hl. unfold parseStarTag. eapply agree_bind.
  - eapply (agree_fold_m _ _ eq); [|exact Hl|done]. intros c ? a b -> Hab.
    rewrite (law_Kind _ _ (below_denotes _ _ _ Hab)). cbn [Kind tree_Node].
    agree_auto.
  - agree_auto.
Qed.

Lemma parseDefaultPosition_agree n t :
  below h n t → parseDefaultPosition rec n ~ parseDefaultPosition rec' t.
Proof. intros. unfold parseDefaultPosition. agree_auto. Qed.

Lemma opt_default_agree l l' : items l l' → opt_default rec l ~ opt_default rec' l'.
Proof.
  intros Hl. unfold opt_default. destruct Hl; [agree_auto|].
  eapply agree_bind; [by apply parseDefaultPosition_agree|]. agree_auto.
Qed.

Lemma parseCol_agree l l' : items l l' → parseCol rec l ~ parseCol rec' l'.
Proof.
  intros Hl. unfold parseCol. rewrite (Forall2_length _ _ _ Hl).
  destruct (_ || _) eqn:Eb; [agree_auto|]. apply orb_false_iff in Eb as [E%Nat.ltb_ge _].
  eapply agree_bind; [by apply (list_at_agree (h := h)); [|lia]|]. intros x y Hxy.
  agree_step; [agree_auto|]. intros ? ? ->.
  agree_step; [by apply opt_default_agree, Forall2_drop|]. intros ? ? ->.
  agree_step; [by apply opt_default_agree, Forall2_drop|]. agree_auto.
Qed.

Lemma parseGetOrSet_agree tag l l' : items l l' → parseGetOrSet rec tag l ~ parseGetOrSet rec' tag l'.
Proof.
  intros Hl. unfold parseGetOrSet. rewrite (Forall2_length _ _ _ Hl).
  destruct (_ || _) eqn:Eb; [agree_auto|]. apply orb_false_iff in Eb as [E%Nat.ltb_ge _].
  eapply agree_bind; [by apply (list_at_agree (h := h)); [|lia]|]. intros x y Hxy.
  agree_step; [agree_auto|]. intros ? ? ->.
  agree_step; [by apply opt_default_agree, Forall2_drop|]. agree_auto.
Qed.

(** A direction and an expression, or the whole array, an expression of its own. *)
Lemma parseOrderByTerm_agree n t : below h n t → parseOrderByTerm rec n ~ parseOrderByTerm rec' t.
Proof.
  intros Hnt. unfold parseOrderByTerm. rewrite (law_Kind _ _ (below_denotes _ _ _ Hnt)).
  cbn [Kind tree_Node].
  assert ((e ← rec n; mret (e, OrderAsc)) ~ (e ← rec' t; mret (e, OrderAsc))) as Hbare by agree_auto.
  destruct (tree_Kind t); try exact Hbare.
  eapply agree_bind; [eapply agree_attempt, agree_arrayItems; eauto with agree|].
  intros ? ? [l l' Hl|]; [|exact Hbare].
  assert (items l l') as Hl' by (eapply items_weaken; [exact Hl|by eapply below_le]). clear Hl.
  destruct Hl' as [|d d' ? ? Hd [|e e' ? ? He [|]]]; try exact Hbare.
  eapply agree_bind; [eapply agree_attempt, agree_StrictString; eauto with agree|].
  intros ? ? [x y ->|]; cbn [mbind option_bind]; [|exact Hbare].
  destruct (map_get y orderByDirectionTags); [|exact Hbare]. agree_auto.
Qed.

Ltac agree_call ::=
  first
  [ apply parseStringListValue_agree; eauto with agree
  | apply parseFunctionRef_agree; eauto with agree
  | apply parseExpressionList_agree; eauto with agree
  | apply parseObjectFields_agree; eauto with agree
  | apply parseDefaultPosition_agree; eauto with agree
  | apply parseOrderByTerm_agree; eauto with agree ].

Lemma parseAggOption_agree o k n t :
  below h n t → agree same_code eq (parseAggOption rec o (k, n)) (parseAggOption rec' o (k, t)).
Proof.
  intros Hnt. unfold parseAggOption.
  repeat (match goal with |- agree _ _ (if ?b then _ else _) _ => destruct b end); [agree_auto..| |agree_auto].
  agree_step; [agree_auto|]. intros l l' Hl.
  assert (items l l') as Hl' by (eapply items_weaken; [exact Hl|by eapply below_le]). clear Hl.
  eapply (agree_bind _ eq); [|agree_auto].
  eapply agree_map_eq; [|exact Hl']. intros a b Hab. agree_auto.
Qed.

Lemma parseAggOptions_agree n t :
  below h n t → agree same_code eq (parseAggOptions rec n) (parseAggOptions rec' t).
Proof.
  intros Hnt. unfold parseAggOptions. agree_step; [agree_auto|]. intros ms ms' Hms.
  eapply agree_fold_m; [|exact (members_weaken _ _ _ Hms (below_le _ _ Hnt))|done].
  intros o ? [k x] [k' y] -> [Hk Hxy]. cbn in Hk. subst k'. by apply parseAggOption_agree.
Qed.

(** ** The tags *)

Ltac agree_call ::=
  first
  [ apply parseStringListValue_agree; eauto with agree
  | apply parseFunctionRef_agree; eauto with agree
  | apply parseExpressionList_agree; eauto with agree
  | apply parseObjectFields_agree; eauto with agree
  | apply parseDefaultPosition_agree; eauto with agree
  | apply parseOrderByTerm_agree; eauto with agree
  | apply parseAggOptions_agree; eauto with agree ].

Lemma parse_between_agree tag l l' : items l l' → parse_between rec tag l ~ parse_between rec' tag l'.
Proof.
  intros Hl. unfold parse_between.
  destruct Hl as [|? ? ? ? ? [|? ? ? ? ? [|? ? ? ? ? [|]]]]; agree_auto.
Qed.

Lemma parse_in_agree tag l l' : items l l' → parse_in rec tag l ~ parse_in rec' tag l'.
Proof. intros Hl. unfold parse_in. destruct Hl; agree_auto. Qed.

Lemma parse_any_all_agree tag l l' : items l l' → parse_any_all rec tag l ~ parse_any_all rec' tag l'.
Proof.
  intros Hl. unfold parse_any_all.
  destruct Hl as [|? ? ? ? ? [|? ? ? ? ? [|? ? ? ? ? [|]]]]; agree_auto.
Qed.

Lemma parse_concat_ws_agree l l' : items l l' → parse_concat_ws rec l ~ parse_concat_ws rec' l'.
Proof. intros Hl. unfold parse_concat_ws. destruct Hl; agree_auto. Qed.

Lemma parse_format_agree l l' : items l l' → parse_format rec l ~ parse_format rec' l'.
Proof. intros Hl. unfold parse_format. destruct Hl; agree_auto. Qed.

Lemma parse_agg_agree l l' : items l l' → parse_agg rec l ~ parse_agg rec' l'.
Proof.
  intros Hl. unfold parse_agg.
  destruct Hl as [|a a' ? ? Ha [|b b' opts opts' Hb Hl]]; [agree_auto..|].
  rewrite (Forall2_length _ _ _ Hl). destruct (1 <? _)%nat; [agree_auto|].
  agree_step; [agree_auto|]. intros ident ? ->.
  agree_step; [agree_auto|]. intros args args' Hargs.
  assert (items args args') by (eapply items_weaken; [exact Hargs|by eapply below_le]).
  agree_step; [agree_auto|]. intros es ? ->.
  agree_step; [apply agree_alloc|]. intros address ? ->.
  eapply (agree_bind _ eq); [|agree_auto].
  destruct Hl; agree_auto.
Qed.

Lemma parse_call_agree l l' : items l l' → parse_call rec l ~ parse_call rec' l'.
Proof. intros Hl. unfold parse_call. destruct Hl; agree_auto. Qed.

Lemma parse_hops_agree base l l' : items l l' → parse_hops base l ~ parse_hops base l'.
Proof.
  intros Hl. unfold parse_hops. eapply agree_fold_m; [|exact Hl|done].
  intros e ? a b -> Hab. agree_auto.
Qed.

Lemma parse_dot_agree l l' : items l l' → parse_dot rec l ~ parse_dot rec' l'.
Proof.
  intros Hl. unfold parse_dot. destruct Hl as [|a a' l l' Ha Hl]; [agree_auto|].
  eapply agree_bind; [eapply agree_attempt, agree_StrictString; eauto with agree|].
  intros ? ? [x y ->|]; [by apply parse_hops_agree|].
  destruct Hl as [|c c' l l' Hc Hl]; [agree_auto|]. agree_step; [agree_auto|]. intros e ? ->.
  apply parse_hops_agree. by constructor.
Qed.

Lemma parse_index_agree l l' : items l l' → parse_index rec l ~ parse_index rec' l'.
Proof. intros Hl. unfold parse_index. destruct Hl as [|? ? ? ? ? [|? ? ? ? ? [|]]]; agree_auto. Qed.

Lemma parse_slice_agree l l' : items l l' → parse_slice rec l ~ parse_slice rec' l'.
Proof.
  intros Hl. unfold parse_slice.
  destruct Hl as [|? ? ? ? ? [|? ? ? ? ? [|? ? ? ? ? [|]]]]; agree_auto.
Qed.

Lemma parse_param_agree l l' : items l l' → parse_param l ~ parse_param l'.
Proof.
  intros Hl. unfold parse_param. destruct Hl as [|a a' l l' Ha Hl]; [agree_auto|].
  rewrite (Forall2_length _ _ _ Hl). destruct (1 <? _)%nat; [agree_auto|].
  agree_step; [agree_auto|]. intros name ? ->. eapply (agree_bind _ eq); [|agree_auto].
  destruct Hl; agree_auto.
Qed.

Lemma parse_operator_agree tag l l' : items l l' → parse_operator rec tag l ~ parse_operator rec' tag l'.
Proof.
  intros Hl. unfold parse_operator. rewrite (Forall2_length _ _ _ Hl).
  destruct (is_unary tag && _) eqn:Eu.
  { apply andb_true_iff in Eu as [_ E%Nat.eqb_eq].
    eapply agree_bind; [by apply (list_at_agree (h := h)); [|lia]|]. agree_auto. }
  destruct (is_binary tag && _) eqn:Eb.
  { apply andb_true_iff in Eb as [_ E%Nat.eqb_eq].
    eapply agree_bind; [by apply (list_at_agree (h := h)); [|lia]|]. intros x y Hxy.
    agree_step; [agree_auto|]. intros e ? ->.
    eapply agree_bind; [by apply (list_at_agree (h := h)); [|lia]|]. agree_auto. }
  destruct (folded tag) as [op|]; [|agree_auto]. destruct (1 <=? _)%nat; [|agree_auto].
  agree_step; [agree_auto|]. intros es ? ->. apply agree_lift_total; [done|].
  apply foldExpression_returns.
Qed.

Lemma parse_tag_agree tag l l' : items l l' → parse_tag rec tag l ~ parse_tag rec' tag l'.
Proof.
  intros Hl. unfold parse_tag.
  repeat lazymatch goal with
  | |- agree _ _ (if ?b then _ else _) (if ?b then _ else _) => destruct b
  end; try (agree_auto; done);
  first
  [ by apply parse_between_agree | eapply parseValidatedStringArgLiteral_agree; exact Hl
  | by apply parse_in_agree | by apply parse_any_all_agree | by apply parse_concat_ws_agree
  | by apply parse_format_agree | by apply parse_agg_agree | by apply parse_call_agree
  | by apply parse_dot_agree | by apply parseStarTag_agree | by apply parse_index_agree
  | by apply parse_slice_agree | by apply parseCol_agree | by apply parseGetOrSet_agree
  | by apply parse_param_agree | by apply parse_operator_agree ].
Qed.

Lemma parseArrayExpression_agree n t :
  denotes n t → (height t ≤ h)%nat → parseArrayExpression rec n ~ parseArrayExpression rec' t.
Proof.
  intros Hd Hh. unfold parseArrayExpression. agree_step; [agree_auto|]. intros l l' Hl.
  apply (items_weaken (h := h) _ _ _) in Hl; [|done]. destruct Hl as [|a a' l l' Ha Hl]; [agree_auto|].
  agree_step; [agree_auto|]. intros tag ? ->. by apply parse_tag_agree.
Qed.

Lemma parseNode_body_agree n t :
  denotes n t → (height t ≤ h)%nat → parseNode_body rec n ~ parseNode_body rec' t.
Proof.
  intros Hd Hh. unfold parseNode_body. rewrite (law_Kind _ _ Hd). cbn [Kind tree_Node].
  destruct (tree_Kind t); agree_auto. by apply parseArrayExpression_agree.
Qed.
End body.

Lemma height_pos t : (0 < height t)%nat.
Proof. destruct t as [r []]; cbn; lia. Qed.

Section refinement.
Context {N : Type} `{HN : Node N, HL : !NodeLaws N}.

Lemma parseNode_agree f f' n t :
  denotes n t → (height t ≤ f)%nat → (height t ≤ f')%nat →
  agree eq eq (parseNode f n) (parseNode f' t).
Proof.
  revert f f' n t.
  induction f as [|f IH]; intros f' n t Hd Hf Hf'; pose proof (height_pos t); [lia|].
  destruct f' as [|f']; [lia|]. cbn [parseNode].
  apply (parseNode_body_agree (height t)); [|done|lia].
  intros n' t' [Hd' Hlt]. apply IH; [done|lia..].
Qed.

Lemma agree_run {S A} (m m' : M S A) s : agree eq eq m m' → m s = m' s ∧ returns (m s).
Proof.
  intros Hm. specialize (Hm s).
  destruct (m s) as [[a s1]|e| |], (m' s) as [[b s2]|e'| |]; try done.
  - by destruct Hm as [-> ->].
  - by subst.
Qed.

(** C7: reading an expression through any implementation of the [Node]
    interface that obeys its laws gives, once the fuel is the height of the
    document, the result of reading the document itself: a parsed expression or
    an error, never a panic, whatever the request. *)
Theorem parseNode_refines (f : nat) (n : N) (t : tree) :
  denotes n t → (height t ≤ f)%nat →
  ∀ s, parseNode f n s = parseNode (height t) t s ∧ returns (parseNode f n s).
Proof. intros Hd Hf s. by apply agree_run, parseNode_agree. Qed.
End refinement.

(** The expression [["+", "1"]], of one operand, as an abstract document. *)
Definition sample_tree : tree :=
  let leaf s := Tree (inl s) (SString s) in
  Tree (inl "") (SArray [leaf "+"; leaf "1"]).

Lemma parseNode_refines_witness :
  parseNode 5 sample_tree 0%nat = parseNode (height sample_tree) sample_tree 0%nat ∧
  returns (parseNode 5 sample_tree 0%nat).
Proof. apply (parseNode_refines 5 sample_tree sample_tree); [reflexivity|vm_compute; lia]. Defined.
