(* ===== verification/ParseExprSpec.v ===== *)
(** What the expression parser produces.

    [parsed] is the shape of a parsed expression: literals that are numbers,
    operators of the vocabulary, hops that are names, [default] only where it
    may stand, and nothing resolved yet.  Every expression the parser returns
    has it.  The spelling of an operator does not matter, and a chained
    comparison means what it says. *)
From Stdlib Require Import ZArith Lia Ascii.
From S2P Require Import Prelude CborNode Text Document DocumentLaws Expression ParseExpr.
Set Warnings "-register-all".
#[local] Set Default Proof Using "Type*".

Definition all_of {A} (P : A → Prop) : list A → Prop :=
  fix go l := match l with [] => True | a :: l => P a ∧ go l end.
Definition opt_of {A} (P : A → Prop) (o : option A) : Prop :=
  match o with Some a => P a | None => True end.

(** The operators of [any] and [all]: a binary or a folded tag. *)
Definition known_operator (op : string) : Prop := is_binary op = true ∨ is_Some (folded op).

Definition is_name (e : Expression) : Prop :=
  match e with Identifier _ None => True | _ => False end.

Fixpoint parsed (e : Expression) : Prop :=
  let default_of (o : option Expression) :=
    match o with Some e => match e with DefaultKeyword => True | _ => parsed e end | None => True end in
  match e with
  | NullLiteral | BoolLiteral _ | NumberLiteral _ | StringLiteral _ | ParamExpr _ _ => True
  | DefaultKeyword => False
  | Identifier _ r => r = None
  | BigIntLiteral v => validBigIntLiteral v = true
  | NumericLiteral v => validNumericLiteral v = true
  | UnaryExpr op e => is_unary op = true ∧ parsed e
  | BinaryExpr op l r => is_binary op = true ∧ parsed l ∧ parsed r
  | FoldedExpr op l r =>
      op ∈ foldedOperators.*2 ∧ parsed l ∧ parsed r ∧ (op = FoldDot → is_name r)
  | BetweenExpr _ a b c => parsed a ∧ parsed b ∧ parsed c
  | InExpr _ e es => parsed e ∧ all_of parsed es
  | AnyAllExpr _ op a b => known_operator op ∧ parsed a ∧ parsed b
  | ConcatWsExpr e es => parsed e ∧ all_of parsed es
  | CoalesceExpr es | FormatExpr _ es | ArrExpr es | LstExpr es => all_of parsed es
  | AggExpr _ _ args filter _ order_by r =>
      all_of parsed args ∧ opt_of parsed filter ∧ all_of (λ t, parsed t.1) order_by ∧ r = None
  | CallExpr _ args r => all_of parsed args ∧ r = None
  | ObjectExpr fields => all_of (λ f, parsed f.2) fields
  | StarExpr _ _ and => all_of (λ f, parsed f.2) and
  | IndexExpr a b => parsed a ∧ parsed b
  | SliceExpr a b c => parsed a ∧ parsed b ∧ parsed c
  | ColExpr _ g s r c => default_of g ∧ default_of s ∧ r = None ∧ c = None
  | GetExpr _ d c | SetExpr _ d c => default_of d ∧ c = None
  end.

Definition parsed_default (o : option Expression) : Prop :=
  match o with Some DefaultKeyword | None => True | Some e => parsed e end.

Lemma all_of_app {A} (P : A → Prop) l k : all_of P l → all_of P k → all_of P (l ++ k).
Proof. induction l as [|a l IH]; cbn; [done|]. intros [? ?] ?. split; auto. Qed.
Lemma all_of_map_set {A} (P : A → Prop) k (v : A) m :
  P v → all_of (λ f, P f.2) m → all_of (λ f : string * A, P f.2) (map_set k v m).
Proof.
  intros Hv. induction m as [|[k' v'] m IH]; cbn; [done|]. intros [? ?].
  case_decide; cbn; auto.
Qed.
Lemma all_of_map_merge {A} (P : A → Prop) (m a : list (string * A)) :
  all_of (λ f, P f.2) m → all_of (λ f, P f.2) a → all_of (λ f, P f.2) (map_merge m a).
Proof.
  unfold map_merge. revert m. induction a as [|[k v] a IH]; intros m Hm; cbn; [done|].
  intros [? ?]. apply IH; [|done]. by apply all_of_map_set.
Qed.

(** * Postconditions *)

Definition post {A} (Q : A → Prop) (m : parser A) : Prop :=
  ∀ s, match m s with Ok (a, _) => Q a | _ => True end.

Lemma post_ret {A} (Q : A → Prop) a : Q a → post Q (mret a).
Proof. intros ? s. done. Qed.
Lemma post_bind {A B} (P : A → Prop) (Q : B → Prop) m (f : A → parser B) :
  post P m → (∀ a, P a → post Q (f a)) → post Q (m ≫= f).
Proof.
  intros Hm Hf s. specialize (Hm s). unfold mbind, M_bind.
  destruct (m s) as [[a s1]|e| |]; try done. by apply Hf.
Qed.
Lemma post_any {A} (m : parser A) : post (λ _, True) m.
Proof. intros s. by destruct (m s) as [[]|e| |]. Qed.
(** A call whose result is not constrained. *)
Lemma post_skip {A B} (Q : B → Prop) (m : parser A) (f : A → parser B) :
  (∀ a, post Q (f a)) → post Q (m ≫= f).
Proof. intros Hf. eapply post_bind; [apply post_any|]. auto. Qed.
Lemma post_wrap {A} (Q : A → Prop) msg m : post Q m → post Q (wrap msg m).
Proof. intros Hm s. specialize (Hm s). unfold wrap, wrapf. by destruct (m s) as [[]|e| |]. Qed.
Lemma post_fail {A} (Q : A → Prop) code msg : post Q (fail code msg).
Proof. intros s. done. Qed.
Lemma post_lift {A} (Q : A → Prop) (m : outcome A) : (∀ a, m = Ok a → Q a) → post Q (lift m).
Proof. intros Hm s. unfold lift. destruct m; try done. by apply Hm. Qed.
Lemma post_map_m {A B} (Q : B → Prop) (f : A → parser B) l :
  (∀ a, post Q (f a)) → post (all_of Q) (map_m f l).
Proof.
  intros Hf. induction l as [|a l IH]; cbn [map_m]; [by apply post_ret|].
  eapply post_bind; [apply Hf|]. intros b Hb. eapply post_bind; [exact IH|]. intros bs Hbs.
  by apply post_ret.
Qed.
Lemma post_fold_m {A B} (Q : B → Prop) (f : B → A → parser B) b l :
  (∀ b a, Q b → post Q (f b a)) → Q b → post Q (fold_m f b l).
Proof.
  intros Hf. revert b. induction l as [|a l IH]; intros b Hb; cbn [fold_m]; [by apply post_ret|].
  eapply post_bind; [by apply Hf|]. auto.
Qed.

(** One step: a result that matters is bound by [post_bind], the others skipped. *)
Ltac post_call := fail.
Ltac post_step :=
  match goal with
  | |- post _ (mret _) => apply post_ret
  | |- post _ (fail _ _) => apply post_fail
  | |- post _ (wrap _ _) => apply post_wrap
  | |- post _ (match ?x with _ => _ end) => destruct x eqn:?
  | H : ∀ n, post parsed (?rec n) |- post parsed (?rec _) => apply H
  | |- post _ (mbind _ _) =>
      first
      [ eapply post_bind;
        [ first [post_call | apply post_wrap; post_call
                | match goal with H : ∀ n, post parsed (?rec n) |- post _ (?rec _) => apply H end
                | match goal with H : ∀ n, post parsed (?rec n) |- post _ (wrap _ (?rec _)) =>
                    apply post_wrap, H end ]|]
      | apply post_skip ]; intros
  | _ => post_call
  end.
Ltac post_auto := repeat post_step; cbn; try tauto; eauto.

Section body.
Context {N : Type} `{Node N}.
Context (rec : N → parser Expression) (Hrec : ∀ n, post parsed (rec n)).

Lemma parseExpressionList_parsed l : post (all_of parsed) (parseExpressionList rec l).
Proof. apply post_map_m. intros a. by apply post_wrap. Qed.

Lemma parseObjectFields_parsed n : post (all_of (λ f, parsed f.2)) (parseObjectFields rec n).
Proof.
  apply post_wrap, post_skip. intros ms. apply post_fold_m; [|done]. intros o [k v] Ho.
  eapply post_bind; [apply post_wrap, Hrec|]. intros e He. by apply post_ret, all_of_map_set.
Qed.

Lemma parseStarTag_parsed own l : post parsed (parseStarTag rec own l).
Proof.
  eapply (post_bind (λ r, all_of (λ f, parsed f.2) r.2)).
  - apply post_fold_m; [|done]. intros acc n Hacc. destruct (Kind n); try apply post_fail.
    + apply post_skip. intros e. by apply post_ret.
    + eapply post_bind; [apply parseObjectFields_parsed|]. intros a Ha.
      by apply post_ret, all_of_map_merge.
  - intros r Hr. by apply post_ret.
Qed.

Lemma opt_default_parsed l : post parsed_default (opt_default rec l).
Proof.
  unfold opt_default. destruct l as [|n l]; [by apply post_ret|].
  eapply (post_bind (λ e, parsed_default (Some e))); [|intros e He; by apply post_ret].
  apply post_skip. intros [s|].
  - destruct (String.eqb s "default"); [by apply post_ret|].
    intros st. specialize (Hrec n st). destruct (rec n st) as [[[] ?]|e| |]; done.
  - intros st. specialize (Hrec n st). destruct (rec n st) as [[[] ?]|e| |]; done.
Qed.

Lemma parseCol_parsed l : post parsed (parseCol rec l).
Proof.
  unfold parseCol. destruct (_ || _); [apply post_fail|].
  apply post_skip; intros c. apply post_skip; intros column.
  eapply post_bind; [apply opt_default_parsed|]. intros g Hg.
  eapply post_bind; [apply opt_default_parsed|]. intros st Hst. by apply post_ret.
Qed.

Lemma parseGetOrSet_parsed tag l : post parsed (parseGetOrSet rec tag l).
Proof.
  unfold parseGetOrSet. destruct (_ || _); [apply post_fail|].
  apply post_skip; intros c. apply post_skip; intros column.
  eapply post_bind; [apply opt_default_parsed|]. intros g Hg. by apply post_ret; destruct (String.eqb tag "get").
Qed.

Lemma parseOrderByTerm_parsed n : post (λ t, parsed t.1) (parseOrderByTerm rec n).
Proof.
  unfold parseOrderByTerm.
  assert (∀ n d, post (λ t : OrderByTerm, parsed t.1) (e ← rec n; mret (e, d))) as Hbare.
  { intros n' d. eapply post_bind; [apply Hrec|]. intros e He. by apply post_ret. }
  destruct (Kind n); try apply Hbare. apply post_skip. intros [[|d [|e [|]]]|]; try apply Hbare.
  apply post_skip. intros tag. destruct (tag ≫= _); apply Hbare.
Qed.

Definition parsed_options (o : aggOptions) : Prop :=
  opt_of parsed (agg_filter o) ∧ all_of (λ t, parsed t.1) (agg_order_by o).

Lemma parseAggOptions_parsed n : post parsed_options (parseAggOptions rec n).
Proof.
  apply post_skip. intros ms. apply post_fold_m; [|done]. intros o [k v] [Hf Ho].
  unfold parseAggOption. destruct (String.eqb k "filter").
  { eapply post_bind; [apply Hrec|]. intros e He. by apply post_ret. }
  destruct (String.eqb k "distinct"); [apply post_skip; intros b; by apply post_ret|].
  destruct (String.eqb k "order_by"); [|apply post_fail].
  apply post_skip. intros items. eapply post_bind.
  { apply post_map_m. intros i. apply post_wrap, parseOrderByTerm_parsed. }
  intros ts Hts. apply post_ret. split; [done|]. by apply all_of_app.
Qed.

(** ** The tags *)

#[local] Ltac post_call ::=
  first
  [ apply parseExpressionList_parsed; exact Hrec
  | apply parseStarTag_parsed; exact Hrec
  | apply parseAggOptions_parsed; exact Hrec ].

Lemma parse_between_parsed tag l : post parsed (parse_between rec tag l).
Proof. unfold parse_between. post_auto. Qed.
Lemma parse_in_parsed tag l : post parsed (parse_in rec tag l).
Proof. unfold parse_in. post_auto. Qed.

Lemma parse_any_all_parsed tag l : post parsed (parse_any_all rec tag l).
Proof.
  unfold parse_any_all. destruct l as [|a [|b [|c [|]]]]; try apply post_fail.
  apply post_skip. intros op. destruct (negb _ && negb _) eqn:Eop; [apply post_fail|].
  assert (known_operator (canonical op)) as Hop.
  { unfold known_operator. destruct (is_binary _); [by left|right].
    by destruct (bool_decide_reflect (is_Some (folded (canonical op)))). }
  post_auto.
Qed.

Lemma parse_concat_ws_parsed l : post parsed (parse_concat_ws rec l).
Proof. unfold parse_concat_ws. post_auto. Qed.
Lemma parse_format_parsed l : post parsed (parse_format rec l).
Proof. unfold parse_format. post_auto. Qed.

Lemma parse_agg_parsed l : post parsed (parse_agg rec l).
Proof.
  unfold parse_agg. destruct l as [|a [|b opts]]; try apply post_fail.
  destruct (1 <? _)%nat; [apply post_fail|].
  apply post_skip; intros ident. apply post_skip; intros items.
  eapply post_bind; [by apply parseExpressionList_parsed|]. intros args Hargs.
  apply post_skip; intros address. eapply (post_bind parsed_options).
  - destruct opts; [by apply post_ret|]. by apply post_wrap, parseAggOptions_parsed.
  - intros o [Hf Ho]. by apply post_ret.
Qed.

Lemma parse_call_parsed l : post parsed (parse_call rec l).
Proof. unfold parse_call. post_auto. Qed.

Lemma FoldDot_folded : FoldDot ∈ foldedOperators.*2.
Proof. by apply (bool_decide_unpack _). Qed.

Lemma parse_hops_parsed base l : parsed base → post parsed (parse_hops base l).
Proof.
  intros Hb. apply post_fold_m; [|done]. intros e n He. apply post_skip. intros name.
  apply post_ret. cbn [parsed is_name]. split_and!; try done. apply FoldDot_folded.
Qed.

Lemma parse_dot_parsed l : post parsed (parse_dot rec l).
Proof.
  unfold parse_dot. destruct l as [|a hops]; [apply post_fail|]. apply post_skip. intros [name|].
  - by apply parse_hops_parsed.
  - destruct hops as [|b hops]; [apply post_fail|].
    eapply post_bind; [apply Hrec|]. intros base Hb. by apply parse_hops_parsed.
Qed.

Lemma parse_index_parsed l : post parsed (parse_index rec l).
Proof. unfold parse_index. post_auto. Qed.
Lemma parse_slice_parsed l : post parsed (parse_slice rec l).
Proof. unfold parse_slice. post_auto. Qed.
Lemma parse_param_parsed (l : list N) : post parsed (parse_param l).
Proof. unfold parse_param. post_auto. Qed.

Lemma parseValidated_parsed l valid build :
  (∀ v, valid v = true → parsed (build v)) → post parsed (parseValidatedStringArgLiteral (N := N) l valid build).
Proof.
  intros Hb. unfold parseValidatedStringArgLiteral. destruct l as [|a []]; try apply post_fail.
  apply post_skip. intros v. destruct (valid v) eqn:E; [|apply post_fail]. by apply post_ret, Hb.
Qed.

(** *** Folding *)

Lemma fold_left_parsed op es e :
  op ∈ foldedOperators.*2 → op ≠ FoldDot → all_of parsed es →
  fold_left_expr op es = Ok e → parsed e.
Proof.
  intros Hop Hdot. destruct es as [|e0 es]; [done|]. cbn. intros [He Hes] [= <-].
  revert e0 He Hes. induction es as [|e1 es IH]; intros e0 He; cbn; [done|]. intros [He1 Hes].
  apply IH; [|done]. cbn. tauto.
Qed.

Lemma comparison_pairs_parsed op es :
  op ∈ foldedOperators.*2 → op ≠ FoldDot → all_of parsed es → all_of parsed (comparison_pairs op es).
Proof.
  intros Hop Hdot. induction es as [|a es IH]; [done|]. intros [Ha Hes].
  destruct es as [|b es]; [done|]. cbn [comparison_pairs all_of]. split; [|by apply IH].
  destruct Hes as [Hb _]. cbn. tauto.
Qed.

Lemma foldExpression_parsed op es e :
  op ∈ foldedOperators.*2 → op ≠ FoldDot → all_of parsed es → foldExpression op es = Ok e → parsed e.
Proof.
  intros Hop Hdot Hes. unfold foldExpression. destruct es as [|a [|b es]]; [done| |].
  - intros [= <-]. apply Hes.
  - destruct (bool_decide _); [|by apply fold_left_parsed].
    apply fold_left_parsed; [by apply (bool_decide_unpack _)|discriminate|]. by apply comparison_pairs_parsed.
Qed.

Lemma map_get_values {A} k (m : list (string * A)) v : map_get k m = Some v → v ∈ m.*2.
Proof.
  induction m as [|[k' v'] m IH]; cbn; [done|]. case_decide; [intros [= <-]; by left|].
  intros. right. by apply IH.
Qed.

(** Only the tag ["."] is the operator ["."]. *)
Lemma folded_dot tag : folded tag = Some FoldDot → tag = ".".
Proof.
  unfold folded, FoldDot. cbn [map_get foldedOperators].
  repeat (case_decide; [first [by intros [=]|congruence]|]). done.
Qed.

Lemma parse_operator_parsed tag l : tag ≠ "." → post parsed (parse_operator rec tag l).
Proof.
  intros Htag. unfold parse_operator. destruct (is_unary tag && _) eqn:Eu.
  { apply andb_true_iff in Eu as [Eu _]. apply post_skip. intros a. post_auto. }
  destruct (is_binary tag && _) eqn:Eb.
  { apply andb_true_iff in Eb as [Eb _]. apply post_skip. intros a.
    eapply post_bind; [apply Hrec|]. intros e He. apply post_skip. intros b. post_auto. }
  destruct (folded tag) as [op|] eqn:Ef; [|apply post_fail]. destruct (1 <=? _)%nat; [|apply post_fail].
  eapply post_bind; [by apply parseExpressionList_parsed|]. intros es Hes.
  apply post_lift. intros e. apply foldExpression_parsed; [by eapply map_get_values| |done].
  intros ->. by apply Htag, folded_dot.
Qed.

Lemma parse_tag_parsed tag l : post parsed (parse_tag rec tag l).
Proof.
  unfold parse_tag.
  repeat lazymatch goal with |- post _ (if ?b then _ else _) => destruct b eqn:? end;
  first
  [ apply parse_between_parsed | by apply parseValidated_parsed | apply parse_in_parsed
  | apply parse_any_all_parsed | apply parse_concat_ws_parsed | apply parse_format_parsed
  | apply parse_agg_parsed | apply parse_call_parsed | apply parse_dot_parsed
  | by apply parseStarTag_parsed | apply parse_index_parsed | apply parse_slice_parsed
  | apply parseCol_parsed | apply parseGetOrSet_parsed | apply parse_param_parsed
  | apply parse_operator_parsed; intros -> | idtac ]; [post_auto..|discriminate].
Qed.

Lemma parseNode_body_parsed n : post parsed (parseNode_body rec n).
Proof.
  unfold parseNode_body. destruct (Kind n); try apply post_fail.
  - by apply post_ret.
  - apply post_skip. intros b. by apply post_ret.
  - apply post_skip. intros f. by apply post_ret.
  - apply post_skip. intros s. by apply post_ret.
  - unfold parseArrayExpression. apply post_skip. intros [|t rest]; [apply post_fail|].
    apply post_skip. intros tag. apply parse_tag_parsed.
  - eapply post_bind; [by apply parseObjectFields_parsed|]. intros fields Hf. by apply post_ret.
Qed.
End body.

(** * Properties *)

(** C9: every expression the parser returns is well formed, whatever the
    document: a [bigint] or a [numeric] holds the text of a number and nothing
    else, every operator is one of the vocabulary, a "." hop is a name, the
    keyword [default] stands only in a default position, and nothing is
    resolved. *)
Theorem parseNode_parsed {N : Type} `{Node N} (fuel : nat) (n : N) (s : nat) :
  match parseNode fuel n s with
  | Ok (e, _) => parsed e
  | _ => True
  end.
Proof.
  revert n s. induction fuel as [|fuel IH]; intros n s; [done|]. cbn [parseNode].
  apply (parseNode_body_parsed (parseNode fuel)). exact IH.
Qed.

Lemma canonical_idempotent tag : canonical (canonical tag) = canonical tag.
Proof.
  unfold canonical at 2 3. destruct (map_get tag OperatorWords) as [op|] eqn:E; cbn [default];
    [|unfold canonical; by rewrite E].
  apply map_get_values in E.
  assert (Forall (λ op, canonical op = op) OperatorWords.*2) as Hall by by apply (bool_decide_unpack _).
  by apply (proj1 (List.Forall_forall _ _) Hall), list_elem_of_In.
Qed.

(** The array [[tag, operands...]]. *)
Definition tagged (r r' : string + error) (tag : string) (operands : list tree) : tree :=
  Tree r (SArray (Tree r' (SString tag) :: operands)).


(** ** Chained comparisons *)

(** Operands two by two. *)
Fixpoint consecutive {A} (R : A → A → Prop) (l : list A) : Prop :=
  match l with
  | a :: (b :: _) as l' => R a b ∧ consecutive R l'
  | _ => True
  end.

(** A reading of conjunctions and comparisons as propositions. *)
Definition reads_folds (holds : Expression → Prop) (op : FoldedOperator) (R : Expression → Expression → Prop) : Prop :=
  (∀ a b, holds (FoldedExpr FoldAnd a b) ↔ holds a ∧ holds b) ∧
  (∀ a b, holds (FoldedExpr op a b) ↔ R a b).

Section chain.
Context (holds : Expression → Prop) (op : FoldedOperator) (R : Expression → Expression → Prop).
Context (Hreads : reads_folds holds op R).

Lemma holds_conjunction e es :
  holds (foldl (λ a b, FoldedExpr FoldAnd a b) e es) ↔ holds e ∧ all_of holds es.
Proof.
  destruct Hreads as [Hand _]. revert e. induction es as [|b es IH]; intros e; cbn; [tauto|].
  rewrite IH, Hand. tauto.
Qed.

Lemma holds_pairs es : all_of holds (comparison_pairs op es) ↔ consecutive R es.
Proof.
  destruct Hreads as [_ Hop]. induction es as [|a es IH]; [done|].
  destruct es as [|b es]; [done|]. cbn [comparison_pairs all_of consecutive]. by rewrite Hop, IH.
Qed.
End chain.

(** C11: a chained comparison, [["<", a, b, c]], means that each operand compares
    with the next: for any reading of [and] as conjunction and of the operator as
    a relation, what the fold builds holds when the relation does between every
    two consecutive operands. *)
Theorem comparison_chain (holds : Expression → Prop) (op : FoldedOperator)
    (R : Expression → Expression → Prop) (Hreads : reads_folds holds op R)
    (a b : Expression) (es : list Expression) (Hop : op ∈ comparisonFoldOps) :
  ∃ e, foldExpression op (a :: b :: es) = Ok e ∧ (holds e ↔ consecutive R (a :: b :: es)).
Proof.
  unfold foldExpression. rewrite bool_decide_true by done.
  set (ps := comparison_pairs op (a :: b :: es)).
  assert (ps = FoldedExpr op a b :: comparison_pairs op (b :: es)) as -> by done.
  eexists. split; [reflexivity|].
  rewrite (holds_conjunction _ _ _ Hreads), <-(holds_pairs _ _ _ Hreads). done.
Qed.

(** Expressions read as numbers: [1 < 2 < 3]. *)
Definition number_of (e : Expression) : Z := match e with NumberLiteral z => z | _ => 0 end.
Fixpoint sample_holds (e : Expression) : Prop :=
  match e with
  | FoldedExpr op a b =>
      if String.eqb op FoldAnd then sample_holds a ∧ sample_holds b else number_of a < number_of b
  | _ => False
  end.

Lemma comparison_chain_witness :
  ∃ e, foldExpression "<" [NumberLiteral 1; NumberLiteral 2; NumberLiteral 3] = Ok e ∧
    (sample_holds e ↔ consecutive (λ a b, number_of a < number_of b)
                        [NumberLiteral 1; NumberLiteral 2; NumberLiteral 3]).
Proof.
  apply (comparison_chain sample_holds "<" (λ a b, number_of a < number_of b)).
  - split; [intros a b; split; exact (λ h, h)|intros a b; split; exact (λ h, h)].
  - apply (bool_decide_unpack _). reflexivity.
Defined.

(** Any other operator associates to the left. *)
Example fold_minus : foldExpression "-" [NumberLiteral 1; NumberLiteral 2; NumberLiteral 3]
  = Ok (FoldedExpr "-" (FoldedExpr "-" (NumberLiteral 1) (NumberLiteral 2)) (NumberLiteral 3)).
Proof. reflexivity. Qed.
