(* ===== verification/ParseQuery.v ===== *)
(** Pass 1, queries: [src/query/node_parse.go] and the definition files of
    [src/query/wellknown_parse.go].

    Both decode a document already parsed, through [Node].  [efuel] bounds the
    nesting of an expression, [fuel] that of the joins and sequences; the height
    of the document is enough for both.  The messages are written without their
    quotes. *)
From Stdlib Require Import ZArith Lia Ascii.
From S2P Require Import Prelude Document Expression ParseExpr.
Set Warnings "-register-all".

Definition QueryInvalidReturns : string := "QUERY_INVALID_RETURNS".

Definition validReturnsValues : list string := [""; "none"; "results"].

Definition ValidateReturns {N} (rq : rawWriteQuery N) : parser unit :=
  if bool_decide (wq_returns rq ∈ validReturnsValues) then mret tt
  else fail QueryInvalidReturns "query: returns must be none or results, got %q".

(** [RawWellKnownParam]; the default's text, when the key is present. *)
Record RawWellKnownParam := MkRawWellKnownParam { wkp_type : string; wkp_default : option string }.

Record RawWellKnownDefinition := MkRawWellKnownDefinition {
  wkd_name : string;
  wkd_params : list (string * RawWellKnownParam);
  wkd_query : rawRelation;
  wkd_query_raw : string;
}.

Section parse.
Context {N : Type} `{Node N}.

(** [if x, ok := n.ObjectGet(key); ok { v, err = f(x) }] *)
Definition field {A} (n : N) (key : string) (f : N → parser A) : parser (option A) :=
  x ← lift (ObjectGet n key);
  match x with
  | None => mret None
  | Some x => a ← f x; mret (Some a)
  end.

(** [if _, ok := n.ObjectGet(key); ok] *)
Definition has_field (n : N) (key : string) : parser bool :=
  x ← lift (ObjectGet n key); mret (match x with Some _ => true | None => false end).

(** The value, and whether the key was there. *)
Definition boolField (n : N) (key : string) : parser (bool * bool) :=
  x ← lift (ObjectGet n key);
  match x with
  | None => mret (false, false)
  | Some x => b ← wrap "query: %q must be a boolean" (lift (StrictBool x)); mret (b, true)
  end.

Definition string_field (n : N) (key msg : string) : parser string :=
  s ← field n key (λ x, wrap msg (lift (StrictString x)));
  mret (default "" s).

Definition parseStringMap (n : N) : parser (list (string * string)) :=
  wrap "expected an object"
    (ms ← lift (ObjectEach n);
     fold_m (λ out kv,
       s ← wrap "field %q: expected a string" (lift (StrictString kv.2));
       mret (map_set kv.1 s out)) [] ms).

Definition parseRawWellKnown (n wk : N) : parser rawWellKnown :=
  name ← wrap "query: wellknown must be a string" (lift (StrictString wk));
  params ← field n "params" (λ p, wrap "query: params" (lift (Raw p)));
  mret (RawWellKnown name params).

Section relation.
(** [parseNode] *)
Variable node : N → parser Expression.

(** The name of the relation or of the function, and which of the two. *)
Definition parse_target (n : N) : parser (string * bool) :=
  relNode ← lift (ObjectGet n "relation");
  fnNode ← lift (ObjectGet n "function");
  match relNode, fnNode with
  | Some _, Some _ => fail "" "query: relation object must have exactly one of relation or function, not both"
  | None, None => fail "" "query: relation object needs exactly one of relation or function"
  | Some r, None =>
      s ← wrap "query: relation must be a string" (lift (StrictString r));
      if String.eqb s "" then fail "" "query: relation must not be empty" else mret (s, false)
  | None, Some f =>
      s ← wrap "query: function must be a string" (lift (StrictString f));
      if String.eqb s "" then fail "" "query: function must not be empty" else mret (s, true)
  end.

Definition parse_arguments (is_function : bool) (args : N)
    : parser (option (list Expression) * option (list (string * Expression))) :=
  if negb is_function then fail "" "query: arguments is only valid alongside function, not relation"
  else
    match Kind args with
    | KindArray =>
        items ← wrap "query: arguments" (lift (arrayItems args));
        es ← wrap "query: arguments" (parseExpressionList node items);
        mret (Some es, None)
    | KindObject => fs ← wrap "query: arguments" (parseObjectFields node args); mret (None, Some fs)
    | _ => fail "" "query: arguments must be an array or an object"
    end.

(** The constraint's name, or the columns. *)
Definition parse_on_conflict (oc : N) : parser (string * option (list string)) :=
  match Kind oc with
  | KindString => s ← wrap "query: on_conflict" (lift (StrictString oc)); mret (s, None)
  | KindArray => l ← wrap "query: on_conflict" (parseStringListValue oc); mret ("", Some l)
  | _ => fail "" "query: on_conflict must be a string or a string array"
  end.

Definition parse_distinct_on (d : N) : parser (list Expression) :=
  items ← wrap "query: distinct_on must be an array" (lift (arrayItems d));
  wrap "query: distinct_on" (parseExpressionList node items).

Definition parse_order_by (ob : N) : parser (list OrderByTerm) :=
  items ← wrap "query: order_by must be an array" (lift (arrayItems ob));
  map_m (λ i, wrap "query: order_by item %d" (parseOrderByTerm node i)) items.

(** A join alias and its relation. *)
Definition parse_join (rec : N → parser rawRelation) (j : N) : parser (list (string * rawRelation)) :=
  ms ← lift (ObjectEach j);
  fold_m (λ out kv,
    r ← wrap "query: join %q" (rec kv.2);
    mret (map_set kv.1 r out)) [] ms.

Definition parseRawRelation_body (rec : N → parser rawRelation) (n : N) : parser rawRelation :=
  target ← parse_target n;
  let '(name, is_function) := target in
  schema ← string_field n "schema" "query: schema must be a string";
  alias ← string_field n "alias" "query: alias must be a string";
  on ← field n "on" (λ x, wrap "query: on" (parseStringMap x));
  args ← field n "arguments" (parse_arguments is_function);
  let '(positional, named) := default (None, None) args in
  where_ ← field n "where" (λ w, wrap "query: where" (node w));
  write_mode ← string_field n "write_mode" "query: write_mode must be a string";
  oc ← field n "on_conflict" parse_on_conflict;
  let '(oc_name, oc_columns) := default ("", None) oc in
  insert_columns ← field n "insert_columns" (λ x, wrap "query: insert_columns" (parseStringListValue x));
  update_columns ← field n "update_columns" (λ x, wrap "query: update_columns" (parseStringListValue x));
  join ← field n "join" (parse_join rec);
  select ← field n "select" (λ x, wrap "query: select" (node x));
  distinct ← field n "distinct" (λ d, wrap "query: distinct must be a boolean" (lift (StrictBool d)));
  distinct_on ← field n "distinct_on" parse_distinct_on;
  order_by ← field n "order_by" parse_order_by;
  offset ← field n "offset" (λ x, wrap "query: offset must be a number" (lift (StrictInt64 x)));
  limit ← field n "limit" (λ x, wrap "query: limit must be a number" (lift (StrictInt64 x)));
  mret {|
    raw_relation := if is_function : bool then "" else name;
    raw_function := if is_function : bool then name else "";
    raw_is_function := is_function;
    raw_schema := schema; raw_alias := alias; raw_on := on;
    raw_positional := positional; raw_named := named;
    raw_where := where_; raw_write_mode := write_mode;
    raw_on_conflict_name := oc_name; raw_on_conflict_columns := oc_columns;
    raw_insert_columns := insert_columns; raw_update_columns := update_columns;
    raw_join := join; raw_select := select;
    raw_distinct := default false distinct;
    raw_distinct_on := default [] distinct_on;
    raw_order_by := default [] order_by;
    raw_offset := offset; raw_limit := limit;
  |}.

Fixpoint parseRawRelation (fuel : nat) (n : N) : parser rawRelation :=
  match fuel with
  | O => λ _, OutOfFuel
  | S fuel => parseRawRelation_body (parseRawRelation fuel) n
  end.
End relation.

Section query.
Variable relation : N → parser rawRelation.

Definition parse_write (n q : N) : parser (ParsedQuery N) :=
  inner ← wrap "query: query"
    (wk ← lift (ObjectGet q "wellknown");
     match wk with
     | Some wk => w ← parseRawWellKnown q wk; mret (None, Some w)
     | None => r ← relation q; mret (Some r, None)
     end);
  data ← lift (ObjectGet n "data");
  returns ← string_field n "returns" "query: returns must be a string";
  count ← boolField n "count";
  stats ← boolField n "stats";
  plan ← boolField n "query_plan";
  sql ← boolField n "sql";
  rollback ← boolField n "rollback";
  let rq := RawWriteQuery inner.1 inner.2 data returns count.1 stats.1 plan.1 sql.1 rollback.1 in
  _ ← ValidateReturns rq;
  mret (PWrite rq).

Definition parseQueryNode_body (rec : N → parser (ParsedQuery N)) (n : N) : parser (ParsedQuery N) :=
  match Kind n with
  | KindArray =>
      items ← wrap "query: invalid query sequence" (lift (arrayItems n));
      qs ← map_m (λ i, wrap "query: sequence item %d" (rec i)) items;
      mret (PSequence qs)
  | KindObject =>
      wk ← lift (ObjectGet n "wellknown");
      match wk with
      | Some wk =>
          w ← parseRawWellKnown n wk;
          d ← has_field n "data";
          if d : bool then fail "" "query: a bare wellknown query never takes data directly"
          else mret (PWellKnown w)
      | None =>
          q ← lift (ObjectGet n "query");
          match q with
          | Some q => parse_write n q
          | None => r ← relation n; mret (PRelation r)
          end
      end
  | _ => fail "" "query: top-level query must be an object or an array, got type %d"
  end.

Fixpoint parseQueryNode_loop (fuel : nat) (n : N) : parser (ParsedQuery N) :=
  match fuel with
  | O => λ _, OutOfFuel
  | S fuel => parseQueryNode_body (parseQueryNode_loop fuel) n
  end.

(** ** Definition files *)

Definition parse_wellknown_param (out : list (string * RawWellKnownParam)) (kv : string * N)
    : parser (list (string * RawWellKnownParam)) :=
  type ← string_field kv.2 "type" "wellknown: %q: param %q: type must be a string";
  def ← field kv.2 "default" (λ d, wrap "wellknown: %q: param %q: default" (lift (Raw d)));
  mret (map_set kv.1 (MkRawWellKnownParam type def) out).

Definition parse_wellknown_params (n : N) : parser (list (string * RawWellKnownParam)) :=
  p ← lift (ObjectGet n "params");
  match p with
  | None => mret []
  | Some p =>
      if bool_decide (Kind p = KindNull) then mret []
      else
        ms ← wrap "wellknown: %q: params: expected an object" (lift (ObjectEach p));
        fold_m parse_wellknown_param [] (map_merge [] ms)
  end.

Definition parseWellKnownDefinition (n : N) : parser RawWellKnownDefinition :=
  nameNode ← lift (ObjectGet n "name");
  match nameNode with
  | None => fail "" "wellknown: missing name"
  | Some nameNode =>
      name ← wrap "wellknown: name must be a string" (lift (StrictString nameNode));
      queryNode ← lift (ObjectGet n "query");
      match queryNode with
      | None => fail "" "wellknown: %q: missing query"
      | Some q =>
          rel ← wrap "wellknown: %q: query" (relation q);
          raw ← wrap "wellknown: %q: query" (lift (Raw q));
          params ← parse_wellknown_params n;
          mret (MkRawWellKnownDefinition name params rel raw)
      end
  end.

(** The content of a file, its JSON already parsed. *)
Definition ParseWellKnownFile (root : N) : parser (list RawWellKnownDefinition) :=
  if bool_decide (Kind root = KindArray) then
    items ← wrap "wellknown: invalid array" (lift (arrayItems root));
    match items with
    | [] => fail "" "wellknown: empty WellKnownQuery[] array"
    | _ => map_m (λ i, wrap "wellknown: item %d" (parseWellKnownDefinition i)) items
    end
  else d ← parseWellKnownDefinition root; mret [d].
End query.

(** [ParseQueryNode]: the fuel bounds the height of the document. *)
Definition ParseQueryNode (fuel : nat) (n : N) : outcome (ParsedQuery N) :=
  fst <$> parseQueryNode_loop (parseRawRelation (parseNode fuel) fuel) fuel n 0%nat.
End parse.
