(* ===== verification/ParseQueryFacts.v ===== *)
(** The query parser does not depend on the representation of the request, and
    always returns. *)
From Stdlib Require Import ZArith Lia Ascii.
From S2P Require Import Prelude Cbor CborNode CborNodeFacts CborNodeSafe Document DocumentLaws Expression ParseExpr ParseExprFacts ParseQuery.
Set Warnings "-register-all".
#[local] Set Default Proof Using "Type*".

(** Queries that are equal up to the representation of their data. *)
Inductive same_query {N : Type} (R : N → tree → Prop) : ParsedQuery N → ParsedQuery tree → Prop :=
  | sq_relation r : same_query R (PRelation r) (PRelation r)
  | sq_wellknown w : same_query R (PWellKnown w) (PWellKnown w)
  | sq_write q wk d d' r c s p l b :
      option_Forall2 R d d' →
      same_query R (PWrite (RawWriteQuery q wk d r c s p l b)) (PWrite (RawWriteQuery q wk d' r c s p l b))
  | sq_sequence qs qs' : Forall2 (same_query R) qs qs' → same_query R (PSequence qs) (PSequence qs').

Section facts.
Context {N : Type} `{HN : Node N, HL : !NodeLaws N}.
Context (h : nat).

Local Notation "m ~ m'" := (agree same_code eq m m') (at level 70).
Local Abbreviation inside := (below (N := N) h).

Definition agrees_below {A} (f : N → parser A) (f' : tree → parser A) : Prop :=
  ∀ n t, inside n t → f n ~ f' t.

Lemma field_agree_eq {A} n t key (f : N → parser A) (f' : tree → parser A) :
  denotes n t → (height t ≤ h)%nat → agrees_below f f' → field n key f ~ field t key f'.
Proof.
  intros Hd Hh Hf. unfold field. eapply agree_bind; [by apply agree_ObjectGet|].
  intros ? ? [a b Hab|]; [|by apply agree_ret].
  eapply agree_bind; [apply Hf; by eapply below_weaken|]. intros x ? ->. by apply agree_ret.
Qed.

(** What [agree_auto] cannot see: a wrapped call. *)
Lemma wrap_agree {A} msg (m m' : parser A) : m ~ m' → wrap msg m ~ wrap msg m'.
Proof. intros. apply agree_weaken; [done|]. by apply agree_wrap. Qed.
Lemma eq_agree {A} (m m' : parser A) : agree eq eq m m' → m ~ m'.
Proof. apply agree_weaken. done. Qed.

Lemma string_field_agree n t key msg :
  denotes n t → (height t ≤ h)%nat → string_field n key msg ~ string_field t key msg.
Proof.
  intros. unfold string_field. eapply agree_bind.
  - apply field_agree_eq; [done..|]. intros x y Hxy. agree_auto.
  - agree_auto.
Qed.

Lemma boolField_agree n t key : denotes n t → boolField n key ~ boolField t key.
Proof.
  intros Hd. unfold boolField. eapply agree_bind; [by apply agree_ObjectGet|].
  intros ? ? [a b Hab|]; agree_auto.
Qed.

Lemma has_field_agree n t key : denotes n t → has_field n key ~ has_field t key.
Proof.
  intros Hd. unfold has_field. eapply agree_bind; [by apply agree_ObjectGet|].
  intros ? ? [a b Hab|]; agree_auto.
Qed.

Lemma parseStringMap_agree n t : denotes n t → parseStringMap n ~ parseStringMap t.
Proof.
  intros Hd. unfold parseStringMap. apply wrap_agree. agree_step; [agree_auto|].
  intros ms ms' Hms. eapply agree_fold_m; [|exact Hms|done].
  intros o ? [k x] [k' y] -> [Hk Hxy]. cbn in Hk. subst k'. agree_auto.
Qed.

Lemma Raw_agree {S} E n t : (∀ e, E e e) → denotes n t → agree (S := S) E eq (lift (Raw n)) (lift (Raw t)).
Proof.
  intros HE Hd s. rewrite (law_Raw _ _ Hd). unfold lift. cbn [Raw tree_Node].
  destruct t as [[x|e] sh]; cbn [tree_raw]; [done|apply HE].
Qed.

Lemma parseRawWellKnown_agree n t wk wk' :
  denotes n t → (height t ≤ h)%nat → denotes wk wk' → parseRawWellKnown n wk ~ parseRawWellKnown t wk'.
Proof.
  intros Hd Hh Hwk. unfold parseRawWellKnown. agree_step; [agree_auto|]. intros name ? ->.
  eapply (agree_bind _ eq); [|agree_auto]. apply field_agree_eq; [done..|].
  intros x y Hxy. apply wrap_agree, Raw_agree; [done|]. by eapply below_denotes.
Qed.

Section relation.
Context (node : N → parser Expression) (node' : tree → parser Expression).
Context (Hnode : ∀ n t, inside n t → agree eq eq (node n) (node' t)).

Lemma parse_target_agree n t : denotes n t → (height t ≤ h)%nat → parse_target n ~ parse_target t.
Proof.
  intros Hd Hh. unfold parse_target.
  eapply agree_bind; [by apply agree_ObjectGet|]. intros r r' Hr.
  eapply agree_bind; [by apply agree_ObjectGet|]. intros f f' Hf.
  destruct Hr, Hf; agree_auto.
Qed.

Ltac agree_call ::=
  first
  [ apply parseStringListValue_agree; eauto with agree
  | apply (parseExpressionList_agree h node node'); eauto with agree
  | apply (parseObjectFields_agree h node node'); eauto with agree
  | apply (parseOrderByTerm_agree h node node'); eauto with agree ].

Lemma inside_items n t l l' :
  inside n t → Forall2 (below (N := N) (height t)) l l' → Forall2 inside l l'.
Proof. intros [_ Hlt] Hl. eapply items_weaken; [exact Hl|lia]. Qed.

Lemma parse_arguments_agree b : agrees_below (parse_arguments node b) (parse_arguments node' b).
Proof.
  intros n t Hnt. unfold parse_arguments. destruct b; cbn [negb]; [|agree_auto].
  rewrite (law_Kind _ _ (below_denotes _ _ _ Hnt)). cbn [Kind tree_Node].
  destruct (tree_Kind t); try (by agree_auto).
  - agree_step; [agree_auto|]. intros l l' Hl. apply (inside_items _ _ _ _ Hnt) in Hl.
    eapply (agree_bind _ eq); [|agree_auto]. apply wrap_agree, eq_agree.
    by apply (parseExpressionList_agree h).
  - eapply (agree_bind _ eq); [|agree_auto]. apply wrap_agree, eq_agree.
    apply (parseObjectFields_agree h); [done|by eapply below_denotes|destruct Hnt; lia].
Qed.

Lemma parse_on_conflict_agree : agrees_below (parse_on_conflict (N := N)) parse_on_conflict.
Proof.
  intros n t Hnt. unfold parse_on_conflict.
  rewrite (law_Kind _ _ (below_denotes _ _ _ Hnt)). cbn [Kind tree_Node].
  destruct (tree_Kind t); agree_auto.
Qed.

Lemma parse_distinct_on_agree : agrees_below (parse_distinct_on node) (parse_distinct_on node').
Proof.
  intros n t Hnt. unfold parse_distinct_on. agree_step; [agree_auto|]. intros l l' Hl.
  apply (inside_items _ _ _ _ Hnt) in Hl. apply wrap_agree, eq_agree. by apply (parseExpressionList_agree h).
Qed.

Lemma parse_order_by_agree : agrees_below (parse_order_by node) (parse_order_by node').
Proof.
  intros n t Hnt. unfold parse_order_by. agree_step; [agree_auto|]. intros l l' Hl.
  apply (inside_items _ _ _ _ Hnt) in Hl. eapply agree_map_eq; [|exact Hl]. intros x y Hxy.
  apply wrap_agree, eq_agree. by apply (parseOrderByTerm_agree h).
Qed.

Section body.
Context (rec : N → parser rawRelation) (rec' : tree → parser rawRelation).
Context (Hrec : agrees_below rec rec').

Lemma parse_join_agree : agrees_below (parse_join rec) (parse_join rec').
Proof.
  intros n t Hnt. unfold parse_join. agree_step; [agree_auto|]. intros ms ms' Hms.
  eapply agree_fold_m; [|exact Hms|done]. intros o ? [k x] [k' y] -> [Hk Hxy]. cbn in Hk, Hxy. subst k'.
  eapply (agree_bind _ eq); [|agree_auto]. apply wrap_agree, Hrec.
  destruct Hnt, Hxy. split; [done|cbn in *; lia].
Qed.

Lemma parseRawRelation_body_agree n t :
  denotes n t → (height t ≤ h)%nat → parseRawRelation_body node rec n ~ parseRawRelation_body node' rec' t.
Proof.
  intros Hd Hh. unfold parseRawRelation_body.
  eapply agree_bind; [by apply parse_target_agree|]. intros [name is_function] ? <-.
  do 2 (eapply agree_bind; [by apply string_field_agree|]; intros ? ? ->).
  eapply agree_bind; [apply field_agree_eq; [done..|]; intros x y Hxy; apply wrap_agree, parseStringMap_agree; by eapply below_denotes|].
  intros ? ? ->.
  eapply agree_bind; [apply field_agree_eq; [done..|]; apply parse_arguments_agree|]. intros args ? <-.
  destruct (default (None, None) args) as [positional named].
  eapply agree_bind; [apply field_agree_eq; [done..|]; intros x y Hxy; by apply wrap_agree, eq_agree, Hnode|].
  intros ? ? ->.
  eapply agree_bind; [by apply string_field_agree|]; intros ? ? ->.
  eapply agree_bind; [apply field_agree_eq; [done..|]; apply parse_on_conflict_agree|]. intros oc ? <-.
  destruct (default ("", None) oc) as [oc_name oc_columns].
  do 2 (eapply agree_bind; [apply field_agree_eq; [done..|]; intros x y Hxy;
    apply wrap_agree, eq_agree, parseStringListValue_agree; by eapply below_denotes|]; intros ? ? ->).
  eapply agree_bind; [apply field_agree_eq; [done..|]; apply parse_join_agree|]. intros ? ? ->.
  eapply agree_bind; [apply field_agree_eq; [done..|]; intros x y Hxy; by apply wrap_agree, eq_agree, Hnode|].
  intros ? ? ->.
  eapply agree_bind; [apply field_agree_eq; [done..|]; intros x y Hxy; agree_auto|]. intros ? ? ->.
  eapply agree_bind; [apply field_agree_eq; [done..|]; apply parse_distinct_on_agree|]. intros ? ? ->.
  eapply agree_bind; [apply field_agree_eq; [done..|]; apply parse_order_by_agree|]. intros ? ? ->.
  do 2 (eapply agree_bind; [apply field_agree_eq; [done..|]; intros x y Hxy; agree_auto|]; intros ? ? ->).
  by apply agree_ret.
Qed.
End body.
End relation.

Section query.
Context (relation : N → parser rawRelation) (relation' : tree → parser rawRelation).
Context (Hrel : ∀ n t, denotes n t → (height t ≤ h)%nat → relation n ~ relation' t).

Lemma ValidateReturns_agree (w : rawWriteQuery N) (w' : rawWriteQuery tree) :
  wq_returns w = wq_returns w' → ValidateReturns w ~ ValidateReturns w'.
Proof. intros Hw. unfold ValidateReturns. rewrite Hw. destruct (bool_decide _); agree_auto. Qed.

Lemma parse_write_agree n t q q' :
  denotes n t → (height t ≤ h)%nat → inside q q' →
  agree same_code (same_query denotes) (parse_write relation n q) (parse_write relation' t q').
Proof.
  intros Hd Hh Hq. pose proof (below_denotes _ _ _ Hq) as Hdq. pose proof (below_le _ _ Hq) as Hhq.
  unfold parse_write. eapply (agree_bind _ eq).
  { apply wrap_agree. eapply agree_bind; [by apply agree_ObjectGet|].
    intros ? ? [wk wk' Hwk|].
    - eapply (agree_bind _ eq); [|agree_auto].
      apply parseRawWellKnown_agree; [done|done|by eapply below_denotes].
    - eapply (agree_bind _ eq); [by apply Hrel|agree_auto]. }
  intros inner ? ->. eapply agree_bind; [by apply agree_ObjectGet|]. intros d d' Hdata.
  eapply agree_bind; [by apply string_field_agree|]. intros returns ? ->.
  do 5 (eapply agree_bind; [by apply boolField_agree|]; intros ? ? ->).
  eapply agree_bind; [by apply ValidateReturns_agree|]. intros ? ? _.
  apply agree_ret. constructor. destruct Hdata as [? ? []|]; by constructor.
Qed.

Lemma parseQueryNode_body_agree rec rec' n t :
  denotes n t → (height t ≤ h)%nat →
  (∀ n t, inside n t → agree same_code (same_query denotes) (rec n) (rec' t)) →
  agree same_code (same_query denotes)
    (parseQueryNode_body relation rec n) (parseQueryNode_body relation' rec' t).
Proof.
  intros Hd Hh Hrec. unfold parseQueryNode_body. rewrite (law_Kind _ _ Hd). cbn [Kind tree_Node].
  destruct (tree_Kind t); try (by agree_auto).
  - agree_step; [agree_auto|]. intros l l' Hl.
    eapply (agree_bind _ (Forall2 (same_query denotes))).
    + eapply agree_map_m; [|exact Hl]. intros x y Hxy. apply agree_wrap_code, Hrec. by eapply below_weaken.
    + intros qs qs' Hqs. apply agree_ret. by constructor.
  - eapply agree_bind; [by apply agree_ObjectGet|]. intros ? ? [wk wk' Hwk|].
    { eapply agree_bind; [apply parseRawWellKnown_agree; [done|done|by eapply below_denotes]|].
      intros w ? ->. eapply agree_bind; [by apply has_field_agree|]. intros [] ? <-.
      - agree_auto.
      - apply agree_ret. constructor. }
    eapply agree_bind; [by apply agree_ObjectGet|]. intros ? ? [q q' Hq|].
    + apply parse_write_agree; [done|done|by eapply below_weaken].
    + eapply agree_bind; [by apply Hrel|]. intros r ? ->. apply agree_ret. constructor.
Qed.
End query.
End facts.

Section refinement.
Context {N : Type} `{HN : Node N, HL : !NodeLaws N}.

Lemma parseRawRelation_agree ef ef' f f' (n : N) (t : tree) :
  denotes n t → (height t ≤ ef)%nat → (height t ≤ ef')%nat → (height t ≤ f)%nat → (height t ≤ f')%nat →
  agree same_code eq (parseRawRelation (parseNode ef) f n) (parseRawRelation (parseNode ef') f' t).
Proof.
  revert f' n t. induction f as [|f IH]; intros f' n t Hd He He' Hf Hf'; pose proof (height_pos t); [lia|].
  destruct f' as [|f']; [lia|]. cbn [parseRawRelation].
  apply (parseRawRelation_body_agree (height t)); [| |done|done].
  - intros n' t' [Hd' Hlt]. apply parseNode_agree; [done|lia..].
  - intros n' t' [Hd' Hlt]. apply IH; [done|lia..].
Qed.

Lemma parseQueryNode_agree ef ef' f f' (n : N) (t : tree) :
  denotes n t → (height t ≤ ef)%nat → (height t ≤ ef')%nat → (height t ≤ f)%nat → (height t ≤ f')%nat →
  agree same_code (same_query denotes)
    (parseQueryNode_loop (parseRawRelation (parseNode ef) ef) f n)
    (parseQueryNode_loop (parseRawRelation (parseNode ef') ef') f' t).
Proof.
  revert f' n t. induction f as [|f IH]; intros f' n t Hd He He' Hf Hf'; pose proof (height_pos t); [lia|].
  destruct f' as [|f']; [lia|]. cbn [parseQueryNode_loop].
  apply (parseQueryNode_body_agree (height t)); [|done|done|].
  - intros n' t' Hd' Hle. apply parseRawRelation_agree; [done|lia..].
  - intros n' t' [Hd' Hlt]. apply IH; [done|lia..].
Qed.
End refinement.

(** * Properties *)

(** C8: decoding a query does not depend on the representation of the request.
    Over any implementation of [Node] that obeys its laws, [ParseQueryNode]
    returns the query it returns over the abstract document, data apart, which
    denote each other, or fails with the same code.  The fuel is the height. *)
Theorem ParseQueryNode_refines {N : Type} `{HN : Node N, HL : !NodeLaws N} (fuel : nat) (n : N) (t : tree) :
  denotes n t → (height t ≤ fuel)%nat →
  match ParseQueryNode fuel n, ParseQueryNode (height t) t with
  | Ok q, Ok q' => same_query denotes q q'
  | Err e, Err e' => same_code e e'
  | _, _ => False
  end.
Proof.
  intros Hd Hf. unfold ParseQueryNode.
  pose proof (parseQueryNode_agree fuel (height t) fuel (height t) n t Hd Hf (le_n _) Hf (le_n _) 0%nat) as Ha.
  destruct (parseQueryNode_loop _ fuel n 0%nat) as [[q s]|e| |],
    (parseQueryNode_loop _ (height t) t 0%nat) as [[q' s']|e'| |]; try done. by destruct Ha.
Qed.

(** The request [{"wellknown": "q"}], in CBOR. *)
Definition wellknown_request : bytes :=
  map zb [161; 105; 119; 101; 108; 108; 107; 110; 111; 119; 110; 97; 113].
Definition wellknown_doc : cborDoc * nat :=
  match NewCBORNode (λ _, None) wellknown_request with Ok d => d | _ => (CborDoc [] [] [] [] [] [], 0%nat) end.
Definition wellknown_node : cborNode :=
  CborNodeRef wellknown_doc.1 (default (CNode itNull false 0 0 0) (nodes wellknown_doc.1 !! wellknown_doc.2)).
Definition wellknown_tree : tree :=
  Tree (raw wellknown_node)
    (let ms := [("wellknown", Tree (raw (CborNodeRef wellknown_doc.1
       (default (CNode itNull false 0 0 0) (nodes wellknown_doc.1 !! 1%nat)))) (SString "q"))] in
     SObject ms ms).

Lemma wellknown_denotes : denotes wellknown_node wellknown_tree.
Proof.
  apply cd_map; [reflexivity|reflexivity|].
  intros [|j] m; [intros [= <-]|done].
  exists 0%nat, 1%nat, (CNode itText false 12 1 0), (bytes_of_string "wellknown").
  split_and!; try reflexivity.
  - exists (CNode itText false 2 9 0). split_and!; reflexivity.
  - apply (cd_leaf _ _ (CText (bytes_of_string "q"))); [|reflexivity].
    apply leaf_text; reflexivity.
Qed.

Lemma ParseQueryNode_refines_witness :
  match ParseQueryNode 2 wellknown_node, ParseQueryNode (height wellknown_tree) wellknown_tree with
  | Ok q, Ok q' => same_query denotes q q'
  | Err e, Err e' => same_code e e'
  | _, _ => False
  end.
Proof.
  apply (ParseQueryNode_refines 2 wellknown_node wellknown_tree);
    [apply wellknown_denotes|vm_compute; lia].
Defined.

