(* ===== verification/Nodes.v ===== *)
(** Query nodes and their scope: [src/query/node.go], [src/query/scope.go],
    [ColumnPath] and [Shape] of [src/query/resolved_field.go], and the blacklist
    of [src/config/config.go].

    The tree of [*QueryNode]s is a store: a node is its position in it, the
    fields that point to other nodes hold positions.  A nil node is [None]; the
    places where Go reads a field through it are panics. *)
From Stdlib Require Import ZArith Lia Ascii.
From S2P Require Import Prelude CborNode Catalog Joins Expression.
Set Warnings "-register-all".

Definition UnknownIdentifier : string := "UNKNOWN_IDENTIFIER".
Definition QueryInvalidExpression : string := "QUERY_INVALID_EXPRESSION".
Definition WriteForbidden : string := "WRITE_FORBIDDEN".

(** * Relations of nodes *)

(** A relation of the database, or the record a function returns. *)
Inductive rel_ref := RelOf (relid : Z) | RecordOf (fn : Function_) (cols : list Column).

(** [RecordRelation]: every lookup map of it is nil. *)
Definition record_relation (fn : Function_) (cols : list Column) : Relation :=
  MkRelation (fn_ident fn) true false false false cols ∅ (fn_return fn) None ∅ ∅ ∅ ∅.

Definition relation_of (d : DbInfos) (r : rel_ref) : option Relation :=
  match r with
  | RelOf relid => GetRelation d relid
  | RecordOf fn cols => Some (record_relation fn cols)
  end.

(** [PgRelId] *)
Definition relid_of (r : rel_ref) : Z := match r with RelOf relid => relid | RecordOf _ _ => 0 end.

Definition GetRelationByType (d : DbInfos) (oid : Z) : option rel_ref :=
  relid ← TypeMapByOid d !! oid ≫= ty_rel;
  if decide (is_Some (GetRelation d relid)) then Some (RelOf relid) else None.

(** * Nodes *)

Abbreviation Shape := (list (string * option ResolvedField)).

Record ColumnPath := MkColumnPath { cp_node : node_id; cp_path : list Column; cp_element : option Z }.
Record Extractor := MkExtractor { ex_path : ColumnPath; ex_json_path : list string }.
Record NodeShape := MkNodeShape { sh_fields : Shape; sh_extractors : list Extractor; sh_writable : bool }.

Record QueryNode := MkNode {
  n_parent : option node_id;
  n_join : list (Column * Column);       (* JoinColumns: local, distant *)
  n_outer : string;                      (* OuterAlias *)
  n_outgoing : list node_id;
  n_incoming : list node_id;
  n_relation : option rel_ref;
  n_function : option Function_;
  n_args : list Expression;              (* FunctionArguments *)
  n_named : option (list (string * Expression));
  n_inner : string;                      (* InnerName *)
  n_where : option Expression;
  n_mode : WriteMode;
  n_conflict_name : string;
  n_conflict_columns : list string;
  n_insert_columns : option (list string);
  n_update_columns : option (list string);
  n_select : Expression;
  n_distinct : bool;
  n_distinct_on : list Expression;
  n_order_by : list OrderByTerm;
  n_offset : option Z;
  n_limit : option Z;
  n_shape : option NodeShape;
}.

Definition IsFunction (n : QueryNode) : bool := match n_function n with Some _ => true | None => false end.
Definition IsRelation (n : QueryNode) : bool := match n_relation n with Some _ => true | None => false end.

(** Assignments to a field. *)
Definition with_children (o i : list node_id) (n : QueryNode) : QueryNode :=
  MkNode (n_parent n) (n_join n) (n_outer n) o i (n_relation n) (n_function n) (n_args n) (n_named n)
    (n_inner n) (n_where n) (n_mode n) (n_conflict_name n) (n_conflict_columns n) (n_insert_columns n)
    (n_update_columns n) (n_select n) (n_distinct n) (n_distinct_on n) (n_order_by n) (n_offset n)
    (n_limit n) (n_shape n).
Definition with_write (m : WriteMode) (cn : string) (cc : list string) (ic uc : option (list string)) (n : QueryNode) : QueryNode :=
  MkNode (n_parent n) (n_join n) (n_outer n) (n_outgoing n) (n_incoming n) (n_relation n) (n_function n)
    (n_args n) (n_named n) (n_inner n) (n_where n) m cn cc ic uc
    (n_select n) (n_distinct n) (n_distinct_on n) (n_order_by n) (n_offset n) (n_limit n) (n_shape n).
Definition with_expressions (w : option Expression) (s : Expression) (don : list Expression)
    (ob : list OrderByTerm) (args : list Expression) (named : option (list (string * Expression)))
    (sh : option NodeShape) (n : QueryNode) : QueryNode :=
  MkNode (n_parent n) (n_join n) (n_outer n) (n_outgoing n) (n_incoming n) (n_relation n) (n_function n)
    args named (n_inner n) w (n_mode n) (n_conflict_name n) (n_conflict_columns n)
    (n_insert_columns n) (n_update_columns n) s (n_distinct n) don ob (n_offset n) (n_limit n) sh.
Definition with_where (w : option Expression) (n : QueryNode) : QueryNode :=
  with_expressions w (n_select n) (n_distinct_on n) (n_order_by n) (n_args n) (n_named n) (n_shape n) n.
Definition with_select (s : Expression) (sh : option NodeShape) (n : QueryNode) : QueryNode :=
  with_expressions (n_where n) s (n_distinct_on n) (n_order_by n) (n_args n) (n_named n) sh n.
Definition with_shape (sh : NodeShape) (n : QueryNode) : QueryNode := with_select (n_select n) (Some sh) n.
Definition with_distinct_on (don : list Expression) (n : QueryNode) : QueryNode :=
  with_expressions (n_where n) (n_select n) don (n_order_by n) (n_args n) (n_named n) (n_shape n) n.
Definition with_order_by (ob : list OrderByTerm) (n : QueryNode) : QueryNode :=
  with_expressions (n_where n) (n_select n) (n_distinct_on n) ob (n_args n) (n_named n) (n_shape n) n.
Definition with_arguments (args : list Expression) (named : option (list (string * Expression))) (n : QueryNode) : QueryNode :=
  with_expressions (n_where n) (n_select n) (n_distinct_on n) (n_order_by n) args named (n_shape n) n.

Definition node_relation (d : DbInfos) (n : QueryNode) : option Relation := n_relation n ≫= relation_of d.

(** * Resolved fields *)

(** [CurrentType]: the element type after an index, or the last column's. *)
Definition CurrentType (path : list Column) (element : option Z) : option Z :=
  match element with
  | Some t => Some t
  | None => col_type <$> last path
  end.

(** [Key]: the node and the names. *)
Definition ColumnPathKey (node : node_id) (path : list Column) : string :=
  dec_nat (Z.of_nat node) +:+ String.concat "" (map (λ c, "." +:+ col_name c) path).

Definition Key (cp : ColumnPath) : string := ColumnPathKey (cp_node cp) (cp_path cp).

Definition columnPathFlatName (path : list Column) : string := join "__" (map col_name path).

(** * The blacklist *)

Record Blacklist := MkBlacklist {
  bl_functions : gmap string (gmap string string);
  bl_relations : gmap string (gmap string string);
}.

Definition IsTruthy (v : string) : bool := bool_decide (v ∈ ["y"; "Y"; "yes"; "true"; "1"]).

Definition truthy_entry (m : gmap string (gmap string string)) (schema name : string) : bool :=
  IsTruthy (default "" (lookup2 m schema name)).

Definition IsFunctionBlacklisted (b : Blacklist) (schema name : string) : bool :=
  truthy_entry (bl_functions b) schema name || truthy_entry (bl_functions b) schema "*".
Definition IsRelationBlacklisted (b : Blacklist) (schema name : string) : bool :=
  truthy_entry (bl_relations b) schema name || truthy_entry (bl_relations b) schema "*".

(** * The scope of a node *)

Section scope.
Context (d : DbInfos) (store : list QueryNode).

Definition scope_column (self : node_id) (n : QueryNode) (name : string) : option ResolvedField :=
  r ← node_relation d n;
  c ← ColumnsMap (Columns r) !! name;
  Some (RColumnPath self [c] None).

Definition scope_computed (self : node_id) (n : QueryNode) (name : string) : option ResolvedField :=
  r ← node_relation d n;
  f ← ComputedFields r !! name;
  fn ← Functions d !! f;
  Some (RComputed self fn).

(** The first child with that alias. *)
Definition child_named (children : list node_id) (name : string) : option node_id :=
  find (λ c, match store !! c with Some n => String.eqb (n_outer n) name | None => false end) children.

Definition scope_alias (n : QueryNode) (name : string) : option ResolvedField :=
  match child_named (n_outgoing n) name with
  | Some c => Some (RQueryNode c)
  | None => RQueryNode <$> child_named (n_incoming n) name
  end.

Definition scope_self (self : node_id) (n : QueryNode) (name : string) : option ResolvedField :=
  if String.eqb name (n_inner n) && negb (String.eqb (n_inner n) "") then Some (RQueryNode self) else None.

(** One of a column, a computed field, a join alias and the node's own alias. *)
Definition LookupInScope (self : node_id) (name : string) : outcome ResolvedField :=
  n ← at_index store self;
  match omap id [scope_column self n name; scope_computed self n name; scope_alias n name; scope_self self n name] with
  | [] => errorc UnknownIdentifier "unresolvable identifier %q"
  | [f] => Ok f
  | _ => errorc UnknownIdentifier "identifier %q is ambiguous"
  end.
End scope.
