(* ===== verification/ScopeFacts.v ===== *)
(** The scope of a node: a name resolves exactly when it means one thing. *)
From Stdlib Require Import ZArith Lia Ascii.
From S2P Require Import Prelude CborNode Catalog Joins KeysFacts Expression Nodes.
Set Warnings "-register-all".
#[local] Set Default Proof Using "Type*".

Section scope.
Context (d : DbInfos) (ns : list QueryNode) (i : node_id) (n : QueryNode).
Abbreviation children := (n_outgoing n ++ n_incoming n).

(** What a name may mean in the scope of node [i]. *)
Inductive meaning (name : string) : ResolvedField → Prop :=
  | by_column r c : node_relation d n = Some r → ColumnsMap (Columns r) !! name = Some c →
      meaning name (RColumnPath i [c] None)
  | by_computed r k fn : node_relation d n = Some r → ComputedFields r !! name = Some k →
      Functions d !! k = Some fn → meaning name (RComputed i fn)
  | by_alias c cn : c ∈ children → ns !! c = Some cn → n_outer cn = name → meaning name (RQueryNode c)
  | by_self : n_inner n = name → name ≠ "" → meaning name (RQueryNode i).

(** The aliases of a node's joins are the keys of a map, and a node is not its own child. *)
Context (Hi : ns !! i = Some n).
Context (Hchildren : ∀ c, c ∈ children → c ≠ i ∧ is_Some (ns !! c)).
Context (Haliases : ∀ c c' cn cn', c ∈ children → c' ∈ children →
  ns !! c = Some cn → ns !! c' = Some cn' → n_outer cn = n_outer cn' → c = c').

Lemma child_named_spec (l : list node_id) name :
  match child_named ns l name with
  | Some c => c ∈ l ∧ ∃ cn, ns !! c = Some cn ∧ n_outer cn = name
  | None => ∀ c cn, c ∈ l → ns !! c = Some cn → n_outer cn ≠ name
  end.
Proof using Type.
  unfold child_named. destruct (find _ l) as [c|] eqn:E.
  - apply find_some in E as [Hin Hc]. destruct (ns !! c) as [cn|] eqn:Ec; [|done].
    apply String.eqb_eq in Hc. split; [by apply list_elem_of_In|]. eauto.
  - intros c cn Hc Hcn Hn. apply list_elem_of_In in Hc. pose proof (find_none _ _ E c Hc) as Hf.
    cbn in Hf. rewrite Hcn in Hf. by apply String.eqb_neq in Hf.
Qed.

Lemma scope_alias_spec name f :
  scope_alias ns n name = Some f ↔ ∃ c cn, f = RQueryNode c ∧ c ∈ children ∧ ns !! c = Some cn ∧ n_outer cn = name.
Proof using Haliases.
  unfold scope_alias.
  pose proof (child_named_spec (n_outgoing n) name) as Ho.
  pose proof (child_named_spec (n_incoming n) name) as Hn.
  assert (∀ c cn, c ∈ children → ns !! c = Some cn → n_outer cn = name →
    (Some (RQueryNode c) = Some f ↔ ∃ c cn, f = RQueryNode c ∧ c ∈ children ∧ ns !! c = Some cn ∧ n_outer cn = name)) as Hc.
  { intros c cn Hin Hcn Hname. split; [intros [= <-]; eauto 10|].
    intros (c' & cn' & -> & Hin' & Hcn' & Hname'). f_equal. f_equal. eapply Haliases; [done..|congruence]. }
  destruct (child_named ns (n_outgoing n) name) as [c|].
  - destruct Ho as (Hin & cn & Hcn & Hname). eapply Hc; [apply elem_of_app; by left|done..].
  - destruct (child_named ns (n_incoming n) name) as [c|].
    + destruct Hn as (Hin & cn & Hcn & Hname). eapply Hc; [apply elem_of_app; by right|done..].
    + split; [done|]. intros (c & cn & _ & [Hin|Hin]%elem_of_app & Hcn & Hname); [destruct (Ho c cn Hin Hcn Hname)|destruct (Hn c cn Hin Hcn Hname)].
Qed.

Lemma meanings name f :
  meaning name f ↔
  f ∈ omap (M := list) id [scope_column d i n name; scope_computed d i n name; scope_alias ns n name; scope_self i n name].
Proof using Haliases.
  rewrite list_elem_of_omap. cbn [id]. split.
  - intros Hf. exists (Some f). split; [|done]. rewrite !elem_of_cons.
    destruct Hf as [r c Hr Hc|r k fn Hr Hk Hfn|c cn Hin Hcn Hname|Hs Hne].
    + left. unfold scope_column. rewrite Hr. cbn. by rewrite Hc.
    + right; left. unfold scope_computed. rewrite Hr. cbn. rewrite Hk. cbn. by rewrite Hfn.
    + right; right; left. symmetry. apply scope_alias_spec. eauto 10.
    + right; right; right; left. unfold scope_self. rewrite Hs, String.eqb_refl.
      by apply String.eqb_neq in Hne as ->.
  - intros (x & Hx & ->). rewrite !elem_of_cons in Hx. destruct Hx as [Hx|[Hx|[Hx|[Hx|Hx%elem_of_nil]]]]; try done; symmetry in Hx.
    + unfold scope_column in Hx. apply bind_Some in Hx as (r & Hr & Hx). apply bind_Some in Hx as (c & Hc & [= <-]).
      by eapply by_column.
    + unfold scope_computed in Hx. apply bind_Some in Hx as (r & Hr & Hx). apply bind_Some in Hx as (k & Hk & Hx).
      apply bind_Some in Hx as (fn & Hfn & [= <-]). by eapply by_computed.
    + apply scope_alias_spec in Hx as (c & cn & -> & Hin & Hcn & Hname). by eapply by_alias.
    + unfold scope_self in Hx. destruct (String.eqb_spec name (n_inner n)) as [->|]; [|done].
      destruct (String.eqb_spec (n_inner n) ""); [done|]. injection Hx as <-. by apply by_self.
Qed.

(** Two of the four kinds never give the same field. *)
Lemma kinds_differ name :
  NoDup (omap (M := list) id [scope_column d i n name; scope_computed d i n name; scope_alias ns n name; scope_self i n name]).
Proof using Haliases Hchildren.
  destruct (scope_column d i n name) as [f1|] eqn:E1, (scope_computed d i n name) as [f2|] eqn:E2,
    (scope_alias ns n name) as [f3|] eqn:E3, (scope_self i n name) as [f4|] eqn:E4; cbn;
    repeat (apply NoDup_cons; split); try apply NoDup_nil_2; rewrite ?elem_of_cons; intros H;
    unfold scope_column, scope_computed in *; 
    repeat match goal with
    | H : _ ≫= _ = Some _ |- _ => apply bind_Some in H as (? & ? & H)
    | H : Some _ = Some _ |- _ => injection H as <-
    | H : scope_alias _ _ _ = Some _ |- _ => apply scope_alias_spec in H as (? & ? & -> & Hin & _)
    | H : scope_self _ _ _ = Some _ |- _ => unfold scope_self in H; destruct (_ && _) in H; [injection H as <-|discriminate H]
    | H : _ ∨ _ |- _ => destruct H as [H|H]
    | H : _ ∈ [] |- _ => by apply elem_of_nil in H
    end; try discriminate.
  all: injection H as ->; by destruct (Hchildren _ Hin).
Qed.
End scope.

(** C20: a name is resolved in the scope of a node exactly when it means one
    thing there: of a column, a computed field, the alias of a join and the
    node's own alias there is just one by that name, and it is what it resolves
    to.  There is no precedence between them: any collision is an error. *)
Theorem LookupInScope_unique (d : DbInfos) (ns : list QueryNode) (i : node_id) (n : QueryNode) (name : string)
    (f : ResolvedField) (Hi : ns !! i = Some n)
    (Hchildren : ∀ c, c ∈ n_outgoing n ++ n_incoming n → c ≠ i ∧ is_Some (ns !! c))
    (Haliases : ∀ c c' cn cn', c ∈ n_outgoing n ++ n_incoming n → c' ∈ n_outgoing n ++ n_incoming n →
       ns !! c = Some cn → ns !! c' = Some cn' → n_outer cn = n_outer cn' → c = c') :
  LookupInScope d ns i name = Ok f ↔
  meaning d ns i n name f ∧ ∀ g, meaning d ns i n name g → g = f.
Proof.
  unfold LookupInScope, at_index. rewrite Hi. cbn [of_option mbind outcome_bind].
  setoid_rewrite (meanings d ns i n Haliases). pose proof (kinds_differ d ns i n Hchildren Haliases name) as Hnd.
  revert Hnd. generalize (omap (M := list) id [scope_column d i n name; scope_computed d i n name; scope_alias ns n name; scope_self i n name]).
  intros l Hnd. destruct l as [|a [|b l]].
  - split; [done|]. by intros [?%elem_of_nil _].
  - split.
    + intros [= ->]. split; [by left|]. by intros g ->%list_elem_of_singleton.
    + by intros [->%list_elem_of_singleton _].
  - split; [done|]. intros [_ H]. apply NoDup_cons in Hnd as [Hnd _]. destruct Hnd.
    rewrite (H a), (H b); [by left|right; by left|by left].
Qed.

(** A node and its only child. *)
Definition bare_node (parent : option node_id) (outer : string) (incoming : list node_id) (rel : rel_ref) : QueryNode :=
  MkNode parent [] outer [] incoming (Some rel) None [] None "me" None READONLY "" [] None None
    (StarExpr false [] []) false [] [] None None None.
Definition pair_store : list QueryNode :=
  [bare_node None "" [1%nat] (RelOf 1); bare_node (Some 0%nat) "posts" [] (RelOf 2)].

Lemma LookupInScope_unique_witness :
  LookupInScope blog_infos pair_store 0 "posts" = Ok (RQueryNode 1) ∧
  (LookupInScope blog_infos pair_store 0 "posts" = Ok (RQueryNode 1) ↔
   meaning blog_infos pair_store 0 (bare_node None "" [1%nat] (RelOf 1)) "posts" (RQueryNode 1) ∧
   ∀ g, meaning blog_infos pair_store 0 (bare_node None "" [1%nat] (RelOf 1)) "posts" g → g = RQueryNode 1).
Proof.
  split; [vm_compute; reflexivity|].
  apply (LookupInScope_unique blog_infos pair_store 0 _ "posts" (RQueryNode 1) eq_refl).
  - intros c ->%list_elem_of_singleton. split; [done|by eexists].
  - intros c c' cn cn' ->%list_elem_of_singleton ->%list_elem_of_singleton. done.
Defined.
