(* ===== verification/ResolveQuery.v ===== *)
(** Pass 1, resolution: [src/query/node_resolve.go], the tree of nodes against
    the database.

    The resolver threads the store of nodes and the two sets of nodes that guard
    pass 2.  The depth limit of the configuration bounds the recursion, so the
    fuel is the limit.  Keys of Go maps are visited in sorted order, as the code
    sorts them. *)
From Stdlib Require Import ZArith Lia Ascii.
From S2P Require Import Prelude CborNode Catalog Joins Expression Nodes.
Set Warnings "-register-all".

Record resolver := MkResolver {
  r_nodes : list QueryNode;
  r_in_progress : gset node_id;      (* shapeInProgress *)
  r_own : gset node_id;              (* resolvingOwn *)
}.

Abbreviation resolve := (M resolver).

Definition with_nodes (ns : list QueryNode) (r : resolver) : resolver :=
  MkResolver ns (r_in_progress r) (r_own r).

Definition node_at (i : node_id) : resolve QueryNode := λ r, lift (at_index (r_nodes r) i) r.
Definition update_node (i : node_id) (f : QueryNode → QueryNode) : resolve unit :=
  modify (λ r, with_nodes (alter f i (r_nodes r)) r).
(** [&QueryNode{...}] *)
Definition new_node (n : QueryNode) : resolve node_id := λ r,
  Ok (length (r_nodes r), with_nodes (r_nodes r ++ [n]) r).

(** * Write modes *)

Definition writeModeByString : list (string * WriteMode) := [
  ("merge", MERGE); ("readonly", READONLY); ("insert", INSERT); ("upsert", UPSERT);
  ("merge-new", MERGE_NEW); ("merge-update", MERGE_UPDATE); ("update-existing", UPDATE_EXISTING);
  ("deleteonly", DELETE_ONLY); ("update", UPDATE); ("delete", DELETE) ].

Definition isWhereDriven (m : WriteMode) : bool := bool_decide (m ∈ [UPDATE; DELETE]).
(** The modes that delete what the payload lacks. *)
Definition is_merge (m : WriteMode) : bool := bool_decide (m ∈ [MERGE; MERGE_NEW; MERGE_UPDATE; DELETE_ONLY]).

Definition parent_driven (parent : option QueryNode) : bool :=
  match parent with Some p => isWhereDriven (n_mode p) | None => false end.

Definition has_joins (raw : rawRelation) : bool :=
  match raw_join raw with Some (_ :: _) => true | _ => false end.

Definition checkWriteModePlacement (raw : rawRelation) (m : WriteMode) (parent : option QueryNode) : outcome unit :=
  let placed :=
    if isWhereDriven m then
      match parent with
      | Some _ => errorc WriteForbidden "write_mode %q is only valid on the root relation"
      | None =>
          match raw_where raw with
          | None => errorc WriteForbidden "write_mode %q requires a where"
          | Some _ =>
              if bool_decide (m = DELETE) && has_joins raw
              then errorc WriteForbidden "write_mode delete takes no join"
              else Ok tt
          end
      end
    else if is_merge m && negb (bool_decide (is_Some parent))
    then errorc WriteForbidden "write_mode %q is only valid on an incoming join"
    else Ok tt in
  _ ← placed;
  if parent_driven parent && negb (bool_decide (m = READONLY))
  then errorc WriteForbidden "under a %q root a join can only be readonly, got %q"
  else Ok tt.

(** The mode of a node, explicit or by its place. *)
Definition node_write_mode (raw : rawRelation) (parent : option QueryNode) (isToOne : bool) : outcome WriteMode :=
  let parented := bool_decide (is_Some parent) in
  writeMode ←
    (if String.eqb (raw_write_mode raw) "" then
       Ok (if parent_driven parent then READONLY
           else if negb parented then INSERT
           else if isToOne then UPSERT
           else MERGE)
     else
       match map_get (raw_write_mode raw) writeModeByString with
       | Some m => Ok m
       | None => errorc WriteForbidden "unknown write_mode %q"
       end);
  if parented && isToOne && is_merge writeMode
  then errorc WriteForbidden "write_mode %q is not valid on an outgoing (to-one) relation"
  else
    _ ← checkWriteModePlacement raw writeMode parent;
    Ok writeMode.

Section resolve.
Context (d : DbInfos) (bl : Blacklist) (max_depth : Z).

(** * Functions *)

Definition is_named_input (a : FunctionArgument) : bool :=
  match arg_mode a with ModeIn | ModeInOut => true | _ => false end.

Definition functionAcceptsNames {A} (f : Function_) (named : list (string * A)) : bool :=
  let inputNames := map arg_name (filter (λ a, is_named_input a = true) (fn_arguments f)) in
  let required := Z.to_nat (Z.of_nat (length inputNames) - PgNargsDefaults f) in
  forallb (λ kv, bool_decide (kv.1 ∈ inputNames)) named &&
  forallb (λ k, bool_decide (is_Some (map_get k named))) (take required inputNames).

Definition candidates (schema name : string) : list Function_ :=
  omap (λ i, Functions d !! i) (ResolveFunctionCandidates d schema name).

Definition resolveFunctionCandidate {A} (schema name : string) (positional : nat)
    (named : option (list (string * A))) (kindOK : Function_ → bool) (allowOverloads : bool)
    : outcome Function_ :=
  let filtered := filter (λ f, kindOK f = true) (candidates schema name) in
  match filtered with
  | [] => errorc UnknownIdentifier "unknown function"
  | _ =>
      let accepts f :=
        match named with
        | Some named => functionAcceptsNames f named
        | None => AcceptsArity f (Z.of_nat positional)
        end in
      match filter (λ f, accepts f = true) filtered with
      | [] => errorc QueryInvalidExpression "no overload of %q matches the given arguments"
      | fn :: more =>
          if negb (bool_decide (more = [])) && negb allowOverloads
          then errorc QueryInvalidExpression "ambiguous function %q"
          else if IsFunctionBlacklisted bl (id_schema (fn_ident fn)) (id_name (fn_ident fn))
          then errorc UnknownIdentifier "function %q is blacklisted"
          else Ok fn
      end
  end.

Definition resolveFunction (raw : rawRelation) : outcome Function_ :=
  resolveFunctionCandidate (raw_schema raw) (raw_function raw) (length (default [] (raw_positional raw)))
    (raw_named raw) IsPlainFunction false.

(** What a node reads: a relation, or a function and the relation it returns. *)
Definition resolve_source (raw : rawRelation) : outcome (option Function_ * option rel_ref) :=
  if raw_is_function raw then
    fn ← resolveFunction raw;
    let rel := match GetRelationByType d (fn_return fn) with
               | Some r => Some r
               | None => RecordOf fn <$> fn_record fn
               end in
    Ok (Some fn, rel)
  else
    match ResolveRelation d (raw_schema raw) (raw_relation raw) with
    | None => errorc UnknownIdentifier "unknown relation"
    | Some relid =>
        match GetRelation d relid with
        | None => errorc UnknownIdentifier "unknown relation"
        | Some rel =>
            if IsRelationBlacklisted bl (id_schema (rel_ident rel)) (id_name (rel_ident rel))
            then errorc UnknownIdentifier "relation %q is blacklisted"
            else Ok (None, Some (RelOf relid))
        end
    end.

(** * Joins *)

(** The columns of [on], local names in order. *)
Fixpoint join_columns (local parent : Relation) (on : list (string * string)) (names : list string)
    : outcome (list (Column * Column)) :=
  match names with
  | [] => Ok []
  | l :: names =>
      match ColumnsMap (Columns local) !! l with
      | None => errorc UnknownIdentifier "on: unknown local column %q"
      | Some lc =>
          match ColumnsMap (Columns parent) !! default "" (on_get on l) with
          | None => errorc UnknownIdentifier "on: unknown parent column %q"
          | Some dc => cs ← join_columns local parent on names; Ok ((lc, dc) :: cs)
          end
      end
  end.

Definition resolve_join (rel : option rel_ref) (parent : QueryNode) (on : list (string * string))
    : outcome (list (Column * Column) * bool) :=
  match rel ≫= relation_of d with
  | None => errorc JoinMissingIndex "cannot join into this node : it has no resolvable relation"
  | Some r =>
      match n_relation parent, node_relation d parent with
      | Some pref, Some p =>
          j ← wrapf "resolving join" (ResolveJoin r (relid_of pref) p on);
          cols ← join_columns r p on (sort_strings on.*1);
          Ok (cols, j.2)
      | _, _ => errorc JoinMissingIndex "cannot join : the parent node has no resolvable relation"
      end
  end.

(** * Conflict target and columns *)

Definition resolve_conflict (raw : rawRelation) (rel : option Relation) : outcome (string * list string) :=
  let columns := default [] (raw_on_conflict_columns raw) in
  if negb (String.eqb (raw_on_conflict_name raw) "") || negb (bool_decide (columns = [])) then
    match rel with
    | None => errorc WriteForbidden "on_conflict given but this node has no resolvable relation"
    | Some r =>
        if negb (String.eqb (raw_on_conflict_name raw) "") then
          match FindConstraintByName r (raw_on_conflict_name raw) with
          | None => errorc WriteForbidden "unknown constraint %q"
          | Some c => Ok (con_name c, [])
          end
        else
          match FindUniqueConstraint r columns with
          | None => errorc WriteForbidden "no unique/primary-key constraint matches on_conflict columns %v"
          | Some c => Ok (con_name c, columns)
          end
    end
  else Ok (default "" (con_name <$> (rel ≫= PrimaryKey)), []).

Definition check_columns (msg : string) (rel : option Relation) (cols : option (list string)) : outcome unit :=
  if forallb (λ c, bool_decide (is_Some (rel ≫= λ r, ColumnsMap (Columns r) !! c))) (default [] cols)
  then Ok tt else errorc UnknownIdentifier msg.

(** * The tree *)

Section body.
(** [resolveNode] one level deeper: the relation, the parent and the alias. *)
Variable rec : rawRelation → node_id → string → resolve node_id.

Definition attach (parent : node_id) (isToOne : bool) (child : node_id) : resolve unit :=
  update_node parent (λ p,
    if isToOne then with_children (n_outgoing p ++ [child]) (n_incoming p) p
    else with_children (n_outgoing p) (n_incoming p ++ [child]) p).

Definition resolve_children (self : node_id) (join : list (string * rawRelation)) : resolve unit :=
  for_each (λ _ alias,
    match map_get alias join with
    | Some child => _ ← rec child self alias; mret tt
    | None => lift Panic
    end) 0 (sort_strings join.*1).

Definition resolveNode_body (raw : rawRelation) (parent : option node_id) (outerAlias : string) (depth : Z)
    : resolve node_id :=
  if max_depth <? depth then fail "" "query exceeds the configured maximum depth (%d)"
  else
    source ← lift (resolve_source raw);
    let '(fn, rel) := source in
    p ← match parent with None => mret None | Some p => n ← node_at p; mret (Some n) end;
    joined ← match p with
             | None => mret ([], false)
             | Some pn => lift (resolve_join rel pn (default [] (raw_on raw)))
             end;
    let '(cols, isToOne) := joined in
    mode ← lift (node_write_mode raw p isToOne);
    let r := rel ≫= relation_of d in
    conflict ← lift (resolve_conflict raw r);
    _ ← lift (check_columns "insert_columns: unknown column %q" r (raw_insert_columns raw));
    _ ← lift (check_columns "update_columns: unknown column %q" r (raw_update_columns raw));
    self ← new_node {|
      n_parent := parent; n_join := cols; n_outer := outerAlias;
      n_outgoing := []; n_incoming := [];
      n_relation := rel; n_function := fn;
      n_args := if raw_is_function raw then default [] (raw_positional raw) else [];
      n_named := if raw_is_function raw then raw_named raw else None;
      n_inner := raw_alias raw; n_where := raw_where raw;
      n_mode := mode; n_conflict_name := conflict.1; n_conflict_columns := conflict.2;
      n_insert_columns := raw_insert_columns raw; n_update_columns := raw_update_columns raw;
      n_select := default (StarExpr false [] []) (raw_select raw);
      n_distinct := raw_distinct raw; n_distinct_on := raw_distinct_on raw;
      n_order_by := raw_order_by raw; n_offset := raw_offset raw; n_limit := raw_limit raw;
      n_shape := None |};
    _ ← match parent with None => mret tt | Some p => attach p isToOne self end;
    _ ← resolve_children self (default [] (raw_join raw));
    mret self.
End body.

Fixpoint resolveNode (fuel : nat) (raw : rawRelation) (parent : option node_id) (outerAlias : string) (depth : Z)
    : resolve node_id :=
  match fuel with
  | O => λ _, OutOfFuel
  | S fuel =>
      resolveNode_body (λ raw self alias, resolveNode fuel raw (Some self) alias (depth + 1))
        raw parent outerAlias depth
  end.

(** Depths above the limit fail, so the limit bounds the calls. *)
Definition resolveQuery (raw : rawRelation) : resolve node_id :=
  resolveNode (S (Z.to_nat max_depth)) raw None "" 1.
End resolve.
