(* ===== verification/ResolveQueryFacts.v ===== *)
(** The resolved tree: what every node of it satisfies, and that resolution
    always returns. *)
From Stdlib Require Import ZArith Lia Ascii.
From stdpp Require Import sorting.
From S2P Require Import Prelude CborNode Catalog Joins JoinsFacts KeysFacts Expression Nodes ResolveQuery.
Set Warnings "-register-all".
#[local] Set Default Proof Using "Type*".

(** * One node *)

Lemma wp_lift_returns {S A} (m : outcome A) (Q : A → S → Prop) s :
  returns m → (∀ a, m = Ok a → Q a s) → wp any_error (lift m) Q s.
Proof. intros Hm HQ. unfold wp, lift. destruct m; try done. by apply HQ. Qed.

Section node.
Context (d : DbInfos) (bl : Blacklist) (max_depth : Z).

(** The relation is not blacklisted, or the function is a plain one that is not. *)
Definition function_admitted (fn : Function_) : Prop :=
  IsFunctionBlacklisted bl (id_schema (fn_ident fn)) (id_name (fn_ident fn)) = false.
Definition admitted (n : QueryNode) : Prop :=
  match n_function n with
  | Some fn => function_admitted fn ∧ IsPlainFunction fn = true
  | None => ∃ relid r, n_relation n = Some (RelOf relid) ∧ GetRelation d relid = Some r ∧
      IsRelationBlacklisted bl (id_schema (rel_ident r)) (id_name (rel_ident r)) = false
  end.

Lemma resolveFunctionCandidate_spec {A} schema name pos (named : option (list (string * A))) kindOK over :
  returns (resolveFunctionCandidate d bl schema name pos named kindOK over) ∧
  ∀ fn, resolveFunctionCandidate d bl schema name pos named kindOK over = Ok fn →
    kindOK fn = true ∧ function_admitted fn ∧ fn ∈ candidates d schema name.
Proof.
  unfold resolveFunctionCandidate.
  set (fs := filter (λ f, kindOK f = true) (candidates d schema name)).
  assert (∀ fn, fn ∈ fs → kindOK fn = true ∧ fn ∈ candidates d schema name) as Hfs
    by (intros fn; unfold fs; by rewrite list_elem_of_filter).
  destruct fs as [|f fs'] eqn:Ef; [done|]. rewrite <-Ef in *. clear Ef f fs'.
  set (ms := filter _ fs). destruct ms as [|fn more] eqn:Em; [done|].
  destruct (_ && _); [done|]. destruct (IsFunctionBlacklisted _ _ _) eqn:Eb; [done|].
  split; [done|]. intros fn' [= <-].
  assert (fn ∈ ms) as Hin by (rewrite Em; by left). apply list_elem_of_filter in Hin as [_ Hin].
  destruct (Hfs fn Hin). done.
Qed.

Lemma resolve_source_spec raw :
  returns (resolve_source d bl raw) ∧
  ∀ fn rel, resolve_source d bl raw = Ok (fn, rel) → ∀ n, n_function n = fn → n_relation n = rel → admitted n.
Proof.
  unfold resolve_source. destruct (raw_is_function raw).
  - unfold resolveFunction. edestruct (resolveFunctionCandidate_spec (A := Expression)) as [Hr Hs].
    split; [apply returns_bind; [exact Hr|done]|].
    intros fn rel (f & Hf & [= <- <-])%outcome_bind_ok n Hn _. unfold admitted. rewrite Hn.
    by destruct (Hs f Hf) as (? & ? & _).
  - destruct (ResolveRelation _ _ _) as [relid|]; [|done].
    destruct (GetRelation d relid) as [r|] eqn:Er; [|done].
    destruct (IsRelationBlacklisted _ _ _) eqn:Eb; [done|]. split; [done|].
    intros fn rel [= <- <-] n Hn Hrel. unfold admitted. rewrite Hn. eauto.
Qed.

(** ** Joins *)

Lemma pairs_match_returns on cs ts :
  Forall is_Some cs → Forall is_Some ts → (length cs ≤ length ts)%nat → returns (pairs_match on cs ts).
Proof.
  intros Hc. revert ts. induction Hc as [|c cs [n ->] _ IH]; intros ts Ht Hl; cbn [pairs_match]; [done|].
  cbn [deref mbind outcome_bind]. destruct (on_get on n); [|done].
  destruct Ht as [|t ts [m ->] Ht]; cbn in Hl; [lia|]. cbn [deref mbind outcome_bind].
  destruct (String.eqb _ _); [|done]. apply IH; [done|lia].
Qed.

Lemma matching_returns on cs : (∀ c, c ∈ cs → paired c) → returns (matching_relationship on cs).
Proof.
  induction cs as [|c cs IH]; intros Hc; cbn [matching_relationship]; [done|].
  apply returns_bind.
  - unfold pairingMatches. destruct (Hc c) as (o & ts & -> & Hl & Hcs & Hts); [by left|].
    destruct (negb _); [done|]. apply pairs_match_returns; [done..|lia].
  - intros [] _; [done|]. apply IH. intros; apply Hc. by right.
Qed.

Lemma any_inverted_returns ls ps cs : (∀ c, c ∈ cs → paired c) → returns (any_inverted ls ps cs).
Proof.
  induction cs as [|c cs IH]; intros Hc; cbn [any_inverted]; [done|].
  apply returns_bind.
  - unfold inverted. destruct (Hc c) as (o & ts & Ht & Hl & Hcs & Hts); [by left|].
    apply returns_bind; [by apply columnNames_returns|]. intros names _.
    destruct (String.eqb _ _); [|done]. rewrite Ht. apply returns_bind; [by apply columnNames_returns|done].
  - intros [] _; [done|]. apply IH. intros; apply Hc. by right.
Qed.

Lemma RelationshipsTo_paired r other c : relation_paired r → c ∈ RelationshipsTo r other → paired c.
Proof.
  intros Hr. unfold RelationshipsTo. destruct (byOtherRelation r !! other) as [cs|] eqn:E; cbn.
  - by apply Hr with other.
  - by intros ?%elem_of_nil.
Qed.

Lemma ResolveJoin_returns r pid parent on : relation_paired r → returns (ResolveJoin r pid parent on).
Proof.
  intros Hr. unfold ResolveJoin. destruct on as [|p on]; [done|]. cbn beta iota delta [splitOn].
  apply returns_bind; [apply matching_returns; intros; by eapply RelationshipsTo_paired|].
  intros m _. apply returns_bind.
  - destruct m; [done|]. apply returns_bind.
    + apply any_inverted_returns. intros; by eapply RelationshipsTo_paired.
    + intros [] _; [done|]. by destruct (FindUniqueConstraint _ _).
  - intros [c|] _; [|done]. by destruct (negb _).
Qed.

Lemma join_columns_spec local parent on names :
  returns (join_columns local parent on names) ∧
  ∀ cols, join_columns local parent on names = Ok cols → map (λ c, col_name c.1) cols = names.
Proof.
  induction names as [|l names [IHr IH]]; cbn [join_columns]; [split; [done|by intros ? [= <-]]|].
  destruct (ColumnsMap (Columns local) !! l) as [lc|] eqn:El; [|done].
  destruct (ColumnsMap (Columns parent) !! _) as [dc|]; [|done].
  split; [by apply returns_bind|]. intros cols (cs & Hcs & [= <-])%outcome_bind_ok. cbn.
  by rewrite (proj1 (ColumnsMap_name _ _ _ El)), (IH _ Hcs).
Qed.

(** The join columns of a node are indexed on its relation, and there are some. *)
Definition joined (n : QueryNode) : Prop :=
  ∃ r, node_relation d n = Some r ∧ n_join n ≠ [] ∧
       IsIndexed r (map (λ c, col_name c.1) (n_join n)) = true.

Lemma IsIndexed_perm r l k : l ≡ₚ k → IsIndexed r l = IsIndexed r k.
Proof. intros Hlk. unfold IsIndexed, sortedColumnKey. by rewrite (sort_strings_perm _ _ Hlk). Qed.

Lemma relation_of_paired rel r : catalog_ok d → relation_of d rel = Some r → relation_paired r.
Proof.
  intros Hd. destruct rel as [relid|fn cols]; cbn; [by apply Hd|]. intros [= <-] other cs c Hcs.
  cbn in Hcs. by rewrite lookup_empty in Hcs.
Qed.

Lemma resolve_join_spec rel parent on :
  catalog_ok d →
  returns (resolve_join d rel parent on) ∧
  ∀ cols one, resolve_join d rel parent on = Ok (cols, one) →
    ∀ n, n_relation n = rel → n_join n = cols → joined n.
Proof.
  intros Hd. unfold resolve_join. destruct (rel ≫= relation_of d) as [r|] eqn:Er; [|done].
  destruct (n_relation parent) as [pref|]; [|done]. destruct (node_relation d parent) as [p|]; [|done].
  set (names := sort_strings on.*1).
  assert (returns (ResolveJoin r (relid_of pref) p on)) as Hret.
  { apply ResolveJoin_returns. destruct rel as [rel|]; [|done]. by eapply relation_of_paired. }
  destruct (ResolveJoin r (relid_of pref) p on) as [[c one]|e| |] eqn:Ej; try done. cbn [wrapf mbind outcome_bind].
  destruct (join_columns_spec r p on names) as [Hjr Hj].
  split; [by apply returns_bind|]. intros cols one' (cs & Hcs & [= -> <-])%outcome_bind_ok n Hn Hc.
  destruct (ResolveJoin_spec _ _ _ _ _ _ Ej) as (Hne & Hix & _).
  assert (names ≡ₚ on.*1) as Hp by apply merge_sort_Permutation.
  exists r. unfold node_relation. rewrite Hn, Hc, (Hj _ Hcs). split_and!; [done| |].
  - intros ->. rewrite <-(Hj _ Hcs) in Hp. apply Permutation_nil in Hp. by destruct on.
  - by rewrite (IsIndexed_perm _ _ _ Hp).
Qed.

(** ** Write modes *)

(** A node's mode suits its place: [parent] is its parent, [one] whether it is
    embedded as a single object. *)
Definition placed (n : QueryNode) (parent : option QueryNode) (one : bool) : Prop :=
  (isWhereDriven (n_mode n) = true → parent = None ∧ is_Some (n_where n)) ∧
  (is_merge (n_mode n) = true → is_Some parent ∧ one = false) ∧
  (parent_driven parent = true → n_mode n = READONLY).

Lemma checkWriteModePlacement_spec raw m parent :
  returns (checkWriteModePlacement raw m parent) ∧
  (checkWriteModePlacement raw m parent = Ok tt →
   (isWhereDriven m = true → parent = None ∧ is_Some (raw_where raw)) ∧
   (is_merge m = true → is_Some parent) ∧ (parent_driven parent = true → m = READONLY)).
Proof.
  unfold checkWriteModePlacement. destruct (isWhereDriven m) eqn:Ed.
  - destruct parent as [p|]; [done|]. destruct (raw_where raw); [|done].
    destruct (_ && has_joins raw); [done|]. cbn. split; [done|]. intros _. split_and!; eauto; [|done].
    intros Hm. destruct m; try done; by vm_compute in Ed, Hm.
  - destruct (is_merge m && _) eqn:Em; [done|]. cbn.
    destruct (parent_driven parent && _) eqn:Ep; [done|]. split; [done|]. intros _. split_and!; [done| |].
    + intros Hm. rewrite Hm in Em. cbn in Em.
      by destruct (bool_decide_reflect (is_Some parent)).
    + intros Hp. rewrite Hp in Ep. cbn in Ep. by destruct (bool_decide_reflect (m = READONLY)).
Qed.

Lemma node_write_mode_spec raw parent one :
  returns (node_write_mode raw parent one) ∧
  ∀ m, node_write_mode raw parent one = Ok m →
    ∀ n, n_mode n = m → n_where n = raw_where raw → placed n parent one.
Proof.
  unfold node_write_mode. set (first := if String.eqb _ "" then _ else _).
  assert (returns first) as Hf.
  { unfold first. destruct (String.eqb _ _); [done|]. by destruct (map_get _ _). }
  destruct first as [m0|e| |]; try done. cbn [mbind outcome_bind].
  destruct (_ && is_merge m0) eqn:Em; [done|].
  destruct (checkWriteModePlacement_spec raw m0 parent) as [Hr Hs]. split; [by apply returns_bind|].
  intros m ([] & Hc & [= ->])%outcome_bind_ok n Hn Hw. destruct (Hs Hc) as (H1 & H2 & H3).
  unfold placed. rewrite Hn, Hw. split_and!; [done| |done]. intros Hm. split; [by apply H2|].
  destruct (H2 Hm) as [p ->]. rewrite Hm in Em. cbn in Em. by destruct one.
Qed.

Lemma resolve_conflict_returns raw rel : returns (resolve_conflict raw rel).
Proof.
  unfold resolve_conflict. destruct (_ || _); [|done]. destruct rel; [|done].
  destruct (negb _); [by destruct (FindConstraintByName _ _)|by destruct (FindUniqueConstraint _ _)].
Qed.
Lemma check_columns_returns msg rel cols : returns (check_columns msg rel cols).
Proof. unfold check_columns. by destruct (forallb _ _). Qed.

(** * The tree *)

(** The root joins nothing; another node is a child of an earlier one, among its
    single objects or among its arrays. *)
Definition linked (ns : list QueryNode) (i : node_id) (n : QueryNode) : Prop :=
  match n_parent n with
  | None => n_join n = [] ∧ placed n None false
  | Some p => (p < i)%nat ∧ joined n ∧
      ∃ pn one, ns !! p = Some pn ∧ placed n (Some pn) one ∧
        i ∈ (if one : bool then n_outgoing pn else n_incoming pn)
  end.
Definition nodes_ok (ns : list QueryNode) : Prop :=
  ∀ i n, ns !! i = Some n → admitted n ∧ linked ns i n.
(** A node's children have it as their parent. *)
Definition kids (n : QueryNode) : list node_id := n_outgoing n ++ n_incoming n.
Definition parented (ns : list QueryNode) : Prop :=
  ∀ i n c, ns !! i = Some n → c ∈ kids n → ∃ cn, ns !! c = Some cn ∧ n_parent cn = Some i.
Definition tree_ok (ns : list QueryNode) : Prop := nodes_ok ns ∧ parented ns.

Definition add_child (one : bool) (child : node_id) (p : QueryNode) : QueryNode :=
  if one then with_children (n_outgoing p ++ [child]) (n_incoming p) p
  else with_children (n_outgoing p) (n_incoming p ++ [child]) p.

Lemma add_child_same one child p :
  n_mode (add_child one child p) = n_mode p ∧
  (∀ i b, i ∈ (if b : bool then n_outgoing p else n_incoming p) →
     i ∈ (if b : bool then n_outgoing (add_child one child p) else n_incoming (add_child one child p))) ∧
  child ∈ (if one then n_outgoing (add_child one child p) else n_incoming (add_child one child p)).
Proof.
  assert (∀ (l : list node_id), child ∈ l ++ [child]) as Hc by (intros l; apply elem_of_app; right; by left).
  destruct one; cbn; (split_and!; [done| |apply Hc]); intros i []; cbn; rewrite ?elem_of_app; tauto.
Qed.

Lemma placed_mode n p p' one : n_mode p' = n_mode p → placed n (Some p) one → placed n (Some p') one.
Proof.
  unfold placed, parent_driven. intros -> (H1 & H2 & H3). split_and!; [| |done].
  - intros Hm. by destruct (H1 Hm).
  - intros Hm. split; [done|]. by apply H2.
Qed.

(** A node is judged by fields that children do not change. *)
Lemma add_child_judged one child p ns i :
  (admitted p → admitted (add_child one child p)) ∧ (linked ns i p → linked ns i (add_child one child p)).
Proof. by destruct one. Qed.

Lemma linked_mono ns ns' i n :
  (∀ p pn, ns !! p = Some pn → ∃ pn', ns' !! p = Some pn' ∧ n_mode pn' = n_mode pn ∧
     ∀ i b, i ∈ (if b : bool then n_outgoing pn else n_incoming pn) →
            i ∈ (if b : bool then n_outgoing pn' else n_incoming pn')) →
  linked ns i n → linked ns' i n.
Proof.
  intros Hns. unfold linked. destruct (n_parent n) as [p|]; [|done].
  intros (Hlt & Hj & pn & one & Hp & Hpl & Hin). destruct (Hns p pn Hp) as (pn' & Hp' & Hm & Hch).
  split_and!; [done..|]. exists pn', one. split_and!; [done|by eapply placed_mode|by apply Hch].
Qed.

Lemma nodes_ok_child ns n p pn one :
  nodes_ok ns → ns !! p = Some pn → n_parent n = Some p →
  admitted n → joined n → placed n (Some pn) one →
  nodes_ok (alter (add_child one (length ns)) p (ns ++ [n])).
Proof.
  intros Hns Hp Hpar Hadm Hj Hpl.
  assert (p < length ns)%nat as Hlt by by eapply lookup_lt_Some.
  set (ns' := alter _ p _).
  assert (∀ q qn, ns !! q = Some qn → ns' !! q = Some (if decide (q = p) then add_child one (length ns) qn else qn)) as Hold.
  { intros q qn Hq. unfold ns'. case_decide as Hqp.
    - subst q. rewrite list_lookup_alter_eq, lookup_app_l, Hq by done. done.
    - rewrite list_lookup_alter_ne, lookup_app_l by (done || by eapply lookup_lt_Some). done. }
  assert (∀ q qn, ns !! q = Some qn → ∃ pn', ns' !! q = Some pn' ∧ n_mode pn' = n_mode qn ∧
    ∀ i b, i ∈ (if b : bool then n_outgoing qn else n_incoming qn) →
           i ∈ (if b : bool then n_outgoing pn' else n_incoming pn')) as Hmono.
  { intros q qn Hq. eexists. split; [by apply Hold|]. case_decide; [|done].
    destruct (add_child_same one (length ns) qn) as (H1 & H2 & _). split; [exact H1|exact H2]. }
  intros i x Hx. destruct (decide (i = length ns)) as [->|Hi].
  - unfold ns' in Hx. rewrite list_lookup_alter_ne in Hx by lia.
    rewrite lookup_app_r, Nat.sub_diag in Hx by done. injection Hx as <-. split; [done|].
    unfold linked. rewrite Hpar. split_and!; [done..|]. eexists _, one. split_and!.
    + apply (Hold p pn Hp).
    + rewrite decide_True by done. eapply placed_mode; [|exact Hpl]. apply add_child_same.
    + rewrite decide_True by done. apply add_child_same.
  - assert (i < length ns)%nat as Hil.
    { apply lookup_lt_Some in Hx. unfold ns' in Hx. rewrite length_alter, length_app in Hx. cbn in Hx. lia. }
    destruct (lookup_lt_is_Some_2 ns i Hil) as [y Hy]. rewrite (Hold i y Hy) in Hx. injection Hx as <-.
    destruct (Hns i y Hy) as [Ha Hl]. apply (linked_mono _ ns') in Hl; [|done].
    destruct (add_child_judged one (length ns) y ns' i) as [H1 H2]. case_decide; split; auto.
Qed.

Lemma nodes_ok_root ns n :
  nodes_ok ns → n_parent n = None → n_join n = [] → admitted n → placed n None false → nodes_ok (ns ++ [n]).
Proof.
  intros Hns Hpar Hj Hadm Hpl i x Hx. apply lookup_app_Some in Hx as [Hx|[Hle Hx]].
  - destruct (Hns i x Hx) as [? Hl]. split; [done|]. eapply linked_mono; [|exact Hl].
    intros p pn Hp. exists pn. split; [by apply lookup_app_l_Some|done].
  - destruct (i - length ns)%nat as [|k]; [|by destruct k]. injection Hx as <-.
    split; [done|]. unfold linked. by rewrite Hpar.
Qed.

Lemma parented_child ns n p pn one :
  parented ns → ns !! p = Some pn → n_parent n = Some p → kids n = [] →
  parented (alter (add_child one (length ns)) p (ns ++ [n])).
Proof.
  intros Hns Hp Hpar Hkids.
  assert (p < length ns)%nat as Hlt by by eapply lookup_lt_Some.
  set (ns' := alter _ p _).
  assert (∀ c cn i, (ns ++ [n]) !! c = Some cn → n_parent cn = Some i →
    ∃ cn', ns' !! c = Some cn' ∧ n_parent cn' = Some i) as Hkeep.
  { intros c cn i Hc Hi. unfold ns'. destruct (decide (c = p)) as [->|Hcp].
    - rewrite list_lookup_alter_eq, Hc. eexists. split; [done|]. by destruct one.
    - rewrite list_lookup_alter_ne by done. eauto. }
  intros i x c Hx Hc. unfold ns' in Hx.
  assert (∃ y, (ns ++ [n]) !! i = Some y ∧ (c ∈ kids y ∨ i = p ∧ c = length ns)) as (y & Hy & Hcy).
  { destruct (decide (i = p)) as [->|Hip].
    - rewrite list_lookup_alter_eq, lookup_app_l, Hp in Hx by done. injection Hx as <-.
      exists pn. rewrite lookup_app_l by done. split; [done|].
      destruct one; unfold kids, add_child in *; cbn in Hc; rewrite !elem_of_app, ?list_elem_of_singleton in *; tauto.
    - rewrite list_lookup_alter_ne in Hx by done. eauto. }
  destruct Hcy as [Hcy|[-> ->]].
  - apply lookup_app_Some in Hy as [Hy|[Hle Hy]].
    + destruct (Hns i y c Hy Hcy) as (cn & Hcn & Hpc). eapply Hkeep; [by apply lookup_app_l_Some|done].
    + apply list_elem_of_lookup_2 in Hy. apply list_elem_of_singleton in Hy as ->.
      rewrite Hkids in Hcy. by apply elem_of_nil in Hcy.
  - eapply Hkeep; [|done]. by rewrite lookup_app_r, Nat.sub_diag.
Qed.

Lemma parented_root ns n : parented ns → kids n = [] → parented (ns ++ [n]).
Proof.
  intros Hns Hkids i x c Hx Hc. apply lookup_app_Some in Hx as [Hx|[_ Hx]].
  - destruct (Hns i x c Hx Hc) as (cn & Hcn & ?). exists cn. split; [by apply lookup_app_l_Some|done].
  - apply list_elem_of_lookup_2 in Hx. apply list_elem_of_singleton in Hx as ->.
    rewrite Hkids in Hc. by apply elem_of_nil in Hc.
Qed.

Lemma wp_node_at i n (Q : QueryNode → resolver → Prop) s :
  r_nodes s !! i = Some n → Q n s → wp any_error (node_at i) Q s.
Proof. intros Hi HQ. unfold wp, node_at, lift, at_index. by rewrite Hi. Qed.

(** The store a resolution ends with: a tree that kept the nodes it had. *)
Definition grown (s s' : resolver) : Prop :=
  tree_ok (r_nodes s') ∧ (length (r_nodes s) ≤ length (r_nodes s'))%nat.

Lemma wp_children rec self join s :
  (∀ child alias s, tree_ok (r_nodes s) → (self < length (r_nodes s))%nat →
     wp any_error (rec child self alias) (λ _ s', grown s s') s) →
  tree_ok (r_nodes s) → (self < length (r_nodes s))%nat →
  wp any_error (resolve_children rec self join) (λ _ s', grown s s') s.
Proof.
  intros Hrec. unfold resolve_children.
  assert (∀ a, a ∈ sort_strings join.*1 → is_Some (map_get a join)) as Hin.
  { intros a Ha. unfold sort_strings in Ha. rewrite merge_sort_Permutation in Ha.
    induction join as [|[k r] join IH]; [by apply elem_of_nil in Ha|].
    cbn in *. case_decide; [done|]. apply IH. apply elem_of_cons in Ha as [?|?]; [congruence|done]. }
  revert Hin. generalize 0%nat. induction (sort_strings join.*1) as [|a l IH] in s |- *;
    intros i Hin Hs Hself; cbn [for_each]; [apply wp_ret; split; [done|lia]|].
  destruct (Hin a) as [r Hr]; [by left|]. rewrite Hr.
  apply wp_bind, wp_bind. eapply wp_mono; [by apply Hrec|]. intros _ s1 [Hs1 Hl1]. apply wp_ret.
  eapply wp_mono; [apply IH; [intros; apply Hin; by right|done|lia]|].
  intros _ s2 [Hs2 Hl2]. split; [done|lia].
Qed.

Lemma resolveNode_tree fuel raw parent alias depth s :
  catalog_ok d → Z.max 0 (max_depth - depth + 1) < Z.of_nat fuel →
  tree_ok (r_nodes s) →
  (∀ p, parent = Some p → (p < length (r_nodes s))%nat) →
  wp any_error (resolveNode d bl max_depth fuel raw parent alias depth) (λ _ s', grown s s') s.
Proof.
  intros Hcat. revert raw parent alias depth s.
  induction fuel as [|fuel IH]; intros raw parent alias depth s Hf Hs Hp; [lia|].
  cbn [resolveNode]. unfold resolveNode_body. destruct (Z.ltb_spec max_depth depth) as [|Hd]; [done|].
  destruct (resolve_source_spec raw) as [Hsr Hsrc].
  apply wp_bind, wp_lift_returns; [done|]. intros [fn rel] Hfn. specialize (Hsrc _ _ Hfn).
  set (Kids := resolve_children _).
  assert (∀ s self, tree_ok (r_nodes s) → (self < length (r_nodes s))%nat →
    wp any_error (Kids self (default [] (raw_join raw))) (λ _ s', grown s s') s) as HK.
  { intros s1 self Hs1 Hself. apply wp_children; [|done|done]. intros child a s2 Hs2 Hlt.
    apply IH; [lia|done|by intros ? [= <-]]. }
  clearbody Kids. clear IH Hf.
  set (P := match parent with None => mret None | Some p => _ end).
  assert (wp any_error P (λ p s', s' = s ∧
    match parent, p with Some i, Some pn => r_nodes s !! i = Some pn | None, None => True | _, _ => False end) s) as HP.
  { unfold P. destruct parent as [p|]; [|apply wp_ret; done].
    destruct (lookup_lt_is_Some_2 (r_nodes s) p (Hp p eq_refl)) as [pn Hpn].
    apply wp_bind. eapply wp_node_at; [exact Hpn|]. by apply wp_ret. }
  clearbody P. apply wp_bind. eapply wp_mono; [exact HP|]. intros p s1 [-> Hpn].
  set (J := match p with None => mret ([], false) | Some pn => _ end).
  assert (wp any_error J (λ j s', s' = s ∧ match p with
     | None => j = ([], false)
     | Some _ => ∀ n, n_relation n = rel → n_join n = j.1 → joined n end) s) as HJ.
  { unfold J. destruct p as [pn|]; [|by apply wp_ret].
    destruct (resolve_join_spec rel pn (default [] (raw_on raw)) Hcat) as [Hr Hj].
    apply wp_lift_returns; [done|]. intros [cols one] Hok. split; [done|]. by apply (Hj cols one). }
  clearbody J. apply wp_bind. eapply wp_mono; [exact HJ|]. intros [cols one] s2 [-> Hcols].
  destruct (node_write_mode_spec raw p one) as [Hmr Hmode].
  apply wp_bind, wp_lift_returns; [done|]. intros mode Hok. specialize (Hmode _ Hok).
  apply wp_bind, wp_lift_returns; [apply resolve_conflict_returns|]. intros [cn cc] _.
  apply wp_bind, wp_lift_returns; [apply check_columns_returns|]. intros _ _.
  apply wp_bind, wp_lift_returns; [apply check_columns_returns|]. intros _ _.
  set (n := MkNode _ _ _ _ _ _ _ _ _ _ _ _ _ _ _ _ _ _ _ _ _ _ _).
  apply wp_bind. unfold wp at 1, new_node at 1. cbn beta iota. apply wp_bind.
  set (s3 := with_nodes (r_nodes s ++ [n]) s).
  assert (wp any_error (match parent with None => mret tt | Some p => attach p one (length (r_nodes s)) end)
    (λ _ s', tree_ok (r_nodes s') ∧ length (r_nodes s') = S (length (r_nodes s))) s3) as HA.
  { destruct parent as [i|], p as [pn|]; try done.
    - unfold attach, update_node. apply wp_modify. cbn [with_nodes r_nodes s3]. split.
      + destruct Hs as [Hs1 Hs2]. split; [|by apply (parented_child _ _ i pn)].
        apply (nodes_ok_child _ _ i pn); [done|done|done| | |].
        * by apply Hsrc.
        * by apply Hcols.
        * by apply Hmode.
      + rewrite length_alter, length_app. cbn. lia.
    - apply wp_ret. unfold s3. cbn [with_nodes r_nodes]. injection Hcols as -> ->. split.
      + destruct Hs as [Hs1 Hs2]. split; [|by apply parented_root].
        apply nodes_ok_root; [done|done|done|by apply Hsrc|by apply Hmode].
      + rewrite length_app. cbn. lia. }
  clearbody s3. eapply wp_mono; [exact HA|]. intros _ s4 [Hs4 Hl4].
  apply wp_bind. eapply wp_mono; [apply HK; [done|lia]|]. intros _ s5 [Hs5 Hl5].
  apply wp_ret. split; [done|lia].
Qed.
End node.

(** * Properties *)

Definition empty_resolver : resolver := MkResolver [] ∅ ∅.

(** C14: resolving a query returns, and the tree it returns is one a query may
    run: the depth limit bounds the calls, so the recursion ends; every node
    reads a relation that is not blacklisted or calls a plain function that is
    not; every join is on columns that are indexed; and every write mode is where
    it is allowed, the where-driven ones at the root and with a where, the
    deleting ones only under arrays. *)
Theorem resolveQuery_tree (d : DbInfos) (bl : Blacklist) (max_depth : Z) (raw : rawRelation) (Hd : catalog_ok d) :
  match resolveQuery d bl max_depth raw empty_resolver with
  | Ok (_, s) => tree_ok d bl (r_nodes s)
  | Err _ => True
  | _ => False
  end.
Proof.
  pose proof (resolveNode_tree d bl max_depth (S (Z.to_nat max_depth)) raw None "" 1 empty_resolver Hd) as H.
  unfold wp in H. unfold resolveQuery.
  destruct (resolveNode _ _ _ _ _ _ _ _ _) as [[i s]|e| |]; [|done|..]; apply H; try lia; done.
Qed.

Definition plain_query (name : string) (on : option (list (string * string)))
    (join : option (list (string * rawRelation))) : rawRelation :=
  RawRelation name "" false "" "" on None None None "" "" None None None join None false [] [] None None.
Definition users_and_posts : rawRelation :=
  plain_query "users" None (Some [("posts", plain_query "posts" (Some [("author", "id")]) None)]).

(** The tree has two nodes, the second among the arrays of the first. *)
Example users_and_posts_nodes :
  match resolveQuery blog_infos (MkBlacklist ∅ ∅) 6 users_and_posts empty_resolver with
  | Ok (0%nat, s) => map (λ n, (n_parent n, n_incoming n)) (r_nodes s)
  | _ => []
  end = [(None, [1%nat]); (Some 0%nat, [])].
Proof. vm_compute. reflexivity. Qed.

Lemma blog_infos_ok : catalog_ok blog_infos.
Proof.
  unfold blog_infos, blog_keys. cbn [FillConstraintInformations].
  pose proof blog_rows_ok as Hrows. unfold blog_keys in Hrows. apply Forall_cons in Hrows as [H1 [H2 _]%Forall_cons].
  pose proof (fill_constraint_spec blog _ H1) as F1. destruct (fill_constraint blog _) as [d1|e| |]; try done; [|exact blog_ok].
  destruct F1 as [F1 S1]. pose proof (fill_constraint_spec d1 _ (row_ok_kept _ _ _ S1 H2)) as F2.
  cbn [mbind outcome_bind]. destruct (fill_constraint d1 _) as [d2|e| |]; try done; [|exact blog_ok].
  destruct F2 as [F2 _]. auto using blog_ok.
Qed.

Lemma resolveQuery_tree_witness :
  catalog_ok blog_infos ∧
  match resolveQuery blog_infos (MkBlacklist ∅ ∅) 6 users_and_posts empty_resolver with
  | Ok (_, s) => tree_ok blog_infos (MkBlacklist ∅ ∅) (r_nodes s)
  | Err _ => True
  | _ => False
  end.
Proof.
  split; [exact blog_infos_ok|].
  apply (resolveQuery_tree blog_infos (MkBlacklist ∅ ∅) 6 users_and_posts blog_infos_ok).
Defined.
