(* ===== verification/ResolveExpr.v ===== *)
(** Pass 2, expressions: [src/query/expression_resolve.go].

    [resolveExpr] and [resolveChain] are one recursion, which also enters the
    select of another node through [selectShape].  The bodies are written over
    the recursive calls; [resolve_at] ties them with fuel, which [expr_fuel]
    bounds by the heights of the expression and of the selects that are still
    to be resolved.  The scope of an expression is a node or nil. *)
From Stdlib Require Import ZArith Lia Ascii.
From S2P Require Import Prelude CborNode Catalog Joins Expression Nodes ResolveQuery.
Set Warnings "-register-all".

#[global] Instance ArgMode_eq_dec : EqDecision ArgMode.
Proof. solve_decision. Defined.
#[global] Instance FunctionArgument_eq_dec : EqDecision FunctionArgument.
Proof. solve_decision. Defined.
#[global] Instance Function_eq_dec : EqDecision Function_.
Proof. solve_decision. Defined.

Definition FoldJson : list FoldedOperator := ["->"; "->>"; "#>"; "#>>"].

(** [isLiteral] *)
Definition isLiteral (e : Expression) : bool :=
  match e with
  | NullLiteral | BoolLiteral _ | NumberLiteral _ | StringLiteral _ | BigIntLiteral _ | NumericLiteral _ => true
  | _ => false
  end.

Definition set_in_progress (f : gset node_id → gset node_id) (r : resolver) : resolver :=
  MkResolver (r_nodes r) (f (r_in_progress r)) (r_own r).
Definition set_own (f : gset node_id → gset node_id) (r : resolver) : resolver :=
  MkResolver (r_nodes r) (r_in_progress r) (f (r_own r)).

(** An optional expression: [if e != nil]. *)
Definition opt_m {S A B} (f : A → M S B) (o : option A) : M S (option B) :=
  match o with Some a => b ← f a; mret (Some b) | None => mret None end.

(** The values of a map, in its order. *)
Definition map_values {S A B} (f : A → M S B) : list (string * A) → M S (list (string * B)) :=
  map_m (λ kv, b ← f kv.2; mret (kv.1, b)).

(** The height of an expression: hops and nested forms. *)
Fixpoint expr_height (e : Expression) : nat :=
  let list es := list_max (map expr_height es) in
  let opt o := match o with Some e => expr_height e | None => 0%nat end in
  match e with
  | UnaryExpr _ e => S (expr_height e)
  | BinaryExpr _ l r | FoldedExpr _ l r => S (Nat.max (expr_height l) (expr_height r))
  | BetweenExpr _ a b c | SliceExpr a b c =>
      S (Nat.max (expr_height a) (Nat.max (expr_height b) (expr_height c)))
  | InExpr _ e es | ConcatWsExpr e es => S (Nat.max (expr_height e) (list es))
  | AnyAllExpr _ _ a b | IndexExpr a b => S (Nat.max (expr_height a) (expr_height b))
  | CoalesceExpr es | FormatExpr _ es | ArrExpr es | LstExpr es | CallExpr _ es _ => S (list es)
  | AggExpr _ _ args f _ order_by _ =>
      S (Nat.max (list args) (Nat.max (opt f) (list_max (map (λ t, expr_height t.1) order_by))))
  | ObjectExpr fields | StarExpr _ _ fields => S (list_max (map (λ t, expr_height t.2) fields))
  | ColExpr _ dget dset _ _ => S (Nat.max (opt dget) (opt dset))
  | GetExpr _ def _ | SetExpr _ def _ => S (opt def)
  | _ => 1%nat
  end.

Section expr.
Context (d : DbInfos) (bl : Blacklist).

Abbreviation landing := (option ResolvedField).

Definition in_scope (i : node_id) (name : string) : resolve ResolvedField :=
  λ r, lift (LookupInScope d (r_nodes r) i name) r.

(** ** Columns *)

Definition resolvePlainColumn (n : option node_id) (name : string) : resolve Column :=
  match n with
  | None => fail UnknownIdentifier "no relation in scope to resolve column %q"
  | Some i =>
      x ← node_at i;
      match node_relation d x with
      | None => fail UnknownIdentifier "no relation in scope to resolve column %q"
      | Some r =>
          match ColumnsMap (Columns r) !! name with
          | None => fail UnknownIdentifier "unknown column %q"
          | Some c => mret c
          end
      end
  end.

Definition validateExceptColumns (n : option node_id) (except : list string) : resolve unit :=
  for_each (λ _ name, _ ← resolvePlainColumn n name; mret tt) 0 except.

(** The columns, then the aliases; a later key overrides. *)
Definition own_columns (i : node_id) (r : Relation) (except : list string) : Shape :=
  foldl (λ m c, map_set (col_name c) (Some (RColumnPath i [c] None)) m) []
    (filter (λ c, col_name c ∉ except) (Columns r)).

Definition ownFullBase (n : option node_id) (except : list string) (includeAliases : bool) : resolve Shape :=
  match n with
  | None => lift Panic
  | Some i =>
      x ← node_at i;
      let base := match node_relation d x with Some r => own_columns i r except | None => [] end in
      if includeAliases
      then fold_m (λ m c, child ← node_at c; mret (map_set (n_outer child) (Some (RQueryNode c)) m))
             base (n_outgoing x ++ n_incoming x)
      else mret base
  end.

(** ** Equality of fields *)

Definition resolvedFieldsEqual (a : ResolvedField) (b : landing) : bool :=
  match a, b with
  | RColumnPath n p _, Some (RColumnPath n' p' _) => String.eqb (ColumnPathKey n p) (ColumnPathKey n' p')
  | RQueryNode n, Some (RQueryNode n') => Nat.eqb n n'
  | RComputed n f, Some (RComputed n' f') => Nat.eqb n n' && bool_decide (f = f')
  | _, _ => false
  end.

Section body.
(** [resolveExpr] and [resolveChain]. *)
Variable rec : Expression → option node_id → resolve Expression.
Variable rec_chain : Expression → option node_id → resolve (Expression * landing).

Definition resolveExprSlice (exprs : list Expression) (n : option node_id) : resolve (list Expression) :=
  map_m (λ e, rec e n) exprs.

(** ** Shapes *)

Fixpoint build_shape (n : option node_id) (shape : Shape) (and : list (string * Expression))
    : resolve (list (string * Expression) * Shape) :=
  match and with
  | [] => mret ([], shape)
  | (k, e) :: and =>
      if bool_decide (is_Some (map_get k shape))
      then fail QueryInvalidExpression "computed key %q collides with an own/full column or alias of the same name"
      else
        x ← rec_chain e n;
        rest ← build_shape n (map_set k x.2 shape) and;
        mret ((k, x.1) :: rest.1, rest.2)
  end.

Definition selectShape (target : node_id) : resolve Shape :=
  t ← node_at target;
  match n_shape t with
  | Some s => mret (sh_fields s)
  | None =>
      r ← get;
      if bool_decide (target ∈ r_in_progress r)
      then fail QueryInvalidExpression "a node's select cannot reference itself through its own shape"
      else
        _ ← modify (set_in_progress (λ s, {[ target ]} ∪ s));
        x ← rec_chain (n_select t) (Some target);
        let shape := match x.2 with Some (RShape s) => s | _ => [] end in
        _ ← update_node target (with_select x.1 (Some (MkNodeShape shape [] false)));
        _ ← modify (set_in_progress (λ s, s ∖ {[ target ]}));
        mret shape
  end.

(** ** Hops *)

Definition resolveExternalHop (target : node_id) (name : string) : resolve landing :=
  r ← get;
  let scope := LookupInScope d (r_nodes r) target name in
  shape ← (if bool_decide (target ∈ r_own r) then mret [] else selectShape target);
  match scope, map_get name shape with
  | Ok f, Some sf =>
      if resolvedFieldsEqual f sf then mret (Some f)
      else fail UnknownIdentifier "identifier %q is ambiguous : scope and the select shape disagree on what it means"
  | Ok f, None => mret (Some f)
  | Err _, Some sf => mret sf
  | Err e, None => lift (Err e)
  | Panic, _ => lift Panic
  | OutOfFuel, _ => λ _, OutOfFuel
  end.

Definition composite_hop (node : node_id) (path : list Column) (element : option Z) (name : string)
    : outcome ResolvedField :=
  match last path with
  | None => Panic
  | Some _ =>
      rel ← match CurrentType path element with Some t => CompositeRelation d t | None => Ok None end;
      match rel ≫= GetRelation d with
      | None => errorc QueryInvalidExpression "column %q is not composite, cannot chain the hop past it"
      | Some r =>
          match ColumnsMap (Columns r) !! name with
          | None => errorc UnknownIdentifier "unknown field %q on composite column %q"
          | Some c => Ok (RColumnPath node (path ++ [c]) None)
          end
      end
  end.

Definition resolveHopInto (right : Expression) (into : ResolvedField) : resolve (Expression * landing) :=
  match right with
  | Identifier name _ =>
      f ← match into with
          | RColumnPath node path element => f ← lift (composite_hop node path element name); mret (Some f)
          | RQueryNode c => resolveExternalHop c name
          | RShape s =>
              match map_get name s with
              | Some f => mret f
              | None => fail UnknownIdentifier "unknown field %q"
              end
          | RComputed _ _ => fail QueryInvalidExpression "cannot chain further here"
          end;
      mret (Identifier name f, f)
  | _ => fail QueryInvalidExpression "a hop must be a plain name, got %T"
  end.

(** An index into a path whose type is an array. *)
Definition index_landing (land : landing) : outcome landing :=
  match land with
  | Some (RColumnPath node path element) =>
      t ← match CurrentType path element with
          | Some t => u ← Underlying (domain_fuel d) d t; Ok (Some u)
          | None => Ok None
          end;
      match t with
      | Some t =>
          if IsArray d t then Ok (Some (RColumnPath node path (ElementType d t)))
          else errorc QueryInvalidExpression "cannot index a non-array value"
      | None => errorc QueryInvalidExpression "cannot index a non-array value"
      end
  | _ => Ok None
  end.

(** ** The recursion *)

(** The forms that have a landing of their own. *)
Definition chains (e : Expression) : bool :=
  match e with
  | Identifier _ _ | ObjectExpr _ | StarExpr _ _ _ | ColExpr _ _ _ _ _ | GetExpr _ _ _ => true
  | FoldedExpr op _ _ => String.eqb op FoldDot
  | _ => false
  end.

Definition resolve_agg (n : option node_id) address fn args filter distinct order_by : resolve Expression :=
  f ← lift (resolveFunctionCandidate (A := Expression) d bl (ref_schema fn) (ref_name fn) (length args) None
              IsAggregate true);
  args ← resolveExprSlice args n;
  filter ← opt_m (λ e, rec e n) filter;
  order_by ← map_m (λ t : OrderByTerm,
    e ← rec t.1 n;
    if isLiteral e then fail QueryInvalidExpression "order_by: a literal is not a column" else mret (e, t.2)) order_by;
  mret (AggExpr address fn args filter distinct order_by (Some f)).

(** The cases of [resolveExpr] that do not delegate to [resolveChain]. *)
Definition resolveExpr_plain (e : Expression) (n : option node_id) : resolve Expression :=
  match e with
  | FoldedExpr op l r =>
      l ← rec l n;
      if bool_decide (op ∈ FoldJson) then mret (FoldedExpr op l r) else r ← rec r n; mret (FoldedExpr op l r)
  | UnaryExpr op e => e ← rec e n; mret (UnaryExpr op e)
  | BinaryExpr op l r =>
      l ← rec l n;
      if String.eqb op BinaryCast then mret (BinaryExpr op l r) else r ← rec r n; mret (BinaryExpr op l r)
  | BetweenExpr negate a e b => a ← rec a n; e ← rec e n; b ← rec b n; mret (BetweenExpr negate a e b)
  | InExpr negate e es => e ← rec e n; es ← resolveExprSlice es n; mret (InExpr negate e es)
  | AnyAllExpr all op e a => e ← rec e n; a ← rec a n; mret (AnyAllExpr all op e a)
  | ConcatWsExpr sep es => sep ← rec sep n; es ← resolveExprSlice es n; mret (ConcatWsExpr sep es)
  | CoalesceExpr es => es ← resolveExprSlice es n; mret (CoalesceExpr es)
  | FormatExpr f es => es ← resolveExprSlice es n; mret (FormatExpr f es)
  | AggExpr address fn args filter distinct order_by _ => resolve_agg n address fn args filter distinct order_by
  | CallExpr fn args _ =>
      f ← lift (resolveFunctionCandidate (A := Expression) d bl (ref_schema fn) (ref_name fn) (length args) None
                  IsPlainFunction true);
      args ← resolveExprSlice args n;
      mret (CallExpr fn args (Some f))
  | ArrExpr es => es ← resolveExprSlice es n; mret (ArrExpr es)
  | LstExpr es => es ← resolveExprSlice es n; mret (LstExpr es)
  | IndexExpr a i => a ← rec a n; i ← rec i n; mret (IndexExpr a i)
  | SliceExpr a f t => a ← rec a n; f ← rec f n; t ← rec t n; mret (SliceExpr a f t)
  | SetExpr column def _ =>
      c ← resolvePlainColumn n column;
      def ← opt_m (λ e, rec e n) def;
      mret (SetExpr column def (Some c))
  | _ => mret e
  end.

Definition resolve_col (n : option node_id) (column : string) (dget dset : option Expression)
    : resolve (Expression * landing) :=
  match n with
  | None => fail UnknownIdentifier "no scope available to resolve identifier %q"
  | Some i =>
      f ← in_scope i column;
      match f with
      | RColumnPath _ path _ =>
          match last path with
          | None => lift Panic
          | Some c =>
              dget ← opt_m (λ e, rec e n) dget;
              dset ← opt_m (λ e, rec e n) dset;
              mret (ColExpr column dget dset (Some f) (Some c), Some f)
          end
      | _ => fail QueryInvalidExpression "col %q must be a real physical column"
      end
  end.

Definition resolve_get (n : option node_id) (column : string) (def : option Expression)
    : resolve (Expression * landing) :=
  c ← resolvePlainColumn n column;
  def ← opt_m (λ e, rec e n) def;
  mret (GetExpr column def (Some c), (λ i, RColumnPath i [c] None) <$> n).

Definition resolve_dot (n : option node_id) (l r : Expression) : resolve (Expression * landing) :=
  x ← rec_chain l n;
  match x.2 with
  | None => fail QueryInvalidExpression "cannot chain off a JSON-opaque value"
  | Some into => y ← resolveHopInto r into; mret (FoldedExpr FoldDot x.1 y.1, y.2)
  end.

Definition resolveChain_body (e : Expression) (n : option node_id) : resolve (Expression * landing) :=
  let plain := e ← resolveExpr_plain e n; mret (e, None) in
  match e with
  | Identifier name _ =>
      match n with
      | None => fail UnknownIdentifier "no scope available to resolve identifier %q"
      | Some i => f ← in_scope i name; mret (Identifier name (Some f), Some f)
      end
  | FoldedExpr op l r => if String.eqb op FoldDot then resolve_dot n l r else plain
  | IndexExpr a i =>
      x ← rec_chain a n;
      i ← rec i n;
      land ← lift (index_landing x.2);
      mret (IndexExpr x.1 i, land)
  | ColExpr column dget dset _ _ => resolve_col n column dget dset
  | GetExpr column def _ => resolve_get n column def
  | ObjectExpr fields => x ← build_shape n [] fields; mret (ObjectExpr x.1, Some (RShape x.2))
  | StarExpr own except and =>
      _ ← validateExceptColumns n except;
      base ← ownFullBase n except (negb own);
      x ← build_shape n base and;
      mret (StarExpr own except x.1, Some (RShape x.2))
  | _ => plain
  end.

Definition resolveExpr_body (e : Expression) (n : option node_id) : resolve Expression :=
  if chains e then x ← resolveChain_body e n; mret x.1 else resolveExpr_plain e n.
End body.

(** Both functions, the second with a landing. *)
Fixpoint resolve_at (fuel : nat) (chain : bool) (e : Expression) (n : option node_id)
    : resolve (Expression * landing) :=
  match fuel with
  | O => λ _, OutOfFuel
  | S fuel =>
      let rec e n := x ← resolve_at fuel false e n; mret x.1 in
      let rec_chain := resolve_at fuel true in
      if chain then resolveChain_body rec rec_chain e n
      else e ← resolveExpr_body rec rec_chain e n; mret (e, None)
  end.

(** The heights of the selects that may still be entered, from position [i] on. *)
Fixpoint selects_height (in_progress : gset node_id) (i : node_id) (ns : list QueryNode) : nat :=
  match ns with
  | [] => 0
  | n :: ns =>
      (if decide (n_shape n = None ∧ i ∉ in_progress) then S (expr_height (n_select n)) else 0) +
      selects_height in_progress (S i) ns
  end.
Definition expr_fuel (e : Expression) (r : resolver) : nat :=
  S (expr_height e + selects_height (r_in_progress r) 0 (r_nodes r)).

Definition resolveExpr (e : Expression) (n : option node_id) : resolve Expression := λ r,
  (x ← resolve_at (expr_fuel e r) false e n; mret x.1) r.
Definition resolveChain (e : Expression) (n : option node_id) : resolve (Expression * landing) := λ r,
  resolve_at (expr_fuel e r) true e n r.

(** ** The nodes *)

(** [distinct_on] and [order_by]: a term is not a literal. *)
Definition resolve_terms {A} (msg : string) (get_expr : A → Expression) (set_expr : Expression → A → A)
    (n : node_id) : list A → resolve (list A) :=
  map_m (λ t,
    e ← resolveExpr (get_expr t) (Some n);
    if isLiteral e then fail QueryInvalidExpression msg else mret (set_expr e t)).

(** A function's arguments are in the scope of its parent. *)
Definition resolve_arguments (i : node_id) : resolve unit :=
  x ← node_at i;
  if IsFunction x then
    args ← map_m (λ e, resolveExpr e (n_parent x)) (n_args x);
    named ← opt_m (map_values (λ e, resolveExpr e (n_parent x))) (n_named x);
    update_node i (with_arguments args named)
  else mret tt.

Definition resolve_node (i : node_id) : resolve unit :=
  _ ← modify (set_own (λ s, {[ i ]} ∪ s));
  x ← node_at i;
  w ← opt_m (λ e, resolveExpr e (Some i)) (n_where x);
  _ ← update_node i (with_where w);
  _ ← selectShape resolveChain i;
  x ← node_at i;
  don ← resolve_terms "distinct_on: a literal is not a column" id (λ e _, e) i (n_distinct_on x);
  _ ← update_node i (with_distinct_on don);
  ob ← resolve_terms "order_by: a literal is not a column" fst (λ e t, (e, t.2)) i (n_order_by x);
  _ ← update_node i (with_order_by ob);
  _ ← resolve_arguments i;
  modify (set_own (λ s, s ∖ {[ i ]})).

(** [fuel] bounds the depth of the tree below the node. *)
Fixpoint resolveExpressions (fuel : nat) (i : node_id) : resolve unit :=
  match fuel with
  | O => λ _, OutOfFuel
  | S fuel =>
      x ← node_at i;
      _ ← for_each (λ _ c, resolveExpressions fuel c) 0 (n_outgoing x);
      _ ← for_each (λ _ c, resolveExpressions fuel c) 0 (n_incoming x);
      resolve_node i
  end.
End expr.
