(* ===== verification/ResolveExprFacts.v ===== *)
(** What resolution makes of the expressions of a tree: every name of an
    expression refers to its node or below it, every function it calls is
    admitted, and resolution always returns. *)
From Stdlib Require Import ZArith Lia Ascii.
From S2P Require Import Prelude CborNode Catalog Joins KeysFacts Expression Nodes ResolveQuery ResolveQueryFacts ResolveExpr.
Set Warnings "-register-all".
#[local] Set Default Proof Using "Type*".

(** * The fixed part of the tree *)

(** A node without its expressions, which is what the first step fixed. *)
Definition skeleton (n : QueryNode) : QueryNode :=
  with_expressions None NullLiteral [] [] [] None None n.
Abbreviation skeletons := (map skeleton).

Lemma skeletons_lookup ns i n : ns !! i = Some n → skeletons ns !! i = Some (skeleton n).
Proof. intros H. by rewrite list_lookup_fmap, H. Qed.
Lemma skeletons_lookup_inv ns i k : skeletons ns !! i = Some k → ∃ n, ns !! i = Some n ∧ k = skeleton n.
Proof. rewrite list_lookup_fmap. destruct (ns !! i); [intros [= <-]; eauto|done]. Qed.
Lemma kids_skeleton n : kids (skeleton n) = kids n.
Proof. done. Qed.
Lemma node_relation_skeleton d n : node_relation d (skeleton n) = node_relation d n.
Proof. done. Qed.

(** Below a node: the node, its children, and so on. *)
Inductive below (T : list QueryNode) (i : node_id) : node_id → Prop :=
  | below_refl : below T i i
  | below_kid j c n : below T i j → T !! j = Some n → c ∈ kids n → below T i c.

Lemma below_trans T i j k : below T i j → below T j k → below T i k.
Proof. intros Hij. induction 1 as [|j' c n ? IH Hj Hc]; [done|]. by apply below_kid with j' n. Qed.

(** The nodes a scope gives access to; no scope gives none. *)
Definition reach (T : list QueryNode) (n : option node_id) (j : node_id) : Prop :=
  match n with Some i => below T i j | None => False end.

(** * Marks: what resolution leaves in an expression *)

Inductive mark :=
  | MName (r : option ResolvedField)
  | MHop (r : option ResolvedField)
  | MColumn (c : option Column)
  | MCall (aggregate : bool) (f : option Function_).

(** The marks of an expression, the operands that are data left out. *)
Fixpoint marks (e : Expression) : list mark :=
  let list es := flat_map marks es in
  let opt o := match o with Some e => marks e | None => [] end in
  match e with
  | Identifier _ r => [MName r]
  | UnaryExpr _ e => marks e
  | BinaryExpr op l r => marks l ++ (if String.eqb op BinaryCast then [] else marks r)
  | FoldedExpr op l r =>
      marks l ++
      (if String.eqb op FoldDot then match r with Identifier _ f => [MHop f] | _ => [MHop None] end
       else if bool_decide (op ∈ FoldJson) then [] else marks r)
  | BetweenExpr _ a b c | SliceExpr a b c => marks a ++ marks b ++ marks c
  | InExpr _ e es | ConcatWsExpr e es => marks e ++ list es
  | AnyAllExpr _ _ a b | IndexExpr a b => marks a ++ marks b
  | CoalesceExpr es | FormatExpr _ es | ArrExpr es | LstExpr es => list es
  | CallExpr _ es f => MCall false f :: list es
  | AggExpr _ _ es filter _ order_by f =>
      MCall true f :: list es ++ opt filter ++ flat_map (λ t, marks t.1) order_by
  | ObjectExpr fields | StarExpr _ _ fields => flat_map (λ t, marks t.2) fields
  | ColExpr _ dget dset r c => MName r :: MColumn c :: opt dget ++ opt dset
  | GetExpr _ def c | SetExpr _ def c => MColumn c :: opt def
  | _ => []
  end.

(** An expression of a root call may not contain a star. *)
Fixpoint starless (e : Expression) : Prop :=
  let opt o := match o with Some e => starless e | None => True end in
  match e with
  | UnaryExpr _ e => starless e
  | BinaryExpr _ l r | FoldedExpr _ l r | AnyAllExpr _ _ l r | IndexExpr l r => starless l ∧ starless r
  | BetweenExpr _ a b c | SliceExpr a b c => starless a ∧ starless b ∧ starless c
  | InExpr _ e es | ConcatWsExpr e es => starless e ∧ foldr (λ e P, starless e ∧ P) True es
  | CoalesceExpr es | FormatExpr _ es | ArrExpr es | LstExpr es | CallExpr _ es _ =>
      foldr (λ e P, starless e ∧ P) True es
  | AggExpr _ _ es filter _ order_by _ =>
      foldr (λ e P, starless e ∧ P) True es ∧ opt filter ∧ foldr (λ t P, starless t.1 ∧ P) True order_by
  | ObjectExpr fields => foldr (λ t P, starless t.2 ∧ P) True fields
  | StarExpr _ _ _ => False
  | ColExpr _ dget dset _ _ => opt dget ∧ opt dset
  | GetExpr _ def _ | SetExpr _ def _ => opt def
  | _ => True
  end.

(** A field whose nodes are all reached, and whose paths are not empty. *)
Fixpoint field_ok (S : node_id → Prop) (f : ResolvedField) : Prop :=
  match f with
  | RColumnPath n path _ => S n ∧ path ≠ []
  | RQueryNode n | RComputed n _ => S n
  | RShape fields =>
      foldr (λ e P, match e.2 with Some f => field_ok S f | None => True end ∧ P) True fields
  end.
Definition landing_ok (S : node_id → Prop) (f : option ResolvedField) : Prop :=
  match f with Some f => field_ok S f | None => True end.
Definition shape_ok (S : node_id → Prop) (fields : Shape) : Prop :=
  foldr (λ e P, landing_ok S e.2 ∧ P) True fields.

Lemma shape_ok_get S fields k f : shape_ok S fields → map_get k fields = Some f → landing_ok S f.
Proof.
  induction fields as [|[k' f'] fields IH]; cbn; [done|]. intros [Hf Hs].
  case_decide; [by intros [= <-]|by apply IH].
Qed.
Lemma shape_ok_set S fields k f : shape_ok S fields → landing_ok S f → shape_ok S (map_set k f fields).
Proof.
  intros Hs Hf. induction fields as [|[k' f'] fields IH]; [by split|]. destruct Hs as [Hf' Hs]. cbn.
  case_decide; (split; [done|]); [done|by apply IH].
Qed.

Fixpoint field_ok_mono (S S' : node_id → Prop) (HS : ∀ j, S j → S' j) f {struct f} :
  field_ok S f → field_ok S' f.
Proof.
  destruct f as [n path el|n|fields|n fn]; cbn; [intros [? ?]; split; auto|auto| |auto].
  induction fields as [|[k [f|]] fields IH]; cbn; [done| |]; intros [Hf Hs]; split; auto.
  by apply (field_ok_mono S S').
Qed.
Lemma landing_ok_mono (S S' : node_id → Prop) f :
  (∀ j, S j → S' j) → landing_ok S f → landing_ok S' f.
Proof. intros HS. destruct f; [by apply field_ok_mono|done]. Qed.

Lemma all_in {A} (P : A → Prop) (l : list A) : foldr (λ a Q, P a ∧ Q) True l ↔ ∀ a, a ∈ l → P a.
Proof.
  induction l as [|a l IH]; cbn; [split; [by intros _ b ?%elem_of_nil|done]|]. rewrite IH. split.
  - intros [Ha Hl] b [->|?]%elem_of_cons; auto.
  - intros H. split; [apply H; by left|]. intros b Hb. apply H. by right.
Qed.

Lemma Forall_marks {A} (P : mark → Prop) (f : A → list mark) l :
  Forall P (flat_map f l) ↔ Forall (λ a, Forall P (f a)) l.
Proof. apply Forall_flat_map. Qed.

(** * Pending selects *)

Definition step_node (n n' : QueryNode) : Prop :=
  n' = n ∨ (n_shape n = None ∧ ∃ e sh, n' = with_select e (Some sh) n).

Lemma selects_height_le ns ns' P i :
  Forall2 step_node ns ns' → (selects_height P i ns' ≤ selects_height P i ns)%nat.
Proof.
  intros H. revert i. induction H as [|n n' ns ns' Hn _ IH]; intros i; cbn [selects_height]; [done|].
  specialize (IH (S i)). destruct Hn as [->|(Hn & e & sh & ->)]; [lia|].
  rewrite (decide_False (P := n_shape (with_select _ _ _) = None ∧ _)) by (cbn; by intros [? _]).
  case_decide; lia.
Qed.

Lemma selects_height_ext ns P P' i :
  (∀ k, (i ≤ k)%nat → k ∈ P ↔ k ∈ P') → selects_height P i ns = selects_height P' i ns.
Proof.
  revert i. induction ns as [|n ns IH]; intros i HP; cbn [selects_height]; [done|].
  rewrite (IH (S i)) by (intros; apply HP; lia). f_equal.
  assert (i ∈ P ↔ i ∈ P') by (apply HP; lia). by do 2 case_decide; try tauto.
Qed.

(** Entering a select takes its height off. *)
Lemma selects_height_enter ns P i j n :
  ns !! j = Some n → n_shape n = None → (i + j)%nat ∉ P →
  selects_height P i ns =
  (S (expr_height (n_select n)) + selects_height ({[ (i + j)%nat ]} ∪ P) i ns)%nat.
Proof.
  revert i j. induction ns as [|x ns IH]; intros i j Hj Hsh Hin; [done|]. cbn [selects_height].
  destruct j as [|j].
  - injection Hj as ->. rewrite Nat.add_0_r in *. rewrite decide_True by done.
    rewrite decide_False by set_solver. rewrite (selects_height_ext ns P ({[i]} ∪ P)); [lia|].
    intros k Hk. rewrite elem_of_union, elem_of_singleton. split; [auto|]. intros [->|?]; [lia|done].
  - cbn in Hj. rewrite (IH (S i) j) by (done || by rewrite Nat.add_succ_comm).
    rewrite <-Nat.add_succ_comm.
    assert (i ∈ {[(S i + j)%nat]} ∪ P ↔ i ∈ P) as HP.
    { rewrite elem_of_union, elem_of_singleton. split; [|auto]. intros [?|?]; [lia|done]. }
    case_decide as H1; case_decide as H2; try lia; tauto.
Qed.

(** * The recursion *)

Section facts.
Context (d : DbInfos) (bl : Blacklist) (T : list QueryNode).

(** Children are nodes, and domains end. *)
Definition children_in : Prop := ∀ i n c, T !! i = Some n → c ∈ kids n → (c < length T)%nat.
Definition domains_end : Prop := ∀ t, returns (Underlying (domain_fuel d) d t).

Definition own_column (n : option node_id) (c : Column) : Prop :=
  ∃ i x r, n = Some i ∧ T !! i = Some x ∧ node_relation d x = Some r ∧
    ColumnsMap (Columns r) !! col_name c = Some c.

Definition mark_ok (n : option node_id) (m : mark) : Prop :=
  match m with
  | MName (Some f) => field_ok (reach T n) f
  | MHop f => landing_ok (reach T n) f
  | MColumn (Some c) => own_column n c
  | MCall aggregate (Some f) =>
      function_admitted bl f ∧ (if aggregate then IsAggregate f else IsPlainFunction f) = true
  | _ => False
  end.
Definition resolved (n : option node_id) (e : Expression) : Prop := Forall (mark_ok n) (marks e).

Definition inv (s : resolver) : Prop :=
  skeletons (r_nodes s) = T ∧
  ∀ i n sh, r_nodes s !! i = Some n → n_shape n = Some sh →
    shape_ok (below T i) (sh_fields sh) ∧ resolved (Some i) (n_select n).

Definition step (s s' : resolver) : Prop :=
  r_in_progress s' = r_in_progress s ∧ r_own s' = r_own s ∧ Forall2 step_node (r_nodes s) (r_nodes s').
Lemma select_step_refl s : step s s.
Proof. split_and!; [done..|]. induction (r_nodes s); constructor; [by left|done]. Qed.
Lemma select_step_trans s1 s2 s3 : step s1 s2 → step s2 s3 → step s1 s3.
Proof.
  intros (P1 & O1 & F1) (P2 & O2 & F2). split_and!; [congruence..|].
  revert F2. generalize (r_nodes s3). induction F1 as [|n n' ns ns' Hn _ IH]; intros ns3 F2.
  - inversion F2. constructor.
  - inversion F2 as [|? n3 ? ? Hn' F3]; subst. constructor; [|by apply IH].
    destruct Hn as [->|(Hn & e & sh & ->)]; [done|]. destruct Hn' as [->|(Hn' & _)]; [|done]. right. eauto.
Qed.

Definition selects (s : resolver) : nat := selects_height (r_in_progress s) 0 (r_nodes s).
Lemma step_selects s s' : step s s' → (selects s' ≤ selects s)%nat.
Proof. intros (HP & _ & HF). unfold selects. rewrite HP. by apply selects_height_le. Qed.

(** A call that returns in a state reached from [s], with a result in [Q]. *)
Definition ok {A} (m : resolve A) (Q : A → Prop) (s : resolver) : Prop :=
  wp any_error m (λ a s', inv s' ∧ step s s' ∧ Q a) s.

Lemma ok_ret {A} (a : A) (Q : A → Prop) s : inv s → Q a → ok (mret a) Q s.
Proof. intros Hs HQ. apply wp_ret. split_and!; [done|apply select_step_refl|done]. Qed.
Lemma ok_fail {A} code msg (Q : A → Prop) s : ok (fail code msg) Q s.
Proof. exact I. Qed.
Lemma ok_bind {A B} (m : resolve A) (f : A → resolve B) P Q s :
  ok m P s → (∀ a s', inv s' → step s s' → P a → ok (f a) Q s') → ok (m ≫= f) Q s.
Proof.
  intros Hm Hf. apply wp_bind. eapply wp_mono; [exact Hm|]. intros a s1 (Hi & Hs & HP).
  eapply wp_mono; [by apply Hf|]. intros b s2 (? & ? & ?). split_and!; [done|by eapply select_step_trans|done].
Qed.
Lemma ok_mono {A} (m : resolve A) (P Q : A → Prop) s : ok m P s → (∀ a, P a → Q a) → ok m Q s.
Proof. intros Hm HPQ. eapply wp_mono; [exact Hm|]. intros a s' (? & ? & ?). auto. Qed.
Lemma ok_lift {A} (m : outcome A) (Q : A → Prop) s :
  inv s → returns m → (∀ a, m = Ok a → Q a) → ok (lift m) Q s.
Proof.
  intros Hs Hm HQ. apply wp_lift_returns; [done|]. intros a Ha. split_and!; [done|apply select_step_refl|auto].
Qed.
Lemma ok_opt_m {A B} (f : A → resolve B) o (Q : B → Prop) s :
  inv s → (∀ a, o = Some a → ok (f a) Q s) →
  ok (opt_m f o) (λ o', match o' with Some b => Q b | None => True end) s.
Proof.
  intros Hs Hf. destruct o as [a|]; unfold opt_m; [|by apply ok_ret].
  eapply ok_bind; [by apply Hf|]. intros b s' ? ? ?. by apply ok_ret.
Qed.
Lemma ok_map_m {A B} (f : A → resolve B) l (Q : B → Prop) s :
  inv s → (∀ a s', a ∈ l → inv s' → step s s' → ok (f a) Q s') → ok (map_m f l) (Forall Q) s.
Proof.
  intros Hs. assert (step s s) as H0 by apply select_step_refl. revert H0 Hs. generalize s at 2 3 5.
  induction l as [|a l IH]; intros s1 Hs1 Hi Hf; cbn [map_m]; [by apply ok_ret|].
  eapply ok_bind; [apply Hf; [by left|done..]|]. intros b s2 Hi2 Hs2 Hb.
  eapply ok_bind; [apply IH; [by eapply select_step_trans|done|]|].
  - intros a' s3 Ha'. apply Hf. by right.
  - intros bs s3 Hi3 Hs3 Hbs. apply ok_ret; [done|]. by constructor.
Qed.

Context (Hkids : children_in) (Hdomains : domains_end).

(** ** Scopes *)

Definition in_tree (n : option node_id) : Prop := match n with Some i => (i < length T)%nat | None => True end.

Lemma inv_lookup s i n : inv s → r_nodes s !! i = Some n → T !! i = Some (skeleton n).
Proof. intros [<- _]. apply skeletons_lookup. Qed.
Lemma inv_node s i : inv s → (i < length T)%nat → ∃ n, r_nodes s !! i = Some n ∧ T !! i = Some (skeleton n).
Proof.
  intros Hs Hi. pose proof Hs as [Hsk _].
  destruct (lookup_lt_is_Some_2 (r_nodes s) i) as [n Hn]; [by rewrite <-Hsk, length_map in Hi|].
  exists n. split; [done|by apply inv_lookup with s].
Qed.

Lemma ok_node_at s i (Q : QueryNode → Prop) :
  inv s → (i < length T)%nat → (∀ n, r_nodes s !! i = Some n → T !! i = Some (skeleton n) → Q n) → ok (node_at i) Q s.
Proof.
  intros Hs Hi HQ. destruct (inv_node s i Hs Hi) as (n & Hn & HT).
  apply (wp_node_at i n); [done|]. split_and!; [done|apply select_step_refl|auto].
Qed.

Lemma reach_in i j : (i < length T)%nat → below T i j → (j < length T)%nat.
Proof. intros Hi. induction 1 as [|j c n ? IH Hj Hc]; [done|]. by eapply Hkids. Qed.
Lemma reach_trans n i j : reach T n i → below T i j → reach T n j.
Proof. destruct n; [|done]. apply below_trans. Qed.
Lemma reach_kid i n c : T !! i = Some n → c ∈ kids n → below T i c.
Proof. intros Hn Hc. by apply below_kid with i n; [constructor|..]. Qed.
Lemma reach_in_tree n j : in_tree n → reach T n j → (j < length T)%nat.
Proof. destruct n as [i|]; [|done]. apply reach_in. Qed.

(** What a name of a scope means. *)
Lemma LookupInScope_ok s i name :
  inv s → (i < length T)%nat →
  returns (LookupInScope d (r_nodes s) i name) ∧
  ∀ f, LookupInScope d (r_nodes s) i name = Ok f →
    field_ok (below T i) f ∧
    ∀ j path el, f = RColumnPath j path el → ∃ c, path = [c] ∧ own_column (Some i) c.
Proof.
  intros Hs Hi. destruct (inv_node s i Hs Hi) as (n & Hn & HT). unfold LookupInScope, at_index. rewrite Hn.
  cbn [of_option mbind outcome_bind].
  set (fields := omap (M := list) id [scope_column d i n name; _; _; _]).
  assert (∀ f, f ∈ fields → field_ok (below T i) f ∧
    ∀ j path el, f = RColumnPath j path el → ∃ c, path = [c] ∧ own_column (Some i) c) as Hall.
  { intros f Hf. apply list_elem_of_omap in Hf as (x & Hx & Hf). cbn in Hf. subst x.
    rewrite !elem_of_cons in Hx. destruct Hx as [Hx|[Hx|[Hx|[Hx|Hx]]]]; [..|by apply elem_of_nil in Hx]; symmetry in Hx.
    - unfold scope_column in Hx. apply bind_Some in Hx as (r & Hr & Hx). apply bind_Some in Hx as (c & Hc & [= <-]).
      split; [split; [constructor|done]|]. intros j path el [= <- <- <-]. exists c. split; [done|].
      exists i, (skeleton n), r. split_and!; [done..|].
      by rewrite (proj1 (ColumnsMap_name _ _ _ Hc)).
    - unfold scope_computed in Hx. apply bind_Some in Hx as (r & Hr & Hx). apply bind_Some in Hx as (k & Hk & Hx).
      apply bind_Some in Hx as (fn & Hfn & [= <-]). split; [constructor|done].
    - assert (∃ c, f = RQueryNode c ∧ c ∈ kids n) as (c & -> & Hc).
      { unfold scope_alias in Hx. unfold kids. destruct (child_named _ (n_outgoing n) _) as [c|] eqn:Eo.
        - injection Hx as <-. exists c. split; [done|]. apply find_some in Eo as [Hin _].
          apply elem_of_app. left. by apply list_elem_of_In.
        - destruct (child_named _ (n_incoming n) _) as [c|] eqn:Ei; [|done]. injection Hx as <-.
          exists c. split; [done|]. apply find_some in Ei as [Hin _].
          apply elem_of_app. right. by apply list_elem_of_In. }
      split; [|done]. cbn. by eapply reach_kid.
    - unfold scope_self in Hx. destruct (_ && _); [|done]. injection Hx as <-. split; [constructor|done]. }
  destruct fields as [|f [|]]; (split; [done|]); try done. intros f' [= <-]. apply Hall. by left.
Qed.

Lemma ok_in_scope s i name :
  inv s → (i < length T)%nat →
  ok (in_scope d i name) (λ f, field_ok (below T i) f ∧
    ∀ j path el, f = RColumnPath j path el → ∃ c, path = [c] ∧ own_column (Some i) c) s.
Proof.
  intros Hs Hi. destruct (LookupInScope_ok s i name Hs Hi) as [Hr Hf]. unfold in_scope. by apply ok_lift.
Qed.

Lemma ok_plain_column s n name : inv s → in_tree n → ok (resolvePlainColumn d n name) (own_column n) s.
Proof.
  intros Hs Hn. destruct n as [i|]; cbn [resolvePlainColumn]; [|apply ok_fail].
  eapply ok_bind; [apply (ok_node_at s i (λ x, T !! i = Some (skeleton x))); auto|].
  intros x s' Hi' _ HT. destruct (node_relation d x) as [r|] eqn:Er; [|apply ok_fail].
  destruct (ColumnsMap (Columns r) !! name) as [c|] eqn:Ec; [|apply ok_fail]. apply ok_ret; [done|].
  exists i, (skeleton x), r. split_and!; [done..|]. by rewrite (proj1 (ColumnsMap_name _ _ _ Ec)).
Qed.

Lemma ok_except s n except : inv s → in_tree n → ok (validateExceptColumns d n except) (λ _, True) s.
Proof.
  intros Hs Hn. unfold validateExceptColumns. generalize 0%nat. revert s Hs.
  induction except as [|name except IH]; intros s Hs k; cbn [for_each]; [by apply ok_ret|].
  eapply ok_bind with (P := λ _, True); [|intros u s1 Hs1 _ _; by apply IH].
  eapply ok_bind; [by apply ok_plain_column|]. intros c s' ? _ _. by apply ok_ret.
Qed.

Lemma own_columns_ok i r except : shape_ok (below T i) (own_columns i r except).
Proof.
  unfold own_columns. generalize (filter (λ c, col_name c ∉ except) (Columns r)).
  assert (shape_ok (below T i) []) as H by done. revert H. generalize (@nil (string * option ResolvedField)).
  intros m Hm l. revert m Hm. induction l as [|c l IH]; intros m Hm; cbn; [done|].
  apply IH, shape_ok_set; [done|]. split; [constructor|done].
Qed.

Lemma ok_base s i except aliases :
  inv s → (i < length T)%nat → ok (ownFullBase d (Some i) except aliases) (shape_ok (below T i)) s.
Proof.
  intros Hs Hi. cbn [ownFullBase].
  eapply ok_bind; [apply (ok_node_at s i (λ x, T !! i = Some (skeleton x))); auto|].
  intros x s1 Hs1 _ HT. set (base := match node_relation d x with Some _ => _ | None => _ end).
  assert (shape_ok (below T i) base) as Hb by (unfold base; destruct (node_relation d x); [apply own_columns_ok|done]).
  destruct aliases; [|by apply ok_ret]. clearbody base.
  assert (∀ c, c ∈ n_outgoing x ++ n_incoming x → below T i c) as Hc by (intros c Hc; by apply (reach_kid i (skeleton x))).
  revert base Hb s1 Hs1. induction (n_outgoing x ++ n_incoming x) as [|c cs IH]; intros base Hb s1 Hs1; cbn [fold_m];
    [by apply ok_ret|].
  eapply ok_bind with (P := shape_ok (below T i)); [|intros b s2 ? _ ?; apply IH; auto; intros; apply Hc; by right].
  eapply ok_bind; [apply (ok_node_at s1 c (λ _, True)); [done| |done]|].
  - apply (reach_in i); [done|]. apply Hc. by left.
  - intros y s2 Hs2 _ _. apply ok_ret; [done|]. apply shape_ok_set; [done|]. apply Hc. by left.
Qed.

(** ** Selects and hops *)

Lemma skeletons_alter f i ns : (∀ n, skeleton (f n) = skeleton n) → skeletons (alter f i ns) = skeletons ns.
Proof.
  intros Hf. apply list_eq. intros j. rewrite !list_lookup_fmap. destruct (decide (i = j)) as [->|Hij].
  - rewrite list_lookup_alter_eq. destruct (ns !! j); cbn; [by rewrite Hf|done].
  - by rewrite list_lookup_alter_ne.
Qed.

Lemma step_node_alter ns e sh i :
  (∀ n, ns !! i = Some n → n_shape n = None) → Forall2 step_node ns (alter (with_select e (Some sh)) i ns).
Proof.
  intros Hi. apply Forall2_same_length_lookup. rewrite length_alter. split; [done|].
  intros j x y Hx Hy. destruct (decide (i = j)) as [->|Hij].
  - rewrite list_lookup_alter_eq, Hx in Hy. injection Hy as <-. right. split; [by apply Hi|eauto].
  - rewrite list_lookup_alter_ne, Hx in Hy by done. injection Hy as <-. by left.
Qed.

Lemma function_ok {A} schema name pos (named : option (list (string * A))) kind over s :
  inv s →
  ok (lift (resolveFunctionCandidate d bl schema name pos named kind over))
    (λ f, function_admitted bl f ∧ kind f = true) s.
Proof.
  intros Hs. destruct (resolveFunctionCandidate_spec d bl schema name pos named kind over) as [Hr Hf].
  apply ok_lift; [done..|]. intros f Hok. by destruct (Hf f Hok) as (? & ? & _).
Qed.

Section recursion.
Context (rec : Expression → option node_id → resolve Expression).
Context (rec_chain : Expression → option node_id → resolve (Expression * option ResolvedField)).
Context (h : nat).

(** An expression the recursive calls may be given. *)
Definition fits (e : Expression) (n : option node_id) (s : resolver) : Prop :=
  (n = None → starless e) ∧ (expr_height e + selects s < h)%nat.
Definition chain_post (n : option node_id) (x : Expression * option ResolvedField) : Prop :=
  resolved n x.1 ∧ landing_ok (reach T n) x.2.
Context (Hrec : ∀ e n s, inv s → in_tree n → fits e n s → ok (rec e n) (resolved n) s).
Context (Hchain : ∀ e n s, inv s → in_tree n → fits e n s → ok (rec_chain e n) (chain_post n) s).

Lemma ok_selectShape s t :
  inv s → (t < length T)%nat → (selects s ≤ h)%nat → ok (selectShape rec_chain t) (shape_ok (below T t)) s.
Proof.
  intros Hs Ht Hh. destruct (inv_node s t Hs Ht) as (n & Hn & HT).
  unfold ok, selectShape. apply wp_bind, (wp_node_at t n); [done|].
  destruct (n_shape n) as [sh|] eqn:Esh.
  { apply wp_ret. split_and!; [done|apply select_step_refl|]. by apply (proj2 Hs t n). }
  apply wp_bind, wp_get. case_bool_decide as Hin; [done|].
  apply wp_bind, wp_modify. set (s1 := set_in_progress _ s).
  assert (selects s = S (expr_height (n_select n)) + selects s1)%nat as Hsel by (by apply (selects_height_enter _ _ 0 t)).
  apply wp_bind. eapply wp_mono.
  { apply (Hchain (n_select n) (Some t) s1); [exact Hs|exact Ht|]. split; [done|lia]. }
  intros x s2 (Hs2 & (Hp & Ho & Hnodes) & [Hx1 Hx2]).
  set (shape := match x.2 with Some (RShape s) => s | _ => [] end).
  assert (shape_ok (below T t) shape) as Hshape by (unfold shape; by destruct x.2 as [[]|]).
  clearbody shape. apply wp_bind, wp_modify, wp_bind, wp_modify, wp_ret.
  set (ns := alter (with_select x.1 (Some (MkNodeShape shape [] false))) t (r_nodes s2)).
  change (inv (MkResolver ns (r_in_progress s2 ∖ {[ t ]}) (r_own s2)) ∧
    step s (MkResolver ns (r_in_progress s2 ∖ {[ t ]}) (r_own s2)) ∧ shape_ok (below T t) shape).
  assert (skeletons ns = T) as Hsk by (unfold ns; rewrite skeletons_alter by done; apply Hs2).
  split_and!; [split; [done|]| |done].
  - cbn [r_nodes]. intros i y sh Hy Hysh. unfold ns in Hy. destruct (decide (i = t)) as [->|Hit].
    + rewrite list_lookup_alter_eq in Hy. destruct (r_nodes s2 !! t); [|done]. injection Hy as <-.
      injection Hysh as <-. done.
    + rewrite list_lookup_alter_ne in Hy by done. by apply (proj2 Hs2 i y).
  - split_and!; cbn [r_in_progress r_own r_nodes].
    + rewrite Hp. cbn [s1 set_in_progress r_in_progress]. apply leibniz_equiv. set_solver.
    + by rewrite Ho.
    + unfold ns. apply Forall2_same_length_lookup. pose proof (Forall2_length _ _ _ Hnodes) as Hl.
      rewrite length_alter. split; [done|]. intros j a b Ha Hb.
      destruct (decide (j = t)) as [->|Hjt].
      * rewrite list_lookup_alter_eq in Hb. destruct (r_nodes s2 !! t) as [y|] eqn:Ey; [|done]. injection Hb as <-.
        rewrite Hn in Ha. injection Ha as <-. right. split; [done|].
        destruct (Forall2_lookup_lr _ _ _ _ _ _ Hnodes Hn Ey) as [->|(_ & e & sh & ->)]; eauto.
      * rewrite list_lookup_alter_ne in Hb by done. by eapply (Forall2_lookup_lr _ _ _ j a b Hnodes).
Qed.

Lemma ok_external_hop s n c name :
  inv s → in_tree n → reach T n c → (selects s ≤ h)%nat →
  ok (resolveExternalHop d rec_chain c name) (landing_ok (reach T n)) s.
Proof.
  intros Hs Hn Hc Hh. assert (c < length T)%nat as Hlt by by apply (reach_in_tree n).
  destruct (LookupInScope_ok s c name Hs Hlt) as [Hr Hf].
  unfold resolveExternalHop. unfold ok. apply wp_bind, wp_get. revert Hr Hf.
  generalize (LookupInScope d (r_nodes s) c name). intros scope Hr Hf.
  change (ok (shape ← (if bool_decide (c ∈ r_own s) then mret [] else selectShape rec_chain c);
    match scope, map_get name shape with
    | Ok f, Some sf =>
        if resolvedFieldsEqual f sf then mret (Some f)
        else fail UnknownIdentifier "identifier %q is ambiguous : scope and the select shape disagree on what it means"
    | Ok f, None => mret (Some f)
    | Err _, Some sf => mret sf
    | Err e, None => lift (Err e)
    | Panic, _ => lift Panic
    | OutOfFuel, _ => λ _, OutOfFuel
    end) (landing_ok (reach T n)) s).
  eapply ok_bind with (P := shape_ok (below T c)).
  { case_bool_decide; [by apply ok_ret|by apply ok_selectShape]. }
  intros shape s1 Hs1 _ Hshape.
  assert (∀ j, below T c j → reach T n j) as Hmono by (intros j; by apply reach_trans).
  destruct scope as [f|e| |]; [| |done..].
  - assert (landing_ok (reach T n) (Some f)) by (apply (landing_ok_mono _ _ _ Hmono); by apply Hf).
    destruct (map_get name shape) as [sf|]; [|by apply ok_ret].
    destruct (resolvedFieldsEqual f sf); [by apply ok_ret|apply ok_fail].
  - destruct (map_get name shape) as [sf|] eqn:Esf; [|done]. apply ok_ret; [done|].
    apply (landing_ok_mono _ _ _ Hmono). by apply (shape_ok_get _ shape name).
Qed.

Lemma CompositeRelation_returns t : returns (CompositeRelation d t).
Proof. unfold CompositeRelation. by apply returns_bind. Qed.

Lemma composite_hop_ok (S : node_id → Prop) j path el name :
  S j → path ≠ [] →
  returns (composite_hop d j path el name) ∧ ∀ f, composite_hop d j path el name = Ok f → field_ok S f.
Proof.
  intros Hj Hp. unfold composite_hop. destruct (last path) as [c0|] eqn:El.
  2: { apply last_None in El. done. }
  set (m := match CurrentType path el with Some _ => _ | None => _ end).
  assert (returns m) as Hm by (unfold m; destruct (CurrentType path el); [apply CompositeRelation_returns|done]).
  split.
  - apply returns_bind; [done|]. intros rel _. destruct (rel ≫= GetRelation d); [|done].
    by destruct (ColumnsMap _ !! _).
  - intros f (rel & _ & Hf)%outcome_bind_ok. destruct (rel ≫= GetRelation d); [|done].
    destruct (ColumnsMap _ !! _); [|done]. injection Hf as <-. split; [done|]. by destruct path.
Qed.

Lemma ok_hop s n r into :
  inv s → in_tree n → landing_ok (reach T n) (Some into) → (selects s ≤ h)%nat →
  ok (resolveHopInto d rec_chain r into)
    (λ x, match x.1 with Identifier _ f => f = x.2 | _ => False end ∧ landing_ok (reach T n) x.2) s.
Proof.
  intros Hs Hn Hinto Hh. destruct r; try apply ok_fail. cbn [resolveHopInto].
  eapply ok_bind with (P := landing_ok (reach T n)); [|intros f s1 ? _ ?; by apply ok_ret].
  destruct into as [j path el|c|fields|j fn].
  - destruct Hinto as [Hj Hp]. destruct (composite_hop_ok (reach T n) j path el name Hj Hp) as [Hr Hf].
    eapply ok_bind; [by apply (ok_lift _ (field_ok (reach T n)))|]. intros f s1 ? _ ?. by apply ok_ret.
  - by apply ok_external_hop.
  - destruct (map_get name fields) as [f|] eqn:Ef; [|apply ok_fail]. apply ok_ret; [done|].
    by apply (shape_ok_get _ fields name).
  - apply ok_fail.
Qed.

Lemma ok_build_shape n fields : ∀ shape s,
  inv s → in_tree n → (∀ t, t ∈ fields → fits t.2 n s) → shape_ok (reach T n) shape →
  ok (build_shape rec_chain n shape fields)
    (λ x, Forall (λ t, resolved n t.2) x.1 ∧ shape_ok (reach T n) x.2) s.
Proof.
  induction fields as [|[k e] fields IH]; intros shape s Hs Hn Hf Hsh; cbn [build_shape]; [by apply ok_ret|].
  case_bool_decide; [apply ok_fail|].
  eapply ok_bind; [apply Hchain; [done..|]; apply (Hf (k, e)); by left|].
  intros x s1 Hs1 Hst [Hx1 Hx2]. pose proof (step_selects _ _ Hst).
  eapply ok_bind; [apply IH; [done..| |by apply shape_ok_set]|].
  - intros t Ht. destruct (Hf t) as [? ?]; [by right|]. split; [done|lia].
  - intros rest s2 Hs2 _ [Hr1 Hr2]. apply ok_ret; [done|]. split; [by constructor|done].
Qed.

(** ** The cases *)

Lemma fits_step e n s s' : fits e n s → step s s' → fits e n s'.
Proof using Type. intros [? ?] Hst. pose proof (step_selects _ _ Hst). split; [done|lia]. Qed.

Lemma ok_slice n s es :
  inv s → in_tree n → (∀ e, e ∈ es → fits e n s) → ok (resolveExprSlice rec es n) (Forall (resolved n)) s.
Proof using Hkids Hdomains Hrec.
  intros Hs Hn Hf. apply ok_map_m; [done|]. intros e s' He Hs' Hst. apply Hrec; [done..|].
  eapply fits_step; [by apply Hf|done].
Qed.
Lemma ok_opt n s o :
  inv s → in_tree n → (∀ e, o = Some e → fits e n s) →
  ok (opt_m (λ e, rec e n) o) (λ o, match o with Some e => resolved n e | None => True end) s.
Proof using Hkids Hdomains Hrec. intros Hs Hn Hf. apply ok_opt_m; [done|]. intros e He. apply Hrec; auto. Qed.

(** [e] is a part of an expression that fits. *)
Definition allowed (e : Expression) (n : option node_id) (s : resolver) : Prop :=
  (n = None → starless e) ∧ (expr_height e + selects s ≤ h)%nat.
Lemma allowed_step e n s s' : allowed e n s → step s s' → allowed e n s'.
Proof using Type. intros [? ?] Hst. pose proof (step_selects _ _ Hst). split; [done|lia]. Qed.
End recursion.

(** Parts of an expression fit when the expression is allowed. *)
Ltac part_of Ha :=
  let H1 := fresh in let H2 := fresh in
  destruct Ha as [H1 H2]; cbn [starless expr_height] in H1, H2; split;
  [let Hn := fresh in intros Hn; specialize (H1 Hn); rewrite ?all_in in H1; tauto | lia].
(** The parts that are lists: [t] is in one of them. *)
Ltac part_in Ha Hin :=
  let H1 := fresh in let H2 := fresh in
  destruct Ha as [H1 H2]; cbn [starless expr_height] in H1, H2; split;
  [let Hn := fresh in intros Hn; specialize (H1 Hn); rewrite ?all_in in H1;
   first [done | by apply H1 | destruct H1 as (? & ?); auto | destruct H1 as (? & ? & ?); auto]
  | first [pose proof (list_max_in expr_height _ _ Hin); lia
          | pose proof (list_max_in (λ t : Expression * OrderByDirection, expr_height t.1) _ _ Hin); lia
          | pose proof (list_max_in (λ t : string * Expression, expr_height t.2) _ _ Hin); lia]].

Section cases.
Context (rec : Expression → option node_id → resolve Expression).
Context (rec_chain : Expression → option node_id → resolve (Expression * option ResolvedField)).
Context (h : nat).
Context (Hrec : ∀ e n s, inv s → in_tree n → fits h e n s → ok (rec e n) (resolved n) s).
Context (Hchain : ∀ e n s, inv s → in_tree n → fits h e n s → ok (rec_chain e n) (chain_post n) s).

Ltac ok_step Ha :=
  lazymatch goal with
  | |- ok (mret _) _ _ => apply ok_ret; [assumption|]
  | |- ok (mbind _ (rec ?e ?n)) _ ?s =>
      eapply ok_bind; [apply Hrec; [assumption|assumption|part_of Ha]|];
      let e' := fresh "e" in let s' := fresh "s" in let Hst := fresh "Hst" in
      intros e' s' ? Hst ?; eapply allowed_step in Ha; [|exact Hst]; clear Hst
  | |- ok (mbind _ (resolveExprSlice rec ?es ?n)) _ ?s =>
      eapply ok_bind; [apply (ok_slice rec h Hrec n s es); [assumption|assumption|
        let x := fresh in let Hx := fresh in intros x Hx; part_in Ha Hx]|];
      let e' := fresh "es" in let s' := fresh "s" in let Hst := fresh "Hst" in
      intros e' s' ? Hst ?; eapply allowed_step in Ha; [|exact Hst]; clear Hst
  | |- ok (mbind _ (opt_m _ ?o)) _ ?s =>
      eapply ok_bind; [apply (ok_opt rec h Hrec _ s o); [assumption|assumption|
        let x := fresh in intros x ->; part_of Ha]|];
      let e' := fresh "o" in let s' := fresh "s" in let Hst := fresh "Hst" in
      intros e' s' ? Hst ?; eapply allowed_step in Ha; [|exact Hst]; clear Hst
  | |- ok (mbind _ (lift (resolveFunctionCandidate _ _ _ _ _ _ _ _))) _ ?s =>
      eapply ok_bind; [by apply function_ok|];
      let f := fresh "f" in let s' := fresh "s" in let Hst := fresh "Hst" in
      intros f s' ? Hst ?; eapply allowed_step in Ha; [|exact Hst]; clear Hst
  | |- ok (mbind _ (resolvePlainColumn _ _ _)) _ ?s =>
      eapply ok_bind; [by apply ok_plain_column|];
      let f := fresh "c" in let s' := fresh "s" in let Hst := fresh "Hst" in
      intros f s' ? Hst ?; eapply allowed_step in Ha; [|exact Hst]; clear Hst
  end.
Ltac ok_steps Ha := repeat (ok_step Ha).
(** The marks of a rebuilt expression are those of its parts. *)
Ltac ok_marks := unfold resolved in *; cbn [fst snd marks]; rewrite ?Forall_cons, ?Forall_app, ?Forall_marks; auto.

Lemma ok_agg n s address fn args filter distinct order_by r :
  inv s → in_tree n → allowed h (AggExpr address fn args filter distinct order_by r) n s →
  ok (resolve_agg d bl rec n address fn args filter distinct order_by) (resolved n) s.
Proof.
  intros Hs Hn Ha. unfold resolve_agg. ok_steps Ha.
  eapply ok_bind with (P := Forall (λ t : OrderByTerm, resolved n t.1)).
  - apply ok_map_m; [done|]. intros t st Ht Hst' Hst. eapply allowed_step in Ha; [|exact Hst].
    eapply ok_bind; [apply Hrec; [done..|part_in Ha Ht]|]. intros e st' ? _ ?.
    destruct (isLiteral e); [apply ok_fail|by apply ok_ret].
  - intros ob st ? _ ?. apply ok_ret; [done|]. ok_marks. split_and!; try done. by destruct o.
Qed.

Lemma ok_plain e n s :
  inv s → in_tree n → allowed h e n s → chains e = false → ok (resolveExpr_plain d bl rec e n) (resolved n) s.
Proof.
  intros Hs Hn Ha Hc. destruct e; cbn [resolveExpr_plain chains] in *; try done; ok_steps Ha;
    try (by apply ok_agg with resolved0); try (by (apply ok_ret; [done|]; constructor)); try (by ok_marks).
  - destruct (String.eqb op BinaryCast) eqn:Eop; ok_steps Ha; ok_marks; rewrite Eop; auto.
  - destruct (bool_decide (op ∈ FoldJson)) eqn:Eop; ok_steps Ha; ok_marks; rewrite Hc, Eop; auto.
  - ok_marks. split; [done|]. by destruct o.
Qed.

Lemma ok_dot n s l r :
  inv s → in_tree n → allowed h (FoldedExpr FoldDot l r) n s → ok (resolve_dot d rec_chain n l r) (chain_post n) s.
Proof.
  intros Hs Hn Ha. unfold resolve_dot.
  eapply ok_bind; [apply Hchain; [done..|part_of Ha]|]. intros x s1 Hs1 Hst [Hx1 Hx2].
  destruct x.2 as [into|]; [|apply ok_fail].
  eapply ok_bind.
  - apply (ok_hop rec rec_chain h Hrec Hchain s1 n r into); [done..|].
    destruct (allowed_step _ _ _ _ _ Ha Hst). lia.
  - intros y s2 Hs2 _ [Hy1 Hy2]. apply ok_ret; [done|]. split; [|done].
    unfold resolved in *. cbn [marks fst]. rewrite Forall_app. split; [done|].
    destruct y as [e f]. cbn in Hy1. destruct e; try done. subst f. by constructor.
Qed.

Lemma ok_get n s column def c0 :
  inv s → in_tree n → allowed h (GetExpr column def c0) n s → ok (resolve_get d rec n column def) (chain_post n) s.
Proof.
  intros Hs Hn Ha. unfold resolve_get. ok_steps Ha. split.
  - ok_marks. split; [done|]. by destruct o.
  - destruct n; [|done]. cbn. split; [constructor|done].
Qed.

Lemma ok_col n s column dget dset r c0 :
  inv s → in_tree n → allowed h (ColExpr column dget dset r c0) n s →
  ok (resolve_col d rec n column dget dset) (chain_post n) s.
Proof.
  intros Hs Hn Ha. destruct n as [i|]; [|apply ok_fail]. unfold resolve_col.
  eapply ok_bind; [by apply ok_in_scope|]. intros f s1 Hs1 Hst [Hf Hpath].
  eapply allowed_step in Ha; [|exact Hst]. clear Hst.
  destruct f as [j path el|?|?|? ?]; try apply ok_fail.
  destruct (Hpath j path el eq_refl) as (c & -> & Hc). cbn [last]. ok_steps Ha. split; [|exact Hf].
  ok_marks. split_and!; try done; [by destruct o|by destruct o0].
Qed.

Lemma index_landing_ok S f :
  landing_ok S f → returns (index_landing d f) ∧ ∀ g, index_landing d f = Ok g → landing_ok S g.
Proof.
  intros Hf. unfold index_landing. destruct f as [[j path el|?|?|? ?]|]; try (split; [done|by intros ? [= <-]]).
  set (m := match CurrentType path el with Some _ => _ | None => _ end).
  assert (returns m) as Hm by (unfold m; destruct (CurrentType path el); [by apply returns_bind|done]).
  split.
  - apply returns_bind; [done|]. intros [t|] _; [|done]. by destruct (IsArray d t).
  - intros g (t & _ & Hg)%outcome_bind_ok. destruct t as [t|]; [|done]. destruct (IsArray d t); [|done].
    injection Hg as <-. exact Hf.
Qed.

Lemma ok_shape n s fields (mk : list (string * Expression) → Expression) base :
  (∀ fields, marks (mk fields) = flat_map (λ t, marks t.2) fields) →
  inv s → in_tree n → (∀ t, t ∈ fields → fits h t.2 n s) → shape_ok (reach T n) base →
  ok (x ← build_shape rec_chain n base fields; mret (mk x.1, Some (RShape x.2))) (chain_post n) s.
Proof.
  intros Hmk Hs Hn Hf Hb.
  eapply ok_bind; [by apply (ok_build_shape rec rec_chain h Hrec Hchain)|].
  intros x s1 Hs1 _ [Hx1 Hx2]. apply ok_ret; [done|]. split; [|exact Hx2].
  unfold resolved. cbn [fst]. by rewrite Hmk, Forall_marks.
Qed.

Lemma ok_chain e n s :
  inv s → in_tree n → allowed h e n s → ok (resolveChain_body d bl rec rec_chain e n) (chain_post n) s.
Proof.
  intros Hs Hn Ha.
  assert (chains e = false → ok (e ← resolveExpr_plain d bl rec e n; mret (e, None)) (chain_post n) s) as Hplain.
  { intros Hc. eapply ok_bind; [by apply ok_plain|]. intros e' s1 ? _ ?. by apply ok_ret. }
  destruct e; try (by apply Hplain); cbn [resolveChain_body chains] in *.
  - destruct n as [i|]; [|apply ok_fail]. eapply ok_bind; [by apply ok_in_scope|].
    intros f s1 ? _ [Hf _]. apply ok_ret; [done|]. split; [|exact Hf]. by constructor.
  - destruct (String.eqb_spec op FoldDot) as [->|]; [by apply ok_dot|by apply Hplain].
  - apply (ok_shape n s fields ObjectExpr []); try done. intros t Ht. part_in Ha Ht.
  - eapply ok_bind; [apply ok_except; [done|done]|]. intros _ s1 Hs1 Hst _.
    eapply allowed_step in Ha; [|exact Hst]. clear Hst.
    destruct n as [i|]; [|exfalso; exact (proj1 Ha eq_refl)].
    eapply ok_bind; [by apply ok_base|]. intros base s2 Hs2 Hst Hb.
    eapply allowed_step in Ha; [|exact Hst].
    apply (ok_shape (Some i) s2 and (StarExpr own except) base); try done. intros t Ht. part_in Ha Ht.
  - eapply ok_bind; [apply Hchain; [done..|part_of Ha]|]. intros x s1 Hs1 Hst [Hx1 Hx2].
    eapply allowed_step in Ha; [|exact Hst]. clear Hst. ok_steps Ha.
    destruct (index_landing_ok _ _ Hx2) as [Hr Hi].
    eapply ok_bind; [by apply (ok_lift _ (landing_ok (reach T n)))|]. intros f s3 ? _ ?.
    apply ok_ret; [done|]. split; [|done]. ok_marks.
  - by apply ok_col with resolved0 resolved_column.
  - by apply ok_get with resolved_column.
Qed.

Lemma ok_expr e n s :
  inv s → in_tree n → allowed h e n s → ok (resolveExpr_body d bl rec rec_chain e n) (resolved n) s.
Proof.
  intros Hs Hn Ha. unfold resolveExpr_body. destruct (chains e) eqn:Ec; [|by apply ok_plain].
  eapply ok_bind; [by apply ok_chain|]. intros x s1 ? _ [? _]. by apply ok_ret.
Qed.
End cases.

(** ** The whole recursion *)

Lemma ok_resolve_at fuel : ∀ chain e n s,
  inv s → in_tree n → (n = None → starless e) → (expr_height e + selects s < fuel)%nat →
  ok (resolve_at d bl fuel chain e n) (chain_post n) s.
Proof.
  induction fuel as [|fuel IH]; intros chain e n s Hs Hn Hst Hf; [lia|]. cbn [resolve_at].
  set (rec e n := x ← resolve_at d bl fuel false e n; mret x.1).
  assert (∀ e n s, inv s → in_tree n → fits fuel e n s → ok (rec e n) (resolved n) s) as Hrec.
  { intros e' n' s' Hs' Hn' [? ?]. eapply ok_bind; [by apply IH|]. intros x s1 ? _ [? _]. by apply ok_ret. }
  assert (∀ e n s, inv s → in_tree n → fits fuel e n s → ok (resolve_at d bl fuel true e n) (chain_post n) s) as Hchain
    by (intros e' n' s' ? ? [? ?]; by apply IH).
  assert (allowed fuel e n s) as Ha by (split; [done|lia]).
  destruct chain; [by apply (ok_chain rec _ fuel Hrec Hchain)|].
  eapply ok_bind; [by apply (ok_expr rec _ fuel Hrec Hchain)|]. intros x s1 ? _ ?.
  apply ok_ret; [done|]. split; [done|]. exact I.
Qed.

Lemma ok_resolveExpr e n s :
  inv s → in_tree n → (n = None → starless e) → ok (resolveExpr d bl e n) (resolved n) s.
Proof.
  intros Hs Hn Hst. unfold resolveExpr. change (ok (x ← resolve_at d bl (expr_fuel e s) false e n; mret x.1) (resolved n) s).
  eapply ok_bind; [apply ok_resolve_at; try done; unfold expr_fuel, selects; lia|].
  intros x s1 ? _ [? _]. by apply ok_ret.
Qed.
Lemma ok_resolveChain e n s :
  inv s → in_tree n → (n = None → starless e) → ok (resolveChain d bl e n) (chain_post n) s.
Proof. intros Hs Hn Hst. apply ok_resolve_at; try done. unfold expr_fuel, selects. lia. Qed.
End facts.
(** * The nodes *)

(** A node whose expressions are resolved, the terms of its orders included. *)
Definition term_ok d bl T i (e : Expression) : Prop := resolved d bl T (Some i) e ∧ isLiteral e = false.
Definition args_resolved d bl T (x : QueryNode) : Prop :=
  IsFunction x = true →
  Forall (resolved d bl T (n_parent x)) (n_args x) ∧
  Forall (λ kv, resolved d bl T (n_parent x) kv.2) (default [] (n_named x)).
Definition node_done d bl T (ns : list QueryNode) (i : node_id) : Prop :=
  ∃ x, ns !! i = Some x ∧
    from_option (resolved d bl T (Some i)) True (n_where x) ∧
    is_Some (n_shape x) ∧ resolved d bl T (Some i) (n_select x) ∧
    Forall (term_ok d bl T i) (n_distinct_on x) ∧
    Forall (λ t, term_ok d bl T i t.1) (n_order_by x) ∧
    args_resolved d bl T x.

(** A root's arguments contain no star. *)
Definition args_starless (x : QueryNode) : Prop :=
  n_parent x = None →
  Forall starless (n_args x) ∧ Forall (λ kv : string * Expression, starless kv.2) (default [] (n_named x)).

Lemma step_node_refl n : step_node n n.
Proof. by left. Qed.
Lemma step_node_trans a b c : step_node a b → step_node b c → step_node a c.
Proof.
  intros [->|(Ha & e & sh & ->)] Hbc; [done|]. destruct Hbc as [->|(Hb & _)]; [|done]. right. eauto.
Qed.

Section nodes.
Context (d : DbInfos) (bl : Blacklist) (T : list QueryNode).
(** Children come after their parent, which they name. *)
Context (Horder : ∀ i n c, T !! i = Some n → c ∈ kids n →
  (i < c < length T)%nat ∧ ∃ cn, T !! c = Some cn ∧ n_parent cn = Some i).
Context (Hparent : ∀ i n p, T !! i = Some n → n_parent n = Some p → (p < length T)%nat).
Context (Hdomains : domains_end d).

Abbreviation inv := (inv d bl T).
Abbreviation ok := (ok d bl T).
Abbreviation resolved := (resolved d bl T).
Abbreviation node_done := (node_done d bl T).

Lemma order_children : children_in T.
Proof. intros i n c Hn Hc. by destruct (Horder i n c Hn Hc) as [[? ?] _]. Qed.

Lemma below_order i j : below T i j → (i ≤ j)%nat.
Proof. induction 1 as [|j c n ? IH Hj Hc]; [done|]. destruct (Horder j n c Hj Hc) as [? _]. lia. Qed.

Lemma step_lookup s s' j x : step s s' → r_nodes s !! j = Some x → ∃ x', r_nodes s' !! j = Some x' ∧ step_node x x'.
Proof. intros (_ & _ & H) Hx. apply (Forall2_lookup_l _ _ _ j x H Hx). Qed.

(** A step leaves a resolved node alone. *)
Lemma step_node_done s s' j : step s s' → node_done (r_nodes s) j → node_done (r_nodes s') j.
Proof.
  intros Hst (x & Hx & Hw & [sh Hsh] & Hrest). destruct (step_lookup s s' j x Hst Hx) as (x' & Hx' & Hs).
  destruct Hs as [->|[Hn _]]; [|congruence]. exists x. split; [done|]. split; [done|]. split; [eauto|done].
Qed.

(** What resolving node [i] does to the others. *)
Definition moves (i : node_id) (s s' : resolver) : Prop :=
  inv s' ∧ ∀ j x, j ≠ i → r_nodes s !! j = Some x → ∃ x', r_nodes s' !! j = Some x' ∧ step_node x x'.
Lemma moves_trans i s1 s2 s3 : moves i s1 s2 → moves i s2 s3 → moves i s1 s3.
Proof.
  intros [_ H1] [? H2]. split; [done|]. intros j x Hj Hx. destruct (H1 j x Hj Hx) as (x' & Hx' & ?).
  destruct (H2 j x' Hj Hx') as (x'' & ? & ?). eexists. split; [done|]. by eapply step_node_trans.
Qed.
Lemma moves_step i s s' : inv s' → step s s' → moves i s s'.
Proof. intros Hs Hst. split; [done|]. intros j x _. by apply step_lookup. Qed.
Lemma moves_update i f s :
  inv s → (∀ n, skeleton (f n) = skeleton n ∧ n_shape (f n) = n_shape n ∧ n_select (f n) = n_select n) →
  moves i s (with_nodes (alter f i (r_nodes s)) s).
Proof.
  intros [Hsk Hs] Hf. split; [split|].
  - cbn. rewrite skeletons_alter; [done|]. intros n. by apply Hf.
  - cbn. intros j n sh Hn Hsh. destruct (decide (i = j)) as [->|Hij].
    + rewrite list_lookup_alter_eq in Hn. destruct (r_nodes s !! j) as [n0|] eqn:E; [|done]. injection Hn as <-.
      destruct (Hf n0) as (_ & H1 & H2). rewrite H1 in Hsh. rewrite H2. by apply (Hs j n0).
    + rewrite list_lookup_alter_ne in Hn by done. by apply (Hs j n).
  - intros j x Hj Hx. exists x. cbn. rewrite list_lookup_alter_ne by done. split; [done|apply step_node_refl].
Qed.

(** From a call in [ok], a continuation that knows where node [i] went. *)
Lemma wp_after {A B} i (m : resolve A) (f : A → resolve B) P Q s x :
  ok m P s → r_nodes s !! i = Some x →
  (∀ a s' x', moves i s s' → r_nodes s' !! i = Some x' → step_node x x' → P a → wp any_error (f a) Q s') →
  wp any_error (m ≫= f) Q s.
Proof.
  intros Hm Hx Hf. apply wp_bind. eapply wp_mono; [exact Hm|]. intros a s' (Hi & Hst & HP).
  destruct (step_lookup s s' i x Hst Hx) as (x' & Hx' & ?). eapply Hf; [by apply moves_step|done..].
Qed.
Lemma wp_update {B} i g (f : unit → resolve B) Q s x :
  inv s → (∀ n, skeleton (g n) = skeleton n ∧ n_shape (g n) = n_shape n ∧ n_select (g n) = n_select n) →
  r_nodes s !! i = Some x →
  (∀ s', moves i s s' → r_nodes s' !! i = Some (g x) → wp any_error (f tt) Q s') →
  wp any_error (update_node i g ≫= f) Q s.
Proof.
  intros Hs Hg Hx Hf. apply wp_bind, wp_modify. apply Hf; [by apply moves_update|].
  cbn. by rewrite list_lookup_alter_eq, Hx.
Qed.

Lemma ok_terms {A} msg (g : A → Expression) (st : Expression → A → A) i l s :
  (∀ e t, g (st e t) = e) → inv s → (i < length T)%nat →
  ok (resolve_terms d bl msg g st i l) (Forall (λ t, term_ok d bl T i (g t))) s.
Proof.
  intros Hgs Hs Hi. apply ok_map_m; [done|]. intros t s' Ht Hs' _.
  eapply ok_bind; [apply ok_resolveExpr; try done; apply order_children|]. intros e s1 Hs1 _ He.
  destruct (isLiteral e) eqn:El; [apply ok_fail|]. apply ok_ret; [done|]. unfold term_ok. by rewrite Hgs.
Qed.

Lemma ok_values {A} (f : A → resolve Expression) (P : Expression → Prop) l s :
  inv s → (∀ kv s', kv ∈ l → inv s' → step s s' → ok (f kv.2) P s') →
  ok (map_values f l) (Forall (λ kv : string * Expression, P kv.2)) s.
Proof.
  intros Hs Hf. apply ok_map_m; [done|]. intros kv s' Hin Hs' Hst.
  eapply ok_bind; [by apply Hf|]. intros b s1 ? _ ?. by apply ok_ret.
Qed.

(** A select that was resolved is recorded in its node. *)
Lemma selectShape_shape rc t s a s' :
  selectShape rc t s = Ok (a, s') → ∀ x, r_nodes s' !! t = Some x → is_Some (n_shape x).
Proof.
  unfold selectShape. intros (x0 & s0 & H0 & H)%M_bind_ok x Hx.
  assert (r_nodes s !! t = Some x0 ∧ s0 = s) as [E0 ->].
  { unfold node_at, at_index in H0. destruct (r_nodes s !! t); [|done]. by injection H0 as -> ->. }
  destruct (n_shape x0) as [sh|] eqn:Esh.
  - injection H as <- <-. rewrite E0 in Hx. injection Hx as <-. eauto.
  - apply M_bind_ok in H as (r & s1 & [= <- <-] & H). case_bool_decide; [done|].
    apply M_bind_ok in H as ([] & s1 & [= <-] & H). apply M_bind_ok in H as (y & s2 & _ & H).
    apply M_bind_ok in H as ([] & s3 & [= <-] & H). apply M_bind_ok in H as ([] & s4 & [= <-] & H).
    injection H as <- <-. cbn in Hx. rewrite list_lookup_alter_eq in Hx.
    destruct (r_nodes s2 !! t); [|done]. injection Hx as <-. by eexists.
Qed.

Lemma select_done i s x :
  inv s → (i < length T)%nat → r_nodes s !! i = Some x →
  wp any_error (selectShape (resolveChain d bl) i)
    (λ _ s', moves i s s' ∧ ∃ x', r_nodes s' !! i = Some x' ∧ step_node x x' ∧ is_Some (n_shape x')) s.
Proof.
  intros Hs Hi Hx.
  assert (ok (selectShape (resolveChain d bl) i) (shape_ok (below T i)) s) as Hok.
  { apply (ok_selectShape d bl T order_children Hdomains (resolveExpr d bl) (resolveChain d bl) (selects s));
      [| |done..].
    - intros e n st ? ? [? _]. apply ok_resolveExpr; try done. apply order_children.
    - intros e n st ? ? [? _]. apply ok_resolveChain; try done. apply order_children. }
  red in Hok. unfold wp in *.
  destruct (selectShape (resolveChain d bl) i s) as [[a s']|e| |] eqn:E; try done.
  destruct Hok as (Hi' & Hst & _). destruct (step_lookup s s' i x Hst Hx) as (x' & Hx' & Hxx).
  split; [by apply moves_step|]. exists x'. split_and!; [done..|]. by eapply selectShape_shape.
Qed.

Lemma step_node_fixed x x' : step_node x x' → is_Some (n_shape x) → x' = x.
Proof. intros [->|[Hn _]] [sh Hsh]; [done|congruence]. Qed.

(** The arguments of a node whose select is resolved. *)
Lemma resolve_arguments_done i s y :
  inv s → r_nodes s !! i = Some y → is_Some (n_shape y) → args_starless y →
  wp any_error (resolve_arguments d bl i) (λ _ s', moves i s s' ∧ ∃ z, r_nodes s' !! i = Some z ∧
    (z = y ∨ ∃ args named, z = with_arguments args named y) ∧ args_resolved d bl T z) s.
Proof.
  intros Hs Hy Hsh Hstar. unfold resolve_arguments. apply wp_bind, (wp_node_at i y); [done|].
  pose proof (moves_step i s s Hs (select_step_refl s)) as M1.
  destruct (IsFunction y) eqn:EF.
  2: { apply wp_ret. split; [done|]. exists y. split_and!; [done|by left|]. intros HF. congruence. }
  assert (in_tree T (n_parent y)) as Hscope.
  { destruct (n_parent y) as [p|] eqn:Ep; [|done].
    apply (Hparent i (skeleton y)); [by apply (inv_lookup d bl T order_children Hdomains s)|done]. }
  assert (∀ e st, inv st → (n_parent y = None → starless e) → ok (resolveExpr d bl e (n_parent y)) (resolved (n_parent y)) st)
    as Hexpr by (intros e st ? ?; apply ok_resolveExpr; try done; apply order_children).
  eapply (wp_after i); [apply ok_map_m with (Q := resolved (n_parent y)); [done|]|exact Hy|].
  { intros e st He Hst _. apply Hexpr; [done|]. intros Hnone. destruct (Hstar Hnone) as [Ha _].
    rewrite Forall_forall in Ha. by apply Ha. }
  intros args s8 x8 M8 E8 S8 Hargs. apply step_node_fixed in S8 as ->; [|done].
  apply (moves_trans i _ _ s8) in M1; [|done]. clear M8.
  eapply (wp_after i); [apply ok_opt_m; [apply M1|]|exact E8|].
  { intros m Hm. apply ok_values with (P := resolved (n_parent y)); [apply M1|].
    intros kv st Hkv Hst _. apply Hexpr; [done|]. intros Hnone. destruct (Hstar Hnone) as [_ Hn].
    rewrite Hm in Hn. rewrite Forall_forall in Hn. by apply Hn. }
  intros named s9 x9 M9 E9 S9 Hnamed. apply step_node_fixed in S9 as ->; [|done].
  apply (moves_trans i _ _ s9) in M1; [|done]. clear M9.
  apply wp_modify. assert (inv s9) as I9 by apply M1. split; [eapply moves_trans; [exact M1|by apply moves_update]|].
  exists (with_arguments args named y). cbn. rewrite list_lookup_alter_eq, E9. split_and!; [done|right; eauto|].
  intros _. change (n_parent (with_arguments args named y)) with (n_parent y). split; [exact Hargs|].
  by destruct named.
Qed.

(** Resolving a node leaves it done, and the others as they were. *)
Lemma resolve_node_done i s x :
  inv s → r_nodes s !! i = Some x → args_starless x →
  wp any_error (resolve_node d bl i) (λ _ s', moves i s s' ∧ node_done (r_nodes s') i) s.
Proof.
  intros Hs Hx Hstar. pose proof (inv_lookup d bl T order_children Hdomains s i x Hs Hx) as HT.
  assert (i < length T)%nat as Hi by by eapply lookup_lt_Some.
  unfold resolve_node. apply wp_bind, wp_modify. set (s0 := set_own _ s).
  apply wp_bind, (wp_node_at i x); [done|].
  eapply (wp_after i); [apply ok_opt_m with (s := s0); [exact Hs|]|exact Hx|].
  { intros e _. apply ok_resolveExpr; try done. apply order_children. }
  intros w s1 x1 M1 E1 S1 Hw. eapply (wp_update i); [apply M1|done|exact E1|]. intros s2 M2 E2.
  apply (moves_trans i _ _ s2) in M1; [|done]. clear M2.
  apply wp_bind. eapply wp_mono; [apply (select_done i s2 (with_where w x1)); [apply M1|done..]|].
  intros _ s3 (M3 & x3 & E3 & S3 & Hsh). apply (moves_trans i _ _ s3) in M1; [|done]. clear M3.
  assert (n_where x3 = w ∧ args_starless x3) as [W3 Hstar3].
  { destruct S1 as [->|(_ & e & sh & ->)], S3 as [->|(_ & e' & sh' & ->)]; done. }
  apply wp_bind, (wp_node_at i x3); [done|].
  eapply (wp_after i); [apply ok_terms; [done|apply M1|done]|exact E3|].
  intros don s4 x4 M4 E4 S4 Hdon. apply step_node_fixed in S4 as ->; [|done].
  apply (moves_trans i _ _ s4) in M1; [|done]. clear M4.
  eapply (wp_update i); [apply M1|done|exact E4|]. intros s5 M5 E5.
  apply (moves_trans i _ _ s5) in M1; [|done]. clear M5.
  eapply (wp_after i); [apply (ok_terms _ fst (λ e t, (e, t.2))); [done|apply M1|done]|exact E5|].
  intros ob s6 x6 M6 E6 S6 Hob. apply step_node_fixed in S6 as ->; [|done].
  apply (moves_trans i _ _ s6) in M1; [|done]. clear M6.
  eapply (wp_update i); [apply M1|done|exact E6|]. intros s7 M7 E7.
  apply (moves_trans i _ _ s7) in M1; [|done]. clear M7.
  set (y := with_order_by _ _) in E7.
  apply wp_bind. eapply wp_mono; [apply (resolve_arguments_done i s7 y); [apply M1|done..]|].
  intros _ s8 (M8 & z & Ez & Hz & Hargs). apply (moves_trans i _ _ s8) in M1; [|done].
  apply wp_modify. split; [exact M1|]. exists z.
  assert (n_where z = w ∧ n_shape z = n_shape x3 ∧ n_distinct_on z = don ∧ n_order_by z = ob)
    as (HW & Hz1 & HD & HO) by (by destruct Hz as [->|(? & ? & ->)]).
  assert (resolved (Some i) (n_select z)) as Hsel.
  { destruct M1 as [[_ Hinv] _]. destruct Hsh as [sh Hsh]. rewrite <-Hz1 in Hsh.
    by destruct (Hinv i z sh Ez Hsh) as [_ ?]. }
  rewrite HW, Hz1, HD, HO. by split_and!.
Qed.

(** * The tree *)

(** Resolving a subtree leaves the nodes outside it as they were, but for
    selects, and keeps what was done. *)
Definition swept (i : node_id) (s s' : resolver) : Prop :=
  inv s' ∧
  (∀ j x, ¬ below T i j → r_nodes s !! j = Some x → ∃ x', r_nodes s' !! j = Some x' ∧ step_node x x') ∧
  (∀ j, node_done (r_nodes s) j → node_done (r_nodes s') j).

Lemma moves_done i s s' j : moves i s s' → node_done (r_nodes s') i → node_done (r_nodes s) j → node_done (r_nodes s') j.
Proof.
  intros [_ Hm] Hi Hj. destruct (decide (j = i)) as [->|Hji]; [done|].
  destruct Hj as (x & Hx & Hw & [sh Hsh] & Hrest). destruct (Hm j x Hji Hx) as (x' & Hx' & Hs).
  apply step_node_fixed in Hs as ->; [|by eexists]. exists x. split; [done|]. split; [done|]. split; [eauto|done].
Qed.

Lemma sweep_children fuel i cs s x :
  (∀ c s, c ∈ cs → inv s → wp any_error (resolveExpressions d bl fuel c)
    (λ _ s', swept c s s' ∧ ∀ j, below T c j → node_done (r_nodes s') j) s) →
  (∀ c, c ∈ cs → ¬ below T c i ∧ below T i c) →
  inv s → r_nodes s !! i = Some x →
  wp any_error (for_each (λ _ c, resolveExpressions d bl fuel c) 0 cs)
    (λ _ s', swept i s s' ∧ (∃ x', r_nodes s' !! i = Some x' ∧ step_node x x') ∧
       ∀ c j, c ∈ cs → below T c j → node_done (r_nodes s') j) s.
Proof.
  intros Hrec Hcs. generalize 0%nat. revert s x.
  induction cs as [|c cs IH]; intros s x k Hs Hx; cbn [for_each].
  - apply wp_ret. split_and!; [split_and!; [done| |done]| |by intros c j ?%elem_of_nil].
    + intros j y _ Hy. exists y. split; [done|apply step_node_refl].
    + exists x. split; [done|apply step_node_refl].
  - apply wp_bind. eapply wp_mono; [apply Hrec; [by left|done]|].
    intros _ s1 [(Hs1 & Hout1 & Hd1) Hc1]. destruct (Hcs c) as [Hci Hic]; [by left|].
    destruct (Hout1 i x Hci Hx) as (x1 & Hx1 & S1).
    eapply wp_mono; [apply (IH) with (x := x1); [intros; apply Hrec; [by right|done]|intros; apply Hcs; by right|done..]|].
    intros _ s2 ((Hs2 & Hout2 & Hd2) & (x2 & Hx2 & S2) & Hc2). split_and!; [split_and!; [done| |auto]| |].
    + intros j y Hj Hy. destruct (Hout1 j y) as (y1 & Hy1 & ?); [|done|].
      { intros Hcj. apply Hj. by eapply below_trans. }
      destruct (Hout2 j y1 Hj Hy1) as (y2 & Hy2 & ?). exists y2. split; [done|by eapply step_node_trans].
    + exists x2. split; [done|by eapply step_node_trans].
    + intros c' j [->|Hc']%elem_of_cons Hj; [auto|by eapply Hc2].
Qed.

Lemma sweep_app fuel i cs cs' s x (Q : unit → resolver → Prop) (f : unit → resolve unit) :
  (∀ c s, c ∈ cs ++ cs' → inv s → wp any_error (resolveExpressions d bl fuel c)
    (λ _ s', swept c s s' ∧ ∀ j, below T c j → node_done (r_nodes s') j) s) →
  (∀ c, c ∈ cs ++ cs' → ¬ below T c i ∧ below T i c) →
  inv s → r_nodes s !! i = Some x →
  (∀ s', swept i s s' → (∃ x', r_nodes s' !! i = Some x' ∧ step_node x x') →
     (∀ c j, c ∈ cs ++ cs' → below T c j → node_done (r_nodes s') j) → wp any_error (f tt) Q s') →
  wp any_error (_ ← for_each (λ _ c, resolveExpressions d bl fuel c) 0 cs;
                _ ← for_each (λ _ c, resolveExpressions d bl fuel c) 0 cs'; f tt) Q s.
Proof.
  intros Hrec Hcs Hs Hx Hf. apply wp_bind. eapply wp_mono.
  { apply (sweep_children fuel i cs s x); [..|done|done]; intros; [apply Hrec|apply Hcs]; try done;
      apply elem_of_app; by left. }
  intros _ s1 ((Hs1 & Hout1 & Hd1) & (x1 & Hx1 & S1) & Hc1). apply wp_bind. eapply wp_mono.
  { apply (sweep_children fuel i cs' s1 x1); [..|done|done]; intros; [apply Hrec|apply Hcs]; try done;
      apply elem_of_app; by right. }
  intros _ s2 ((Hs2 & Hout2 & Hd2) & (x2 & Hx2 & S2) & Hc2). apply Hf.
  - split_and!; [done| |auto]. intros j y Hj Hy. destruct (Hout1 j y Hj Hy) as (y1 & Hy1 & ?).
    destruct (Hout2 j y1 Hj Hy1) as (y2 & Hy2 & ?). exists y2. split; [done|by eapply step_node_trans].
  - exists x2. split; [done|by eapply step_node_trans].
  - intros c j [Hc|Hc]%elem_of_app Hj; [apply Hd2; by eapply Hc1|by eapply Hc2].
Qed.

Lemma below_inv i j : below T i j → j = i ∨ ∃ n c, T !! i = Some n ∧ c ∈ kids n ∧ below T c j.
Proof.
  induction 1 as [|j c n Hj IH Hn Hc]; [by left|]. right. destruct IH as [->|(m & k & Hm & Hk & Hkj)].
  - exists n, c. split_and!; [done..|constructor].
  - exists m, k. split_and!; [done..|by apply below_kid with j n].
Qed.

Lemma resolveExpressions_swept fuel : ∀ i s x,
  inv s → r_nodes s !! i = Some x → args_starless x → (length T - i ≤ fuel)%nat →
  wp any_error (resolveExpressions d bl fuel i)
    (λ _ s', swept i s s' ∧ ∀ j, below T i j → node_done (r_nodes s') j) s.
Proof.
  induction fuel as [|fuel IH]; intros i s x Hs Hx Hstar Hf;
    pose proof (inv_lookup d bl T order_children Hdomains s i x Hs Hx) as HT;
    assert (i < length T)%nat as Hi by (by eapply lookup_lt_Some); [lia|].
  cbn [resolveExpressions]. apply wp_bind, (wp_node_at i x); [done|].
  assert (∀ c, c ∈ kids x → (i < c < length T)%nat ∧ ∃ cn, T !! c = Some cn ∧ n_parent cn = Some i) as Hk
    by (intros c Hc; by apply (Horder i (skeleton x))).
  apply (sweep_app fuel i (n_outgoing x) (n_incoming x) s x _ (λ _, resolve_node d bl i)); [| |done|done|].
  - intros c st Hc Hst. destruct (Hk c Hc) as ([? ?] & cn & Hcn & Hpar).
    destruct (inv_node d bl T order_children Hdomains st c Hst) as (y & Hy & HTy); [done|].
    apply (IH c st y); [done..| |lia]. intros Hnone. exfalso. rewrite HTy in Hcn. injection Hcn as <-.
    change (n_parent (skeleton y)) with (n_parent y) in Hpar. congruence.
  - intros c Hc. destruct (Hk c Hc) as ([? ?] & _). split; [intros Hb%below_order; lia|].
    by apply below_kid with i (skeleton x); [constructor|..].
  - intros s1 (Hs1 & Hout1 & Hd1) (x1 & Hx1 & S1) Hc1.
    eapply wp_mono; [apply (resolve_node_done i s1 x1); [done..|]|].
    { by destruct S1 as [->|(_ & e & sh & ->)]. }
    intros _ s2 [Hm Hdone]. split; [split_and!|].
    + apply Hm.
    + intros j y Hj Hy. destruct (Hout1 j y Hj Hy) as (y1 & Hy1 & ?).
      destruct (proj2 Hm j y1) as (y2 & Hy2 & ?); [intros ->; by apply Hj; constructor|done|].
      exists y2. split; [done|by eapply step_node_trans].
    + intros j Hj. eapply moves_done; [exact Hm|done|auto].
    + intros j Hj. destruct (below_inv i j Hj) as [->|(n & c & Hn & Hc & Hcj)]; [done|].
      eapply moves_done; [exact Hm|done|]. rewrite HT in Hn. injection Hn as <-. by apply (Hc1 c).
Qed.
End nodes.

(** * Properties *)

Lemma tree_order d bl ns :
  tree_ok d bl ns → ∀ i n c, skeletons ns !! i = Some n → c ∈ kids n →
  (i < c < length (skeletons ns))%nat ∧ ∃ cn, skeletons ns !! c = Some cn ∧ n_parent cn = Some i.
Proof.
  intros [Hok Hpar] i n c Hn Hc. apply skeletons_lookup_inv in Hn as (x & Hx & ->).
  destruct (Hpar i x c Hx Hc) as (cn & Hcn & Hp). destruct (Hok c cn Hcn) as [_ Hl].
  unfold linked in Hl. rewrite Hp in Hl. destruct Hl as [Hlt _]. rewrite length_map.
  split; [split; [done|by eapply lookup_lt_Some]|]. exists (skeleton cn). by rewrite (skeletons_lookup _ _ _ Hcn).
Qed.
Lemma tree_parent d bl ns :
  tree_ok d bl ns → ∀ i n p, skeletons ns !! i = Some n → n_parent n = Some p → (p < length (skeletons ns))%nat.
Proof.
  intros [Hok _] i n p Hn Hp. apply skeletons_lookup_inv in Hn as (x & Hx & ->).
  change (n_parent (skeleton x)) with (n_parent x) in Hp.
  destruct (Hok i x Hx) as [_ Hl]. unfold linked in Hl. rewrite Hp in Hl. rewrite length_map.
  apply lookup_lt_Some in Hx. lia.
Qed.


(** Users with the first of their posts, by a hop into the child. *)
Definition selecting_query : rawRelation :=
  RawRelation "users" "" false "" "" None None None
    (Some (FoldedExpr "=" (Identifier "id" None) (StringLiteral "7"))) "" "" None None None
    (Some [("posts", plain_query "posts" (Some [("author", "id")]) None)])
    (Some (ObjectExpr [("who", Identifier "name" None);
                       ("posts", Identifier "posts" None);
                       ("last", FoldedExpr FoldDot (Identifier "posts" None) (Identifier "id" None))]))
    false [] [(Identifier "name" None, OrderAsc)] None None.
Definition selecting : resolver :=
  match resolveQuery blog_infos (MkBlacklist ∅ ∅) 6 selecting_query empty_resolver with
  | Ok (_, s) => s
  | _ => empty_resolver
  end.

Lemma selecting_tree : tree_ok blog_infos (MkBlacklist ∅ ∅) (r_nodes selecting).
Proof.
  unfold selecting, resolveQuery.
  pose proof (resolveNode_tree blog_infos (MkBlacklist ∅ ∅) 6 7 selecting_query None "" 1 empty_resolver blog_infos_ok) as H.
  change (S (Z.to_nat 6)) with 7%nat. unfold wp in H.
  assert (tree_ok blog_infos (MkBlacklist ∅ ∅) (r_nodes empty_resolver)) as H0 by done.
  destruct (resolveNode _ _ _ 7 _ _ _ _ _) as [[i s]|e| |]; [|done..]. apply H; [lia|done|done].
Qed.

(** The hop of [last] lands on the column of the child. *)
Example selecting_last :
  match resolveExpressions blog_infos (MkBlacklist ∅ ∅) 2 0 selecting with
  | Ok (_, s) =>
      match r_nodes s !! 0%nat ≫= n_shape with
      | Some sh => option_map (option_map (λ f, match f with RColumnPath n p _ => (n, map col_name p) | _ => (9%nat, []) end))
          (map_get "last" (sh_fields sh))
      | None => None
      end
  | _ => None
  end = Some (Some (1%nat, ["id"])).
Proof. vm_compute. reflexivity. Qed.


(** C32: a star in the arguments of a root function is not refused: there is no
    scope to take the columns of, and the columns of a nil node are read. *)
Theorem root_star_panics (d : DbInfos) (bl : Blacklist) (own : bool) (and : list (string * Expression)) (s : resolver) :
  resolveExpr d bl (StarExpr own [] and) None s = Panic.
Proof. reflexivity. Qed.

(** A blacklisted function that is also a computed field. *)
Definition hidden_function : Function_ :=
  MkFunction (MkIdent "public" "secret") [MkArg "t" 7 ModeIn] 1 0 "f" false 25 None.
Definition computed_catalog : DbInfos :=
  MkDbInfos {[ 1 := set_computed {[ "secret" := 0%nat ]} (table "t" ["id"]) ]} {[ "public" := {[ "t" := 1 ]} ]}
    [hidden_function] {[ "public" := {[ "secret" := [0%nat] ]} ]} ∅ ["public"].
Definition hiding : Blacklist := MkBlacklist {[ "public" := {[ "secret" := "y" ]} ]} ∅.
Definition secret_query : rawRelation :=
  RawRelation "t" "" false "" "" None None None None "" "" None None None None
    (Some (ObjectExpr [("s", Identifier "secret" None)])) false [] [] None None.

(** C33: the function blacklist does not hold for computed fields: with the
    function [secret] blacklisted, a call of it is refused, and the same function
    under the bare name of a computed field resolves. *)
Theorem computed_field_not_checked :
  IsFunctionBlacklisted hiding "public" "secret" = true ∧
  (∃ e, resolveExpr computed_catalog hiding (CallExpr (MkFunctionRef "" "secret") [Identifier "t" None] None) None
     empty_resolver = Err e) ∧
  match resolveQuery computed_catalog hiding 6 secret_query empty_resolver with
  | Ok (i, s) =>
      match LookupInScope computed_catalog (r_nodes s) i "secret" with
      | Ok (RComputed _ fn) => fn = hidden_function
      | _ => False
      end ∧
      is_ok (resolveExpressions computed_catalog hiding 1 i s) = true
  | _ => False
  end.
Proof. split; [reflexivity|]. split; [eexists; vm_compute; reflexivity|]. by vm_compute. Qed.
