(* ===== verification/Shape.v ===== *)
(** Node shapes and writability: [src/query/shape.go].

    The last step of a node's resolution: which columns of its select a payload
    shaped like it can write, and where in the payload their values are. *)
From Stdlib Require Import ZArith Lia Ascii.
From S2P Require Import Prelude CborNode Catalog Joins Expression Nodes ResolveQuery ResolveExpr.
Set Warnings "-register-all".

(** What [writeAccum] holds for one [Key]: its four maps have the same keys, kept
    here in the order they were first seen. *)
Record occurrence := MkOccurrence {
  oc_key : string;
  oc_count : nat;               (* occurrences *)
  oc_clean : bool;              (* clean *)
  oc_json : list string;        (* paths *)
  oc_column : ColumnPath;       (* columns *)
}.
Abbreviation writeAccum := (list occurrence).

Fixpoint record (cp : ColumnPath) (jsonPath : list string) (isClean : bool) (a : writeAccum) : writeAccum :=
  match a with
  | [] => [MkOccurrence (Key cp) 1 isClean jsonPath cp]
  | o :: a =>
      if decide (oc_key o = Key cp)
      then MkOccurrence (oc_key o) (S (oc_count o)) (oc_clean o && isClean) (oc_json o) (oc_column o) :: a
      else o :: record cp jsonPath isClean a
  end.
Definition accum_get (key : string) (a : writeAccum) : option occurrence :=
  find (λ o, String.eqb (oc_key o) key) a.

(** [v.Resolved.(ColumnPath)] *)
Definition as_column_path (f : option ResolvedField) : option ColumnPath :=
  match f with Some (RColumnPath n p e) => Some (MkColumnPath n p e) | _ => None end.

Definition FoldCoalesceAlias : FoldedOperator := "??".
Definition FoldConcatCoalescing : FoldedOperator := "||?".

(** Whether a chain's left spine goes through an index. *)
Fixpoint chainHopsThroughIndex (e : Expression) : bool :=
  match e with
  | IndexExpr _ _ => true
  | FoldedExpr op l _ => if String.eqb op FoldDot then chainHopsThroughIndex l else false
  | _ => false
  end.

Section walk.
Context (d : DbInfos) (self : node_id) (x : QueryNode).

(** The columns a star writes. *)
Definition own_written (except : list string) : list Column :=
  match node_relation d x with
  | None => []
  | Some r => filter (λ c, ¬ (col_name c ∈ except ∨ IsGenerated c = true)) (Columns r)
  end.
Definition own_path (c : Column) : ColumnPath := MkColumnPath self [c] None.
Definition recordOwnColumns (except : list string) (jsonPath : list string) (a : writeAccum) : writeAccum :=
  foldl (λ a c, record (own_path c) (jsonPath ++ [col_name c]) true a) a (own_written except).

Definition record_opt (cp : option ColumnPath) (jsonPath : list string) (isClean : bool) (a : writeAccum) : writeAccum :=
  match cp with Some cp => record cp jsonPath isClean a | None => a end.

(** The column the last hop of a chain lands on, when it is the node's own. *)
Definition dot_column (l r : Expression) : option ColumnPath :=
  match r with
  | Identifier _ f =>
      if chainHopsThroughIndex l then None
      else cp ← as_column_path f; if decide (cp_node cp = self) then Some cp else None
  | _ => None
  end.

Fixpoint walkSelectForWritability (e : Expression) (jsonPath : list string) (coalesceOnly : bool) (a : writeAccum) : writeAccum :=
  let each b es a := foldl (λ a e, walkSelectForWritability e jsonPath b a) a es in
  let fields kvs a := foldl (λ a kv, walkSelectForWritability kv.2 (jsonPath ++ [kv.1]) true a) a kvs in
  let walk b e a := walkSelectForWritability e jsonPath b a in
  match e with
  | Identifier _ f | ColExpr _ _ _ f _ => record_opt (as_column_path f) jsonPath coalesceOnly a
  | SetExpr _ _ c => record_opt (own_path <$> c) jsonPath coalesceOnly a
  | GetExpr _ _ _ => a
  | CoalesceExpr es => each coalesceOnly es a
  | FoldedExpr op l r =>
      if bool_decide (op ∈ [FoldCoalesceAlias; FoldConcatCoalescing]) then walk coalesceOnly r (walk coalesceOnly l a)
      else if String.eqb op FoldDot then record_opt (dot_column l r) jsonPath coalesceOnly a
      else walk false r (walk false l a)
  | UnaryExpr _ e => walk false e a
  | BinaryExpr _ l r => walk false r (walk false l a)
  | BetweenExpr _ min e max => walk false max (walk false e (walk false min a))
  | InExpr _ s es => each false es (walk false s a)
  | AnyAllExpr _ _ s arr => walk false arr (walk false s a)
  | ConcatWsExpr sep es => each false es (walk false sep a)
  | FormatExpr _ es | CallExpr _ es _ | ArrExpr es | LstExpr es => each false es a
  | AggExpr _ _ es f _ _ _ =>
      let a := each false es a in
      match f with Some e => walk false e a | None => a end
  | ObjectExpr kvs => fields kvs a
  | StarExpr _ except kvs => fields kvs (recordOwnColumns except jsonPath a)
  | IndexExpr arr _ | SliceExpr arr _ _ => walk false arr a
  | _ => a
  end.

(** ** Writability *)

(** The columns of the conflict target, or those of the primary key; [None] is a
    nil column. *)
Definition identity_cols (r : Relation) : list (option Column) :=
  match n_conflict_columns x with
  | [] =>
      match PrimaryKey r with
      | None => []
      | Some k => map (λ c, c ≫= λ name, ColumnsMap (Columns r) !! name) (con_columns k)
      end
  | names => map Some (omap (λ name, ColumnsMap (Columns r) !! name) names)
  end.

Definition once_clean (a : writeAccum) (key : string) : bool :=
  match accum_get key a with Some o => Nat.eqb (oc_count o) 1 && oc_clean o | None => false end.

Fixpoint all_once_clean (a : writeAccum) (cols : list (option Column)) : outcome bool :=
  match cols with
  | [] => Ok true
  | None :: _ => Panic
  | Some c :: cols => if once_clean a (Key (own_path c)) then all_once_clean a cols else Ok false
  end.

Definition identityIsWritable (a : writeAccum) : outcome bool :=
  match node_relation d x with
  | None => Ok false
  | Some r =>
      if IsFunction x then Ok false
      else match identity_cols r with [] => Ok false | cols => all_once_clean a cols end
  end.
End walk.

Section shapes.
Context (d : DbInfos) (bl : Blacklist).
(** The order one iteration takes over the occurrences. *)
Context (order : list occurrence → list occurrence).

Definition extractors (a : writeAccum) : list Extractor :=
  map (λ o, MkExtractor (oc_column o) (oc_json o)) (filter (λ o, oc_count o = 1%nat ∧ oc_clean o = true) (order a)).

(** Whether a child lets its parent be writable. *)
Definition child_writable (c : QueryNode) : bool :=
  bool_decide (n_mode c = READONLY) || match n_shape c with Some s => sh_writable s | None => false end.

Definition accum_of (i : node_id) (x : QueryNode) : writeAccum :=
  walkSelectForWritability d i x (n_select x) [] true [].

Definition deriveNodeShape (i : node_id) : resolve NodeShape :=
  fields ← selectShape (resolveChain d bl) i;
  x ← node_at i;
  if decide (n_mode x = READONLY) then mret (MkNodeShape fields [] true)
  else
    let a := accum_of i x in
    own ← (if isWhereDriven (n_mode x) then mret true else lift (identityIsWritable d i x a));
    children ← map_m node_at (n_outgoing x ++ n_incoming x);
    mret (MkNodeShape fields (extractors a) (own && forallb child_writable children)).

(** Children before their parent. *)
Fixpoint deriveShapes (fuel : nat) (i : node_id) : resolve unit :=
  match fuel with
  | O => λ _, OutOfFuel
  | S fuel =>
      x ← node_at i;
      _ ← for_each (λ _ c, deriveShapes fuel c) 0 (n_outgoing x);
      _ ← for_each (λ _ c, deriveShapes fuel c) 0 (n_incoming x);
      s ← deriveNodeShape i;
      update_node i (with_shape s)
  end.

(** The whole resolution of a request: its tree, its expressions, its shapes.  A
    tree is no deeper than it has nodes. *)
Definition Resolve (max_depth : Z) (raw : rawRelation) : resolve node_id :=
  root ← resolveQuery d bl max_depth raw;
  s ← get;
  _ ← resolveExpressions d bl (length (r_nodes s)) root;
  _ ← deriveShapes (length (r_nodes s)) root;
  mret root.
End shapes.
