(* ===== verification/ShapeFacts.v ===== *)
(** What node shapes promise: the columns of a select that a payload can write
    are those it shows exactly once and untransformed, each is found in the
    payload where the select puts it, and a tree is writable when all of it is. *)
From Stdlib Require Import ZArith Lia Ascii.
From S2P Require Import Prelude CborNode Catalog Joins KeysFacts Expression Nodes ResolveQuery ResolveQueryFacts ResolveExpr Shape.
Set Warnings "-register-all".

(** * Induction on expressions *)

Definition opt_list {A} (o : option A) : list A := match o with Some a => [a] | None => [] end.

Definition sub_expressions (e : Expression) : list Expression :=
  match e with
  | UnaryExpr _ e => [e]
  | BinaryExpr _ l r | FoldedExpr _ l r => [l; r]
  | BetweenExpr _ a b c | SliceExpr a b c => [a; b; c]
  | InExpr _ e es | ConcatWsExpr e es => e :: es
  | AnyAllExpr _ _ a b | IndexExpr a b => [a; b]
  | CoalesceExpr es | FormatExpr _ es | ArrExpr es | LstExpr es | CallExpr _ es _ => es
  | AggExpr _ _ es f _ ob _ => es ++ opt_list f ++ map fst ob
  | ObjectExpr kvs | StarExpr _ _ kvs => map snd kvs
  | ColExpr _ g s _ _ => opt_list g ++ opt_list s
  | GetExpr _ g _ | SetExpr _ g _ => opt_list g
  | _ => []
  end.

Lemma sub_expressions_height e c : c ∈ sub_expressions e → (expr_height c < expr_height e)%nat.
Proof.
  assert (∀ (kvs : list (string * Expression)), c ∈ map snd kvs → (expr_height c ≤ list_max (map (λ t, expr_height t.2) kvs))%nat) as Hsnd.
  { intros kvs [kv [-> Hkv]]%list_elem_of_fmap. by apply (list_max_in (λ t : string * Expression, expr_height t.2)). }
  assert (∀ (ob : list OrderByTerm), c ∈ map fst ob → (expr_height c ≤ list_max (map (λ t, expr_height t.1) ob))%nat) as Hfst.
  { intros kvs [kv [-> Hkv]]%list_elem_of_fmap. by apply (list_max_in (λ t : OrderByTerm, expr_height t.1)). }
  destruct e; cbn [sub_expressions expr_height];
    rewrite ?elem_of_app, ?elem_of_cons, ?elem_of_nil; intros H;
    repeat match goal with
    | H : _ ∨ _ |- _ => destruct H
    | H : False |- _ => destruct H
    | H : c ∈ opt_list ?o |- _ => destruct o; cbn [opt_list] in H; [apply list_elem_of_singleton in H|by apply not_elem_of_nil in H]
    end; subst;
    repeat match goal with H : c ∈ ?es |- _ => first [apply Hsnd in H | apply Hfst in H | apply (list_max_in expr_height) in H] end;
    cbn in *; lia.
Qed.

Lemma expr_ind (P : Expression → Prop) :
  (∀ e, (∀ c, c ∈ sub_expressions e → P c) → P e) → ∀ e, P e.
Proof.
  intros H e. induction e as [e IH] using (well_founded_induction (Nat.lt_wf_0_projected expr_height)).
  apply H. intros c Hc. apply IH. by apply sub_expressions_height.
Qed.

(** * The columns a select shows

    Every place a select shows a column at: the column, where the place is in a
    row of the payload, and whether the column is untransformed there. *)

Abbreviation shown := (ColumnPath * list string * bool)%type.

Section shows.
Context (d : DbInfos) (self : node_id) (x : QueryNode).

Definition shows_opt (cp : option ColumnPath) (at_ : list string) (clean : bool) : list shown :=
  match cp with Some cp => [(cp, at_, clean)] | None => [] end.

Fixpoint shows (e : Expression) (at_ : list string) (clean : bool) : list shown :=
  let each b es := flat_map (λ e, shows e at_ b) es in
  let fields kvs := flat_map (λ kv, shows kv.2 (at_ ++ [kv.1]) true) kvs in
  match e with
  | Identifier _ f | ColExpr _ _ _ f _ => shows_opt (as_column_path f) at_ clean
  | SetExpr _ _ c => shows_opt (own_path self <$> c) at_ clean
  | CoalesceExpr es => each clean es
  | FoldedExpr op l r =>
      if bool_decide (op ∈ [FoldCoalesceAlias; FoldConcatCoalescing]) then shows l at_ clean ++ shows r at_ clean
      else if String.eqb op FoldDot then shows_opt (dot_column self l r) at_ clean
      else shows l at_ false ++ shows r at_ false
  | UnaryExpr _ e => shows e at_ false
  | BinaryExpr _ l r | AnyAllExpr _ _ l r => shows l at_ false ++ shows r at_ false
  | BetweenExpr _ a b c => shows a at_ false ++ shows b at_ false ++ shows c at_ false
  | InExpr _ e es | ConcatWsExpr e es => shows e at_ false ++ each false es
  | FormatExpr _ es | CallExpr _ es _ | ArrExpr es | LstExpr es => each false es
  | AggExpr _ _ es f _ _ _ => each false es ++ match f with Some e => shows e at_ false | None => [] end
  | ObjectExpr kvs => fields kvs
  | StarExpr _ except kvs =>
      map (λ c, (own_path self c, at_ ++ [col_name c], true)) (own_written d x except) ++ fields kvs
  | IndexExpr arr _ | SliceExpr arr _ _ => shows arr at_ false
  | _ => []
  end.

Definition record_all (os : list shown) (a : writeAccum) : writeAccum :=
  foldl (λ a o, record o.1.1 o.1.2 o.2 a) a os.

Lemma record_all_app os os' a : record_all (os ++ os') a = record_all os' (record_all os a).
Proof. apply foldl_app. Qed.
Lemma record_opt_shows cp at_ b a : record_opt cp at_ b a = record_all (shows_opt cp at_ b) a.
Proof. by destruct cp. Qed.
Lemma record_each {A} (f : A → writeAccum → writeAccum) (g : A → list shown) l a :
  (∀ y, y ∈ l → ∀ a, f y a = record_all (g y) a) → foldl (λ a y, f y a) a l = record_all (flat_map g l) a.
Proof.
  revert a. induction l as [|y l IH]; intros a H; cbn [foldl flat_map]; [done|].
  rewrite record_all_app, IH, H; [done|by left|]. intros z Hz. apply H. by right.
Qed.
Lemma record_stars except at_ a :
  recordOwnColumns d self x except at_ a =
  record_all (map (λ c, (own_path self c, at_ ++ [col_name c], true)) (own_written d x except)) a.
Proof. unfold recordOwnColumns, record_all. by rewrite foldl_fmap. Qed.

(** The walk records what the select shows. *)
Lemma walk_shows e : ∀ at_ clean a,
  walkSelectForWritability d self x e at_ clean a = record_all (shows e at_ clean) a.
Proof.
  induction e as [e IH] using expr_ind; intros at_ clean a.
  assert (∀ es b a, (∀ y, y ∈ es → y ∈ sub_expressions e) →
    foldl (λ a e, walkSelectForWritability d self x e at_ b a) a es = record_all (flat_map (λ e, shows e at_ b) es) a) as Heach.
  { intros es b a' H. apply (record_each (λ e, walkSelectForWritability d self x e at_ b)). intros y Hy a''. by apply IH, H. }
  assert (∀ kvs a, (∀ y, y ∈ map snd kvs → y ∈ sub_expressions e) →
    foldl (λ a (kv : string * Expression), walkSelectForWritability d self x kv.2 (at_ ++ [kv.1]) true a) a kvs =
    record_all (flat_map (λ kv, shows kv.2 (at_ ++ [kv.1]) true) kvs) a) as Hfields.
  { intros kvs a' H. apply (record_each (λ kv : string * Expression, walkSelectForWritability d self x kv.2 (at_ ++ [kv.1]) true)).
    intros y Hy a''. apply IH, H, list_elem_of_In, in_map, list_elem_of_In, Hy. }
  destruct e; cbn [walkSelectForWritability shows] in *; try done;
    rewrite ?record_opt_shows, ?record_stars, ?record_all_app; try done;
    try (case_bool_decide; [|case_match]); rewrite ?record_all_app, ?record_opt_shows; try done;
    rewrite ?Heach, ?Hfields by (cbn; intros; rewrite ?elem_of_cons, ?elem_of_app; auto);
    rewrite ?IH by (cbn; rewrite ?elem_of_cons; auto 6); try done.
  case_match; [|done]. rewrite IH; [done|]. cbn. set_solver.
Qed.
End shows.

(** * The occurrences of a key *)

Definition shown_key (o : shown) : string := Key o.1.1.
Definition shown_as (key : string) (os : list shown) : list shown := filter (λ o, shown_key o = key) os.

(** The occurrence that records the places of a key. *)
Definition occurrence_of (os : list shown) : option occurrence :=
  match os with
  | [] => None
  | o :: _ => Some (MkOccurrence (shown_key o) (length os) (forallb snd os) o.1.2 o.1.1)
  end.

Definition accum_keys (a : writeAccum) : list string := map oc_key a.

Lemma record_keys cp at_ b a :
  accum_keys (record cp at_ b a) = if decide (Key cp ∈ accum_keys a) then accum_keys a else accum_keys a ++ [Key cp].
Proof.
  induction a as [|o a IH]; cbn [record accum_keys map]; [by rewrite decide_False by apply not_elem_of_nil|].
  fold (accum_keys a). destruct (decide (oc_key o = Key cp)) as [<-|Hne]; cbn [map oc_key].
  - rewrite decide_True by (by left). done.
  - fold (accum_keys (record cp at_ b a)). rewrite IH.
    destruct (decide (Key cp ∈ accum_keys a)); [rewrite decide_True by (by right)|rewrite decide_False]; [done..|].
    by rewrite elem_of_cons; intros [|].
Qed.
Lemma record_nodup cp at_ b a : NoDup (accum_keys a) → NoDup (accum_keys (record cp at_ b a)).
Proof.
  intros H. rewrite record_keys. case_decide; [done|]. apply NoDup_app. split; [done|].
  split; [set_solver|apply NoDup_singleton].
Qed.
Lemma record_get cp at_ b a key :
  accum_get key (record cp at_ b a) =
  if decide (Key cp = key) then
    Some match accum_get key a with
         | Some o => MkOccurrence (oc_key o) (S (oc_count o)) (oc_clean o && b) (oc_json o) (oc_column o)
         | None => MkOccurrence (Key cp) 1 b at_ cp
         end
  else accum_get key a.
Proof.
  unfold accum_get. induction a as [|o a IH]; cbn [record find].
  - cbn [oc_key]. destruct (String.eqb_spec (Key cp) key), (decide (Key cp = key)); done.
  - destruct (decide (oc_key o = Key cp)) as [He|Hne]; cbn [find oc_key].
    + rewrite He. destruct (String.eqb_spec (Key cp) key), (decide (Key cp = key)); by try rewrite He.
    + destruct (String.eqb_spec (oc_key o) key) as [<-|]; [by rewrite decide_False by congruence|apply IH].
Qed.

Lemma shown_as_snoc key os o :
  shown_as key (os ++ [o]) = shown_as key os ++ if decide (shown_key o = key) then [o] else [].
Proof. unfold shown_as. rewrite filter_app, filter_cons, filter_nil. done. Qed.

Lemma record_all_get os key : accum_get key (record_all os []) = occurrence_of (shown_as key os).
Proof.
  induction os as [|o os IH] using rev_ind; [done|].
  rewrite record_all_app. cbn [record_all foldl]. rewrite record_get, IH, shown_as_snoc. fold (shown_key o).
  destruct (decide (shown_key o = key)) as [<-|]; [|by rewrite app_nil_r].
  destruct (shown_as (shown_key o) os) as [|o' os'] eqn:E; cbn; [by rewrite andb_true_r|].
  rewrite length_app, forallb_app. cbn. do 2 f_equal; [lia|]. by rewrite andb_true_r, andb_assoc.
Qed.
Lemma record_all_nodup os : NoDup (accum_keys (record_all os [])).
Proof.
  induction os as [|o os IH] using rev_ind; [constructor|]. rewrite record_all_app. by apply record_nodup.
Qed.
Lemma record_all_in os o : o ∈ record_all os [] ↔ occurrence_of (shown_as (oc_key o) os) = Some o.
Proof.
  rewrite <-record_all_get. pose proof (record_all_nodup os) as Hnd. unfold accum_get.
  induction (record_all os []) as [|o' a IH]; [by rewrite elem_of_nil|]. cbn in Hnd. apply NoDup_cons in Hnd as [Hn Hnd].
  specialize (IH Hnd). rewrite elem_of_cons, IH. cbn [find]. destruct (String.eqb_spec (oc_key o') (oc_key o)) as [He|Hne].
  - split; [|intros [= ->]; by left]. intros [->|Ho]; [done|]. apply IH in Ho. destruct Hn. rewrite He.
    apply list_elem_of_fmap. by exists o.
  - split; [intros [->|?]; done|by right].
Qed.

(** A column is extracted from where it is shown, when that is once and clean. *)
Lemma extractors_shown (order : list occurrence → list occurrence) os cp at_ :
  (∀ a, order a ≡ₚ a) →
  MkExtractor cp at_ ∈ extractors order (record_all os []) ↔ shown_as (Key cp) os = [(cp, at_, true)].
Proof.
  intros Horder. unfold extractors. rewrite list_elem_of_fmap. setoid_rewrite list_elem_of_filter. setoid_rewrite Horder.
  setoid_rewrite record_all_in. split.
  - intros ([key n clean json col] & [= <- <-] & [Hn Hc] & Ho). cbn in *. subst n clean.
    destruct (shown_as key os) as [|[[cp' at'] b] [|]] eqn:E; [done| |done]. cbn in Ho.
    injection Ho as <- <- <- <-. cbn in E. unfold shown_key in E. cbn in E. rewrite E. by rewrite andb_true_r.
  - intros H. exists (MkOccurrence (Key cp) 1 true at_ cp). cbn. by rewrite H.
Qed.

(** * Where a payload holds a column

    [lands e at_ cp]: in the value of [e], the member at the path [at_] is the
    column [cp], with nothing done to it but replacing a null. *)

Section lands.
Context (d : DbInfos) (self : node_id) (x : QueryNode).

Inductive lands : Expression → list string → ColumnPath → Prop :=
  | lands_identifier name f cp : as_column_path f = Some cp → lands (Identifier name f) [] cp
  | lands_col name g s f c cp : as_column_path f = Some cp → lands (ColExpr name g s f c) [] cp
  | lands_set name g c : lands (SetExpr name g (Some c)) [] (own_path self c)
  | lands_dot l r cp : dot_column self l r = Some cp → lands (FoldedExpr FoldDot l r) [] cp
  | lands_coalesce es e at_ cp : e ∈ es → lands e at_ cp → lands (CoalesceExpr es) at_ cp
  | lands_alias op l r e at_ cp : op ∈ [FoldCoalesceAlias; FoldConcatCoalescing] →
      e ∈ [l; r] → lands e at_ cp → lands (FoldedExpr op l r) at_ cp
  | lands_object kvs k e at_ cp : (k, e) ∈ kvs → lands e at_ cp → lands (ObjectExpr kvs) (k :: at_) cp
  | lands_and own except kvs k e at_ cp : (k, e) ∈ kvs → lands e at_ cp → lands (StarExpr own except kvs) (k :: at_) cp
  | lands_own own except kvs c : c ∈ own_written d x except → lands (StarExpr own except kvs) [col_name c] (own_path self c).

Definition coalesces (op : FoldedOperator) : bool := bool_decide (op ∈ [FoldCoalesceAlias; FoldConcatCoalescing]).

(** What a form shows of its parts: as it is, at a key, or transformed. *)
Definition transforms (e : Expression) : bool :=
  match e with
  | CoalesceExpr _ | ObjectExpr _ | StarExpr _ _ _ => false
  | FoldedExpr op _ _ => negb (coalesces op)
  | _ => true
  end.

Definition builds_object (e : Expression) : bool :=
  match e with ObjectExpr _ | StarExpr _ _ _ => true | _ => false end.
Inductive objectless : Expression → Prop :=
  | objectless_intro e : builds_object e = false → (∀ c, c ∈ sub_expressions e → objectless c) → objectless e.

(** No object is built below a form that transforms it. *)
Inductive objects_outside : Expression → Prop :=
  | outside_transform e : transforms e = true → (∀ c, c ∈ sub_expressions e → objectless c) → objects_outside e
  | outside_shape e : transforms e = false → (∀ c, c ∈ sub_expressions e → objects_outside c) → objects_outside e.

Lemma in_shows_opt f at_ b (o : shown) : o ∈ shows_opt f at_ b → ∃ cp, f = Some cp ∧ o = (cp, at_, b).
Proof. destruct f as [cp|]; cbn; [|by rewrite elem_of_nil]. rewrite list_elem_of_singleton. eauto. Qed.
Lemma in_flat_map {A B} (f : A → list B) l b : b ∈ flat_map f l → ∃ a, a ∈ l ∧ b ∈ f a.
Proof. rewrite list_elem_of_In, in_flat_map. setoid_rewrite list_elem_of_In. done. Qed.

Ltac shows_cases H :=
  repeat match type of H with
  | _ ∈ _ ++ _ => apply elem_of_app in H as [H|H]
  | _ ∈ flat_map _ _ => apply in_flat_map in H as (? & ? & H)
  | _ ∈ shows_opt _ _ _ => apply in_shows_opt in H as (? & ? & ->)
  | _ ∈ [] => by apply not_elem_of_nil in H
  | _ ∈ match ?o with _ => _ end => destruct o
  end.

Lemma shows_unclean e : ∀ at_ (o : shown), objectless e → o ∈ shows d self x e at_ false → o.2 = false.
Proof using Type.
  induction e as [e IH] using expr_ind; intros at_ o He Ho.
  inversion He as [? Hb Hsub]; subst.
  assert (∀ c at_, c ∈ sub_expressions e → o ∈ shows d self x c at_ false → o.2 = false) as Hc by (intros; eapply IH; eauto).
  clear IH He. destruct e; try done; cbn [shows] in Ho; shows_cases Ho; try done;
    eapply Hc; try exact Ho; cbn; set_solver.
Qed.

Lemma shows_lands e : ∀ at_ (o : shown), objects_outside e → o ∈ shows d self x e at_ true → o.2 = true →
  ∃ rest, o.1.2 = at_ ++ rest ∧ lands e rest o.1.1.
Proof using Type.
  induction e as [e IH] using expr_ind; intros at_ o He Ho Hclean.
  inversion He as [? Ht Hsub|? Ht Hsub]; subst.
  - assert (∀ c at_, c ∈ sub_expressions e → o ∈ shows d self x c at_ false → False) as Hc.
    { intros c at' Hin Hc. apply shows_unclean in Hc; [congruence|by apply Hsub]. }
    clear IH He Hsub. destruct e; try done; cbn [shows] in Ho;
      try (unfold transforms, coalesces in Ht; destruct (bool_decide _); [done|]);
      try (destruct (String.eqb_spec op FoldDot) as [->|]);
      shows_cases Ho; try (exfalso; eapply Hc; [|exact Ho]; cbn; set_solver);
      exists []; rewrite app_nil_r; (split; [done|]); cbn [fst snd].
    + by constructor.
    + by constructor.
    + by constructor.
    + destruct resolved_column as [c|]; [|done]. cbn in H. injection H as <-. constructor.
  - assert (∀ c at_, c ∈ sub_expressions e → o ∈ shows d self x c at_ true →
      ∃ rest, o.1.2 = at_ ++ rest ∧ lands c rest o.1.1) as Hc by (intros; eapply IH; eauto).
    clear IH He Hsub. destruct e; try done; cbn [shows transforms] in *.
    + apply negb_false_iff, bool_decide_eq_true in Ht. rewrite bool_decide_true in Ho by done.
      apply elem_of_app in Ho as [Ho|Ho]; (eapply Hc in Ho as (rest & ? & ?); [|set_solver]);
        exists rest; (split; [done|]); eapply lands_alias; try done; set_solver.
    + shows_cases Ho. eapply Hc in Ho as (rest & ? & ?); [|done]. exists rest. split; [done|]. by eapply lands_coalesce.
    + apply in_flat_map in Ho as ([k e] & Hin & Ho). cbn [fst snd] in Ho.
      eapply Hc in Ho as (rest & -> & ?); [|by apply list_elem_of_In, (in_map snd _ (k, e)), list_elem_of_In].
      exists (k :: rest). split; [by rewrite <-(assoc_L (++))|]. by eapply lands_object.
    + apply elem_of_app in Ho as [Ho|Ho].
      { apply list_elem_of_fmap in Ho as (c & -> & Hin). exists [col_name c]. split; [done|]. by apply lands_own. }
      apply in_flat_map in Ho as ([k e] & Hin & Ho). cbn [fst snd] in Ho.
      eapply Hc in Ho as (rest & -> & ?); [|by apply list_elem_of_In, (in_map snd _ (k, e)), list_elem_of_In].
      exists (k :: rest). split; [by rewrite <-(assoc_L (++))|]. by eapply lands_and.
Qed.
End lands.

(** * The shape of a node *)

Section derive.
Context (d : DbInfos) (bl : Blacklist) (order : list occurrence → list occurrence).

Definition shaped (s : resolver) : Prop := ∀ i x, r_nodes s !! i = Some x → is_Some (n_shape x).

(** What its own select lets a node be written by. *)
Definition own_writable (i : node_id) (x : QueryNode) : outcome bool :=
  if isWhereDriven (n_mode x) then Ok true else identityIsWritable d i x (accum_of d i x).

(** A shape that is the one derived, from the shapes the children have. *)
Definition derived (ns : list QueryNode) (i : node_id) (x : QueryNode) (s : NodeShape) : Prop :=
  if decide (n_mode x = READONLY) then s = MkNodeShape (sh_fields s) [] true
  else ∃ own cs, own_writable i x = Ok own ∧
    Forall2 (λ c cn, ns !! c = Some cn) (n_outgoing x ++ n_incoming x) cs ∧
    s = MkNodeShape (sh_fields s) (extractors order (accum_of d i x)) (own && forallb child_writable cs).

Lemma node_at_ok i s x s' : node_at i s = Ok (x, s') → r_nodes s !! i = Some x ∧ s' = s.
Proof. unfold node_at. intros [H ->]%lift_ok. unfold at_index in H. destruct (r_nodes s !! i); [by injection H as ->|done]. Qed.

Lemma map_node_at_ok cs s xs s' :
  map_m node_at cs s = Ok (xs, s') → s' = s ∧ Forall2 (λ c cn, r_nodes s !! c = Some cn) cs xs.
Proof.
  revert xs s'. induction cs as [|c cs IH]; intros xs s'; cbn [map_m].
  { intros [= <- <-]. split; [done|constructor]. }
  intros (cn & s1 & [Hc ->]%node_at_ok & (ys & s2 & [-> Hys]%IH & H)%M_bind_ok)%M_bind_ok.
  injection H as <- <-. split; [done|by constructor].
Qed.

Lemma selectShape_memo rec i s x sh :
  r_nodes s !! i = Some x → n_shape x = Some sh → selectShape rec i s = Ok (sh_fields sh, s).
Proof. intros Hx Hs. unfold selectShape, node_at, lift, at_index, mbind, M_bind. rewrite Hx. cbn. by rewrite Hs. Qed.

Lemma deriveNodeShape_derived i s x sh s' old :
  r_nodes s !! i = Some x → n_shape x = Some old →
  deriveNodeShape d bl order i s = Ok (sh, s') → s' = s ∧ derived (r_nodes s) i x sh ∧ sh_fields sh = sh_fields old.
Proof.
  intros Hx Hold. unfold deriveNodeShape. intros (f & s1 & Hf & H)%M_bind_ok.
  rewrite (selectShape_memo _ i s x old Hx Hold) in Hf. injection Hf as <- <-.
  apply M_bind_ok in H as (x' & s2 & [Hx' ->]%node_at_ok & H). assert (x' = x) as -> by congruence. unfold derived.
  case_decide; [by injection H as <- <-|].
  apply M_bind_ok in H as (own & s3 & Hown & H).
  assert (own_writable i x = Ok own ∧ s3 = s) as [Ho ->].
  { unfold own_writable. destruct (isWhereDriven (n_mode x)); [by injection Hown as <- <-|by apply lift_ok in Hown]. }
  apply M_bind_ok in H as (cs & s4 & [-> Hcs]%map_node_at_ok & H). injection H as <- <-.
  split; [done|]. split; [|done]. by exists own, cs.
Qed.

Lemma derived_unique ns i x s s' : derived ns i x s → derived ns i x s' → sh_fields s = sh_fields s' → s = s'.
Proof.
  unfold derived. case_decide; [intros -> -> ; cbn; by intros ->|].
  intros (own & cs & Ho & Hcs & ->) (own' & cs' & Ho' & Hcs' & ->). cbn. intros ->.
  assert (own = own') as -> by congruence. assert (cs = cs') as ->; [|done]. clear -Hcs Hcs'.
  revert cs' Hcs'. induction Hcs; intros cs' Hcs'; inversion Hcs'; subst; [done|]. f_equal; [congruence|auto].
Qed.

(** A node whose whole subtree has the shapes derived for it. *)
Inductive good (ns : list QueryNode) : node_id → Prop :=
  | good_intro i x s : ns !! i = Some x → n_shape x = Some s → derived ns i x s →
      (∀ c, c ∈ n_outgoing x ++ n_incoming x → good ns c) → good ns i.

Lemma with_shape_id s x : n_shape x = Some s → with_shape s x = x.
Proof. destruct x. cbn. intros ->. done. Qed.

Lemma lookups_kept (ns ns' : list QueryNode) (l : list node_id) (cs : list QueryNode) :
  Forall2 (λ c cn, ns !! c = Some cn) l cs → (∀ c, c ∈ l → ns' !! c = ns !! c) → Forall2 (λ c cn, ns' !! c = Some cn) l cs.
Proof.
  induction 1 as [|c cn l cs Hc Hl IH]; intros Hk; constructor; [rewrite Hk; [done|by left]|].
  apply IH. intros c' Hc'. apply Hk. by right.
Qed.

Lemma good_kept ns ns' i : (∀ k, good ns k → ns' !! k = ns !! k) → good ns i → good ns' i.
Proof.
  intros Hk. induction 1 as [i x s Hx Hs Hd Hc IH].
  apply (good_intro _ i x s); [by rewrite Hk by (by eapply good_intro)|done| |done].
  unfold derived in *. case_decide; [done|]. destruct Hd as (own & cs & Ho & Hcs & E). exists own, cs.
  split; [done|]. split; [|done]. apply (lookups_kept ns); auto.
Qed.

(** What deriving below a node keeps: the good nodes, and of the others all but
    their shape. *)
Definition derives (s s' : resolver) : Prop :=
  (∀ k x, r_nodes s !! k = Some x → ∃ sh, r_nodes s' !! k = Some (with_shape sh x)) ∧
  (∀ k, good (r_nodes s) k → r_nodes s' !! k = r_nodes s !! k) ∧ length (r_nodes s') = length (r_nodes s).

Lemma derives_refl s : shaped s → derives s s.
Proof. intros Hs. split_and!; [|done..]. intros k x Hx. destruct (Hs k x Hx) as [sh Hsh]. exists sh. by rewrite with_shape_id. Qed.
Lemma derives_trans s1 s2 s3 : derives s1 s2 → derives s2 s3 → derives s1 s3.
Proof.
  intros (K1 & H1 & L1) (K2 & H2 & L2). split_and!; [| |congruence].
  - intros k x Hx. destruct (K1 k x Hx) as [sh Hsh]. destruct (K2 k _ Hsh) as [sh' Hsh']. by exists sh'.
  - intros k Hk. rewrite H2 by (by eapply good_kept). auto.
Qed.
Lemma derives_good s s' k : derives s s' → good (r_nodes s) k → good (r_nodes s') k.
Proof. intros (_ & H & _). by apply good_kept. Qed.
Lemma derives_shaped s s' : derives s s' → shaped s → shaped s'.
Proof.
  intros (K & _ & L) Hs k x Hx. destruct (lookup_lt_is_Some_2 (r_nodes s) k) as [y Hy].
  { rewrite <-L. by eapply lookup_lt_Some. }
  destruct (K k y Hy) as [sh Hsh]. assert (x = with_shape sh y) as -> by congruence. by exists sh.
Qed.

Lemma for_each_derives (f : node_id → resolve unit) cs n s s' :
  (∀ c s s', c ∈ cs → shaped s → f c s = Ok (tt, s') → derives s s' ∧ good (r_nodes s') c) →
  shaped s → for_each (λ _ c, f c) n cs s = Ok (tt, s') →
  derives s s' ∧ ∀ c, c ∈ cs → good (r_nodes s') c.
Proof.
  intros Hf. revert n s. induction cs as [|c cs IH]; intros n s Hs; cbn [for_each].
  { intros [= <-]. split; [by apply derives_refl|]. intros c Hc. by apply not_elem_of_nil in Hc. }
  intros ([] & s1 & H1 & H2)%M_bind_ok. apply Hf in H1 as [D1 G1]; [|by left|done].
  apply IH in H2 as [D2 G2]; [| |by eapply derives_shaped]; [|intros; eapply Hf; eauto; by right].
  split; [by eapply derives_trans|]. intros c' [->|Hc]%elem_of_cons; [by eapply derives_good|auto].
Qed.

Lemma own_writable_shape i sh x : own_writable i (with_shape sh x) = own_writable i x.
Proof. by destruct x. Qed.
Lemma derived_shape ns i sh x s : derived ns i (with_shape sh x) s ↔ derived ns i x s.
Proof. by destruct x. Qed.

Lemma update_node_ok i f s s' : update_node i f s = Ok (tt, s') → r_nodes s' = alter f i (r_nodes s).
Proof. unfold update_node, modify. by intros [= <-]. Qed.

(** Deriving makes the whole subtree of a node good. *)
Lemma deriveShapes_derives fuel : ∀ i s s',
  shaped s → deriveShapes d bl order fuel i s = Ok (tt, s') → derives s s' ∧ good (r_nodes s') i.
Proof.
  induction fuel as [|fuel IH]; intros i s s' Hs; [done|]. cbn [deriveShapes].
  intros (x & s0 & [Hx ->]%node_at_ok & H)%M_bind_ok.
  apply M_bind_ok in H as ([] & s1 & H1 & H). apply for_each_derives in H1 as [D1 G1]; [|by intros; apply IH|done].
  apply M_bind_ok in H as ([] & s2 & H2 & H). apply for_each_derives in H2 as [D2 G2]; [|by intros; apply IH|by eapply derives_shaped].
  apply M_bind_ok in H as (sh & s3 & H3 & H).
  pose proof (derives_trans _ _ _ D1 D2) as D. pose proof (derives_shaped _ _ D Hs) as Hs2.
  destruct (proj1 D i x Hx) as [old Hx2].
  apply (deriveNodeShape_derived i s2 (with_shape old x) sh s3 old) in H3 as (-> & Hd & Hf); [|done|by destruct x].
  apply update_node_ok in H. apply derived_shape in Hd.
  assert (∀ k, good (r_nodes s2) k → r_nodes s' !! k = r_nodes s2 !! k) as Hgood.
  { intros k Hk. rewrite H. destruct (decide (k = i)) as [->|Hne]; [|by rewrite list_lookup_alter_ne].
    rewrite list_lookup_alter_eq, Hx2. cbn. inversion Hk as [? y sy Hy Hsy Hdy _]; subst.
    assert (y = with_shape old x) as -> by congruence. apply derived_shape in Hdy.
    assert (sy = old) as -> by (destruct x; cbn in Hsy; congruence).
    rewrite (derived_unique _ _ _ _ _ Hdy Hd) by done. by destruct x.  }
  assert (derives s s') as D'.
  { eapply derives_trans; [exact D|]. split_and!; [|done|by rewrite H, length_alter].
    intros k y Hy. rewrite H. destruct (decide (k = i)) as [->|Hne].
    - rewrite list_lookup_alter_eq, Hy. cbn. by exists sh.
    - rewrite list_lookup_alter_ne, Hy by done. destruct (Hs2 k y Hy) as [sy Hsy]. exists sy. by rewrite with_shape_id. }
  split; [done|].
  assert (∀ c, c ∈ n_outgoing x ++ n_incoming x → good (r_nodes s2) c) as Hkids.
  { intros c [Hc|Hc]%elem_of_app; [by eapply derives_good, G1|by apply G2]. }
  apply (good_intro _ i (with_shape sh x) sh).
  - rewrite H, list_lookup_alter_eq, Hx2. cbn. by destruct x.
  - by destruct x.
  - apply derived_shape. unfold derived in *. case_decide; [done|].
    destruct Hd as (own & cs & Ho & Hcs & E). exists own, cs. split; [done|]. split; [|done]. clear E.
    apply (lookups_kept (r_nodes s2)); auto.
  - intros c Hc. eapply good_kept; [exact Hgood|]. apply Hkids. by destruct x.
Qed.
End derive.

(** * Properties *)

Inductive reaches (ns : list QueryNode) (i : node_id) : node_id → Prop :=
  | reaches_self : reaches ns i i
  | reaches_child j x c : reaches ns i j → ns !! j = Some x → c ∈ n_outgoing x ++ n_incoming x → reaches ns i c.

Section properties.
Context (d : DbInfos) (bl : Blacklist) (order : list occurrence → list occurrence).

Lemma good_reaches ns i j : good d order ns i → reaches ns i j → good d order ns j.
Proof using Type.
  intros Hi. induction 1 as [|j x c Hj IH Hx Hc]; [done|]. inversion IH as [? y s Hy _ _ Hkids]; subst.
  assert (y = x) as -> by congruence. by apply Hkids.
Qed.


(** The nodes a write touches: no step enters a readonly node. *)
Inductive writes_to (ns : list QueryNode) (i : node_id) : node_id → Prop :=
  | writes_self : writes_to ns i i
  | writes_child j x c y : writes_to ns i j → ns !! j = Some x → c ∈ n_outgoing x ++ n_incoming x →
      ns !! c = Some y → n_mode y ≠ READONLY → writes_to ns i c.

(** The identity of a node's rows can be read from its payload. *)
Definition identified (i : node_id) (x : QueryNode) (s : NodeShape) : Prop :=
  ∃ r, node_relation d x = Some r ∧ IsFunction x = false ∧ identity_cols x r ≠ [] ∧
    ∀ o, o ∈ identity_cols x r → ∃ c cp at_, o = Some c ∧ Key cp = Key (own_path i c) ∧ MkExtractor cp at_ ∈ sh_extractors s.

Lemma once_clean_extractor os key :
  (∀ a, order a ≡ₚ a) → once_clean (record_all os []) key = true →
  ∃ cp at_, Key cp = key ∧ MkExtractor cp at_ ∈ extractors order (record_all os []).
Proof using Type.
  intros Horder. unfold once_clean. rewrite record_all_get.
  destruct (shown_as key os) as [|[[cp at_] b] os'] eqn:E; [done|]. cbn [occurrence_of oc_count oc_clean].
  intros [Hc Hb]%andb_true_iff. apply Nat.eqb_eq in Hc. destruct os'; [|done]. cbn in Hb. rewrite andb_true_r in Hb. subst b.
  assert (Key cp = key) as Hk.
  { assert ((cp, at_, true) ∈ shown_as key os) as H by (rewrite E; by left). by apply list_elem_of_filter in H as [? _]. }
  exists cp, at_. split; [done|]. apply extractors_shown; [done|]. by rewrite Hk.
Qed.

Lemma identityIsWritable_identified i x a :
  (∀ b, order b ≡ₚ b) → a = accum_of d i x → identityIsWritable d i x a = Ok true →
  ∀ s, sh_extractors s = extractors order a → identified i x s.
Proof using Type.
  intros Horder -> H s Hs. unfold identityIsWritable in H. destruct (node_relation d x) as [r|] eqn:Hr; [|done].
  destruct (IsFunction x) eqn:Hf; [done|]. exists r. split_and!; [done..| |].
  { intros E. by rewrite E in H. }
  rewrite Hs. unfold accum_of in *. rewrite walk_shows in *.
  assert (all_once_clean i (record_all (shows d i x (n_select x) [] true) []) (identity_cols x r) = Ok true) as Hall
    by (by destruct (identity_cols x r)).
  clear H. revert Hall. induction (identity_cols x r) as [|[c|] cols IH]; cbn [all_once_clean]; [by intros _ o ?%not_elem_of_nil| |done].
  destruct (once_clean _ _) eqn:Hc; [|done]. intros Hall o [->|Ho]%elem_of_cons; [|by apply IH].
  destruct (once_clean_extractor _ _ Horder Hc) as (cp & at_ & ? & ?). by exists c, cp, at_.
Qed.

End properties.

(** Users written by their id, their name in an object of its own. *)
Definition writing_query : rawRelation :=
  RawRelation "users" "" false "" "" None None None None "upsert" "" None None None None
    (Some (ObjectExpr [("id", Identifier "id" None);
                       ("who", ObjectExpr [("name", CoalesceExpr [Identifier "name" None; StringLiteral "?"])])]))
    false [] [] None None.
Definition run_resolver {A} (m : resolve A) (s : resolver) : resolver := match m s with Ok (_, s) => s | _ => s end.
Definition resolved_query (q : rawRelation) : resolver :=
  let s := run_resolver (resolveQuery blog_infos (MkBlacklist ∅ ∅) 6 q) empty_resolver in
  run_resolver (resolveExpressions blog_infos (MkBlacklist ∅ ∅) (length (r_nodes s)) 0) s.
Definition writing : resolver := resolved_query writing_query.
Definition shaped_writing : resolver := run_resolver (deriveShapes blog_infos (MkBlacklist ∅ ∅) id 1 0) writing.

Lemma shaped_lookup s : forallb (λ x, bool_decide (n_shape x ≠ None)) (r_nodes s) = true → shaped s.
Proof.
  intros H i x Hx. rewrite forallb_forall in H. specialize (H x). rewrite bool_decide_eq_true in H.
  apply list_elem_of_lookup_2, list_elem_of_In in Hx. destruct (n_shape x); [by eexists|by destruct (H Hx)].
Qed.

Definition user_name : Column := default (MkColumn "" 0 "" "" false false false false false false)
  (GetRelation blog_infos 1 ≫= λ r, ColumnsMap (Columns r) !! "name").



