(* ===== verification/Compile.v ===== *)
(** The SQL of a query: [src/query/sql.go] and [src/query/sql_expr.go].

    The compiler writes one statement while it walks the resolved tree: its state
    is the writer, the alias counter, the alias of each node reached so far and
    the plan of shared lateral joins of the node being compiled.  The tree does
    not change.  The definitions are written over [run], which compiles an
    expression, a column path or a node; [compile] ties them with fuel, since the
    code's recursion follows references between nodes and need not end.

    A map of plans is ranged over in an order Go does not fix: [order] stands for
    the order of one run. *)
From Stdlib Require Import ZArith Lia Ascii.
From S2P Require Import Prelude Writer Regexp Catalog Joins Expression Nodes TempTable.
Set Warnings "-register-all".

(** What a statement binds: a [float64]'s bits, a text, an integer, a batch of rows. *)
Inductive bound := BoundFloat (bits : Z) | BoundText (s : string) | BoundInt (i : Z) | BoundRows (b : bytes).

Inductive OutputFormat := FormatJSON | FormatCBOR.
#[global] Instance OutputFormat_eq_dec : EqDecision OutputFormat.
Proof. solve_decision. Defined.

Record aggConsumer := MkAggConsumer { ac_expr : Expression; ac_alias : string }.
Record lateralPlan := MkLateralPlan { lp_alias : string; lp_hasArray : bool; lp_aggs : list aggConsumer }.
Abbreviation plans := (list (node_id * lateralPlan)).

(** The part of [sqlCompiler] that changes. *)
Record sqlCompiler := MkCompiler {
  c_w : SQLWriter bound;
  c_next : nat;
  c_alias : gmap node_id string;
  c_laterals : plans;
}.
Abbreviation C := (M sqlCompiler).

Definition set_w (w : SQLWriter bound) (c : sqlCompiler) : sqlCompiler := MkCompiler w (c_next c) (c_alias c) (c_laterals c).
Definition set_next (n : nat) (c : sqlCompiler) : sqlCompiler := MkCompiler (c_w c) n (c_alias c) (c_laterals c).
Definition set_aliases (m : gmap node_id string) (c : sqlCompiler) : sqlCompiler := MkCompiler (c_w c) (c_next c) m (c_laterals c).
Definition set_laterals (l : plans) (c : sqlCompiler) : sqlCompiler := MkCompiler (c_w c) (c_next c) (c_alias c) l.

Definition newSQLCompiler : sqlCompiler := MkCompiler NewSQL 0 ∅ [].

(** ** The writer *)

Definition write (s : string) : C unit := modify (λ c, set_w (Write s (c_w c)) c).
Definition write_id (s : string) : C unit := modify (λ c, set_w (Id s (c_w c)) c).
Definition bind (v : bound) : C unit := modify (λ c, set_w (Bind v (c_w c)) c).
Definition bind_param (name : string) : C unit := modify (λ c, set_w (BindParam name (c_w c)) c).
Definition indent : C unit := modify (λ c, set_w (Indent (c_w c)) c).
Definition unindent : C unit := c ← get; w ← lift (Unindent (c_w c)); put (set_w w c).

Definition Indented (fn : C unit) : C unit := _ ← indent; _ ← fn; unindent.
Definition Surround (start end_ : string) (fn : C unit) : C unit := _ ← write start; _ ← fn; write end_.
Definition Paren (fn : C unit) : C unit := Surround "(" ")" fn.
Definition List_ {A} (sep : string) (items : list A) (fn : A → C unit) : C unit :=
  for_each (λ i a, _ ← (if Nat.ltb 0 i then write sep else mret tt); fn a) 0 items.
Definition SurroundList {A} (start sep end_ : string) (items : list A) (fn : A → C unit) : C unit :=
  _ ← write start; _ ← Indented (List_ sep items fn); write end_.

Definition error_ {A} (msg : string) : C A := lift (errorf msg).
Definition errNoAlias {A} : C A := error_ "sql: no alias assigned for node — compiled out of order".

Definition allocAlias : C string :=
  c ← get;
  let n := S (c_next c) in
  _ ← put (set_next n c);
  mret ("t" +:+ dec_nat (Z.of_nat n)).

Definition set_alias (n : node_id) (a : string) : C unit := modify (λ c, set_aliases (<[n := a]> (c_alias c)) c).

(** [c.alias[n]], or the error; a nil node has none. *)
Definition alias_of (n : option node_id) : C string :=
  c ← get;
  match n ≫= (c_alias c !!.) with
  | Some a => mret a
  | None => errNoAlias
  end.

Definition qualify (alias name : string) : C unit := _ ← write alias; _ ← write "."; write_id name.

(** [writeQualifiedPathN] from the last column; an empty path recurses without end. *)
Fixpoint writeQualifiedPathN (alias : string) (rev_path : list Column) : C unit :=
  match rev_path with
  | [] => lift OutOfFuel
  | [c] => qualify alias (col_name c)
  | c :: path => _ ← Paren (writeQualifiedPathN alias path); _ ← write "."; write_id (col_name c)
  end.
Definition WriteQualifiedPath (alias : string) (path : list Column) : C unit := writeQualifiedPathN alias (rev path).

(** [m] visited by its sorted keys. *)
Definition sorted_fields {A} (m : list (string * A)) : list (string * A) :=
  omap (M := list) (λ k, (λ a, (k, a)) <$> map_get k m) (sort_strings (map fst m)).

(** ** Expressions looked into *)

Definition bareResolvedField (e : Expression) : option ResolvedField :=
  match e with
  | Identifier _ r => r
  | ColExpr _ _ _ r _ => r
  | _ => None
  end.

Fixpoint rootQueryNodeOf (e : Expression) : option node_id :=
  match bareResolvedField e with
  | Some (RQueryNode n) => Some n
  | Some _ => None
  | None =>
      match e with
      | FoldedExpr op l _ => if String.eqb op FoldDot then rootQueryNodeOf l else None
      | _ => None
      end
  end.

(** The first result of a function over a list. *)
Fixpoint first_some {A B} (f : A → option B) (l : list A) : option B :=
  match l with
  | [] => None
  | a :: l => match f a with Some b => Some b | None => first_some f l end
  end.

Definition or_else {A} (a b : option A) : option A := match a with Some _ => a | None => b end.

Fixpoint childReferencedBy (e : Expression) : option node_id :=
  let all := first_some childReferencedBy in
  match rootQueryNodeOf e with
  | Some n => Some n
  | None =>
      match e with
      | UnaryExpr _ e => childReferencedBy e
      | BinaryExpr _ l r => or_else (childReferencedBy l) (childReferencedBy r)
      | FoldedExpr _ l r => or_else (childReferencedBy l) (childReferencedBy r)
      | BetweenExpr _ a b c => or_else (childReferencedBy a) (or_else (childReferencedBy b) (childReferencedBy c))
      | InExpr _ s cs => or_else (childReferencedBy s) (all cs)
      | CoalesceExpr es => all es
      | CallExpr _ es _ => all es
      | _ => None
      end
  end.

Definition aggTargetChild (arguments : list Expression) : option node_id := first_some childReferencedBy arguments.

(** The aggregates of an expression, in the order [walkAggs] calls [fn] on them. *)
Fixpoint walkAggs (e : Expression) : list Expression :=
  let all es := concat (map walkAggs es) in
  let opt o := match o with Some e => walkAggs e | None => [] end in
  let fields m := concat (map (λ kv : string * Expression, walkAggs kv.2) m) in
  match e with
  | AggExpr _ _ args f _ _ _ => e :: all args ++ opt f
  | CallExpr _ es _ | CoalesceExpr es | FormatExpr _ es | ArrExpr es | LstExpr es => all es
  | FoldedExpr _ l r | BinaryExpr _ l r | AnyAllExpr _ _ l r | IndexExpr l r => walkAggs l ++ walkAggs r
  | UnaryExpr _ e => walkAggs e
  | BetweenExpr _ a b c | SliceExpr a b c => walkAggs a ++ walkAggs b ++ walkAggs c
  | InExpr _ e es | ConcatWsExpr e es => walkAggs e ++ all es
  | ObjectExpr m | StarExpr _ _ m => fields m
  | ColExpr _ dget dset _ _ => opt dget ++ opt dset
  | GetExpr _ def _ | SetExpr _ def _ => opt def
  | _ => []
  end.

Definition isShapeProducingSelect (sel : Expression) : bool :=
  match sel with StarExpr _ _ _ | ObjectExpr _ | GetExpr _ _ _ => true | _ => false end.

(** [validCastTypeName] *)
Definition is_upper (c : Ascii.ascii) : bool := (65 <=? char_code c) && (char_code c <=? 90).
Definition word_start (c : Ascii.ascii) : bool := is_upper c || is_lower c || is_underscore c.
Definition word_char (c : Ascii.ascii) : bool := word_start c || is_digit c.
Definition is_space (c : Ascii.ascii) : bool := bool_decide (char_code c ∈ [9; 10; 12; 13; 32]).
Definition validCastTypeName : regexp :=
  let word := RSeq (RChar word_start) (RStar (RChar word_char)) in
  let spaces := RStar (RChar is_space) in
  let digits := RPlus (RChar is_digit) in
  RSeq word (RSeq (RStar (RSeq (RPlus (RChar is_space)) word))
    (RSeq (ROpt (RSeq (RLit "(") (RSeq spaces (RSeq digits
             (RSeq (ROpt (RSeq spaces (RSeq (RLit ",") (RSeq spaces digits)))) (RSeq spaces (RLit ")")))))))
          (RStar (RSeq spaces (RSeq (RLit "[") (RSeq spaces (RLit "]"))))))).

Definition castTypeName (e : Expression) : outcome string :=
  name ← match e with
         | Identifier name _ => Ok name
         | StringLiteral s => Ok s
         | _ => errorf "sql: unsupported cast target %T — expected a bare type name"
         end;
  if MatchString validCastTypeName name then Ok name else errorf "sql: invalid cast type name %q".

Definition foldOpTextOverrides : list (string * string) := [
  ("and", " and "); ("or", " or "); ("is_distinct_from", " is distinct from ");
  ("is_not_distinct_from", " is not distinct from ") ].

(** The text before an operand, and the text after one. *)
Definition prefix_operators : list (string * string) := [
  ("-", "-"); ("not", "not "); ("~", "~"); ("|/", "|/"); ("||/", "||/") ].
Definition postfix_operators : list (string * string) := [
  ("is_null", " is null"); ("is_true", " is true"); ("is_false", " is false");
  ("is_not_null", " is not null"); ("is_not_true", " is not true"); ("is_not_false", " is not false") ].

Definition oidChar : Z := 18.
Definition oidOid : Z := 26.
Definition nativeScalars : list Z := [
  oidBool; oidBytea; oidChar; oidName; oidInt8; oidInt2; oidInt4; oidText; oidOid; oidJSON; oidFloat4; oidFloat8;
  oidBpchar; oidVarchar; oidDate; oidTimestamp; oidTimestamptz; oidNumeric; oidUUID; oidJSONB ].

(** [nativeCBORTypeDepth] by the depths that remain: past 16 it is false. *)
Fixpoint native_depth (rest : nat) (d : DbInfos) (t : Z) : outcome bool :=
  u ← Underlying (domain_fuel d) d t;
  match TypeMapByOid d !! u, rest with
  | None, _ | _, O => Ok false
  | Some ty, S rest =>
      if bool_decide (u ∈ nativeScalars) || IsEnum ty then Ok true
      else if IsArray d u then
        match ty_elem ty with Some e => native_depth rest d e | None => Ok false end
      else
        match composite_of d ty with
        | Some r => all_ok (λ c, native_depth rest d (col_type c)) (Columns r)
        | None => Ok false
        end
  end.
Definition nativeCBORType (d : DbInfos) (t : Z) : outcome bool := native_depth 17 d t.

(** One entry of a select list: a column, a child, or a computed field. *)
Inductive selectField := SFColumn (key : string) (c : Column) | SFEmbed (key : string) (child : node_id)
  | SFExpr (key : string) (e : Expression).
Definition sf_key (f : selectField) : string :=
  match f with SFColumn k _ | SFEmbed k _ | SFExpr k _ => k end.

(** [embedChildOf] *)
Definition embedChildOf (f : selectField) : option node_id :=
  match f with
  | SFEmbed _ c => Some c
  | SFExpr _ e => match bareResolvedField e with Some (RQueryNode c) => Some c | _ => None end
  | SFColumn _ _ => None
  end.

(** What the constructors of a statement set: its mode, where its root reads
    from, its format, and the rows a write touched. *)
Record dataScope := MkScope { ds_root : node_id; ds_node_id : Z; ds_alias : string; ds_table : tempTable }.
Record settings := MkSettings {
  countMode : bool;
  fromCTE : string;
  orderByRowID : bool;
  format : OutputFormat;
  data_scope : option dataScope;
}.

Definition is_scoped (cfg : settings) (n : node_id) : option dataScope :=
  match data_scope cfg with
  | Some s => if decide (ds_root s = n) then Some s else None
  | None => None
  end.

(** What [compile] is called on: [compileExpr], [compileColumnPath] and
    [compileNodeCorrelated]. *)
Inductive job :=
  | JExpr (e : Expression) (n : option node_id)
  | JPath (node : node_id) (path : list Column) (n : option node_id)
  | JNode (node : node_id) (alias onParentAlias : string).

Section compiler.
Context (d : DbInfos) (Sanitize : string → string) (ns : list QueryNode) (cfg : settings).
Context (order : list node_id → list node_id).

Definition c_node (i : node_id) : C QueryNode := lift (at_index ns i).

Definition wrapNodeAsValue (x : QueryNode) (inner : string) : string :=
  if isShapeProducingSelect (n_select x)
  then if decide (format cfg = FormatCBOR) then inner else "row_to_json(" +:+ inner +:+ ")"
  else inner +:+ ".__scalar".
Definition aggregateRows (wrapped : string) : string :=
  (if decide (format cfg = FormatCBOR) then "array_agg(" else "json_agg(") +:+ wrapped +:+ ")".
Definition emptyRows : string := if decide (format cfg = FormatCBOR) then "'{}'" else "'[]'::json".

(** The children as fields, outgoing first. *)
Definition alias_fields (x : QueryNode) : C (list selectField) :=
  map_m (λ c, y ← c_node c; mret (SFEmbed (n_outer y) c)) (n_outgoing x ++ n_incoming x).
Definition own_fields (x : QueryNode) (except : list string) : list selectField :=
  match node_relation d x with
  | None => []
  | Some r => map (λ c, SFColumn (col_name c) c) (filter (λ c, col_name c ∉ except) (Columns r))
  end.
Definition and_fields (m : list (string * Expression)) : list selectField :=
  map (λ kv, SFExpr kv.1 kv.2) (sorted_fields m).

(** [selectFieldsFor] a node whose select is [sel]. *)
Definition selectFieldsFor (x : QueryNode) (sel : Expression) : C (list selectField) :=
  match sel with
  | StarExpr own except and =>
      aliases ← (if own : bool then mret [] else alias_fields x);
      mret (own_fields x except ++ aliases ++ and_fields and)
  | ObjectExpr fields => mret (and_fields fields)
  | GetExpr _ _ (Some c) => mret [SFExpr (col_name c) sel]
  | GetExpr _ _ None => lift Panic
  | _ => mret []
  end.

(** [isOutgoingOf]; a nil parent is read through. *)
Definition isOutgoingOf (parent : option node_id) (child : node_id) : C bool :=
  match parent with
  | None => lift Panic
  | Some p => x ← c_node p; mret (bool_decide (child ∈ n_outgoing x))
  end.

(** ** Lateral plans *)

Definition plan_for (child : node_id) (f : lateralPlan → lateralPlan) (m : plans) : plans :=
  (fix go m :=
     match m with
     | [] => [(child, f (MkLateralPlan "" false []))]
     | (c, p) :: m => if decide (c = child) then (c, f p) :: m else (c, p) :: go m
     end) m.
Definition plan_of (m : plans) (child : node_id) : option lateralPlan :=
  snd <$> find (λ cp, bool_decide (cp.1 = child)) m.

Definition set_hasArray (p : lateralPlan) : lateralPlan := MkLateralPlan (lp_alias p) true (lp_aggs p).
Definition add_agg (e : Expression) (p : lateralPlan) : lateralPlan :=
  MkLateralPlan (lp_alias p) (lp_hasArray p) (lp_aggs p ++ [MkAggConsumer e ""]).

(** The children consumed as arrays, then by aggregates. *)
Definition count_arrays (x : QueryNode) (m : plans) : plans :=
  match n_shape x with
  | None => m
  | Some sh =>
      foldl (λ m f, match f.2 with
                    | Some (RQueryNode c) => if decide (c ∈ n_incoming x) then plan_for c set_hasArray m else m
                    | _ => m
                    end) m (sh_fields sh)
  end.
Definition agg_arguments (e : Expression) : list Expression :=
  match e with AggExpr _ _ args _ _ _ _ => args | _ => [] end.
Definition count_aggs (x : QueryNode) (m : plans) : plans :=
  foldl (λ m e, match aggTargetChild (agg_arguments e) with
                | Some c => if decide (c ∈ n_incoming x) then plan_for c (add_agg e) m else m
                | None => m
                end) m (walkAggs (n_select x)).

Definition consumption (p : lateralPlan) : nat := (length (lp_aggs p) + if lp_hasArray p then 1 else 0)%nat.
Definition number_aggs (p : lateralPlan) (alias : string) : lateralPlan :=
  MkLateralPlan alias (lp_hasArray p)
    (imap (λ i a, MkAggConsumer (ac_expr a) ("agg" +:+ dec_nat (Z.of_nat (S i)))) (lp_aggs p)).

(** The plans of the children consumed more than once, each with an alias. *)
Fixpoint shared_plans (m : plans) (children : list node_id) : C plans :=
  match children with
  | [] => mret []
  | c :: children =>
      match plan_of m c with
      | Some p =>
          if Nat.leb (consumption p) 1 then shared_plans m children
          else
            a ← allocAlias;
            rest ← shared_plans m children;
            mret ((c, number_aggs p a) :: rest)
      | None => shared_plans m children
      end
  end.

Definition analyzeLaterals (x : QueryNode) : C plans :=
  match n_incoming x with
  | [] => mret []
  | _ =>
      let m := count_aggs x (count_arrays x []) in
      shared_plans m (order (map fst m))
  end.

Definition agg_address (e : Expression) : option nat := match e with AggExpr a _ _ _ _ _ _ => Some a | _ => None end.
Definition shared_agg (p : lateralPlan) (address : nat) : option aggConsumer :=
  find (λ a, bool_decide (agg_address (ac_expr a) = Some address)) (lp_aggs p).

Section body.
Variable run : job → C unit.
Implicit Types (e : Expression) (n : option node_id).

Definition compileExpr e n : C unit := run (JExpr e n).

(** ** Operators *)

(** Parenthesized when it is a binary or folded expression, never otherwise. *)
Definition compileOperand e n : C unit :=
  match e with
  | BinaryExpr _ _ _ | FoldedExpr _ _ _ => Paren (compileExpr e n)
  | _ => compileExpr e n
  end.

Definition compileArgList (args : list Expression) n : C unit :=
  SurroundList "(" ", " ")" args (λ a, compileExpr a n).

Definition compileUnary (op : string) e n : C unit :=
  match map_get op prefix_operators with
  | Some text => _ ← write text; compileOperand e n
  | None =>
      match map_get op postfix_operators with
      | Some text => _ ← compileOperand e n; write text
      | None => error_ "sql: unknown unary operator %q"
      end
  end.

Definition compileBinary (op : string) l r n : C unit :=
  if String.eqb op BinaryCast then
    _ ← compileOperand l n;
    t ← lift (castTypeName r);
    _ ← write "::"; write t
  else
    _ ← compileOperand l n;
    _ ← write " "; _ ← write op; _ ← write " ";
    compileOperand r n.

Definition compileIn (negate : bool) subject (candidates : list Expression) n : C unit :=
  _ ← compileOperand subject n;
  _ ← write (if negate then " not in " else " in ");
  Paren (List_ ", " candidates (λ c, compileExpr c n)).

(** The type of a column the expression names. *)
Definition subjectPgType e : option Z :=
  match bareResolvedField e with
  | Some (RColumnPath _ path elem) => CurrentType path elem
  | _ => None
  end.

Definition compileAnyAll (all : bool) (op : string) subject array n : C unit :=
  _ ← compileOperand subject n;
  _ ← match map_get op foldOpTextOverrides with
      | Some text => write (String.substring 0 (String.length text - 1) text)
      | None => _ ← write " "; write op
      end;
  _ ← write (if all then " all" else " any");
  Paren (
    _ ← compileExpr array n;
    match array with
    | ArrExpr _ | LstExpr _ =>
        match subjectPgType subject with
        | Some t => name ← lift (type_name d t); _ ← write "::"; _ ← write name; write "[]"
        | None => mret tt
        end
    | _ => mret tt
    end).

Definition compileArray (items : list Expression) n : C unit :=
  _ ← write "array"; Surround "[" "]" (List_ ", " items (λ i, compileExpr i n)).

Definition compileSlice array (bounds : list Expression) n : C unit :=
  _ ← compileOperand array n; _ ← write "["; _ ← List_ ":" bounds (λ i, compileExpr i n); write "]".

(** ** Function calls *)

(** Named arguments by name, unquoted, or positional ones. *)
Definition compileFunctionArgs (positional : list Expression) (named : option (list (string * Expression))) scope : C unit :=
  match named with
  | Some m => Paren (List_ ", " (sorted_fields m) (λ kv, _ ← write kv.1; _ ← write " => "; compileExpr kv.2 scope))
  | None => compileArgList positional scope
  end.
Definition compileFunctionCall (fn : Function_) positional named scope : C unit :=
  _ ← write (EscapedString (fn_ident fn)); compileFunctionArgs positional named scope.

Definition compileOrderTerms (terms : list OrderByTerm) n : C unit :=
  List_ ", " terms (λ t,
    _ ← compileExpr t.1 n;
    match t.2 with
    | OrderAsc => mret tt
    | OrderDesc => write " desc nulls last"
    | OrderAscNullsFirst => write " asc nulls first"
    | OrderDescNullsLast => write " desc nulls last"
    end).

(** ** References to rows *)

Definition compileFrom (node : node_id) (alias : string) : C unit :=
  x ← c_node node;
  match n_function x with
  | Some fn =>
      _ ← write (EscapedString (fn_ident fn));
      _ ← compileFunctionArgs (n_args x) (n_named x) (n_parent x);
      _ ← write " "; write alias
  | None =>
      match node_relation d x with
      | None => error_ "sql: node has no relation to select from"
      | Some r =>
          if negb (String.eqb (fromCTE cfg) "") && bool_decide (n_parent x = None)
          then _ ← write (fromCTE cfg); _ ← write " "; write alias
          else
            _ ← write (EscapedString (rel_ident r)); _ ← write " "; _ ← write alias;
            match is_scoped cfg node with
            | None => mret tt
            | Some s =>
                let t := ds_table s in
                _ ← write " inner join "; _ ← write (qualifiedGeneral Sanitize t); _ ← write " ";
                _ ← write (ds_alias s); _ ← write " on "; _ ← write (nodeIDRef Sanitize t (ds_alias s));
                _ ← write " = "; _ ← write (dec_int (ds_node_id s)); _ ← write " and ";
                _ ← write (parentIDRef Sanitize t (ds_alias s)); write " is null"
            end
      end
  end.

(** [compileScalarHopWhere] *)
Definition compileScalarHopWhere (child : node_id) (alias : string) n : C unit :=
  x ← c_node child;
  match n_join x with
  | [] => error_ "sql: %q has no join columns to correlate a hop by — compiled out of order"
  | join =>
      _ ← write " where ";
      _ ← List_ " and " join (λ jc,
        _ ← qualify alias (col_name jc.1);
        _ ← write " = ";
        match n_parent x with Some p => run (JPath p [jc.2] n) | None => lift Panic end);
      match n_where x with
      | Some w => _ ← write " and "; compileOperand w (Some child)
      | None => mret tt
      end
  end.

(** A subquery of one value of a to-one child, correlated with the scope [n]:
    [compileScalarHop], [compileScalarHopComputed] and [compileChildRowValue],
    which differ in what they select. *)
Definition scalar_hop (child : node_id) n (select : string → C unit) : C unit :=
  x ← c_node child;
  to_one ← isOutgoingOf (n_parent x) child;
  if negb to_one then error_ "sql: %q is a to-many relation"
  else
    alias ← allocAlias;
    Paren (
      _ ← write "select "; _ ← select alias; _ ← write " from ";
      _ ← compileFrom child alias; compileScalarHopWhere child alias n).

Definition compileScalarHop (child : node_id) (path : list Column) n : C unit :=
  scalar_hop child n (λ alias, WriteQualifiedPath alias path).
Definition compileScalarHopComputed (child : node_id) (fn : Function_) n : C unit :=
  scalar_hop child n (λ alias, _ ← write (EscapedString (fn_ident fn)); Paren (write alias)).
Definition compileChildRowValue (child : node_id) n : C unit :=
  scalar_hop child n write.

Definition compileColumnPath (node : node_id) (path : list Column) n : C unit :=
  if decide (Some node = n) then alias ← alias_of n; WriteQualifiedPath alias path
  else compileScalarHop node path n.

Definition compileComputedFieldRef (node : node_id) (fn : Function_) n : C unit :=
  if decide (Some node = n) then
    alias ← alias_of n;
    _ ← write (EscapedString (fn_ident fn)); Paren (write alias)
  else compileScalarHopComputed node fn n.

Definition compileResolvedField (r : option ResolvedField) n : C unit :=
  match r with
  | Some (RColumnPath node path _) => run (JPath node path n)
  | Some (RQueryNode c) => if decide (Some c = n) then alias ← alias_of n; write alias else compileChildRowValue c n
  | Some (RShape _) => error_ "sql: a literal-object landing reached as a bare expression value is not yet supported"
  | Some (RComputed node fn) => compileComputedFieldRef node fn n
  | None => error_ "sql: identifier resolved to nothing (opaque), cannot compile as a value"
  end.

Definition compileFolded (op : string) l r n : C unit :=
  if String.eqb op FoldDot then
    match r with
    | Identifier _ resolved => compileResolvedField resolved n
    | _ => error_ "sql: hop's right side is not an identifier (%T)"
    end
  else if String.eqb op "??" then _ ← write "coalesce"; compileArgList [l; r] n
  else if String.eqb op "||?" then _ ← write "concat"; compileArgList [l; r] n
  else
    _ ← compileOperand l n;
    _ ← write (default (" " +:+ op +:+ " ") (map_get op foldOpTextOverrides));
    compileOperand r n.

Definition compileColumnRead (col : option Column) n (def : option Expression) : C unit :=
  match col with
  | None => error_ "sql: get/get-set has no resolved column"
  | Some c =>
      alias ← alias_of n;
      match def with
      | None => qualify alias (col_name c)
      | Some def =>
          _ ← write "coalesce";
          Paren (
            _ ← qualify alias (col_name c); _ ← write ", ";
            match def with
            | DefaultKeyword =>
                if String.eqb (DefaultExpression c) "" then error_ "sql: default keyword used on column %q, which has no DB-level default"
                else write (DefaultExpression c)
            | _ => compileExpr def n
            end)
      end
  end.

(** ** Aggregates *)

(** A bare reference to the aggregated relation is its row. *)
Definition compileAggArgument (target : node_id) (alias : string) e : C unit :=
  match bareResolvedField e with
  | Some (RQueryNode c) => if decide (c = target) then _ ← write alias; write ".*" else compileExpr e (Some target)
  | _ => compileExpr e (Some target)
  end.

Definition compileAggFunctionCall e (target : node_id) (alias : string) : C unit :=
  match e with
  | AggExpr _ _ args filter distinct order_by (Some fn) =>
      _ ← write (EscapedString (fn_ident fn));
      _ ← write "(";
      _ ← (if distinct : bool then write "distinct " else mret tt);
      _ ← List_ ", " args (compileAggArgument target alias);
      _ ← match order_by with
          | [] => mret tt
          | _ => _ ← write " order by "; compileOrderTerms order_by (Some target)
          end;
      _ ← write ")";
      match filter with
      | Some f => _ ← write " filter "; Paren (_ ← write "where "; compileExpr f (Some target))
      | None => mret tt
      end
  | _ => lift Panic
  end.

Definition compileAgg e n : C unit :=
  match e with
  | AggExpr address _ args _ _ _ resolved =>
      match resolved with
      | None => error_ "sql: agg %q has no resolved function"
      | Some _ =>
          match aggTargetChild args with
          | None => error_ "sql: agg %q's argument doesn't reference an incoming relation"
          | Some target =>
              c ← get;
              match plan_of (c_laterals c) target with
              | Some plan =>
                  match shared_agg plan address with
                  | Some a => _ ← write (lp_alias plan); _ ← write "."; write (ac_alias a)
                  | None => error_ "sql: internal error : agg not found in its own node's LATERAL plan"
                  end
              | None =>
                  parentAlias ← alias_of n;
                  childAlias ← allocAlias;
                  _ ← set_alias target childAlias;
                  Paren (
                    _ ← write "select "; _ ← compileAggFunctionCall e target childAlias;
                    _ ← write (" from (" +:+ newline);
                    _ ← Indented (run (JNode target childAlias parentAlias));
                    _ ← write (newline +:+ ") "); write childAlias)
              end
          end
      end
  | _ => lift Panic
  end.

(** ** Select fields *)

Definition is_scalar_function (x : QueryNode) : option Function_ :=
  match n_function x, n_relation x with
  | Some fn, None => if ReturnsSet fn then None else Some fn
  | _, _ => None
  end.

Definition compileEmbedField (child parent : node_id) (parentAlias : string) : C unit :=
  c ← get;
  match plan_of (c_laterals c) child with
  | Some plan => _ ← write (lp_alias plan); write ".arr"
  | None =>
      x ← c_node child;
      match is_scalar_function x with
      | Some fn => Paren (_ ← write "select "; compileFunctionCall fn (n_args x) (n_named x) (Some parent))
      | None =>
          to_one ← isOutgoingOf (Some parent) child;
          childAlias ← allocAlias;
          let row := wrapNodeAsValue x childAlias in
          Paren (
            _ ← write "select ";
            _ ← (if to_one : bool then write row
                 else _ ← write "coalesce("; _ ← write (aggregateRows row); _ ← write ", "; _ ← write emptyRows; write ")");
            _ ← write (" from (" +:+ newline);
            _ ← Indented (run (JNode child childAlias parentAlias));
            _ ← write (newline +:+ ") "); write childAlias)
      end
  end.

Definition compileSelectField (node : node_id) (alias : string) (f : selectField) : C unit :=
  match f with
  | SFColumn _ c =>
      native ← (if decide (format cfg = FormatCBOR) then lift (nativeCBORType d (col_type c)) else mret true);
      if native : bool then qualify alias (col_name c)
      else _ ← write "to_jsonb("; _ ← qualify alias (col_name c); write ")"
  | SFExpr _ e =>
      match embedChildOf f with
      | Some child => compileEmbedField child node alias
      | None => compileExpr e (Some node)
      end
  | SFEmbed _ child => compileEmbedField child node alias
  end.

(** [jsonb_build_object] of keys and values. *)
Definition build_object {A} (key : A → string) (fields : list A) (value : A → C unit) : C unit :=
  _ ← write "jsonb_build_object";
  Paren (List_ ", " fields (λ f, _ ← bind (BoundText (key f)); _ ← write "::text, "; value f)).

Definition compileObjectLiteral (fields : list (string * Expression)) n : C unit :=
  build_object fst (sorted_fields fields) (λ kv, compileExpr kv.2 n).

(** [own] and [full] as a value; [selectFieldsFor] reads the node. *)
Definition compileShapeAsJsonObject e n : C unit :=
  match n with
  | None => lift Panic
  | Some i =>
      x ← c_node i;
      fields ← selectFieldsFor x e;
      build_object sf_key fields (λ f, alias ← alias_of n; compileSelectField i alias f)
  end.

(** ** [compileExpr] *)

Definition compileExpr_body e n : C unit :=
  match e with
  | NullLiteral => write "null"
  | BoolLiteral b => write (if b then "true" else "false")
  | NumberLiteral z => bind (BoundFloat z)
  | StringLiteral s => bind (BoundText s)
  | BigIntLiteral s => _ ← bind (BoundText s); write "::bigint"
  | NumericLiteral s => _ ← bind (BoundText s); write "::numeric"
  | DefaultKeyword => error_ "sql: DefaultKeyword reached outside a get/col default position"
  | Identifier _ r => compileResolvedField r n
  | UnaryExpr op e => compileUnary op e n
  | BinaryExpr op l r => compileBinary op l r n
  | FoldedExpr op l r => compileFolded op l r n
  | BetweenExpr negate min e max =>
      _ ← compileOperand e n;
      _ ← write (if negate then " not between " else " between ");
      _ ← compileOperand min n; _ ← write " and "; compileOperand max n
  | InExpr negate subject candidates => compileIn negate subject candidates n
  | AnyAllExpr all op subject array => compileAnyAll all op subject array n
  | ConcatWsExpr separator args => _ ← write "concat_ws"; compileArgList (separator :: args) n
  | CoalesceExpr args => _ ← write "coalesce"; compileArgList args n
  | FormatExpr f args => _ ← write "format"; compileArgList (StringLiteral f :: args) n
  | AggExpr _ _ _ _ _ _ _ => compileAgg e n
  | CallExpr _ args resolved =>
      match resolved with
      | None => error_ "sql: call to %q has no resolved function"
      | Some fn => _ ← write (EscapedString (fn_ident fn)); compileArgList args n
      end
  | ObjectExpr fields => compileObjectLiteral fields n
  | StarExpr _ _ _ => compileShapeAsJsonObject e n
  | ArrExpr items | LstExpr items => compileArray items n
  | IndexExpr array index => compileSlice array [index] n
  | SliceExpr array from to => compileSlice array [from; to] n
  | ColExpr _ dget dset r c =>
      match dget, dset with
      | None, None => compileResolvedField r n
      | _, _ => compileColumnRead c n dget
      end
  | GetExpr _ def c => compileColumnRead c n def
  | SetExpr _ _ _ => write "null"
  | ParamExpr name cast =>
      _ ← bind_param name; _ ← write "::"; write (if String.eqb cast "" then "jsonb" else cast)
  end.

(** ** Nodes *)

Definition compileLateralJoin (child : node_id) (parentAlias : string) (plan : lateralPlan) : C unit :=
  childAlias ← allocAlias;
  _ ← set_alias child childAlias;
  x ← c_node child;
  _ ← write (" left join lateral (" +:+ newline);
  _ ← Indented (
    _ ← write "select ";
    _ ← (if lp_hasArray plan
         then _ ← write (aggregateRows (wrapNodeAsValue x childAlias)); write " as arr" else mret tt);
    _ ← for_each (λ i a,
           _ ← (if lp_hasArray plan || Nat.ltb 0 i then write ", " else mret tt);
           _ ← compileAggFunctionCall (ac_expr a) child childAlias;
           _ ← write " as "; write (ac_alias a)) 0 (lp_aggs plan);
    _ ← write (" from (" +:+ newline);
    _ ← Indented (run (JNode child childAlias parentAlias));
    _ ← write (newline +:+ ") "); write childAlias);
  _ ← write (newline +:+ ") "); _ ← write (lp_alias plan); write " on true".

(** The columns of a constraint; every caller reads them, and a nil one panics. *)
Fixpoint constraint_columns (r : Relation) (names : list (option string)) : outcome (list Column) :=
  match names with
  | [] => Ok []
  | c :: names =>
      c ← of_option Panic (c ≫= λ name, ColumnsMap (Columns r) !! name);
      cs ← constraint_columns r names;
      Ok (c :: cs)
  end.

(** [identityColumns]: the conflict target's columns, or the primary key's. *)
Definition identityColumns (x : QueryNode) : outcome (list Column) :=
  match node_relation d x with
  | None => Panic
  | Some r =>
      match n_conflict_columns x with
      | [] => match PrimaryKey r with None => Ok [] | Some k => constraint_columns r (con_columns k) end
      | names => Ok (omap (M := list) (λ name, ColumnsMap (Columns r) !! name) names)
      end
  end.

(** The conditions of a [where] are joined with [and]. *)
Definition compileWhere (node : node_id) (alias onParentAlias : string) : C unit :=
  x ← c_node node;
  let scope := is_scoped cfg node in
  let hasOn := negb (String.eqb onParentAlias "") && negb (Nat.eqb (length (n_join x)) 0) in
  if negb hasOn && bool_decide (scope = None) && bool_decide (n_where x = None) then mret tt
  else
    _ ← write " where ";
    _ ← (if hasOn
         then List_ " and " (n_join x) (λ jc,
                _ ← qualify alias (col_name jc.1); _ ← write " = "; qualify onParentAlias (col_name jc.2))
         else mret tt);
    _ ← match scope with
        | None => mret tt
        | Some s =>
            _ ← (if hasOn then write " and " else mret tt);
            cols ← lift (identityColumns x);
            match cols with
            | [] => error_ "sql: has no identity (on_conflict or primary key) column set to scope the reread by"
            | _ =>
                List_ " and " cols (λ c,
                  _ ← qualify alias (col_name c); _ ← write " = ";
                  ref ← lift (colRef d Sanitize (ds_table s) (ds_alias s) c); write ref)
            end
        end;
    match n_where x with
    | None => mret tt
    | Some w =>
        _ ← (if hasOn || bool_decide (is_Some scope) then write " and " else mret tt);
        compileOperand w (Some node)
    end.

Definition compileOrderBy (node : node_id) : C unit :=
  x ← c_node node;
  match n_order_by x with
  | [] =>
      _ ← match is_scoped cfg node with
          | Some s => _ ← write " order by "; write (rowIDRef Sanitize (ds_table s) (ds_alias s))
          | None => mret tt
          end;
      if orderByRowID cfg && bool_decide (n_parent x = None)
      then c ← get; _ ← write " order by "; _ ← write (default "" (c_alias c !! node)); write ".__row_id"
      else mret tt
  | terms => _ ← write " order by "; compileOrderTerms terms (Some node)
  end.

Definition compileLimitOffset (x : QueryNode) : C unit :=
  _ ← match n_limit x with Some l => _ ← write " limit "; bind (BoundInt l) | None => mret tt end;
  match n_offset x with Some o => _ ← write " offset "; bind (BoundInt o) | None => mret tt end.

Definition compile_select_list (node : node_id) (x : QueryNode) (alias : string) : C unit :=
  _ ← (if n_distinct x then write "distinct "
       else match n_distinct_on x with
            | [] => mret tt
            | es => _ ← write "distinct on "; _ ← compileArgList es (Some node); write " "
            end);
  if isShapeProducingSelect (n_select x) then
    fields ← selectFieldsFor x (n_select x);
    match fields with
    | [] => error_ "sql: node has no select fields to emit"
    | _ => List_ ", " fields (λ f, _ ← compileSelectField node alias f; _ ← write " as "; write_id (sf_key f))
    end
  else if decide (format cfg = FormatCBOR) then
    _ ← compileExpr (n_select x) (Some node); write " as __scalar"
  else
    _ ← write "to_jsonb("; _ ← compileExpr (n_select x) (Some node); write ") as __scalar".

(** The plans are those of the node while it is compiled. *)
Definition compileNodeCorrelated (node : node_id) (alias onParentAlias : string) : C unit :=
  _ ← set_alias node alias;
  x ← c_node node;
  laterals ← analyzeLaterals x;
  before ← get;
  _ ← modify (set_laterals laterals);
  _ ← write "select ";
  _ ← (if countMode cfg then write "1" else compile_select_list node x alias);
  _ ← write " from ";
  _ ← compileFrom node alias;
  _ ← (if countMode cfg then mret tt
       else for_each (λ _ child, match plan_of laterals child with
                                 | Some plan => compileLateralJoin child alias plan
                                 | None => mret tt
                                 end) 0 (n_incoming x));
  _ ← compileWhere node alias onParentAlias;
  _ ← (if countMode cfg then mret tt else _ ← compileOrderBy node; compileLimitOffset x);
  modify (set_laterals (c_laterals before)).

Definition compile_body (j : job) : C unit :=
  match j with
  | JExpr e n => compileExpr_body e n
  | JPath node path n => compileColumnPath node path n
  | JNode node alias onParentAlias => compileNodeCorrelated node alias onParentAlias
  end.
End body.

Fixpoint compile (fuel : nat) (j : job) : C unit :=
  match fuel with
  | O => λ _, OutOfFuel
  | S fuel => compile_body (compile fuel) j
  end.

Definition compileNode (fuel : nat) (node : node_id) (alias : string) : C unit := compile fuel (JNode node alias "").
End compiler.

(** * Statements *)

Definition statement (m : C unit) : outcome (SQLWriter bound) :=
  match m newSQLCompiler with
  | Ok (_, c) => Ok (c_w c)
  | Err e => Err e
  | Panic => Panic
  | OutOfFuel => OutOfFuel
  end.

Section statements.
Context (d : DbInfos) (Sanitize : string → string) (ns : list QueryNode) (order : list node_id → list node_id) (fuel : nat).

(** [from (<node>) alias] *)
Definition wrapped (cfg : settings) (root : node_id) (head : string → string) : C unit :=
  alias ← allocAlias;
  _ ← write "select "; _ ← write (head alias); _ ← write (" from (" +:+ newline);
  _ ← indent;
  _ ← compileNode d Sanitize ns cfg order fuel root alias;
  _ ← unindent;
  _ ← write (newline +:+ ") "); write alias.

Definition CompileSelectFormat (root : node_id) (fmt : OutputFormat) : outcome (SQLWriter bound) :=
  let cfg := MkSettings false "" false fmt None in
  x ← at_index ns root;
  match is_scalar_function x with
  | Some fn =>
      statement (_ ← write "select ";
        compileFunctionCall (compile d Sanitize ns cfg order fuel) fn (n_args x) (n_named x) (n_parent x))
  | None => statement (wrapped cfg root (wrapNodeAsValue cfg x))
  end.
Definition CompileSelect (root : node_id) : outcome (SQLWriter bound) := CompileSelectFormat root FormatJSON.

Definition CompileCount (root : node_id) : outcome (SQLWriter bound) :=
  x ← at_index ns root;
  match is_scalar_function x with
  | Some _ => errorf "sql: count is not meaningful on a scalar function root"
  | None => statement (wrapped (MkSettings true "" false FormatJSON None) root (λ _, "count(*)"))
  end.

Definition CompileSelectForDataNodeFormat (root : node_id) (nodeID : Z) (fmt : OutputFormat) : outcome (SQLWriter bound) :=
  x ← at_index ns root;
  match n_function x, n_relation x ≫= λ r, (λ rel, (relid_of r, rel)) <$> relation_of d r with
  | Some _, _ => errorf "sql: a function-rooted node can't be write-scoped — functions aren't writable"
  | None, None => Panic
  | None, Some (relid, r) =>
      t ← newTempTable d relid r;
      let cfg := MkSettings false "" false fmt (Some (MkScope root nodeID "__wq" t)) in
      statement (wrapped cfg root (wrapNodeAsValue cfg x))
  end.
End statements.
