(* ===== verification/Denormalize.v ===== *)
(** Denormalization: [src/query/write_denormalize.go].

    A payload is walked alongside the resolved query tree; each object of it is a
    row of its node, added to the batch of the node's table.  The maps keyed by a
    relation, or by its temp table, are keyed by the relation's id.  A node's plan
    depends on nothing the walk changes, so it is computed where it is used. *)
From Stdlib Require Import ZArith Lia Ascii Strings.Byte.
From S2P Require Import Prelude Cbor CborNode Text Document Catalog Joins Expression Nodes MaskSlots TempTable EncodeBase EncodeNumeric EncodeTime EncodeValue EncodeText RowBatch Compile.
Set Warnings "-register-all".

Definition w32 (z : Z) : Z := (z + 2 ^ 31) `mod` 2 ^ 32 - 2 ^ 31.

(** * Values of a row

    A value of the payload, or an object assembled from the values of sub-fields. *)
Inductive rowValue (N : Type) := Payload (n : N) | synthObject (fields : list (string * rowValue N)).
Arguments Payload {N} _. Arguments synthObject {N} _.

Definition errNotString {A} : outcome A := errorf "value is not a string".

Section values.
Context {N : Type} `{ValueNode N}.

Definition row_ArrayItems (v : rowValue N) : outcome (list (rowValue N)) :=
  match v with Payload n => ns ← (ArrayItems n : outcome (list N)); Ok (map Payload ns) | synthObject _ => errNotArray end.
Definition row_ObjectGet (v : rowValue N) (k : string) : outcome (option (rowValue N)) :=
  match v with
  | Payload n => o ← (ObjectGet n k : outcome (option N)); Ok (option_map Payload o)
  | synthObject fs => Ok (map_get k fs)
  end.
Definition row_ObjectEach (v : rowValue N) : outcome (list (string * rowValue N)) :=
  match v with
  | Payload n => es ← (ObjectEach n : outcome (list (string * N))); Ok (map (λ e, (e.1, Payload e.2)) es)
  | synthObject fs => Ok fs
  end.
Definition row_Raw (v : rowValue N) : outcome string :=
  match v with Payload n => Raw n | synthObject _ => errorf "write: an object assembled from sub-fields has no source text" end.

#[export] Instance rowValue_Node : Node (rowValue N) := {|
  Kind v := match v with Payload n => Kind n | synthObject _ => KindObject end;
  StrictString v := match v with Payload n => StrictString n | synthObject _ => errNotString end;
  StrictBool v := match v with Payload n => StrictBool n | synthObject _ => errNotString end;
  StrictInt64 v := match v with Payload n => StrictInt64 n | synthObject _ => errNotString end;
  StrictFloat64 v := match v with Payload n => StrictFloat64 n | synthObject _ => errNotString end;
  ArrayItems := row_ArrayItems;
  ObjectGet := row_ObjectGet;
  ObjectEach := row_ObjectEach;
  Raw := row_Raw;
|}.

(** The levels of the objects assembled above payload values. *)
Fixpoint value_nesting (v : rowValue N) : nat :=
  match v with
  | Payload n => nesting n
  | synthObject fs => S (list_max (map (λ f, value_nesting f.2) fs))
  end.

(** It has none of the accessors of a CBOR value, and its JSON text is [Raw]. *)
#[export] Instance rowValue_ValueNode : ValueNode (rowValue N) := {|
  value_Node := rowValue_Node;
  StrictBytes v := match v with Payload n => StrictBytes n | synthObject _ => Panic end;
  Instant_ v := match v with Payload n => Instant_ n | synthObject _ => Panic end;
  Days v := match v with Payload n => Days n | synthObject _ => Panic end;
  decimal_text v := match v with Payload n => decimal_text n | synthObject _ => Ok None end;
  nodeJSON v := match v with Payload n => nodeJSON n | synthObject _ => row_Raw v end;
  nesting := value_nesting;
|}.

(** [synthObject.set]: the objects on the way are made where they are missing; a
    path has a name. *)
Fixpoint synth_set (path : list string) (v : rowValue N) (fields : list (string * rowValue N)) : outcome (list (string * rowValue N)) :=
  match path with
  | [] => Panic
  | [name] => Ok (map_set name v fields)
  | name :: path =>
      let next := match map_get name fields with Some (synthObject fs) => fs | _ => [] end in
      next ← synth_set path v next;
      Ok (map_set name (synthObject next) fields)
  end.
End values.

(** * Plans *)

Record extractorPlan := MkExtractorPlan {
  ep_jsonPath : list string;
  ep_colIdx : nat;
  ep_subPath : list string;
  ep_word : nat;
  ep_bit : nat;
}.

(** [colIdx]: the position of a column in its relation. *)
Definition colIdx (t : tempTable) (c : Column) : option nat := fst <$> list_find (λ c', c' = c) (Columns (tt_rel t)).

Section plans.
Context (d : DbInfos).

Definition extractor_plan (t : tempTable) (ex : Extractor) : outcome extractorPlan :=
  match cp_path (ex_path ex) with
  | [] => Panic
  | c :: sub =>
      match colIdx t c with
      | None => errorf "write: column %q is not a column of %s"
      | Some idx =>
          slot ← MaskSlotFor d (tt_relid t) (tt_rel t) (c :: sub);
          match slot with
          | None => errorf "write: no presence slot for column path %s"
          | Some slot => Ok (MkExtractorPlan (ex_json_path ex) idx (map col_name sub) (slot_word slot) (slot_bit slot))
          end
      end
  end.

Fixpoint extractor_plans (t : tempTable) (exs : list Extractor) : outcome (list extractorPlan) :=
  match exs with
  | [] => Ok []
  | ex :: exs => p ← extractor_plan t ex; ps ← extractor_plans t exs; Ok (p :: ps)
  end.

Definition newNodePlan (x : QueryNode) (t : tempTable) : outcome (list extractorPlan) :=
  match n_shape x with Some sh => extractor_plans t (sh_extractors sh) | None => Panic end.
End plans.

(** * Filling a row *)

Section fill.
Context {N : Type} `{ValueNode N}.

(** A column's value: a node of the payload, or the object assembled for it, which
    later sub-fields still write to. *)
Inductive colValue := VPayload (n : N) | VSynth.

(** The scratch values: the columns, the presence words, and the assembled objects
    by column. *)
Record scratch := MkScratch {
  s_vals : list (option colValue);
  s_mask : list Z;
  s_synth : gmap nat (list (string * rowValue N));
}.

(** The member at a path; a value that is not an object has none. *)
Fixpoint payload_at (raw : N) (path : list string) : outcome (option N) :=
  match path with
  | [] => Ok (Some raw)
  | key :: path =>
      v ← ObjectGet raw key;
      match v with Some v => payload_at v path | None => Ok None end
  end.

(** [mask[word] |= int64(1) << bit] *)
Definition set_bit (word bit : nat) (mask : list Z) : outcome (list Z) :=
  w ← at_index mask word;
  Ok (<[word := w64 (Z.lor w (Z.shiftl 1 (Z.of_nat bit)))]> mask).

Definition store_val (idx : nat) (v : colValue) (vals : list (option colValue)) : outcome (list (option colValue)) :=
  _ ← at_index vals idx;
  Ok (<[idx := Some v]> vals).

Definition fill_one (raw : N) (ep : extractorPlan) (s : scratch) : outcome scratch :=
  v ← payload_at raw (ep_jsonPath ep);
  match v with
  | None => Ok s
  | Some v =>
      mask ← set_bit (ep_word ep) (ep_bit ep) (s_mask s);
      match ep_subPath ep with
      | [] => vals ← store_val (ep_colIdx ep) (VPayload v) (s_vals s); Ok (MkScratch vals mask (s_synth s))
      | path =>
          vals ← match s_synth s !! ep_colIdx ep with
                 | Some _ => Ok (s_vals s)
                 | None => store_val (ep_colIdx ep) VSynth (s_vals s)
                 end;
          fields ← synth_set path (Payload v) (default [] (s_synth s !! ep_colIdx ep));
          Ok (MkScratch vals mask (<[ep_colIdx ep := fields]> (s_synth s)))
      end
  end.

Fixpoint fill_all (raw : N) (eps : list extractorPlan) (s : scratch) : outcome scratch :=
  match eps with
  | [] => Ok s
  | ep :: eps => s ← fill_one raw ep s; fill_all raw eps s
  end.

(** What the row is given: the assembled objects as they are in the end. *)
Definition row_value (synth : gmap nat (list (string * rowValue N))) (i : nat) (v : option colValue) : option (rowValue N) :=
  match v with
  | None => None
  | Some (VPayload n) => Some (Payload n)
  | Some VSynth => Some (synthObject (default [] (synth !! i)))
  end.

Definition fill (t : tempTable) (eps : list extractorPlan) (raw : N) : outcome (list (option (rowValue N)) * list Z) :=
  s ← fill_all raw eps (MkScratch (repeat None (length (tt_cols t))) (repeat 0 (tt_maskWords t)) ∅);
  Ok (imap (row_value (s_synth s)) (s_vals s), s_mask s).
End fill.
Arguments colValue : clear implicits.
Arguments scratch : clear implicits.

(** * The walk *)

(** [writeRows]; the maps of rows that were not written to are empty. *)
Record writeRows := MkWriteRows {
  wr_batches : gmap Z rowBatch;             (* by relation *)
  wr_populated : gset Z;                    (* by node id *)
  wr_submitted : gmap Z Z;
  wr_tableNodes : gmap Z (gset Z);          (* by relation *)
  wr_nextRowID : Z;
  wr_count : Z;
  wr_patchMask : option (list Z);
  wr_rootRowID : Z;
}.

Abbreviation denormalize := (M writeRows).

Section walk.
Context {N : Type} `{ValueNode N} (d : DbInfos) (ns : list QueryNode) (ids : gmap node_id Z)
  (tables : gmap Z tempTable) (rowOID : Z → bool → Z) (general : bool) (ec : option encodeContext).

Definition select_fields (x : QueryNode) : outcome (list selectField) :=
  r ← selectFieldsFor d ns x (n_select x) newSQLCompiler; Ok r.1.

Definition table_of (x : QueryNode) : outcome tempTable :=
  match n_relation x with
  | Some (RelOf relid) =>
      match tables !! relid with Some t => Ok t | None => errorf "write: no temp table prepared for %s" end
  | Some (RecordOf _ _) => errorf "write: no temp table prepared for %s"
  | None => Panic
  end.

(** The state after a row of a node was added to its batch. *)
Definition row_added (t : tempTable) (nodeID rowID : Z) (b : rowBatch) (mask : list Z) (out : writeRows) : writeRows :=
  MkWriteRows (<[tt_relid t := b]> (wr_batches out)) ({[nodeID]} ∪ wr_populated out)
    (<[nodeID := default 0 (wr_submitted out !! nodeID) + 1]> (wr_submitted out))
    (<[tt_relid t := {[nodeID]} ∪ default ∅ (wr_tableNodes out !! tt_relid t)]> (wr_tableNodes out))
    (wr_nextRowID out + 1) (wr_count out + 1)
    (match wr_patchMask out with Some m => Some m | None => Some mask end)
    (match wr_patchMask out with Some _ => wr_rootRowID out | None => rowID end).

(** The row of an object of the payload; its id. *)
Definition add_row (x : QueryNode) (nodeID : Z) (raw : N) (parentID : option Z) : denormalize Z :=
  t ← lift (table_of x);
  eps ← lift (newNodePlan d x t);
  out ← get;
  let rowID := w32 (wr_nextRowID out) in
  row ← lift (fill t eps raw);
  encs ← lift (column_encoders d (Columns (tt_rel t)));
  let batch := default (newBatch general (rowOID (tt_relid t) general)) (wr_batches out !! tt_relid t) in
  b ← wrap "write: row of %q" (lift (addRow t encs batch (MkRowMeta rowID (w32 nodeID) parentID) row.1 row.2 ec));
  _ ← put (row_added t nodeID rowID b row.2 out);
  mret rowID.

Section child.
Variable rec : node_id → N → option Z → denormalize unit.

Definition walk_child (x : QueryNode) (raw : N) (rowID : Z) (f : selectField) : denormalize unit :=
  match embedChildOf f with
  | None => mret tt
  | Some child =>
      v ← lift (ObjectGet raw (sf_key f));
      match v with
      | None => mret tt
      | Some v =>
          if bool_decide (Kind v = KindNull) then mret tt
          else if bool_decide (child ∈ n_incoming x) then
            if negb (bool_decide (Kind v = KindArray)) then lift (errorf "write: expected an array for incoming relation %q")
            else
              items ← lift (ArrayItems v);
              for_each (λ _ item, rec child item (Some rowID)) 0 items
          else rec child v (Some rowID)
      end
  end.
End child.

Fixpoint walkNode (fuel : nat) (node : node_id) (raw : N) (parentID : option Z) : denormalize unit :=
  match fuel with
  | O => λ _, OutOfFuel
  | S fuel =>
      match ids !! node with
      | None => mret tt
      | Some nodeID =>
          x ← lift (at_index ns node);
          if negb (bool_decide (Kind raw = KindObject)) then lift (errorf "write: expected an object for a row of %q, got a %s")
          else
            rowID ← add_row x nodeID raw parentID;
            fields ← lift (select_fields x);
            for_each (λ _ f, walk_child (walkNode fuel) x raw rowID f) 0 fields
      end
  end.

Definition denormalizeItems (fuel : nat) (root : node_id) (items : list N) (startRowID : Z) : outcome writeRows :=
  r ← for_each (λ _ item, walkNode fuel root item None) 0 items (MkWriteRows ∅ ∅ ∅ ∅ startRowID 0 None 0);
  Ok r.2.

Definition denormalizeNode (fuel : nat) (root : node_id) (payload : N) (startRowID : Z) : outcome writeRows :=
  if negb (bool_decide (Kind payload = KindArray)) then errorf "write: payload must be an array of root rows"
  else items ← ArrayItems payload; denormalizeItems fuel root items startRowID.
End walk.

(** What a write takes: a value of the request, or the array of one row an update's
    patch is wrapped in. *)
Inductive writePayload (N : Type) := Data (n : N) | synthArray (items : list N).
Arguments Data {N} _. Arguments synthArray {N} _.

Definition denormalizePayload {N} `{ValueNode N} (d : DbInfos) (ns : list QueryNode) (ids : gmap node_id Z) (tables : gmap Z tempTable)
    (rowOID : Z → bool → Z) (general : bool) (ec : option encodeContext) (fuel : nat) (root : node_id) (payload : writePayload N)
    (startRowID : Z) : outcome writeRows :=
  match payload with
  | Data n => denormalizeNode d ns ids tables rowOID general ec fuel root n startRowID
  | synthArray items => denormalizeItems d ns ids tables rowOID general ec fuel root items startRowID
  end.
