(* ===== verification/DenormalizeFacts.v ===== *)
(** The rows of a payload: what denormalization loads is a function of the payload
    and the tree, whose rows are numbered one by one, each under the row of the
    object it is in. *)
From Stdlib Require Import ZArith Lia Ascii Strings.Byte.
From S2P Require Import Prelude Cbor CborNode Text Document DocumentLaws Catalog Joins KeysFacts Expression Nodes MaskSlots TempTable TempTableFacts EncodeBase EncodeNumeric EncodeTime EncodeValue EncodeText RowBatch EncodeFacts RowBatchFacts ParseExpr ParseQuery ResolveQuery ResolveQueryFacts ResolveExpr Shape ShapeFacts Compile Denormalize.
Set Warnings "-register-all".
#[local] Set Default Proof Using "Type*".

(** * The rows, without the batches they are put in *)

Record entry (N : Type) := MkEntry {
  en_node : node_id;
  en_table : tempTable;
  en_meta : rowMeta;
  en_vals : list (option (rowValue N));
  en_mask : list Z;
}.
Arguments MkEntry {N} _ _ _ _ _. Arguments en_node {N} _. Arguments en_table {N} _.
Arguments en_meta {N} _. Arguments en_vals {N} _. Arguments en_mask {N} _.

(** The rows of a list, each numbered from where the ones before it end. *)
Fixpoint rows_list {A E} (f : A → Z → outcome (list E)) (l : list A) (n : Z) : outcome (list E) :=
  match l with
  | [] => Ok []
  | a :: l => rs ← f a n; rs' ← rows_list f l (n + Z.of_nat (length rs)); Ok (rs ++ rs')
  end.

Section rows.
Context {N : Type} `{ValueNode N} (d : DbInfos) (ns : list QueryNode) (ids : gmap node_id Z) (tables : gmap Z tempTable).

Section child.
Variable rec : node_id → N → option Z → Z → outcome (list (entry N)).
Definition child_rows (x : QueryNode) (raw : N) (rowID : Z) (f : selectField) (n : Z) : outcome (list (entry N)) :=
  match embedChildOf f with
  | None => Ok []
  | Some child =>
      v ← ObjectGet raw (sf_key f);
      match v with
      | None => Ok []
      | Some v =>
          if bool_decide (Kind v = KindNull) then Ok []
          else if bool_decide (child ∈ n_incoming x) then
            if negb (bool_decide (Kind v = KindArray)) then errorf "write: expected an array for incoming relation %q"
            else items ← ArrayItems v; rows_list (λ item n, rec child item (Some rowID) n) items n
          else rec child v (Some rowID) n
      end
  end.
End child.

(** The rows of an object and of everything below it, from the first free row id. *)
Fixpoint rows_of (fuel : nat) (node : node_id) (raw : N) (parentID : option Z) (n : Z) : outcome (list (entry N)) :=
  match fuel with
  | O => OutOfFuel
  | S fuel =>
      match ids !! node with
      | None => Ok []
      | Some nodeID =>
          x ← at_index ns node;
          if negb (bool_decide (Kind raw = KindObject)) then errorf "write: expected an object for a row of %q, got a %s"
          else
            t ← table_of tables x;
            eps ← newNodePlan d x t;
            row ← fill t eps raw;
            fields ← select_fields d ns x;
            rest ← rows_list (child_rows (rows_of fuel) x raw (w32 n)) fields (n + 1);
            Ok (MkEntry node t (MkRowMeta (w32 n) (w32 nodeID) parentID) row.1 row.2 :: rest)
      end
  end.
End rows.

(** * Loading rows *)

Section load.
Context {N : Type} `{ValueNode N} (d : DbInfos) (ns : list QueryNode) (ids : gmap node_id Z) (tables : gmap Z tempTable)
  (rowOID : Z → bool → Z) (general : bool) (ec : option encodeContext).
Abbreviation entry := (entry N).

Definition batch_of (t : tempTable) (out : writeRows) : rowBatch :=
  default (newBatch general (rowOID (tt_relid t) general)) (wr_batches out !! tt_relid t).
Definition node_id_of (e : entry) : Z := default 0 (ids !! en_node e).

(** Loading a row only adds it to the batch of its table. *)
Definition load_entry (e : entry) (out : writeRows) : outcome writeRows :=
  encs ← column_encoders d (Columns (tt_rel (en_table e)));
  b ← addRow (en_table e) encs (batch_of (en_table e) out) (en_meta e) (en_vals e) (en_mask e) ec;
  Ok (row_added (en_table e) (node_id_of e) (RowID (en_meta e)) b (en_mask e) out).
Fixpoint load (es : list entry) (out : writeRows) : outcome writeRows :=
  match es with
  | [] => Ok out
  | e :: es => out ← load_entry e out; load es out
  end.

Lemma load_app es es' out : load (es ++ es') out = (out ← load es out; load es' out).
Proof.
  revert out. induction es as [|e es IH]; intros out; [done|]. cbn [app load].
  destruct (load_entry e out); cbn [mbind outcome_bind]; [apply IH|done..].
Qed.
Lemma load_entry_next e out out' : load_entry e out = Ok out' → wr_nextRowID out' = wr_nextRowID out + 1.
Proof. unfold load_entry. intros Hok. run_ok. done. Qed.
Lemma load_next es out out' : load es out = Ok out' → wr_nextRowID out' = wr_nextRowID out + Z.of_nat (length es).
Proof.
  revert out. induction es as [|e es IH]; intros out; cbn [load length]; [intros [= <-]; lia|].
  destruct (load_entry e out) as [out1| | |] eqn:E; cbn [mbind outcome_bind]; [|done..].
  apply load_entry_next in E. intros Hl%IH. lia.
Qed.

(** A step of the walk and the rows it loads. *)
Definition loads (m : denormalize unit) (rows : Z → outcome (list entry)) : Prop :=
  ∀ out out', m out = Ok (tt, out') → ∃ es, rows (wr_nextRowID out) = Ok es ∧ load es out = Ok out'.

Lemma loads_ret : loads (mret tt) (λ _, Ok []).
Proof. intros out out' [= <-]. by exists []. Qed.
Lemma loads_error (m : outcome unit) rows : (∀ u, m ≠ Ok u) → loads (lift m) rows.
Proof. intros Hm out out'. unfold lift. destruct m as [[]| | |]; try done. by destruct (Hm ()). Qed.
Lemma loads_lift {A} (m : outcome A) f rows : (∀ a, m = Ok a → loads (f a) (rows a)) → loads (lift m ≫= f) (λ n, a ← m; rows a n).
Proof.
  intros Hf out out'. unfold lift, mbind at 1, M_bind at 1. destruct m as [a| | |]; [|done..]. cbn [mbind outcome_bind]. by apply Hf.
Qed.
Lemma loads_list {A} (f : A → denormalize unit) (g : A → Z → outcome (list entry)) l i :
  (∀ a, loads (f a) (g a)) → loads (for_each (λ _ a, f a) i l) (rows_list g l).
Proof.
  intros Hf. revert i. induction l as [|a l IH]; intros i; cbn [for_each rows_list]; [apply loads_ret|].
  intros out out' ([] & out1 & H1 & H2)%M_bind_ok. apply Hf in H1 as (es & Hes & Hl1). apply IH in H2 as (es' & Hes' & Hl2).
  pose proof (load_next _ _ _ Hl1) as Hn. exists (es ++ es'). rewrite Hes. cbn [mbind outcome_bind]. rewrite <-Hn, Hes'.
  split; [done|]. by rewrite load_app, Hl1.
Qed.

Lemma child_loads rec rec' x raw rowID f :
  (∀ c v p, loads (rec c v p) (rec' c v p)) → loads (walk_child rec x raw rowID f) (child_rows rec' x raw rowID f).
Proof.
  intros Hrec. unfold walk_child, child_rows. destruct (embedChildOf f) as [c|]; [|apply loads_ret].
  apply loads_lift. intros [v|] _; [|apply loads_ret]. destruct (bool_decide (Kind v = KindNull)); [apply loads_ret|].
  destruct (bool_decide (c ∈ n_incoming x)); [|apply Hrec].
  destruct (negb _); [by apply loads_error|]. apply loads_lift. intros items _. apply loads_list. intros item. apply Hrec.
Qed.

(** Adding the row of an object. *)
Lemma add_row_loads x node nodeID raw p out rowID out' :
  ids !! node = Some nodeID → add_row d tables rowOID general ec x nodeID raw p out = Ok (rowID, out') →
  ∃ t eps row, table_of tables x = Ok t ∧ newNodePlan d x t = Ok eps ∧ fill t eps raw = Ok row ∧
    rowID = w32 (wr_nextRowID out) ∧
    load_entry (MkEntry node t (MkRowMeta rowID (w32 nodeID) p) row.1 row.2) out = Ok out'.
Proof.
  intros Hid. unfold add_row. intros (t & o1 & [Ht ->]%lift_ok & H1)%M_bind_ok.
  apply M_bind_ok in H1 as (eps & o2 & [Heps ->]%lift_ok & H1). apply M_bind_ok in H1 as (o3 & o4 & [= -> ->] & H1).
  apply M_bind_ok in H1 as (row & o5 & [Hrow ->]%lift_ok & H1). apply M_bind_ok in H1 as (encs & o6 & [Hencs ->]%lift_ok & H1).
  apply M_bind_ok in H1 as (b & o7 & [Hb ->]%wrap_ok%lift_ok & H1). injection H1 as <- <-.
  exists t, eps, row. split_and!; [done..|]. unfold load_entry, node_id_of. cbn [en_node en_table en_meta en_vals en_mask RowID].
  rewrite Hencs. cbn [mbind outcome_bind]. unfold batch_of. rewrite Hb. cbn [mbind outcome_bind]. by rewrite Hid.
Qed.

Lemma walkNode_loads fuel node raw p :
  loads (walkNode d ns ids tables rowOID general ec fuel node raw p) (rows_of d ns ids tables fuel node raw p).
Proof.
  revert node raw p. induction fuel as [|fuel IH]; intros node raw p; [by intros out out'|]. cbn [walkNode rows_of].
  destruct (ids !! node) as [nodeID|] eqn:Hid; [|apply loads_ret]. apply loads_lift. intros x _.
  destruct (negb _); [by apply loads_error|]. intros out out' (rowID & out1 & Hadd & Hrest)%M_bind_ok.
  apply (add_row_loads x node nodeID) in Hadd as (t & eps & row & Ht & Heps & Hrow & -> & Hload); [|done].
  rewrite Ht. cbn [mbind outcome_bind]. rewrite Heps. cbn [mbind outcome_bind]. rewrite Hrow. cbn [mbind outcome_bind].
  pose proof (load_entry_next _ _ _ Hload) as Hn.
  apply M_bind_ok in Hrest as (fields & out2 & [-> ->]%lift_ok & Hrest). cbn [mbind outcome_bind].
  apply (loads_list _ (child_rows (rows_of d ns ids tables fuel) x raw (w32 (wr_nextRowID out)))) in Hrest as (es & Hes & Hl);
    [|intros f; by apply child_loads]. rewrite Hn in Hes. rewrite Hes. cbn [mbind outcome_bind].
  eexists. split; [done|]. cbn [load]. by rewrite Hload.
Qed.

(** The rows of a payload. *)
Definition payload_rows (fuel : nat) (root : node_id) (payload : N) (startRowID : Z) : outcome (list entry) :=
  items ← ArrayItems payload;
  rows_list (λ item n, rows_of d ns ids tables fuel root item None n) items startRowID.

Definition no_rows (startRowID : Z) : writeRows := MkWriteRows ∅ ∅ ∅ ∅ startRowID 0 None 0.

(** Denormalizing is loading the rows of the payload. *)
Lemma denormalizeNode_loads fuel root payload start out :
  denormalizeNode d ns ids tables rowOID general ec fuel root payload start = Ok out →
  ∃ es, payload_rows fuel root payload start = Ok es ∧ load es (no_rows start) = Ok out.
Proof.
  unfold denormalizeNode, denormalizeItems, payload_rows. destruct (negb _); [done|].
  destruct (ArrayItems payload) as [items| | |]; cbn [mbind outcome_bind]; [|done..].
  destruct (for_each _ _ _ _) as [[[] out']| | |] eqn:E; cbn [mbind outcome_bind]; [|done..]. intros [= <-].
  by apply (loads_list _ (λ item n, rows_of d ns ids tables fuel root item None n)) in E; [|intros; apply walkNode_loads].
Qed.
End load.

(** * Numbers and parents *)

Section shape.
Context {N : Type} `{ValueNode N} (d : DbInfos) (ns : list QueryNode) (ids : gmap node_id Z) (tables : gmap Z tempTable).
Abbreviation entry := (entry N).

Definition numbered (n : Z) (es : list entry) : Prop :=
  ∀ i e, es !! i = Some e → RowID (en_meta e) = w32 (n + Z.of_nat i).
(** A node embeds another under a field of its select. *)
Definition embeds (i c : node_id) : Prop :=
  ∃ x fields f, ns !! i = Some x ∧ select_fields d ns x = Ok fields ∧ f ∈ fields ∧ embedChildOf f = Some c.
(** [e] is a row of an object in the object of [e']. *)
Definition under (e' e : entry) : Prop :=
  ParentID (en_meta e) = Some (RowID (en_meta e')) ∧ embeds (en_node e') (en_node e).
(** Each row is a root, or under a row before it. *)
Definition forest (R : entry → Prop) (es : list entry) : Prop :=
  ∀ i e, es !! i = Some e → R e ∨ ∃ j e', (j < i)%nat ∧ es !! j = Some e' ∧ under e' e.
(** Each row is in the table of its node. *)
Definition tabled (es : list entry) : Prop :=
  ∀ e, e ∈ es → ∃ x, ns !! en_node e = Some x ∧ table_of tables x = Ok (en_table e).

Definition laid (R : entry → Prop) (n : Z) (es : list entry) : Prop := numbered n es ∧ forest R es ∧ tabled es.

Lemma laid_nil R n : laid R n [].
Proof using Type. split_and!; intros i; [by intros e ?|by intros e ?|by intros ?%not_elem_of_nil]. Qed.

Lemma laid_app R n es es' : laid R n es → laid R (n + Z.of_nat (length es)) es' → laid R n (es ++ es').
Proof using Type.
  intros (N1 & F1 & T1) (N2 & F2 & T2). split_and!.
  - intros i e. rewrite lookup_app_Some. intros [He|[Hi He]]; [by apply N1|]. rewrite (N2 _ _ He). f_equal. lia.
  - intros i e. rewrite lookup_app_Some. intros [He|[Hi He]].
    + destruct (F1 _ _ He) as [?|(j & e' & ? & ? & ?)]; [by left|]. right. exists j, e'. by rewrite lookup_app_l_Some with (x := e').
    + destruct (F2 _ _ He) as [?|(j & e' & ? & ? & ?)]; [by left|]. right. exists (length es + j)%nat, e'.
      split_and!; [lia| |done]. rewrite lookup_app_r by lia. by replace (length es + j - length es)%nat with j by lia.
  - intros e [He|He]%elem_of_app; auto.
Qed.

Lemma laid_cons R n e es :
  RowID (en_meta e) = w32 n → R e → (∃ x, ns !! en_node e = Some x ∧ table_of tables x = Ok (en_table e)) →
  laid (under e) (n + 1) es → laid R n (e :: es).
Proof using Type.
  intros Hn HR HT (Hnum & Hf & Ht). split_and!.
  - intros [|i] e'; cbn; [intros [= <-]; by rewrite Z.add_0_r|]. intros He. rewrite (Hnum _ _ He). f_equal. lia.
  - intros [|i] e'; cbn; [intros [= <-]; by left|]. intros He. right.
    destruct (Hf _ _ He) as [?|(j & e0 & ? & ? & ?)]; [exists 0%nat, e; split_and!; [lia|done|done]|].
    exists (S j), e0. split_and!; [lia|done|done].
  - intros e' [->|He]%elem_of_cons; auto.
Qed.

Lemma laid_list {A} (f : A → Z → outcome (list entry)) R l : ∀ n es,
  (∀ a n es, a ∈ l → f a n = Ok es → laid R n es) → rows_list f l n = Ok es → laid R n es.
Proof using Type.
  induction l as [|a l IH]; intros n es Hf; cbn [rows_list]; [intros [= <-]; apply laid_nil|].
  destruct (f a n) as [es1| | |] eqn:E; cbn [mbind outcome_bind]; [|done..].
  destruct (rows_list f l _) as [es2| | |] eqn:E2; cbn [mbind outcome_bind]; [|done..]. intros [= <-].
  apply laid_app; [eapply Hf; [by left|done]|]. apply IH; [|done]. intros. eapply Hf; [by right|done].
Qed.

Lemma rows_of_laid fuel : ∀ node raw p n es (R : entry → Prop),
  rows_of d ns ids tables fuel node raw p n = Ok es →
  (∀ e, en_node e = node → ParentID (en_meta e) = p → R e) → laid R n es.
Proof using Type.
  induction fuel as [|fuel IH]; intros node raw p n es R; [done|]. cbn [rows_of].
  destruct (ids !! node) as [nodeID|]; [|intros [= <-] _; apply laid_nil].
  unfold at_index at 1. destruct (ns !! node) as [x|] eqn:Hx; cbn [from_option of_option mbind outcome_bind]; [|done].
  destruct (negb _); [done|]. intros Hok HR. run_ok.
  match goal with H : rows_list _ _ _ = Ok _ |- _ => rename H into Hrest end.
  match goal with H : select_fields _ _ _ = Ok _ |- _ => rename H into Hfields end.
  apply laid_cons; [done|by apply HR|by exists x|].
  eapply laid_list; [|exact Hrest]. intros f m es' Hf Hes'. unfold child_rows in Hes'.
  destruct (embedChildOf f) as [c|] eqn:Hc; [|injection Hes' as <-; apply laid_nil].
  match goal with |- laid (under ?e0) _ _ => assert (∀ e, en_node e = c → ParentID (en_meta e) = Some (w32 n) → under e0 e) as HU end.
  { intros e He Hp. split; [done|]. eexists x, _, f. cbn [en_node]. by rewrite He. }
  destruct (ObjectGet raw (sf_key f)) as [[v|]| | |]; cbn [mbind outcome_bind] in Hes'; try done; [|injection Hes' as <-; apply laid_nil].
  destruct (bool_decide (Kind v = KindNull)); [injection Hes' as <-; apply laid_nil|].
  destruct (bool_decide (c ∈ n_incoming x)); [|exact (IH _ _ _ _ _ _ Hes' HU)].
  destruct (negb _); [done|]. destruct (ArrayItems v) as [items| | |]; cbn [mbind outcome_bind] in Hes'; [|done..].
  eapply laid_list; [|exact Hes']. intros a m' es'' _ Ha. exact (IH _ _ _ _ _ _ Ha HU).
Qed.
End shape.

(** * What the batches hold *)

Section batches.
Context {N : Type} `{ValueLaws N} (d : DbInfos) (ns : list QueryNode) (ids : gmap node_id Z) (tables : gmap Z tempTable)
  (rowOID : Z → bool → Z) (general : bool) (ec : option encodeContext).
Context (Htables : ∀ relid t, tables !! relid = Some t → tt_relid t = relid).
Abbreviation entry := (entry N).

Definition entry_row (e : entry) : rowMeta * list (option (rowValue N)) * list Z := (en_meta e, en_vals e, en_mask e).
Definition table_rows (relid : Z) (es : list entry) : list (rowMeta * list (option (rowValue N)) * list Z) :=
  map entry_row (filter (λ e, tt_relid (en_table e) = relid) es).
(** The rows of a node. *)
Definition node_rows (nodeID : Z) (es : list entry) : list entry := filter (λ e, node_id_of ids e = nodeID) es.

Lemma table_of_tables x t : table_of tables x = Ok t → tables !! tt_relid t = Some t.
Proof.
  unfold table_of. destruct (n_relation x) as [[relid|]|]; [|done..].
  destruct (tables !! relid) as [t'|] eqn:E; [|done]. intros [= ->]. by rewrite (Htables _ _ E).
Qed.

(** What a state holds of the rows loaded so far. *)
Record holds (start : Z) (es : list entry) (out : writeRows) : Prop := {
  h_next : wr_nextRowID out = start + Z.of_nat (length es);
  h_count : wr_count out = Z.of_nat (length es);
  h_submitted : ∀ i, default 0 (wr_submitted out !! i) = Z.of_nat (length (node_rows i es));
  h_populated : ∀ i, i ∈ wr_populated out ↔ node_rows i es ≠ [];
  h_batches : ∀ relid,
    match wr_batches out !! relid with
    | Some b => ∃ t encs, tables !! relid = Some t ∧ column_encoders d (Columns (tt_rel t)) = Ok encs ∧
        add_rows t ec encs (newBatch general (rowOID relid general)) (table_rows relid es) = Ok b
    | None => table_rows relid es = []
    end;
}.

Lemma holds_nil start : holds start [] (no_rows start).
Proof using Type.
  split; cbn; [lia|done|done| |]; intros i; [|by rewrite lookup_empty]. rewrite elem_of_empty. tauto.
Qed.

Lemma add_rows_app t encs (b : rowBatch) rows rows' :
  add_rows t ec encs b (rows ++ rows') = (b ← add_rows (N := rowValue N) t ec encs b rows; add_rows t ec encs b rows').
Proof using Type.
  revert b. induction rows as [|r rows IH]; intros b; [done|]. cbn [app add_rows].
  destruct (addRow t encs b _ _ _ ec); cbn [mbind outcome_bind]; [apply IH|done..].
Qed.

Lemma node_rows_snoc i es e : node_rows i (es ++ [e]) = node_rows i es ++ if decide (node_id_of ids e = i) then [e] else [].
Proof using Type. unfold node_rows. by rewrite filter_app, filter_cons, filter_nil. Qed.
Lemma table_rows_snoc relid es e :
  table_rows relid (es ++ [e]) = table_rows relid es ++ if decide (tt_relid (en_table e) = relid) then [entry_row e] else [].
Proof using Type. unfold table_rows. rewrite filter_app, filter_cons, filter_nil, map_app. by case_decide. Qed.

Lemma load_entry_holds start es e out out' :
  tables !! tt_relid (en_table e) = Some (en_table e) →
  holds start es out → load_entry d ids rowOID general ec e out = Ok out' → holds start (es ++ [e]) out'.
Proof using Type.
  intros Ht [Hn Hc Hs Hp Hb]. unfold load_entry.
  destruct (column_encoders _ _) as [encs| | |] eqn:Henc; cbn [mbind outcome_bind]; [|done..].
  destruct (addRow _ _ _ _ _ _ _) as [b| | |] eqn:Hadd; cbn [mbind outcome_bind]; [|done..]. intros [= <-].
  split; cbn [row_added wr_nextRowID wr_count wr_submitted wr_populated wr_batches]; rewrite ?length_app.
  - cbn. lia.
  - cbn. lia.
  - intros i. rewrite node_rows_snoc, length_app. destruct (decide (node_id_of ids e = i)) as [<-|Hne].
    + rewrite lookup_insert_eq. cbn. rewrite Hs. lia.
    + rewrite lookup_insert_ne by done. rewrite Hs. cbn. lia.
  - intros i. rewrite node_rows_snoc, elem_of_union, elem_of_singleton, Hp. destruct (decide (node_id_of ids e = i)) as [<-|Hne].
    + split; [|by left]. intros _ E. by apply app_nil in E as [_ ?].
    + rewrite app_nil_r. split; [intros [->|?]; done|by right].
  - intros relid. rewrite table_rows_snoc. specialize (Hb relid).
    destruct (decide (tt_relid (en_table e) = relid)) as [<-|Hne]; [|by rewrite lookup_insert_ne, app_nil_r].
    rewrite lookup_insert_eq. exists (en_table e), encs. split; [done|]. split; [done|]. rewrite add_rows_app.
    unfold batch_of in Hadd. destruct (wr_batches out !! _) as [b0|].
    + destruct Hb as (t & encs' & Ht' & Henc' & Hb). assert (t = en_table e) as -> by congruence.
      assert (encs' = encs) as -> by congruence. rewrite Hb. cbn [mbind outcome_bind add_rows entry_row fst snd default] in *.
      unfold id in Hadd. by rewrite Hadd.
    + rewrite Hb. cbn [add_rows mbind outcome_bind entry_row fst snd default] in *. by rewrite Hadd.
Qed.

Lemma load_holds start es' : ∀ es out out',
  (∀ e, e ∈ es' → tables !! tt_relid (en_table e) = Some (en_table e)) →
  holds start es out → load d ids rowOID general ec es' out = Ok out' → holds start (es ++ es') out'.
Proof using Type.
  induction es' as [|e es' IH]; intros es out out' Ht Hh; cbn [load]; [intros [= <-]; by rewrite app_nil_r|].
  destruct (load_entry _ _ _ _ _ e out) as [out1| | |] eqn:E; cbn [mbind outcome_bind]; [|done..].
  apply (load_entry_holds start es) in E; [|apply Ht; by left|done]. intros Hl.
  change (e :: es') with ([e] ++ es'). rewrite (app_assoc es [e] es'). eapply IH; [|exact E|exact Hl]. intros e' He'. apply Ht. by right.
Qed.
End batches.

(** * Properties *)

Section properties.
Context {N : Type} `{ValueLaws N} (d : DbInfos) (ns : list QueryNode) (ids : gmap node_id Z) (tables : gmap Z tempTable)
  (rowOID : Z → bool → Z) (general : bool) (ec : option encodeContext).

Lemma laid_table (R : entry N → Prop) start es e :
  (∀ relid t, tables !! relid = Some t → tt_relid t = relid) →
  laid d ns tables R start es → e ∈ es → tables !! tt_relid (en_table e) = Some (en_table e).
Proof using Type.
  intros Ht (_ & _ & HT) He. destruct (HT e He) as (x & _ & Hx). eapply table_of_tables; [exact Ht|exact Hx].
Qed.

(** ** Fuel

    The walk goes no deeper than the payload. *)

Lemma items_below (n v : N) t vs : denotes n t → ArrayItems n = Ok vs → v ∈ vs → ∃ t', denotes v t' ∧ (height t' < height t)%nat.
Proof using Type.
  intros Hd Hvs Hv. pose proof (law_ArrayItems n t Hd) as Hl. destruct (shape_items (tree_shape t)) as [ts|] eqn:Hs.
  - destruct Hl as (vs' & E & Hall). assert (vs' = vs) as -> by congruence.
    apply list_elem_of_lookup_1 in Hv as [i Hi]. destruct (Forall2_lookup_l _ _ _ _ _ Hall Hi) as (t' & Ht' & ?). exists t'. split; [done|].
    eapply height_item; [|by eapply list_elem_of_lookup_2]. destruct (tree_shape t); cbn in Hs; congruence.
  - destruct Hl as [msg E]. congruence.
Qed.
Lemma member_below (n v : N) t k : denotes n t → ObjectGet n k = Ok (Some v) → ∃ t', denotes v t' ∧ (height t' < height t)%nat.
Proof using Type.
  intros Hd Hv. pose proof (law_ObjectGet n t Hd k) as Hl. destruct (shape_get (tree_shape t) k) as [t'|] eqn:Hs; [|congruence].
  destruct Hl as (v' & E & ?). assert (v' = v) as -> by congruence. exists t'. split; [done|]. by eapply height_get.
Qed.

Lemma walkNode_fuel fuel : ∀ fuel' node (raw : N) t p out, denotes raw t → (height t ≤ fuel)%nat → (height t ≤ fuel')%nat →
  walkNode d ns ids tables rowOID general ec fuel node raw p out = walkNode d ns ids tables rowOID general ec fuel' node raw p out.
Proof using Type.
  induction fuel as [|fuel IH]; intros fuel' node raw t p out Hd Hf Hf'; [by destruct t as [? []]; cbn in Hf; lia|].
  destruct fuel' as [|fuel']; [by destruct t as [? []]; cbn in Hf'; lia|]. cbn [walkNode].
  destruct (ids !! node) as [nodeID|]; [|done]. apply M_bind_ext. intros x ? _. destruct (negb _); [done|].
  apply M_bind_ext. intros rowID ? _. apply M_bind_ext. intros fields ? _. apply for_each_ext. intros _ f s _.
  unfold walk_child. destruct (embedChildOf f) as [c|]; [|done]. apply M_bind_ext. intros v ? [Hv ->]%lift_ok.
  destruct v as [v|]; [|done]. destruct (member_below _ _ _ _ Hd Hv) as (tv & Htv & Hlt). destruct (bool_decide _); [done|].
  destruct (bool_decide _); [|apply (IH _ _ _ tv); [done|lia..]]. destruct (negb _); [done|]. apply M_bind_ext.
  intros items ? [Hitems ->]%lift_ok. apply for_each_ext. intros _ a s2 Ha.
  destruct (items_below _ _ _ _ Htv Hitems Ha) as (ta & Hta & ?). apply (IH _ _ _ ta); [done|lia..].
Qed.


(** C18: Denormalizing loads one row for every object the payload holds for a node
    that writes: the rows are numbered one by one from the first free id, each is
    the root's or under an earlier row, at a field of that row's select, and the
    batch of a table is the rows of its nodes, added in that order. *)
Theorem denormalize_rows fuel root payload start out :
  (∀ relid t, tables !! relid = Some t → tt_relid t = relid) →
  0 ≤ start → denormalizeNode d ns ids tables rowOID general ec fuel root payload start = Ok out →
  wr_nextRowID out ≤ 2 ^ 31 →
  ∃ es : list (entry N), payload_rows d ns ids tables fuel root payload start = Ok es ∧
    (∀ i e, es !! i = Some e → RowID (en_meta e) = start + Z.of_nat i) ∧
    forest d ns (λ e, en_node e = root ∧ ParentID (en_meta e) = None) es ∧
    holds d ids tables rowOID general ec start es out.
Proof using Type.
  intros Ht Hstart Hok Hnext. apply denormalizeNode_loads in Hok as (es & Hes & Hl). exists es. split; [done|].
  assert (laid d ns tables (λ e, en_node e = root ∧ ParentID (en_meta e) = None) start es) as HL.
  { unfold payload_rows in Hes. destruct (ArrayItems payload) as [items| | |]; cbn [mbind outcome_bind] in Hes; [|done..].
    eapply laid_list; [|exact Hes]. intros item n es' _ He. eapply rows_of_laid; [exact He|done]. }
  pose proof (load_next _ _ _ _ _ _ _ _ Hl) as Hn. cbn [no_rows wr_nextRowID] in Hn.
  split; [|split; [apply HL|]].
  - intros i e He. rewrite (proj1 HL _ _ He). apply lookup_lt_Some in He. unfold w32. rewrite Z.mod_small; lia.
  - eapply (load_holds d ids tables rowOID general ec start es []); [|apply holds_nil|exact Hl].
    intros e He. by eapply laid_table.
Qed.
End properties.

(** ** Two users, the first with a post *)

Definition loading_infos : DbInfos :=
  MkDbInfos (Relations blog_infos) (RelationMapBySchemaName blog_infos) [] ∅ {[ oidInt4 := int4 ]} ["public"].
Definition loading_query : rawRelation :=
  RawRelation "users" "" false "" "" None None None None "upsert" "" None None None
    (Some [("posts", RawRelation "posts" "" false "" "" (Some [("author", "id")]) None None None "upsert" "" None None None
       None None false [] [] None None)])
    (Some (ObjectExpr [("id", Identifier "id" None); ("posts", Identifier "posts" None)])) false [] [] None None.
Definition loading : list QueryNode :=
  let none := MkBlacklist ∅ ∅ in
  let s := run_resolver (resolveQuery loading_infos none 6 loading_query) empty_resolver in
  let s := run_resolver (resolveExpressions loading_infos none (length (r_nodes s)) 0) s in
  r_nodes (run_resolver (deriveShapes loading_infos none id 2 0) s).
Definition loading_ids : gmap node_id Z := {[ 0%nat := 0; 1%nat := 1 ]}.
Definition loading_oid (relid : Z) (general : bool) : Z := 1000 + relid.
Definition loading_tables : gmap Z tempTable := result ∅ (
  users ← from_option Ok Panic (GetRelation loading_infos 1); posts ← from_option Ok Panic (GetRelation loading_infos 2);
  users ← newTempTable loading_infos 1 users; posts ← newTempTable loading_infos 2 posts;
  Ok {[ 1 := users; 2 := posts ]}).
(** [[{"id": 1, "posts": [{"id": 7}]}, {"id": 2}]] *)
Definition loading_bytes : bytes :=
  map zb [130; 162; 98; 105; 100; 1; 101; 112; 111; 115; 116; 115; 129; 161; 98; 105; 100; 7; 161; 98; 105; 100; 2].
Definition loading_rows (fuel : nat) (payload : cborNode) : outcome writeRows :=
  denormalizeNode loading_infos loading loading_ids loading_tables loading_oid true None fuel 0 payload 1.

Lemma denormalize_rows_witness : ∃ payload out, read_root loading_bytes = Some payload ∧ loading_rows 3 payload = Ok out ∧
  ∃ es : list (entry cborNode), length es = 3%nat ∧
    (∀ i e, es !! i = Some e → RowID (en_meta e) = 1 + Z.of_nat i) ∧
    forest loading_infos loading (λ e, en_node e = 0%nat ∧ ParentID (en_meta e) = None) es ∧
    holds loading_infos loading_ids loading_tables loading_oid true None 1 es out.
Proof.
  destruct (read_root loading_bytes) as [payload|] eqn:E; [|by vm_compute in E].
  assert (is_ok (loading_rows 3 payload) = true ∧ wr_nextRowID (result (no_rows 0) (loading_rows 3 payload)) = 4) as [Hok Hn].
  { vm_compute in E. injection E as <-. split; vm_compute; reflexivity. }
  apply (result_ok (no_rows 0)) in Hok. exists payload, (result (no_rows 0) (loading_rows 3 payload)). split; [done|]. split; [done|].
  assert (∀ relid t, loading_tables !! relid = Some t → tt_relid t = relid) as Ht.
  { assert (forallb (λ p, bool_decide (tt_relid p.2 = p.1)) (map_to_list loading_tables) = true) as Hall by (vm_compute; reflexivity).
    intros relid t Hl. rewrite forallb_forall in Hall. apply elem_of_map_to_list, list_elem_of_In in Hl.
    apply Hall in Hl. by rewrite bool_decide_eq_true in Hl. }
  destruct (denormalize_rows loading_infos loading loading_ids loading_tables loading_oid true None 3 0 payload 1 _ Ht
    (ltac:(lia)) Hok (ltac:(lia))) as (es & _ & Hnum & Hf & Hh).
  exists es. split_and!; [|done..]. destruct Hh. lia.
Defined.

