(* ===== verification/WriteColumns.v ===== *)
(** The columns of a write: the column sets of [src/query/write_dml.go], and what
    [write.go] and [write_fast.go] decide of a tree before they write it. *)
From Stdlib Require Import ZArith Lia Ascii.
From S2P Require Import Prelude CborNode Document Catalog Joins Expression Nodes ResolveQuery ResolveExpr Shape MaskSlots TempTable Compile Denormalize.
Set Warnings "-register-all".

Section columns.
Context (d : DbInfos) (ns : list QueryNode).
Implicit Types (i : node_id) (x : QueryNode).

(** [seen] and the list of the paths added so far. *)
Abbreviation paths := (gset string * list ColumnPath)%type.
Definition add_path (acc : paths) (cp : ColumnPath) : paths :=
  if decide (Key cp ∈ acc.1) then acc else ({[Key cp]} ∪ acc.1, acc.2 ++ [cp]).
Definition add_paths (acc : paths) (cps : list ColumnPath) : paths := foldl add_path acc cps.

Definition dedupeColumnPaths (a b : list ColumnPath) : list ColumnPath := (add_paths (∅, []) (a ++ b)).2.

Definition wrapColumns i (cols : list Column) : list ColumnPath := map (own_path i) cols.

Definition requireIdentityColumns x : outcome (list Column) :=
  cols ← identityColumns d x;
  match cols with [] => errorf "%s requires an identity (on_conflict or primary key) column set" | _ => Ok cols end.

(** ** The node and its neighbours *)

Definition isIncoming (p : node_id) i : outcome bool := x ← at_index ns p; Ok (bool_decide (i ∈ n_incoming x)).
Definition outgoing_of (p : node_id) i : outcome bool := x ← at_index ns p; Ok (bool_decide (i ∈ n_outgoing x)).

Fixpoint outgoing_source (children : list node_id) (col : Column) : outcome (option (node_id * Column)) :=
  match children with
  | [] => Ok None
  | c :: children =>
      x ← at_index ns c;
      match find (λ jc, bool_decide (jc.2 = col)) (n_join x) with
      | Some jc => Ok (Some (c, jc.1))
      | None => outgoing_source children col
      end
  end.
Definition outgoingKeySource x (col : Column) : outcome (option (node_id * Column)) := outgoing_source (n_outgoing x) col.

Definition incomingKeySource i x (col : Column) : outcome (option Column) :=
  match n_parent x with
  | None => Ok None
  | Some p =>
      b ← isIncoming p i;
      Ok (if b : bool then snd <$> find (λ jc, bool_decide (jc.1 = col)) (n_join x) else None)
  end.

Definition isKeyLinked i x (col : Column) : outcome bool :=
  k ← incomingKeySource i x col;
  match k with
  | Some _ => Ok true
  | None => o ← outgoingKeySource x col; Ok (bool_decide (is_Some o))
  end.

(** The columns the children's joins name of their parent: [jc.Distant]. *)
Fixpoint distant_columns (children : list node_id) : outcome (list Column) :=
  match children with
  | [] => Ok []
  | c :: children => x ← at_index ns c; cols ← distant_columns children; Ok (map snd (n_join x) ++ cols)
  end.

(** [jc.Local] of a node whose parent it refers to, and of one its parent does. *)
Definition local_columns (under : node_id → node_id → outcome bool) i x : outcome (list Column) :=
  match n_parent x with
  | None => Ok []
  | Some p => b ← under p i; Ok (if b : bool then map fst (n_join x) else [])
  end.

(** ** Column sets *)

(** The extractors an allowlist admits; an empty one admits all. *)
Fixpoint allowed_paths (allowlist : list string) (exs : list Extractor) : outcome (list ColumnPath) :=
  match exs with
  | [] => Ok []
  | ex :: exs =>
      b ← match allowlist, cp_path (ex_path ex) with
          | [], _ => Ok true
          | _, [] => Panic
          | _, c :: _ => Ok (bool_decide (col_name c ∈ allowlist))
          end;
      cps ← allowed_paths allowlist exs;
      Ok (if b : bool then ex_path ex :: cps else cps)
  end.

Definition has_default (c : Column) : bool := negb (String.eqb (DefaultExpression c) "").

Definition columnsFor i x (allowlist : list string) : outcome (list ColumnPath) :=
  sh ← of_option Panic (n_shape x);
  own ← allowed_paths allowlist (sh_extractors sh);
  ident ← identityColumns d x;
  outgoing ← distant_columns (n_outgoing x);
  incoming ← local_columns isIncoming i x;
  Ok (add_paths (∅, []) (own ++ wrapColumns i (filter (λ c, has_default c = true) ident ++ outgoing ++ incoming))).2.

Definition add_column (cols : list Column) (c : Column) : list Column := if decide (c ∈ cols) then cols else cols ++ [c].

Definition keysColumns i x : outcome (list Column) :=
  ident ← identityColumns d x;
  incoming ← distant_columns (n_incoming x);
  outgoing ← local_columns outgoing_of i x;
  Ok (foldl add_column ident (incoming ++ outgoing)).

Definition withKeysColumns i x (cols : list ColumnPath) : outcome (list ColumnPath) :=
  keys ← keysColumns i x; Ok (dedupeColumnPaths cols (wrapColumns i keys)).

Definition firstColumnNotIn (cols exclude : list Column) : option Column := find (λ c, bool_decide (c ∉ exclude)) cols.

Definition excluded (exclude : list Column) (cp : ColumnPath) : bool :=
  match cp_path cp with [c] => bool_decide (c ∈ exclude) | _ => false end.
Definition excludeColumnPaths (cols : list ColumnPath) (exclude : list Column) : list ColumnPath :=
  filter (λ cp, excluded exclude cp = false) cols.

(** [UpdateColumns], or [InsertColumns] where there are none. *)
Definition update_allowlist x : list string :=
  match default [] (n_update_columns x) with [] => default [] (n_insert_columns x) | l => l end.

Definition insertColumns i x : outcome (list ColumnPath) := columnsFor i x (default [] (n_insert_columns x)) ≫= withKeysColumns i x.

(** What an update sets: never what locates the row. *)
Definition updateSetColumns i x : outcome (list ColumnPath) :=
  cols ← columnsFor i x (update_allowlist x);
  ident ← requireIdentityColumns x;
  Ok (excludeColumnPaths cols ident).

Definition primary_columns (r : Relation) : outcome (list Column) :=
  match PrimaryKey r with None => Ok [] | Some k => constraint_columns r (con_columns k) end.
Definition upsertSetColumns i x (r : Relation) : outcome (list ColumnPath) :=
  ident ← requireIdentityColumns x;
  cols ← columnsFor i x (update_allowlist x);
  pk ← primary_columns r;
  Ok (excludeColumnPaths cols (ident ++ pk)).

(** [MaskSlotFor] of a node's relation. *)
Definition node_slot x (path : list Column) : outcome (option MaskSlot) :=
  match n_relation x, node_relation d x with
  | Some ref, Some r => MaskSlotFor d (relid_of ref) r path
  | _, _ => Panic
  end.

Definition in_mask (mask : list Z) (slot : MaskSlot) : bool :=
  match mask !! slot_word slot with Some w => Z.testbit w (Z.of_nat (slot_bit slot)) | None => false end.
Fixpoint supplied_paths x (mask : list Z) (cps : list ColumnPath) : outcome (list ColumnPath) :=
  match cps with
  | [] => Ok []
  | cp :: cps =>
      slot ← node_slot x (cp_path cp);
      rest ← supplied_paths x mask cps;
      Ok (if from_option (in_mask mask) false slot then cp :: rest else rest)
  end.

Definition patchSetColumns i x (mask : list Z) : outcome (list ColumnPath) :=
  cols ← columnsFor i x (update_allowlist x);
  setCols ← supplied_paths x mask cols;
  match setCols with [] => errorf "update: the patch names no column the select makes writable" | _ => Ok setCols end.
End columns.

(** * The nodes of a write *)

Section tree.
Context (ns : list QueryNode).

(** A walk of the children of a node, a state passed along. *)
Fixpoint walk_all {S} (f : node_id → S → outcome S) (l : list node_id) (s : S) : outcome S :=
  match l with
  | [] => Ok s
  | c :: l => s ← f c s; walk_all f l s
  end.

(** [ids] and [next]. *)
Fixpoint assign (fuel : nat) (i : node_id) (s : gmap node_id Z * Z) : outcome (gmap node_id Z * Z) :=
  match fuel with
  | O => OutOfFuel
  | S fuel =>
      x ← at_index ns i;
      if decide (n_mode x = READONLY) then Ok s
      else
        s ← walk_all (assign fuel) (n_outgoing x) (<[i := s.2]> s.1, s.2 + 1);
        walk_all (assign fuel) (n_incoming x) s
  end.
Definition assignNodeIDs (root : node_id) (startAt : Z) : outcome (gmap node_id Z * Z) := assign (length ns) root (∅, startAt).

Fixpoint first_found (f : node_id → outcome (option node_id)) (l : list node_id) : outcome (option node_id) :=
  match l with
  | [] => Ok None
  | c :: l => r ← f c; match r with Some _ => Ok r | None => first_found f l end
  end.
Fixpoint find_unwritable (fuel : nat) (i : node_id) : outcome (option node_id) :=
  match fuel with
  | O => OutOfFuel
  | S fuel =>
      x ← at_index ns i;
      if decide (n_mode x = READONLY) then Ok None
      else
        found ← first_found (find_unwritable fuel) (n_outgoing x ++ n_incoming x);
        match found with
        | Some _ => Ok found
        | None => Ok (match n_shape x with Some sh => if sh_writable sh then None else Some i | None => None end)
        end
  end.
Definition findUnwritableNode (root : node_id) : outcome (option node_id) := find_unwritable (length ns) root.

(** The join aliases from the root down. *)
Fixpoint stat_path (fuel : nat) (i : node_id) (path : list string) : outcome (list string) :=
  match fuel with
  | O => OutOfFuel
  | S fuel =>
      x ← at_index ns i;
      match n_parent x with
      | None => Ok path
      | Some p => stat_path fuel p (n_outer x :: path)
      end
  end.
Definition nodeStatPath (i : node_id) : outcome (list string) := stat_path (length ns) i [].
End tree.

Definition hasDeleteComponent (m : WriteMode) : bool :=
  match m with MERGE | MERGE_NEW | MERGE_UPDATE | DELETE_ONLY => true | _ => false end.

(** * Payloads *)

Definition errNotPatch {A} : outcome A :=
  errorc WriteForbidden ("write: write_mode " +:+ quote +:+ "update" +:+ quote +:+ " takes " +:+ quote +:+ "data" +:+ quote +:+
    " as a single patch object").
Definition patchAsPayload {N} `{Node N} (payload : option N) : outcome (writePayload N) :=
  match payload with
  | Some p => if bool_decide (Kind p = KindObject) then Ok (synthArray [p]) else errNotPatch
  | None => errNotPatch
  end.

Definition noData {N} `{Node N} (payload : option N) : outcome bool :=
  match payload with
  | None => Ok true
  | Some p =>
      if bool_decide (Kind p = KindNull) then Ok true
      else if bool_decide (Kind p = KindArray) then
        match (ArrayItems p : outcome (list N)) with
        | Ok items => Ok (match items with [] => true | _ => false end)
        | Err _ => Ok false
        | Panic => Panic
        | OutOfFuel => OutOfFuel
        end
      else Ok false
  end.

(** * The fast path *)

Fixpoint plainRowExpr (e : Expression) (root : node_id) : bool :=
  let plain e := plainRowExpr e root in
  match e with
  | NullLiteral | BoolLiteral _ | NumberLiteral _ | StringLiteral _ | BigIntLiteral _ | NumericLiteral _ | ParamExpr _ _ => true
  | Identifier _ r =>
      match r with Some (RColumnPath n [_] _) => bool_decide (n = root) | _ => false end
  | ColExpr _ g s _ c => bool_decide (g = None) && bool_decide (s = None) && bool_decide (is_Some c)
  | UnaryExpr _ e => plain e
  | BinaryExpr _ l r => plain l && plain r
  | FoldedExpr op l r => negb (String.eqb op FoldDot) && plain l && plain r
  | BetweenExpr _ min e max => plain min && plain e && plain max
  | InExpr _ s cs => plain s && forallb plain cs
  | _ => false
  end.

Record WriteOptions := MkWriteOptions { wo_stats : bool; wo_queryPlan : bool; wo_sql : bool; wo_noFastPath : bool; wo_format : OutputFormat }.

Definition plain_field (root : node_id) (f : selectField) : bool :=
  match f with SFEmbed _ _ => false | SFColumn _ _ => true | SFExpr _ e => plainRowExpr e root end.

Definition fastWriteEligible (d : DbInfos) (ns : list QueryNode) (root : node_id) (opts : WriteOptions) : outcome bool :=
  if wo_noFastPath opts || wo_stats opts || wo_sql opts || wo_queryPlan opts then Ok false
  else
    x ← at_index ns root;
    if negb (bool_decide (n_mode x ∈ [INSERT; UPSERT; UPDATE_EXISTING; UPDATE])) then Ok false
    else if negb (IsRelation x) || IsFunction x || bool_decide (is_Some (n_parent x)) ||
            negb (Nat.eqb (length (n_outgoing x)) 0) || negb (Nat.eqb (length (n_incoming x)) 0) then Ok false
    else if negb (isShapeProducingSelect (n_select x)) then Ok false
    else
      match select_fields d ns x with
      | Ok fields =>
          Ok (forallb (plain_field root) fields && from_option (λ e, plainRowExpr e root) true (n_where x) &&
              forallb (λ t, plainRowExpr t.1 root) (n_order_by x) && forallb (λ e, plainRowExpr e root) (n_distinct_on x))
      | Err _ => Ok false
      | Panic => Panic
      | OutOfFuel => OutOfFuel
      end.
