(* ===== verification/Erase.v ===== *)
(** A query without its values: the literals of its expressions, its limits and
    offsets, each replaced by one of its kind.  The text that names the type of a
    cast is not a value and stays. *)
From Stdlib Require Import ZArith Lia Ascii.
From S2P Require Import Prelude Catalog Joins Expression Nodes ResolveExpr Compile.
Set Warnings "-register-all".

(** ** Induction on expressions *)

Definition opt_list {A} (o : option A) : list A := match o with Some a => [a] | None => [] end.

Definition subterms (e : Expression) : list Expression :=
  match e with
  | UnaryExpr _ e => [e]
  | BinaryExpr _ l r | FoldedExpr _ l r | AnyAllExpr _ _ l r | IndexExpr l r => [l; r]
  | BetweenExpr _ a b c | SliceExpr a b c => [a; b; c]
  | InExpr _ e es | ConcatWsExpr e es => e :: es
  | CoalesceExpr es | FormatExpr _ es | ArrExpr es | LstExpr es | CallExpr _ es _ => es
  | AggExpr _ _ args f _ order_by _ => args ++ opt_list f ++ map fst order_by
  | ObjectExpr m | StarExpr _ _ m => map snd m
  | ColExpr _ dget dset _ _ => opt_list dget ++ opt_list dset
  | GetExpr _ def _ | SetExpr _ def _ => opt_list def
  | _ => []
  end.

Lemma subterms_height e s : s ∈ subterms e → (expr_height s < expr_height e)%nat.
Proof.
  destruct e; cbn [subterms expr_height]; rewrite ?elem_of_cons, ?elem_of_app, ?elem_of_nil; try done;
    repeat match goal with |- context [opt_list ?o] => destruct o; cbn [opt_list] end;
    rewrite ?elem_of_cons, ?elem_of_nil; intros Hs;
    repeat match type of Hs with _ ∨ _ => destruct Hs as [Hs|Hs] end; try done; subst;
    try (apply list_elem_of_fmap in Hs as (t & -> & Hs));
    try lia; try (apply (list_max_in expr_height) in Hs; lia);
    try (apply (list_max_in (λ t, expr_height t.1)) in Hs; lia);
    apply (list_max_in (λ t, expr_height t.2)) in Hs; lia.
Qed.

Lemma Expression_subterm_ind (P : Expression → Prop) :
  (∀ e, (∀ s, s ∈ subterms e → P s) → P e) → ∀ e, P e.
Proof.
  intros H e. remember (expr_height e) as h eqn:Hh. revert e Hh.
  induction (lt_wf h) as [h _ IH]. intros e ->. apply H. intros s Hs.
  apply (IH (expr_height s)); [by apply subterms_height|done].
Qed.

(** ** Erasing *)

Fixpoint erase (e : Expression) : Expression :=
  let all := map erase in
  let opt (o : option Expression) := match o with Some e => Some (erase e) | None => None end in
  let fields := map (λ kv : string * Expression, (kv.1, erase kv.2)) in
  match e with
  | NumberLiteral _ => NumberLiteral 0
  | StringLiteral _ => StringLiteral ""
  | BigIntLiteral _ => BigIntLiteral ""
  | NumericLiteral _ => NumericLiteral ""
  | UnaryExpr op e => UnaryExpr op (erase e)
  | BinaryExpr op l r =>
      BinaryExpr op (erase l) (if String.eqb op BinaryCast then match r with StringLiteral s => r | _ => erase r end else erase r)
  | FoldedExpr op l r => FoldedExpr op (erase l) (erase r)
  | BetweenExpr b x y z => BetweenExpr b (erase x) (erase y) (erase z)
  | InExpr b x es => InExpr b (erase x) (all es)
  | AnyAllExpr b op x y => AnyAllExpr b op (erase x) (erase y)
  | ConcatWsExpr x es => ConcatWsExpr (erase x) (all es)
  | CoalesceExpr es => CoalesceExpr (all es)
  | FormatExpr _ es => FormatExpr "" (all es)
  | AggExpr a fn es f b ts r => AggExpr a fn (all es) (opt f) b (map (λ t : OrderByTerm, (erase t.1, t.2)) ts) r
  | CallExpr fn es r => CallExpr fn (all es) r
  | ObjectExpr m => ObjectExpr (fields m)
  | StarExpr b ex m => StarExpr b ex (fields m)
  | ArrExpr es => ArrExpr (all es)
  | LstExpr es => LstExpr (all es)
  | IndexExpr x y => IndexExpr (erase x) (erase y)
  | SliceExpr x y z => SliceExpr (erase x) (erase y) (erase z)
  | ColExpr c g s r rc => ColExpr c (opt g) (opt s) r rc
  | GetExpr c g rc => GetExpr c (opt g) rc
  | SetExpr c g rc => SetExpr c (opt g) rc
  | _ => e
  end.

Abbreviation erase_opt := (option_map erase).
Abbreviation erase_fields := (map (prod_map (@id string) erase)).
Abbreviation erase_terms := (map (prod_map erase (@id OrderByDirection))).

Definition erase_node (x : QueryNode) : QueryNode :=
  MkNode (n_parent x) (n_join x) (n_outer x) (n_outgoing x) (n_incoming x) (n_relation x) (n_function x)
    (map erase (n_args x)) (option_map erase_fields (n_named x)) (n_inner x) (erase_opt (n_where x)) (n_mode x)
    (n_conflict_name x) (n_conflict_columns x) (n_insert_columns x) (n_update_columns x) (erase (n_select x))
    (n_distinct x) (map erase (n_distinct_on x)) (erase_terms (n_order_by x))
    (option_map (λ _, 0) (n_offset x)) (option_map (λ _, 0) (n_limit x)) (n_shape x).

(** ** What the compiler looks into stays *)

Lemma bareResolvedField_erase e : bareResolvedField (erase e) = bareResolvedField e.
Proof. by destruct e. Qed.

Lemma rootQueryNodeOf_erase e : rootQueryNodeOf (erase e) = rootQueryNodeOf e.
Proof. induction e; cbn; try done. by rewrite IHe1. Qed.

Lemma first_some_map {A A' B} (g : A → A') (f : A → option B) (f' : A' → option B) l :
  (∀ a, a ∈ l → f' (g a) = f a) → first_some f' (map g l) = first_some f l.
Proof.
  induction l as [|a l IH]; intros H; cbn; [done|]. rewrite H by by left. rewrite IH; [done|].
  intros x Hx. apply H. by right.
Qed.

(** The erased expression of a cast's type. *)
Definition erase_operand (op : string) (r : Expression) : Expression :=
  if String.eqb op BinaryCast then match r with StringLiteral s => r | _ => erase r end else erase r.

Lemma childReferencedBy_operand op r :
  childReferencedBy (erase r) = childReferencedBy r → childReferencedBy (erase_operand op r) = childReferencedBy r.
Proof. unfold erase_operand. intros H. destruct (String.eqb op BinaryCast); [|done]. by destruct r. Qed.

Lemma childReferencedBy_unfold e :
  childReferencedBy e =
  match rootQueryNodeOf e with
  | Some n => Some n
  | None =>
      match e with
      | UnaryExpr _ _ | BinaryExpr _ _ _ | FoldedExpr _ _ _ | BetweenExpr _ _ _ _ | InExpr _ _ _ | CoalesceExpr _ | CallExpr _ _ _ =>
          first_some childReferencedBy (subterms e)
      | _ => None
      end
  end.
Proof.
  destruct e; cbn [childReferencedBy subterms first_some]; destruct (rootQueryNodeOf _); try done; unfold or_else;
    repeat match goal with |- context [childReferencedBy ?e] => destruct (childReferencedBy e) eqn:? end; done.
Qed.

Lemma childReferencedBy_erase e : childReferencedBy (erase e) = childReferencedBy e.
Proof.
  induction e as [e IH] using Expression_subterm_ind.
  rewrite (childReferencedBy_unfold e), (childReferencedBy_unfold (erase e)), rootQueryNodeOf_erase.
  destruct (rootQueryNodeOf e) eqn:E; [done|].
  destruct e; cbn [erase subterms] in *; try done; cbn [first_some];
    rewrite ?(first_some_map erase childReferencedBy childReferencedBy) by (intros; apply IH; try right; done);
    change (if String.eqb ?op BinaryCast then _ else erase ?r) with (erase_operand op r);
    rewrite ?childReferencedBy_operand by (apply IH; set_solver);
    rewrite ?IH by set_solver; done.
Qed.

Lemma aggTargetChild_erase args : aggTargetChild (map erase args) = aggTargetChild args.
Proof. apply first_some_map. intros. apply childReferencedBy_erase. Qed.

Lemma concat_map_map {A B} (g : A → A) (h : B → B) (f : A → list B) l :
  (∀ a, a ∈ l → f (g a) = map h (f a)) → concat (map f (map g l)) = map h (concat (map f l)).
Proof.
  induction l as [|a l IH]; intros H; cbn; [done|]. rewrite map_app, H by by left. f_equal. apply IH.
  intros x Hx. apply H. by right.
Qed.

Lemma walkAggs_operand op r : walkAggs (erase r) = map erase (walkAggs r) → walkAggs (erase_operand op r) = map erase (walkAggs r).
Proof. unfold erase_operand. intros H. destruct (String.eqb op BinaryCast); [|done]. by destruct r. Qed.

Lemma walkAggs_erase e : walkAggs (erase e) = map erase (walkAggs e).
Proof.
  induction e as [e IH] using Expression_subterm_ind.
  assert (∀ m, (∀ kv, kv ∈ m → walkAggs (erase kv.2) = map erase (walkAggs kv.2)) →
    concat (map (λ kv : string * Expression, walkAggs kv.2) (erase_fields m)) =
    map erase (concat (map (λ kv : string * Expression, walkAggs kv.2) m))) as Hfields
    by (intros m Hm; by apply concat_map_map).
  assert (∀ es, (∀ x, x ∈ es → walkAggs (erase x) = map erase (walkAggs x)) →
    concat (map walkAggs (map erase es)) = map erase (concat (map walkAggs es))) as Hlist by (intros; by apply concat_map_map).
  destruct e; cbn [erase subterms walkAggs] in *; try done;
    change (if String.eqb ?op BinaryCast then _ else erase ?r) with (erase_operand op r);
    rewrite ?walkAggs_operand by (apply IH; set_solver);
    repeat match goal with |- context [match ?o with Some _ => _ | None => _ end] => is_var o; destruct o; cbn [opt_list] in * end;
    rewrite ?(Hfields _) by (intros kv Hkv; apply IH, list_elem_of_fmap; eauto);
    rewrite ?Hlist by (intros; apply IH; set_solver);
    rewrite ?IH by set_solver; rewrite ?map_app, ?app_nil_r; try done.
  cbn [map]. by rewrite map_app.
Qed.

(** ** Plans *)

Definition erase_plan (p : lateralPlan) : lateralPlan :=
  MkLateralPlan (lp_alias p) (lp_hasArray p) (map (λ a, MkAggConsumer (erase (ac_expr a)) (ac_alias a)) (lp_aggs p)).
Abbreviation erase_plans := (map (prod_map (@id node_id) erase_plan)).

Lemma plan_for_erase c f f' m :
  (∀ p, f' (erase_plan p) = erase_plan (f p)) → plan_for c f' (erase_plans m) = erase_plans (plan_for c f m).
Proof.
  intros Hf. induction m as [|[c' p] m IH]; cbn.
  - by rewrite <-Hf.
  - destruct (decide (c' = c)); cbn; [by rewrite Hf|]. f_equal. exact IH.
Qed.

Lemma plan_of_erase c m : plan_of (erase_plans m) c = erase_plan <$> plan_of m c.
Proof.
  unfold plan_of. induction m as [|[c' p] m IH]; cbn; [done|]. by destruct (bool_decide (c' = c)).
Qed.

Lemma count_arrays_erase x m : count_arrays (erase_node x) (erase_plans m) = erase_plans (count_arrays x m).
Proof.
  unfold count_arrays. cbn [n_shape erase_node]. destruct (n_shape x) as [sh|]; [|done].
  revert m. induction (sh_fields sh) as [|[k [[]|]] fs IH]; intros m; cbn [foldl snd]; try apply IH; [done|].
  cbn [n_incoming erase_node]. destruct (decide (node ∈ n_incoming x)); [|apply IH].
  rewrite (plan_for_erase _ set_hasArray set_hasArray) by done. apply IH.
Qed.

Lemma agg_arguments_erase e : agg_arguments (erase e) = map erase (agg_arguments e).
Proof. by destruct e. Qed.

Lemma count_aggs_erase x m : count_aggs (erase_node x) (erase_plans m) = erase_plans (count_aggs x m).
Proof.
  unfold count_aggs. cbn [n_select erase_node]. rewrite walkAggs_erase.
  revert m. induction (walkAggs (n_select x)) as [|e es IH]; intros m; cbn [map foldl]; [done|].
  rewrite agg_arguments_erase, aggTargetChild_erase. destruct (aggTargetChild _) as [c|]; [|apply IH].
  cbn [n_incoming erase_node]. destruct (decide (c ∈ n_incoming x)); [|apply IH].
  rewrite (plan_for_erase _ (add_agg e) (add_agg (erase e))); [apply IH|].
  intros p. unfold add_agg, erase_plan. cbn. by rewrite map_app.
Qed.

Lemma number_aggs_erase p a : number_aggs (erase_plan p) a = erase_plan (number_aggs p a).
Proof.
  unfold number_aggs, erase_plan. cbn. f_equal. apply list_eq. intros i.
  rewrite list_lookup_imap, !list_lookup_fmap, list_lookup_imap. by destruct (lp_aggs p !! i).
Qed.

Lemma consumption_erase p : consumption (erase_plan p) = consumption p.
Proof. unfold consumption. cbn. by rewrite length_map. Qed.

Lemma shared_agg_erase p a :
  shared_agg (erase_plan p) a = (λ x, MkAggConsumer (erase (ac_expr x)) (ac_alias x)) <$> shared_agg p a.
Proof.
  unfold shared_agg. cbn [lp_aggs erase_plan]. induction (lp_aggs p) as [|x xs IH]; cbn; [done|].
  assert (agg_address (erase (ac_expr x)) = agg_address (ac_expr x)) as -> by by destruct (ac_expr x).
  by destruct (bool_decide _).
Qed.

(** ** Fields *)

Lemma map_get_erase k m : map_get k (erase_fields m) = erase <$> map_get k m.
Proof. induction m as [|[k' e] m IH]; cbn; [done|]. by destruct (decide (k' = k)). Qed.

Lemma sorted_fields_erase m : sorted_fields (erase_fields m) = erase_fields (sorted_fields m).
Proof.
  unfold sorted_fields. assert (map fst (erase_fields m) = map fst m) as -> by (rewrite map_map; done).
  induction (sort_strings (map fst m)) as [|k ks IH]; cbn; [done|]. rewrite map_get_erase, IH.
  by destruct (map_get k m).
Qed.

Definition erase_field (f : selectField) : selectField := match f with SFExpr k e => SFExpr k (erase e) | _ => f end.

Lemma sf_key_erase f : sf_key (erase_field f) = sf_key f.
Proof. by destruct f. Qed.
Lemma embedChildOf_erase f : embedChildOf (erase_field f) = embedChildOf f.
Proof. destruct f; cbn; [done..|]. by rewrite bareResolvedField_erase. Qed.

Lemma and_fields_erase m : and_fields (erase_fields m) = map erase_field (and_fields m).
Proof. unfold and_fields. rewrite sorted_fields_erase. induction (sorted_fields m) as [|kv l IH]; [done|]. cbn. by rewrite IH. Qed.

Lemma isShapeProducingSelect_erase e : isShapeProducingSelect (erase e) = isShapeProducingSelect e.
Proof. by destruct e. Qed.
