(* ===== verification/CompileText.v ===== *)
(** The text of a statement does not depend on the values of its query: compiled
    without them it is the same text, with the same parameters. *)
From Stdlib Require Import ZArith Lia Ascii.
From S2P Require Import Prelude Writer Catalog Joins KeysFacts Expression Nodes ResolveQuery ResolveQueryFacts ResolveExpr TempTable Compile Erase.
Set Warnings "-register-all".
#[local] Set Default Proof Using "Type*".

(** * Runs that agree *)

Create HintDb alike.

Definition same_text (w w' : SQLWriter bound) : Prop :=
  buf w' = buf w ∧ indentation w' = indentation w ∧ atLineStart w' = atLineStart w ∧
  map slot_name (slots w') = map slot_name (slots w).

Record sim (c c' : sqlCompiler) : Prop := {
  sim_w : same_text (c_w c) (c_w c');
  sim_next : c_next c' = c_next c;
  sim_alias : c_alias c' = c_alias c;
  sim_laterals : c_laterals c' = erase_plans (c_laterals c);
}.

(** The second outcome is the first one, up to [R]. *)
Definition same_outcome {A B} (R : A → B → Prop) (o : outcome A) (o' : outcome B) : Prop :=
  match o, o' with
  | Ok a, Ok b => R a b
  | Err e, Err e' => e = e'
  | Panic, Panic | OutOfFuel, OutOfFuel => True
  | _, _ => False
  end.

Definition alike {A B} (R : A → B → Prop) (m : C A) (m' : C B) : Prop :=
  ∀ c c', sim c c' → same_outcome (λ p p', R p.1 p'.1 ∧ sim p.2 p'.2) (m c) (m' c').

Lemma alike_ret {A B} (R : A → B → Prop) a b : R a b → alike R (mret a) (mret b).
Proof. intros HR c c' Hc. by split. Qed.

Lemma alike_bind {A B A' B'} (R : A → B → Prop) (Q : A' → B' → Prop) m m' f f' :
  alike R m m' → (∀ a b, R a b → alike Q (f a) (f' b)) → alike Q (m ≫= f) (m' ≫= f').
Proof.
  intros Hm Hf c c' Hc. specialize (Hm c c' Hc). unfold mbind, M_bind.
  destruct (m c) as [[a c1]|e| |], (m' c') as [[b c1']|e'| |]; try done.
  destruct Hm as [HR Hc1]. by apply (Hf a b HR).
Qed.

Lemma alike_mono {A B} (R Q : A → B → Prop) m m' : (∀ a b, R a b → Q a b) → alike R m m' → alike Q m m'.
Proof.
  intros HRQ Hm c c' Hc. specialize (Hm c c' Hc).
  destruct (m c) as [[a c1]|e| |], (m' c') as [[b c1']|e'| |]; try done.
  destruct Hm as [HR Hc1]. split; auto.
Qed.

Lemma alike_lift {A B} (R : A → B → Prop) o o' : same_outcome R o o' → alike R (lift o) (lift o').
Proof. intros Ho c c' Hc. unfold lift. by destruct o, o'. Qed.

Lemma same_outcome_refl {A} (o : outcome A) : same_outcome eq o o.
Proof. by destruct o. Qed.
Lemma alike_lift_eq {A} (o : outcome A) : alike eq (lift o) (lift o).
Proof. apply alike_lift, same_outcome_refl. Qed.
Lemma alike_error {A B} (R : A → B → Prop) msg : alike R (error_ msg) (error_ msg).
Proof. by apply alike_lift. Qed.
Lemma alike_panic {A B} (R : A → B → Prop) : alike R (lift Panic) (lift Panic).
Proof. by apply alike_lift. Qed.

Lemma alike_get : alike sim get get.
Proof. intros c c' Hc. by split. Qed.

Lemma alike_modify f f' : (∀ c c', sim c c' → sim (f c) (f' c')) → alike eq (modify f) (modify f').
Proof. intros Hf c c' Hc. split; [done|]. by apply Hf. Qed.

Lemma alike_put c c' : sim c c' → alike eq (put c) (put c').
Proof. intros Hc ? ? _. by split. Qed.

Lemma alike_for_each {A B} (g : A → B) (f : nat → A → C unit) (f' : nat → B → C unit) l : ∀ i,
  (∀ i a, a ∈ l → alike eq (f i a) (f' i (g a))) → alike eq (for_each f i l) (for_each f' i (map g l)).
Proof.
  induction l as [|a l IH]; intros i Hf; cbn; [by apply alike_ret|].
  eapply alike_bind; [apply Hf; by left|]. intros _ _ _. apply IH. intros j x Hx. apply Hf. by right.
Qed.

Lemma alike_map_m {A B A' B'} (g : A → A') (h : B → B') (f : A → C B) (f' : A' → C B') l :
  (∀ a, a ∈ l → alike (λ b b', b' = h b) (f a) (f' (g a))) →
  alike (λ bs bs', bs' = map h bs) (map_m f l) (map_m f' (map g l)).
Proof.
  induction l as [|a l IH]; intros Hf; cbn; [by apply alike_ret|].
  eapply alike_bind; [apply Hf; by left|]. intros b b' ->.
  eapply alike_bind; [apply IH; intros x Hx; apply Hf; by right|]. intros bs bs' ->. by apply alike_ret.
Qed.

(** ** The writer *)

Lemma same_text_char w w' c : same_text w w' → same_text (write_char w c) (write_char w' c).
Proof.
  intros (Hb & Hi & Ha & Hs). unfold write_char, same_text. case_decide.
  - cbn. by rewrite Hb, Hs.
  - rewrite Ha. destruct (atLineStart w) eqn:E; cbn; rewrite Hb, ?Hi, ?Ha, ?E, Hs; split_and!; reflexivity.
Qed.
Lemma same_text_Write s w w' : same_text w w' → same_text (Write s w) (Write s w').
Proof.
  rewrite !Write_chars. revert w w'. induction s as [|c s IH]; intros w w' Hw; cbn; [done|].
  by apply IH, same_text_char.
Qed.
Lemma same_text_push w w' s s' : slot_name s' = slot_name s → same_text w w' → same_text (push_slot s w) (push_slot s' w').
Proof. intros Hn (Hb & Hi & Ha & Hs). unfold same_text. cbn. split_and!; try done. rewrite !map_app, Hs. cbn. by rewrite Hn. Qed.
Lemma same_text_placeholder w w' : same_text w w' → placeholder w' = placeholder w.
Proof.
  intros (_ & _ & _ & Hs). unfold placeholder. do 3 f_equal.
  apply (f_equal length) in Hs. by rewrite !length_map in Hs.
Qed.

Lemma sim_set_w c c' f f' :
  sim c c' → (∀ w w', same_text w w' → same_text (f w) (f' w')) → sim (set_w (f (c_w c)) c) (set_w (f' (c_w c')) c').
Proof. intros [] Hf. split; cbn; auto. Qed.

Lemma alike_writer f f' :
  (∀ w w', same_text w w' → same_text (f w) (f' w')) →
  alike eq (modify (λ c, set_w (f (c_w c)) c)) (modify (λ c, set_w (f' (c_w c)) c)).
Proof. intros Hf. apply alike_modify. intros c c' Hc. by apply sim_set_w. Qed.

Lemma alike_write s : alike eq (write s) (write s).
Proof. apply alike_writer, same_text_Write. Qed.
Lemma alike_write_id s : alike eq (write_id s) (write_id s).
Proof. apply alike_writer, same_text_Write. Qed.
Lemma alike_bind_value v v' : alike eq (bind v) (bind v').
Proof.
  apply (alike_writer (Bind v) (Bind v')). intros w w' Hw. unfold Bind.
  pose proof (same_text_push w w' (BindSlot "" (Some v)) (BindSlot "" (Some v')) eq_refl Hw) as Hp.
  rewrite (same_text_placeholder _ _ Hp). by apply same_text_Write.
Qed.
Lemma alike_bind_param n : alike eq (bind_param n) (bind_param n).
Proof.
  apply (alike_writer (BindParam n) (BindParam n)). intros w w' Hw. unfold BindParam.
  pose proof (same_text_push w w' (BindSlot n None) (BindSlot n None) eq_refl Hw) as Hp.
  rewrite (same_text_placeholder _ _ Hp). by apply same_text_Write.
Qed.
Lemma alike_indent : alike eq indent indent.
Proof. apply alike_writer. intros w w' (? & Hi & ? & ?). unfold same_text, Indent. cbn. by rewrite Hi. Qed.
Lemma same_text_Unindent w w' : same_text w w' → same_outcome same_text (Unindent w) (Unindent w').
Proof. intros (Hb & Hi & Ha & Hs). unfold Unindent. rewrite Hi. by destruct (indentation w). Qed.
Lemma alike_unindent : alike eq unindent unindent.
Proof.
  eapply alike_bind; [apply alike_get|]. intros c c' Hc.
  eapply alike_bind; [apply alike_lift, same_text_Unindent, Hc|]. intros w w' Hw.
  apply alike_put. destruct Hc. by split.
Qed.

(** ** Aliases *)

Lemma alike_allocAlias : alike eq allocAlias allocAlias.
Proof.
  eapply alike_bind; [apply alike_get|]. intros c c' [Hw Hn Ha Hl]. cbn zeta. rewrite Hn.
  eapply alike_bind; [apply alike_put; by split|]. intros _ _ _. by apply alike_ret.
Qed.
Lemma alike_set_alias n a : alike eq (set_alias n a) (set_alias n a).
Proof. apply alike_modify. intros c c' [Hw Hn Ha Hl]. split; cbn; by rewrite ?Ha. Qed.
Lemma alike_alias_of n : alike eq (alias_of n) (alias_of n).
Proof.
  eapply alike_bind; [apply alike_get|]. intros c c' Hc.
  assert ((n ≫= (c_alias c' !!.)) = (n ≫= (c_alias c !!.))) as -> by by rewrite (sim_alias c c' Hc).
  destruct (n ≫= _); [by apply alike_ret|apply alike_error].
Qed.

#[local] Hint Resolve alike_write alike_write_id alike_bind_value alike_bind_param alike_indent alike_unindent alike_allocAlias
  alike_set_alias alike_alias_of alike_error alike_panic alike_get alike_lift_eq : alike.

(** One step of a goal of two runs: a bind, a branch on something they share, or
    a call known to agree. *)
Ltac alike_step :=
  match goal with
  | |- alike _ (mret _) (mret _) => apply alike_ret; reflexivity
  | |- alike _ (mbind _ _) (mbind _ _) => 
      first [eapply (alike_bind eq); [solve [alike_steps]|intros ? ? <-]|eapply alike_bind; [solve [alike_steps]|intros ? ? ?]]
  | |- alike _ (match ?x with _ => _ end) (match ?x with _ => _ end) => destruct x
  | |- alike _ _ _ => solve [eauto 3 with alike]
  end
with alike_steps := repeat alike_step.
(** The first part of a bind, then the rest. *)
Ltac alike_first := eapply (alike_bind eq); [|intros ? ? <-].

Section combinators.
Context {A B : Type}.

Lemma alike_Surround s e (m m' : C unit) : alike eq m m' → alike eq (Surround s e m) (Surround s e m').
Proof. intros Hm. unfold Surround. alike_steps. Qed.
Lemma alike_Paren (m m' : C unit) : alike eq m m' → alike eq (Paren m) (Paren m').
Proof. apply alike_Surround. Qed.
Lemma alike_Indented (m m' : C unit) : alike eq m m' → alike eq (Indented m) (Indented m').
Proof. intros Hm. unfold Indented. alike_steps. Qed.

Lemma alike_List (g : A → B) sep l (f : A → C unit) (f' : B → C unit) :
  (∀ a, a ∈ l → alike eq (f a) (f' (g a))) → alike eq (List_ sep l f) (List_ sep (map g l) f').
Proof.
  intros Hf. apply alike_for_each. intros i a Ha.
  eapply alike_bind; [destruct (Nat.ltb 0 i); alike_steps|]. intros _ _ _. by apply Hf.
Qed.
Lemma alike_SurroundList (g : A → B) s sep e l (f : A → C unit) (f' : B → C unit) :
  (∀ a, a ∈ l → alike eq (f a) (f' (g a))) → alike eq (SurroundList s sep e l f) (SurroundList s sep e (map g l) f').
Proof. intros Hf. unfold SurroundList. alike_step. alike_first; [by apply alike_Indented, alike_List|alike_steps]. Qed.
End combinators.

Lemma alike_List_same {A} sep l (f f' : A → C unit) :
  (∀ a, a ∈ l → alike eq (f a) (f' a)) → alike eq (List_ sep l f) (List_ sep l f').
Proof. intros Hf. rewrite <-(map_id l) at 2. by apply (alike_List (λ a, a)). Qed.

#[local] Hint Resolve alike_Surround alike_Paren alike_Indented : alike.

(** * The compiler *)

Definition erase_job (j : job) : job := match j with JExpr e n => JExpr (erase e) n | _ => j end.

Section bodies.
Context (d : DbInfos) (Sanitize : string → string) (ns : list QueryNode) (cfg : settings) (order : list node_id → list node_id).
Abbreviation ns' := (map erase_node ns).
Context (run run' : job → C unit) (Hrun : ∀ j, alike eq (run j) (run' (erase_job j))).
Implicit Types (e : Expression) (n : option node_id).

Lemma alike_c_node i : alike (λ x x', x' = erase_node x) (c_node ns i) (c_node ns' i).
Proof using Type.
  apply alike_lift. unfold at_index. rewrite list_lookup_fmap. by destruct (ns !! i).
Qed.

Lemma alike_isOutgoingOf p child : alike eq (isOutgoingOf ns p child) (isOutgoingOf ns' p child).
Proof using Type.
  unfold isOutgoingOf. destruct p as [p|]; [|apply alike_panic].
  eapply alike_bind; [apply alike_c_node|]. intros x ? ->. by apply alike_ret.
Qed.

Lemma alike_run_expr e n : alike eq (compileExpr run e n) (compileExpr run' (erase e) n).
Proof. apply (Hrun (JExpr e n)). Qed.
Lemma alike_run_path node path n : alike eq (run (JPath node path n)) (run' (JPath node path n)).
Proof. apply (Hrun (JPath node path n)). Qed.
Lemma alike_run_node i a p : alike eq (run (JNode i a p)) (run' (JNode i a p)).
Proof. apply (Hrun (JNode i a p)). Qed.
#[local] Hint Resolve alike_run_expr alike_run_path alike_run_node : alike.

Lemma alike_operand e n : alike eq (compileOperand run e n) (compileOperand run' (erase e) n).
Proof. pose proof (alike_run_expr e n) as H. destruct e; try exact H; apply alike_Paren, H. Qed.

Lemma alike_ArgList es n : alike eq (compileArgList run es n) (compileArgList run' (map erase es) n).
Proof. apply alike_SurroundList. intros. apply alike_run_expr. Qed.
#[local] Hint Resolve alike_operand alike_ArgList : alike.

Lemma alike_exprs sep es n :
  alike eq (List_ sep es (λ c, compileExpr run c n)) (List_ sep (map erase es) (λ c, compileExpr run' c n)).
Proof. apply alike_List. intros. apply alike_run_expr. Qed.
#[local] Hint Resolve alike_exprs : alike.

Lemma alike_qualify a s : alike eq (qualify a s) (qualify a s).
Proof using Type. unfold qualify. alike_steps. Qed.
#[local] Hint Resolve alike_qualify : alike.

Lemma alike_path alias path : alike eq (WriteQualifiedPath alias path) (WriteQualifiedPath alias path).
Proof using Type.
  unfold WriteQualifiedPath. induction (rev path) as [|c [|c' p] IH]; [by apply alike_lift|apply alike_qualify|].
  change (writeQualifiedPathN alias (c :: c' :: p)) with
    (_ ← Paren (writeQualifiedPathN alias (c' :: p)); _ ← write "."; write_id (col_name c)).
  alike_steps.
Qed.
#[local] Hint Resolve alike_path : alike.

Lemma alike_Unary op e n : alike eq (compileUnary run op e n) (compileUnary run' op (erase e) n).
Proof. unfold compileUnary. alike_steps. Qed.

Lemma castTypeName_erase r :
  castTypeName (match r with StringLiteral s => r | _ => erase r end) = castTypeName r.
Proof using Type. by destruct r. Qed.

Lemma alike_Binary op l r n :
  alike eq (compileBinary run op l r n) (compileBinary run' op (erase l) (erase_operand op r) n).
Proof.
  unfold compileBinary, erase_operand. destruct (String.eqb op BinaryCast); [rewrite castTypeName_erase|]; alike_steps.
Qed.

Lemma alike_In b e es n : alike eq (compileIn run b e es n) (compileIn run' b (erase e) (map erase es) n).
Proof. unfold compileIn. alike_steps. Qed.

Lemma subjectPgType_erase e : subjectPgType (erase e) = subjectPgType e.
Proof using Type. unfold subjectPgType. by rewrite bareResolvedField_erase. Qed.

Lemma alike_cast_element e a :
  alike eq (match a with ArrExpr _ | LstExpr _ =>
              match subjectPgType e with
              | Some t => name ← lift (type_name d t); _ ← write "::"; _ ← write name; write "[]"
              | None => mret tt
              end | _ => mret tt end)
           (match erase a with ArrExpr _ | LstExpr _ =>
              match subjectPgType (erase e) with
              | Some t => name ← lift (type_name d t); _ ← write "::"; _ ← write name; write "[]"
              | None => mret tt
              end | _ => mret tt end).
Proof using Type. rewrite subjectPgType_erase. destruct a; cbn [erase]; alike_steps. Qed.

Lemma alike_AnyAll b op e a n :
  alike eq (compileAnyAll d run b op e a n) (compileAnyAll d run' b op (erase e) (erase a) n).
Proof.
  unfold compileAnyAll. alike_steps. apply alike_Paren. alike_step. apply alike_cast_element.
Qed.

Lemma alike_Array es n : alike eq (compileArray run es n) (compileArray run' (map erase es) n).
Proof. unfold compileArray. alike_steps. Qed.
Lemma alike_Slice e es n : alike eq (compileSlice run e es n) (compileSlice run' (erase e) (map erase es) n).
Proof. unfold compileSlice. alike_steps. Qed.

Lemma alike_FunctionArgs es m n :
  alike eq (compileFunctionArgs run es m n) (compileFunctionArgs run' (map erase es) (option_map erase_fields m) n).
Proof.
  unfold compileFunctionArgs. destruct m as [m|]; cbn [option_map]; [|apply alike_ArgList].
  rewrite sorted_fields_erase. apply alike_Paren, alike_List. intros [k e] _. cbn. alike_steps.
Qed.
#[local] Hint Resolve alike_FunctionArgs : alike.

Lemma alike_OrderTerms ts n : alike eq (compileOrderTerms run ts n) (compileOrderTerms run' (erase_terms ts) n).
Proof. apply alike_List. intros [e dir] _. cbn. alike_steps. Qed.
#[local] Hint Resolve alike_OrderTerms : alike.

Lemma alike_From i alias : alike eq (compileFrom d Sanitize ns cfg run i alias) (compileFrom d Sanitize ns' cfg run' i alias).
Proof.
  unfold compileFrom. eapply alike_bind; [apply alike_c_node|]. intros x ? ->.
  change (node_relation d (erase_node x)) with (node_relation d x).
  cbn [erase_node n_function n_args n_named n_parent]. alike_steps.
Qed.
#[local] Hint Resolve alike_From : alike.

Lemma alike_ScalarHopWhere child alias n :
  alike eq (compileScalarHopWhere ns run child alias n) (compileScalarHopWhere ns' run' child alias n).
Proof.
  unfold compileScalarHopWhere. eapply alike_bind; [apply alike_c_node|]. intros x ? ->.
  cbn [erase_node n_join n_parent n_where].
  assert (∀ join, alike eq (List_ " and " join (λ jc,
        _ ← qualify alias (col_name jc.1); _ ← write " = ";
        match n_parent x with Some p => run (JPath p [jc.2] n) | None => lift Panic end))
      (List_ " and " join (λ jc,
        _ ← qualify alias (col_name jc.1); _ ← write " = ";
        match n_parent x with Some p => run' (JPath p [jc.2] n) | None => lift Panic end))) as Hjoin.
  { intros join. apply alike_List_same. intros jc _. alike_steps. }
  destruct (n_join x); [apply alike_error|]. alike_step. alike_first; [apply Hjoin|].
  destruct (n_where x); cbn [option_map]; alike_steps.
Qed.
#[local] Hint Resolve alike_ScalarHopWhere : alike.

Lemma alike_scalar_hop child n f f' :
  (∀ a, alike eq (f a) (f' a)) →
  alike eq (scalar_hop d Sanitize ns cfg run child n f) (scalar_hop d Sanitize ns' cfg run' child n f').
Proof.
  intros Hf. unfold scalar_hop. eapply alike_bind; [apply alike_c_node|]. intros x ? ->. cbn [erase_node n_parent].
  eapply alike_bind; [apply alike_isOutgoingOf|]. intros b ? <-. alike_steps. apply alike_Paren. alike_steps.
Qed.

Lemma alike_ColumnPath node path n :
  alike eq (compileColumnPath d Sanitize ns cfg run node path n) (compileColumnPath d Sanitize ns' cfg run' node path n).
Proof. unfold compileColumnPath. alike_steps. apply alike_scalar_hop. intros. alike_steps. Qed.

Lemma alike_ComputedFieldRef node fn n :
  alike eq (compileComputedFieldRef d Sanitize ns cfg run node fn n) (compileComputedFieldRef d Sanitize ns' cfg run' node fn n).
Proof. unfold compileComputedFieldRef. alike_steps. apply alike_scalar_hop. intros. alike_steps. Qed.
#[local] Hint Resolve alike_ComputedFieldRef : alike.

Lemma alike_ResolvedField r n :
  alike eq (compileResolvedField d Sanitize ns cfg run r n) (compileResolvedField d Sanitize ns' cfg run' r n).
Proof. unfold compileResolvedField. alike_steps. apply alike_scalar_hop. intros. alike_steps. Qed.
#[local] Hint Resolve alike_ResolvedField : alike.

Lemma alike_Folded op l r n :
  alike eq (compileFolded d Sanitize ns cfg run op l r n) (compileFolded d Sanitize ns' cfg run' op (erase l) (erase r) n).
Proof.
  unfold compileFolded. destruct (String.eqb op FoldDot).
  { destruct r; cbn [erase]; alike_steps. }
  destruct (String.eqb op "??"); [alike_step; apply (alike_ArgList [l; r])|].
  destruct (String.eqb op "||?"); [alike_step; apply (alike_ArgList [l; r])|]. alike_steps.
Qed.

Lemma alike_default c e n :
  alike eq (match e with
            | DefaultKeyword => if String.eqb (DefaultExpression c) "" then error_ "sql: default keyword used on column %q, which has no DB-level default"
                                else write (DefaultExpression c)
            | _ => compileExpr run e n
            end)
           (match erase e with
            | DefaultKeyword => if String.eqb (DefaultExpression c) "" then error_ "sql: default keyword used on column %q, which has no DB-level default"
                                else write (DefaultExpression c)
            | _ => compileExpr run' (erase e) n
            end).
Proof. pose proof (alike_run_expr e n) as H. destruct e; try exact H. cbn [erase]. alike_steps. Qed.

Lemma alike_ColumnRead c n def : alike eq (compileColumnRead run c n def) (compileColumnRead run' c n (erase_opt def)).
Proof.
  unfold compileColumnRead. destruct c as [c|]; [|apply alike_error]. alike_step.
  destruct def as [def|]; cbn [option_map]; [|alike_steps]. alike_step. apply alike_Paren. do 2 alike_step. apply alike_default.
Qed.

Lemma alike_AggArgument target alias e :
  alike eq (compileAggArgument run target alias e) (compileAggArgument run' target alias (erase e)).
Proof. unfold compileAggArgument. rewrite bareResolvedField_erase. alike_steps. Qed.

Lemma alike_AggFunctionCall e target alias :
  alike eq (compileAggFunctionCall run e target alias) (compileAggFunctionCall run' (erase e) target alias).
Proof.
  destruct e; try apply alike_panic. cbn [erase compileAggFunctionCall]. destruct resolved; [|apply alike_panic].
  alike_step; alike_step; alike_step. alike_first; [apply alike_List; intros; apply alike_AggArgument|].
  alike_first.
  { pose proof (alike_OrderTerms order_by (Some target)) as H. destruct order_by; cbn [map]; [alike_steps|]. alike_step. exact H. }
  alike_step. destruct filter; alike_steps. apply alike_Paren. alike_steps.
Qed.
#[local] Hint Resolve alike_AggFunctionCall : alike.

Lemma alike_row i (m m' : QueryNode → C unit) :
  (∀ x, alike eq (m x) (m' (erase_node x))) → alike eq (x ← c_node ns i; m x) (x ← c_node ns' i; m' x).
Proof using Type. intros Hm. eapply alike_bind; [apply alike_c_node|]. intros x ? ->. apply Hm. Qed.

Lemma alike_subquery (m m' : C unit) a :
  alike eq m m' → alike eq (_ ← write (" from (" +:+ newline); _ ← Indented m; _ ← write (newline +:+ ") "); write a)
                          (_ ← write (" from (" +:+ newline); _ ← Indented m'; _ ← write (newline +:+ ") "); write a).
Proof using Type. intros Hm. alike_steps. Qed.

Lemma alike_Agg e n : alike eq (compileAgg run e n) (compileAgg run' (erase e) n).
Proof.
  destruct e; try apply alike_panic. cbn [erase compileAgg]. rewrite aggTargetChild_erase.
  destruct resolved; [|apply alike_error]. destruct (aggTargetChild arguments) as [target|]; [|apply alike_error].
  eapply alike_bind; [apply alike_get|]. intros c c' Hc. rewrite (sim_laterals c c' Hc), plan_of_erase.
  destruct (plan_of (c_laterals c) target) as [plan|]; cbn [fmap option_fmap option_map].
  - rewrite shared_agg_erase. destruct (shared_agg plan address); cbn [fmap option_fmap option_map lp_alias erase_plan ac_alias];
      alike_steps.
  - do 3 alike_step. apply alike_Paren. alike_step.
    alike_first; [apply (alike_AggFunctionCall (AggExpr address fn arguments filter distinct order_by (Some f)))|].
    apply alike_subquery, alike_run_node.
Qed.

Lemma wrapNodeAsValue_erase x a : wrapNodeAsValue cfg (erase_node x) a = wrapNodeAsValue cfg x a.
Proof using Type. unfold wrapNodeAsValue. cbn [n_select erase_node]. by rewrite isShapeProducingSelect_erase. Qed.

Lemma alike_EmbedField child parent a :
  alike eq (compileEmbedField ns cfg run child parent a) (compileEmbedField ns' cfg run' child parent a).
Proof.
  unfold compileEmbedField. eapply alike_bind; [apply alike_get|]. intros c c' Hc.
  rewrite (sim_laterals c c' Hc), plan_of_erase.
  destruct (plan_of (c_laterals c) child) as [plan|]; cbn [fmap option_fmap option_map lp_alias erase_plan]; [alike_steps|].
  apply alike_row. intros x. change (is_scalar_function (erase_node x)) with (is_scalar_function x).
  destruct (is_scalar_function x).
  - cbn [n_args n_named erase_node]. apply alike_Paren. unfold compileFunctionCall. alike_steps.
  - eapply alike_bind; [apply alike_isOutgoingOf|]. intros b ? <-. alike_step. cbn zeta.
    rewrite wrapNodeAsValue_erase. apply alike_Paren. alike_step. alike_first; [alike_steps|].
    apply alike_subquery, alike_run_node.
Qed.
#[local] Hint Resolve alike_EmbedField : alike.

Lemma alike_SelectField i a f :
  alike eq (compileSelectField d ns cfg run i a f) (compileSelectField d ns' cfg run' i a (erase_field f)).
Proof.
  destruct f as [k c|k c|k e]; cbn [compileSelectField erase_field]; [alike_steps|alike_steps|].
  rewrite (embedChildOf_erase (SFExpr k e) : embedChildOf (SFExpr k (erase e)) = _). destruct (embedChildOf (SFExpr k e)); alike_steps.
Qed.

Lemma alike_build_object {A} (key : A → string) (g : A → A) l (f f' : A → C unit) :
  (∀ a, key (g a) = key a) → (∀ a, alike eq (f a) (f' (g a))) →
  alike eq (build_object key l f) (build_object key (map g l) f').
Proof using Type.
  intros Hk Hf. unfold build_object. alike_step. apply alike_Paren, alike_List. intros x _. do 2 alike_step. apply Hf.
Qed.

Lemma alike_selectFieldsFor x e :
  alike (λ fs fs', fs' = map erase_field fs) (selectFieldsFor d ns x e) (selectFieldsFor d ns' (erase_node x) (erase e)).
Proof using Type.
  destruct e; cbn [selectFieldsFor erase]; try (by apply alike_ret).
  - apply alike_ret. apply and_fields_erase.
  - apply (alike_bind (λ fs fs', fs' = map erase_field fs)).
    + destruct own; [by apply alike_ret|]. unfold alias_fields. cbn [n_outgoing n_incoming erase_node].
      rewrite <-(map_id (n_outgoing x ++ n_incoming x)) at 2. apply alike_map_m. intros c _.
      eapply alike_bind; [apply alike_c_node|]. intros y ? ->. by apply alike_ret.
    + intros fs ? ->. apply alike_ret. rewrite !map_app, and_fields_erase. f_equal.
      unfold own_fields. change (node_relation d (erase_node x)) with (node_relation d x).
      destruct (node_relation d x) as [r|]; [|done]. by rewrite map_map.
  - destruct resolved_column; [by apply alike_ret|apply alike_panic].
Qed.

Lemma alike_ObjectLiteral m n : alike eq (compileObjectLiteral run m n) (compileObjectLiteral run' (erase_fields m) n).
Proof.
  unfold compileObjectLiteral. rewrite sorted_fields_erase. apply alike_build_object; [done|]. intros [k e]. apply alike_run_expr.
Qed.

Lemma alike_ShapeAsJsonObject e n :
  alike eq (compileShapeAsJsonObject d ns cfg run e n) (compileShapeAsJsonObject d ns' cfg run' (erase e) n).
Proof.
  destruct n as [i|]; [|apply alike_panic]. cbn [compileShapeAsJsonObject]. apply alike_row. intros x.
  eapply alike_bind; [apply alike_selectFieldsFor|]. intros fs ? ->.
  apply alike_build_object; [apply sf_key_erase|]. intros f. alike_step. apply alike_SelectField.
Qed.

Lemma alike_Expr_body e n :
  alike eq (compileExpr_body d Sanitize ns cfg run e n) (compileExpr_body d Sanitize ns' cfg run' (erase e) n).
Proof.
  destruct e; cbn [erase compileExpr_body]; try (solve [alike_steps]).
  - apply alike_Unary.
  - apply alike_Binary.
  - apply alike_Folded.
  - apply alike_In.
  - apply alike_AnyAll.
  - apply (alike_Agg (AggExpr address fn arguments filter distinct order_by resolved)).
  - apply alike_ObjectLiteral.
  - apply (alike_ShapeAsJsonObject (StarExpr own except and)).
  - apply alike_Array.
  - apply alike_Array.
  - apply (alike_Slice e1 [e2]).
  - apply (alike_Slice e1 [e2; e3]).
  - destruct default_get, default_set; try apply alike_ResolvedField;
      apply (alike_ColumnRead _ n (Some _)) || apply (alike_ColumnRead _ n None).
  - apply alike_ColumnRead.
Qed.

Lemma alike_LateralJoin child a p :
  alike eq (compileLateralJoin ns cfg run child a p) (compileLateralJoin ns' cfg run' child a (erase_plan p)).
Proof.
  unfold compileLateralJoin. do 2 alike_step. apply alike_row. intros x. rewrite wrapNodeAsValue_erase.
  cbn [lp_hasArray lp_aggs lp_alias erase_plan]. alike_step.
  alike_first; [|alike_steps]. apply alike_Indented. do 2 alike_step.
  alike_first; [|apply alike_subquery, alike_run_node].
  apply alike_for_each. intros i [e al] _. cbn [ac_expr ac_alias]. alike_steps.
Qed.

Lemma alike_identityColumns x : alike eq (lift (identityColumns d x)) (lift (identityColumns d (erase_node x))).
Proof using Type. apply alike_lift_eq. Qed.
#[local] Hint Resolve alike_identityColumns : alike.

Lemma alike_Where node a p :
  alike eq (compileWhere d Sanitize ns cfg run node a p) (compileWhere d Sanitize ns' cfg run' node a p).
Proof.
  unfold compileWhere. apply alike_row. intros x. cbn [n_join n_where erase_node].
  assert (bool_decide (erase_opt (n_where x) = None) = bool_decide (n_where x = None)) as ->
    by (apply bool_decide_ext; by destruct (n_where x)).
  cbn zeta. set (hasOn := negb (String.eqb p "") && _).
  destruct (negb hasOn && bool_decide (is_scoped cfg node = None) && bool_decide (n_where x = None)); [alike_steps|]. alike_step.
  alike_first.
  { destruct hasOn; [|alike_steps]. apply alike_List_same. intros jc _. alike_steps. }
  alike_first.
  { destruct (is_scoped cfg node) as [sc|]; [|alike_steps]. alike_step.
    alike_step. match goal with |- context [match ?cols with [] => _ | _ => _ end] => destruct cols end; [alike_steps|].
    apply alike_List_same. intros col _. alike_steps. }
  destruct (n_where x); cbn [option_map]; alike_steps.
Qed.

Lemma alike_OrderBy node : alike eq (compileOrderBy Sanitize ns cfg run node) (compileOrderBy Sanitize ns' cfg run' node).
Proof.
  unfold compileOrderBy. apply alike_row. intros x. cbn [n_order_by n_parent erase_node].
  pose proof (alike_OrderTerms (n_order_by x) (Some node)) as Hts.
  destruct (n_order_by x) as [|t ts]; cbn [map] in *; [|alike_step; exact Hts].
  alike_first; [alike_steps|]. destruct (_ && _); [|alike_steps].
  eapply alike_bind; [apply alike_get|]. intros c c' Hc. rewrite (sim_alias c c' Hc). alike_steps.
Qed.

Lemma alike_LimitOffset x : alike eq (compileLimitOffset x) (compileLimitOffset (erase_node x)).
Proof using Type.
  unfold compileLimitOffset. cbn [n_limit n_offset erase_node].
  destruct (n_limit x), (n_offset x); cbn [option_map]; alike_steps.
Qed.

Lemma alike_select_list node x a :
  alike eq (compile_select_list d ns cfg run node x a)
           (compile_select_list d ns' cfg run' node (erase_node x) a).
Proof.
  unfold compile_select_list. cbn [n_distinct n_distinct_on n_select erase_node]. rewrite isShapeProducingSelect_erase.
  alike_first.
  { destruct (n_distinct x); [alike_steps|]. pose proof (alike_ArgList (n_distinct_on x) (Some node)) as Hon.
    destruct (n_distinct_on x) as [|e es]; cbn [map] in *; [alike_steps|]. alike_step. alike_first; [exact Hon|alike_steps]. }
  destruct (isShapeProducingSelect (n_select x)); [|alike_steps].
  eapply alike_bind; [apply alike_selectFieldsFor|]. intros fs ? ->.
  assert (alike eq (List_ ", " fs (λ f, _ ← compileSelectField d ns cfg run node a f; _ ← write " as "; write_id (sf_key f)))
    (List_ ", " (map erase_field fs) (λ f, _ ← compileSelectField d ns' cfg run' node a f; _ ← write " as "; write_id (sf_key f)))) as Hl.
  { apply alike_List. intros f _. alike_first; [apply alike_SelectField|]. rewrite sf_key_erase. alike_steps. }
  destruct fs; cbn [map] in *; [alike_steps|exact Hl].
Qed.

Lemma alike_shared_plans m cs :
  alike (λ l l', l' = erase_plans l) (shared_plans m cs) (shared_plans (erase_plans m) cs).
Proof using Type.
  induction cs as [|c cs IH]; cbn [shared_plans]; [by apply alike_ret|]. rewrite plan_of_erase.
  destruct (plan_of m c) as [p|]; cbn [fmap option_fmap option_map]; [|exact IH]. rewrite consumption_erase.
  destruct (Nat.leb (consumption p) 1); [exact IH|]. alike_step.
  eapply alike_bind; [exact IH|]. intros l ? ->. apply alike_ret. cbn. by rewrite number_aggs_erase.
Qed.

Lemma alike_analyzeLaterals x :
  alike (λ l l', l' = erase_plans l) (analyzeLaterals order x) (analyzeLaterals order (erase_node x)).
Proof using Type.
  unfold analyzeLaterals. cbn [n_incoming erase_node]. destruct (n_incoming x); [by apply alike_ret|]. cbn zeta.
  rewrite (count_arrays_erase x [] : count_arrays (erase_node x) [] = _), count_aggs_erase.
  assert (map fst (erase_plans (count_aggs x (count_arrays x []))) = map fst (count_aggs x (count_arrays x []))) as ->
    by by rewrite map_map.
  apply alike_shared_plans.
Qed.

Lemma alike_set_laterals l : alike eq (modify (set_laterals l)) (modify (set_laterals (erase_plans l))).
Proof using Type. apply alike_modify. intros c c' []. by split. Qed.

Lemma alike_NodeCorrelated node a p :
  alike eq (compileNodeCorrelated d Sanitize ns cfg order run node a p)
           (compileNodeCorrelated d Sanitize ns' cfg order run' node a p).
Proof.
  unfold compileNodeCorrelated. alike_step. apply alike_row. intros x.
  eapply alike_bind; [apply alike_analyzeLaterals|]. intros l ? ->.
  eapply alike_bind; [apply alike_get|]. intros b b' Hb.
  alike_first; [apply alike_set_laterals|]. alike_step.
  alike_first; [destruct (countMode cfg); [alike_steps|apply alike_select_list]|].
  alike_step. alike_first; [apply alike_From|].
  alike_first.
  { destruct (countMode cfg); [alike_steps|]. cbn [n_incoming erase_node]. rewrite <-(map_id (n_incoming x)) at 2.
    apply alike_for_each. intros i c _. rewrite plan_of_erase.
    destruct (plan_of l c); cbn [fmap option_fmap option_map]; [apply alike_LateralJoin|alike_steps]. }
  alike_first; [apply alike_Where|].
  alike_first; [destruct (countMode cfg); [alike_steps|]; alike_first; [apply alike_OrderBy|apply alike_LimitOffset]|].
  rewrite (sim_laterals b b' Hb). apply alike_set_laterals.
Qed.

Lemma alike_compile_body j :
  alike eq (compile_body d Sanitize ns cfg order run j) (compile_body d Sanitize ns' cfg order run' (erase_job j)).
Proof.
  destruct j; cbn [compile_body erase_job]; [apply alike_Expr_body|apply alike_ColumnPath|apply alike_NodeCorrelated].
Qed.
End bodies.

Lemma alike_compile d Sanitize ns cfg order fuel j :
  alike eq (compile d Sanitize ns cfg order fuel j) (compile d Sanitize (map erase_node ns) cfg order fuel (erase_job j)).
Proof.
  revert j. induction fuel as [|fuel IH]; intros j; [by intros c c' _|]. by apply alike_compile_body.
Qed.

(** * Statements *)

#[global] Instance same_text_equivalence : Equivalence same_text.
Proof.
  split.
  - by intros w.
  - intros w w' (? & ? & ? & ?). by split_and!.
  - intros w1 w2 w3 (? & ? & ? & ?) (? & ? & ? & ?). split_and!; congruence.
Qed.

#[global] Instance same_outcome_equivalence : Equivalence (same_outcome same_text).
Proof.
  split.
  - intros []; cbn; done.
  - intros [] []; cbn; try done.
  - intros [] [] []; cbn; try done; first [by intros -> ->|intros H1 H2; by etrans].
Qed.

Lemma alike_statement m m' : alike eq m m' → same_outcome same_text (statement m) (statement m').
Proof.
  intros Hm. assert (sim newSQLCompiler newSQLCompiler) as H0 by by split.
  specialize (Hm _ _ H0). unfold statement.
  destruct (m newSQLCompiler) as [[[] c]|e| |], (m' newSQLCompiler) as [[[] c']|e'| |]; try done. apply Hm.
Qed.

Section statements.
Context (d : DbInfos) (Sanitize : string → string) (order : list node_id → list node_id) (fuel : nat) (ns : list QueryNode).
Abbreviation ns' := (map erase_node ns).

Lemma alike_wrapped cfg root head head' :
  (∀ a, head' a = head a) →
  alike eq (wrapped d Sanitize ns order fuel cfg root head) (wrapped d Sanitize ns' order fuel cfg root head').
Proof.
  intros Hh. unfold wrapped. alike_step. rewrite Hh. do 4 alike_step. alike_first; [|alike_steps].
  apply (alike_compile d Sanitize ns cfg order fuel (JNode root _ "")).
Qed.

Lemma root_erased {A} root (f f' : QueryNode → outcome A) (R : A → A → Prop) :
  (∀ x, same_outcome R (f x) (f' (erase_node x))) →
  same_outcome R (x ← at_index ns root; f x) (x ← at_index ns' root; f' x).
Proof. intros Hf. unfold at_index. rewrite list_lookup_fmap. destruct (ns !! root); cbn; [apply Hf|done]. Qed.

Lemma CompileSelectFormat_erased root fmt :
  same_outcome same_text (CompileSelectFormat d Sanitize ns order fuel root fmt)
    (CompileSelectFormat d Sanitize ns' order fuel root fmt).
Proof.
  apply root_erased. intros x. change (is_scalar_function (erase_node x)) with (is_scalar_function x).
  destruct (is_scalar_function x); apply alike_statement.
  - alike_step. unfold compileFunctionCall. alike_step. cbn [n_args n_named n_parent erase_node].
    apply alike_FunctionArgs. intros j. apply alike_compile.
  - apply alike_wrapped. intros a. apply wrapNodeAsValue_erase.
Qed.

Lemma CompileCount_erased root :
  same_outcome same_text (CompileCount d Sanitize ns order fuel root) (CompileCount d Sanitize ns' order fuel root).
Proof.
  apply root_erased. intros x. change (is_scalar_function (erase_node x)) with (is_scalar_function x).
  destruct (is_scalar_function x); [done|]. by apply alike_statement, alike_wrapped.
Qed.

Lemma CompileSelectForDataNodeFormat_erased root nodeID fmt :
  same_outcome same_text (CompileSelectForDataNodeFormat d Sanitize ns order fuel root nodeID fmt)
    (CompileSelectForDataNodeFormat d Sanitize ns' order fuel root nodeID fmt).
Proof.
  apply root_erased. intros x. cbn [n_function n_relation erase_node]. destruct (n_function x); [done|].
  destruct (n_relation x ≫= _) as [[relid r]|]; [|done]. destruct (newTempTable d relid r) as [t|e| |]; try done.
  apply alike_statement, alike_wrapped. intros a. apply wrapNodeAsValue_erase.
Qed.
End statements.

Lemma two_runs {A} (f : A → outcome (SQLWriter bound)) (g : A → A) a b :
  (∀ x, same_outcome same_text (f x) (f (g x))) → g a = g b → same_outcome same_text (f a) (f b).
Proof. intros Hf Hg. transitivity (f (g a)); [apply Hf|]. rewrite Hg. symmetry. apply Hf. Qed.


(** The users of a name, with at most [limit] of them. *)
Definition users_named (name : string) (limit : Z) : list QueryNode :=
  let q := RawRelation "users" "" false "" "" None None None
    (Some (FoldedExpr "=" (Identifier "name" None) (StringLiteral name))) "" "" None None None
    None None false [] [(Identifier "name" None, OrderDesc)] None (Some limit) in
  match resolveQuery blog_infos (MkBlacklist ∅ ∅) 6 q empty_resolver with
  | Ok (i, s) =>
      match resolveExpressions blog_infos (MkBlacklist ∅ ∅) 1 i s with Ok (_, s') => r_nodes s' | _ => [] end
  | _ => []
  end.
Definition quoted (s : string) : string := quote +:+ double_quotes s +:+ quote.

Example users_named_text :
  match CompileSelect blog_infos quoted (users_named "O'Reilly; --" 5) (λ l, l) 9 0 with
  | Ok w => buf w = "select row_to_json(t1) from (" +:+ newline +:+
      "  select t1.id as id, t1.name as name from " +:+ quoted "public" +:+ "." +:+ quoted "users" +:+
      " t1 where (t1.name = $1) order by t1.name desc nulls last limit $2" +:+ newline +:+ ") t1" ∧
      map slot_value (slots w) = [Some (BoundText "O'Reilly; --"); Some (BoundInt 5)]
  | _ => False
  end.
Proof. vm_compute. by split. Qed.

