(* ===== verification/CompileFrame.v ===== *)
(** What a run of the compiler leaves in place: it only adds to the statement,
    and gives back the indentation and the plans it found. *)
From Stdlib Require Import ZArith Lia Ascii.
From S2P Require Import Prelude Writer Regexp Catalog Joins KeysFacts Expression Nodes ResolveQuery ResolveQueryFacts ResolveExpr ResolveExprFacts TempTable Compile Erase CompileText.
Set Warnings "-register-all".
#[local] Set Default Proof Using "Type*".

(** ** The name of a cast's type *)

Definition type_name_char (c : Ascii.ascii) : Prop :=
  word_char c = true ∨ is_space c = true ∨ c ∈ ["("; ")"; ","; "["; "]"]%char.

Lemma validCastTypeName_chars : chars_in type_name_char validCastTypeName.
Proof.
  assert (∀ c, word_start c = true → type_name_char c) as Hw.
  { intros c H. left. unfold word_char. by rewrite H. }
  assert (∀ c, is_digit c = true → type_name_char c) as Hd.
  { intros c H. left. unfold word_char. rewrite H. apply orb_true_r. }
  assert (∀ c, is_space c = true → type_name_char c) as Hs by (intros c H; right; by left).
  assert (∀ a, a ∈ ["("; ")"; ","; "["; "]"]%char → ∀ c, bool_decide (c = a) = true → type_name_char c) as Hl.
  { intros a Ha c ->%bool_decide_eq_true. right. by right. }
  assert (∀ c, word_char c = true → type_name_char c) as Hc by (intros c H; by left).
  cbn [chars_in validCastTypeName RPlus ROpt RLit]. split_and!; try done; apply Hl; set_solver.
Qed.

(** ** Runs *)

(** The text and the slots of a statement only grow. *)
Record grows (c c' : sqlCompiler) : Prop := {
  grows_buf : ∃ s, buf (c_w c') = buf (c_w c) +:+ s;
  grows_slots : ∃ l, slots (c_w c') = slots (c_w c) ++ l;
  grows_next : (c_next c ≤ c_next c')%nat;
}.
(** A run that returns: what it found is there again. *)
Record keeps (c c' : sqlCompiler) : Prop := {
  keeps_grows : grows c c';
  keeps_indentation : indentation (c_w c') = indentation (c_w c);
  keeps_laterals : c_laterals c' = c_laterals c;
}.

#[global] Instance grows_preorder : PreOrder grows.
Proof.
  split.
  - intros c. split; [exists ""; by rewrite append_empty_r|exists []; by rewrite app_nil_r|done].
  - intros c1 c2 c3 [[s Hs] [l Hl] Hn] [[s' Hs'] [l' Hl'] Hn']. split; [| |lia].
    + exists (s +:+ s'). by rewrite Hs', Hs, append_assoc.
    + exists (l ++ l'). by rewrite Hl', Hl, app_assoc.
Qed.
#[global] Instance keeps_preorder : PreOrder keeps.
Proof. split; [by intros c|]. intros c1 c2 c3 [? ? ?] [? ? ?]. split; [by etrans|congruence..]. Qed.

Definition keeping {A} (m : C A) : Prop := ∀ c a c', m c = Ok (a, c') → keeps c c'.

Lemma keeping_ret {A} (a : A) : keeping (mret a).
Proof. intros c b c' [= <- <-]. done. Qed.
Lemma keeping_bind {A B} (m : C A) (f : A → C B) : keeping m → (∀ a, keeping (f a)) → keeping (m ≫= f).
Proof. intros Hm Hf c b c' (a & c1 & H1 & H2)%M_bind_ok. etrans; [by eapply Hm|by eapply Hf]. Qed.
Lemma keeping_lift {A} (o : outcome A) : keeping (lift o).
Proof. intros c a c' H. unfold lift in H. destruct o; try done. by injection H as <- <-. Qed.
Lemma keeping_get : keeping get.
Proof. by intros c a c' [= <- <-]. Qed.
Lemma keeping_fuel {A} : keeping (λ _, @OutOfFuel (A * sqlCompiler)).
Proof. by intros c a c' H. Qed.
Lemma keeping_modify f : (∀ c, keeps c (f c)) → keeping (modify f).
Proof. by intros Hf c a c' [= <- <-]. Qed.

Lemma Write_grows s (w : SQLWriter bound) : ∃ t, buf (Write s w) = buf w +:+ t.
Proof.
  rewrite Write_chars. revert w. induction s as [|c s IH]; intros w; cbn; [exists ""; by rewrite append_empty_r|].
  destruct (IH (write_char w c)) as [t ->]. unfold write_char. case_decide; [|destruct (atLineStart w)]; cbn;
    rewrite ?append_assoc; eauto.
Qed.

Lemma keeping_write s : keeping (write s).
Proof.
  apply keeping_modify. intros c. split; [split| |]; cbn [c_w set_w c_next c_laterals]; [apply Write_grows| |done| |done].
  - exists []. by rewrite Write_slots, app_nil_r.
  - apply Write_indentation.
Qed.
Lemma keeping_slot v : keeping (modify (λ c, set_w (let w := push_slot v (c_w c) in Write (placeholder w) w) c)).
Proof.
  apply keeping_modify. intros c. split; [split| |]; cbn [c_w set_w c_next c_laterals]; [|rewrite Write_slots; eauto|done| |done].
  - destruct (Write_grows (placeholder (push_slot v (c_w c))) (push_slot v (c_w c))) as [t ->]. eauto.
  - by rewrite Write_indentation.
Qed.
Lemma keeping_bind_value v : keeping (bind v).
Proof. apply (keeping_slot (BindSlot "" (Some v))). Qed.
Lemma keeping_bind_param n : keeping (bind_param n).
Proof. apply (keeping_slot (BindSlot n None)). Qed.
Lemma keeping_write_id s : keeping (write_id s).
Proof. apply (keeping_write (EscapeSQLId s)). Qed.
Lemma keeping_allocAlias : keeping allocAlias.
Proof.
  intros c a c' H. unfold allocAlias in H. run_ok. split; [split| |]; cbn; [| |lia|done|done].
  - exists "". by rewrite append_empty_r.
  - exists []. by rewrite app_nil_r.
Qed.
Lemma keeping_set_alias n a : keeping (set_alias n a).
Proof. apply keeping_modify. intros c. split; [|done..]. split; cbn; [exists ""; by rewrite append_empty_r|exists []; by rewrite app_nil_r|done]. Qed.

(** Indenting is undone, as what is between keeps the indentation. *)
Lemma keeping_Indented m : keeping m → keeping (Indented m).
Proof.
  intros Hm c a c' H. unfold Indented, indent, unindent in H. run_ok.
  match goal with H : m _ = Ok _ |- _ => apply Hm in H; destruct H as [Hg Hi Hl] end.
  cbn in Hi, Hl. unfold Unindent in *. rewrite Hi in *. simplify_eq/=.
  split; [|done|done]. destruct Hg as [? ? ?]. by split.
Qed.

Create HintDb keeping.
#[export] Hint Resolve keeping_ret keeping_lift keeping_get keeping_write keeping_bind_value keeping_bind_param
  keeping_write_id keeping_allocAlias keeping_set_alias keeping_Indented keeping_fuel : keeping.

Ltac keeping_step :=
  match goal with
  | |- keeping (mbind _ _) => apply keeping_bind; [|intros ?]
  | |- keeping (match ?x with _ => _ end) => destruct x
  | |- keeping _ => solve [eauto 3 with keeping]
  end.
Ltac keeping_steps := repeat keeping_step.

Lemma keeping_for_each {A} (f : nat → A → C unit) l : (∀ i a, keeping (f i a)) → ∀ i, keeping (for_each f i l).
Proof. intros Hf. induction l as [|a l IH]; intros i; cbn; [apply keeping_ret|]. apply keeping_bind; auto. Qed.
Lemma keeping_map_m {A B} (f : A → C B) l : (∀ a, keeping (f a)) → keeping (map_m f l).
Proof. intros Hf. induction l as [|a l IH]; cbn; keeping_steps; auto. Qed.
Lemma keeping_Surround s e m : keeping m → keeping (Surround s e m).
Proof. intros Hm. unfold Surround. keeping_steps. Qed.
Lemma keeping_Paren m : keeping m → keeping (Paren m).
Proof. apply keeping_Surround. Qed.
Lemma keeping_List {A} sep l (f : A → C unit) : (∀ a, keeping (f a)) → keeping (List_ sep l f).
Proof. intros Hf. apply keeping_for_each. intros i a. keeping_steps; auto. Qed.
Lemma keeping_SurroundList {A} s sep e l (f : A → C unit) : (∀ a, keeping (f a)) → keeping (SurroundList s sep e l f).
Proof. intros Hf. unfold SurroundList. keeping_steps. by apply keeping_Indented, keeping_List. Qed.
#[export] Hint Resolve keeping_Surround keeping_Paren : keeping.
#[export] Hint Extern 1 (keeping (List_ _ _ _)) => apply keeping_List; intros; keeping_steps : keeping.
#[export] Hint Extern 1 (keeping (SurroundList _ _ _ _ _)) => apply keeping_SurroundList; intros; keeping_steps : keeping.

(** ** The compiler *)

Section bodies.
Context (d : DbInfos) (Sanitize : string → string) (ns : list QueryNode) (cfg : settings) (order : list node_id → list node_id).
Context (run : job → C unit) (Hrun : ∀ j, keeping (run j)).
#[local] Hint Resolve Hrun : keeping.
#[local] Hint Extern 2 (keeping (compileExpr _ _ _)) => apply Hrun : keeping.

(** [unfold] a definition of the compiler and go through it. *)
#[local] Tactic Notation "keeping_by" reference(f) := unfold f; keeping_steps.

Lemma keeping_error {A} msg : keeping (@error_ A msg).
Proof using Type. apply keeping_lift. Qed.
#[local] Hint Resolve keeping_error : keeping.
Lemma keeping_alias_of n : keeping (alias_of n).
Proof using Type. unfold alias_of. keeping_steps. Qed.
Lemma keeping_c_node i : keeping (c_node ns i).
Proof using Type. apply keeping_lift. Qed.
Lemma keeping_qualify a s : keeping (qualify a s).
Proof using Type. keeping_by qualify. Qed.
#[local] Hint Resolve keeping_alias_of keeping_c_node keeping_qualify : keeping.
Lemma keeping_path a p : keeping (WriteQualifiedPath a p).
Proof using Type.
  unfold WriteQualifiedPath. induction (rev p) as [|c [|c' q] IH]; [apply keeping_lift|apply keeping_qualify|].
  change (writeQualifiedPathN a (c :: c' :: q)) with (_ ← Paren (writeQualifiedPathN a (c' :: q)); _ ← write "."; write_id (col_name c)).
  keeping_steps.
Qed.
#[local] Hint Resolve keeping_path : keeping.
Lemma keeping_operand e n : keeping (compileOperand run e n).
Proof. keeping_by compileOperand. Qed.
Lemma keeping_ArgList es n : keeping (compileArgList run es n).
Proof. keeping_by compileArgList. Qed.
Lemma keeping_isOutgoingOf p c : keeping (isOutgoingOf ns p c).
Proof using Type. keeping_by isOutgoingOf. Qed.
#[local] Hint Resolve keeping_operand keeping_ArgList keeping_isOutgoingOf : keeping.
Lemma keeping_FunctionArgs es m n : keeping (compileFunctionArgs run es m n).
Proof. unfold compileFunctionArgs. keeping_steps. all: apply keeping_Paren, keeping_List. all: intros kv. all: keeping_steps. Qed.
#[local] Hint Resolve keeping_FunctionArgs : keeping.
Lemma keeping_OrderTerms ts n : keeping (compileOrderTerms run ts n).
Proof. apply keeping_List. intros t. keeping_steps. Qed.
Lemma keeping_From i a : keeping (compileFrom d Sanitize ns cfg run i a).
Proof. keeping_by compileFrom. Qed.
#[local] Hint Resolve keeping_OrderTerms keeping_From : keeping.
Lemma keeping_ScalarHopWhere c a n : keeping (compileScalarHopWhere ns run c a n).
Proof. keeping_by compileScalarHopWhere. Qed.
#[local] Hint Resolve keeping_ScalarHopWhere : keeping.
Lemma keeping_scalar_hop c n f : (∀ a, keeping (f a)) → keeping (scalar_hop d Sanitize ns cfg run c n f).
Proof. intros Hf. unfold scalar_hop. keeping_steps. all: apply keeping_Paren. all: keeping_steps; auto. Qed.
Lemma keeping_ColumnPath i p n : keeping (compileColumnPath d Sanitize ns cfg run i p n).
Proof. keeping_by compileColumnPath. all: apply keeping_scalar_hop. all: intros; keeping_steps. Qed.
Lemma keeping_ComputedFieldRef i fn n : keeping (compileComputedFieldRef d Sanitize ns cfg run i fn n).
Proof. keeping_by compileComputedFieldRef. all: apply keeping_scalar_hop. all: intros; keeping_steps. Qed.
#[local] Hint Resolve keeping_ComputedFieldRef : keeping.
Lemma keeping_ResolvedField r n : keeping (compileResolvedField d Sanitize ns cfg run r n).
Proof. keeping_by compileResolvedField. all: apply keeping_scalar_hop. all: intros; keeping_steps. Qed.
#[local] Hint Resolve keeping_ResolvedField : keeping.
Lemma keeping_Folded op l r n : keeping (compileFolded d Sanitize ns cfg run op l r n).
Proof. keeping_by compileFolded. Qed.
Lemma keeping_ColumnRead c n def : keeping (compileColumnRead run c n def).
Proof. unfold compileColumnRead. keeping_steps. all: apply keeping_Paren; keeping_steps. Qed.
Lemma keeping_AggArgument t a e : keeping (compileAggArgument run t a e).
Proof. keeping_by compileAggArgument. Qed.
#[local] Hint Resolve keeping_AggArgument : keeping.
Lemma keeping_AggFunctionCall e t a : keeping (compileAggFunctionCall run e t a).
Proof. unfold compileAggFunctionCall. keeping_steps. all: apply keeping_Paren. all: keeping_steps. Qed.
#[local] Hint Resolve keeping_AggFunctionCall : keeping.
Lemma keeping_Agg e n : keeping (compileAgg run e n).
Proof. unfold compileAgg. keeping_steps. all: apply keeping_Paren. all: keeping_steps. Qed.
Lemma keeping_EmbedField c p a : keeping (compileEmbedField ns cfg run c p a).
Proof. unfold compileEmbedField. keeping_steps. all: apply keeping_Paren; unfold compileFunctionCall; keeping_steps. Qed.
#[local] Hint Resolve keeping_EmbedField : keeping.
Lemma keeping_SelectField i a f : keeping (compileSelectField d ns cfg run i a f).
Proof. keeping_by compileSelectField. Qed.
#[local] Hint Resolve keeping_SelectField : keeping.
Lemma keeping_build_object {A} (key : A → string) l (f : A → C unit) : (∀ a, keeping (f a)) → keeping (build_object key l f).
Proof using Type. intros Hf. unfold build_object. keeping_steps. all: apply keeping_Paren, keeping_List. all: intros x. all: keeping_steps; auto. Qed.
Lemma keeping_selectFieldsFor x e : keeping (selectFieldsFor d ns x e).
Proof using Type. unfold selectFieldsFor, alias_fields. keeping_steps. all: apply keeping_map_m; intros y; keeping_steps. Qed.
#[local] Hint Resolve keeping_selectFieldsFor : keeping.
Lemma keeping_ShapeAsJsonObject e n : keeping (compileShapeAsJsonObject d ns cfg run e n).
Proof. unfold compileShapeAsJsonObject. keeping_steps. all: apply keeping_build_object. all: intros f. all: keeping_steps. Qed.

Lemma keeping_Expr_body e n : keeping (compileExpr_body d Sanitize ns cfg run e n).
Proof.
  destruct e; cbn [compileExpr_body]; try solve [keeping_steps].
  - keeping_by compileUnary.
  - keeping_by compileBinary.
  - apply keeping_Folded.
  - keeping_by compileIn.
  - unfold compileAnyAll. keeping_steps; apply keeping_Paren; keeping_steps.
  - apply keeping_Agg.
  - apply keeping_build_object. intros kv. keeping_steps.
  - apply keeping_ShapeAsJsonObject.
  - keeping_by compileArray.
  - keeping_by compileArray.
  - keeping_by compileSlice.
  - keeping_by compileSlice.
  - keeping_steps; apply keeping_ColumnRead.
  - apply keeping_ColumnRead.
Qed.

Lemma keeping_LateralJoin c a p : keeping (compileLateralJoin ns cfg run c a p).
Proof.
  unfold compileLateralJoin. keeping_steps; apply keeping_Indented; keeping_steps; apply keeping_for_each; intros i x; keeping_steps.
Qed.
#[local] Hint Resolve keeping_LateralJoin : keeping.
Lemma keeping_Where i a p : keeping (compileWhere d Sanitize ns cfg run i a p).
Proof. keeping_by compileWhere. Qed.
Lemma keeping_OrderBy i : keeping (compileOrderBy Sanitize ns cfg run i).
Proof. keeping_by compileOrderBy. Qed.
Lemma keeping_LimitOffset x : keeping (compileLimitOffset x).
Proof using Type. keeping_by compileLimitOffset. Qed.
Lemma keeping_select_list i x a : keeping (compile_select_list d ns cfg run i x a).
Proof. keeping_by compile_select_list. Qed.
Lemma keeping_shared_plans m cs : keeping (shared_plans m cs).
Proof using Type. induction cs as [|c cs IH]; cbn [shared_plans]; keeping_steps. Qed.
#[local] Hint Resolve keeping_Where keeping_OrderBy keeping_LimitOffset keeping_select_list keeping_shared_plans : keeping.

Lemma keeping_then {A B} (m : C A) (f : A → C B) c r :
  keeping m → (m ≫= f) c = Ok r → ∃ a c1, keeps c c1 ∧ f a c1 = Ok r.
Proof using Type. intros Hm. destruct r as [b c']. intros (a & c1 & H1 & H2)%M_bind_ok. eauto. Qed.

(** The plans of a node are put back when it is compiled. *)
Lemma keeping_NodeCorrelated i a p : keeping (compileNodeCorrelated d Sanitize ns cfg order run i a p).
Proof.
  intros c u c' H. unfold compileNodeCorrelated in H.
  apply keeping_then in H as ([] & c1 & K1 & H); [|keeping_steps].
  apply keeping_then in H as (x & c2 & K2 & H); [|keeping_steps].
  apply keeping_then in H as (l & c3 & K3 & H); [|unfold analyzeLaterals; keeping_steps].
  apply M_bind_ok in H as (b & c4 & [= <- <-] & H). apply M_bind_ok in H as ([] & c5 & [= <-] & H).
  apply keeping_then in H as ([] & c6 & K6 & H); [|keeping_steps].
  apply keeping_then in H as ([] & c7 & K7 & H); [|keeping_steps].
  apply keeping_then in H as ([] & c8 & K8 & H); [|keeping_steps].
  apply keeping_then in H as ([] & c9 & K9 & H); [|keeping_steps].
  apply keeping_then in H as ([] & c10 & K10 & H);
    [|keeping_steps; apply keeping_for_each; intros _ child; keeping_steps].
  apply keeping_then in H as ([] & c11 & K11 & H); [|keeping_steps].
  apply keeping_then in H as ([] & c12 & K12 & H); [|keeping_steps].
  injection H as _ <-.
  assert (keeps c c3) as Hbefore by (etrans; [exact K1|etrans; [exact K2|exact K3]]).
  assert (keeps (set_laterals l c3) c12) as [[Hb Hs Hn] Hi _] by (do 6 (etrans; [eassumption|]); done).
  etrans; [exact Hbefore|]. by split; [split|..].
Qed.
End bodies.

(** C23: the compiler only appends.  Whatever is compiled, from any state: the
    text written and the slots bound before stay where they are, so a placeholder
    keeps the number it was written with; the indentation is what it was, so that
    no [Unindent] is left without its [Indent]; and the plans of the enclosing
    node are back when a node has been compiled. *)
Theorem compile_keeps (d : DbInfos) (Sanitize : string → string) (ns : list QueryNode) (cfg : settings)
    (order : list node_id → list node_id) (fuel : nat) (j : job) (c c' : sqlCompiler)
    (Hok : compile d Sanitize ns cfg order fuel j c = Ok (tt, c')) :
  (∃ s, buf (c_w c') = buf (c_w c) +:+ s) ∧ (∃ l, slots (c_w c') = slots (c_w c) ++ l) ∧
  indentation (c_w c') = indentation (c_w c) ∧ c_laterals c' = c_laterals c ∧ (c_next c ≤ c_next c')%nat.
Proof.
  assert (∀ j, keeping (compile d Sanitize ns cfg order fuel j)) as H.
  { clear. induction fuel as [|fuel IH]; intros j; [apply keeping_fuel|].
    destruct j; cbn [compile compile_body];
      [by apply keeping_Expr_body|by apply keeping_ColumnPath|by apply keeping_NodeCorrelated]. }
  apply H in Hok as [[? ? ?] ? ?]. by split_and!.
Qed.

Lemma compile_keeps_witness :
  ∃ c c' : sqlCompiler,
    compile blog_infos quoted (users_named "x" 1) (MkSettings false "" false FormatJSON None) (λ l, l) 9 (JNode 0 "t1" "") c = Ok (tt, c') ∧
    length (slots (c_w c')) = 3%nat ∧ ∃ l, slots (c_w c') = slots (c_w c) ++ l.
Proof.
  exists (set_w (Bind (BoundInt 9) NewSQL) newSQLCompiler).
  destruct (compile blog_infos quoted (users_named "x" 1) (MkSettings false "" false FormatJSON None) (λ l, l) 9 (JNode 0 "t1" "")
    (set_w (Bind (BoundInt 9) NewSQL) newSQLCompiler)) as [[[] c']|e| |] eqn:E; [|vm_compute in E; discriminate E..].
  exists c'. split; [done|]. pose proof E as E'. vm_compute in E'. injection E' as E'. split; [by rewrite <-E'|].
  apply (compile_keeps _ _ _ _ _ _ _ _ _ E).
Defined.

(** C22: the type name of a cast, which is the caller's text written as it is,
    holds only letters, digits, underscores, whitespace, parentheses, commas and
    brackets, and starts with a letter or an underscore: no quote, no semicolon,
    no comment, no operator, no parameter. *)
Theorem castTypeName_chars (e : Expression) (name : string) (Hok : castTypeName e = Ok name) :
  string_all type_name_char name ∧ ∃ c rest, name = String c rest ∧ word_start c = true.
Proof.
  unfold castTypeName in Hok. apply outcome_bind_ok in Hok as (s & _ & Hok).
  destruct (MatchString validCastTypeName s) eqn:Hm; [|done]. injection Hok as ->.
  apply MatchString_spec in Hm. split; [eapply lang_chars; [apply validCastTypeName_chars|exact Hm]|].
  inversion Hm as [| |? ? a b Ha Hb| | | |]; subst. inversion Ha as [| |? ? a1 a2 Ha1 Ha2| | | |]; subst.
  inversion Ha1; subst. cbn. eauto.
Qed.

Lemma castTypeName_chars_witness :
  castTypeName (StringLiteral "numeric(10, 2) []") = Ok "numeric(10, 2) []" ∧ string_all type_name_char "numeric(10, 2) []".
Proof. split; [vm_compute; reflexivity|]. by apply (castTypeName_chars (StringLiteral "numeric(10, 2) []")). Defined.

Example cast_names :
  map (λ s, is_ok (castTypeName (StringLiteral s))) ["double precision"; "int[][]"; "text; drop"; "a'b"; "int--"; ""; "1x"; "public.t"]
  = [true; true; false; false; false; false; false; false].
Proof. vm_compute. reflexivity. Qed.
