(* ===== verification/CompileFlaws.v ===== *)
(** Where the compiler's statement is not what the query says, or there is none:
    each with the query that shows it. *)
From Stdlib Require Import ZArith Lia Ascii.
From S2P Require Import Prelude Writer Catalog Joins KeysFacts Expression Nodes ResolveQuery ResolveQueryFacts ResolveExpr ResolveExprFacts TempTable Compile Erase CompileText.
Set Warnings "-register-all".

(** ** Operators *)

(** What [compileOperand] writes without parentheses. *)
Definition bare (e : Expression) : bool :=
  match e with BinaryExpr _ _ _ | FoldedExpr _ _ _ => false | _ => true end.

Section operators.
Context (d : DbInfos) (Sanitize : string → string) (ns : list QueryNode) (cfg : settings) (order : list node_id → list node_id).
Abbreviation compile := (compile d Sanitize ns cfg order).

Lemma bind_assoc {A B D} (m : C A) (f : A → C B) (g : B → C D) c : ((m ≫= f) ≫= g) c = (m ≫= λ a, f a ≫= g) c.
Proof. unfold mbind, M_bind. by destruct (m c) as [[a c1]|e| |]. Qed.

Lemma bare_operand run e n : bare e = true → compileOperand run e n = run (JExpr e n).
Proof. by destruct e. Qed.

Lemma at_node {A} i x (f : QueryNode → C A) c : ns !! i = Some x → (c_node ns i ≫= f) c = f x c.
Proof. intros H. unfold c_node, at_index, mbind, M_bind, lift. by rewrite H. Qed.

Lemma write_write a b (m : C unit) c : (_ ← write a; _ ← write b; m) c = (_ ← write (a +:+ b); m) c.
Proof. unfold write, modify, mbind, M_bind. cbn beta iota. unfold set_w. cbn [c_w c_next c_alias c_laterals]. by rewrite Write_app. Qed.

Lemma compile_not fuel e n :
  compile (S fuel) (JExpr (UnaryExpr "not" e) n) = (_ ← write "not "; compileOperand (compile fuel) e n).
Proof. reflexivity. Qed.
Lemma compile_neg fuel e n :
  compile (S fuel) (JExpr (UnaryExpr "-" e) n) = (_ ← write "-"; compileOperand (compile fuel) e n).
Proof. reflexivity. Qed.
Lemma compile_is_null fuel e n :
  compile (S fuel) (JExpr (UnaryExpr "is_null" e) n) = (_ ← compileOperand (compile fuel) e n; write " is null").
Proof. reflexivity. Qed.
End operators.

(** C37: [not] and [is_null] do not keep their operand apart: the negation of
    [x is null] and the test of [not x] for null are the same text, which the
    database reads as the negation. *)
Theorem not_is_null_collide (d : DbInfos) (Sanitize : string → string) (ns : list QueryNode) (cfg : settings)
    (order : list node_id → list node_id) (fuel : nat) (x : Expression) (n : option node_id) (c : sqlCompiler) (Hx : bare x = true) :
  compile d Sanitize ns cfg order (S (S fuel)) (JExpr (UnaryExpr "not" (UnaryExpr "is_null" x)) n) c =
  compile d Sanitize ns cfg order (S (S fuel)) (JExpr (UnaryExpr "is_null" (UnaryExpr "not" x)) n) c.
Proof.
  rewrite compile_not, compile_is_null, !bare_operand by done. rewrite compile_not, compile_is_null, !bare_operand by done.
  by rewrite bind_assoc.
Qed.

Lemma not_is_null_collide_witness :
  compile blog_infos quoted [] (MkSettings false "" false FormatJSON None) (λ l, l) 3
    (JExpr (UnaryExpr "not" (UnaryExpr "is_null" (BoolLiteral true))) None) newSQLCompiler =
  compile blog_infos quoted [] (MkSettings false "" false FormatJSON None) (λ l, l) 3
    (JExpr (UnaryExpr "is_null" (UnaryExpr "not" (BoolLiteral true))) None) newSQLCompiler.
Proof. by apply (not_is_null_collide _ _ _ _ _ 1 (BoolLiteral true)). Defined.

(** C36: the negation of a negation starts a comment: its two signs are written
    next to each other, and the database drops the rest of the line. *)
Theorem double_negation_comments (d : DbInfos) (Sanitize : string → string) (ns : list QueryNode) (cfg : settings)
    (order : list node_id → list node_id) (fuel : nat) (x : Expression) (n : option node_id) (c : sqlCompiler) :
  compile d Sanitize ns cfg order (S (S fuel)) (JExpr (UnaryExpr "-" (UnaryExpr "-" x)) n) c =
  (_ ← write "--"; compileOperand (compile d Sanitize ns cfg order fuel) x n) c.
Proof.
  rewrite compile_neg, bare_operand, compile_neg by done. apply (write_write "-" "-").
Qed.

(** What selects it: the one field is a comment, and what the database reads is a
    statement without columns. *)
Definition compiled (d : DbInfos) (q : rawRelation) : outcome string :=
  '(i, s) ← resolveQuery d (MkBlacklist ∅ ∅) 6 q empty_resolver;
  '(_, s') ← resolveExpressions d (MkBlacklist ∅ ∅) (length (r_nodes s)) i s;
  w ← CompileSelect d quoted (r_nodes s') (λ l, l) 60 i;
  Ok (buf w).

Definition users_selecting (fields : list (string * Expression)) : rawRelation :=
  RawRelation "users" "" false "" "" None None None None "" "" None None None None (Some (ObjectExpr fields)) false [] [] None None.

Example double_negation_text :
  compiled blog_infos (users_selecting [("n", UnaryExpr "-" (UnaryExpr "-" (Identifier "id" None)))]) =
  Ok ("select row_to_json(t1) from (" +:+ newline +:+ "  select --t1.id as n from " +:+ quoted "public" +:+ "." +:+
      quoted "users" +:+ " t1" +:+ newline +:+ ") t1").
Proof. vm_compute. reflexivity. Qed.

(** ** Shared children *)

(** The blog with the aggregate [count]. *)
Definition count_fn : Function_ :=
  MkFunction (MkIdent "pg_catalog" "count") [MkArg "" 2276 ModeIn] 1 0 "a" false 20 None.
Definition counting : DbInfos :=
  MkDbInfos (Relations blog_infos) (RelationMapBySchemaName blog_infos) [count_fn]
    {[ "pg_catalog" := {[ "count" := [0%nat] ]} ]} ∅ ["public"; "pg_catalog"].
Definition count_posts (address : nat) : Expression :=
  AggExpr address (MkFunctionRef "" "count") [Identifier "posts" None] None false [] None.
Definition users_with_posts (fields : list (string * Expression)) (where_ : option Expression) : rawRelation :=
  RawRelation "users" "" false "" "" None None None where_ "" "" None None None
    (Some [("posts", plain_query "posts" (Some [("author", "id")]) None)]) (Some (ObjectExpr fields)) false [] [] None None.

Definition posts_text (alias : string) : string :=
  "select " +:+ alias +:+ ".id as id, " +:+ alias +:+ ".author as author from " +:+ quoted "public" +:+ "." +:+ quoted "posts" +:+
  " " +:+ alias +:+ " where " +:+ alias +:+ ".author = t1.id" +:+ newline.
Definition users_text : string := " from " +:+ quoted "public" +:+ "." +:+ quoted "users" +:+ " t1".

(** The text for one order of the plans. *)
Definition compiled_in (order : list node_id → list node_id) (d : DbInfos) (q : rawRelation) : outcome string :=
  '(i, s) ← resolveQuery d (MkBlacklist ∅ ∅) 6 q empty_resolver;
  '(_, s') ← resolveExpressions d (MkBlacklist ∅ ∅) (length (r_nodes s)) i s;
  w ← CompileSelect d quoted (r_nodes s') order 60 i;
  Ok (buf w).
Definition count_child (address : nat) (alias : string) : Expression :=
  AggExpr address (MkFunctionRef "" "count") [Identifier alias None] None false [] None.
Definition posts_twice : rawRelation :=
  RawRelation "users" "" false "" "" None None None None "" "" None None None
    (Some [("posts", plain_query "posts" (Some [("author", "id")]) None); ("more", plain_query "posts" (Some [("author", "id")]) None)])
    (Some (ObjectExpr [("a", Identifier "posts" None); ("b", Identifier "more" None);
                       ("m", count_child 1 "more"); ("n", count_child 2 "posts")])) false [] [] None None.


(** ** References to rows *)

(** The blog with the index of the primary key of [users]. *)
Definition indexed : DbInfos :=
  MkDbInfos (alter (registerIndexCoverage ["id"]) 1 (Relations blog_infos)) (RelationMapBySchemaName blog_infos) [] ∅ ∅ ["public"].

(** The posts with the name of their author, among the authors a condition admits. *)
Definition posts_with_author (where_ : option Expression) (fields : list (string * Expression)) : rawRelation :=
  RawRelation "posts" "" false "" "" None None None None "" "" None None None
    (Some [("by", RawRelation "users" "" false "" "" (Some [("id", "author")]) None None where_ "" "" None None None None None false [] [] None None)])
    (Some (ObjectExpr fields)) false [] [] None None.
Definition author_name : string * Expression := ("who", FoldedExpr FoldDot (Identifier "by" None) (Identifier "name" None)).


(** A call that does not return, from any state. *)
Definition diverges {A} (m : C A) : Prop := ∀ s, m s = OutOfFuel.

Lemma diverges_first {A B} (m : C A) (f : A → C B) : diverges m → diverges (m ≫= f).
Proof. intros Hm s. unfold mbind, M_bind. by rewrite Hm. Qed.
Lemma diverges_then {A B} (m : C A) (f : A → C B) : (∀ s, ∃ a s', m s = Ok (a, s')) → (∀ a, diverges (f a)) → diverges (m ≫= f).
Proof. intros Hm Hf s. unfold mbind, M_bind. destruct (Hm s) as (a & s' & ->). apply Hf. Qed.
Lemma diverges_write {A} a (m : C A) : diverges m → diverges (_ ← write a; m).
Proof. intros Hm. apply diverges_then; [|done]. intros s. unfold write, modify. eauto. Qed.
Lemma diverges_Paren m : diverges m → diverges (Paren m).
Proof. intros Hm. apply diverges_write. by apply diverges_first. Qed.

(** C34: a function joined to one row whose arguments name its own join is
    compiled without end: its arguments are in the scope of its parent, where the
    name is the function's row, for which the function is called. *)
Theorem self_argument_diverges (d : DbInfos) (Sanitize : string → string) (ns : list QueryNode) (cfg : settings)
    (order : list node_id → list node_id) (p c : node_id) (parent child : QueryNode) (fn : Function_) (name : string) (rest : list Expression)
    (Hparent : ns !! p = Some parent) (Hchild : ns !! c = Some child) (Hup : n_parent child = Some p)
    (Hone : c ∈ n_outgoing parent) (Hc : c ≠ p) (Hfn : n_function child = Some fn) (Hnamed : n_named child = None)
    (Hargs : n_args child = Identifier name (Some (RQueryNode c)) :: rest) (fuel : nat) (s : sqlCompiler) :
  compile d Sanitize ns cfg order fuel (JExpr (Identifier name (Some (RQueryNode c))) (Some p)) s = OutOfFuel.
Proof.
  revert s. induction fuel as [|fuel IH]; intros s; [done|].
  cbn [compile compile_body compileExpr_body compileResolvedField]. rewrite decide_False by congruence.
  unfold compileChildRowValue, scalar_hop. rewrite (at_node _ c child) by done. unfold isOutgoingOf. rewrite Hup, bind_assoc.
  rewrite (at_node _ p parent), bool_decide_true by done.
  assert (∀ alias, diverges (compileFrom d Sanitize ns cfg (compile d Sanitize ns cfg order fuel) c alias)) as Hfrom.
  { intros alias s1. unfold compileFrom. rewrite (at_node _ c child), Hfn, Hup, Hnamed, Hargs by done.
    apply diverges_write, diverges_first, diverges_write, diverges_first, diverges_then.
    - intros s2. unfold indent, modify. eauto.
    - intros _. apply diverges_first, diverges_first, diverges_then; [|intros _; exact IH]. intros s2. by eexists _, _. }
  apply (diverges_then allocAlias); [intros s1; unfold allocAlias; by eexists _, _|]. intros alias.
  by apply diverges_Paren, diverges_write, diverges_write, diverges_write, diverges_first.
Qed.

(** A function of the author of a post, which returns a user. *)
Definition owner_fn : Function_ :=
  MkFunction (MkIdent "public" "owner") [MkArg "" 23 ModeIn] 1 0 "f" false 77 None.
Definition owning : DbInfos :=
  MkDbInfos (Relations indexed) (RelationMapBySchemaName indexed) [owner_fn]
    {[ "public" := {[ "owner" := [0%nat] ]} ]} {[ 77 := MkType (MkIdent "public" "users") None None None (Some 1) false [] ]} ["public"].
Definition posts_with_owner : rawRelation :=
  RawRelation "posts" "" false "" "" None None None None "" "" None None None
    (Some [("o", RawRelation "" "owner" true "" "" (Some [("id", "author")]) (Some [Identifier "o" None]) None None "" "" None None None None None false [] [] None None)])
    None false [] [] None None.
Definition owning_nodes : outcome (list QueryNode) :=
  '(i, s) ← resolveQuery owning (MkBlacklist ∅ ∅) 6 posts_with_owner empty_resolver;
  '(_, s') ← resolveExpressions owning (MkBlacklist ∅ ∅) (length (r_nodes s)) i s;
  Ok (r_nodes s').

Lemma self_argument_diverges_witness :
  ∃ ns child, owning_nodes = Ok ns ∧ ns !! 1%nat = Some child ∧ n_args child = [Identifier "o" (Some (RQueryNode 1))] ∧
    ∀ fuel s, compile owning quoted ns (MkSettings false "" false FormatJSON None) (λ l, l) fuel
      (JExpr (Identifier "o" (Some (RQueryNode 1))) (Some 0%nat)) s = OutOfFuel.
Proof.
  destruct owning_nodes as [ns|e| |] eqn:E; [|vm_compute in E; discriminate E..].
  destruct (ns !! 0%nat) as [parent|] eqn:Hp; [|vm_compute in E; injection E as <-; vm_compute in Hp; discriminate Hp].
  destruct (ns !! 1%nat) as [child|] eqn:Hc; [|vm_compute in E; injection E as <-; vm_compute in Hc; discriminate Hc].
  exists ns, child. vm_compute in E. injection E as <-. vm_compute in Hp, Hc. injection Hp as <-. injection Hc as <-.
  split; [done|]. split; [done|]. split; [done|]. intros fuel s.
  by eapply (self_argument_diverges _ _ _ _ _ 0 1); [reflexivity|reflexivity|reflexivity|apply (bool_decide_unpack _); vm_compute|discriminate|reflexivity..].
Defined.

(** ** A node that selects itself *)

(** The same where no plan is shared. *)
Definition diverges_alone {A} (m : C A) : Prop := ∀ s, c_laterals s = [] → m s = OutOfFuel.

Lemma alone_first {A B} (m : C A) (f : A → C B) : diverges_alone m → diverges_alone (m ≫= f).
Proof. intros Hm s Hs. unfold mbind, M_bind. by rewrite Hm. Qed.
Lemma alone_then {A B} (m : C A) a (f : A → C B) :
  (∀ s, ∃ s', m s = Ok (a, s') ∧ c_laterals s' = c_laterals s) → diverges_alone (f a) → diverges_alone (m ≫= f).
Proof. intros Hm Hf s Hs. unfold mbind, M_bind. destruct (Hm s) as (s' & -> & Hl). apply Hf. congruence. Qed.
Lemma alone_write {A} a (m : C A) : diverges_alone m → diverges_alone (_ ← write a; m).
Proof. intros Hm. apply (alone_then _ tt); [|done]. intros s. unfold write, modify. by eexists. Qed.
Lemma diverges_is_alone {A} (m : C A) : diverges m → diverges_alone m.
Proof. intros Hm s _. apply Hm. Qed.

Lemma diverges_ret {A B} (a : A) (f : A → C B) : diverges (f a) → diverges (mret a ≫= f).
Proof. done. Qed.
Lemma diverges_get {B} (f : sqlCompiler → C B) : (∀ c, diverges (f c)) → diverges (get ≫= f).
Proof. intros Hf s. apply Hf. Qed.
Lemma diverges_reset {A} (m : C A) : diverges_alone m → diverges (_ ← modify (set_laterals []); m).
Proof. intros Hm s. by apply Hm. Qed.
Lemma sorted_one {A} k (a : A) : sorted_fields [(k, a)] = [(k, a)].
Proof. unfold sorted_fields. cbn [map fst]. change (sort_strings [k]) with [k]. cbn. by rewrite decide_True. Qed.
Lemma alone_get {B} (f : sqlCompiler → C B) : (∀ c, c_laterals c = [] → diverges_alone (f c)) → diverges_alone (get ≫= f).
Proof. intros Hf s Hs. by apply Hf. Qed.
Lemma alone_assoc {A B D} (m : C A) (f : A → C B) (g : B → C D) :
  diverges_alone (m ≫= λ a, f a ≫= g) → diverges_alone ((m ≫= f) ≫= g).
Proof. intros H s Hs. rewrite bind_assoc. by apply H. Qed.
Lemma alone_node {B} ns i x (f : QueryNode → C B) : ns !! i = Some x → diverges_alone (f x) → diverges_alone (c_node ns i ≫= f).
Proof. intros Hx Hf s Hs. rewrite (at_node _ i x) by done. by apply Hf. Qed.
Lemma alone_Paren m : diverges_alone m → diverges_alone (Paren m).
Proof. intros Hm. apply alone_write. by apply alone_first. Qed.

(** C35: A node that selects its own alias as a field is compiled without end: the
    alias is taken for a join, which embeds the node in itself. *)
Theorem self_select_diverges (d : DbInfos) (Sanitize : string → string) (ns : list QueryNode) (cfg : settings)
    (order : list node_id → list node_id) (i : node_id) (x : QueryNode) (k name : string)
    (Hx : ns !! i = Some x) (Hselect : n_select x = ObjectExpr [(k, Identifier name (Some (RQueryNode i)))])
    (Hin : n_incoming x = []) (Hdistinct : n_distinct x = false) (Hon : n_distinct_on x = [])
    (Hfn : n_function x = None) (Hcount : countMode cfg = false) (fuel : nat) (alias parent : string) (s : sqlCompiler) :
  compile d Sanitize ns cfg order fuel (JNode i alias parent) s = OutOfFuel.
Proof.
  revert alias parent s. induction fuel as [|fuel IH]; intros alias parent s; [done|].
  cbn [compile compile_body]. set (run := compile d Sanitize ns cfg order fuel) in *. clearbody run.
  assert (∀ p, diverges_alone (compileEmbedField ns cfg run i i p)) as Hembed.
  { intros p. unfold compileEmbedField. apply alone_get. intros c Hc. rewrite Hc. cbn [plan_of find fmap option_fmap option_map].
    apply (alone_node _ i x); [done|]. unfold is_scalar_function. rewrite Hfn.
    unfold isOutgoingOf. apply alone_assoc, (alone_node _ i x); [done|]. apply (alone_then _ (bool_decide (i ∈ n_outgoing x))); [by eexists|].
    intros s1 Hs1. apply (diverges_then allocAlias); [intros s2; unfold allocAlias; by eexists _, _|]. intros a.
    apply diverges_Paren, diverges_write, diverges_then.
    { intros s2. unfold write, modify, mbind, M_bind. by destruct (bool_decide _); eexists _, _. }
    intros _. apply diverges_write, diverges_first. unfold Indented.
    apply diverges_then; [intros s2; unfold indent, modify; by eexists _, _|]. intros _. apply diverges_first. intros s2. apply IH. }
  revert s. change (diverges (compileNodeCorrelated d Sanitize ns cfg order run i alias parent)). unfold compileNodeCorrelated.
  apply diverges_then; [intros s; unfold set_alias, modify; by eexists _, _|]. intros _ s. rewrite (at_node _ i x) by done. revert s.
  unfold analyzeLaterals. rewrite Hin. apply diverges_ret, diverges_get. intros before. apply diverges_reset.
  apply alone_write. rewrite Hcount. apply alone_first. unfold compile_select_list. rewrite Hdistinct, Hon, Hselect.
  apply (alone_then _ tt); [by eexists|]. change (isShapeProducingSelect _) with true. cbv iota.
  apply (alone_then _ [SFExpr k (Identifier name (Some (RQueryNode i)))]); [intros s; exists s|].
  { split; [|done]. unfold selectFieldsFor, and_fields. by rewrite sorted_one. }
  unfold List_. cbn [for_each]. apply alone_first, (alone_then _ tt); [by eexists|].
  by apply alone_first, Hembed.
Qed.

(** A query of the users that selects its own alias. *)
Definition users_selecting_self : rawRelation :=
  RawRelation "users" "" false "" "u" None None None None "" "" None None None None
    (Some (ObjectExpr [("self", Identifier "u" None)])) false [] [] None None.
Definition self_nodes : list QueryNode :=
  match resolveQuery blog_infos (MkBlacklist ∅ ∅) 6 users_selecting_self empty_resolver with
  | Ok (i, s) =>
      match resolveExpressions blog_infos (MkBlacklist ∅ ∅) (length (r_nodes s)) i s with
      | Ok (_, s) => r_nodes s
      | _ => []
      end
  | _ => []
  end.

Lemma self_select_diverges_witness :
  ∃ x, self_nodes !! 0%nat = Some x ∧
    ∀ fuel s, compile blog_infos quoted self_nodes (MkSettings false "" false FormatJSON None) (λ l, l) fuel (JNode 0 "t1" "") s = OutOfFuel.
Proof.
  destruct (self_nodes !! 0%nat) as [x|] eqn:Hx; [|vm_compute in Hx; discriminate Hx]. exists x. split; [reflexivity|].
  intros fuel s. eapply (self_select_diverges _ _ _ _ _ 0 x "self" "u"); [exact Hx|..]; vm_compute in Hx; injection Hx as <-; reflexivity.
Defined.
